(* ===== verification/_CoqProject ===== *)
-Q . S2P
Prelude.v
GoFloat.v
Http.v
Concurrency.v
RoundRobin.v
Weighted.v
UpstreamState.v
CircuitBreaker.v
CircuitBreakerConc.v
CircuitBreakerSpec.v
LeastConn.v
Ejecting.v
LatencyEjecting.v
HealthCheck.v
RateLimit.v
FixedWindow.v
Concurrent.v
ConcurrentQueue.v
LeakyBucket.v
SlidingWindow.v
Lru.v
Memory.v
GoStrings.v
GoNet.v
Policy.v
ProxyProtocol.v
UpstreamHandler.v
Hedging.v
Proxy.v
Middleware.v
Routing.v
CacheKeys.v
Headers.v
CacheServe.v
CacheServeFacts.v
CacheMemory.v
CacheFlight.v
Purge.v
Disk.v
DiskFacts.v
DiskCap.v
DiskScan.v
DiskRuns.v
GoIO.v
WafEngine.v
Waf.v
WafFacts.v
Mirror.v
MirrorFacts.v
Jwks.v
JwksFacts.v
Authn.v
AuthnFacts.v
Timeout.v
BodyLimit.v
Redis.v
Compress.v
Server.v
Logger.v
FileServer.v
Transport.v
Router.v
Google.v
H2Push.v
Prom.v
Serving.v
Pipeline.v
PromRegistry.v
LoadMetrics.v
GatedPool.v
CloneMeta.v
CacheReport.v
BufferPool.v
Writers.v
