(* ===== verification/Prelude.v ===== *)
(** * A verification development for parapet

    parapet is a reverse proxy written in Go: a server composes middlewares, and
    a request passes through authentication, rate limiting, a firewall, caching and
    header middlewares before a load balancer hands it to one of several upstream
    targets.  The parts with state of their own, and where most of the hard behaviour
    is (lock-free counters, several mutexes, channels, clocks, crashes, machine-width
    arithmetic, untrusted bytes), are modelled here from their sources under [src/].

    ** Layout: which file models what

    Foundations
    - [Prelude]: Go's integer types as [Z] with their wrap-around, durations, and
      the list, option and integer lemmas and automation the components share.
    - [GoFloat]: float64 as Stdlib's binary64.  [GoStrings]: the parts of strings,
      strconv and http.Header in use.  [GoNet]: IP addresses, CIDRs and host:port.
      [GoIO]: readers, limits and copies.
    - [Http]: errors (with [errors.Is]), requests, responses and round-tripper
      outcomes; a transport is an interface of the code, so a function parameter
      that may also panic.
    - [Concurrency]: goroutines over sequentially consistent atomics as
      resumptions, with a function [run] (alone), a step relation [pstep]
      (interleaved, with environment steps), a rely-guarantee logic proved
      sound against it, and the states a program can be interrupted in.
    - [Middleware]: middleware.go, handler.go and pkg/block.  A handler takes a
      request to a tree of calls on its response writer, a middleware a handler to a
      handler, a wrapped writer is a function on trees; [exec] is net/http's writer.

    Load balancing, [src/pkg/upstream/]
    - [RoundRobin]: loadbalancer.go ([Target], the health gate, [pick],
      [RoundTrip]) and the cursor scan that other balancers repeat.
    - [Weighted]: weighted.go, smooth weighted round robin in int64.
    - [UpstreamState]: state.go and the doubling backoff.
    - [CircuitBreaker]: circuitbreaker.go, the breaker's methods as goroutine
      programs with one action per atomic operation, and the balancer around them;
      [CircuitBreakerConc]: its invariants under any interleaving;
      [CircuitBreakerSpec]: the documented three-state machine and the refinement.
    - [LeastConn]: leastconn.go, the load scan, the compare-and-swap claim, the
      once-only release.
    - [Ejecting]: ejecting.go, passive ejection and recovery; [LatencyEjecting]:
      latencyejecting.go, the latency estimate and outlier ejection.
    - [HealthCheck]: healthcheck.go, probe verdicts, thresholds, and the lifecycle
      of the probing goroutines as a step relation.
    - [UpstreamHandler]: upstream.go, path joining, retries and error replies.
    - [Hedging]: hedging.go, the race of attempts as a step relation.
    - [Transport]: transport.go, what each transport builds and which one is taken.
    All balancers read the same [healthGate]; the active checker is its only
    writer, and the balancers call the transport of the target they picked.

    Rate limiting, [src/pkg/ratelimit/]
    - [RateLimit]: ratelimit.go and observe.go.  The interface [Strategy] is a type
      class; the middleware and its theorems are over any instance.
    - [FixedWindow], [SlidingWindow], [LeakyBucket], [Concurrent],
      [ConcurrentQueue], [Redis]: one strategy each, from the file of the same name.
      Where [Take] keeps a pointer to an item outside the mutex the items live in
      a heap and [Take] is split at the point where it blocks or sleeps.

    Caching, [src/pkg/cache/]
    - [Lru]: lru.go, the byte-bounded index over list elements with identities.
    - [Memory]: storage.go and memory.go; the map and the index have a mutex each,
      so operations are programs of several locked sections.
    - [Disk]: disk.go over a file system that can fail or crash at any operation;
      [DiskFacts], [DiskCap], [DiskScan], [DiskRuns]: its theorems and runs.
    - [Policy]: policy.go and the [Override] types of cache.go.  [CacheKeys]: the
      keys of entries.  [CacheServe]: cache.go, tee.go and stale.go over any storage
      and origin ([CacheServeFacts]: its theorems; [CacheMemory]: with the in-memory
      backend); [CacheFlight]: the single flight of concurrent requests.
    - [Purge]: purge/, tag and key purging and its snapshots.

    Middlewares
    - [Proxy]: proxy.go, forwarded headers and trust.  [Routing]: hosts, locations,
      prefix stripping.  [Headers]: header, CORS, HSTS, request ids, redirects.
    - [WafEngine], [Waf], [WafFacts]: pkg/waf, the request view and functions offered
      to rules, rule loading, the rule loop and predicates.
    - [Mirror], [MirrorFacts]: pkg/mirror, body capture, the mirrored request, the
      request goroutines and the worker pool.
    - [Jwks], [JwksFacts], [Authn], [AuthnFacts]: pkg/authn, the remote key set as a
      step relation and the basic, forwarded and bearer-token authenticators.
    - [Timeout]: pkg/timeout, the race of handler and timer.  [BodyLimit]: pkg/body,
      limiting and buffering.  [Compress]: pkg/compress/compress.go.
    - [Server]: the shutdown of server.go and pkg/healthz, callbacks and the health
      endpoint.  [Serving]: the rest of server.go, listener.go, new.go and cert.go.
    - [Writers]: the optional interfaces of the wrapped response writers, in stacks.
    - [Logger]: pkg/logger, the request's record and the counting writer.
      [FileServer]: pkg/fileserver, the confined file system and the fall-through.
    - [Router]: pkg/router over net/http's ServeMux, and RegExp locations.  [Google]:
      pkg/gcs and pkg/gcp.  [H2Push]: pkg/h2push.
    - [Prom]: pkg/prom, the observers as the calls they make on the metrics client, the
      connection gauge as a step relation, the scrape of occupancy; [PromRegistry]: its
      families and their registration.  [BufferPool]: pkg/internal/pool.

    Connections, [src/pkg/proxyprotocol/]
    - [ProxyProtocol]: parse.go and proxyprotocol.go, both header versions, the
      trust decision and the wrapped connection over a 4096-byte [bufio.Reader].

    Components together
    - [Pipeline]: the default limiter ([ClientIP], [New]) in an untrusting server.
    - [GatedPool]: the health gate in a balancer, and the prober's life in a server.
    - [LoadMetrics]: the least-connection balancer serving while it is scraped.
    - [CacheReport]: the cache's hook with the access log and the metrics.
    - [CloneMeta]: the copies of stored metadata, on a heap of maps and slices.

    ** What the theorems show

    - Circuit breaker: serving requests in sequence it is the documented machine
      ([cb_refines_fsm]); under any interleaving a half-open breaker never has more
      probes in flight than its cap, and no probe slot leaks, panics included
      ([cb_probe_cap], [cb_no_slot_leak]); the balancer sheds only when no breaker
      admits.
    - Least connections: the per-target cap is hard under any interleaving, every
      claimed slot returns exactly once, and a lone pick takes a least-loaded
      selectable target.
    - Ejection, health checks, rotation: ejection windows of one target do not
      overlap and back off by doubling; the gate flips exactly after the configured
      run of verdicts; [Close] drains the probe goroutines; the scans serve the
      first selectable target from the cursor and fail open; smooth weighted round
      robin gives each target exactly its weight per cycle and is never ahead by
      more than its share.
    - Upstream handler and hedging: a request is answered within the retry bound and is
      retried exactly when the documented policy allows it, and its joined path stays
      under the target's;
      of hedged attempts one wins, the others are cancelled and drained, and the race
      ends.
    - Rate limits: each strategy refines a counting or spacing specification, with
      its bounds on queues and channels and the absence of a deadlock in the
      queueing limiter; a fleet over one Redis store shares one limit; the middleware
      puts back exactly the tokens it took, for any strategy.
    - Cache: the index refines an LRU specification and stays in its byte budget; the
      in-memory backend alone refines an LRU cache; a commit to disk is all or nothing
      under a crash at any operation, the disk stays within its cap, and a scan keeps
      the intact entries the cap has room for and, of the rest, exactly what is too
      young to remove; a request adds to storage at most the whole response of an
      origin that returned, only when its directives allow it, and a hit is what
      storage held, fresh, for the request's own variant;
      one leader fills while the others wait, and all are answered; purging refines
      the history of purges and a purged entry is not served.
    - PROXY protocol: a connection yields the address of exactly one well-formed
      header and the bytes after it, consumes nothing else, rejects the rest, and
      version 2 headers round-trip.
    - Firewall: the rule loop is the first decision in priority order, loading is
      atomic, and the functions' caches make no difference.
    - Mirroring: the primary request is untouched and never waits; queue, pool,
      contexts and counters keep their invariant, and the pool drains.
    - Authentication: a request passes exactly with valid credentials, an allowing
      server, or a token signed under a pinned algorithm by the right key, of the
      configured issuer and audience and inside its dates; the key set
      is fetched by one goroutine at a time, is never lost, and no caller waits for
      ever.
    - Timeout, body limit, buffering, compression, shutdown: the response is the
      handler's or the timeout's and never a mix (for a handler that neither flushes nor
      sends a 1xx status); the handler reads at most the limit;
      only whole bodies are passed on; the body decodes to the handler's; each
      callback runs exactly once, and readiness fails once shutdown began.
    - Logger, file server, transports: the log has the status and length that were sent
      and changes neither; a file is served only if it really lies under the root, and
      a 404 gives the next handler's response alone; every transport built is bounded,
      and an upgrade never goes over HTTP/2.
    - Router, storage, push, metrics: a request goes to the longest pattern that is the
      path or above it; an object name stays under the base path if the path has no "..";
      the links pushed are the response's preloads; counters count each event once
      whatever the interleaving, and the connection gauge is exact at rest.
    - Server and compositions: the first request fixes the chain, and every later one is
      answered by it; behind a server that trusts no peer, each peer address has exactly
      its quota whatever headers it sends ([peers_limited]); requests go to a target whose
      probes are good, and the prober ends with the server ([prober_stops_with_server]);
      what a caller of the cache does with its copy never changes what is stored
      ([clone_isolated]); a scrape never reports more than a target's cap; registration
      never panics and every metric call fits its family; an upgrade passes any stack of
      writers in front of an upstream.
    - Examples that end where the code's comments say they should not (a wrapped
      counter, a limit that overflows, an interleaving of [Delete] and [Commit], a
      final status dropped after a 1xx, a flush before the first write) are runs of
      the modelled code.

    ** Bounds and fuel

    - Retry loops ([for] around a compare-and-swap) carry fuel.  In the concurrent
      theorems the fuel is arbitrary and running out is the state [Spin], "still
      looping", which holds what the goroutine held: the theorems are therefore
      about every prefix of every execution.  In the sequential theorems a small
      constant suffices, because a compare-and-swap by a goroutine running alone
      succeeds at its first try, and the result is proved to be produced.
    - The breaker packs a 32-bit generation with its state: statements that tell
      two generations apart are for fewer than 2^32 transitions, the point at which
      the code's own counter repeats.
    - The LRU's byte budget is below 2^62, so that a sum of two sizes stays in
      int64; other int64 ranges are hypotheses where the code's arithmetic needs
      them, and the widths are kept where overflow is itself the subject.
    - [net.ParseIP] is modelled with the fuel its format bounds: eight groups.
    - Where goroutines are phases of a step relation there is no fuel: termination is
      a bound on the number of moves in any schedule, with the state in which none is
      left.

    ** Parameters

    CEL, regular expressions, Unicode case tables, encoding/json, digests,
    [math.Exp], [http.Redirect], [http.ParseTime], [mime.ParseMediaType], UUIDs,
    go-jose, Redis, [filepath.Abs] and [EvalSymlinks], the Link parser, cloud storage, encoders, transports and
    origins are arguments of the definitions
    that use them; what a theorem needs of them is a named class or hypothesis stating
    documented behaviour, shown to hold of a concrete instance by the theorem's
    witness.  [ToLower] and [EqualFold] are those of ASCII.

    ** Not modelled

    Sockets, TLS, the making of keys and signatures, and net/http's exchange of a request:
    parameters where a decision depends on their outcome.  The metrics endpoint, and
    tracing (pkg/trace and pkg/stackdriver configure OpenCensus): they hand values to
    third-party code and decide nothing.  Log lines.  The sharing of value slices in header
    maps, except in [Proxy] and [CloneMeta] where it matters; on disk, the loss of writes
    that were not synced.  Observation callbacks that no decision depends on are left out of
    the components that call them, and composed with their observers in [LoadMetrics] and
    [CacheReport]. *)

From stdpp Require Export base list list_numbers gmap strings numbers relations.
From Stdlib Require Export ZArith Lia.

#[global] Open Scope Z_scope.

(** ** Go's machine integers

    An integer of the program is a [Z]; the operations that can leave the range
    of its type are followed by the conversion of that type. *)
Definition wrap_u (w z : Z) : Z := z mod 2 ^ w.
Definition wrap_s (w z : Z) : Z := (z + 2 ^ (w - 1)) mod 2 ^ w - 2 ^ (w - 1).

Definition u8 (z : Z) : Z := wrap_u 8 z.
Definition u16 (z : Z) : Z := wrap_u 16 z.
Definition u32 (z : Z) : Z := wrap_u 32 z.
Definition u64 (z : Z) : Z := wrap_u 64 z.
Definition i32 (z : Z) : Z := wrap_s 32 z.
Definition i64 (z : Z) : Z := wrap_s 64 z.

Definition max_i64 : Z := 2 ^ 63 - 1.
Definition max_i32 : Z := 2 ^ 31 - 1.

(** [time.Duration] constants, in nanoseconds. *)
Definition Nanosecond : Z := 1.
Definition Millisecond : Z := 1000000.
Definition Second : Z := 1000 * Millisecond.
Definition Minute : Z := 60 * Second.
Definition Hour : Z := 60 * Minute.

Create HintDb parapet.
Create Rewrite HintDb parapet_rw.

Lemma u32_small z : 0 <= z < 2 ^ 32 -> u32 z = z.
Proof. intros H. unfold u32, wrap_u. now apply Z.mod_small. Qed.

Lemma u64_small z : 0 <= z < 2 ^ 64 -> u64 z = z.
Proof. intros H. unfold u64, wrap_u. now apply Z.mod_small. Qed.

Lemma u16_small z : 0 <= z < 2 ^ 16 -> u16 z = z.
Proof. intros H. unfold u16, wrap_u. now apply Z.mod_small. Qed.

Lemma u8_small z : 0 <= z < 2 ^ 8 -> u8 z = z.
Proof. intros H. unfold u8, wrap_u. now apply Z.mod_small. Qed.

Lemma wrap_s_small w z :
  0 < w -> - 2 ^ (w - 1) <= z < 2 ^ (w - 1) -> wrap_s w z = z.
Proof.
  intros Hw H. unfold wrap_s.
  assert (2 ^ w = 2 * 2 ^ (w - 1)) as E.
  { rewrite <- Z.pow_succ_r by lia. f_equal. lia. }
  rewrite Z.mod_small by lia. lia.
Qed.

Lemma i64_small z : - 2 ^ 63 <= z < 2 ^ 63 -> i64 z = z.
Proof. intros H. now apply wrap_s_small. Qed.

Lemma i32_small z : - 2 ^ 31 <= z < 2 ^ 31 -> i32 z = z.
Proof. intros H. now apply wrap_s_small. Qed.

Lemma u32_range z : 0 <= u32 z < 2 ^ 32.
Proof. apply Z.mod_pos_bound. lia. Qed.

Lemma u64_range z : 0 <= u64 z < 2 ^ 64.
Proof. apply Z.mod_pos_bound. lia. Qed.

Lemma wrap_s_range w z : 0 < w -> - 2 ^ (w - 1) <= wrap_s w z < 2 ^ (w - 1).
Proof.
  intros Hw. unfold wrap_s.
  assert (2 ^ w = 2 * 2 ^ (w - 1)) as E.
  { rewrite <- Z.pow_succ_r by lia. f_equal. lia. }
  pose proof (Z.mod_pos_bound (z + 2 ^ (w - 1)) (2 ^ w)). lia.
Qed.

Lemma i64_range z : - 2 ^ 63 <= i64 z < 2 ^ 63.
Proof. apply (wrap_s_range 64). lia. Qed.

Lemma i32_range z : - 2 ^ 31 <= i32 z < 2 ^ 31.
Proof. apply (wrap_s_range 32). lia. Qed.

(** Conversions commute with sums: only the last one matters. *)
Lemma wrap_s_add_l w a b : wrap_s w (wrap_s w a + b) = wrap_s w (a + b).
Proof.
  unfold wrap_s. f_equal. set (h := 2 ^ (w - 1)).
  replace ((a + h) mod 2 ^ w - h + b + h) with ((a + h) mod 2 ^ w + b) by lia.
  rewrite Zplus_mod_idemp_l. f_equal. lia.
Qed.

Lemma i64_add_l a b : i64 (i64 a + b) = i64 (a + b).
Proof. apply wrap_s_add_l. Qed.

Lemma i64_sub_l a b : i64 (i64 a - b) = i64 (a - b).
Proof. apply (wrap_s_add_l 64 a (- b)). Qed.

Lemma i64_mul_r a b : i64 (a * i64 b) = i64 (a * b).
Proof.
  unfold i64, wrap_s. set (h := 2 ^ (64 - 1)). set (w := 2 ^ 64).
  assert (w <> 0) as Hw by done.
  replace ((b + h) mod w - h) with (b + w * - ((b + h) / w)) by (rewrite Z.mod_eq by done; lia).
  replace (a * (b + w * - ((b + h) / w)) + h) with (a * b + h + (a * - ((b + h) / w)) * w) by lia.
  by rewrite Z.mod_add.
Qed.

#[export] Hint Rewrite u32_small u64_small i64_small i32_small using lia : parapet_rw.
#[export] Hint Resolve u32_range u64_range i64_range i32_range : parapet.

(** [wrap_small]: remove conversions whose argument is in range. *)
Ltac wrap_small :=
  repeat first
    [ rewrite u32_small by lia | rewrite u64_small by lia
    | rewrite i64_small by lia | rewrite i32_small by lia ].

(** [bool_case]: turn boolean comparisons in the context and the goal into
    propositions, splitting on the ones in the goal. *)
Ltac bool_prop :=
  repeat match goal with
  | H : (_ && _) = true |- _ => apply andb_true_iff in H; destruct H
  | H : (_ || _) = false |- _ => apply orb_false_iff in H; destruct H
  | H : (_ || _) = true |- _ => apply orb_true_iff in H
  | H : (_ && _) = false |- _ => apply andb_false_iff in H
  | H : negb _ = true |- _ => apply negb_true_iff in H
  | H : negb _ = false |- _ => apply negb_false_iff in H
  | H : (_ <? _) = true |- _ => apply Z.ltb_lt in H
  | H : (_ <? _) = false |- _ => apply Z.ltb_ge in H
  | H : (_ <=? _) = true |- _ => apply Z.leb_le in H
  | H : (_ <=? _) = false |- _ => apply Z.leb_gt in H
  | H : (_ =? _) = true |- _ => apply Z.eqb_eq in H
  | H : (_ =? _) = false |- _ => apply Z.eqb_neq in H
  end.

Ltac bool_case :=
  repeat match goal with
  | |- context [if ?b then _ else _] => let E := fresh "E" in destruct b eqn:E
  end; bool_prop.

(** ** Times *)

(** [time.Time] as nanoseconds since the Unix epoch; its zero value is 1 January
    of year 1.  [Sub] saturates. *)
Definition zero_time : Z := - 62135596800 * Second.
Definition time_sub (a b : Z) : Z := Z.max (- 2 ^ 63) (Z.min max_i64 (a - b)).

Lemma time_sub_pos a b : (time_sub a b <=? 0) = (a - b <=? 0).
Proof.
  unfold time_sub, max_i64. destruct (Z.leb_spec (a - b) 0).
  - apply Z.leb_le. lia.
  - apply Z.leb_gt. lia.
Qed.

Lemma time_sub_small a b : 0 <= a - b <= max_i64 -> time_sub a b = a - b.
Proof. unfold time_sub, max_i64. lia. Qed.

(** ** Bit fields *)

(** A field below a shifted one: [a << n | b] is [a * 2^n + b]. *)
Lemma lor_shiftl_add a b n :
  0 <= n -> 0 <= b < 2 ^ n -> Z.lor (Z.shiftl a n) b = a * 2 ^ n + b.
Proof.
  intros Hn Hb. rewrite <- Z.add_nocarry_lor; [by rewrite Z.shiftl_mul_pow2|].
  apply Z.bits_inj'. intros i Hi. rewrite Z.land_spec, Z.bits_0.
  destruct (decide (i < n)).
  - rewrite Z.shiftl_spec_low by lia. done.
  - destruct (decide (b = 0)) as [->|]; [rewrite Z.bits_0; apply andb_false_r|].
    rewrite (Z.bits_above_log2 b i); [apply andb_false_r|lia|].
    apply Z.log2_lt_pow2; [lia|]. eapply Z.lt_le_trans; [apply Hb|].
    apply Z.pow_le_mono_r; lia.
Qed.

(** Extracting a field: [(v & (ones w << n)) >> n]. *)
Lemma land_shiftr_field v w n :
  0 <= n -> 0 <= w -> Z.shiftr (Z.land v (Z.shiftl (Z.ones w) n)) n = (v / 2 ^ n) mod 2 ^ w.
Proof.
  intros Hn Hw. rewrite Z.shiftr_land, Z.shiftr_shiftl_l by lia.
  rewrite Z.sub_diag, Z.shiftl_0_r, Z.land_ones by lia. by rewrite Z.shiftr_div_pow2.
Qed.

(** ** Counting the keys of a map that carry a value *)

Section Count.
Context {A : Type} `{!EqDecision A}.

Definition count_eq (e : A) (m : gmap nat A) : Z :=
  Z.of_nat (size (filter (fun kv => kv.2 = e) m)).

Lemma count_eq_zero e m : (forall j g, m !! j = Some g -> g <> e) -> count_eq e m = 0.
Proof.
  intros H. unfold count_eq. enough (filter (fun kv => kv.2 = e) m = ∅) as -> by done.
  apply map_empty. intros j. apply map_lookup_filter_None. right.
  intros x Hx. cbn. eauto.
Qed.

Lemma count_eq_insert e m j :
  m !! j <> Some e -> count_eq e (<[j := e]> m) = count_eq e m + 1.
Proof.
  intros H. unfold count_eq. rewrite map_filter_insert_True by done.
  rewrite map_size_insert_None; [lia|].
  apply map_lookup_filter_None. right. intros x Hx Ex. cbn in Ex. congruence.
Qed.

Lemma count_eq_insert_ne e e' m j :
  m !! j <> Some e -> e' <> e -> count_eq e (<[j := e']> m) = count_eq e m.
Proof.
  intros H Hne. unfold count_eq. rewrite map_filter_insert_False by done.
  rewrite map_filter_delete, delete_id; [done|].
  apply map_lookup_filter_None. right. intros x Hx Ex. cbn in Ex. congruence.
Qed.

Lemma count_eq_delete e m j :
  m !! j = Some e -> count_eq e (delete j m) = count_eq e m - 1.
Proof.
  intros H. rewrite <- (insert_delete_id m j e H) at 2.
  rewrite count_eq_insert; [lia|]. by rewrite lookup_delete_eq.
Qed.

Lemma count_eq_delete_ne e m j :
  m !! j <> Some e -> count_eq e (delete j m) = count_eq e m.
Proof.
  intros H. unfold count_eq. rewrite map_filter_delete, delete_id; [done|].
  apply map_lookup_filter_None. right. intros x Hx Ex. cbn in Ex. congruence.
Qed.

Lemma count_eq_pos e m j : m !! j = Some e -> 0 < count_eq e m.
Proof.
  intros H. pose proof (count_eq_delete e m j H). unfold count_eq in *. lia.
Qed.

Lemma count_eq_nonneg e m : 0 <= count_eq e m.
Proof. unfold count_eq. lia. Qed.

Lemma count_eq_exists e m : 0 < count_eq e m -> exists j, m !! j = Some e.
Proof.
  unfold count_eq. intros H.
  destruct (map_choose (filter (fun kv => kv.2 = e) m)) as (j & x & Hx).
  { intros E. rewrite E, map_size_empty in H. lia. }
  apply map_lookup_filter_Some in Hx as [Hx E]. cbn in E. subst x. by exists j.
Qed.

(** Both cases of an insertion, and of a deletion, at once. *)
Lemma count_eq_insert_any e e' m j :
  count_eq e (<[j := e']> m)
  = count_eq e m + Z.b2z (bool_decide (e' = e)) - Z.b2z (bool_decide (m !! j = Some e)).
Proof.
  destruct (decide (m !! j = Some e)) as [H|H].
  - rewrite <- insert_delete_eq. pose proof (count_eq_delete e m j H).
    rewrite (bool_decide_true (m !! j = Some e)) by done. case_bool_decide; cbn.
    + subst e'. rewrite count_eq_insert by (rewrite lookup_delete_eq; congruence). lia.
    + rewrite count_eq_insert_ne by (rewrite ?lookup_delete_eq; congruence). lia.
  - rewrite (bool_decide_false (m !! j = Some e)) by done. case_bool_decide; cbn.
    + subst e'. rewrite count_eq_insert by done. lia.
    + rewrite count_eq_insert_ne by done. lia.
Qed.

Lemma count_eq_delete_any e m j :
  count_eq e (delete j m) = count_eq e m - Z.b2z (bool_decide (m !! j = Some e)).
Proof.
  case_bool_decide; cbn; [by apply count_eq_delete|rewrite count_eq_delete_ne by done; lia].
Qed.

Lemma count_eq_empty e : count_eq e ∅ = 0.
Proof. apply count_eq_zero. intros j g Hg. by rewrite lookup_empty in Hg. Qed.

End Count.

(** ** Lists *)

Section Filter.
Context {A B : Type}.

Lemma filter_ext_in (P Q : A -> Prop) `{!forall x, Decision (P x), !forall x, Decision (Q x)} (l : list A) :
  (forall x, x ∈ l -> P x <-> Q x) -> filter P l = filter Q l.
Proof.
  induction l as [|x l IH]; intros Hl; [done|].
  assert (P x <-> Q x) as Hx by (apply Hl; left).
  destruct (decide (P x)) as [HP|HP].
  - rewrite !filter_cons_True by tauto. f_equal. apply IH. intros y Hy. apply Hl. by right.
  - rewrite !filter_cons_False by tauto. apply IH. intros y Hy. apply Hl. by right.
Qed.

Lemma fmap_filter (f : A -> B) (P : B -> Prop) `{!forall x, Decision (P x)} (l : list A) :
  f <$> filter (fun x => P (f x)) l = filter P (f <$> l).
Proof.
  induction l as [|x l IH]; [done|]. rewrite fmap_cons. destruct (decide (P (f x))).
  - rewrite !filter_cons_True by done. by rewrite fmap_cons, IH.
  - by rewrite !filter_cons_False.
Qed.

Lemma NoDup_fmap_inj_on (f : A -> B) (l : list A) x y :
  NoDup (f <$> l) -> x ∈ l -> y ∈ l -> f x = f y -> x = y.
Proof.
  induction l as [|z l IH]; [by intros _ Hx%elem_of_nil|].
  rewrite fmap_cons, NoDup_cons, !elem_of_cons. intros [Hz Hd] [->|Hx] [->|Hy] E; try done.
  - destruct Hz. rewrite E. by apply list_elem_of_fmap_2.
  - destruct Hz. rewrite <- E. by apply list_elem_of_fmap_2.
  - by apply IH.
Qed.

Lemma NoDup_fmap_filter (f : A -> B) (P : A -> Prop) `{!forall x, Decision (P x)} (l : list A) :
  NoDup (f <$> l) -> NoDup (f <$> filter P l).
Proof.
  induction l as [|x l IH]; [done|]. rewrite fmap_cons, NoDup_cons. intros [Hx Hd].
  destruct (decide (P x)); [rewrite filter_cons_True by done|rewrite filter_cons_False by done; by apply IH].
  rewrite fmap_cons, NoDup_cons. split; [|by apply IH]. intros Hin. apply Hx.
  apply list_elem_of_fmap in Hin as (y & -> & Hy). apply list_elem_of_filter in Hy as [_ Hy].
  by apply list_elem_of_fmap_2.
Qed.
End Filter.

(** Updating one element of a list, seen from a sum and from a concatenation. *)
Lemma sum_list_with_insert {A} (f : A -> nat) (l : list A) i x y :
  l !! i = Some x -> (sum_list_with f (<[i := y]> l) + f x = sum_list_with f l + f y)%nat.
Proof.
  intros Hi. rewrite <- (take_drop_middle l i x Hi) at 2. rewrite insert_take_drop by eauto using lookup_lt_Some.
  rewrite !sum_list_with_app. cbn. lia.
Qed.

Lemma mbind_insert_perm {A B} (f : A -> list B) (l : list A) i x y :
  l !! i = Some x -> f x ++ (<[i := y]> l ≫= f) ≡ₚ f y ++ (l ≫= f).
Proof.
  intros Hi. rewrite <- (take_drop_middle l i x Hi) at 2. rewrite insert_take_drop by eauto using lookup_lt_Some.
  rewrite !bind_app, !bind_cons. solve_Permutation.
Qed.
