(* ===== verification/GoFloat.v ===== *)
(** * Go's float64

    IEEE binary64 with the Standard Library's executable specification of floats.
    An expression of the code is the tree of its operations, each rounded; the
    language also lets an implementation fuse a product and a sum, which the amd64
    compiler does not do. *)

From Stdlib Require Export Floats.SpecFloat.
From Stdlib Require Import Sorted.
From stdpp Require Import sorting.
From S2P Require Import Prelude.

(** float64: precision 53, maximal exponent 1024. *)
Definition float64 (z : Z) : spec_float := binary_normalize 53 1024 z 0 false.
Definition f_add : spec_float -> spec_float -> spec_float := SFadd 53 1024.
Definition f_sub : spec_float -> spec_float -> spec_float := SFsub 53 1024.
Definition f_mul : spec_float -> spec_float -> spec_float := SFmul 53 1024.
Definition f_div : spec_float -> spec_float -> spec_float := SFdiv 53 1024.
Definition f_lt : spec_float -> spec_float -> bool := SFltb.
Definition f_le : spec_float -> spec_float -> bool := SFleb.

Definition f_opp : spec_float -> spec_float := SFopp.

(** The conversion to an integer truncates. *)
Definition f_trunc (f : spec_float) : Z :=
  match f with
  | S754_finite s m e =>
      let a := if 0 <=? e then Z.pos m * 2 ^ e else Z.quot (Z.pos m) (2 ^ (- e)) in
      if s then - a else a
  | _ => 0
  end.


#[global] Instance spec_float_eq_dec : EqDecision spec_float.
Proof. solve_decision. Defined.

Definition is_nan (f : spec_float) : bool := match f with S754_nan => true | _ => false end.

(** The order of [sort.Float64s]: NaNs first. *)
Definition f_less (a b : spec_float) : bool := f_lt a b || is_nan a && negb (is_nan b).

Fixpoint f_insert (x : spec_float) (l : list spec_float) : list spec_float :=
  match l with
  | [] => [x]
  | y :: l' => if f_less y x then y :: f_insert x l' else x :: l
  end.

Definition f_sort (l : list spec_float) : list spec_float := foldr f_insert [] l.

(** A position of each float in its order: the class, then what orders its class. *)
Definition f_key (f : spec_float) : Z * Z * Z :=
  match f with
  | S754_nan => (0, 0, 0)
  | S754_infinity true => (1, 0, 0)
  | S754_finite true m e => (2, - e, Z.neg m)
  | S754_zero _ => (3, 0, 0)
  | S754_finite false m e => (4, e, Z.pos m)
  | S754_infinity false => (5, 0, 0)
  end.

Definition lex_lt (a b : Z * Z * Z) : Prop :=
  a.1.1 < b.1.1 \/ a.1.1 = b.1.1 /\ (a.1.2 < b.1.2 \/ a.1.2 = b.1.2 /\ a.2 < b.2).

Lemma f_less_lex a b : f_less a b = true <-> lex_lt (f_key a) (f_key b).
Proof.
  unfold f_less, f_lt, SFltb, lex_lt.
  destruct a as [s| [] | |[] m e], b as [s'| [] | |[] m' e']; cbn; try (split; [done|lia]); try (split; lia);
    change (Pos.compare_cont Eq m m') with (Pos.compare m m');
    destruct (Z.compare_spec e e'); subst; cbn; try (split; [done|lia]); try (split; lia);
    destruct (Pos.compare_spec m m'); subst; cbn; (split; [done || lia|lia || done]).
Qed.

Lemma f_less_trans a b c : f_less a b = true -> f_less b c = true -> f_less a c = true.
Proof. rewrite !f_less_lex. unfold lex_lt. lia. Qed.

Lemma f_less_irrefl a : f_less a a = false.
Proof. destruct (f_less a a) eqn:E; [|done]. apply f_less_lex in E. unfold lex_lt in E. lia. Qed.

(** [<=] of the sort's order. *)
Definition f_leq (a b : spec_float) : Prop := f_less b a = false.

Lemma f_leq_lex a b : f_leq a b <-> ~ lex_lt (f_key b) (f_key a).
Proof. unfold f_leq. rewrite <- f_less_lex. by destruct (f_less b a). Qed.

#[global] Instance f_leq_dec a b : Decision (f_leq a b).
Proof. unfold f_leq. apply _. Defined.

#[global] Instance f_leq_preorder : PreOrder f_leq.
Proof.
  split.
  - intros a. apply f_less_irrefl.
  - intros a b c. rewrite !f_leq_lex. unfold lex_lt. lia.
Qed.

#[global] Instance f_leq_total : Total f_leq.
Proof. intros a b. rewrite !f_leq_lex. unfold lex_lt. lia. Qed.

Lemma f_insert_perm x l : f_insert x l ≡ₚ x :: l.
Proof.
  induction l as [|y l IH]; cbn; [done|]. destruct (f_less y x); [|done]. rewrite IH. constructor.
Qed.

Lemma f_sort_perm l : f_sort l ≡ₚ l.
Proof. induction l as [|x l IH]; cbn; [done|]. by rewrite f_insert_perm, IH. Qed.

Lemma f_insert_sorted x l : StronglySorted f_leq l -> StronglySorted f_leq (f_insert x l).
Proof.
  induction 1 as [|y l Hl IH Hy]; cbn; [repeat constructor|]. destruct (f_less y x) eqn:E.
  - constructor; [done|]. rewrite f_insert_perm. constructor; [|done].
    rewrite f_leq_lex. apply f_less_lex in E. unfold lex_lt in *. lia.
  - assert (f_leq x y) as Hxy by done. constructor; [by constructor|]. constructor; [done|].
    eapply Forall_impl; [exact Hy|]. intros z Hz. by etransitivity.
Qed.

Lemma f_sort_sorted l : StronglySorted f_leq (f_sort l).
Proof. induction l as [|x l IH]; cbn; [constructor|by apply f_insert_sorted]. Qed.
