(* ===== verification/Http.v ===== *)
(** * The net/http vocabulary the balancers and middlewares share

    Go's [error] values as the code inspects them (with [errors.Is] walking the
    unwrap chain), requests, responses and [http.RoundTripper] outcomes.  A
    round-tripper is code behind an interface: it is a function field of
    [Target], a parameter of every balancer, and may also panic. *)

From S2P Require Import Prelude.

(** Error values.  [ErrWrap] is an error produced by wrapping ([%w], [url.Error],
    ...), the only structure [errors.Is] looks through. *)
Inductive error :=
  | ErrUnavailable
  | ErrCanceled
  | ErrDeadlineExceeded
  | ErrOther (msg : string)
  | ErrWrap (msg : string) (inner : error).

#[global] Instance error_eq_dec : EqDecision error.
Proof. solve_decision. Defined.

(** [errors.Is(err, target)]. *)
Fixpoint errors_is (e target : error) : bool :=
  bool_decide (e = target) ||
  match e with
  | ErrWrap _ inner => errors_is inner target
  | _ => false
  end.

(** A response body: whether it also implements [io.Writer] (a 101 upgrade), and
    its bytes. *)
Record Body := mkBody { body_rw : bool; body_data : string }.

Record Response := mkResponse {
  StatusCode : Z;
  resp_header : gmap string (list string);
  resp_body : option Body;
}.

(** The part of [*http.Request] the balancers touch. *)
Record Request := mkRequest {
  req_method : string;
  url_host : string;
  req_header : gmap string (list string);
}.

Definition with_url_host (h : string) (r : Request) : Request :=
  mkRequest (req_method r) h (req_header r).

(** What a call of [RoundTrip] can do: return a (response, error) pair, or panic. *)
Inductive outcome :=
  | Returned (resp : option Response) (err : option error)
  | Panicked.

Definition RoundTripper := Request -> outcome.

Lemma errors_is_refl e : errors_is e e = true.
Proof. destruct e; cbn; rewrite bool_decide_true by done; done. Qed.

Lemma errors_is_wrap m e t : errors_is e t = true -> errors_is (ErrWrap m e) t = true.
Proof. intros H. cbn. rewrite H. apply orb_true_r. Qed.
