(* ===== verification/Concurrency.v ===== *)
(** * Goroutines over sequentially consistent atomics

    Go's [sync/atomic] operations are sequentially consistent, so a goroutine is
    modelled as a resumption: it returns, or performs one atomic action on the
    shared state and continues with what the action read.  The same program has
    two semantics here:

    - [run]: the goroutine alone, a function (used for the functional theorems
      and for evaluating witnesses);
    - [pstep]: any number of goroutines interleaved at their atomic actions, with
      environment steps (the clock) in between.

    The second half is a small rely-guarantee logic with its soundness theorem;
    the lock-free components are verified against it. *)

From S2P Require Import Prelude.

Section Resumption.
Context {S : Type}.

Inductive prog (A : Type) : Type :=
  | Ret (a : A)
  | Atomic (upd : S -> S) (k : S -> prog A)
  | Spin.

Arguments Ret {A} _.
Arguments Atomic {A} _ _.
Arguments Spin {A}.

Fixpoint bind {A B : Type} (p : prog A) (f : A -> prog B) : prog B :=
  match p with
  | Ret a => f a
  | Atomic u k => Atomic u (fun s => bind (k s) f)
  | Spin => Spin
  end.

(** One atomic action each: read, write, read-modify-write returning a value
    computed from the old state. *)
Definition load {A} (f : S -> A) : prog A := Atomic id (fun s => Ret (f s)).
Definition store (u : S -> S) : prog unit := Atomic u (fun _ => Ret tt).
Definition rmw {A} (f : S -> A) (u : S -> S) : prog A := Atomic u (fun s => Ret (f s)).

(** [CompareAndSwap] of the word [get]/[set]. *)
Definition cas (get : S -> Z) (set : Z -> S -> S) (old new : Z) : prog bool :=
  Atomic (fun s => if get s =? old then set new s else s)
         (fun s => Ret (get s =? old)).

(** A [for { ... }] loop: the body continues ([None]) or leaves with a value.
    [fuel] bounds the iterations that are followed; past it the goroutine is
    [Spin], still looping. *)
Fixpoint loop {A} (fuel : nat) (body : prog (option A)) : prog A :=
  match fuel with
  | O => Spin
  | Datatypes.S fuel =>
      bind body (fun r => match r with Some a => Ret a | None => loop fuel body end)
  end.

(** The goroutine alone; [None] when it is still looping. *)
Fixpoint run {A} (p : prog A) (s : S) : S * option A :=
  match p with
  | Ret a => (s, Some a)
  | Atomic u k => run (k s) (u s)
  | Spin => (s, None)
  end.

Lemma run_bind {A B} (p : prog A) (f : A -> prog B) s :
  run (bind p f) s =
  match run p s with
  | (s', Some a) => run (f a) s'
  | (s', None) => (s', None)
  end.
Proof. revert s. induction p as [a|u k IH|]; intros s; cbn; [done|apply IH|done]. Qed.

Lemma run_loop {A} fuel (body : prog (option A)) s :
  run (loop (Datatypes.S fuel) body) s =
  match run body s with
  | (s', Some (Some a)) => (s', Some a)
  | (s', Some None) => run (loop fuel body) s'
  | (s', None) => (s', None)
  end.
Proof.
  cbn [loop]. rewrite run_bind. destruct (run body s) as [s' [[a|]|]]; done.
Qed.

(** ** Interleaving *)

Context (env : S -> S -> Prop).

Inductive pstep {A} : S * list (prog A) -> S * list (prog A) -> Prop :=
  | pstep_thread s ps j u k :
      ps !! j = Some (Atomic u k) -> pstep (s, ps) (u s, <[j := k s]> ps)
  | pstep_env s s' ps : env s s' -> pstep (s, ps) (s', ps).

Lemma rtc_pool_length {A} (c c' : S * list (prog A)) :
  rtc pstep c c' -> length c.2 = length c'.2.
Proof.
  induction 1 as [c|c1 c2 c3 H12 _ IH]; [done|]. rewrite <- IH.
  destruct H12; cbn; [by rewrite length_insert|done].
Qed.

(** A schedule: the goroutines that act, in order. *)
Fixpoint exec {A} (sched : list nat) (c : S * list (prog A)) : S * list (prog A) :=
  match sched with
  | [] => c
  | j :: sched =>
      exec sched match c.2 !! j with
                 | Some (Atomic u k) => (u c.1, <[j := k c.1]> c.2)
                 | _ => c
                 end
  end.

Lemma exec_rtc {A} sched (c : S * list (prog A)) : rtc pstep c (exec sched c).
Proof.
  revert c. induction sched as [|j sched IH]; intros [s ps]; cbn; [done|].
  destruct (ps !! j) as [[a|u k|]|] eqn:E; [apply IH| |apply IH..].
  eapply rtc_l; [by eapply pstep_thread|apply IH].
Qed.

(** ** Rely-guarantee

    [R j] is what goroutine [j] tolerates from the others, [G j] what it does in
    one atomic action, [Inv] the invariant of the shared state. *)
Context (R G : nat -> S -> S -> Prop) (Inv : S -> Prop).

Fixpoint rg {A} (j : nat) (p : prog A) (Q : A -> S -> Prop) (s : S) : Prop :=
  match p with
  | Ret a => forall s', R j s s' -> Inv s' -> Q a s'
  | Atomic u k => forall s', R j s s' -> Inv s' ->
      (G j s' (u s') /\ Inv (u s')) /\ rg j (k s') Q (u s')
  | Spin => True
  end.

Class RelyGuarantee : Prop := {
  rely_refl j s : R j s s;
  rely_trans j s1 s2 s3 : R j s1 s2 -> R j s2 s3 -> R j s1 s3;
  guarantee_rely i j s s' : i <> j -> G i s s' -> R j s s';
  env_rely j s s' : env s s' -> R j s s';
  env_inv s s' : env s s' -> Inv s -> Inv s';
}.

Context {RG : RelyGuarantee}.

Lemma rg_rely {A} j (p : prog A) Q s s' : rg j p Q s -> R j s s' -> rg j p Q s'.
Proof.
  destruct p as [a|u k|]; cbn; [intros H HR s'' HR' HI; eapply H; eauto using rely_trans..|done].
Qed.

Lemma rg_bind {A B} j (p : prog A) (f : A -> prog B) Q s :
  rg j p (fun a s' => rg j (f a) Q s') s -> rg j (bind p f) Q s.
Proof.
  revert s. induction p as [a|u k IH|]; intros s H; cbn in *.
  - destruct (f a) as [b|u' k'|] eqn:E; cbn in *; [..|done]; intros s' HR HI;
      exact (H s' HR HI s' (rely_refl j s') HI).
  - intros s' HR HI. destruct (H s' HR HI) as [HG Hk]. auto.
  - done.
Qed.

Lemma rg_mono {A} j (p : prog A) (Q Q' : A -> S -> Prop) s :
  (forall a s', Inv s' -> Q a s' -> Q' a s') -> rg j p Q s -> rg j p Q' s.
Proof.
  intros HQ. revert s. induction p as [a|u k IH|]; intros s H; cbn in *.
  - eauto.
  - intros s' HR HI. destruct (H s' HR HI) as [HG Hk]. auto.
  - done.
Qed.

(** Loop rule: the body preserves [P] when it continues. *)
Lemma rg_loop {A} j fuel (body : prog (option A)) (P : S -> Prop) (Q : A -> S -> Prop) s :
  (forall s1 s2, P s1 -> R j s1 s2 -> P s2) ->
  (forall s, P s -> rg j body (fun r s' => match r with Some a => Q a s' | None => P s' end) s) ->
  (forall a s1 s2, Q a s1 -> R j s1 s2 -> Q a s2) ->
  P s -> rg j (loop fuel body) Q s.
Proof.
  intros HP HB HQ. revert s. induction fuel as [|fuel IH]; intros s Hs; cbn [loop]; [done|].
  apply rg_bind. eapply rg_mono; [|by apply HB].
  intros [a|] s' HI HA; cbn; eauto.
Qed.

Definition pool_ok {A} (Q : nat -> A -> S -> Prop) (c : S * list (prog A)) : Prop :=
  Inv c.1 /\ forall j p, c.2 !! j = Some p -> rg j p (Q j) c.1.

Lemma pool_ok_step {A} (Q : nat -> A -> S -> Prop) c c' :
  pstep c c' -> pool_ok Q c -> pool_ok Q c'.
Proof.
  intros [s ps j u k Hj | s s' ps He] [HI Hps]; cbn in *.
  - destruct (Hps j _ Hj s (rely_refl j s) HI) as [[HG HI'] Hk]. split; [done|].
    intros i p Hi. cbn in *. destruct (decide (i = j)) as [->|Hne].
    + rewrite list_lookup_insert_eq in Hi by eauto using lookup_lt_Some. by simplify_eq.
    + rewrite list_lookup_insert_ne in Hi by done.
      eapply rg_rely; eauto using guarantee_rely.
  - split; [by eapply env_inv|]. intros i p Hi. eapply rg_rely; eauto using env_rely.
Qed.

(** An observer that runs nothing sees only steps its rely allows. *)
Lemma pool_rely {A} (Q : nat -> A -> S -> Prop) c c' j :
  rtc pstep c c' -> pool_ok Q c -> c.2 !! j = None -> R j c.1 c'.1 /\ c'.2 !! j = None.
Proof.
  induction 1 as [c|c1 c2 c3 H12 _ IH]; intros Hok Hj; [split; [apply rely_refl|done]|].
  assert (R j c1.1 c2.1 /\ c2.2 !! j = None) as [HR Hj2].
  { destruct H12 as [s ps i u k Hi | s s' ps He]; cbn in *.
    - destruct Hok as [HI Hps]. destruct (Hps i _ Hi s (rely_refl i s) HI) as [[HG _] _].
      assert (i <> j) by congruence.
      split; [by eapply guarantee_rely|]. by rewrite list_lookup_insert_ne.
    - split; [by eapply env_rely|done]. }
  destruct IH as [HR' Hj3]; [by eapply pool_ok_step|done|].
  split; [by eapply rely_trans|done].
Qed.

(** Soundness: every reachable configuration of the pool satisfies the invariant,
    and a goroutine that has returned satisfies its postcondition. *)
Lemma pool_sound {A} (Q : nat -> A -> S -> Prop) s ps s' ps' :
  Inv s -> (forall j p, ps !! j = Some p -> rg j p (Q j) s) ->
  rtc pstep (s, ps) (s', ps') ->
  Inv s' /\ forall j a, ps' !! j = Some (Ret a) -> Q j a s'.
Proof.
  intros HI Hps Hr.
  assert (pool_ok Q (s', ps')) as [HI' H'].
  { remember (s, ps) as c eqn:Ec. remember (s', ps') as c' eqn:Ec'.
    assert (pool_ok Q c) as Hc by (subst; by split).
    clear Ec Ec' HI Hps. induction Hr as [|c1 c2 c3 H1 _ IH]; [done|].
    apply IH. by eapply pool_ok_step. }
  split; [done|]. intros j a Hj. exact (H' j _ Hj s' (rely_refl j s') HI').
Qed.

End Resumption.

Arguments prog : clear implicits.
Arguments Ret {S A} _.
Arguments Atomic {S A} _ _.
Arguments Spin {S A}.
Arguments rg {S} R G Inv {A} j p Q s.
Arguments pstep {S} env {A} _ _.
Arguments rtc_pool_length {S} env {A} c c' _.
Arguments exec {S A} sched c.
Arguments exec_rtc {S} env {A} sched c.

Declare Scope go_scope.
Delimit Scope go_scope with go.
Notation "x <- p ;; q" := (bind p (fun x => q))
  (at level 100, p at next level, right associativity) : go_scope.
Notation "p ;; q" := (bind p (fun _ => q))
  (at level 100, right associativity) : go_scope.

(** ** Interrupted runs

    A goroutine may be stopped between any two actions, and what it has done by then
    stays. *)
Section Interrupt.
Context {S : Type}.

(** The state when a goroutine that runs alone stops after [n] actions. *)
Fixpoint after {A} (n : nat) (p : prog S A) (s : S) : S :=
  match n, p with
  | Datatypes.S n, Atomic u k => after n (k s) (u s)
  | _, _ => s
  end.

(** The goroutine returns; [P] holds before and after each of its actions, and [Q] at
    the end. *)
Fixpoint safe {A} (P : S -> Prop) (p : prog S A) (Q : A -> S -> Prop) (s : S) : Prop :=
  P s /\ match p with
         | Ret a => Q a s
         | Atomic u k => safe P (k s) Q (u s)
         | Spin => False
         end.

Lemma safe_after {A} P (p : prog S A) Q n s : safe P p Q s -> P (after n p s).
Proof.
  revert n s. induction p as [a|u k IH|]; intros [|n] s; cbn; try tauto. intros [_ H]. by apply IH.
Qed.

Lemma safe_run {A} P (p : prog S A) Q s s' a : safe P p Q s -> run p s = (s', Some a) -> Q a s'.
Proof.
  revert s. induction p as [a'|u k IH|]; intros s; cbn; intros [_ H] E; [by simplify_eq|by eapply IH|done].
Qed.

Lemma safe_returns {A} P (p : prog S A) Q s : safe P p Q s -> exists s' a, run p s = (s', Some a) /\ P s' /\ Q a s'.
Proof. revert s. induction p as [a|u k IH|]; intros s; cbn; intros [H1 H2]; [by exists s, a|by apply IH|done]. Qed.

Lemma safe_bind {A B} P (p : prog S A) (f : A -> prog S B) Q s :
  safe P p (fun a => safe P (f a) Q) s -> safe P (bind p f) Q s.
Proof.
  revert s. induction p as [a|u k IH|]; intros s; cbn; [tauto| |tauto].
  intros [H1 H2]. split; [done|]. by apply IH.
Qed.

Lemma safe_mono {A} P (p : prog S A) (Q Q' : A -> S -> Prop) s :
  safe P p Q s -> (forall a s', P s' -> Q a s' -> Q' a s') -> safe P p Q' s.
Proof.
  intros H HQ. revert s H. induction p as [a|u k IH|]; intros s; cbn; intros [H1 H2]; split; auto.
Qed.

Lemma safe_and {A} P (p : prog S A) (Q Q' : A -> S -> Prop) s :
  safe P p Q s -> safe P p Q' s -> safe P p (fun a s' => Q a s' /\ Q' a s') s.
Proof. revert s. induction p as [a|u k IH|]; intros s; cbn; intros [H1 H2] [_ H3]; auto. Qed.

Lemma safe_now {A} P (p : prog S A) Q s : safe P p Q s -> P s.
Proof. by destruct p; intros [H _]. Qed.
End Interrupt.
