(* ===== verification/RoundRobin.v ===== *)
(** * pkg/upstream: targets, the health gate and the round-robin balancer

    [src/pkg/upstream/loadbalancer.go], and the cursor scan that
    [EjectingLoadBalancer.pick] and [CircuitBreakingLoadBalancer.pick] repeat. *)

From S2P Require Import Prelude Http.

Record Target := mkTarget {
  Transport : RoundTripper;
  Host : string;
  Weight : Z;
  MaxConcurrent : Z;
}.

Definition effectiveWeight (t : Target) : Z :=
  if Weight t <=? 0 then 1 else Weight t.

(** The active health-check gate: [None] is the nil slice. *)
Definition Gate := option (list bool).

(** [up] of every balancer: a nil gate and an out-of-range index are up. *)
Definition up (gate : Gate) (i : Z) : bool :=
  match gate with
  | None => true
  | Some g => (Z.of_nat (length g) <=? i) || default true (g !! Z.to_nat i)
  end.

(** The indices the loop [for k := uint32(0); k < uint32(n); k++] visits, with
    [idx := (start + k) % uint32(n)] in uint32 arithmetic. *)
Definition ring_u32 (start n : Z) : list Z :=
  (fun k => u32 (start + k) mod n) <$> seqZ 0 n.

(** The same scan in uint64 arithmetic, as [LeastConnLoadBalancer.pick] writes it. *)
Definition ring_u64 (start n : Z) : list Z :=
  (fun k => u64 (start + k) mod n) <$> seqZ 0 n.

(** The first index of a scan that passes the loop's test. *)
Fixpoint scan (P : Z -> bool) (ks : list Z) : option Z :=
  match ks with
  | [] => None
  | k :: ks => if P k then Some k else scan P ks
  end.

Module RoundRobin.

Record t := mk {
  i : Z;
  gate : Gate;
  Targets : list Target;
}.

Definition New (targets : list Target) : t := mk 0 None targets.

Definition setHealthGate (g : list bool) (l : t) : t := mk (i l) (Some g) (Targets l).

(** The index [RoundTrip] selects for cursor [start] over [n] targets. *)
Definition select (g : Gate) (start n : Z) : Z :=
  match scan (up g) (ring_u32 start n) with
  | Some idx => idx
  | None => start mod n
  end.

Definition RoundTrip (l : t) (r : Request) : t * outcome :=
  let n := Z.of_nat (length (Targets l)) in
  if n =? 0 then (l, Returned None (Some ErrUnavailable))
  else
    let i' := u32 (i l + 1) in
    let start := u32 (i' - 1) in
    let l' := mk i' (gate l) (Targets l) in
    match Targets l !! Z.to_nat (select (gate l) start n) with
    | Some tg => (l', Transport tg (with_url_host (Host tg) r))
    | None => (l', Panicked)
    end.

End RoundRobin.

(** ** Facts about the scan *)

Lemma up_nil i : up None i = true.
Proof. done. Qed.

Lemma effectiveWeight_pos tg : 1 <= effectiveWeight tg.
Proof. unfold effectiveWeight. bool_case; lia. Qed.

Lemma scan_Some P ks k : scan P ks = Some k -> P k = true /\ k ∈ ks.
Proof.
  induction ks as [|x ks IH]; cbn; [done|].
  destruct (P x) eqn:E; intros H; [simplify_eq; split; [done|left]|].
  destruct (IH H); split; [done|by right].
Qed.

Lemma scan_None P ks : scan P ks = None <-> forall k, k ∈ ks -> P k = false.
Proof.
  induction ks as [|x ks IH]; cbn; split.
  - intros _ k Hk. by apply elem_of_nil in Hk.
  - done.
  - destruct (P x) eqn:E; [done|]. intros H k [->|Hk]%elem_of_cons; [done|]. by apply IH.
  - intros H. rewrite (H x) by left. apply IH. intros k Hk. apply H. by right.
Qed.

(** The scan returns the first index that passes. *)
Lemma scan_first P ks k :
  scan P ks = Some k ->
  exists l1 l2, ks = l1 ++ k :: l2 /\ (forall x, x ∈ l1 -> P x = false).
Proof.
  induction ks as [|x ks IH]; cbn; [done|].
  destruct (P x) eqn:E; intros H; simplify_eq.
  - exists [], ks. split; [done|]. intros y Hy. by apply elem_of_nil in Hy.
  - destruct (IH H) as (l1 & l2 & -> & Hl). exists (x :: l1), l2. split; [done|].
    intros y [->|Hy]%elem_of_cons; auto.
Qed.

Lemma ring_u32_range start n j : 0 < n -> j ∈ ring_u32 start n -> 0 <= j < n.
Proof.
  intros Hn (k & -> & _)%list_elem_of_fmap. now apply Z.mod_pos_bound.
Qed.

Lemma ring_u64_range start n j : 0 < n -> j ∈ ring_u64 start n -> 0 <= j < n.
Proof.
  intros Hn (k & -> & _)%list_elem_of_fmap. now apply Z.mod_pos_bound.
Qed.

(** The offset that reaches index [j] from cursor [start]. *)
Lemma ring_offset start n j :
  0 < n -> 0 <= j < n ->
  let k := (j - start) mod n in 0 <= k < n /\ (start + k) mod n = j.
Proof.
  intros Hn Hj k. split; [now apply Z.mod_pos_bound|].
  unfold k. rewrite Zplus_mod_idemp_r. replace (start + (j - start)) with j by lia.
  now apply Z.mod_small.
Qed.

Lemma mod_u32_divide n z : 0 < n -> (n | 2 ^ 32) -> u32 z mod n = z mod n.
Proof.
  intros Hn Hd. unfold u32, wrap_u. now rewrite Z.mod_mod_divide.
Qed.

(** The uint32 scan visits every index when the cursor does not wrap inside it, or
    when the number of targets divides 2^32. *)
Lemma ring_u32_complete start n j :
  0 < n -> 0 <= start -> start + n <= 2 ^ 32 \/ (n | 2 ^ 32) ->
  0 <= j < n -> j ∈ ring_u32 start n.
Proof.
  intros Hn Hs Hw Hj. destruct (ring_offset start n j Hn Hj) as [Hk He].
  apply list_elem_of_fmap. exists ((j - start) mod n). split; [|apply elem_of_seqZ; lia].
  destruct Hw as [Hw|Hd].
  - rewrite u32_small by lia. done.
  - by rewrite mod_u32_divide.
Qed.

Lemma ring_u64_complete start n j :
  0 < n < 2 ^ 32 -> 0 <= start < 2 ^ 32 -> 0 <= j < n -> j ∈ ring_u64 start n.
Proof.
  intros Hn Hs Hj. destruct (ring_offset start n j) as [Hk He]; [lia..|].
  apply list_elem_of_fmap. exists ((j - start) mod n). split; [|apply elem_of_seqZ; lia].
  rewrite u64_small by lia. done.
Qed.

Lemma mod_window_inj n a b : 0 < n -> a mod n = b mod n -> - n < a - b < n -> a = b.
Proof.
  intros Hn E Hw. pose proof (Z.div_mod a n ltac:(lia)). pose proof (Z.div_mod b n ltac:(lia)).
  assert (a - b = n * (a / n - b / n)) as D by lia.
  destruct (Z.eq_dec (a / n) (b / n)); nia.
Qed.

Lemma ring_u32_NoDup start n :
  0 < n -> 0 <= start -> start + n <= 2 ^ 32 \/ (n | 2 ^ 32) -> NoDup (ring_u32 start n).
Proof.
  intros Hn Hs Hw. apply NoDup_fmap_2_strong; [|apply NoDup_seqZ].
  intros x y Hx Hy E. apply elem_of_seqZ in Hx, Hy.
  assert ((start + x) mod n = (start + y) mod n) as E'.
  { destruct Hw as [Hw|Hd]; [|by rewrite !mod_u32_divide in E].
    rewrite !u32_small in E by lia. done. }
  apply mod_window_inj in E'; lia.
Qed.

(** A scan that does not wrap finds the first index in cursor order that passes, or
    none passes. *)
Lemma scan_ring_spec P start n :
  0 < n -> 0 <= start -> start + n <= 2 ^ 32 \/ (n | 2 ^ 32) ->
  match scan P (ring_u32 start n) with
  | Some idx => exists k, 0 <= k < n /\ idx = (start + k) mod n /\ P idx = true /\
      forall k', 0 <= k' < k -> P ((start + k') mod n) = false
  | None => forall j, 0 <= j < n -> P j = false
  end.
Proof.
  intros Hn Hs Hw. destruct (scan _ _) as [idx|] eqn:E.
  2:{ rewrite scan_None in E. intros j Hj. apply E. by apply ring_u32_complete. }
  pose proof (scan_Some _ _ _ E) as [Hup _]. apply scan_first in E as (l1 & l2 & E & Hl1).
  assert (forall m y, ring_u32 start n !! m = Some y -> y = (start + Z.of_nat m) mod n /\ Z.of_nat m < n) as Hring.
  { intros m y Hy. unfold ring_u32 in Hy. rewrite list_lookup_fmap in Hy.
    apply fmap_Some in Hy as (x & Hx & ->). apply lookup_seqZ in Hx as [-> Hx]. split; [|lia].
    destruct Hw; [by rewrite u32_small by lia|by apply mod_u32_divide]. }
  destruct (Hring (length l1) idx) as [Eidx Hlen]; [by rewrite E, list_lookup_middle|].
  exists (Z.of_nat (length l1)). split; [lia|]. split; [done|]. split; [done|].
  intros k' Hk'. destruct (lookup_lt_is_Some_2 l1 (Z.to_nat k')) as [y Hy]; [lia|].
  destruct (Hring (Z.to_nat k') y) as [Ey _]; [by rewrite E, lookup_app_l by lia|].
  rewrite Z2Nat.id in Ey by lia. rewrite <- Ey. apply Hl1. by eapply list_elem_of_lookup_2.
Qed.

(** ** The round-robin balancer *)

Module RoundRobinFacts.
Import RoundRobin.

(** The cursor cannot wrap inside a scan of [n] targets. *)
Definition no_wrap (start n : Z) : Prop := start + n <= 2 ^ 32 \/ (n | 2 ^ 32).

Lemma cursor_back c : 0 <= c < 2 ^ 32 -> u32 (u32 (c + 1) - 1) = c.
Proof.
  intros H. unfold u32, wrap_u. rewrite Zminus_mod_idemp_l.
  replace (c + 1 - 1) with c by lia. now apply Z.mod_small.
Qed.

Lemma select_range g start n : 0 < n -> 0 <= select g start n < n.
Proof.
  intros Hn. unfold select. destruct (scan _ _) as [k|] eqn:E.
  - apply scan_Some in E as [_ E]. by eapply ring_u32_range.
  - now apply Z.mod_pos_bound.
Qed.

Lemma select_up g start n j :
  0 < n -> 0 <= start -> no_wrap start n -> 0 <= j < n -> up g j = true ->
  up g (select g start n) = true.
Proof.
  intros Hn Hs Hw Hj Hu. unfold select. destruct (scan _ _) as [k|] eqn:E.
  - by apply scan_Some in E as [E _].
  - rewrite scan_None in E. rewrite (E j) in Hu; [done|].
    by apply ring_u32_complete.
Qed.

Lemma select_nil start n : 0 < n -> 0 <= start < 2 ^ 32 -> select None start n = start mod n.
Proof.
  intros Hn Hs. unfold select, ring_u32. rewrite seqZ_cons by lia. cbn.
  replace (start + 0) with start by lia. by rewrite u32_small.
Qed.

(** Requests served one after the other. *)
Fixpoint serve (l : t) (rs : list Request) : list outcome :=
  match rs with
  | [] => []
  | r :: rs => let '(l', o) := RoundTrip l r in o :: serve l' rs
  end.

Definition sent (r : Request) (tg : Target) : outcome :=
  Transport tg (with_url_host (Host tg) r).

Lemma RoundTrip_nil l r tg :
  gate l = None -> 0 <= i l < 2 ^ 32 ->
  Targets l !! Z.to_nat (i l mod Z.of_nat (length (Targets l))) = Some tg ->
  RoundTrip l r = (mk (u32 (i l + 1)) None (Targets l), sent r tg).
Proof.
  intros Hg Hi Ht.
  assert (0 < Z.of_nat (length (Targets l))) as Hn
    by (destruct (Targets l); cbn in *; [done|lia]).
  unfold RoundTrip. rewrite (proj2 (Z.eqb_neq _ _)) by lia.
  rewrite Hg, cursor_back, select_nil by lia. by rewrite Ht.
Qed.

Lemma target_at l k :
  Targets l <> [] ->
  exists tg, Targets l !! Z.to_nat (k mod Z.of_nat (length (Targets l))) = Some tg.
Proof.
  intros Hne. apply lookup_lt_is_Some.
  assert (0 < Z.of_nat (length (Targets l))) by (destruct (Targets l); cbn; [done|lia]).
  pose proof (Z.mod_pos_bound k (Z.of_nat (length (Targets l)))). lia.
Qed.

Lemma serve_nil_lookup r m l j :
  gate l = None -> Targets l <> [] -> 0 <= i l -> i l + Z.of_nat m <= 2 ^ 32 -> (j < m)%nat ->
  serve l (replicate m r) !! j =
  sent r <$> Targets l !! Z.to_nat ((i l + Z.of_nat j) mod Z.of_nat (length (Targets l))).
Proof.
  revert l j. induction m as [|m IH]; intros l j Hg Hne Hi Hm Hj; [lia|].
  destruct (target_at l (i l) Hne) as [tg Ht]. cbn [replicate serve].
  rewrite (RoundTrip_nil l r tg) by (done || lia).
  destruct j as [|j]; cbn [lookup list_lookup].
  - rewrite Z.add_0_r, Ht. done.
  - destruct m as [|m]; [lia|].
    rewrite IH by (cbn; wrap_small; done || lia).
    cbn. wrap_small. do 3 f_equal. f_equal. lia.
Qed.

(** With no gate, as many consecutive requests as there are targets reach every
    target exactly once, in cursor rotation. *)
Theorem rr_serves_rotation l r :
  gate l = None -> Targets l <> [] -> 0 <= i l ->
  i l + Z.of_nat (length (Targets l)) <= 2 ^ 32 ->
  serve l (replicate (length (Targets l)) r) = sent r <$> rotate (Z.to_nat (i l)) (Targets l).
Proof.
  intros Hg Hne Hi Hm. set (n := length (Targets l)) in *.
  apply list_eq. intros j. destruct (decide (j < n)%nat) as [Hj|Hj].
  - rewrite serve_nil_lookup by (done || lia).
    rewrite list_lookup_fmap, lookup_rotate_r by done.
    unfold rotate_nat_add. rewrite Z2Nat.id by lia. done.
  - assert (length (serve l (replicate n r)) = n) as E.
    { clear Hm Hj. clear Hg Hne Hi. generalize n as m. intros m. revert l n.
      induction m as [|m IH]; intros l n; cbn; [done|].
      destruct (RoundTrip l r) as [l' o]. cbn. f_equal. by apply IH. }
    rewrite !lookup_ge_None_2; [done| |lia].
    rewrite length_fmap, length_rotate. lia.
Qed.

Definition demo_target (name : string) : Target :=
  mkTarget (fun r => Returned (Some (mkResponse 200 ∅ (Some (mkBody false (url_host r))))) None) name 0 0.
Definition demo_lb : t := mk 4 None [demo_target "a"; demo_target "b"; demo_target "c"].
Definition demo_req : Request := mkRequest "GET" "" ∅.

Lemma rr_serves_rotation_witness :
  serve demo_lb (replicate 3 demo_req) =
  sent demo_req <$> [demo_target "b"; demo_target "c"; demo_target "a"].
Proof. apply (rr_serves_rotation demo_lb demo_req); vm_compute; done. Defined.

(** If some target is up and the cursor does not wrap inside the scan, the
    balancer selects the first up target in cursor order. *)
Theorem rr_selects_first_up g start n j :
  0 < n -> 0 <= start -> no_wrap start n -> 0 <= j < n -> up g j = true ->
  exists k, 0 <= k < n /\ select g start n = (start + k) mod n /\
    up g ((start + k) mod n) = true /\ forall k', 0 <= k' < k -> up g ((start + k') mod n) = false.
Proof.
  intros Hn Hs Hw Hj Hu. unfold select. pose proof (scan_ring_spec (up g) start n Hn Hs Hw) as H.
  destruct (scan _ _) as [idx|]; [|rewrite (H j Hj) in Hu; done].
  destruct H as (k & Hk & -> & Hup & Hlt). by exists k.
Qed.

Lemma rr_selects_first_up_witness :
  exists k, 0 <= k < 3 /\ select (Some [false; true; true]) 3 3 = (3 + k) mod 3 /\
    up (Some [false; true; true]) ((3 + k) mod 3) = true /\
    forall k', 0 <= k' < k -> up (Some [false; true; true]) ((3 + k') mod 3) = false.
Proof. apply (rr_selects_first_up (Some [false; true; true]) 3 3 2); (by left) || (vm_compute; done). Defined.

(** For a target count that does not divide 2^32, a scan that starts at cursor
    2^32-1 never looks at the last target: a gated-down target is selected although
    that one is up. *)
Theorem rr_wrap_skips_up_target g n :
  0 < n < 2 ^ 32 -> ~ (n | 2 ^ 32) ->
  (forall j, 0 <= j < n -> up g j = bool_decide (j = n - 1)) ->
  up g (select g (2 ^ 32 - 1) n) = false /\ up g (n - 1) = true.
Proof.
  intros Hn Hd Hg. split; [|rewrite Hg, bool_decide_true by lia; done].
  pose proof (select_range g (2 ^ 32 - 1) n ltac:(lia)) as Hr. rewrite Hg by done.
  apply bool_decide_false. intros E.
  assert (forall k, k ∈ ring_u32 (2 ^ 32 - 1) n -> k <> n - 1) as Hmiss.
  { intros k (x & -> & Hx)%list_elem_of_fmap. apply elem_of_seqZ in Hx.
    destruct (decide (x = 0)) as [->|].
    - rewrite Z.add_0_r, u32_small by lia. intros Em. apply Hd.
      exists ((2 ^ 32 - 1) / n + 1). pose proof (Z.div_mod (2 ^ 32 - 1) n ltac:(lia)). lia.
    - unfold u32, wrap_u. replace (2 ^ 32 - 1 + x) with (x - 1 + 1 * 2 ^ 32) by lia.
      rewrite Z_mod_plus_full, (Z.mod_small (x - 1) (2 ^ 32)), (Z.mod_small (x - 1) n) by lia. lia. }
  unfold select in E, Hr. destruct (scan _ _) as [k|] eqn:Es.
  - apply scan_Some in Es as [_ Hin]. by apply (Hmiss k).
  - apply (Hmiss ((2 ^ 32 - 1) mod n)); [|done]. apply list_elem_of_fmap. exists 0.
    split; [by rewrite Z.add_0_r, u32_small by lia|apply elem_of_seqZ; lia].
Qed.

Lemma rr_wrap_skips_up_target_witness :
  up (Some [false; false; true]) (select (Some [false; false; true]) (2 ^ 32 - 1) 3) = false /\
  up (Some [false; false; true]) 2 = true.
Proof.
  apply (rr_wrap_skips_up_target (Some [false; false; true]) 3).
  - lia.
  - intros [x Hx]. lia.
  - intros j Hj. assert (j = 0 \/ j = 1 \/ j = 2) as [->|[->| ->]] by lia; done.
Defined.

End RoundRobinFacts.
