(* ===== verification/Weighted.v ===== *)
(** * pkg/upstream: the weighted round-robin balancer

    [src/pkg/upstream/weighted.go]: smooth weighted round-robin over the targets
    the health gate leaves up, in int64 arithmetic. *)

From S2P Require Import Prelude Http RoundRobin.

Module Weighted.

Record swrrPeer := mkPeer {
  weight : Z;
  current : Z;
  wasUp : bool;
}.

Record t := mk {
  total : Z;
  peers : list swrrPeer;
  gate : Gate;
  Targets : list Target;
}.

Definition New (targets : list Target) : t := mk 0 [] None targets.

Definition setHealthGate (g : list bool) (l : t) : t :=
  mk (total l) (peers l) (Some g) (Targets l).

Definition init_peer (tg : Target) : swrrPeer := mkPeer (effectiveWeight tg) 0 false.

(** [init], run once before the first pick. *)
Definition init (l : t) : t :=
  mk (foldl (fun acc tg => i64 (acc + effectiveWeight tg)) (total l) (Targets l))
     (init_peer <$> Targets l) (gate l) (Targets l).

(** [best < 0 || p.current > l.peers[best].current]; [best] carries the index and
    the current weight of the peer it designates, which the rest of the loop does
    not touch. *)
Definition better (best : option (nat * Z)) (cur : Z) : bool :=
  match best with
  | None => true
  | Some (_, b) => b <? cur
  end.

(** The loop of [pick] over the peers from index [i] on. *)
Fixpoint pick_loop (g : Gate) (i : nat) (ps : list swrrPeer) (liveTotal : Z)
    (best : option (nat * Z)) : list swrrPeer * Z * option (nat * Z) :=
  match ps with
  | [] => ([], liveTotal, best)
  | p :: ps =>
      let isUp := up g (Z.of_nat i) in
      let cur := if isUp && negb (wasUp p) then 0 else current p in
      if negb isUp then
        let '(ps', live', best') := pick_loop g (S i) ps liveTotal best in
        (mkPeer (weight p) cur isUp :: ps', live', best')
      else
        let cur := i64 (cur + weight p) in
        let best := if better best cur then Some (i, cur) else best in
        let '(ps', live', best') := pick_loop g (S i) ps (i64 (liveTotal + weight p)) best in
        (mkPeer (weight p) cur isUp :: ps', live', best')
  end.

(** The loop of [pickAllOpen]. *)
Fixpoint all_loop (i : nat) (ps : list swrrPeer) (best : option (nat * Z))
    : list swrrPeer * option (nat * Z) :=
  match ps with
  | [] => ([], best)
  | p :: ps =>
      let cur := i64 (current p + weight p) in
      let best := if better best cur then Some (i, cur) else best in
      let '(ps', best') := all_loop (S i) ps best in
      (mkPeer (weight p) cur (wasUp p) :: ps', best')
  end.

(** [l.peers[best].current -= x]. *)
Definition give_back (b : nat) (x : Z) (ps : list swrrPeer) : list swrrPeer :=
  alter (fun p => mkPeer (weight p) (i64 (current p - x)) (wasUp p)) b ps.

(** [pickAllOpen]: the new peers and the winner; [None] is the index panic of an
    empty pool. *)
Definition pickAllOpen (l : t) (ps : list swrrPeer) : list swrrPeer * option nat :=
  match all_loop 0 ps None with
  | (ps', Some (b, _)) => (give_back b (total l) ps', Some b)
  | (ps', None) => (ps', None)
  end.

Definition pick (l : t) : t * option nat :=
  let '(ps, live, best) := pick_loop (gate l) 0 (peers l) 0 None in
  let '(ps, r) := match best with
                  | None => pickAllOpen l ps
                  | Some (b, _) => (give_back b live ps, Some b)
                  end in
  (mk (total l) ps (gate l) (Targets l), r).

(** [RoundTrip] once [l.once] has run [init]. *)
Definition RoundTrip (l : t) (r : Request) : t * outcome :=
  if Nat.eqb (length (peers l)) 0 then (l, Returned None (Some ErrUnavailable))
  else
    match pick l with
    | (l', Some b) =>
        match Targets l !! b with
        | Some tg => (l', Transport tg (with_url_host (Host tg) r))
        | None => (l', Panicked)
        end
    | (l', None) => (l', Panicked)
    end.

(** [n] consecutive picks. *)
Fixpoint picks (n : nat) (l : t) : t * list (option nat) :=
  match n with
  | O => (l, [])
  | S n => let '(l1, b) := pick l in
           let '(l2, bs) := picks n l1 in (l2, b :: bs)
  end.

End Weighted.

Module WeightedFacts.
Import Weighted.

(** Sum over the peers that are up, from index [i] on. *)
Fixpoint usum (g : Gate) (f : swrrPeer -> Z) (i : nat) (ps : list swrrPeer) : Z :=
  match ps with
  | [] => 0
  | p :: ps => (if up g (Z.of_nat i) then f p else 0) + usum g f (S i) ps
  end.

(** The accumulator a peer enters a pick with. *)
Definition carry (p : swrrPeer) : Z := if wasUp p then current p else 0.

Definition live (g : Gate) (ps : list swrrPeer) : Z := usum g weight 0 ps.

(** The peer after the loop body ran on it. *)
Definition bump (g : Gate) (i : nat) (p : swrrPeer) : swrrPeer :=
  if up g (Z.of_nat i) then mkPeer (weight p) (carry p + weight p) true
  else mkPeer (weight p) (current p) false.

Definition bumps (g : Gate) (i : nat) (ps : list swrrPeer) : list swrrPeer :=
  imap (fun k p => bump g (i + k) p) ps.

Lemma bumps_cons g i p ps : bumps g i (p :: ps) = bump g i p :: bumps g (S i) ps.
Proof.
  unfold bumps. rewrite imap_cons. rewrite Nat.add_0_r. f_equal.
  apply imap_ext. intros k x _. cbn. f_equal. lia.
Qed.

(** The best candidate of a pool, continuing from [best]. *)
Fixpoint argmax (g : Gate) (i : nat) (ps : list swrrPeer) (best : option (nat * Z)) : option (nat * Z) :=
  match ps with
  | [] => best
  | p :: ps =>
      argmax g (S i) ps
        (if up g (Z.of_nat i)
         then if better best (carry p + weight p) then Some (i, carry p + weight p) else best
         else best)
  end.

Lemma index_step (i k : nat) : (S i + k)%nat = (i + S k)%nat.
Proof. lia. Qed.

Definition weights_ok (ps : list swrrPeer) : Prop := forall p, p ∈ ps -> 1 <= weight p.

(** Every up peer, with the index it has in the pool. *)
Definition each_up (g : Gate) (i : nat) (ps : list swrrPeer) (P : swrrPeer -> Prop) : Prop :=
  forall k p, ps !! k = Some p -> up g (Z.of_nat (i + k)) = true -> P p.

Lemma each_up_cons g i p ps P :
  each_up g i (p :: ps) P <-> (up g (Z.of_nat i) = true -> P p) /\ each_up g (S i) ps P.
Proof.
  split.
  - intros H. split; [intros Hu; apply (H 0%nat); rewrite ?Nat.add_0_r; done|].
    intros k q Hq Hu. apply (H (S k)); [done|]. by replace (i + S k)%nat with (S i + k)%nat by lia.
  - intros [H1 H2] [|k] q Hq Hu; cbn in Hq.
    + simplify_eq. rewrite Nat.add_0_r in Hu. auto.
    + apply (H2 k); [done|]. by rewrite index_step.
Qed.

Lemma weights_ok_cons p ps : weights_ok (p :: ps) <-> 1 <= weight p /\ weights_ok ps.
Proof. unfold weights_ok. setoid_rewrite elem_of_cons. naive_solver. Qed.

Lemma usum_nonneg g i ps : weights_ok ps -> 0 <= usum g weight i ps.
Proof.
  revert i. induction ps as [|p ps IH]; intros i H; cbn; [done|].
  apply weights_ok_cons in H as [Hp H]. specialize (IH (S i) H). destruct (up _ _); lia.
Qed.

Lemma pick_loop_spec g i ps acc best :
  weights_ok ps -> each_up g i ps (fun p => - 2 ^ 63 <= carry p + weight p < 2 ^ 63) ->
  0 <= acc -> acc + usum g weight i ps < 2 ^ 63 ->
  pick_loop g i ps acc best = (bumps g i ps, acc + usum g weight i ps, argmax g i ps best).
Proof.
  revert i acc best. induction ps as [|p ps IH]; intros i acc best Hw Hf Ha Hs; cbn [pick_loop usum argmax].
  - rewrite Z.add_0_r. done.
  - apply weights_ok_cons in Hw as [Hp Hw]. apply each_up_cons in Hf as [Hc Hf].
    pose proof (usum_nonneg g (S i) ps Hw) as Hn. cbn in Hs.
    rewrite bumps_cons. unfold bump. destruct (up g (Z.of_nat i)) eqn:Hu; cbn [negb andb].
    + specialize (Hc eq_refl).
      assert ((if negb (wasUp p) then 0 else current p) = carry p) as -> by (unfold carry; by destruct (wasUp p)).
      rewrite (i64_small (carry p + weight p)), (i64_small (acc + weight p)) by lia.
      rewrite IH by (done || lia). do 2 f_equal. lia.
    + rewrite IH by (done || lia). do 2 f_equal.
Qed.

Lemma argmax_better g i ps best b v :
  argmax g i ps best = Some (b, v) ->
  (best = Some (b, v) \/
   exists p, ps !! (b - i)%nat = Some p /\ (i <= b)%nat /\ up g (Z.of_nat b) = true /\ v = carry p + weight p) /\
  (forall b0 v0, best = Some (b0, v0) -> v0 <= v) /\
  (forall k p, ps !! k = Some p -> up g (Z.of_nat (i + k)) = true -> carry p + weight p <= v).
Proof.
  revert i best. induction ps as [|p ps IH]; intros i best H; cbn in H.
  - subst best. split; [by left|]. split; [by intros ?? [= -> ->]|done].
  - destruct (IH _ _ H) as (H1 & H2 & H3). destruct (up g (Z.of_nat i)) eqn:Hu.
    + destruct (better best (carry p + weight p)) eqn:Hb.
      * split; [|split].
        -- destruct H1 as [[= <- <-]|(q & Hq & Hle & Hub & Hv)].
           ++ right. exists p. rewrite Nat.sub_diag. auto.
           ++ right. exists q. split; [|split; [lia|done]].
              replace (b - i)%nat with (S (b - S i))%nat by lia. done.
        -- intros b0 v0 ->. cbn in Hb. apply Z.ltb_lt in Hb. specialize (H2 _ _ eq_refl). lia.
        -- intros [|k] q Hq Huq; cbn in Hq; [simplify_eq; by apply (H2 i)|].
           apply (H3 k); [done|]. by rewrite index_step.
      * split; [|split].
        -- destruct H1 as [->|(q & Hq & Hle & Hub & Hv)]; [by left|].
           right. exists q. split; [|split; [lia|done]].
           replace (b - i)%nat with (S (b - S i))%nat by lia. done.
        -- done.
        -- intros [|k] q Hq Huq; cbn in Hq.
           ++ simplify_eq. destruct best as [[b0 v0]|]; [|done]. cbn in Hb. apply Z.ltb_ge in Hb.
              specialize (H2 _ _ eq_refl). lia.
           ++ apply (H3 k); [done|]. by rewrite index_step.
    + split; [|split].
      * destruct H1 as [->|(q & Hq & Hle & Hub & Hv)]; [by left|].
        right. exists q. split; [|split; [lia|done]].
        replace (b - i)%nat with (S (b - S i))%nat by lia. done.
      * done.
      * intros [|k] q Hq Huq; cbn in Hq; [rewrite Nat.add_0_r in Huq; congruence|].
        apply (H3 k); [done|]. by rewrite index_step.
Qed.

Lemma argmax_None g i ps best : argmax g i ps best = None -> best = None /\ each_up g i ps (fun _ => False).
Proof.
  revert i best. induction ps as [|p ps IH]; intros i best H; cbn in H; [split; [done|by intros k q Hq]|].
  destruct (IH _ _ H) as [Hb He]. rewrite each_up_cons. destruct (up g (Z.of_nat i)) eqn:Hu.
  - by destruct best as [[b v]|]; cbn in Hb; [destruct (v <? _)|].
  - done.
Qed.

(** ** Sums *)

Lemma usum_bumps g i ps :
  usum g carry i (bumps g i ps) = usum g carry i ps + usum g weight i ps.
Proof.
  revert i. induction ps as [|p ps IH]; intros i; [done|]. rewrite bumps_cons. cbn [usum].
  rewrite IH. unfold bump. destruct (up g (Z.of_nat i)); [unfold carry at 1; cbn|]; lia.
Qed.

Lemma usum_weight_ext g i ps ps' :
  weight <$> ps = weight <$> ps' -> usum g weight i ps = usum g weight i ps'.
Proof.
  revert i ps'. induction ps as [|p ps IH]; intros i [|p' ps'] H; try done.
  cbn in H. injection H as Hp Hps. cbn. rewrite Hp. f_equal. by apply IH.
Qed.

Lemma usum_give_back g i ps k p x :
  ps !! k = Some p -> up g (Z.of_nat (i + k)) = true -> wasUp p = true ->
  - 2 ^ 63 <= current p - x < 2 ^ 63 ->
  usum g carry i (give_back k x ps) = usum g carry i ps - x.
Proof.
  revert i k. induction ps as [|q ps IH]; intros i k Hk Hu Hw Hr; [done|].
  destruct k as [|k]; cbn in Hk.
  - simplify_eq. rewrite Nat.add_0_r in Hu. unfold give_back, alter, list_alter. cbn.
    rewrite Hu. unfold carry; cbn. rewrite Hw, i64_small by lia. lia.
  - change (give_back (S k) x (q :: ps)) with (q :: give_back k x ps). cbn.
    rewrite (IH (S i) k); [lia|done| |done|done]. by rewrite index_step.
Qed.

Lemma usum_le g f i ps m : (forall k p, ps !! k = Some p -> up g (Z.of_nat (i + k)) = true -> f p <= m) ->
  m <= 0 -> usum g f i ps <= 0.
Proof.
  intros H Hm. change (each_up g i ps (fun p => f p <= m)) in H. revert i H.
  induction ps as [|p ps IH]; intros i H; cbn; [done|].
  apply each_up_cons in H as [H1 H2]. specialize (IH _ H2). destruct (up _ _); [specialize (H1 eq_refl)|]; lia.
Qed.

Lemma usum_lower g f i ps m :
  0 <= m -> each_up g i ps (fun p => - m <= f p) -> - (m * Z.of_nat (length ps)) <= usum g f i ps.
Proof.
  intros Hm. revert i. induction ps as [|p ps IH]; intros i H; cbn [usum length]; [lia|].
  apply each_up_cons in H as [H1 H2]. specialize (IH _ H2). destruct (up _ _); [specialize (H1 eq_refl)|]; lia.
Qed.

Lemma usum_upper g f i ps m k p :
  0 <= m -> each_up g i ps (fun p => - m <= f p) -> ps !! k = Some p ->
  up g (Z.of_nat (i + k)) = true -> f p <= usum g f i ps + m * Z.of_nat (length ps).
Proof.
  intros Hm. revert i k. induction ps as [|q ps IH]; intros i k H Hk Hu; [done|].
  apply each_up_cons in H as [H1 H2]. pose proof (usum_lower g f (S i) ps m Hm H2). cbn [usum length].
  destruct k as [|k]; cbn in Hk.
  - simplify_eq. rewrite Nat.add_0_r in Hu. rewrite Hu. lia.
  - specialize (IH (S i) k H2 Hk ltac:(by rewrite index_step)).
    destruct (up _ _); [specialize (H1 eq_refl)|]; lia.
Qed.

(** ** One pick *)

(** The accumulators of the up peers sum to zero and none is a full live total in
    debt. *)
Definition balanced (g : Gate) (L : Z) (ps : list swrrPeer) : Prop :=
  weights_ok ps /\ live g ps = L /\ usum g carry 0 ps = 0 /\
  each_up g 0 ps (fun p => - L < carry p).

Definition no_overflow (L : Z) (ps : list swrrPeer) : Prop :=
  L * (Z.of_nat (length ps) + 2) < 2 ^ 63.

Lemma give_back_lookup b x ps k :
  give_back b x ps !! k =
  (fun p => if decide (k = b) then mkPeer (weight p) (i64 (current p - x)) (wasUp p) else p) <$> ps !! k.
Proof.
  unfold give_back. destruct (decide (k = b)) as [->|].
  - by rewrite list_lookup_alter_eq.
  - rewrite list_lookup_alter_ne by done. by destruct (ps !! k).
Qed.

Lemma bumps_lookup g ps k : bumps g 0 ps !! k = bump g k <$> ps !! k.
Proof. unfold bumps. by rewrite list_lookup_imap. Qed.

Lemma weight_bumps g ps : weight <$> bumps g 0 ps = weight <$> ps.
Proof.
  apply list_eq. intros k. rewrite !list_lookup_fmap, bumps_lookup.
  destruct (ps !! k); cbn; [|done]. unfold bump. by destruct (up _ _).
Qed.

Lemma weight_give_back b x ps : weight <$> give_back b x ps = weight <$> ps.
Proof.
  apply list_eq. intros k. rewrite !list_lookup_fmap, give_back_lookup.
  destruct (ps !! k); cbn; [|done]. by destruct (decide _).
Qed.

Lemma weights_ok_fmap ps ps' : weight <$> ps = weight <$> ps' -> weights_ok ps -> weights_ok ps'.
Proof.
  intros E H p Hp. assert (weight p ∈ weight <$> ps) as Hw
    by (rewrite E; apply list_elem_of_fmap; eauto).
  apply list_elem_of_fmap in Hw as (q & -> & Hq). auto.
Qed.

(** How a pick under gate [g] moves the accumulator of peer [k]: it gains its
    weight, and the winner [b] gives back the live total. *)
Definition moved (g : Gate) (L : Z) (b k : nat) (p p' : swrrPeer) : Prop :=
  weight p' = weight p /\
  (up g (Z.of_nat k) = true ->
   wasUp p' = true /\ carry p' = carry p + weight p - (if decide (k = b) then L else 0)).

Lemma balanced_range g L ps k p :
  balanced g L ps -> 0 < L -> ps !! k = Some p -> up g (Z.of_nat k) = true ->
  - L < carry p <= L * Z.of_nat (length ps) /\ 1 <= weight p <= L.
Proof.
  intros (Hw & Hl & Hs & Hb) HL Hk Hu. split; [split; [by apply (Hb k)|]|split].
  - pose proof (usum_upper g carry 0 ps L k p ltac:(lia)) as H. rewrite Hs in H.
    assert (each_up g 0 ps (fun p => - L <= carry p)) as He.
    { intros j q Hq Huq. specialize (Hb j q Hq Huq). cbn in Hb. lia. }
    specialize (H He Hk Hu). lia.
  - apply Hw. by eapply list_elem_of_lookup_2.
  - pose proof (usum_upper g weight 0 ps 0 k p ltac:(lia)) as H.
    assert (each_up g 0 ps (fun p => - 0 <= weight p)) as He.
    { intros j q Hq _. apply list_elem_of_lookup_2, Hw in Hq. lia. }
    specialize (H He Hk Hu). unfold live in Hl. lia.
Qed.

Lemma usum_add g f h i ps :
  usum g (fun p => f p + h p) i ps = usum g f i ps + usum g h i ps.
Proof.
  revert i. induction ps as [|p qs IH]; intros i; cbn; [done|].
  rewrite IH. destruct (up g (Z.of_nat i)); lia.
Qed.

(** Where each peer is after the scan and the winner's payment. *)
Lemma step_moved g L ps b pb v k p :
  ps !! b = Some pb -> up g (Z.of_nat b) = true -> v = carry pb + weight pb ->
  - 2 ^ 63 <= v - L < 2 ^ 63 -> ps !! k = Some p ->
  exists p', give_back b L (bumps g 0 ps) !! k = Some p' /\ moved g L b k p p'.
Proof.
  intros Hpb Hub Hv Hrange Hk. rewrite give_back_lookup, bumps_lookup, Hk. cbn.
  eexists; split; [done|]. unfold moved, bump. destruct (decide (k = b)) as [->|].
  - rewrite Hub. rewrite Hpb in Hk. injection Hk as <-. cbn. split; [done|]. intros _.
    split; [done|]. rewrite <- Hv. by apply i64_small.
  - destruct (up g (Z.of_nat k)); cbn; split; try done. intros _. split; [done|]. lia.
Qed.

Lemma pick_step l L :
  balanced (gate l) L (peers l) -> 0 < L -> no_overflow L (peers l) ->
  exists ps' b, pick l = (mk (total l) ps' (gate l) (Targets l), Some b) /\
    balanced (gate l) L ps' /\ up (gate l) (Z.of_nat b) = true /\ (b < length (peers l))%nat /\
    length ps' = length (peers l) /\
    forall k p, peers l !! k = Some p -> exists p', ps' !! k = Some p' /\ moved (gate l) L b k p p'.
Proof.
  set (g := gate l). set (ps := peers l). intros Hbal HL Hov. unfold no_overflow in Hov.
  pose proof Hbal as (Hw & Hl & Hs & Hb). unfold pick. fold g ps.
  rewrite (pick_loop_spec g 0 ps 0 None Hw);
    [|intros k p Hk Hu; pose proof (balanced_range g L ps k p Hbal HL Hk Hu); nia|done|unfold live in Hl; nia].
  rewrite Z.add_0_l. fold (live g ps). rewrite Hl.
  destruct (argmax g 0 ps None) as [[b v]|] eqn:Ea; cycle 1.
  { apply argmax_None in Ea as [_ Ea]. exfalso.
    enough (live g ps <= 0) by lia. apply (usum_le g weight 0 ps 0); [|done].
    intros k p Hk Hu. destruct (Ea k p Hk Hu). }
  apply argmax_better in Ea as ([?|(pb & Hpb & _ & Hub & Hv)] & _ & Hmax); [done|].
  rewrite Nat.sub_0_r in Hpb. cbn in Hmax.
  pose proof (balanced_range g L ps b pb Hbal HL Hpb Hub) as [Hr1 Hr2].
  assert (bumps g 0 ps !! b = Some (mkPeer (weight pb) v true)) as Hbb.
  { rewrite bumps_lookup, Hpb. cbn. unfold bump. by rewrite Hub, Hv. }
  assert (0 < v) as Hv0.
  { destruct (decide (0 < v)); [done|]. exfalso.
    assert (usum g (fun p => carry p + weight p) 0 ps <= 0) as Hle by (apply (usum_le _ _ _ _ v); [done|lia]).
    rewrite usum_add in Hle. unfold live in Hl. lia. }
  assert (- 2 ^ 63 <= v - L < 2 ^ 63) as Hrange by (fold ps in Hov; lia).
  set (ps' := give_back b L (bumps g 0 ps)).
  assert (weight <$> ps' = weight <$> ps) as Hwt by (unfold ps'; by rewrite weight_give_back, weight_bumps).
  assert (forall k p, ps !! k = Some p -> exists p', ps' !! k = Some p' /\ moved g L b k p p') as Hmv.
  { intros k p Hk. eapply step_moved; eauto. }
  exists ps', b. split; [done|]. split; [split; [|split; [|split]]|split; [done|split; [|split]]].
  - by eapply weights_ok_fmap.
  - rewrite <- Hl. by apply usum_weight_ext.
  - unfold ps'. rewrite (usum_give_back g 0 _ b _ L Hbb); [|done|done|done].
    rewrite usum_bumps, Hs. unfold live in Hl. lia.
  - intros k p' Hk Hu. cbn. assert (k < length ps)%nat as Hlt.
    { apply lookup_lt_Some in Hk. apply (f_equal length) in Hwt. rewrite !length_fmap in Hwt. lia. }
    destruct (lookup_lt_is_Some_2 ps k Hlt) as [p Hp]. destruct (Hmv k p Hp) as (p'' & Hk'' & Hm).
    rewrite Hk in Hk''. injection Hk'' as <-. destruct Hm as [_ Hm]. destruct (Hm Hu) as [_ ->].
    pose proof (balanced_range g L ps k p Hbal HL Hp Hu). destruct (decide (k = b)) as [->|]; [|lia].
    rewrite Hpb in Hp. injection Hp as <-. lia.
  - by eapply lookup_lt_Some.
  - apply (f_equal length) in Hwt. by rewrite !length_fmap in Hwt.
  - done.
Qed.

(** ** Many picks *)

(** How often peer [k] was chosen. *)
Definition chosen (k : nat) (bs : list (option nat)) : Z :=
  Z.of_nat (length (filter (fun b => b = Some k) bs)).

Lemma chosen_cons k b bs : chosen k (Some b :: bs) = (if decide (k = b) then 1 else 0) + chosen k bs.
Proof.
  unfold chosen. rewrite filter_cons. destruct (decide (Some b = Some k)), (decide (k = b)); cbn; lia || congruence.
Qed.

Lemma picks_account l L n :
  balanced (gate l) L (peers l) -> 0 < L -> no_overflow L (peers l) ->
  let '(l', bs) := picks n l in
  length (peers l') = length (peers l) /\ balanced (gate l) L (peers l') /\
  (forall k p, peers l !! k = Some p -> exists p', peers l' !! k = Some p' /\ weight p' = weight p /\
    if up (gate l) (Z.of_nat k)
    then carry p' = carry p + Z.of_nat n * weight p - L * chosen k bs
    else chosen k bs = 0) /\
  (forall b, b ∈ bs -> exists k, b = Some k /\ (k < length (peers l))%nat).
Proof.
  revert l. induction n as [|n IH]; intros l Hb HL Hov; cbn [picks].
  - split; [done|]. split; [done|]. split; [|by intros b Hb'%elem_of_nil].
    intros k p Hk. exists p. repeat split; [done|]. destruct (up _ _); [|done].
    unfold chosen; cbn; lia.
  - destruct (pick_step l L Hb HL Hov) as (ps' & b & -> & Hb' & Hub & Hbl & Hlen & Hmv).
    specialize (IH (mk (total l) ps' (gate l) (Targets l)) Hb' HL). cbn in IH.
    unfold no_overflow in IH. rewrite Hlen in IH. specialize (IH Hov).
    destruct (picks n _) as [l2 bs]. destruct IH as (Hl2 & Hb2 & IH & Hin).
    split; [congruence|]. split; [done|]. split.
    + intros k p Hk. destruct (Hmv k p Hk) as (p1 & Hp1 & Hw1 & Hc1).
      destruct (IH k p1 Hp1) as (p2 & Hp2 & Hw2 & Hc2). exists p2. split; [done|]. split; [congruence|].
      rewrite chosen_cons. destruct (up (gate l) (Z.of_nat k)) eqn:Hu.
      * destruct (Hc1 eq_refl) as [_ Hc1']. rewrite Hc2, Hc1', Hw1. destruct (decide (k = b)); lia.
      * rewrite Hc2. rewrite decide_False by congruence. done.
    + intros x [->|Hx]%elem_of_cons; [by exists b|].
      destruct (Hin x Hx) as (k & -> & Hk). exists k. split; [done|]. lia.
Qed.

Lemma init_balanced g targets :
  let l := init (mk 0 [] g targets) in
  balanced g (live g (peers l)) (peers l) \/ live g (peers l) <= 0.
Proof.
  intros l. destruct (decide (0 < live g (peers l))) as [HL|]; [left|right; lia].
  assert (forall p, p ∈ peers l -> wasUp p = false /\ 1 <= weight p) as H0.
  { intros p (tg & -> & _)%list_elem_of_fmap. split; [done|apply effectiveWeight_pos]. }
  split; [intros p Hp; by apply H0|]. split; [done|]. split.
  - clear HL. revert H0. generalize 0%nat. generalize (peers l). induction l0 as [|p ps IH]; intros i H0; [done|].
    cbn. rewrite IH by (intros q Hq; apply H0; by right). unfold carry.
    destruct (H0 p ltac:(left)) as [-> _]. destruct (up _ _); done.
  - intros k p Hk _. apply list_elem_of_lookup_2, H0 in Hk as [Hk _]. unfold carry. rewrite Hk. cbn beta. lia.
Qed.

(** If every accumulator is a multiple of the live total, they are all zero. *)
Lemma balanced_multiple g L ps (m : nat -> swrrPeer -> Z) :
  balanced g L ps -> 0 < L ->
  (forall k p, ps !! k = Some p -> up g (Z.of_nat k) = true -> carry p = L * m k p) ->
  forall k p, ps !! k = Some p -> up g (Z.of_nat k) = true -> carry p = 0.
Proof.
  intros (_ & _ & Hs & Hb) HL Hm k p Hk Hu.
  assert (each_up g 0 ps (fun p => - 0 <= carry p)) as He.
  { intros j q Hq Huq. specialize (Hb j q Hq Huq). specialize (Hm j q Hq Huq).
    cbn beta in *. assert (-1 < m j q) by nia. nia. }
  pose proof (usum_upper g carry 0 ps 0 k p ltac:(lia) He Hk Hu). specialize (He k p Hk Hu). cbn beta in He. lia.
Qed.

Lemma picks_exact l L :
  balanced (gate l) L (peers l) -> 0 < L -> no_overflow L (peers l) ->
  (forall p, p ∈ peers l -> carry p = 0) ->
  let '(l', bs) := picks (Z.to_nat L) l in
  forall k p, peers l !! k = Some p ->
    chosen k bs = (if up (gate l) (Z.of_nat k) then weight p else 0) /\
    (up (gate l) (Z.of_nat k) = true -> exists p', peers l' !! k = Some p' /\ carry p' = 0).
Proof.
  intros Hb HL Hov H0. pose proof (picks_account l L (Z.to_nat L) Hb HL Hov) as H.
  destruct (picks (Z.to_nat L) l) as [l' bs]. destruct H as (Hlen & Hb' & Hacc & _).
  assert (forall k p', peers l' !! k = Some p' -> up (gate l) (Z.of_nat k) = true ->
            carry p' = L * (weight p' - chosen k bs)) as Hmul.
  { intros k p' Hp' Hu. destruct (lookup_lt_is_Some_2 (peers l) k) as [p Hp];
      [rewrite <- Hlen; by eapply lookup_lt_Some|].
    destruct (Hacc k p Hp) as (p'' & Hp'' & Hw & Hc). rewrite Hp' in Hp''. injection Hp'' as <-.
    rewrite Hu in Hc. rewrite Hc, Hw, Z2Nat.id by lia.
    rewrite (H0 p) by (by eapply list_elem_of_lookup_2). lia. }
  intros k p Hk. destruct (Hacc k p Hk) as (p' & Hp' & Hw & Hc).
  destruct (up (gate l) (Z.of_nat k)) eqn:Hu; [|done].
  pose proof (balanced_multiple _ L _ (fun k p => weight p - chosen k bs) Hb' HL Hmul k p' Hp' Hu) as Hz.
  split; [|by exists p']. rewrite (Hmul k p' Hp' Hu), Hw in Hz. nia.
Qed.

(** Under a constant gate, as many picks as the live weights sum to choose every
    up target exactly its weight many times and a down target never, and every
    accumulator returns to zero, in int64 arithmetic that does not overflow. *)
Theorem swrr_exact_share g targets :
  let l := init (mk 0 [] g targets) in
  let L := live g (peers l) in
  0 < L -> L * (Z.of_nat (length targets) + 2) < 2 ^ 63 ->
  let '(l', bs) := picks (Z.to_nat L) l in
  forall k tg, targets !! k = Some tg ->
    chosen k bs = (if up g (Z.of_nat k) then effectiveWeight tg else 0) /\
    (up g (Z.of_nat k) = true -> exists p, peers l' !! k = Some p /\ carry p = 0).
Proof.
  intros l L HL Hov. destruct (init_balanced g targets) as [Hb|Hb]; [|unfold L, l in HL; lia].
  assert (no_overflow L (peers l)) as Hno by (unfold no_overflow, l; cbn; by rewrite length_fmap).
  pose proof (picks_exact l L Hb HL Hno) as H.
  destruct (picks (Z.to_nat L) l) as [l' bs]. intros k tg Hk.
  apply (H ltac:(by intros p (x & -> & _)%list_elem_of_fmap) k (init_peer tg)).
  cbn. by rewrite list_lookup_fmap, Hk.
Qed.

(** After any number n of picks under a constant gate no target has been chosen a
    full turn more than its exact share n*weight/total. *)
Theorem swrr_never_ahead g targets n :
  let l := init (mk 0 [] g targets) in
  let L := live g (peers l) in
  0 < L -> L * (Z.of_nat (length targets) + 2) < 2 ^ 63 ->
  forall k tg, targets !! k = Some tg ->
    L * chosen k (picks n l).2 < Z.of_nat n * effectiveWeight tg + L.
Proof.
  intros l L HL Hov k tg Hk. destruct (init_balanced g targets) as [Hb|Hb]; [|unfold L, l in HL; lia].
  assert (no_overflow L (peers l)) as Hno by (unfold no_overflow, l; cbn; by rewrite length_fmap).
  pose proof (picks_account l L n Hb HL Hno) as H. destruct (picks n l) as [l' bs].
  destruct H as (_ & (_ & _ & _ & Hlow) & Hacc & _).
  destruct (Hacc k (init_peer tg)) as (p' & Hp' & Hw & Hc); [cbn; by rewrite list_lookup_fmap, Hk|].
  change (weight (init_peer tg)) with (effectiveWeight tg) in *. pose proof (effectiveWeight_pos tg).
  change (gate l) with g in *. destruct (up g (Z.of_nat k)) eqn:Hu; cbn [snd]; [|nia].
  specialize (Hlow k p' Hp' Hu). cbn beta in Hlow. rewrite Hc in Hlow. change (carry (init_peer tg)) with 0 in Hlow. lia.
Qed.

Definition demo_targets : list Target :=
  [mkTarget (fun _ => Panicked) "a" 5 0; mkTarget (fun _ => Panicked) "b" 1 0;
   mkTarget (fun _ => Panicked) "c" 0 0; mkTarget (fun _ => Panicked) "d" 9 0].
Definition demo_gate : Gate := Some [true; true; true; false].

Lemma swrr_exact_share_witness :
  (picks 7 (init (mk 0 [] demo_gate demo_targets))).2 =
    Some <$> [0; 0; 1; 0; 2; 0; 0]%nat /\
  chosen 0 (picks 7 (init (mk 0 [] demo_gate demo_targets))).2 = 5.
Proof.
  split; [by vm_compute|].
  pose proof (swrr_exact_share demo_gate demo_targets ltac:(by vm_compute) ltac:(by vm_compute)) as H.
  change (Z.to_nat (live demo_gate (peers (init (mk 0 [] demo_gate demo_targets))))) with 7%nat in H.
  destruct (picks 7 _) as [l' bs]. destruct (H 0%nat _ eq_refl) as [H0 _]. exact H0.
Defined.

Lemma swrr_never_ahead_witness :
  7 * chosen 0 (picks 3 (init (mk 0 [] demo_gate demo_targets))).2 < 3 * 5 + 7.
Proof.
  exact (swrr_never_ahead demo_gate demo_targets 3 ltac:(by vm_compute) ltac:(by vm_compute)
           0%nat _ eq_refl).
Defined.

End WeightedFacts.
