(* ===== verification/UpstreamState.v ===== *)
(** * pkg/upstream: reliability states, reasons and the shared backoff

    [src/pkg/upstream/state.go], and the doubling cooldown that
    [CircuitBreakingLoadBalancer.openTimeout] and
    [EjectingLoadBalancer.ejectionTimeout] both compute. *)

From S2P Require Import Prelude Http.

Inductive State := StateClosed | StateOpen | StateHalfOpen.

Definition State_String (s : State) : string :=
  match s with
  | StateOpen => "open"
  | StateHalfOpen => "half_open"
  | StateClosed => "closed"
  end.

Inductive Reason :=
  | ReasonTrip | ReasonReopen | ReasonHeal | ReasonProbe | ReasonExpire
  | ReasonEject | ReasonRecover | ReasonProbeDown | ReasonProbeRecover.

Definition Reason_String (r : Reason) : string :=
  match r with
  | ReasonReopen => "reopen"
  | ReasonHeal => "heal"
  | ReasonProbe => "probe"
  | ReasonExpire => "expire"
  | ReasonEject => "eject"
  | ReasonRecover => "recover"
  | ReasonProbeDown => "probe_down"
  | ReasonProbeRecover => "probe_recover"
  | ReasonTrip => "trip"
  end.

Inductive ProbeCause :=
  | CauseNone | CauseTimeout | CauseRefused | CauseReset | CauseDNS | CauseTLS
  | CauseStatus | CauseError.

Definition ProbeCause_String (c : ProbeCause) : string :=
  match c with
  | CauseTimeout => "timeout"
  | CauseRefused => "refused"
  | CauseReset => "reset"
  | CauseDNS => "dns"
  | CauseTLS => "tls"
  | CauseStatus => "status"
  | CauseError => "error"
  | CauseNone => "none"
  end.

#[global] Instance State_eq_dec : EqDecision State.
Proof. solve_decision. Defined.
#[global] Instance Reason_eq_dec : EqDecision Reason.
Proof. solve_decision. Defined.
#[global] Instance ProbeCause_eq_dec : EqDecision ProbeCause.
Proof. solve_decision. Defined.

Record StateChange := mkStateChange {
  sc_host : string;
  sc_from : State;
  sc_to : State;
  sc_reason : Reason;
  sc_cause : ProbeCause;
}.

#[global] Instance StateChange_eq_dec : EqDecision StateChange.
Proof. solve_decision. Defined.

(** The default [failed] of the passive balancers: [IsFailure] when set, else any
    error that is not a client cancellation. *)
Definition failed (IsFailure : option (option Response -> option error -> bool))
    (resp : option Response) (err : option error) : bool :=
  match IsFailure with
  | Some f => f resp err
  | None => match err with
            | Some e => negb (errors_is e ErrCanceled)
            | None => false
            end
  end.

(** ** The doubling cooldown *)

(** [for i := int32(1); i < g && d < max; i++ { d *= 2 }], [n] iterations left. *)
Fixpoint double_loop (n : nat) (d max : Z) : Z :=
  match n with
  | O => d
  | S n => if d <? max then double_loop n (i64 (d * 2)) max else d
  end.

Definition backoff (base max g : Z) : Z :=
  let d := double_loop (Z.to_nat (g - 1)) base max in
  if (d <=? 0) || (max <? d) then max else d.

Lemma double_loop_spec n base max :
  0 < base <= max -> max <= 2 ^ 62 ->
  Z.min (double_loop n base max) max = Z.min (base * 2 ^ Z.of_nat n) max /\
  0 < double_loop n base max.
Proof.
  revert base. induction n as [|n IH]; intros base Hb Hm; cbn [double_loop].
  - rewrite Z.mul_1_r. lia.
  - assert (2 ^ Z.of_nat (S n) = 2 * 2 ^ Z.of_nat n) as E
      by (rewrite Nat2Z.inj_succ, Z.pow_succ_r; lia).
    assert (0 < 2 ^ Z.of_nat n) by lia.
    destruct (base <? max) eqn:Hlt; bool_prop; [|split; [rewrite E; nia|lia]].
    rewrite i64_small by lia.
    destruct (decide (base * 2 <= max)).
    + destruct (IH (base * 2)) as [IH1 IH2]; [lia..|]. split; [|done].
      rewrite IH1, E. f_equal. lia.
    + split; [|destruct n; cbn; [lia|rewrite (proj2 (Z.ltb_ge _ _)) by lia; lia]].
      destruct n as [|n]; cbn [double_loop]; [rewrite E; cbn; lia|].
      rewrite (proj2 (Z.ltb_ge _ _)) by lia. rewrite E. nia.
Qed.

(** The cooldown is the base doubled [g - 1] times, capped. *)
Lemma backoff_spec base max g :
  0 < base <= max -> max <= 2 ^ 62 -> 1 <= g ->
  backoff base max g = Z.min (base * 2 ^ (g - 1)) max.
Proof.
  intros Hb Hm Hg. unfold backoff.
  destruct (double_loop_spec (Z.to_nat (g - 1)) base max Hb Hm) as [E Hpos].
  rewrite Z2Nat.id in E by lia. bool_case; lia.
Qed.

(** Whatever the configuration, a cooldown is positive and within the cap. *)
Lemma backoff_bounds base max g : 0 < max -> 0 < backoff base max g <= max.
Proof. intros Hm. unfold backoff. bool_case; lia. Qed.

Lemma backoff_mono base max g h :
  0 < base <= max -> max <= 2 ^ 62 -> 1 <= g <= h ->
  backoff base max g <= backoff base max h.
Proof.
  intros Hb Hm Hg. rewrite !backoff_spec by lia.
  assert (2 ^ (g - 1) <= 2 ^ (h - 1)) by (apply Z.pow_le_mono_r; lia). nia.
Qed.
