(* ===== verification/CircuitBreaker.v ===== *)
(** * pkg/upstream: the circuit-breaking balancer

    [src/pkg/upstream/circuitbreaker.go].  The methods of a breaker ([admit] as [cbAdmit],
    [record], [transition], [releaseProbe]) are goroutine programs over the shared
    cells of one breaker, one atomic action per [Load]/[Store]/[Add]/
    [CompareAndSwap] of the source; [pick] and [RoundTrip] run them over the
    balancer's list of breakers. *)

From S2P Require Import Prelude Http Concurrency UpstreamState RoundRobin.

Local Open Scope go_scope.

Module CircuitBreaker.

(** ** The packed word *)

Definition cbClosed : Z := 0.
Definition cbOpen : Z := 1.
Definition cbHalfOpen : Z := 2.

Definition cbStateBits : Z := 2.
Definition cbProbeBits : Z := 22.
Definition cbStateMask : Z := Z.ones cbStateBits.
Definition cbProbeMask : Z := Z.shiftl (Z.ones cbProbeBits) cbStateBits.
Definition cbProbeOne : Z := Z.shiftl 1 cbStateBits.
Definition cbGenShift : Z := cbStateBits + cbProbeBits.
Definition cbMaxProbes : Z := Z.shiftl 1 cbProbeBits - 1.

Definition cbPack (gen probes state : Z) : Z :=
  u64 (Z.lor (Z.lor (Z.shiftl gen cbGenShift) (Z.shiftl probes cbStateBits)) state).

Definition cbUnpack (v : Z) : Z * Z * Z :=
  (u32 (Z.shiftr v cbGenShift),
   u32 (Z.shiftr (Z.land v cbProbeMask) cbStateBits),
   Z.land v cbStateMask).

(** ** Configuration *)

Record config := mkConfig {
  FailureThreshold : Z;
  SuccessThreshold : Z;
  OpenTimeout : Z;
  MaxOpenTimeout : Z;
  ProbeTimeout : Z;
  HalfOpenMaxProbes : Z;
  IsFailure : option (option Response -> option error -> bool);
}.

Definition defaultFailureThreshold : Z := 5.
Definition defaultSuccessThreshold : Z := 2.
Definition defaultCBOpenTimeout : Z := 5 * Second.
Definition defaultCBMaxOpenTimeout : Z := Minute.
Definition defaultHalfOpenMaxProbes : Z := 1.
Definition defaultProbeTimeout : Z := 2 * Minute.

(** The configuration half of [init]. *)
Definition init_config (c : config) : config :=
  let ft := if FailureThreshold c <=? 0 then defaultFailureThreshold else FailureThreshold c in
  let st := if SuccessThreshold c <=? 0 then defaultSuccessThreshold else SuccessThreshold c in
  let ot := if OpenTimeout c <=? 0 then defaultCBOpenTimeout else OpenTimeout c in
  let mt := if MaxOpenTimeout c <=? 0 then defaultCBMaxOpenTimeout else MaxOpenTimeout c in
  let mt := if mt <? ot then ot else mt in
  let pt := if ProbeTimeout c <=? 0 then defaultProbeTimeout else ProbeTimeout c in
  let hp := if HalfOpenMaxProbes c <=? 0 then defaultHalfOpenMaxProbes else HalfOpenMaxProbes c in
  let hp := if cbMaxProbes <? hp then cbMaxProbes else hp in
  mkConfig ft st ot mt pt hp (IsFailure c).

Definition openTimeout (c : config) (g : Z) : Z := backoff (OpenTimeout c) (MaxOpenTimeout c) g.

(** ** The shared cells of one breaker *)

Record cbState := mkCbState {
  word : Z;
  openedUntil : Z;
  halfOpenSince : Z;
  generations : Z;
  failures : Z;
  successes : Z;
}.

Definition cb_zero : cbState := mkCbState 0 0 0 0 0 0.

(** What one breaker's goroutines share: its cells, the wall clock [time.Now]
    reads, the events delivered to [OnStateChange], and two auxiliary variables no
    code reads: [epoch], the number of transitions so far (the generation before
    its reduction to 32 bits), and [holds], the epoch in which each goroutine
    claimed a probe slot it has not given back. *)
Record shared := mkShared {
  cells : cbState;
  clock : Z;
  events : list (State * State * Reason);
  epoch : Z;
  holds : gmap nat Z;
}.

Definition upd_cells (f : cbState -> cbState) (s : shared) : shared :=
  mkShared (f (cells s)) (clock s) (events s) (epoch s) (holds s).

Definition set_word (v : Z) (b : cbState) : cbState :=
  mkCbState v (openedUntil b) (halfOpenSince b) (generations b) (failures b) (successes b).
Definition set_openedUntil (v : Z) (b : cbState) : cbState :=
  mkCbState (word b) v (halfOpenSince b) (generations b) (failures b) (successes b).
Definition set_halfOpenSince (v : Z) (b : cbState) : cbState :=
  mkCbState (word b) (openedUntil b) v (generations b) (failures b) (successes b).
Definition set_generations (v : Z) (b : cbState) : cbState :=
  mkCbState (word b) (openedUntil b) (halfOpenSince b) v (failures b) (successes b).
Definition set_failures (v : Z) (b : cbState) : cbState :=
  mkCbState (word b) (openedUntil b) (halfOpenSince b) (generations b) v (successes b).
Definition set_successes (v : Z) (b : cbState) : cbState :=
  mkCbState (word b) (openedUntil b) (halfOpenSince b) (generations b) (failures b) v.

(** [b.word.CompareAndSwap(old, new)] with the update of the auxiliary variables
    that accompanies a successful swap. *)
Definition cas_word (old new : Z) (aux : shared -> shared) : prog shared bool :=
  Atomic (fun s => if word (cells s) =? old then aux (upd_cells (set_word new) s) else s)
         (fun s => Ret (word (cells s) =? old)).

Definition next_epoch (s : shared) : shared :=
  mkShared (cells s) (clock s) (events s) (epoch s + 1) (holds s).
Definition hold (me : nat) (s : shared) : shared :=
  mkShared (cells s) (clock s) (events s) (epoch s) (<[me := epoch s]> (holds s)).
Definition unhold (me : nat) (s : shared) : shared :=
  mkShared (cells s) (clock s) (events s) (epoch s) (delete me (holds s)).

Definition Now : prog shared Z := load clock.
Definition Load (f : cbState -> Z) : prog shared Z := load (fun s => f (cells s)).
Definition Store (set : Z -> cbState -> cbState) (v : Z) : prog shared unit :=
  store (upd_cells (set v)).

(** [atomic.Int32.Add(1)]: the new value. *)
Definition AddOne (get : cbState -> Z) (set : Z -> cbState -> cbState) : prog shared Z :=
  rmw (fun s => i32 (get (cells s) + 1)) (upd_cells (fun b => set (i32 (get b + 1)) b)).

Definition emit (from to : State) (reason : Reason) : prog shared unit :=
  store (fun s => mkShared (cells s) (clock s) (events s ++ [(from, to, reason)])
                           (epoch s) (holds s)).

Definition cbExternal (s : Z) : State :=
  if s =? cbOpen then StateOpen else if s =? cbHalfOpen then StateHalfOpen else StateClosed.

(** ** The methods of one breaker *)

Inductive cbAdmission := cbAdmitClosed | cbAdmitProbe.

Definition transition (fuel : nat) (c : config) (gen from next : Z) (reason : Reason)
    : prog shared bool :=
  eu <- (if next =? cbOpen then
           g <- Load generations ;;
           now <- Now ;;
           let e := i32 (g + 1) in
           Ret (e, i64 (now + openTimeout c e))
         else Ret (0, 0)) ;;
  let '(e, until) := eu in
  loop fuel
    (v <- Load word ;;
     let '(g, _, state) := cbUnpack v in
     if negb (g =? gen) || negb (state =? from) then Ret (Some false)
     else
       (if next =? cbOpen then Store set_openedUntil until else Ret tt) ;;
       ok <- cas_word v (cbPack (u32 (gen + 1)) 0 next) next_epoch ;;
       if (ok : bool) then
         Store set_failures 0 ;;
         Store set_successes 0 ;;
         (if next =? cbOpen then Store set_generations e
          else if next =? cbClosed then
            Store set_generations 0 ;; Store set_openedUntil 0
          else Ret tt) ;;
         emit (cbExternal from) (cbExternal next) reason ;;
         Ret (Some true)
       else Ret None).

Definition releaseProbe (fuel : nat) (me : nat) (gen : Z) : prog shared unit :=
  loop fuel
    (v <- Load word ;;
     let '(g, probes, state) := cbUnpack v in
     if negb (g =? gen) || negb (state =? cbHalfOpen) || (probes =? 0) then Ret (Some tt)
     else
       ok <- cas_word v (u64 (v - cbProbeOne)) (unhold me) ;;
       if (ok : bool) then Ret (Some tt) else Ret None).

(** The body of [admit]'s loop: [None] is its [continue]. *)
Definition admit_body (fuel : nat) (c : config) (me : nat) (now : Z)
    : prog shared (option (Z * cbAdmission * bool)) :=
    (v <- Load word ;;
     let '(gen, probes, state) := cbUnpack v in
     if state =? cbClosed then Ret (Some (0, cbAdmitClosed, true))
     else if state =? cbOpen then
       u <- Load openedUntil ;;
       if now <? u then Ret (Some (0, cbAdmitClosed, false))
       else
         Store set_halfOpenSince now ;;
         ok <- cas_word v (cbPack (u32 (gen + 1)) 0 cbHalfOpen) next_epoch ;;
         (if (ok : bool) then emit StateOpen StateHalfOpen ReasonProbe else Ret tt) ;;
         Ret None
     else if u32 (HalfOpenMaxProbes c) <=? probes then
       h <- Load halfOpenSince ;;
       if ProbeTimeout c <? i64 (now - h) then
         transition fuel c gen cbHalfOpen cbOpen ReasonExpire ;; Ret None
       else Ret (Some (0, cbAdmitClosed, false))
     else
       ok <- cas_word v (u64 (v + cbProbeOne)) (hold me) ;;
       if (ok : bool) then Ret (Some (gen, cbAdmitProbe, true)) else Ret None).

Definition cbAdmit (fuel : nat) (c : config) (me : nat) (now : Z)
    : prog shared (Z * cbAdmission * bool) :=
  loop fuel (admit_body fuel c me now).

Definition record (fuel : nat) (c : config) (me : nat) (gen : Z) (adm : cbAdmission)
    (resp : option Response) (err : option error) : prog shared unit :=
  let f := failed (IsFailure c) resp err in
  match adm with
  | cbAdmitProbe =>
      if f then transition fuel c gen cbHalfOpen cbOpen ReasonReopen ;; Ret tt
      else
        n <- AddOne successes set_successes ;;
        if SuccessThreshold c <=? n then
          transition fuel c gen cbHalfOpen cbClosed ReasonHeal ;; Ret tt
        else releaseProbe fuel me gen
  | cbAdmitClosed =>
      if f then
        n <- AddOne failures set_failures ;;
        if FailureThreshold c <=? n then
          v <- Load word ;;
          let '(g, _, state) := cbUnpack v in
          if state =? cbClosed then
            transition fuel c g cbClosed cbOpen ReasonTrip ;; Ret tt
          else Ret tt
        else Ret tt
      else
        n <- Load failures ;;
        if n =? 0 then Ret tt else Store set_failures 0
  end.

(** What [RoundTrip] does once [pick] chose the breaker: the round trip, then
    [record], or the deferred [releaseProbe] when the transport panics. *)
Definition finish (fuel : nat) (c : config) (me : nat) (gen : Z) (adm : cbAdmission)
    (o : outcome) : prog shared outcome :=
  match o with
  | Returned resp err => record fuel c me gen adm resp err ;; Ret o
  | Panicked =>
      (match adm with
       | cbAdmitProbe => releaseProbe fuel me gen
       | cbAdmitClosed => Ret tt
       end) ;; Ret o
  end.

(** ** The balancer, one request at a time *)

Record t := mk {
  i : Z;
  breakers : list shared;
  gate : Gate;
  Targets : list Target;
  cfg : config;
}.

Definition breaker_zero (now : Z) : shared := mkShared cb_zero now [] 0 ∅.

(** A balancer as [NewCircuitBreakingLoadBalancer] and the first request's [init]
    leave it. *)
Definition New (c : config) (g : Gate) (targets : list Target) : t :=
  mk 0 ((fun _ => breaker_zero 0) <$> targets) g targets (init_config c).

Definition setHealthGate (g : list bool) (l : t) : t := mk (i l) (breakers l) (Some g) (Targets l) (cfg l).

(** The scan of [pick]: the first breaker that is up and admits, the others as
    their [cbAdmit] left them.  [None] is a goroutine still inside [cbAdmit]. *)
Fixpoint pick_scan (fuel : nat) (c : config) (g : Gate) (me : nat) (now : Z)
    (ks : list Z) (bs : list shared) : list shared * option (option (Z * Z * cbAdmission)) :=
  match ks with
  | [] => (bs, Some None)
  | idx :: ks =>
      if negb (up g idx) then pick_scan fuel c g me now ks bs
      else
        match bs !! Z.to_nat idx with
        | None => (bs, None)
        | Some b =>
            match run (cbAdmit fuel c me now) b with
            | (b', Some (gen, adm, true)) => (<[Z.to_nat idx := b']> bs, Some (Some (idx, gen, adm)))
            | (b', Some (_, _, false)) => pick_scan fuel c g me now ks (<[Z.to_nat idx := b']> bs)
            | (b', None) => (<[Z.to_nat idx := b']> bs, None)
            end
        end
  end.

Definition set_clock (now : Z) (b : shared) : shared :=
  mkShared (cells b) now (events b) (epoch b) (holds b).

Definition pick (fuel : nat) (l : t) (me : nat) (now : Z)
    : t * option (option (Z * Z * cbAdmission)) :=
  let n := Z.of_nat (length (Targets l)) in
  let i' := u32 (i l + 1) in
  let start := u32 (i' - 1) in
  let '(bs, r) := pick_scan fuel (cfg l) (gate l) me now (ring_u32 start n)
                    (set_clock now <$> breakers l) in
  (mk i' bs (gate l) (Targets l) (cfg l), r).

(** [RoundTrip] at time [now]; the transport's answer arrives at [now']. *)
Definition RoundTrip (fuel : nat) (l : t) (me : nat) (now now' : Z) (r : Request)
    : t * option outcome :=
  if Z.of_nat (length (breakers l)) =? 0 then (l, Some (Returned None (Some ErrUnavailable)))
  else
    match pick fuel l me now with
    | (l', None) => (l', None)
    | (l', Some None) => (l', Some (Returned None (Some ErrUnavailable)))
    | (l', Some (Some (idx, gen, adm))) =>
        match Targets l' !! Z.to_nat idx, breakers l' !! Z.to_nat idx with
        | Some tg, Some b =>
            let o := Transport tg (with_url_host (Host tg) r) in
            let '(b', res) := run (finish fuel (cfg l') me gen adm o) (set_clock now' b) in
            (mk (i l') (<[Z.to_nat idx := b']> (breakers l')) (gate l') (Targets l') (cfg l'), res)
        | _, _ => (l', Some Panicked)
        end
    end.

End CircuitBreaker.

(** ** Facts *)

Module CircuitBreakerFacts.
Import CircuitBreaker.

Definition wordZ (g p st : Z) : Z := g * 2 ^ 24 + p * 2 ^ 2 + st.

Definition field_ok (g p st : Z) : Prop := 0 <= g < 2 ^ 32 /\ 0 <= p <= cbMaxProbes /\ 0 <= st < 4.

Lemma cbMaxProbes_eq : cbMaxProbes = 2 ^ 22 - 1.
Proof. done. Qed.

Lemma cbPack_wordZ g p st : field_ok g p st -> cbPack g p st = wordZ g p st.
Proof.
  intros (Hg & Hp & Hs). rewrite cbMaxProbes_eq in Hp. unfold cbPack, wordZ.
  change cbGenShift with 24. change cbStateBits with 2.
  replace (Z.lor (Z.lor (Z.shiftl g 24) (Z.shiftl p 2)) st)
    with (Z.lor (Z.shiftl g 24) (Z.lor (Z.shiftl p 2) st)) by apply Z.lor_assoc.
  rewrite (lor_shiftl_add p st) by lia. rewrite lor_shiftl_add by lia.
  rewrite u64_small by lia. lia.
Qed.

Lemma cbUnpack_wordZ g p st : field_ok g p st -> cbUnpack (wordZ g p st) = (g, p, st).
Proof.
  intros (Hg & Hp & Hs). rewrite cbMaxProbes_eq in Hp. unfold cbUnpack, wordZ.
  change cbGenShift with 24. change cbStateBits with 2. change cbStateMask with (Z.ones 2).
  unfold cbProbeMask. change cbProbeBits with 22. change cbStateBits with 2.
  rewrite land_shiftr_field, Z.shiftr_div_pow2, Z.land_ones by lia.
  assert ((g * 2 ^ 24 + p * 2 ^ 2 + st) / 2 ^ 24 = g) as ->
    by (symmetry; apply (Z.div_unique_pos _ _ g (p * 2 ^ 2 + st)); lia).
  assert ((g * 2 ^ 24 + p * 2 ^ 2 + st) mod 2 ^ 2 = st) as ->
    by (symmetry; apply (Z.mod_unique_pos _ _ (g * 2 ^ 22 + p) st); lia).
  assert ((g * 2 ^ 24 + p * 2 ^ 2 + st) / 2 ^ 2 = g * 2 ^ 22 + p) as ->
    by (symmetry; apply (Z.div_unique_pos _ _ (g * 2 ^ 22 + p) st); lia).
  assert ((g * 2 ^ 22 + p) mod 2 ^ 22 = p) as ->
    by (symmetry; apply (Z.mod_unique_pos _ _ g p); lia).
  wrap_small. done.
Qed.

Lemma wordZ_probe_up g p st :
  field_ok g (p + 1) st -> 0 <= p -> u64 (wordZ g p st + cbProbeOne) = wordZ g (p + 1) st.
Proof.
  intros (Hg & Hp & Hs) H0. rewrite cbMaxProbes_eq in Hp. unfold wordZ.
  change cbProbeOne with (2 ^ 2). rewrite u64_small by lia. lia.
Qed.

Lemma wordZ_probe_down g p st :
  field_ok g p st -> 0 < p -> u64 (wordZ g p st - cbProbeOne) = wordZ g (p - 1) st.
Proof.
  intros (Hg & Hp & Hs) H0. rewrite cbMaxProbes_eq in Hp. unfold wordZ.
  change cbProbeOne with (2 ^ 2). rewrite u64_small by lia. lia.
Qed.

Lemma init_config_ok c :
  let c' := init_config c in
  0 < FailureThreshold c' /\ 0 < SuccessThreshold c' /\ 0 < OpenTimeout c' <= MaxOpenTimeout c' /\
  0 < ProbeTimeout c' /\ 1 <= HalfOpenMaxProbes c' <= cbMaxProbes.
Proof.
  unfold init_config; cbn. rewrite cbMaxProbes_eq.
  unfold defaultFailureThreshold, defaultSuccessThreshold, defaultCBOpenTimeout,
    defaultCBMaxOpenTimeout, defaultProbeTimeout, defaultHalfOpenMaxProbes, Minute, Second, Millisecond.
  bool_case; lia.
Qed.

End CircuitBreakerFacts.
