(* ===== verification/CircuitBreakerConc.v ===== *)
(** * The circuit breaker under concurrency

    Any number of goroutines run [cbAdmit], the round trip and [record] (or the
    deferred [releaseProbe] of a panicking transport) on one breaker, interleaved
    at their atomic actions while the clock advances.  The probe cap, the balance
    between the packed probe count and the probes in flight, and the absence of
    leaked slots are proved against the rely-guarantee rules of [Concurrency]. *)

From S2P Require Import Prelude Http Concurrency UpstreamState RoundRobin CircuitBreaker.

Local Open Scope go_scope.

Module CircuitBreakerConc.
Import CircuitBreaker CircuitBreakerFacts.

(** One request on this breaker: what [pick] and [RoundTrip] do to it. *)
Definition attempt (fuel : nat) (c : config) (me : nat) (o : outcome)
    : prog shared (option outcome) :=
  now <- Now ;;
  r <- cbAdmit fuel c me now ;;
  let '(gen, adm, ok) := r in
  if (ok : bool) then o' <- finish fuel c me gen adm o ;; Ret (Some o') else Ret None.

(** The clock may advance between any two actions. *)
Definition tick (s s' : shared) : Prop := exists now, clock s <= now /\ s' = set_clock now s.

(** Probe slots claimed in the current epoch and not given back. *)
Definition in_flight (s : shared) : Z := count_eq (epoch s) (holds s).

Section Conc.
Context (c : config).
Context (Hcap : 1 <= HalfOpenMaxProbes c <= cbMaxProbes).

Definition good (s : shared) : Prop :=
  exists p st,
    word (cells s) = wordZ (epoch s) p st /\ 0 <= st <= 2 /\
    0 <= p <= HalfOpenMaxProbes c /\ p = in_flight s /\ (st <> cbHalfOpen -> p = 0) /\
    (forall j g, holds s !! j = Some g -> g <= epoch s).

(** The generation field has 32 bits: the guarantees are for the first 2^32
    transitions of a breaker. *)
Definition Inv (s : shared) : Prop := 0 <= epoch s /\ (epoch s < 2 ^ 32 -> good s).

Definition G (j : nat) (s s' : shared) : Prop :=
  epoch s <= epoch s' /\ forall i, i <> j -> holds s' !! i = holds s !! i.
Definition R (j : nat) (s s' : shared) : Prop :=
  epoch s <= epoch s' /\ holds s' !! j = holds s !! j.

Lemma tick_rg : RelyGuarantee tick R G Inv.
Proof.
  split; unfold R, G, tick.
  - done.
  - intros j s1 s2 s3 [? E1] [? E2]. split; [lia|congruence].
  - intros i j s s' Hne [? H]. split; [done|]. apply H. congruence.
  - intros j s s' (now & _ & ->). done.
  - intros s s' (now & _ & ->) [? HI]. split; done.
Qed.

#[local] Existing Instance tick_rg.

(** ** What a goroutine owns *)

Definition own (j : nat) (gen : Z) (s : shared) : Prop :=
  epoch s < 2 ^ 32 -> holds s !! j = Some gen.
Definition idle (j : nat) (s : shared) : Prop :=
  epoch s < 2 ^ 32 -> forall g, holds s !! j = Some g -> g < epoch s.

Lemma own_stable j gen s s' : own j gen s -> R j s s' -> own j gen s'.
Proof. intros H [HE E] Hs. rewrite E. apply H. lia. Qed.

Lemma idle_stable j s s' : idle j s -> R j s s' -> idle j s'.
Proof. intros H [HE E] Hs g Hg. rewrite E in Hg. apply H in Hg; lia. Qed.

(** An epoch later the slot is no longer of the current generation. *)
Lemma idle_next j s s' : Inv s -> epoch s < epoch s' -> holds s' !! j = holds s !! j -> idle j s'.
Proof.
  intros [_ HI] He E Hs g Hg. destruct (HI ltac:(lia)) as (p & st & _ & _ & _ & _ & _ & Hle).
  rewrite E in Hg. apply Hle in Hg. lia.
Qed.

Lemma good_unpack s g p st :
  Inv s -> epoch s < 2 ^ 32 -> cbUnpack (word (cells s)) = (g, p, st) ->
  g = epoch s /\ p = in_flight s /\ word (cells s) = wordZ g p st /\ field_ok g p st /\
  p <= HalfOpenMaxProbes c /\ (st <> cbHalfOpen -> p = 0).
Proof.
  intros [H0 HI] He Hu. destruct (HI He) as (p' & st' & Hw & Hst & Hp & Hc & Hz & _).
  assert (field_ok (epoch s) p' st') as Hf by (split; [lia|]; split; lia).
  rewrite Hw, cbUnpack_wordZ in Hu by done. simplify_eq. repeat (split; [done|]). split; [lia|done].
Qed.

(** ** Actions that leave the word and the auxiliary variables alone *)

Definition silent (u : shared -> shared) : Prop :=
  forall s, word (cells (u s)) = word (cells s) /\ epoch (u s) = epoch s /\ holds (u s) = holds s.

Lemma silent_inv u s : silent u -> Inv s -> Inv (u s).
Proof.
  intros Hu [H0 HI]. destruct (Hu s) as (Ew & Ee & Eh). unfold Inv, good, in_flight in *.
  rewrite Ew, Ee, Eh. auto.
Qed.

Lemma silent_R j u s : silent u -> R j s (u s).
Proof. intros Hu. destruct (Hu s) as (_ & Ee & Eh). unfold R. rewrite Ee, Eh. auto with lia. Qed.

(** Programs made of silent actions only. *)
Fixpoint quiet {A} (p : prog shared A) : Prop :=
  match p with
  | Ret _ | Spin => True
  | Atomic u k => silent u /\ forall s, quiet (k s)
  end.

Lemma quiet_bind {A B} (p : prog shared A) (f : A -> prog shared B) :
  quiet p -> (forall a, quiet (f a)) -> quiet (bind p f).
Proof.
  intros Hp Hf. induction p as [a|u k IH|]; cbn in *; [done| |done].
  destruct Hp as [Hu Hk]. split; auto.
Qed.

Lemma quiet_Load f : quiet (Load f).
Proof. done. Qed.
Lemma quiet_Now : quiet Now.
Proof. done. Qed.
Lemma quiet_emit x y r : quiet (emit x y r).
Proof. done. Qed.
Lemma quiet_openedUntil v : quiet (Store set_openedUntil v).
Proof. done. Qed.
Lemma quiet_halfOpenSince v : quiet (Store set_halfOpenSince v).
Proof. done. Qed.
Lemma quiet_generations v : quiet (Store set_generations v).
Proof. done. Qed.
Lemma quiet_failures v : quiet (Store set_failures v).
Proof. done. Qed.
Lemma quiet_successes v : quiet (Store set_successes v).
Proof. done. Qed.
Lemma quiet_AddOne_successes : quiet (AddOne successes set_successes).
Proof. done. Qed.
Lemma quiet_AddOne_failures : quiet (AddOne failures set_failures).
Proof. done. Qed.
Lemma quiet_ret {A} (a : A) : quiet (Ret a).
Proof. done. Qed.

Hint Resolve quiet_Load quiet_Now quiet_emit quiet_openedUntil quiet_halfOpenSince
  quiet_generations quiet_failures quiet_successes quiet_AddOne_successes
  quiet_AddOne_failures quiet_ret quiet_bind : parapet.

Definition stable (j : nat) (P : shared -> Prop) : Prop :=
  forall s1 s2, P s1 -> R j s1 s2 -> P s2.

(** A quiet prefix keeps any stable assertion. *)
Lemma rg_quiet {A B} j (p : prog shared A) (f : A -> prog shared B) Q (P : shared -> Prop) s :
  quiet p -> stable j P -> P s ->
  (forall a s', P s' -> rg R G Inv j (f a) Q s') ->
  rg R G Inv j (bind p f) Q s.
Proof.
  intros Hq HP Hs Hf. revert s Hs. induction p as [a|u k IH|]; intros s Hs; cbn in *; [auto| |done].
  destruct Hq as [Hu Hk]. intros s' HR HI.
  assert (R j s' (u s')) as HRu by (by apply silent_R).
  split; [split; [|by apply silent_inv]|].
  - destruct (Hu s') as (_ & Ee & Eh). unfold G. rewrite Ee, Eh. split; [lia|done].
  - apply IH; [done|]. eapply HP; [|done]. by eapply HP.
Qed.

Lemma rg_quiet_last {A} j (p : prog shared A) Q (P : shared -> Prop) s :
  quiet p -> stable j P -> P s -> (forall a s', P s' -> Q a s') -> rg R G Inv j p Q s.
Proof.
  intros Hq HP Hs HQ. revert s Hs. induction p as [a|u k IH|]; intros s Hs; cbn in *; [eauto| |done].
  destruct Hq as [Hu Hk]. intros s' HR HI.
  assert (R j s' (u s')) as HRu by (by apply silent_R).
  split; [split; [|by apply silent_inv]|eauto].
  destruct (Hu s') as (_ & Ee & Eh). unfold G. rewrite Ee, Eh. split; [lia|done].
Qed.

(** Reading the word: the continuation knows the state it was read in. *)
Lemma rg_load_word {A} j (f : Z -> prog shared A) Q (P : shared -> Prop) s :
  stable j P -> P s ->
  (forall s', P s' -> Inv s' -> rg R G Inv j (f (word (cells s'))) Q s') ->
  rg R G Inv j (bind (Load word) f) Q s.
Proof.
  intros HP Hs Hf s' HR HI. split; [split; [|done]|].
  - unfold G, id. split; [lia|done].
  - apply Hf; [by eapply HP|done].
Qed.

(** A compare-and-swap of the word: it commits in a state whose word is [v], or
    changes nothing. *)
Lemma rg_cas {A} j v new aux (f : bool -> prog shared A) Q (P : shared -> Prop) s :
  stable j P -> P s ->
  (forall s', P s' -> Inv s' -> word (cells s') = v ->
     let s'' := aux (upd_cells (set_word new) s') in
     (G j s' s'' /\ Inv s'') /\ rg R G Inv j (f true) Q s'') ->
  (forall s', P s' -> Inv s' -> rg R G Inv j (f false) Q s') ->
  rg R G Inv j (bind (cas_word v new aux) f) Q s.
Proof.
  intros HP Hs Ht Hf s' HR HI. cbn. assert (P s') by (by eapply HP).
  destruct (word (cells s') =? v) eqn:E; bool_prop; [by apply Ht|].
  split; [split; [|done]|by apply Hf]. unfold G. split; [lia|done].
Qed.

(** A successful transition starts an epoch in which nothing is held. *)
Lemma transition_ok j s g p st next :
  Inv s -> cbUnpack (word (cells s)) = (g, p, st) -> 0 <= next <= 2 ->
  let s'' := next_epoch (upd_cells (set_word (cbPack (u32 (g + 1)) 0 next)) s) in
  (G j s s'' /\ Inv s'') /\ idle j s''.
Proof.
  intros HI Hu Hn s''. split; [split|].
  - unfold G, s''. cbn. split; [lia|done].
  - split; [destruct HI; cbn; lia|]. cbn. intros He.
    destruct (good_unpack s g p st HI ltac:(lia) Hu) as (-> & _ & _ & Hf & _).
    destruct HI as [H0 HI]. destruct (HI ltac:(lia)) as (p0 & st0 & _ & _ & _ & _ & _ & Hle).
    exists 0, next. unfold s'', in_flight. cbn. rewrite u32_small by lia.
    rewrite cbPack_wordZ by (split; [lia|]; rewrite cbMaxProbes_eq; lia).
    split; [done|]. split; [lia|]. split; [lia|]. split.
    { symmetry. apply count_eq_zero. intros i g Hg. specialize (Hle _ _ Hg). lia. }
    split; [done|]. intros i g Hg. specialize (Hle _ _ Hg). lia.
  - eapply (idle_next j s); [done|cbn; lia|done].
Qed.

(** The owner of a slot of generation [gen] sees the word leave (gen, half-open)
    only when the epoch moved on. *)
Lemma own_moved j s gen g p st :
  Inv s -> own j gen s -> cbUnpack (word (cells s)) = (g, p, st) ->
  g <> gen \/ st <> cbHalfOpen \/ p = 0 -> idle j s.
Proof.
  intros HI Ho Hu Hx He g' Hg'. specialize (Ho He). simplify_eq.
  destruct (good_unpack s g p st HI He Hu) as (-> & -> & _ & _ & _ & Hz).
  destruct HI as [_ HI]. destruct (HI He) as (_ & _ & _ & _ & _ & _ & _ & Hle).
  pose proof (Hle _ _ Ho). destruct (decide (gen = epoch s)) as [->|]; [|lia].
  pose proof (count_eq_pos _ _ _ Ho) as Hc. change (count_eq (epoch s) (holds s)) with (in_flight s) in Hc.
  destruct Hx as [?|[Hx|?]]; [done| |lia]. specialize (Hz Hx). lia.
Qed.

(** ** The methods *)

Lemma own_or_idle_stable j gen (from : Z) :
  stable j (fun s => (from = cbHalfOpen /\ own j gen s) \/ idle j s).
Proof. intros s1 s2 [[? H]|H] HR; eauto using own_stable, idle_stable. Qed.

Lemma stable_idle j : stable j (idle j).
Proof. intros s1 s2. apply idle_stable. Qed.

Lemma stable_own j gen : stable j (own j gen).
Proof. intros s1 s2. apply own_stable. Qed.

Hint Resolve own_or_idle_stable stable_idle stable_own : parapet.

Lemma rg_return {A} j (a : A) (Q : A -> shared -> Prop) (P : shared -> Prop) s :
  stable j P -> P s -> (forall s', P s' -> Q a s') -> rg R G Inv j (Ret a) Q s.
Proof. intros HP Hs HQ s' HR HI. apply HQ. by eapply HP. Qed.

(** The goroutine that loses or wins a transition holds no slot of the current
    generation afterwards. *)
Lemma rg_transition j fuel gen from next reason s :
  0 <= next <= 2 -> (from = cbHalfOpen /\ own j gen s) \/ idle j s ->
  rg R G Inv j (transition fuel c gen from next reason) (fun _ s' => idle j s') s.
Proof.
  intros Hn Hpre. unfold transition.
  eapply rg_quiet; [|apply (own_or_idle_stable j gen from)|exact Hpre|].
  { destruct (next =? cbOpen); auto 10 with parapet. }
  intros [e until] s1 Hs1.
  eapply (rg_loop tick R G Inv); [apply (own_or_idle_stable j gen from)| |intros _; apply stable_idle|exact Hs1].
  clear s Hpre s1 Hs1. intros s Hpre.
  eapply rg_load_word; [apply (own_or_idle_stable j gen from)|exact Hpre|].
  intros s1 Hs1 HI1. destruct (cbUnpack (word (cells s1))) as [[g p] st] eqn:Hu.
  destruct (negb (g =? gen) || negb (st =? from)) eqn:Hgd.
  - eapply (rg_return _ _ _ (idle j)); [auto with parapet| |done].
    destruct Hs1 as [[-> Ho]|]; [|done]. eapply own_moved; [done..|].
    apply orb_true_iff in Hgd. destruct Hgd; bool_prop; auto.
  - bool_prop. subst g st.
    eapply rg_quiet; [|apply (own_or_idle_stable j gen from)|exact Hs1|].
    { destruct (next =? cbOpen); auto with parapet. }
    intros _ s2 Hs2. eapply rg_cas; [apply (own_or_idle_stable j gen from)|exact Hs2| |].
    + intros s3 Hs3 HI3 Hw. rewrite <- Hw in Hu.
      destruct (transition_ok j s3 gen p from next HI3 Hu Hn) as [HG Hi].
      split; [done|].
      do 2 (eapply (rg_quiet _ _ _ _ (idle j)); [auto with parapet..|]; intros _ ? ?).
      eapply (rg_quiet _ _ _ _ (idle j)); [|auto with parapet..|].
      { destruct (next =? cbOpen); [auto with parapet|]. destruct (next =? cbClosed); auto with parapet. }
      intros _ ? ?. eapply (rg_quiet _ _ _ _ (idle j)); [auto with parapet..|]. intros _ ? ?.
      eapply (rg_return _ _ _ (idle j)); auto with parapet.
    + intros s3 Hs3 HI3. eapply (rg_return _ _ _ _ s3 (own_or_idle_stable j gen from)); done.
Qed.

Lemma release_ok j s gen p :
  Inv s -> own j gen s -> cbUnpack (word (cells s)) = (gen, p, cbHalfOpen) -> p <> 0 ->
  let s'' := unhold j (upd_cells (set_word (u64 (word (cells s) - cbProbeOne))) s) in
  (G j s s'' /\ Inv s'') /\ idle j s''.
Proof.
  intros HI Ho Hu Hp s''. split; [split|].
  - unfold G, s''. cbn. split; [lia|]. intros i Hi. by rewrite lookup_delete_ne.
  - split; [destruct HI; done|]. cbn. intros He.
    destruct (good_unpack s gen p cbHalfOpen HI He Hu) as (-> & -> & Hw & Hf & Hc & _).
    destruct HI as [H0 HI]. destruct (HI He) as (p0 & st0 & _ & _ & _ & _ & _ & Hle).
    specialize (Ho He). pose proof (count_eq_nonneg (epoch s) (holds s)) as Hn.
    change (count_eq (epoch s) (holds s)) with (in_flight s) in Hn.
    exists (in_flight s - 1), cbHalfOpen. unfold s''. cbn.
    rewrite Hw, wordZ_probe_down by (done || lia).
    split; [done|]. split; [done|]. split; [lia|]. split.
    { unfold in_flight at 2. cbn. by rewrite count_eq_delete. }
    split; [done|]. intros i g Hg. apply lookup_delete_Some in Hg as [_ Hg]. eauto.
  - intros _ g Hg. unfold s'' in Hg. cbn in Hg. by rewrite lookup_delete_eq in Hg.
Qed.

Lemma rg_releaseProbe j fuel gen s :
  own j gen s -> rg R G Inv j (releaseProbe fuel j gen) (fun _ s' => idle j s') s.
Proof.
  intros Hpre. unfold releaseProbe.
  eapply (rg_loop tick R G Inv); [apply (stable_own j gen)| |intros _; apply stable_idle|exact Hpre].
  clear s Hpre. intros s Hpre.
  eapply rg_load_word; [apply (stable_own j gen)|exact Hpre|].
  intros s1 Hs1 HI1. destruct (cbUnpack (word (cells s1))) as [[g p] st] eqn:Hu.
  destruct (negb (g =? gen) || negb (st =? cbHalfOpen) || (p =? 0)) eqn:Hgd.
  - eapply (rg_return _ _ _ (idle j)); [auto with parapet| |done].
    eapply own_moved; [done..|]. rewrite !orb_true_iff in Hgd.
    destruct Hgd as [[Hgd|Hgd]|Hgd]; bool_prop; auto.
  - bool_prop. subst g st. eapply rg_cas; [apply (stable_own j gen)|exact Hs1| |].
    + intros s3 Hs3 HI3 Hw. rewrite <- Hw in Hu |- *.
      destruct (release_ok j s3 gen p HI3 Hs3 Hu) as [HG Hi]; [done|]. split; [done|].
      eapply (rg_return _ _ _ (idle j)); auto with parapet.
    + intros s3 Hs3 HI3. eapply (rg_return _ _ _ _ s3 (stable_own j gen)); done.
Qed.

Lemma unpack_state s g p st :
  Inv s -> epoch s < 2 ^ 32 -> cbUnpack (word (cells s)) = (g, p, st) -> 0 <= st <= 2.
Proof.
  intros HI He Hu. destruct HI as [H0 HI]. destruct (HI He) as (p' & st' & Hw & Hst & Hp & _).
  rewrite Hw, cbUnpack_wordZ in Hu by (split; [lia|]; split; lia). by simplify_eq.
Qed.

Lemma claim_ok j s gen p st :
  Inv s -> idle j s -> cbUnpack (word (cells s)) = (gen, p, st) ->
  st <> cbClosed -> st <> cbOpen -> p < HalfOpenMaxProbes c ->
  let s'' := hold j (upd_cells (set_word (u64 (word (cells s) + cbProbeOne))) s) in
  (G j s s'' /\ Inv s'') /\ own j gen s''.
Proof.
  intros HI Hi Hu Hc Ho Hp s''. split; [split|].
  - unfold G, s''. cbn. split; [lia|]. intros i Hne. by rewrite lookup_insert_ne.
  - split; [destruct HI; done|]. cbn. intros He.
    pose proof (unpack_state _ _ _ _ HI He Hu).
    assert (st = cbHalfOpen) as -> by (unfold cbClosed, cbOpen, cbHalfOpen in *; lia).
    destruct (good_unpack s gen p cbHalfOpen HI He Hu) as (-> & -> & Hw & (Hf1 & Hf2 & Hf3) & _ & _).
    destruct HI as [H0 HI]. destruct (HI He) as (p0 & st0 & _ & _ & _ & _ & _ & Hle).
    exists (in_flight s + 1), cbHalfOpen. unfold s''. cbn.
    rewrite Hw, wordZ_probe_up by (lia || (split; [lia|]; split; lia)).
    split; [done|]. split; [done|]. split; [lia|]. split.
    { unfold in_flight at 2. cbn. rewrite count_eq_insert; [done|].
      intros Hj. apply Hi in Hj; lia. }
    split; [done|]. intros i g [[_ <-]|[_ Hg]]%lookup_insert_Some; [lia|eauto].
  - intros He. unfold s'' in *. cbn in *. rewrite lookup_insert_eq.
    destruct (good_unpack s gen p st HI He Hu) as (-> & _). done.
Qed.

Definition admitted (j : nat) (r : Z * cbAdmission * bool) (s : shared) : Prop :=
  match r with
  | (gen, cbAdmitProbe, true) => own j gen s
  | _ => idle j s
  end.

Lemma stable_admitted j r : stable j (admitted j r).
Proof. destruct r as [[gen []] []]; first [apply stable_idle | apply stable_own]. Qed.

Lemma rg_admit j fuel now s :
  idle j s -> rg R G Inv j (cbAdmit fuel c j now) (admitted j) s.
Proof.
  intros Hpre. unfold cbAdmit, admit_body.
  eapply (rg_loop tick R G Inv); [apply (stable_idle j)| |intros r; apply stable_admitted|exact Hpre].
  clear s Hpre. intros s Hpre.
  eapply rg_load_word; [apply (stable_idle j)|exact Hpre|].
  intros s1 Hs1 HI1. destruct (cbUnpack (word (cells s1))) as [[g p] st] eqn:Hu.
  destruct (st =? cbClosed) eqn:Hcl; [eapply (rg_return _ _ _ (idle j)); auto with parapet|].
  destruct (st =? cbOpen) eqn:Hop; bool_prop.
  - eapply (rg_quiet _ _ _ _ (idle j)); [auto with parapet..|]. intros u s2 Hs2.
    destruct (now <? u); [eapply (rg_return _ _ _ (idle j)); auto with parapet|].
    eapply (rg_quiet _ _ _ _ (idle j)); [auto with parapet..|]. intros _ s3 Hs3.
    eapply rg_cas; [apply (stable_idle j)|exact Hs3| |].
    + intros s4 Hs4 HI4 Hw. rewrite <- Hw in Hu.
      destruct (transition_ok j s4 g p st cbHalfOpen HI4 Hu) as [HG Hi]; [done|]. split; [done|].
      eapply (rg_quiet _ _ _ _ (idle j)); [auto with parapet..|]. intros _ s5 Hs5.
      eapply (rg_return _ _ _ (idle j)); auto with parapet.
    + intros s4 Hs4 _. eapply (rg_return _ _ _ (idle j)); auto with parapet.
  - destruct (u32 (HalfOpenMaxProbes c) <=? p) eqn:Hfull; bool_prop.
    + eapply (rg_quiet _ _ _ _ (idle j)); [auto with parapet..|]. intros h s2 Hs2.
      destruct (ProbeTimeout c <? i64 (now - h)); [|eapply (rg_return _ _ _ (idle j)); auto with parapet].
      eapply (rg_bind tick R G Inv). eapply (rg_mono R G Inv); [|apply rg_transition; [done|by right]].
      intros ? s3 _ Hs3. eapply (rg_return _ _ _ (idle j)); auto with parapet.
    + rewrite u32_small in Hfull by (rewrite cbMaxProbes_eq in Hcap; lia).
      eapply rg_cas; [apply (stable_idle j)|exact Hs1| |].
      * intros s4 Hs4 HI4 Hw. rewrite <- Hw in Hu |- *.
        destruct (claim_ok j s4 g p st HI4 Hs4 Hu) as [HG Ho]; [done..|]. split; [done|].
        eapply (rg_return _ _ _ (own j g)); auto with parapet.
      * intros s4 Hs4 _. eapply (rg_return _ _ _ (idle j)); auto with parapet.
Qed.

Lemma rg_record j fuel gen adm resp err s :
  admitted j (gen, adm, true) s ->
  rg R G Inv j (record fuel c j gen adm resp err) (fun _ s' => idle j s') s.
Proof.
  intros Hpre. unfold record. destruct adm; cbn in Hpre.
  - destruct (failed _ _ _).
    + eapply (rg_quiet _ _ _ _ (idle j)); [auto with parapet..|]. intros n s1 Hs1.
      destruct (FailureThreshold c <=? n); [|eapply (rg_return _ _ _ (idle j)); auto with parapet].
      eapply (rg_quiet _ _ _ _ (idle j)); [auto with parapet..|]. intros v s2 Hs2.
      destruct (cbUnpack v) as [[g p] st].
      destruct (st =? cbClosed); [|eapply (rg_return _ _ _ (idle j)); auto with parapet].
      eapply (rg_bind tick R G Inv). eapply (rg_mono R G Inv); [|apply rg_transition; [done|by right]].
      intros ? s3 _ Hs3. eapply (rg_return _ _ _ (idle j)); auto with parapet.
    + eapply (rg_quiet _ _ _ _ (idle j)); [auto with parapet..|]. intros n s1 Hs1.
      destruct (n =? 0); [eapply (rg_return _ _ _ (idle j)); auto with parapet|].
      eapply (rg_quiet_last j _ _ (idle j)); auto with parapet.
  - destruct (failed _ _ _).
    + eapply (rg_bind tick R G Inv). eapply (rg_mono R G Inv); [|apply rg_transition; [done|by left]].
      intros ? s3 _ Hs3. eapply (rg_return _ _ _ (idle j)); auto with parapet.
    + eapply (rg_quiet _ _ _ _ (own j gen)); [auto with parapet..|]. intros n s1 Hs1.
      destruct (SuccessThreshold c <=? n); [|by apply rg_releaseProbe].
      eapply (rg_bind tick R G Inv). eapply (rg_mono R G Inv); [|apply rg_transition; [done|by left]].
      intros ? s3 _ Hs3. eapply (rg_return _ _ _ (idle j)); auto with parapet.
Qed.

Lemma rg_finish j fuel gen adm o s :
  admitted j (gen, adm, true) s ->
  rg R G Inv j (finish fuel c j gen adm o) (fun _ s' => idle j s') s.
Proof.
  intros Hpre. destruct o as [resp err|]; cbn [finish]; eapply (rg_bind tick R G Inv).
  - eapply (rg_mono R G Inv); [|by apply rg_record].
    intros ? s1 _ Hs1. eapply (rg_return _ _ _ (idle j)); auto with parapet.
  - destruct adm; cbn in Hpre.
    + eapply (rg_return _ _ _ (idle j)); [auto with parapet..|].
      intros s1 Hs1. eapply (rg_return _ _ _ (idle j)); auto with parapet.
    + eapply (rg_mono R G Inv); [|by apply rg_releaseProbe].
      intros ? s1 _ Hs1. eapply (rg_return _ _ _ (idle j)); auto with parapet.
Qed.

Lemma rg_attempt j fuel o s :
  idle j s -> rg R G Inv j (attempt fuel c j o) (fun _ s' => idle j s') s.
Proof.
  intros Hpre. unfold attempt.
  eapply (rg_quiet _ _ _ _ (idle j)); [auto with parapet..|]. intros now s1 Hs1.
  eapply (rg_bind tick R G Inv). eapply (rg_mono R G Inv); [|by apply rg_admit].
  intros [[gen adm] []] s2 _ Hs2.
  - eapply (rg_bind tick R G Inv). eapply (rg_mono R G Inv); [|by apply rg_finish].
    intros o' s3 _ Hs3. eapply (rg_return _ _ _ (idle j)); auto with parapet.
  - assert (idle j s2) by (destruct adm; done).
    eapply (rg_return _ _ _ (idle j)); auto with parapet.
Qed.

(** ** The pool *)

(** One goroutine per request, each with its own transport outcome. *)
Definition spawn (reqs : list (nat * outcome)) : list (prog shared (option outcome)) :=
  imap (fun j r => attempt r.1 c j r.2) reqs.

Lemma idle_zero j now : idle j (breaker_zero now).
Proof. intros _ g Hg. cbn in Hg. by rewrite lookup_empty in Hg. Qed.

Lemma Inv_zero now : Inv (breaker_zero now).
Proof.
  split; [done|]. intros _. exists 0, cbClosed. unfold in_flight. cbn.
  split; [done|]. split; [done|]. split; [lia|].
  split; [symmetry; apply count_eq_zero; intros j g Hg; by rewrite lookup_empty in Hg|].
  split; [done|]. intros j g Hg. by rewrite lookup_empty in Hg.
Qed.

Lemma spawn_ok now reqs :
  pool_ok R G Inv (fun j _ s' => idle j s') (breaker_zero now, spawn reqs).
Proof.
  split; [apply Inv_zero|]. cbn. intros j p Hp. unfold spawn in Hp. rewrite list_lookup_imap in Hp.
  destruct (reqs !! j) as [[fuel o]|]; [|done]. cbn in Hp. simplify_eq.
  apply rg_attempt, idle_zero.
Qed.

(** In a reachable state the invariant holds and a finished goroutine, like an
    index no goroutine has, holds no slot of the current generation. *)
Lemma spawn_sound now reqs s ps :
  rtc (pstep tick) (breaker_zero now, spawn reqs) (s, ps) ->
  Inv s /\ (forall j a, ps !! j = Some (Ret a) -> idle j s) /\
  (forall j, ps !! j = None -> idle j s).
Proof.
  intros Hr. destruct (spawn_ok now reqs) as [HI0 Hps0].
  destruct (pool_sound tick R G Inv _ _ _ _ _ HI0 Hps0 Hr) as [HI Hps].
  split; [done|]. split; [done|]. intros j Hj.
  destruct (pool_rely tick R G Inv _ _ _ j Hr (spawn_ok now reqs)) as [HR _].
  - cbn. apply lookup_ge_None. apply lookup_ge_None in Hj.
    pose proof (rtc_pool_length _ _ _ Hr) as Hl. cbn in Hl. lia.
  - eapply idle_stable; [apply (idle_zero j now)|exact HR].
Qed.

End Conc.

(** What the packed word says in a reachable state. *)
Definition word_ok (c : config) (s : shared) : Prop :=
  let '(gen, probes, state) := cbUnpack (word (cells s)) in
  gen = epoch s /\ probes = in_flight s /\ 0 <= probes <= HalfOpenMaxProbes c /\
  (state = cbClosed \/ state = cbOpen \/ state = cbHalfOpen) /\
  (state <> cbHalfOpen -> probes = 0).

(** C2: Under every interleaving of any number of requests on one breaker, the packed
    word's probe count equals the probes in flight in the current generation and never
    exceeds HalfOpenMaxProbes, for the first 2^32 transitions. *)
Theorem cb_probe_cap c now reqs s ps :
  let c' := init_config c in
  rtc (pstep tick) (breaker_zero now, spawn c' reqs) (s, ps) ->
  epoch s < 2 ^ 32 ->
  word_ok c' s.
Proof.
  intros c' Hr He. destruct (init_config_ok c) as (_ & _ & _ & _ & Hcap).
  destruct (spawn_sound c' Hcap now reqs s ps Hr) as [HI _].
  unfold word_ok. destruct (cbUnpack (word (cells s))) as [[g p] st] eqn:Hu.
  destruct (good_unpack c' Hcap s g p st HI He Hu) as (? & ? & _ & (_ & ? & _) & ? & ?).
  pose proof (unpack_state c' Hcap s g p st HI He Hu).
  repeat split; [done|done|lia|lia| |done].
  unfold cbClosed, cbOpen, cbHalfOpen. lia.
Qed.

(** C3: When every goroutine has finished, including those whose transport panicked,
    no half-open probe slot is held: the packed probe count is zero. *)
Theorem cb_no_slot_leak c now reqs s ps :
  let c' := init_config c in
  rtc (pstep tick) (breaker_zero now, spawn c' reqs) (s, ps) ->
  epoch s < 2 ^ 32 ->
  (forall p, p ∈ ps -> exists r, p = Ret r) ->
  in_flight s = 0 /\ (cbUnpack (word (cells s))).1.2 = 0.
Proof.
  intros c' Hr He Hdone. destruct (init_config_ok c) as (_ & _ & _ & _ & Hcap).
  pose proof (spawn_sound c' Hcap now reqs s ps Hr) as (HI & Hps & Hnone).
  assert (in_flight s = 0) as H0.
  { apply count_eq_zero. intros j g Hg Eg. subst g.
    enough (epoch s < epoch s) by lia.
    destruct (ps !! j) as [p|] eqn:Hj.
    - destruct (Hdone p) as [a ->]; [by eapply list_elem_of_lookup_2|].
      exact (Hps j a Hj He _ Hg).
    - exact (Hnone j Hj He _ Hg). }
  split; [done|]. destruct (cbUnpack (word (cells s))) as [[g p] st] eqn:Hu.
  destruct (good_unpack c' Hcap s g p st HI He Hu) as (? & ? & _). cbn. lia.
Qed.

(** A run in which request 0 fails and trips the breaker, the cooldown passes, and
    requests 1 and 2 race for the only probe slot: 2 holds it in [demo_race], where 1
    has been refused; its transport then panics, and [demo_done] is the end. *)
Definition demo_config : config := mkConfig 1 0 10 100 1000 1 None.
Definition demo_reqs : list (nat * outcome) :=
  [(5%nat, Returned None (Some (ErrOther "refused")));
   (5%nat, Returned (Some (mkResponse 200 ∅ None)) None);
   (5%nat, Panicked)].
Definition demo_trip := exec (replicate 20 0%nat) (breaker_zero 0, spawn (init_config demo_config) demo_reqs).
Definition demo_tick := (set_clock 20 demo_trip.1, demo_trip.2).
Definition demo_race := exec ([1; 2; 1; 2; 1; 2; 1; 2; 1; 2; 2; 2; 1; 2; 1; 1]%nat) demo_tick.
Definition demo_done := exec (replicate 20 1 ++ replicate 20 2)%nat demo_race.

Lemma demo_reaches_race :
  rtc (pstep tick) (breaker_zero 0, spawn (init_config demo_config) demo_reqs) demo_race.
Proof.
  etrans; [apply (exec_rtc tick (replicate 20 0%nat))|].
  fold demo_trip. eapply rtc_l; [|apply (exec_rtc tick)].
  rewrite (surjective_pairing demo_trip) at 1. apply pstep_env. exists 20. split; [by vm_compute|done].
Qed.

Lemma demo_reaches_done :
  rtc (pstep tick) (breaker_zero 0, spawn (init_config demo_config) demo_reqs) demo_done.
Proof. etrans; [apply demo_reaches_race|apply (exec_rtc tick)]. Qed.

Lemma cb_probe_cap_witness :
  word_ok (init_config demo_config) demo_race.1 /\ in_flight demo_race.1 = 1 /\
  HalfOpenMaxProbes (init_config demo_config) = 1.
Proof.
  split; [|split; by vm_compute].
  apply (cb_probe_cap demo_config 0 demo_reqs demo_race.1 demo_race.2); [|by vm_compute].
  rewrite <- surjective_pairing. apply demo_reaches_race.
Defined.

Lemma cb_no_slot_leak_witness :
  in_flight demo_done.1 = 0 /\ (cbUnpack (word (cells demo_done.1))).1.2 = 0.
Proof.
  apply (cb_no_slot_leak demo_config 0 demo_reqs demo_done.1 demo_done.2).
  - rewrite <- surjective_pairing. apply demo_reaches_done.
  - by vm_compute.
  - intros p Hp. vm_compute in Hp.
    repeat (apply elem_of_cons in Hp as [->|Hp]; [by eexists|]). by apply elem_of_nil in Hp.
Defined.

End CircuitBreakerConc.
