(* ===== verification/CircuitBreakerSpec.v ===== *)
(** * The circuit breaker's contract

    The three-state machine the type's documentation describes, and the theorem
    that a breaker serving requests one after the other implements it.  The bug
    exhibits at the end are runs of the code itself. *)

From S2P Require Import Prelude Http Concurrency UpstreamState RoundRobin CircuitBreaker.

Local Open Scope go_scope.

Module CircuitBreakerSpec.
Import CircuitBreaker CircuitBreakerFacts.

(** ** The abstract machine *)

Inductive phase :=
  | Closed (fails : Z)
  | Open (until trips : Z)
  | HalfOpen (succ trips : Z).

(** What happens to a request: refused without a round trip, or sent. *)
Inductive verdict := Refused | Sent (o : outcome).

Definition trip (c : config) (now trips : Z) : phase :=
  let e := i32 (trips + 1) in Open (i64 (now + openTimeout c e)) e.

(** The outcome of a request sent from each phase, known at time [now]. *)
Definition settle (c : config) (now : Z) (o : outcome) (a : phase) : phase :=
  match o with
  | Panicked => a
  | Returned resp err =>
      let bad := failed (IsFailure c) resp err in
      match a with
      | Closed f =>
          if bad then if FailureThreshold c <=? f + 1 then trip c now 0 else Closed (f + 1)
          else Closed 0
      | HalfOpen n k =>
          if bad then trip c now k
          else if SuccessThreshold c <=? n + 1 then Closed 0 else HalfOpen (n + 1) k
      | Open u k => Open u k
      end
  end.

(** A request that arrives at [now] and whose answer [o] arrives at [now']. *)
Definition spec_request (c : config) (now now' : Z) (o : outcome) (a : phase) : phase * verdict :=
  match a with
  | Open u k =>
      if now <? u then (a, Refused) else (settle c now' o (HalfOpen 0 k), Sent o)
  | _ => (settle c now' o a, Sent o)
  end.

(** ** The code, one request *)

Definition request (fuel : nat) (c : config) (me : nat) (now now' : Z) (o : outcome) (s : shared)
    : shared * option verdict :=
  match run (cbAdmit fuel c me now) (set_clock now s) with
  | (s1, Some (gen, adm, true)) =>
      match run (finish fuel c me gen adm o) (set_clock now' s1) with
      | (s2, Some o') => (s2, Some (Sent o'))
      | (s2, None) => (s2, None)
      end
  | (s1, Some (_, _, false)) => (s1, Some Refused)
  | (s1, None) => (s1, None)
  end.

(** Representation, between requests (no probe in flight). *)
Definition repr (c : config) (a : phase) (s : shared) : Prop :=
  exists g, 0 <= g < 2 ^ 32 /\
  match a with
  | Closed f =>
      word (cells s) = wordZ g 0 cbClosed /\ failures (cells s) = f /\
      generations (cells s) = 0 /\ 0 <= f < FailureThreshold c
  | Open u k =>
      word (cells s) = wordZ g 0 cbOpen /\ openedUntil (cells s) = u /\
      generations (cells s) = k /\ successes (cells s) = 0
  | HalfOpen n k =>
      word (cells s) = wordZ g 0 cbHalfOpen /\ successes (cells s) = n /\
      generations (cells s) = k /\ 0 <= n < SuccessThreshold c
  end.

(** Configurations as [init] leaves them, with thresholds an int32 counter can
    reach. *)
Definition config_ok (c : config) : Prop :=
  0 < FailureThreshold c <= max_i32 /\ 0 < SuccessThreshold c <= max_i32 /\
  1 <= HalfOpenMaxProbes c <= cbMaxProbes.

Lemma field_ok_small g p st : 0 <= g < 2 ^ 32 -> 0 <= p <= 1 -> 0 <= st < 4 -> field_ok g p st.
Proof. intros. split; [done|]. rewrite cbMaxProbes_eq. lia. Qed.

Lemma unpack_small g p st :
  0 <= g < 2 ^ 32 -> 0 <= p <= 1 -> 0 <= st < 4 -> cbUnpack (wordZ g p st) = (g, p, st).
Proof. intros. by apply cbUnpack_wordZ, field_ok_small. Qed.

Lemma pack_small g p st :
  0 <= g < 2 ^ 32 -> 0 <= p <= 1 -> 0 <= st < 4 -> cbPack g p st = wordZ g p st.
Proof. intros. by apply cbPack_wordZ, field_ok_small. Qed.

Section Run.
Context (c : config) (Hc : config_ok c).

(** ** Symbolic runs of the methods *)

#[local] Arguments cbUnpack : simpl never.
#[local] Arguments cbPack : simpl never.
#[local] Arguments wordZ : simpl never.
#[local] Arguments u32 : simpl never.
#[local] Arguments u64 : simpl never.
#[local] Arguments i32 : simpl never.
#[local] Arguments i64 : simpl never.
#[local] Arguments openTimeout : simpl never.

Lemma run_transition_open fuel g p from reason s :
  word (cells s) = wordZ g p from -> 0 <= g < 2 ^ 32 -> 0 <= p <= 1 -> 0 <= from < 4 ->
  let e := i32 (generations (cells s) + 1) in
  run (transition (S fuel) c g from cbOpen reason) s =
  (mkShared (mkCbState (wordZ (u32 (g + 1)) 0 cbOpen) (i64 (clock s + openTimeout c e))
               (halfOpenSince (cells s)) e 0 0)
     (clock s) (events s ++ [(cbExternal from, StateOpen, reason)]) (epoch s + 1) (holds s),
   Some true).
Proof.
  intros Hw Hg Hp Hf e. unfold transition. cbn. rewrite Hw, unpack_small by (done || lia).
  rewrite !Z.eqb_refl. cbn. rewrite Hw, Z.eqb_refl. cbn.
  rewrite pack_small; [done|apply u32_range|lia|done].
Qed.

Lemma run_transition_close fuel g p from reason s :
  word (cells s) = wordZ g p from -> 0 <= g < 2 ^ 32 -> 0 <= p <= 1 -> 0 <= from < 4 ->
  run (transition (S fuel) c g from cbClosed reason) s =
  (mkShared (mkCbState (wordZ (u32 (g + 1)) 0 cbClosed) 0 (halfOpenSince (cells s)) 0 0 0)
     (clock s) (events s ++ [(cbExternal from, StateClosed, reason)]) (epoch s + 1) (holds s),
   Some true).
Proof.
  intros Hw Hg Hp Hf. unfold transition. cbn. rewrite Hw, unpack_small by (done || lia).
  rewrite !Z.eqb_refl. cbn. rewrite Hw, Z.eqb_refl. cbn.
  rewrite pack_small; [done|apply u32_range|lia|done].
Qed.

Lemma run_admit_closed fuel me now g s :
  word (cells s) = wordZ g 0 cbClosed -> 0 <= g < 2 ^ 32 ->
  run (cbAdmit (S fuel) c me now) s = (s, Some (0, cbAdmitClosed, true)).
Proof. intros Hw Hg. unfold cbAdmit. cbn. by rewrite Hw, unpack_small. Qed.

Lemma run_admit_cooling fuel me now g s :
  word (cells s) = wordZ g 0 cbOpen -> 0 <= g < 2 ^ 32 -> now < openedUntil (cells s) ->
  run (cbAdmit (S fuel) c me now) s = (s, Some (0, cbAdmitClosed, false)).
Proof.
  intros Hw Hg Hu. unfold cbAdmit, admit_body. cbn. rewrite Hw, unpack_small by (done || lia). cbn.
  by rewrite (proj2 (Z.ltb_lt _ _)).
Qed.

Lemma run_admit_half n fuel me now g s :
  word (cells s) = wordZ g 0 cbHalfOpen -> 0 <= g < 2 ^ 32 ->
  run (loop (S n) (admit_body fuel c me now)) s =
  (hold me (upd_cells (set_word (wordZ g 1 cbHalfOpen)) s), Some (g, cbAdmitProbe, true)).
Proof.
  intros Hw Hg. destruct Hc as (_ & _ & Hcap). rewrite cbMaxProbes_eq in Hcap.
  cbn [loop]. unfold admit_body. cbn. rewrite Hw, unpack_small by (done || lia). cbn.
  rewrite u32_small, (proj2 (Z.leb_gt _ _)) by lia. cbn.
  rewrite Hw, Z.eqb_refl. cbn.
  rewrite wordZ_probe_up; [done|apply field_ok_small; done|done].
Qed.

(** After the cooldown one iteration turns the breaker half-open ... *)
Lemma run_admit_body_expired fuel me now g s :
  word (cells s) = wordZ g 0 cbOpen -> 0 <= g < 2 ^ 32 -> openedUntil (cells s) <= now ->
  run (admit_body fuel c me now) s =
  (mkShared (set_word (wordZ (u32 (g + 1)) 0 cbHalfOpen) (set_halfOpenSince now (cells s)))
     (clock s) (events s ++ [(StateOpen, StateHalfOpen, ReasonProbe)]) (epoch s + 1) (holds s),
   Some None).
Proof.
  intros Hw Hg Hu. unfold admit_body. cbn. rewrite Hw, unpack_small by (done || lia). cbn.
  rewrite (proj2 (Z.ltb_ge _ _)) by lia. cbn. rewrite Hw, Z.eqb_refl. cbn.
  by rewrite pack_small by (apply u32_range || done).
Qed.

(** ... and the next one claims the first slot. *)
Lemma run_admit_expired fuel me now g s :
  word (cells s) = wordZ g 0 cbOpen -> 0 <= g < 2 ^ 32 -> openedUntil (cells s) <= now ->
  exists s', run (cbAdmit (S (S fuel)) c me now) s = (s', Some (u32 (g + 1), cbAdmitProbe, true)) /\
    word (cells s') = wordZ (u32 (g + 1)) 1 cbHalfOpen /\
    generations (cells s') = generations (cells s) /\
    successes (cells s') = successes (cells s) /\ clock s' = clock s.
Proof.
  intros Hw Hg Hu. unfold cbAdmit.
  rewrite run_loop, (run_admit_body_expired _ me now g) by done. cbv iota.
  rewrite (run_admit_half fuel _ me now (u32 (g + 1))); [by eexists|done|apply u32_range].
Qed.

Lemma run_release fuel me g s :
  word (cells s) = wordZ g 1 cbHalfOpen -> 0 <= g < 2 ^ 32 ->
  run (releaseProbe (S fuel) me g) s =
  (unhold me (upd_cells (set_word (wordZ g 0 cbHalfOpen)) s), Some tt).
Proof.
  intros Hw Hg. unfold releaseProbe. cbn. rewrite Hw, unpack_small by (done || lia).
  rewrite Z.eqb_refl. cbn. rewrite Hw, Z.eqb_refl. cbn.
  rewrite wordZ_probe_down; [done|apply field_ok_small; done|lia].
Qed.

(** ** One request implements one step *)

Lemma finish_closed fuel me f o s :
  repr c (Closed f) s ->
  exists s', run (finish (S fuel) c me 0 cbAdmitClosed o) s = (s', Some o) /\
    repr c (settle c (clock s) o (Closed f)) s'.
Proof.
  intros (g & Hg & Hw & Hf & Hk & Hlt). destruct Hc as (HF & _ & _). unfold max_i32 in HF.
  destruct o as [resp err|]; cbn [finish settle]; [|by exists s; split; [|exists g]].
  rewrite run_bind. unfold record. destruct (failed _ _ _).
  - cbn -[transition]. rewrite Hf, i32_small by lia.
    destruct (FailureThreshold c <=? f + 1) eqn:Ht; bool_prop.
    + cbn -[transition]. rewrite Hw, unpack_small by (done || lia). cbn [Z.eqb cbClosed].
      rewrite run_bind, (run_transition_open fuel g 0) by (done || lia). eexists; split; [done|].
      cbn. rewrite Hk. exists (u32 (g + 1)). split; [apply u32_range|done].
    + eexists; split; [done|]. exists g. cbn. rewrite Hf, i32_small by lia. repeat split; lia || done.
  - cbn. rewrite Hf. destruct (f =? 0) eqn:E; bool_prop; eexists; (split; [done|]); exists g; cbn;
      repeat split; lia || done.
Qed.

Lemma finish_probe fuel me g n k o s :
  word (cells s) = wordZ g 1 cbHalfOpen -> 0 <= g < 2 ^ 32 -> successes (cells s) = n ->
  generations (cells s) = k -> 0 <= n < SuccessThreshold c ->
  exists s', run (finish (S fuel) c me g cbAdmitProbe o) s = (s', Some o) /\
    repr c (settle c (clock s) o (HalfOpen n k)) s'.
Proof.
  intros Hw Hg Hn Hk Hlt. destruct Hc as (_ & HS & _). unfold max_i32 in HS.
  destruct o as [resp err|]; cbn [finish settle].
  - rewrite run_bind. unfold record. destruct (failed _ _ _).
    + rewrite run_bind, (run_transition_open fuel g 1) by (done || lia).
      eexists; split; [done|]. exists (u32 (g + 1)). cbn. rewrite Hk.
      split; [apply u32_range|done].
    + cbn -[transition releaseProbe]. rewrite Hn, i32_small by lia.
      destruct (SuccessThreshold c <=? n + 1) eqn:Ht; bool_prop.
      * rewrite run_bind, (run_transition_close fuel g 1) by (done || lia).
        eexists; split; [done|]. exists (u32 (g + 1)). cbn. split; [apply u32_range|].
        destruct Hc. repeat split; done || lia.
      * rewrite (run_release fuel me g) by done. eexists; split; [done|].
        exists g. cbn. rewrite Hn, i32_small by lia. repeat split; done || lia.
  - rewrite run_bind, (run_release fuel me g) by done. eexists; split; [done|].
    exists g. cbn. repeat split; done || lia.
Qed.

Lemma repr_set_clock a now s : repr c a s -> repr c a (set_clock now s).
Proof. done. Qed.

Lemma request_refines fuel me now now' o a s :
  repr c a s ->
  exists s', request (S (S fuel)) c me now now' o s = (s', Some (spec_request c now now' o a).2) /\
    repr c (spec_request c now now' o a).1 s'.
Proof.
  intros Hr. unfold request. destruct a as [f|u k|n k]; cbn [spec_request].
  - pose proof Hr as (g & Hg & Hw & _). rewrite (run_admit_closed (S fuel) me now g) by done.
    destruct (finish_closed (S fuel) me f o (set_clock now' (set_clock now s))) as (s' & -> & Hs');
      [done|]. by exists s'.
  - destruct Hr as (g & Hg & Hw & Hu & Hk & Hn). destruct (now <? u) eqn:E; bool_prop.
    + rewrite (run_admit_cooling (S fuel) me now g) by (done || (cbn; lia)).
      eexists; split; [done|]. by exists g.
    + destruct (run_admit_expired fuel me now g (set_clock now s)) as (s1 & -> & Hw1 & Hk1 & Hn1 & _);
        [done|done|cbn; lia|].
      cbn in Hk1, Hn1. destruct Hc as (_ & HS & _).
      destruct (finish_probe (S fuel) me (u32 (g + 1)) 0 k o (set_clock now' s1)) as (s' & -> & Hs');
        [done|apply u32_range|cbn; lia|cbn; lia|lia|]. by exists s'.
  - destruct Hr as (g & Hg & Hw & Hn & Hk & Hlt).
    unfold cbAdmit. rewrite (run_admit_half (S fuel) _ me now g) by done.
    destruct (finish_probe (S fuel) me g n k o
      (set_clock now' (hold me (upd_cells (set_word (wordZ g 1 cbHalfOpen)) (set_clock now s)))))
      as (s' & -> & Hs'); [done..|]. by exists s'.
Qed.

End Run.

(** ** Sequences of requests *)

Record req := mkReq { rq_id : nat; rq_now : Z; rq_done : Z; rq_outcome : outcome }.

Fixpoint serve (fuel : nat) (c : config) (rs : list req) (s : shared)
    : shared * list (option verdict) :=
  match rs with
  | [] => (s, [])
  | r :: rs =>
      let '(s1, v) := request fuel c (rq_id r) (rq_now r) (rq_done r) (rq_outcome r) s in
      let '(s2, vs) := serve fuel c rs s1 in (s2, v :: vs)
  end.

Fixpoint spec_serve (c : config) (rs : list req) (a : phase) : phase * list verdict :=
  match rs with
  | [] => (a, [])
  | r :: rs =>
      let '(a1, v) := spec_request c (rq_now r) (rq_done r) (rq_outcome r) a in
      let '(a2, vs) := spec_serve c rs a1 in (a2, v :: vs)
  end.

Lemma serve_refines c fuel rs a s :
  config_ok c -> repr c a s ->
  exists s', serve (S (S fuel)) c rs s = (s', Some <$> (spec_serve c rs a).2) /\
    repr c (spec_serve c rs a).1 s'.
Proof.
  intros Hc. revert a s. induction rs as [|r rs IH]; intros a s Hr; cbn [serve spec_serve]; [by eexists|].
  destruct (request_refines c Hc fuel (rq_id r) (rq_now r) (rq_done r) (rq_outcome r) a s Hr)
    as (s1 & -> & Hs1).
  destruct (spec_request _ _ _ _ _) as [a1 v]. destruct (IH a1 s1 Hs1) as (s' & -> & Hs').
  destruct (spec_serve c rs a1) as [a2 vs]. by exists s'.
Qed.

Lemma repr_zero c now : config_ok c -> repr c (Closed 0) (breaker_zero now).
Proof. intros (HF & _). exists 0. repeat split; cbn; done || lia. Qed.

(** C1: A breaker serving any sequence of requests terminates on each and implements
    the documented closed/open/half-open machine: thresholds, backed-off cooldown,
    refusals without a round trip, panics. *)
Theorem cb_refines_fsm c fuel rs t0 :
  let c' := init_config c in
  FailureThreshold c' <= max_i32 -> SuccessThreshold c' <= max_i32 ->
  let '(a, vs) := spec_serve c' rs (Closed 0) in
  exists s', serve (S (S fuel)) c' rs (breaker_zero t0) = (s', Some <$> vs) /\ repr c' a s'.
Proof.
  intros c' HF HS. destruct (init_config_ok c) as (H1 & H2 & _ & _ & H3).
  assert (config_ok c') as Hok by (split; [|split]; done).
  destruct (spec_serve c' rs (Closed 0)) as [a vs] eqn:E.
  pose proof (serve_refines c' fuel rs (Closed 0) _ Hok (repr_zero c' t0 Hok)) as H.
  by rewrite E in H.
Qed.

(** ** The balancer's scan *)

Lemma pick_scan_sheds fuel c g me now ks bs bs' :
  NoDup ks -> (forall k, k ∈ ks -> 0 <= k) ->
  pick_scan fuel c g me now ks bs = (bs', Some None) ->
  forall idx b, idx ∈ ks -> up g idx = true -> bs !! Z.to_nat idx = Some b ->
  exists s' x y, run (cbAdmit fuel c me now) b = (s', Some (x, y, false)).
Proof.
  revert bs. induction ks as [|k ks IH]; intros bs Hnd Hpos H idx b Hin Hup Hb; [by apply elem_of_nil in Hin|].
  apply NoDup_cons in Hnd as [Hk Hnd]. cbn in H.
  assert (forall k', k' ∈ ks -> 0 <= k') as Hpos' by (intros; apply Hpos; by right).
  apply elem_of_cons in Hin as [->|Hin].
  - rewrite Hup, Hb in H. cbn in H.
    destruct (run _ b) as [s' [[[x y] []]|]] eqn:E; try done. by exists s', x, y.
  - destruct (negb (up g k)); [by eapply IH|].
    destruct (bs !! Z.to_nat k) as [b0|]; [|done].
    destruct (run _ b0) as [s' [[[x y] []]|]] eqn:E; try done.
    eapply (IH _ Hnd Hpos' H); [done..|]. rewrite list_lookup_insert_ne; [done|].
    intros E'. apply Hk. assert (k = idx) as -> by (apply Z2Nat.inj; auto; apply Hpos; by left). done.
Qed.

Definition wf (l : t) : Prop := length (breakers l) = length (Targets l) /\ 0 <= i l < 2 ^ 32.

(** When the cursor does not wrap inside the scan, pick sheds only if every
    breaker the gate leaves up refuses the request. *)
Theorem cb_sheds_only_when_none_admits fuel l me now l' :
  wf l -> RoundRobinFacts.no_wrap (i l) (Z.of_nat (length (Targets l))) ->
  pick fuel l me now = (l', Some None) ->
  forall idx b, breakers l !! idx = Some b -> up (gate l) (Z.of_nat idx) = true ->
  exists s' x y, run (cbAdmit fuel (cfg l) me now) (set_clock now b) = (s', Some (x, y, false)).
Proof.
  intros [Hlen Hi] Hw Hp idx b Hb Hup. unfold pick in Hp.
  rewrite RoundRobinFacts.cursor_back in Hp by done.
  destruct (pick_scan _ _ _ _ _ _ _) as [bs r] eqn:E. simplify_eq.
  pose proof (lookup_lt_Some _ _ _ Hb). set (n := Z.of_nat (length (Targets l))) in *.
  assert (0 < n) by lia.
  eapply (pick_scan_sheds _ _ _ _ _ _ _ _ _ _ E (Z.of_nat idx)).
  - apply ring_u32_complete; [lia|lia|done|lia].
  - done.
  - by rewrite Nat2Z.id, list_lookup_fmap, Hb.
  Unshelve.
  + apply ring_u32_NoDup; [lia|lia|done].
  + intros k Hk. apply ring_u32_range in Hk; lia.
Qed.

(** ** Witnesses and exhibits *)

Definition ok200 : outcome := Returned (Some (mkResponse 200 ∅ None)) None.
Definition refused : outcome := Returned None (Some (ErrOther "connection refused")).
Definition canceled : outcome := Returned None (Some (ErrWrap "proxy" ErrCanceled)).

(** Trip after two failures, refuse while cooling, re-open on a failed probe, heal
    after two good ones. *)
Definition demo_config : config := mkConfig 2 2 10 25 1000 1 None.
Definition demo_rs : list req :=
  [mkReq 0 0 1 refused; mkReq 1 2 3 canceled; mkReq 2 4 5 refused; mkReq 3 6 7 refused;
   mkReq 4 8 9 ok200; mkReq 5 20 21 refused; mkReq 6 30 31 ok200; mkReq 7 42 43 ok200;
   mkReq 8 44 45 Panicked; mkReq 9 46 47 ok200].

Example demo_spec :
  spec_serve (init_config demo_config) demo_rs (Closed 0) =
  (Closed 0, [Sent refused; Sent canceled; Sent refused; Sent refused; Refused; Sent refused;
              Refused; Sent ok200; Sent Panicked; Sent ok200]).
Proof. by vm_compute. Qed.

Lemma cb_refines_fsm_witness :
  exists s', serve 2 (init_config demo_config) demo_rs (breaker_zero 0) =
    (s', Some <$> (spec_serve (init_config demo_config) demo_rs (Closed 0)).2) /\
    repr (init_config demo_config) (Closed 0) s'.
Proof.
  pose proof (cb_refines_fsm demo_config 0 demo_rs 0 ltac:(by vm_compute) ltac:(by vm_compute)) as H.
  rewrite demo_spec in H |- *. exact H.
Defined.

(** A breaker that one failure tripped at time [now]. *)
Definition tripped (now : Z) : shared :=
  (request 5 (init_config (mkConfig 1 2 10 25 1000 1 None)) 0 now now refused (breaker_zero now)).1.

Definition demo_lb (cursor : Z) (bs : list shared) : t :=
  mk cursor bs None (replicate (length bs) (RoundRobinFacts.demo_target "t"))
     (init_config (mkConfig 1 2 10 25 1000 1 None)).

Lemma cb_sheds_only_when_none_admits_witness :
  exists s' x y,
    run (cbAdmit 5 (cfg (demo_lb 0 [tripped 0; tripped 2])) 9 5) (set_clock 5 (tripped 2)) =
    (s', Some (x, y, false)).
Proof.
  apply (cb_sheds_only_when_none_admits 5 (demo_lb 0 [tripped 0; tripped 2]) 9 5
           (pick 5 (demo_lb 0 [tripped 0; tripped 2]) 9 5).1) with (idx := 1%nat).
  - by vm_compute.
  - left. by vm_compute.
  - by vm_compute.
  - by vm_compute.
  - by vm_compute.
Defined.

(** At cursor 2^32-1 with three targets, two open and one closed, the request is
    shed with ErrUnavailable although the closed breaker would admit it. *)
Theorem cb_wrap_sheds_closed_target :
  let l := demo_lb (2 ^ 32 - 1) [tripped 0; tripped 0; breaker_zero 0] in
  (exists b, breakers l !! 2%nat = Some b /\ run (cbAdmit 5 (cfg l) 9 5) (set_clock 5 b) =
     (set_clock 5 b, Some (0, cbAdmitClosed, true))) /\
  (RoundTrip 5 l 9 5 6 (mkRequest "GET" "" ∅)).2 = Some (Returned None (Some ErrUnavailable)).
Proof.
  split; [|vm_compute; reflexivity].
  exists (breaker_zero 0). split; [reflexivity|vm_compute; reflexivity].
Qed.

(** A probe that hangs past [ProbeTimeout] in one half-open generation and succeeds
    in a later one: steps of the code, in order. *)
Definition stale_config : config := init_config (mkConfig 1 2 10 25 1000 1 None).
Definition stale_s1 := (run (cbAdmit 5 stale_config 1 20) (set_clock 20 (tripped 0))).
Definition stale_s2 := (run (cbAdmit 5 stale_config 2 2000) (set_clock 2000 stale_s1.1)).
Definition stale_s3 := (run (cbAdmit 5 stale_config 3 5000) (set_clock 5000 stale_s2.1)).
Definition stale_s4 := (run (finish 5 stale_config 1 2 cbAdmitProbe ok200) (set_clock 5001 stale_s3.1)).
Definition stale_s5 := (run (finish 5 stale_config 3 4 cbAdmitProbe ok200) (set_clock 5002 stale_s4.1)).

(** A probe reclaimed by ProbeTimeout that later succeeds still increments
    successes, so the next half-open generation closes after one success of its own
    with SuccessThreshold 2. *)
Theorem cb_stale_success_counts :
  SuccessThreshold stale_config = 2 /\
  stale_s1.2 = Some (2, cbAdmitProbe, true) /\
  stale_s2.2 = Some (0, cbAdmitClosed, false) /\
  stale_s3.2 = Some (4, cbAdmitProbe, true) /\
  cbUnpack (word (cells stale_s4.1)) = (4, 1, cbHalfOpen) /\
  cbUnpack (word (cells stale_s5.1)) = (5, 0, cbClosed) /\
  last (events stale_s5.1) = Some (StateHalfOpen, StateClosed, ReasonHeal).
Proof. repeat split; by vm_compute. Qed.

End CircuitBreakerSpec.
