(* ===== verification/LeastConn.v ===== *)
(** * pkg/upstream: the least-connection balancer and its bulkhead

    [src/pkg/upstream/leastconn.go].  [pick] scans with one atomic load per peer and
    claims with a compare-and-swap; the slot is given back through a [sync.Once]
    when the round trip fails, panics, or the response body is closed. *)

From S2P Require Import Prelude Http Concurrency RoundRobin.

Local Open Scope go_scope.

Module LeastConn.

Inductive ShedReason := ShedSaturated | ShedAllDark | ShedEmpty.

Definition ShedReason_String (r : ShedReason) : string :=
  match r with
  | ShedSaturated => "saturated"
  | ShedAllDark => "all_dark"
  | ShedEmpty => "empty"
  end.

(** The immutable half of [lcPeer]: effective weight, and cap (0: unbounded). *)
Record lcPeer := mkPeer { weight : Z; cap : Z }.

Definition init_peer (tg : Target) : lcPeer :=
  mkPeer (effectiveWeight tg) (if 0 <? MaxConcurrent tg then MaxConcurrent tg else 0).

Definition init (targets : list Target) : list lcPeer := init_peer <$> targets.

(** What the goroutines share: the rotation cursor, the in-flight counters, the
    health gate, the requests whose [sync.Once] has fired, and one auxiliary
    variable no code reads: [held], the peer on which each request has claimed a
    slot it has not given back. *)
Record shared := mkShared {
  cursor : Z;
  active : list Z;
  gate : Gate;
  fired : gset nat;
  held : gmap nat nat;
}.

Definition zero (ps : list lcPeer) (g : Gate) : shared :=
  mkShared 0 ((fun _ => 0) <$> ps) g ∅ ∅.

Definition setHealthGate (g : list bool) (s : shared) : shared :=
  mkShared (cursor s) (active s) (Some g) (fired s) (held s).

Definition active_of (p : nat) (s : shared) : Z := default 0 (active s !! p).

Definition set_active (p : nat) (v : Z) (s : shared) : shared :=
  mkShared (cursor s) (<[p := v]> (active s)) (gate s) (fired s) (held s).
Definition hold (me p : nat) (s : shared) : shared :=
  mkShared (cursor s) (active s) (gate s) (fired s) (<[me := p]> (held s)).

(** [claim]: the uncapped increment ... *)
Definition claim_add (me p : nat) : prog shared unit :=
  store (fun s => hold me p (set_active p (i64 (active_of p s + 1)) s)).

(** ... and the compare-and-swap loop under a cap. *)
Fixpoint claim_cas (fuel : nat) (me p : nat) (cp expected : Z) : prog shared bool :=
  match fuel with
  | O => Spin
  | S fuel =>
      if cp <=? expected then Ret false
      else
        ok <- Atomic
                (fun s => if active_of p s =? expected
                          then hold me p (set_active p (i64 (expected + 1)) s) else s)
                (fun s => Ret (active_of p s =? expected)) ;;
        if (ok : bool) then Ret true
        else e <- load (active_of p) ;; claim_cas fuel me p cp e
  end.

Definition claim (fuel : nat) (me : nat) (p : nat) (c : lcPeer) (expected : Z) : prog shared bool :=
  if cap c =? 0 then claim_add me p ;; Ret true
  else claim_cas fuel me p (cap c) expected.

(** The inner loop of [pick] over the indices left; [best] is the candidate, its
    peer record and the load it was seen with. *)
Fixpoint scan_peers (ps : list lcPeer) (failOpen : bool) (ks : list Z)
    (best : option (nat * lcPeer * Z)) (sawUp : bool)
    : prog shared (option (nat * lcPeer * Z) * bool) :=
  match ks with
  | [] => Ret (best, sawUp)
  | idx :: ks =>
      let p := Z.to_nat idx in
      match ps !! p with
      | None => Spin (* unreachable: idx < len(l.peers) *)
      | Some c =>
          u <- (if failOpen then Ret true else load (fun s => up (gate s) idx)) ;;
          if negb u then scan_peers ps failOpen ks best sawUp
          else
            let sawUp := if failOpen then sawUp else true in
            a <- load (active_of p) ;;
            if negb (cap c =? 0) && (cap c <=? a) then scan_peers ps failOpen ks best sawUp
            else
              let take := match best with
                          | None => true
                          | Some (_, bc, bestA) => i64 (a * weight bc) <? i64 (bestA * weight c)
                          end in
              scan_peers ps failOpen ks (if take then Some (p, c, a) else best) sawUp
      end
  end.

Fixpoint pick_loop (fuel : nat) (ps : list lcPeer) (me : nat) (ring : list Z) (failOpen : bool)
    : prog shared (nat + ShedReason) :=
  match fuel with
  | O => Spin
  | S fuel =>
      r <- scan_peers ps failOpen ring None false ;;
      let '(best, sawUp) := r in
      match best with
      | None =>
          if negb failOpen && negb sawUp then pick_loop fuel ps me ring true
          else Ret (inr (if (sawUp : bool) then ShedSaturated else ShedAllDark))
      | Some (p, c, a) =>
          ok <- claim fuel me p c a ;;
          if (ok : bool) then Ret (inl p) else pick_loop fuel ps me ring failOpen
      end
  end.

Definition pick (fuel : nat) (ps : list lcPeer) (me : nat) : prog shared (nat + ShedReason) :=
  i <- rmw (fun s => u32 (cursor s + 1))
           (fun s => mkShared (u32 (cursor s + 1)) (active s) (gate s) (fired s) (held s)) ;;
  let start := u32 (i - 1) in
  pick_loop fuel ps me (ring_u64 start (Z.of_nat (length ps))) false.

(** [dec]: the decrement guarded by the request's [sync.Once]. *)
Definition dec (me p : nat) : prog shared unit :=
  store (fun s =>
    if bool_decide (me ∈ fired s) then s
    else mkShared (cursor s) (<[p := i64 (active_of p s - 1)]> (active s)) (gate s)
           ({[me]} ∪ fired s) (delete me (held s))).

(** [Inflight]: one atomic load per target, with its cap. *)
Fixpoint Inflight (p : nat) (ps : list lcPeer) : prog shared (list (Z * Z)) :=
  match ps with
  | [] => Ret []
  | c :: ps => n <- load (active_of p) ;; more <- Inflight (S p) ps ;; Ret ((n, cap c) :: more)
  end.

Fixpoint close_body (n : nat) (me p : nat) : prog shared unit :=
  match n with
  | O => Ret tt
  | S n => dec me p ;; close_body n me p
  end.

(** Whether the response carries a body the caller will close. *)
Definition has_body (o : outcome) : bool :=
  match o with
  | Returned (Some resp) None => match resp_body resp with Some _ => true | None => false end
  | _ => false
  end.

(** A request: [RoundTrip], with the outcome [o] of the chosen transport, then the
    [closes] calls of the returned body's [Close]. *)
Definition request (fuel : nat) (ps : list lcPeer) (me : nat) (o : outcome) (closes : nat)
    : prog shared (outcome + ShedReason) :=
  if Nat.eqb (length ps) 0 then Ret (inr ShedEmpty)
  else
    r <- pick fuel ps me ;;
    match r with
    | inr reason => Ret (inr reason)
    | inl p =>
        if has_body o then close_body closes me p ;; Ret (inl o)
        else
          (match o with Panicked => Ret tt | Returned _ _ => dec me p end) ;;
          dec me p ;; Ret (inl o)
    end.

(** What the caller of [RoundTrip] receives. *)
Definition result (r : outcome + ShedReason) : outcome :=
  match r with
  | inl o => o
  | inr _ => Returned None (Some ErrUnavailable)
  end.

End LeastConn.

(** ** The bulkhead under concurrency *)

Module LeastConnFacts.
Import LeastConn.

(** Between any two actions the health checker may publish another gate. *)
Definition gate_step (s s' : shared) : Prop :=
  exists g, s' = mkShared (cursor s) (active s) g (fired s) (held s).

Section Conc.
Context (ps : list lcPeer).
Context (Hcaps : forall c, c ∈ ps -> 0 <= cap c < 2 ^ 63).

(** Slots taken on peer [p]. *)
Definition taken (p : nat) (s : shared) : Z := count_eq p (held s).

Definition peer_ok (p : nat) (c : lcPeer) (s : shared) : Prop :=
  active s !! p = Some (i64 (taken p s)) /\ (cap c <> 0 -> taken p s <= cap c).

Definition Inv (s : shared) : Prop :=
  length (active s) = length ps /\ (forall p c, ps !! p = Some c -> peer_ok p c s) /\
  (forall j, j ∈ fired s -> held s !! j = None).

Definition G (j : nat) (s s' : shared) : Prop :=
  forall i, i <> j -> held s' !! i = held s !! i /\ (i ∈ fired s' <-> i ∈ fired s).
Definition R (j : nat) (s s' : shared) : Prop :=
  held s' !! j = held s !! j /\ (j ∈ fired s' <-> j ∈ fired s).

Lemma gate_rg : RelyGuarantee gate_step R G Inv.
Proof.
  split; unfold R, G, gate_step.
  - done.
  - intros j s1 s2 s3 [E1 F1] [E2 F2]. split; [congruence|]. by rewrite F2.
  - intros i j s s' Hne H. apply H. congruence.
  - intros j s s' (g & ->). done.
  - intros s s' (g & ->) HI. done.
Qed.

#[local] Existing Instance gate_rg.

(** A request that has no slot yet / holds one on [p] / is done with its slot. *)
Definition fresh (j : nat) (s : shared) : Prop := held s !! j = None /\ j ∉ fired s.
Definition owns (j p : nat) (s : shared) : Prop := held s !! j = Some p /\ j ∉ fired s.
Definition gone (j : nat) (s : shared) : Prop := held s !! j = None.

Definition stable (j : nat) (P : shared -> Prop) : Prop := forall s1 s2, P s1 -> R j s1 s2 -> P s2.

Lemma stable_fresh j : stable j (fresh j).
Proof. intros s1 s2 [H1 H2] [E F]. split; [congruence|by rewrite F]. Qed.
Lemma stable_owns j p : stable j (owns j p).
Proof. intros s1 s2 [H1 H2] [E F]. split; [congruence|by rewrite F]. Qed.
Lemma stable_gone j : stable j (gone j).
Proof. intros s1 s2 H [E F]. unfold gone in *. congruence. Qed.
Lemma stable_done j : stable j (fun s => j ∈ fired s).
Proof. intros s1 s2 H [E F]. by rewrite F. Qed.

Hint Resolve stable_fresh stable_owns stable_gone stable_done : parapet.

Lemma taken_set_active p q v s : taken p (set_active q v s) = taken p s.
Proof. done. Qed.

(** Taking a slot on [p]: the counter gains one. *)
Lemma hold_inv j p c s :
  Inv s -> fresh j s -> ps !! p = Some c -> (cap c <> 0 -> active_of p s < cap c) ->
  let s' := hold j p (set_active p (i64 (active_of p s + 1)) s) in
  (G j s s' /\ Inv s') /\ owns j p s'.
Proof.
  intros (Hl & Hp & Hf) [Hj Hnf] Hc Hlt s'.
  destruct (Hp p c Hc) as [Ha Hcap].
  assert (taken p s' = taken p s + 1) as Ht by (apply count_eq_insert; congruence).
  assert (active_of p s = i64 (taken p s)) as Hao by (unfold active_of; by rewrite Ha).
  split; [split; [|split; [|split]]|].
  - intros i Hi. split; [cbn; by rewrite lookup_insert_ne|done].
  - cbn. by rewrite length_insert.
  - intros q d Hq. destruct (decide (q = p)) as [->|Hne].
    + assert (d = c) as -> by congruence. split.
      * cbn. rewrite list_lookup_insert_eq by (by eapply lookup_lt_Some). f_equal.
        by rewrite Ht, Hao, i64_add_l.
      * intros Hz. rewrite Ht. specialize (Hlt Hz). specialize (Hcap Hz).
        rewrite Hao, i64_small in Hlt; [lia|].
        pose proof (count_eq_nonneg p (held s)). assert (c ∈ ps) as Hin by (by eapply list_elem_of_lookup_2).
        specialize (Hcaps c Hin). unfold taken in *. lia.
    + destruct (Hp q d Hq) as [Hqa Hqc]. assert (taken q s' = taken q s) as Et.
      { apply count_eq_insert_ne; congruence. }
      unfold peer_ok. rewrite Et. cbn. rewrite list_lookup_insert_ne by done. done.
  - cbn. intros i Hi. rewrite lookup_insert_ne; [by apply Hf|]. intros ->. done.
  - split; [cbn; by rewrite lookup_insert_eq|done].
Qed.

(** Giving it back. *)
Lemma dec_inv j p c s :
  Inv s -> owns j p s -> ps !! p = Some c ->
  let s' := mkShared (cursor s) (<[p := i64 (active_of p s - 1)]> (active s)) (gate s)
              ({[j]} ∪ fired s) (delete j (held s)) in
  (G j s s' /\ Inv s') /\ gone j s' /\ j ∈ fired s'.
Proof.
  intros (Hl & Hp & Hf) [Hj Hnf] Hc s'.
  destruct (Hp p c Hc) as [Ha Hcap].
  assert (taken p s' = taken p s - 1) as Ht by (by apply count_eq_delete).
  assert (active_of p s = i64 (taken p s)) as Hao by (unfold active_of; by rewrite Ha).
  split; [split; [|split; [|split]]|].
  - intros i Hi. split; [cbn; by rewrite lookup_delete_ne|cbn; set_solver].
  - cbn. by rewrite length_insert.
  - intros q d Hq. destruct (decide (q = p)) as [->|Hne].
    + assert (d = c) as -> by congruence. split.
      * cbn. rewrite list_lookup_insert_eq by (by eapply lookup_lt_Some).
        by rewrite Ht, Hao, i64_sub_l.
      * intros Hz. specialize (Hcap Hz). lia.
    + destruct (Hp q d Hq) as [Hqa Hqc].
      assert (taken q s' = taken q s) as Et by (apply count_eq_delete_ne; congruence).
      unfold peer_ok. rewrite Et. cbn. rewrite list_lookup_insert_ne by done. done.
  - cbn. intros i Hi. apply elem_of_union in Hi as [->%elem_of_singleton|Hi];
      [apply lookup_delete_eq|]. apply lookup_delete_None. right. by apply Hf.
  - split; [apply lookup_delete_eq|cbn; set_solver].
Qed.

Lemma lc_rg_return {A} j (a : A) (Q : A -> shared -> Prop) (P : shared -> Prop) s :
  stable j P -> P s -> (forall s', P s' -> Q a s') -> rg R G Inv j (Ret a) Q s.
Proof. intros HP Hs HQ s' HR HI. apply HQ. by eapply HP. Qed.

(** A load keeps any stable assertion. *)
Lemma rg_load {A B} j (f : shared -> A) (k : A -> prog shared B) Q (P : shared -> Prop) s :
  stable j P -> P s -> (forall a s', P s' -> rg R G Inv j (k a) Q s') ->
  rg R G Inv j (bind (load f) k) Q s.
Proof.
  intros HP Hs Hk s' HR HI. split; [split; [|done]|].
  - by intros i Hi.
  - apply Hk. by eapply HP.
Qed.

Lemma rg_claim j fuel p c a s :
  ps !! p = Some c -> fresh j s ->
  rg R G Inv j (claim fuel j p c a) (fun ok s' => if (ok : bool) then owns j p s' else fresh j s') s.
Proof.
  intros Hc Hs. unfold claim. destruct (cap c =? 0) eqn:E; bool_prop.
  - intros s1 HR HI. destruct (hold_inv j p c s1) as [HG Ho]; [done|by eapply stable_fresh|done|done|].
    split; [done|]. eapply (lc_rg_return _ _ _ (owns j p)); auto with parapet.
  - revert a s Hs. induction fuel as [|fuel IH]; intros a s Hs; cbn [claim_cas]; [done|].
    destruct (cap c <=? a) eqn:Ea; bool_prop; [eapply (lc_rg_return _ _ _ (fresh j)); auto with parapet|].
    intros s1 HR HI. cbn. assert (fresh j s1) by (by eapply stable_fresh).
    destruct (active_of p s1 =? a) eqn:Eq; bool_prop.
    + subst a. destruct (hold_inv j p c s1) as [HG Ho]; [done..|].
      split; [done|]. eapply (lc_rg_return _ _ _ (owns j p)); auto with parapet.
    + split; [split; [by intros i Hi|done]|].
      eapply (rg_load _ _ _ _ (fresh j)); [auto with parapet..|]. intros e s2 Hs2. by apply IH.
Qed.

Definition candidate (best : option (nat * lcPeer * Z)) : Prop :=
  forall p c a, best = Some (p, c, a) -> ps !! p = Some c.

Lemma rg_scan j fo ks best saw s :
  fresh j s -> candidate best ->
  rg R G Inv j (scan_peers ps fo ks best saw) (fun r s' => fresh j s' /\ candidate r.1) s.
Proof.
  revert best saw s. induction ks as [|idx ks IH]; intros best saw s Hs Hbest; cbn [scan_peers].
  - eapply (lc_rg_return _ _ _ (fresh j)); auto with parapet.
  - destruct (ps !! Z.to_nat idx) as [c|] eqn:Hc; [|done].
    apply (rg_bind gate_step R G Inv). eapply (rg_mono R G Inv _ _ (fun _ => fresh j)).
    + intros u s1 _ Hs1. destruct (negb u); [by apply IH|].
      eapply (rg_load _ _ _ _ (fresh j)); [auto with parapet..|]. intros a s2 Hs2.
      destruct (negb (cap c =? 0) && (cap c <=? a)); [by apply IH|]. apply IH; [done|].
      destruct (match best with None => true | Some _ => _ end); [by intros ??? [= <- <- <-]|done].
    + destruct fo; [eapply (lc_rg_return _ _ _ (fresh j)); auto with parapet|].
      intros s1 HR HI. split; [split; [by intros i Hi|done]|].
      eapply (lc_rg_return _ _ _ (fresh j)); [auto with parapet|by eapply stable_fresh|done].
Qed.

Definition picked (j : nat) (r : nat + ShedReason) (s : shared) : Prop :=
  match r with
  | inl p => owns j p s /\ exists c, ps !! p = Some c
  | inr _ => fresh j s
  end.

Lemma rg_pick_loop j fuel ring fo s :
  fresh j s -> rg R G Inv j (pick_loop fuel ps j ring fo) (picked j) s.
Proof.
  revert fo s. induction fuel as [|fuel IH]; intros fo s Hs; cbn [pick_loop]; [done|].
  apply (rg_bind gate_step R G Inv). eapply (rg_mono R G Inv); [|by apply rg_scan].
  intros [[[[p c] a]|] saw] s1 _ [Hs1 Hb].
  - specialize (Hb _ _ _ eq_refl). apply (rg_bind gate_step R G Inv).
    eapply (rg_mono R G Inv); [|by apply rg_claim]. intros [] s2 _ Hs2.
    + eapply (lc_rg_return _ _ _ (owns j p)); [auto with parapet..|]. intros s3 Hs3. by split; [|exists c].
    + by apply IH.
  - destruct (negb fo && negb saw); [by apply IH|].
    eapply (lc_rg_return _ _ _ (fresh j)); auto with parapet.
Qed.

Lemma rg_dec j p c s :
  ps !! p = Some c -> owns j p s \/ (gone j s /\ j ∈ fired s) ->
  rg R G Inv j (dec j p) (fun _ s' => gone j s' /\ j ∈ fired s') s.
Proof.
  intros Hc Hs s1 HR HI.
  assert (stable j (fun s => gone j s /\ j ∈ fired s)) as Hst.
  { intros x y [? ?] ?. split; [by eapply stable_gone|by eapply (stable_done j x)]. }
  assert (owns j p s1 \/ gone j s1 /\ j ∈ fired s1) as [Ho|Hg]
    by (destruct Hs; [left; by eapply stable_owns|right; by eapply Hst]).
  - rewrite bool_decide_false by (by destruct Ho). destruct (dec_inv j p c s1 HI Ho Hc) as [HG Hd].
    split; [done|]. eapply (lc_rg_return _ _ _ (fun s => gone j s /\ j ∈ fired s)); done.
  - rewrite bool_decide_true by (by destruct Hg). split; [split; [by intros i Hi|done]|].
    eapply (lc_rg_return _ _ _ (fun s => gone j s /\ j ∈ fired s)); done.
Qed.

Lemma rg_close j p c n s :
  ps !! p = Some c -> owns j p s \/ (gone j s /\ j ∈ fired s) -> (0 < n)%nat ->
  rg R G Inv j (close_body n j p) (fun _ s' => gone j s') s.
Proof.
  intros Hc. revert s. induction n as [|n IH]; intros s Hs Hn; [lia|]. cbn [close_body].
  apply (rg_bind gate_step R G Inv). eapply (rg_mono R G Inv); [|by eapply rg_dec].
  intros [] s1 _ [Hg Hf]. destruct n as [|n].
  - eapply (lc_rg_return _ _ _ (gone j)); auto with parapet.
  - apply IH; [auto|lia].
Qed.

Lemma rg_request j fuel o n s :
  fresh j s -> (has_body o = true -> (0 < n)%nat) ->
  rg R G Inv j (request fuel ps j o n) (fun _ s' => gone j s') s.
Proof.
  intros Hs Hn. unfold request. destruct (length ps =? 0)%nat.
  { eapply (lc_rg_return _ _ _ (fresh j)); [auto with parapet..|]. by intros s' [? _]. }
  apply (rg_bind gate_step R G Inv). eapply (rg_mono R G Inv _ _ (picked j)).
  - intros [p|r] s1 _ Hs1; [|eapply (lc_rg_return _ _ _ (fresh j)); [auto with parapet..|]; by intros s' [? _]].
    destruct Hs1 as [Ho [c Hc]]. destruct (has_body o).
    + apply (rg_bind gate_step R G Inv). eapply (rg_mono R G Inv); [|eapply rg_close; eauto].
      intros ? s2 _ Hg. eapply (lc_rg_return _ _ _ (gone j)); auto with parapet.
    + apply (rg_bind gate_step R G Inv).
      eapply (rg_mono R G Inv _ _ (fun _ s' => owns j p s' \/ (gone j s' /\ j ∈ fired s'))).
      * intros ? s2 _ Hs2. apply (rg_bind gate_step R G Inv).
        eapply (rg_mono R G Inv); [|by eapply rg_dec]. intros ? s3 _ [Hg _].
        eapply (lc_rg_return _ _ _ (gone j)); auto with parapet.
      * destruct o as [resp err|].
        -- eapply (rg_mono R G Inv); [|eapply rg_dec; eauto]. intros ? s2 _ Hg. by right.
        -- eapply (lc_rg_return _ _ _ (owns j p)); auto with parapet.
  - unfold pick. intros s1 HR HI. split; [split; [by intros i Hi|done]|]. cbn.
    apply rg_pick_loop. by eapply (stable_fresh j s).
Qed.

(** ** The pool: one goroutine per request, with its fuel, transport outcome and
    number of body closes. *)

Definition spawn (reqs : list (nat * outcome * nat)) : list (prog shared (outcome + ShedReason)) :=
  imap (fun j r => request r.1.1 ps j r.1.2 r.2) reqs.

Lemma lc_Inv_zero g : Inv (zero ps g).
Proof.
  split; [cbn; by rewrite length_fmap|]. split; [|set_solver].
  intros p c Hp. unfold peer_ok, taken. cbn. rewrite count_eq_zero by (intros j q Hq; by rewrite lookup_empty in Hq).
  rewrite list_lookup_fmap, Hp. split; [done|]. intros _.
  apply Hcaps. by eapply list_elem_of_lookup_2.
Qed.

Lemma lc_spawn_ok g reqs :
  (forall f o n, (f, o, n) ∈ reqs -> has_body o = true -> (0 < n)%nat) ->
  pool_ok R G Inv (fun j _ s' => gone j s') (zero ps g, spawn reqs).
Proof.
  intros Hcl. split; [apply lc_Inv_zero|]. cbn. intros j p Hp. unfold spawn in Hp.
  rewrite list_lookup_imap in Hp. destruct (reqs !! j) as [[[f o] n]|] eqn:E; [|done].
  cbn in Hp. simplify_eq. apply rg_request; [by split|].
  apply (Hcl f). by eapply list_elem_of_lookup_2.
Qed.

End Conc.

(** Whether every request closes the body it was given at least once. *)
Definition closing (reqs : list (nat * outcome * nat)) : Prop :=
  forall f o n, (f, o, n) ∈ reqs -> has_body o = true -> (0 < n)%nat.

Lemma init_caps targets :
  (forall tg, tg ∈ targets -> MaxConcurrent tg < 2 ^ 63) ->
  forall c, c ∈ init targets -> 0 <= cap c < 2 ^ 63.
Proof.
  intros H c (tg & -> & Htg)%list_elem_of_fmap. specialize (H tg Htg). cbn. bool_case; lia.
Qed.

(** C4: Under every interleaving of any number of requests, transport failures, panics
    and gate flips, a target's in-flight counter equals the requests holding a slot on
    it and never exceeds a positive MaxConcurrent. *)
Theorem lc_cap_hard targets g reqs s qs :
  (forall tg, tg ∈ targets -> MaxConcurrent tg < 2 ^ 63) -> closing reqs ->
  rtc (pstep gate_step) (zero (init targets) g, spawn (init targets) reqs) (s, qs) ->
  forall p tg, targets !! p = Some tg ->
    active_of p s = i64 (taken p s) /\
    (0 < MaxConcurrent tg -> 0 <= active_of p s <= MaxConcurrent tg).
Proof.
  intros Hm Hcl Hr p tg Hp. pose proof (init_caps targets Hm) as Hcaps.
  destruct (lc_spawn_ok (init targets) Hcaps g reqs Hcl) as [HI0 Hps0].
  pose proof (gate_rg (init targets)) as RG.
  destruct (pool_sound gate_step R G (Inv (init targets)) _ _ _ _ _ HI0 Hps0 Hr) as [(Hl & Hok & _) _].
  destruct (Hok p (init_peer tg)) as [Ha Hc]; [unfold init; by rewrite list_lookup_fmap, Hp|].
  assert (active_of p s = i64 (taken p s)) as Hao by (unfold active_of; by rewrite Ha).
  split; [done|]. intros Hpos. cbn in Hc. rewrite (proj2 (Z.ltb_lt _ _)) in Hc by done.
  specialize (Hc ltac:(lia)). pose proof (count_eq_nonneg p (held s)). unfold taken in *.
  specialize (Hm tg ltac:(by eapply list_elem_of_lookup_2)).
  rewrite Hao, i64_small by lia. lia.
Qed.

(** C5: When every request has finished and closed its body (any number of times),
    every in-flight counter is back to zero: slots are released exactly once, on
    errors and panics too. *)
Theorem lc_all_slots_return targets g reqs s qs :
  (forall tg, tg ∈ targets -> MaxConcurrent tg < 2 ^ 63) -> closing reqs ->
  rtc (pstep gate_step) (zero (init targets) g, spawn (init targets) reqs) (s, qs) ->
  (forall q, q ∈ qs -> exists r, q = Ret r) ->
  forall p, (p < length targets)%nat -> active s !! p = Some 0.
Proof.
  intros Hm Hcl Hr Hdone p Hp. pose proof (init_caps targets Hm) as Hcaps.
  pose proof (lc_spawn_ok (init targets) Hcaps g reqs Hcl) as Hok0. destruct Hok0 as [HI0 Hps0].
  pose proof (gate_rg (init targets)) as RG.
  destruct (pool_sound gate_step R G (Inv (init targets)) _ _ _ _ _ HI0 Hps0 Hr) as [(Hl & Hok & _) Hgone].
  destruct (lookup_lt_is_Some_2 targets p Hp) as [tg Htg].
  destruct (Hok p (init_peer tg)) as [-> _]; [unfold init; by rewrite list_lookup_fmap, Htg|].
  assert (taken p s = 0) as ->; [|done].
  apply count_eq_zero. intros j q Hq. exfalso. enough (gone j s) by (unfold gone in *; congruence).
  destruct (qs !! j) as [x|] eqn:Hj.
  - destruct (Hdone x ltac:(by eapply list_elem_of_lookup_2)) as [r ->]. by eapply Hgone.
  - destruct (pool_rely gate_step R G (Inv (init targets)) _ _ _ j Hr (conj HI0 Hps0)) as [[HR _] _].
    + cbn. apply lookup_ge_None. apply lookup_ge_None in Hj.
      pose proof (rtc_pool_length _ _ _ Hr) as Hlen. cbn in Hlen. lia.
    + cbn in HR. unfold gone. by rewrite HR.
Qed.

(** ** Selection, for a goroutine that runs alone *)

Section Select.
Context (ps : list lcPeer).
Context (Hw : forall c, c ∈ ps -> 1 <= weight c).

Definition open_to (fo : bool) (s : shared) (p : nat) : bool := fo || up (gate s) (Z.of_nat p).

Definition eligible (fo : bool) (s : shared) (p : nat) (c : lcPeer) : Prop :=
  ps !! p = Some c /\ open_to fo s p = true /\ (cap c = 0 \/ active_of p s < cap c).

(** [active p / weight p <= active q / weight q], cross-multiplied. *)
Definition lighter (a : Z) (c : lcPeer) (b : Z) (d : lcPeer) : Prop := a * weight d <= b * weight c.

Lemma lighter_trans a c b d e f :
  1 <= weight c -> 1 <= weight d -> 1 <= weight f ->
  lighter a c b d -> lighter b d e f -> lighter a c e f.
Proof. unfold lighter. intros. nia. Qed.

(** No product of the scan overflows. *)
Definition in_range (s : shared) : Prop :=
  forall p c q d, ps !! p = Some c -> ps !! q = Some d -> 0 <= active_of p s * weight d < 2 ^ 63.

Definition best_ok (fo : bool) (s : shared) (best : option (nat * lcPeer * Z)) : Prop :=
  match best with
  | None => True
  | Some (p, c, a) => eligible fo s p c /\ a = active_of p s
  end.

Definition beats (s : shared) (best : option (nat * lcPeer * Z)) (q : nat) (d : lcPeer) : Prop :=
  match best with
  | None => False
  | Some (_, c, a) => lighter a c (active_of q s) d
  end.

(** One iteration of the scan, as a function of the snapshot. *)
Definition consider (fo : bool) (s : shared) (acc : option (nat * lcPeer * Z) * bool) (k : Z)
    : option (nat * lcPeer * Z) * bool :=
  let '(best, saw) := acc in
  let p := Z.to_nat k in
  match ps !! p with
  | None => acc
  | Some c =>
      if negb (open_to fo s p) then acc
      else
        let saw := if fo then saw else true in
        let a := active_of p s in
        if negb (cap c =? 0) && (cap c <=? a) then (best, saw)
        else
          let take := match best with
                      | None => true
                      | Some (_, bc, bestA) => i64 (a * weight bc) <? i64 (bestA * weight c)
                      end in
          (if take then Some (p, c, a) else best, saw)
  end.

Lemma run_scan fo ks best saw s :
  (forall k, k ∈ ks -> 0 <= k < Z.of_nat (length ps)) ->
  run (scan_peers ps fo ks best saw) s = (s, Some (foldl (consider fo s) (best, saw) ks)).
Proof.
  revert best saw. induction ks as [|k ks IH]; intros best saw Hks; cbn [scan_peers foldl]; [done|].
  assert (0 <= k < Z.of_nat (length ps)) as Hk by (apply Hks; left).
  destruct (lookup_lt_is_Some_2 ps (Z.to_nat k)) as [c Hc]; [lia|].
  unfold consider at 2. rewrite Hc, run_bind.
  assert (run (if fo then Ret true else load (fun s => up (gate s) k)) s =
    (s, Some (open_to fo s (Z.to_nat k)))) as ->.
  { unfold open_to. rewrite Z2Nat.id by lia. by destruct fo. }
  assert (forall x, x ∈ ks -> 0 <= x < Z.of_nat (length ps)) as Hks' by (intros; apply Hks; by right).
  destruct (open_to fo s (Z.to_nat k)); cbn [negb]; [|by apply IH].
  cbn [run bind load id]. destruct (negb (cap c =? 0) && _); by apply IH.
Qed.

Lemma eligible_weight fo s p c : eligible fo s p c -> 1 <= weight c.
Proof. intros [Hc _]. apply Hw. by eapply list_elem_of_lookup_2. Qed.

(** An iteration keeps the candidate the lightest eligible peer seen. *)
Lemma consider_ok fo s best saw k :
  in_range s -> best_ok fo s best ->
  let best' := (consider fo s (best, saw) k).1 in
  best_ok fo s best' /\
  (forall q d, 1 <= weight d -> beats s best q d -> beats s best' q d) /\
  (forall d, eligible fo s (Z.to_nat k) d -> beats s best' (Z.to_nat k) d).
Proof.
  intros Hr Hb best'. unfold best', consider. destruct (ps !! Z.to_nat k) as [c|] eqn:Hc;
    [|split; [done|split; [done|intros d [Hd _]; congruence]]].
  destruct (open_to fo s (Z.to_nat k)) eqn:Ho; cbn [negb];
    [|split; [done|split; [done|intros d (_ & Hd & _); congruence]]].
  destruct (negb (cap c =? 0) && (cap c <=? active_of (Z.to_nat k) s)) eqn:Hcap; cbn [fst].
  { split; [done|split; [done|]]. intros d (Hd & _ & Hel). assert (d = c) as -> by congruence.
    bool_prop. lia. }
  assert (eligible fo s (Z.to_nat k) c) as Hel.
  { split; [done|split; [done|]]. apply andb_false_iff in Hcap as [?|?]; bool_prop; auto. }
  pose proof (eligible_weight _ _ _ _ Hel) as Hwc.
  assert (forall d, eligible fo s (Z.to_nat k) d -> d = c) as Huniq by (intros d [Hd _]; congruence).
  destruct best as [[[p bc] bestA]|]; cbn in Hb.
  2:{ cbn. split; [done|split; [done|]]. intros d ->%Huniq. unfold lighter. lia. }
  destruct Hb as [Hbe ->]. pose proof (eligible_weight _ _ _ _ Hbe) as Hwb. pose proof Hbe as (Hbc & _).
  pose proof (Hr _ _ _ _ Hc Hbc). pose proof (Hr _ _ _ _ Hbc Hc). rewrite !i64_small by lia.
  destruct (_ <? _) eqn:E; bool_prop; cbn; (split; [done|split]).
  - intros q d Hd Hq. eapply lighter_trans; [..|exact Hq]; [done..|]. unfold lighter. lia.
  - intros d ->%Huniq. unfold lighter. lia.
  - done.
  - intros d ->%Huniq. unfold lighter. lia.
Qed.

Lemma fold_consider_ok fo s ks best saw :
  in_range s -> best_ok fo s best ->
  let best' := (foldl (consider fo s) (best, saw) ks).1 in
  best_ok fo s best' /\
  (forall q d, 1 <= weight d -> beats s best q d -> beats s best' q d) /\
  (forall k d, k ∈ ks -> eligible fo s (Z.to_nat k) d -> beats s best' (Z.to_nat k) d).
Proof.
  intros Hr. revert best saw. induction ks as [|k ks IH]; intros best saw Hb; cbn [foldl].
  { split; [done|split; [done|]]. by intros k d ?%elem_of_nil. }
  destruct (consider_ok fo s best saw k Hr Hb) as (H1 & H2 & H3).
  destruct (consider fo s (best, saw) k) as [b1 s1]. cbn in H1, H2, H3.
  destruct (IH b1 s1 H1) as (H4 & H5 & H6). split; [done|split; [auto|]].
  intros x d [->|Hx]%elem_of_cons Hd; [|auto]. apply H5; [by eapply eligible_weight|auto].
Qed.

Lemma fold_consider_saw fo s ks best saw :
  (forall k, k ∈ ks -> 0 <= k < Z.of_nat (length ps)) ->
  (foldl (consider fo s) (best, saw) ks).2 = saw || (negb fo && existsb (up (gate s)) ks).
Proof.
  revert best saw. induction ks as [|k ks IH]; intros best saw Hks; cbn [foldl existsb].
  { by rewrite andb_false_r, orb_false_r. }
  assert (0 <= k < Z.of_nat (length ps)) as Hk by (apply Hks; left).
  assert (forall x, x ∈ ks -> 0 <= x < Z.of_nat (length ps)) as Hks' by (intros; apply Hks; by right).
  assert ((consider fo s (best, saw) k).2 = saw || (negb fo && up (gate s) k)) as E.
  { unfold consider. destruct (lookup_lt_is_Some_2 ps (Z.to_nat k)) as [c ->]; [lia|].
    unfold open_to. rewrite Z2Nat.id by lia.
    destruct fo, (up (gate s) k), saw; cbn [orb negb andb snd]; try done; by destruct (negb (cap c =? 0) && _). }
  destruct (consider fo s (best, saw) k) as [b1 s1]. cbn in E. rewrite IH by done. rewrite E.
  destruct fo, (up (gate s) k), saw; cbn; by rewrite ?orb_true_r.
Qed.

Lemma run_claim fuel me p c s :
  cap c = 0 \/ active_of p s < cap c ->
  run (claim (S fuel) me p c (active_of p s)) s =
  (hold me p (set_active p (i64 (active_of p s + 1)) s), Some true).
Proof.
  intros H. unfold claim. destruct (cap c =? 0) eqn:E; bool_prop; [done|].
  cbn [claim_cas]. rewrite (proj2 (Z.leb_gt _ _)) by lia. cbn. by rewrite Z.eqb_refl.
Qed.

(** What [pick] promises for the snapshot [s]. *)
Definition pick_spec (s s' : shared) (r : option (nat + ShedReason)) : Prop :=
  match r with
  | Some (inl p) =>
      exists c fo, eligible fo s p c /\
        (fo = true -> forall q, (q < length ps)%nat -> up (gate s) (Z.of_nat q) = false) /\
        (forall q d, eligible fo s q d -> lighter (active_of p s) c (active_of q s) d) /\
        active s' = <[p := i64 (active_of p s + 1)]> (active s)
  | Some (inr ShedSaturated) =>
      (exists q, (q < length ps)%nat /\ up (gate s) (Z.of_nat q) = true) /\
      forall q c, ~ eligible false s q c
  | Some (inr ShedAllDark) =>
      (forall q, (q < length ps)%nat -> up (gate s) (Z.of_nat q) = false) /\
      forall q c, ~ eligible true s q c
  | _ => False
  end.

Definition dark (s : shared) : Prop :=
  forall q, (q < length ps)%nat -> up (gate s) (Z.of_nat q) = false.

Lemma ring_dark s ring :
  (forall k, k ∈ ring <-> 0 <= k < Z.of_nat (length ps)) ->
  if existsb (up (gate s)) ring
  then exists q, (q < length ps)%nat /\ up (gate s) (Z.of_nat q) = true
  else dark s.
Proof.
  intros Hring. destruct (existsb (up (gate s)) ring) eqn:Hx.
  - apply existsb_exists in Hx as (k & Hk & Hu). apply list_elem_of_In, Hring in Hk.
    exists (Z.to_nat k). split; [lia|]. by rewrite Z2Nat.id by lia.
  - intros q Hq. apply not_true_iff_false. intros Hu. apply not_true_iff_false in Hx. apply Hx.
    apply existsb_exists. exists (Z.of_nat q). split; [|done]. apply list_elem_of_In, Hring. lia.
Qed.

(** One iteration of [pick]'s outer loop: it decides, or turns to fail-open. *)
Lemma run_pick_once fo n me ring s :
  in_range s -> (forall k, k ∈ ring <-> 0 <= k < Z.of_nat (length ps)) -> (fo = true -> dark s) ->
  let '(s', r) := run (pick_loop (S (S n)) ps me ring fo) s in
  pick_spec s s' r \/ (fo = false /\ dark s /\ (s', r) = run (pick_loop (S n) ps me ring true) s).
Proof.
  intros Hr Hring Hfo. cbn [pick_loop]. rewrite run_bind, run_scan by (intros; by apply Hring).
  pose proof (fold_consider_ok fo s ring None false Hr I) as (Hb & _ & He).
  pose proof (fold_consider_saw fo s ring None false ltac:(intros; by apply Hring)) as Hs. cbn [orb] in Hs.
  assert (forall q d, eligible fo s q d -> Z.of_nat q ∈ ring) as Hin.
  { intros q d [Hq _]. apply Hring. apply lookup_lt_Some in Hq. lia. }
  destruct (foldl (consider fo s) (None, false) ring) as [[[[p c] a]|] saw]; cbn in Hb, He, Hs.
  - destruct Hb as [Hel ->]. pose proof Hel as (_ & _ & Hcap). rewrite run_bind, run_claim by done. cbn [run].
    left. exists c, fo. split; [done|]. split; [done|]. split; [|done].
    intros q d Hq. pose proof (Hin q d Hq). rewrite <- (Nat2Z.id q) in Hq |- *. by apply He.
  - assert (forall q d, ~ eligible fo s q d) as Hno.
    { intros q d Hq. pose proof (Hin q d Hq). rewrite <- (Nat2Z.id q) in Hq. by eapply He. }
    pose proof (ring_dark s ring Hring) as Hd.
    destruct fo; cbn [negb andb] in *; subst saw; [left; cbn; by split; [apply Hfo|]|].
    destruct (existsb (up (gate s)) ring); cbn [negb]; [by left|].
    by destruct (run _ s) as [s' r]; right.
Qed.

Lemma run_pick_loop fuel me ring s :
  in_range s -> (forall k, k ∈ ring <-> 0 <= k < Z.of_nat (length ps)) ->
  let '(s', r) := run (pick_loop (S (S (S fuel))) ps me ring false) s in pick_spec s s' r.
Proof.
  intros Hr Hring. pose proof (run_pick_once false (S fuel) me ring s Hr Hring ltac:(done)) as H1.
  destruct (run (pick_loop (S (S (S fuel))) _ _ _ _) s) as [s' r].
  destruct H1 as [?|(_ & Hd & E)]; [done|].
  pose proof (run_pick_once true fuel me ring s Hr Hring (fun _ => Hd)) as H2.
  rewrite <- E in H2. by destruct H2 as [?|[? _]].
Qed.

End Select.

(** A pick that runs alone terminates and claims an under-cap target with minimal
    active/weight among those the gate leaves up; it sheds as saturated only if an up
    target exists and all are at cap, ignores the gate only if every target is down,
    and sheds as all-dark only if then all are at cap. *)
Theorem lc_pick_least targets fuel me s :
  let ps := init targets in
  (0 < length ps)%nat -> Z.of_nat (length ps) < 2 ^ 32 -> 0 <= cursor s < 2 ^ 32 -> in_range ps s ->
  let '(s', r) := run (pick (3 + fuel) ps me) s in pick_spec ps s s' r.
Proof.
  intros ps Hn Hn' Hc Hr. unfold pick. cbn [run bind rmw].
  rewrite RoundRobinFacts.cursor_back by done.
  set (s1 := mkShared (u32 (cursor s + 1)) (active s) (gate s) (fired s) (held s)).
  pose proof (run_pick_loop ps) as H.
  specialize (H ltac:(intros c (tg & -> & _)%list_elem_of_fmap; apply effectiveWeight_pos)).
  apply (H fuel me (ring_u64 (cursor s) (Z.of_nat (length ps))) s1 Hr).
  intros k. split; [intros Hk; apply ring_u64_range in Hk; lia|].
  intros Hk. apply ring_u64_complete; lia.
Qed.

(** ** Witnesses *)

Definition demo_targets : list Target :=
  [mkTarget (fun _ => Panicked) "a" 1 1; mkTarget (fun _ => Panicked) "b" 2 2].
Definition demo_ok : outcome := Returned (Some (mkResponse 200 ∅ (Some (mkBody false "x")))) None.
Definition demo_reqs : list (nat * outcome * nat) :=
  [(5, demo_ok, 2); (5, Panicked, 0); (5, demo_ok, 1); (5, demo_ok, 1)]%nat.
Definition demo_start := (zero (init demo_targets) None, spawn (init demo_targets) demo_reqs).
Definition demo_mid := exec [0; 1; 2; 3; 0; 1; 2; 3; 0; 1; 2; 3; 0; 1; 2; 3; 0; 1; 2; 3; 0; 1; 2; 3; 3; 3; 2; 2; 2; 2; 2; 2]%nat demo_start.
Definition demo_end := exec (replicate 30 0 ++ replicate 30 1 ++ replicate 30 2 ++ replicate 30 3)%nat demo_start.

Lemma demo_caps tg : tg ∈ demo_targets -> MaxConcurrent tg < 2 ^ 63.
Proof. intros H. repeat (apply elem_of_cons in H as [->|H]; [done|]). by apply elem_of_nil in H. Qed.

Lemma demo_closing : closing demo_reqs.
Proof.
  intros f o n H. repeat (apply elem_of_cons in H as [[= -> -> ->]|H]; [cbn; (done || lia)|]).
  by apply elem_of_nil in H.
Qed.

Lemma lc_cap_hard_witness :
  active demo_mid.1 = [1; 2] /\
  (active_of 1 demo_mid.1 = i64 (taken 1 demo_mid.1) /\
   (0 < 2 -> 0 <= active_of 1 demo_mid.1 <= 2)).
Proof.
  split; [vm_compute; reflexivity|].
  apply (lc_cap_hard demo_targets None demo_reqs demo_mid.1 demo_mid.2) with
    (tg := mkTarget (fun _ => Panicked) "b" 2 2); [apply demo_caps|apply demo_closing| |reflexivity].
  rewrite <- surjective_pairing. apply (exec_rtc gate_step).
Defined.

Lemma lc_all_slots_return_witness : active demo_end.1 !! 1%nat = Some 0.
Proof.
  apply (lc_all_slots_return demo_targets None demo_reqs demo_end.1 demo_end.2);
    [apply demo_caps|apply demo_closing| | |cbn; lia].
  - rewrite <- surjective_pairing. apply (exec_rtc gate_step).
  - intros q Hq. vm_compute in Hq.
    repeat (apply elem_of_cons in Hq as [->|Hq]; [by eexists|]). by apply elem_of_nil in Hq.
Defined.

(** Peer b carries 1 request on weight 2, peer a none: a is lighter. *)
Definition demo_load : shared := mkShared 7 [0; 1] (Some [true; true]) ∅ ∅.

Lemma lc_pick_least_witness :
  let '(s', r) := run (pick 3 (init demo_targets) 0) demo_load in
  pick_spec (init demo_targets) demo_load s' r /\ r = Some (inl 0%nat).
Proof.
  pose proof (lc_pick_least demo_targets 0 0 demo_load ltac:(cbn; lia) ltac:(cbn; lia) ltac:(cbn; lia)) as H.
  destruct (run (pick 3 (init demo_targets) 0) demo_load) as [s' r] eqn:E.
  split; [|vm_compute in E; by injection E as _ <-].
  cbn [Nat.add] in H. rewrite E in H. apply H.
  intros [|[|p]] c [|[|q]] d Hc Hd; cbn in Hc, Hd; simplify_eq; vm_compute; split; congruence.
Defined.

End LeastConnFacts.
