(* ===== verification/Ejecting.v ===== *)
(** * pkg/upstream: the passively ejecting balancer

    [src/pkg/upstream/ejecting.go]: per-target failure counting, ejection for a
    backed-off cooldown by compare-and-swap, recovery by swap, and a round-robin
    pick that skips ejected and gated-down targets and fails open. *)

From S2P Require Import Prelude Http Concurrency UpstreamState RoundRobin.

Local Open Scope go_scope.

Module Ejecting.

Record config := mkConfig {
  MaxFails : Z;
  EjectTimeout : Z;
  MaxEjectTimeout : Z;
  IsFailure : option (option Response -> option error -> bool);
}.

Definition defaultMaxFails : Z := 3.
Definition defaultEjectTimeout : Z := 30 * Second.
Definition defaultMaxEjectTimeout : Z := 5 * Minute.

Definition init_config (c : config) : config :=
  let mf := if MaxFails c <=? 0 then defaultMaxFails else MaxFails c in
  let et := if EjectTimeout c <=? 0 then defaultEjectTimeout else EjectTimeout c in
  let mt := if MaxEjectTimeout c <=? 0 then defaultMaxEjectTimeout else MaxEjectTimeout c in
  let mt := if mt <? et then et else mt in
  mkConfig mf et mt (IsFailure c).

Definition ejectionTimeout (c : config) (e : Z) : Z := backoff (EjectTimeout c) (MaxEjectTimeout c) e.

Record ejectTarget := mkEject { fails : Z; ejections : Z; ejectedUntil : Z }.

(** A change of the ejection deadline: an ejection decided at a time, up to a
    deadline, or a recovery. *)
Inductive change := Ejected (at_ until : Z) | Recovered.

(** What the goroutines of one target share; [changes] is an auxiliary log, newest
    first, that no code reads. *)
Record shared := mkShared {
  cells : ejectTarget;
  clock : Z;
  events : list (State * State * Reason);
  changes : list change;
}.

Definition zero (now : Z) : shared := mkShared (mkEject 0 0 0) now [] [].

Definition set_fails (v : Z) (b : ejectTarget) : ejectTarget := mkEject v (ejections b) (ejectedUntil b).
Definition set_ejections (v : Z) (b : ejectTarget) : ejectTarget := mkEject (fails b) v (ejectedUntil b).
Definition set_ejectedUntil (v : Z) (b : ejectTarget) : ejectTarget := mkEject (fails b) (ejections b) v.

Definition upd (f : ejectTarget -> ejectTarget) (s : shared) : shared :=
  mkShared (f (cells s)) (clock s) (events s) (changes s).
Definition log (x : change) (s : shared) : shared :=
  mkShared (cells s) (clock s) (events s) (x :: changes s).

Definition Load (f : ejectTarget -> Z) : prog shared Z := load (fun s => f (cells s)).
Definition Store (set : Z -> ejectTarget -> ejectTarget) (v : Z) : prog shared unit := store (upd (set v)).
Definition Now : prog shared Z := load clock.
Definition emit (from to : State) (r : Reason) : prog shared unit :=
  store (fun s => mkShared (cells s) (clock s) (events s ++ [(from, to, r)]) (changes s)).

(** [t.ejectedUntil.CompareAndSwap(prev, until)], decided at time [now]. *)
Definition cas_until (prev now until : Z) : prog shared bool :=
  Atomic (fun s => if ejectedUntil (cells s) =? prev
                   then log (Ejected now until) (upd (set_ejectedUntil until) s) else s)
         (fun s => Ret (ejectedUntil (cells s) =? prev)).

(** [t.ejectedUntil.Swap(0)]: the old value. *)
Definition swap_until : prog shared Z :=
  Atomic (fun s => log Recovered (upd (set_ejectedUntil 0) s))
         (fun s => Ret (ejectedUntil (cells s))).

Definition eject (fuel : nat) (c : config) : prog shared unit :=
  Store set_fails 0 ;;
  now <- Now ;;
  loop fuel
    (prev <- Load ejectedUntil ;;
     if now <? prev then Ret (Some tt)
     else
       k <- Load ejections ;;
       let e := i32 (k + 1) in
       let until := i64 (now + ejectionTimeout c e) in
       ok <- cas_until prev now until ;;
       if (ok : bool) then
         Store set_ejections e ;;
         emit (if prev =? 0 then StateClosed else StateOpen) StateOpen ReasonEject ;;
         Ret (Some tt)
       else Ret None).

Definition record (fuel : nat) (c : config) (resp : option Response) (err : option error)
    : prog shared unit :=
  if failed (IsFailure c) resp err then
    n <- rmw (fun s => i32 (fails (cells s) + 1)) (upd (fun b => set_fails (i32 (fails b + 1)) b)) ;;
    if MaxFails c <=? n then eject fuel c else Ret tt
  else
    f <- Load fails ;;
    dirty <- (if negb (f =? 0) then Ret true
              else e <- Load ejections ;;
                   if negb (e =? 0) then Ret true
                   else u <- Load ejectedUntil ;; Ret (negb (u =? 0))) ;;
    if (dirty : bool) then
      old <- swap_until ;;
      Store set_fails 0 ;;
      Store set_ejections 0 ;;
      (if negb (old =? 0) then emit StateOpen StateClosed ReasonRecover else Ret tt)
    else Ret tt.

(** ** The balancer, one request at a time *)

Record t := mk {
  i : Z;
  targets : list shared;
  gate : Gate;
  Targets : list Target;
  cfg : config;
}.

Definition New (c : config) (g : Gate) (tgs : list Target) : t :=
  mk 0 ((fun _ => zero 0) <$> tgs) g tgs (init_config c).

Definition setHealthGate (g : list bool) (l : t) : t := mk (i l) (targets l) (Some g) (Targets l) (cfg l).

(** [t.ejectedUntil.Load() <= now && l.up(idx)]. *)
Definition selectable (l : t) (now idx : Z) : bool :=
  match targets l !! Z.to_nat idx with
  | Some s => (ejectedUntil (cells s) <=? now) && up (gate l) idx
  | None => false
  end.

(** The index [pick] returns, and the cursor after it. *)
Definition pick (l : t) (now : Z) : Z * Z :=
  let n := Z.of_nat (length (targets l)) in
  let i' := u32 (i l + 1) in
  let start := u32 (i' - 1) in
  (i', match scan (selectable l now) (ring_u32 start n) with
       | Some idx => idx
       | None => start mod n
       end).

Definition set_clock (now : Z) (s : shared) : shared :=
  mkShared (cells s) now (events s) (changes s).

Definition RoundTrip (fuel : nat) (l : t) (now now' : Z) (r : Request) : t * option outcome :=
  if Z.of_nat (length (targets l)) =? 0 then (l, Some (Returned None (Some ErrUnavailable)))
  else
    let '(i', idx) := pick l now in
    let l' := mk i' (targets l) (gate l) (Targets l) (cfg l) in
    match Targets l !! Z.to_nat idx, targets l !! Z.to_nat idx with
    | Some tg, Some s =>
        match Transport tg (with_url_host (Host tg) r) with
        | Panicked => (l', Some Panicked)
        | Returned resp err =>
            match run (record fuel (cfg l) resp err) (set_clock now' s) with
            | (s', Some _) =>
                (mk i' (<[Z.to_nat idx := s']> (targets l)) (gate l) (Targets l) (cfg l),
                 Some (Returned resp err))
            | (s', None) => (l', None)
            end
        end
    | _, _ => (l', Some Panicked)
    end.

End Ejecting.

Module EjectingFacts.
Import Ejecting.

(** ** Selection *)

(** When the cursor does not wrap inside the scan, pick returns the first target
    in cursor order that is neither ejected nor gated down, and falls open to the
    cursor's own slot exactly when there is none. *)
Theorem ej_pick_first_selectable l now :
  targets l <> [] -> 0 <= i l < 2 ^ 32 ->
  RoundRobinFacts.no_wrap (i l) (Z.of_nat (length (targets l))) ->
  let n := Z.of_nat (length (targets l)) in
  let idx := (pick l now).2 in
  (exists k, 0 <= k < n /\ idx = (i l + k) mod n /\ selectable l now idx = true /\
     forall k', 0 <= k' < k -> selectable l now ((i l + k') mod n) = false) \/
  ((forall j, 0 <= j < n -> selectable l now j = false) /\ idx = i l mod n).
Proof.
  intros Hne Hi Hw n idx. unfold idx, pick. cbn. rewrite RoundRobinFacts.cursor_back by done. fold n.
  assert (0 < n) by (unfold n; destruct (targets l); [done|cbn; lia]).
  pose proof (scan_ring_spec (selectable l now) (i l) n ltac:(lia) ltac:(lia) Hw) as H1.
  destruct (scan _ _) as [x|]; [left|right]; done.
Qed.

(** ** One ejection per down-window *)

Definition tick (s s' : shared) : Prop := exists now, clock s <= now /\ s' = set_clock now s.

(** Ejections that no recovery separates have disjoint windows, and [until] is the
    deadline in force. *)
Fixpoint windows (cs : list change) (until : Z) : Prop :=
  match cs with
  | [] => until = 0
  | Recovered :: cs => until = 0 /\ exists u, windows cs u
  | Ejected at_ u :: cs => until = u /\ exists u', u' <= at_ /\ windows cs u'
  end.

Definition Inv (s : shared) : Prop := windows (changes s) (ejectedUntil (cells s)).
Definition G (_ : nat) (_ _ : shared) : Prop := True.

Lemma ej_tick_rg : RelyGuarantee tick G G Inv.
Proof. split; try done. by intros s s' (now & _ & ->) HI. Qed.

(** Every action of a goroutine preserves the invariant. *)
Fixpoint inv_ok {A} (p : prog shared A) : Prop :=
  match p with
  | Ret _ | Spin => True
  | Atomic u k => (forall s, Inv s -> Inv (u s)) /\ forall s, inv_ok (k s)
  end.

Lemma inv_ok_bind {A B} (p : prog shared A) (f : A -> prog shared B) :
  inv_ok p -> (forall a, inv_ok (f a)) -> inv_ok (bind p f).
Proof. intros Hp Hf. induction p as [a|u k IH|]; cbn in *; naive_solver. Qed.

Lemma inv_ok_loop {A} fuel (body : prog shared (option A)) : inv_ok body -> inv_ok (loop fuel body).
Proof.
  intros H. induction fuel as [|fuel IH]; cbn [loop]; [done|].
  apply inv_ok_bind; [done|]. by intros [a|].
Qed.

Lemma inv_ok_rg {A} j (p : prog shared A) s : inv_ok p -> rg G G Inv j p (fun _ _ => True) s.
Proof.
  revert s. induction p as [a|u k IH|]; intros s H; cbn in *; [done| |done].
  destruct H as [Hu Hk]. intros s' _ HI. split; [split; [done|by apply Hu]|by apply IH].
Qed.

Lemma inv_ok_eject fuel c : inv_ok (eject fuel c).
Proof.
  unfold eject. apply inv_ok_bind; [by split|]. intros _.
  apply inv_ok_bind; [by split|]. intros now. apply inv_ok_loop.
  apply inv_ok_bind; [by split|]. intros prev. destruct (now <? prev) eqn:E; [done|]. bool_prop.
  apply inv_ok_bind; [by split|]. intros k. apply inv_ok_bind.
  - split; [|done]. intros s HI. destruct (_ =? prev) eqn:Ep; [|done]. bool_prop.
    unfold Inv in *. cbn. split; [done|]. exists prev. split; [lia|]. by rewrite <- Ep.
  - intros []; [|done]. repeat (apply inv_ok_bind; [by split|]; intros _). done.
Qed.

Lemma inv_ok_record fuel c resp err : inv_ok (record fuel c resp err).
Proof.
  unfold record. destruct (failed _ _ _).
  - apply inv_ok_bind; [by split|]. intros n. destruct (_ <=? n); [apply inv_ok_eject|done].
  - apply inv_ok_bind; [by split|]. intros f. apply inv_ok_bind.
    { destruct (negb (f =? 0)); [done|]. apply inv_ok_bind; [by split|]. intros e.
      destruct (negb (e =? 0)); [done|]. by apply inv_ok_bind; [split|]. }
    intros []; [|done]. apply inv_ok_bind.
    { split; [|done]. intros s HI. split; [done|]. by eexists. }
    intros old. do 2 (apply inv_ok_bind; [by split|]; intros _). by destruct (negb (old =? 0)).
Qed.

(** One goroutine per finished round trip on this target. *)
Definition spawn (c : config) (rs : list (nat * option Response * option error)) : list (prog shared unit) :=
  (fun r => record r.1.1 c r.1.2 r.2) <$> rs.

(** Under every interleaving of round-trip results on one target, ejections that
    no recovery separates have disjoint windows: each is decided at or after the
    previous deadline, so a burst of failures ejects once. *)
Theorem ej_windows_disjoint c now rs s ps :
  rtc (pstep tick) (zero now, spawn (init_config c) rs) (s, ps) ->
  windows (changes s) (ejectedUntil (cells s)).
Proof.
  intros Hr. pose proof ej_tick_rg as RG.
  eapply (pool_sound tick G G Inv (fun _ _ _ => True)); [| |exact Hr]; [done|].
  intros j p Hp. unfold spawn in Hp. rewrite list_lookup_fmap in Hp.
  apply fmap_Some in Hp as (r & _ & ->). apply inv_ok_rg, inv_ok_record.
Qed.

(** ** Backoff over consecutive ejections *)

(** [n] failed round trips at time [now]. *)
Fixpoint fail_n (fuel n : nat) (c : config) (now : Z) (s : shared) : shared :=
  match n with
  | O => s
  | S n => fail_n fuel n c now (run (record fuel c None (Some (ErrOther "down"))) (set_clock now s)).1
  end.

(** A round of [MaxFails] failures at each of the given times. *)
Fixpoint rounds (fuel : nat) (c : config) (ts : list Z) (s : shared) : shared :=
  match ts with
  | [] => s
  | now :: ts => rounds fuel c ts (fail_n fuel (Z.to_nat (MaxFails c)) c now s)
  end.

Lemma run_record_fail fuel c now s :
  IsFailure c = None -> 0 <= fails (cells s) < MaxFails c -> MaxFails c <= max_i32 ->
  exists s', run (record (S fuel) c None (Some (ErrOther "down"))) (set_clock now s) = (s', Some tt) /\
    (fails (cells s) + 1 < MaxFails c ->
       cells s' = set_fails (fails (cells s) + 1) (cells s)) /\
    (fails (cells s) + 1 = MaxFails c -> ejectedUntil (cells s) <= now ->
       let e := i32 (ejections (cells s) + 1) in
       cells s' = mkEject 0 e (i64 (now + ejectionTimeout c e))) /\
    (fails (cells s) + 1 = MaxFails c -> now < ejectedUntil (cells s) ->
       cells s' = set_fails 0 (cells s)).
Proof.
  intros Hf Hr Hm. unfold max_i32 in Hm. unfold record, failed. rewrite Hf.
  change (errors_is (ErrOther "down") ErrCanceled) with false.
  cbn -[eject i32]. rewrite (i32_small (fails (cells s) + 1)) by lia.
  destruct (MaxFails c <=? fails (cells s) + 1) eqn:E; bool_prop.
  - destruct (now <? ejectedUntil (cells s)) eqn:Eu.
    + eexists. split; [unfold eject; cbn; rewrite Eu; done|]. bool_prop.
      split; [intros; lia|]. split; [intros; lia|]. done.
    + eexists. split; [unfold eject; cbn; rewrite Eu; cbn; rewrite Z.eqb_refl; done|]. bool_prop.
      split; [intros; lia|]. split; [done|intros; lia].
  - eexists. split; [done|]. cbn. rewrite i32_small by lia. split; [done|]. split; intros; lia.
Qed.

Lemma fail_n_ejects fuel n c now s :
  IsFailure c = None -> MaxFails c <= max_i32 -> 0 <= fails (cells s) ->
  fails (cells s) + Z.of_nat (S n) = MaxFails c -> ejectedUntil (cells s) <= now ->
  let e := i32 (ejections (cells s) + 1) in
  cells (fail_n (S fuel) (S n) c now s) = mkEject 0 e (i64 (now + ejectionTimeout c e)).
Proof.
  intros Hf Hm. revert s. induction n as [|n IH]; intros s H0 Hn Hu; cbn [fail_n];
    destruct (run_record_fail fuel c now s) as (s' & -> & H1 & H2 & _); [done|lia|done| |done|lia|done|].
  - cbn [fst]. apply H2; [lia|done].
  - cbn [fst]. specialize (H1 ltac:(lia)).
    assert (fails (cells s') = fails (cells s) + 1) as Ef by (by rewrite H1).
    assert (ejections (cells s') = ejections (cells s)) as Ee by (by rewrite H1).
    assert (ejectedUntil (cells s') = ejectedUntil (cells s)) as Eu by (by rewrite H1).
    rewrite <- Ee. apply (IH s'); lia.
Qed.

(** The times of the rounds: each at or after the previous cooldown's end, and no
    sum overflows. *)
Fixpoint spaced (c : config) (e until : Z) (ts : list Z) : Prop :=
  match ts with
  | [] => True
  | now :: ts => until <= now /\ 0 <= now < 2 ^ 62 /\
      spaced c (e + 1) (now + Z.min (EjectTimeout c * 2 ^ e) (MaxEjectTimeout c)) ts
  end.

Lemma ej_init_config_ok c :
  let c' := init_config c in
  0 < MaxFails c' /\ 0 < EjectTimeout c' <= MaxEjectTimeout c'.
Proof.
  unfold init_config; cbn. unfold defaultMaxFails, defaultEjectTimeout, defaultMaxEjectTimeout,
    Minute, Second, Millisecond. bool_case; lia.
Qed.

Lemma round_step fuel c now e s :
  IsFailure c = None -> 0 < MaxFails c <= max_i32 -> 0 < EjectTimeout c <= MaxEjectTimeout c ->
  MaxEjectTimeout c <= 2 ^ 62 -> 0 <= now < 2 ^ 62 -> 0 <= e < max_i32 ->
  fails (cells s) = 0 -> ejections (cells s) = e -> ejectedUntil (cells s) <= now ->
  cells (fail_n (S fuel) (Z.to_nat (MaxFails c)) c now s) =
  mkEject 0 (e + 1) (now + Z.min (EjectTimeout c * 2 ^ e) (MaxEjectTimeout c)).
Proof.
  intros HF HM HT HX Hnow He Hf0 Hej Hu. unfold max_i32 in He.
  destruct (Z.to_nat (MaxFails c)) as [|n] eqn:En; [lia|].
  rewrite (fail_n_ejects fuel n c now s) by (done || lia). rewrite Hej, i32_small by lia.
  unfold ejectionTimeout. rewrite backoff_spec by lia. replace (e + 1 - 1) with e by lia.
  rewrite i64_small; [done|]. lia.
Qed.

Lemma rounds_back_off fuel c ts now e s :
  IsFailure c = None -> 0 < MaxFails c <= max_i32 -> 0 < EjectTimeout c <= MaxEjectTimeout c ->
  MaxEjectTimeout c <= 2 ^ 62 -> 0 <= e -> e + Z.of_nat (length ts) < max_i32 ->
  fails (cells s) = 0 -> ejections (cells s) = e -> spaced c e (ejectedUntil (cells s)) (ts ++ [now]) ->
  cells (rounds (S fuel) c (ts ++ [now]) s) =
  mkEject 0 (e + Z.of_nat (length ts) + 1)
    (now + Z.min (EjectTimeout c * 2 ^ (e + Z.of_nat (length ts))) (MaxEjectTimeout c)).
Proof.
  intros HF HM HT HX. revert e s. induction ts as [|t ts IH]; intros e s He Hlen Hf0 Hej Hsp;
    cbn [rounds app spaced length] in *; destruct Hsp as (Hu & Hnow & Hsp).
  - rewrite (round_step fuel c now e s) by (done || lia). f_equal; [lia|]. by rewrite Z.add_0_r.
  - pose proof (round_step fuel c t e s HF HM HT HX Hnow ltac:(lia) Hf0 Hej Hu) as E.
    rewrite (IH (e + 1)); [f_equal; [lia|do 4 f_equal; lia]|lia|lia|by rewrite E|by rewrite E|].
    by rewrite E.
Qed.

(** A target that fails MaxFails times again after each cooldown is ejected each
    time, and the k-th consecutive ejection lasts EjectTimeout doubled k-1 times,
    capped at MaxEjectTimeout. *)
Theorem ej_backoff_doubles fuel c ts now :
  let c' := init_config c in
  IsFailure c' = None -> MaxFails c' <= max_i32 -> MaxEjectTimeout c' <= 2 ^ 62 ->
  Z.of_nat (length ts) < max_i32 -> spaced c' 0 0 (ts ++ [now]) ->
  cells (rounds (S fuel) c' (ts ++ [now]) (zero 0)) =
  mkEject 0 (Z.of_nat (length ts) + 1)
    (now + Z.min (EjectTimeout c' * 2 ^ Z.of_nat (length ts)) (MaxEjectTimeout c')).
Proof.
  intros c' HF HM HX Hlen Hsp. destruct (ej_init_config_ok c) as [H1 H2].
  rewrite (rounds_back_off fuel c' ts now 0) by (done || lia). f_equal.
Qed.

(** ** Witnesses *)

Definition demo_config : config := mkConfig 2 10 25 None.
Definition demo_down : nat * option Response * option error := (5%nat, None, Some (ErrOther "down")).
Definition demo_ok : nat * option Response * option error := (5%nat, Some (mkResponse 200 ∅ None), None).

(** Four failures race past the threshold, then a success recovers the target. *)
Definition demo_burst := exec (concat (replicate 12 [0; 1; 2; 3]) ++ replicate 10 4)%nat
  (zero 7, spawn (init_config demo_config) [demo_down; demo_down; demo_down; demo_down; demo_ok]).

Lemma ej_windows_disjoint_witness :
  changes demo_burst.1 = [Recovered; Ejected 7 17] /\
  windows (changes demo_burst.1) (ejectedUntil (cells demo_burst.1)).
Proof.
  split; [vm_compute; reflexivity|].
  apply (ej_windows_disjoint demo_config 7
    [demo_down; demo_down; demo_down; demo_down; demo_ok] demo_burst.1 demo_burst.2).
  rewrite <- surjective_pairing. apply (exec_rtc tick).
Defined.

Lemma ej_backoff_doubles_witness :
  cells (rounds 1 (init_config demo_config) ([3; 13] ++ [40]) (zero 0)) = mkEject 0 3 65.
Proof.
  exact (ej_backoff_doubles 0 demo_config [3; 13] 40 ltac:(done) ltac:(by vm_compute)
    ltac:(by vm_compute) ltac:(by vm_compute) ltac:(cbn; lia)).
Defined.

Definition demo_lb : t :=
  mk 4 [zero 0; mkShared (mkEject 0 1 50) 0 [] []; zero 0] (Some [true; true; false]) [] (init_config demo_config).

Lemma ej_pick_first_selectable_witness :
  (pick demo_lb 9).2 = 0 /\
  ((exists k, 0 <= k < 3 /\ (pick demo_lb 9).2 = (4 + k) mod 3 /\ selectable demo_lb 9 (pick demo_lb 9).2 = true /\
     forall k', 0 <= k' < k -> selectable demo_lb 9 ((4 + k') mod 3) = false) \/
   ((forall j, 0 <= j < 3 -> selectable demo_lb 9 j = false) /\ (pick demo_lb 9).2 = 4 mod 3)).
Proof.
  split; [by vm_compute|].
  apply (ej_pick_first_selectable demo_lb 9); [done|cbn; lia|left; cbn; lia].
Defined.

End EjectingFacts.
