(* ===== verification/LatencyEjecting.v ===== *)
(** * pkg/upstream: the latency-ejecting balancer

    [src/pkg/upstream/latencyejecting.go]: a decayed mean of the time to first byte
    per target, kept by compare-and-swap, a pool median, ejection of outliers under
    two pool-level guards, and a pick that skips ejected targets and fails open.
    The methods are goroutine programs over the atomics of the whole pool; floats
    are binary64, and [math.Exp] is a parameter, so nothing depends on its rounding. *)

From Stdlib Require Import Sorted.
From stdpp Require Import sorting.
From S2P Require Import Prelude GoFloat Http Concurrency UpstreamState RoundRobin Ejecting.

Local Open Scope go_scope.

Module LatencyEjecting.

Record config := mkConfig {
  EjectionFactor : spec_float;
  MinSamples : Z;
  MinHosts : Z;
  HalfLife : Z;
  MinEjectDelta : Z;
  MinEjectLatency : Z;
  MaxEjectionPercent : Z;
  PanicThreshold : Z;
  EjectTimeout : Z;
  MaxEjectTimeout : Z;
}.

Definition defaultEjectionFactor : spec_float := float64 3.
Definition defaultLatMinSamples : Z := 100.
Definition defaultLatMinHosts : Z := 3.
Definition defaultHalfLife : Z := 10 * Second.
Definition defaultMinEjectDelta : Z := 50 * Millisecond.
Definition defaultMaxEjectionPercent : Z := 30.
Definition defaultPanicThreshold : Z := 50.

(** [math.Ln2] as a float64. *)
Definition Ln2 : spec_float := S754_finite false 6243314768165359 (-53).

Definition init_config (c : config) : config :=
  let ef := if f_le (EjectionFactor c) (float64 1) then defaultEjectionFactor else EjectionFactor c in
  let ms := if MinSamples c =? 0 then defaultLatMinSamples else MinSamples c in
  let mh := if MinHosts c <? 2 then defaultLatMinHosts else MinHosts c in
  let hl := if HalfLife c <=? 0 then defaultHalfLife else HalfLife c in
  let md := if MinEjectDelta c <=? 0 then defaultMinEjectDelta else MinEjectDelta c in
  let mp := if (MaxEjectionPercent c <=? 0) || (100 <? MaxEjectionPercent c)
            then defaultMaxEjectionPercent else MaxEjectionPercent c in
  let pt := if (PanicThreshold c <=? 0) || (100 <? PanicThreshold c)
            then defaultPanicThreshold else PanicThreshold c in
  let pt := if pt <=? mp then mp + 1 else pt in
  let et := if EjectTimeout c <=? 0 then Ejecting.defaultEjectTimeout else EjectTimeout c in
  let mt := if MaxEjectTimeout c <=? 0 then Ejecting.defaultMaxEjectTimeout else MaxEjectTimeout c in
  let mt := if mt <? et then et else mt in
  mkConfig ef ms mh hl md (MinEjectLatency c) mp pt et mt.

Definition tau (c : config) : spec_float := f_div (float64 (HalfLife c)) Ln2.

Definition ejectionTimeout (c : config) (e : Z) : Z := backoff (EjectTimeout c) (MaxEjectTimeout c) e.

(** One target's state.  [ewma] is the float whose bits the word holds; the word 0
    is the positive zero. *)
Record latPeer := mkPeer {
  ewma : spec_float;
  lastNanos : Z;
  samples : Z;
  ejections : Z;
  ejectedUntil : Z;
}.

Definition unseeded : spec_float := S754_zero false.
Definition zero_peer : latPeer := mkPeer unseeded 0 0 0 0.

Definition set_ewma v p := mkPeer v (lastNanos p) (samples p) (ejections p) (ejectedUntil p).
Definition set_lastNanos v p := mkPeer (ewma p) v (samples p) (ejections p) (ejectedUntil p).
Definition set_samples v p := mkPeer (ewma p) (lastNanos p) v (ejections p) (ejectedUntil p).
Definition set_ejections v p := mkPeer (ewma p) (lastNanos p) (samples p) v (ejectedUntil p).
Definition set_ejectedUntil v p := mkPeer (ewma p) (lastNanos p) (samples p) (ejections p) v.

(** An auxiliary log, newest first, that no code reads. *)
Inductive entry := Sampled (i : nat) | Ejected (i : nat) | Recovered (i : nat).

#[global] Instance entry_eq_dec : EqDecision entry.
Proof. solve_decision. Defined.

(** What the goroutines of the balancer share. *)
Record shared := mkShared {
  cursor : Z;
  peers : list latPeer;
  gate : Gate;
  clock : Z;
  events : list (nat * State * State * Reason);
  history : list entry;
}.

Definition zero (n : nat) (g : Gate) (now : Z) : shared := mkShared 0 (replicate n zero_peer) g now [] [].

Definition setHealthGate (g : list bool) (s : shared) : shared :=
  mkShared (cursor s) (peers s) (Some g) (clock s) (events s) (history s).

Definition peer (i : nat) (s : shared) : latPeer := default zero_peer (peers s !! i).
Definition upd (i : nat) (f : latPeer -> latPeer) (s : shared) : shared :=
  mkShared (cursor s) (alter f i (peers s)) (gate s) (clock s) (events s) (history s).
Definition log (x : entry) (s : shared) : shared :=
  mkShared (cursor s) (peers s) (gate s) (clock s) (events s) (x :: history s).

Definition Load {A} (f : latPeer -> A) (i : nat) : prog shared A := load (fun s => f (peer i s)).
Definition Store {A} (set : A -> latPeer -> latPeer) (i : nat) (v : A) : prog shared unit := store (upd i (set v)).
Definition Now : prog shared Z := load clock.
Definition emit (i : nat) (from to : State) (r : Reason) : prog shared unit :=
  store (fun s => mkShared (cursor s) (peers s) (gate s) (clock s) (events s ++ [(i, from, to, r)]) (history s)).

Definition cas_ewma (i : nat) (old new : spec_float) : prog shared bool :=
  Atomic (fun s => if decide (ewma (peer i s) = old) then upd i (set_ewma new) s else s)
         (fun s => Ret (bool_decide (ewma (peer i s) = old))).
Definition cas_until (i : nat) (prev until : Z) : prog shared bool :=
  Atomic (fun s => if ejectedUntil (peer i s) =? prev
                   then log (Ejected i) (upd i (set_ejectedUntil until) s) else s)
         (fun s => Ret (ejectedUntil (peer i s) =? prev)).
Definition swap_until (i : nat) : prog shared Z :=
  Atomic (fun s => log (Recovered i) (upd i (set_ejectedUntil 0) s)) (fun s => Ret (ejectedUntil (peer i s))).
Definition add_sample (i : nat) : prog shared Z :=
  Atomic (fun s => log (Sampled i) (upd i (fun p => set_samples (u64 (samples p + 1)) p) s))
         (fun s => Ret (u64 (samples (peer i s) + 1))).

Section Methods.
Context (Exp : spec_float -> spec_float) (fuel : nat) (c : config) (n : nat).

Definition observe (i : nat) (sample : spec_float) (now : Z) : prog shared (spec_float * Z) :=
  m <- add_sample i ;;
  loop fuel
    (old <- Load ewma i ;;
     next <- (if decide (old = unseeded) then Ret sample
              else last <- Load lastNanos i ;;
                   let dt := float64 (i64 (now - last)) in
                   let dt := if f_lt dt (float64 0) then float64 0 else dt in
                   let w := Exp (f_div (f_opp dt) (tau c)) in
                   Ret (f_add (f_mul w old) (f_mul (f_sub (float64 1) w) sample))) ;;
     ok <- cas_ewma i old next ;;
     if (ok : bool) then Store set_lastNanos i now ;; Ret (Some (next, m)) else Ret None).

(** The scan of [poolMedian], from peer [i] on. *)
Fixpoint collect (k i : nat) (vals : list spec_float) : prog shared (list spec_float) :=
  match k with
  | O => Ret vals
  | S k =>
      m <- Load samples i ;;
      if m <? MinSamples c then collect k (S i) vals
      else b <- Load ewma i ;;
           collect k (S i) (if decide (b = unseeded) then vals else vals ++ [b])
  end.

Definition median_of (vals : list spec_float) : spec_float * Z :=
  match vals with
  | [] => (float64 0, 0)
  | _ =>
      let s := f_sort vals in
      let m := length s in
      let at_ k := default S754_nan (s !! k) in
      (if Nat.odd m then at_ (m / 2)%nat
       else f_div (f_add (at_ (m / 2 - 1)%nat) (at_ (m / 2)%nat)) (float64 2), Z.of_nat m)
  end.

Definition poolMedian : prog shared (spec_float * Z) :=
  vals <- collect n 0 [] ;; Ret (median_of vals).

Fixpoint count_ejected (now : Z) (k i : nat) (a : Z) : prog shared Z :=
  match k with
  | O => Ret a
  | S k => u <- Load ejectedUntil i ;;
           count_ejected now k (S i) (if now <? u then a + 1 else a)
  end.

Definition ejectedCount (now : Z) : prog shared Z := count_ejected now n 0 0.

Definition maybeHeal (i : nat) : prog shared unit :=
  e <- Load ejections i ;;
  dirty <- (if negb (e =? 0) then Ret true else u <- Load ejectedUntil i ;; Ret (negb (u =? 0))) ;;
  if (dirty : bool) then
    old <- swap_until i ;;
    Store set_ejections i 0 ;;
    (if negb (old =? 0) then emit i StateOpen StateClosed ReasonRecover else Ret tt)
  else Ret tt.

Definition eject (i : nat) : prog shared unit :=
  now <- Now ;;
  loop fuel
    (prev <- Load ejectedUntil i ;;
     if now <? prev then Ret (Some tt)
     else
       k <- Load ejections i ;;
       let e := i32 (k + 1) in
       let until := i64 (now + ejectionTimeout c e) in
       ok <- cas_until i prev until ;;
       if (ok : bool) then
         Store set_ejections i e ;;
         Store set_ewma i unseeded ;;
         Store set_samples i 0 ;;
         emit i (if prev =? 0 then StateClosed else StateOpen) StateOpen ReasonEject ;;
         Ret (Some tt)
       else Ret None).

(** Whether the mean [cur] is within tolerance of the median. *)
Definition tolerated (cur median : spec_float) : bool :=
  f_lt cur (f_mul median (EjectionFactor c))
  || f_lt cur (f_add median (float64 (MinEjectDelta c)))
  || f_lt cur (float64 (MinEjectLatency c)).

Definition record (i : nat) (d : Z) (resp : option Response) (err : option error) : prog shared unit :=
  match err, resp with
  | Some _, _ | _, None => Ret tt
  | None, Some _ =>
      now <- Now ;;
      r <- observe i (float64 d) now ;;
      if r.2 <? MinSamples c then Ret tt
      else
        me <- poolMedian ;;
        if me.2 <? MinHosts c then Ret tt
        else if tolerated r.1 me.1 then maybeHeal i
        else
          now <- Now ;;
          ej <- ejectedCount now ;;
          if PanicThreshold c * Z.of_nat n <? (ej + 1) * 100 then Ret tt
          else if MaxEjectionPercent c * Z.of_nat n <? (ej + 1) * 100 then Ret tt
          else eject i
  end.

(** The scan of [pick]: [ks] are the indices left to visit. *)
Fixpoint pick_scan (now : Z) (ks : list Z) (fallback : Z) : prog shared Z :=
  match ks with
  | [] => Ret fallback
  | k :: ks =>
      u <- Load ejectedUntil (Z.to_nat k) ;;
      if u <=? now then
        b <- load (fun s => up (gate s) k) ;;
        if (b : bool) then Ret k else pick_scan now ks fallback
      else pick_scan now ks fallback
  end.

Definition pick : prog shared Z :=
  start <- rmw (fun s => u32 (u32 (cursor s + 1) - 1))
               (fun s => mkShared (u32 (cursor s + 1)) (peers s) (gate s) (clock s) (events s) (history s)) ;;
  now <- Now ;;
  ej <- ejectedCount now ;;
  let slot := start mod Z.of_nat n in
  if PanicThreshold c * Z.of_nat n <? ej * 100 then Ret slot
  else pick_scan now (ring_u32 start (Z.of_nat n)) slot.

(** One request; [d] is how long its round trip takes. *)
Definition RoundTrip (targets : list Target) (r : Request) (d : Z) : prog shared outcome :=
  if (n =? 0)%nat then Ret (Returned None (Some ErrUnavailable))
  else
    idx <- pick ;;
    match targets !! Z.to_nat idx with
    | None => Ret Panicked
    | Some tg =>
        match Transport tg (with_url_host (Host tg) r) with
        | Panicked => Ret Panicked
        | Returned resp err => record (Z.to_nat idx) d resp err ;; Ret (Returned resp err)
        end
    end.

End Methods.
End LatencyEjecting.

Module LatencyEjectingFacts.
Import LatencyEjecting.

(** ** The median *)

Lemma sorted_split l k v :
  StronglySorted f_leq l -> l !! k = Some v ->
  Forall (fun x => f_leq x v) (take k l) /\ Forall (f_leq v) (drop k l).
Proof.
  intros Hl. revert k. induction Hl as [|x l Hl IH Hx]; intros k Hk; [done|]. destruct k as [|k].
  - cbn in *. simplify_eq. split; [constructor|]. by constructor.
  - cbn in *. destruct (IH k Hk) as [H1 H2]. split; [|done]. constructor; [|done].
    eapply Forall_forall in Hx; [exact Hx|]. by eapply list_elem_of_lookup_2.
Qed.

(** No more elements satisfy [P] than those outside a part where none does. *)
Lemma filter_bound (P : spec_float -> Prop) `{!forall x, Decision (P x)} l1 l2 l :
  l1 ++ l2 ≡ₚ l -> Forall (fun x => ~ P x) l1 -> (length (filter P l) <= length l2)%nat.
Proof.
  intros <- HP. rewrite filter_app. induction HP as [|x l1 Hx Hl IH]; [apply length_filter|].
  by rewrite filter_cons_False.
Qed.

(** The element at the middle of an odd number. *)
Lemma median_odd vals :
  Nat.odd (length vals) = true ->
  exists l1 l2 v, f_sort vals = l1 ++ v :: l2 /\ length l1 = (length vals / 2)%nat /\
    (median_of vals).1 = v /\ Forall (fun x => f_leq x v) l1 /\ Forall (f_leq v) l2.
Proof.
  intros Ho. pose proof (Permutation_length (f_sort_perm vals)) as Hlen.
  assert (length vals / 2 < length (f_sort vals))%nat as Hlt.
  { rewrite Hlen. apply Nat.div_lt; [|lia]. by destruct vals; cbn; [|lia]. }
  destruct (lookup_lt_is_Some_2 (f_sort vals) (length vals / 2) Hlt) as [v Hv].
  destruct (sorted_split _ _ _ (f_sort_sorted vals) Hv) as [H1 H2].
  exists (take (length vals / 2) (f_sort vals)), (drop (S (length vals / 2)) (f_sort vals)), v.
  split; [symmetry; by apply take_drop_middle|]. split; [rewrite length_take; lia|]. split.
  - unfold median_of. destruct vals as [|x vals]; [done|]. rewrite Hlen, Ho. cbn [fst]. by rewrite Hv.
  - split; [done|]. rewrite (drop_S _ _ _ Hv) in H2. by apply Forall_cons in H2 as [_ H2].
Qed.

(** With an odd number of eligible targets the baseline is one of their means,
    and a minority cannot move it: when a majority of the means is at most [hi] and a
    majority is at least [lo], so is the baseline. *)
Theorem lat_median_robust vals lo hi :
  Nat.odd (length vals) = true ->
  (length vals < 2 * length (filter (fun v => f_leq v hi) vals))%nat ->
  (length vals < 2 * length (filter (fun v => f_leq lo v) vals))%nat ->
  (median_of vals).1 ∈ vals /\ f_leq lo (median_of vals).1 /\ f_leq (median_of vals).1 hi.
Proof.
  intros Ho Hhi Hlo. destruct (median_odd vals Ho) as (l1 & l2 & v & Es & Hl1 & -> & H1 & H2).
  pose proof (f_sort_perm vals) as Hp. rewrite Es in Hp.
  pose proof (Permutation_length Hp) as Hlen. rewrite length_app in Hlen. cbn in Hlen.
  apply Nat.odd_spec in Ho as [q Hq].
  assert (length vals / 2 = q)%nat as Hd by (rewrite Hq; symmetry; apply (Nat.div_unique _ 2 q 1); lia).
  split; [rewrite <- Hp; set_solver|]. split.
  - destruct (decide (f_leq lo v)) as [|Hn]; [done|]. exfalso. eapply Nat.lt_nge; [exact Hlo|].
    etransitivity; [apply Nat.mul_le_mono_l, (filter_bound _ (l1 ++ [v]) l2)|lia].
    + by rewrite <- app_assoc.
    + apply Forall_app. split; [|by constructor]. eapply Forall_impl; [exact H1|].
      intros x Hx Hc. apply Hn. by etransitivity.
  - destruct (decide (f_leq v hi)) as [|Hn]; [done|]. exfalso. eapply Nat.lt_nge; [exact Hhi|].
    etransitivity; [apply Nat.mul_le_mono_l, (filter_bound _ (v :: l2) l1)|lia].
    + by rewrite Permutation_app_comm.
    + constructor; [done|]. eapply Forall_impl; [exact H2|]. intros x Hx Hc. apply Hn. by etransitivity.
Qed.

(** ** One request at a time *)

Section Cap.
Context (Exp : spec_float -> spec_float) (fuel : nat) (c : config) (n : nat) (targets : list Target).

(** A server that makes its requests one after the other. *)
Fixpoint serve (reqs : list (Request * Z)) : prog shared unit :=
  match reqs with
  | [] => Ret tt
  | (r, d) :: reqs => RoundTrip Exp fuel c n targets r d ;; serve reqs
  end.

(** Between two actions the clock advances and the health checker may flip the
    gate. *)
Definition tick (s s' : shared) : Prop :=
  exists now g, clock s <= now /\ s' = mkShared (cursor s) (peers s) g now (events s) (history s).

(** How many peers are ejected at a time. *)
Definition ejected_at (now : Z) (ps : list latPeer) : Z :=
  Z.of_nat (length (filter (fun p => now < ejectedUntil p) ps)).

(** Samples of target [i] since its last ejection. *)
Fixpoint since (i : nat) (h : list entry) : Z :=
  match h with
  | [] => 0
  | Sampled j :: h => if decide (i = j) then since i h + 1 else since i h
  | Ejected j :: h => if decide (i = j) then 0 else since i h
  | Recovered _ :: h => since i h
  end.

(** Every ejection came after [MinSamples] samples of its target. *)
Fixpoint earned (h : list entry) : Prop :=
  match h with
  | [] => True
  | Ejected i :: h => MinSamples c <= since i h /\ earned h
  | _ :: h => earned h
  end.

Definition capped (s : shared) : Prop :=
  ejected_at (clock s) (peers s) * 100 <= MaxEjectionPercent c * Z.of_nat n.

Definition Inv (s : shared) : Prop :=
  0 <= clock s /\ length (peers s) = n /\ capped s /\ earned (history s).

(** Goroutine 0 is the only one; it tolerates the clock and the gate. *)
Definition R (j : nat) (s s' : shared) : Prop := if decide (j = 0%nat) then tick s s' else True.
Definition G (j : nat) (_ _ : shared) : Prop := j = 0%nat.

Lemma tick_refl s : tick s s.
Proof. exists (clock s), (gate s). split; [lia|by destruct s]. Qed.

Lemma tick_trans s1 s2 s3 : tick s1 s2 -> tick s2 s3 -> tick s1 s3.
Proof. intros (t & g & H & ->) (t' & g' & H' & ->). exists t', g'. cbn in *. split; [lia|done]. Qed.

Lemma filter_length_le {A} (P Q : A -> Prop) `{!forall x, Decision (P x), !forall x, Decision (Q x)} (l : list A) :
  (forall x, P x -> Q x) -> (length (filter P l) <= length (filter Q l))%nat.
Proof.
  intros HPQ. induction l as [|x l IH]; [done|]. rewrite !filter_cons.
  destruct (decide (P x)), (decide (Q x)); cbn; try lia. naive_solver.
Qed.

Lemma ejected_at_mono t t' ps : t <= t' -> ejected_at t' ps <= ejected_at t ps.
Proof.
  intros H. unfold ejected_at. apply inj_le, filter_length_le. intros p Hp. lia.
Qed.

Lemma tick_inv s s' : tick s s' -> Inv s -> Inv s'.
Proof.
  intros (t & g & Ht & ->) (H1 & H2 & H3 & H4). unfold Inv, capped in *. cbn in *.
  split; [lia|]. split; [done|]. split; [|done].
  pose proof (ejected_at_mono _ _ (peers s) Ht). lia.
Qed.

#[local] Instance lat_rg : RelyGuarantee tick R G Inv.
Proof.
  unfold R, G. split.
  - intros j s. case_decide; [apply tick_refl|done].
  - intros j s1 s2 s3. case_decide; [apply tick_trans|done].
  - intros i j s s' Hne ->. by case_decide; subst.
  - intros j s s' H. by case_decide.
  - apply tick_inv.
Qed.

(** Triples for goroutine 0; assertions are stable under the clock and the gate. *)
Definition stable (P : shared -> Prop) : Prop := forall s s', tick s s' -> P s -> P s'.
Definition triple {A} (P : shared -> Prop) (p : prog shared A) (Q : A -> shared -> Prop) : Prop :=
  forall s, P s -> rg R G Inv 0 p Q s.

Lemma triple_ret {A} P (a : A) (Q : A -> shared -> Prop) :
  stable P -> (forall s, P s -> Q a s) -> triple P (Ret a) Q.
Proof. intros HP H s Hs s' HR HI. apply H. by eapply HP. Qed.

Lemma triple_bind {A B} P (p : prog shared A) (f : A -> prog shared B) Q Q' :
  triple P p Q -> (forall a, triple (Q a) (f a) Q') -> triple P (bind p f) Q'.
Proof.
  intros Hp Hf s Hs. apply (rg_bind tick R G Inv). eapply (rg_mono R G Inv); [|by apply Hp].
  intros a s' _ Ha. by apply Hf.
Qed.

Lemma triple_pre {A} (P P' : shared -> Prop) (p : prog shared A) Q :
  (forall s, P s -> P' s) -> triple P' p Q -> triple P p Q.
Proof. intros H Hp s Hs. by apply Hp, H. Qed.

Lemma triple_post {A} P (p : prog shared A) (Q Q' : A -> shared -> Prop) :
  triple P p Q -> (forall a s, Inv s -> Q a s -> Q' a s) -> triple P p Q'.
Proof. intros Hp H s Hs. eapply (rg_mono R G Inv); [exact H|by apply Hp]. Qed.

(** An action: it keeps the invariant and establishes its postcondition. *)
Lemma triple_action {A} P (u : shared -> shared) (f : shared -> A) (Q : A -> shared -> Prop) :
  stable P -> (forall a, stable (Q a)) -> (forall s, P s -> Inv s -> Inv (u s) /\ Q (f s) (u s)) ->
  triple P (Atomic u (fun s => Ret (f s))) Q.
Proof.
  intros HP HQ H s Hs s' HR HI. destruct (H s') as [H1 H2]; [by eapply HP|done|].
  split; [done|]. intros s'' HR' _. by eapply HQ.
Qed.

Lemma triple_load {A} P (f : shared -> A) : stable P -> triple P (load f) (fun _ => P).
Proof. intros HP. apply triple_action; auto. Qed.

Lemma triple_loop {A} P (body : prog shared (option A)) (Q : A -> shared -> Prop) :
  stable P -> (forall a, stable (Q a)) ->
  triple P body (fun r s => match r with Some a => Q a s | None => P s end) -> triple P (loop fuel body) Q.
Proof.
  intros HP HQ HB s Hs. apply (rg_loop tick R G Inv) with (P := P); [|done| |done].
  - intros s1 s2 H HR. by eapply HP.
  - intros a s1 s2 H HR. by eapply HQ.
Qed.

(** ** The samples of each target *)

Definition counted (s : shared) : Prop :=
  forall i, (i < n)%nat -> samples (peer i s) = u64 (since i (history s)).

Lemma counted_stable : stable counted.
Proof. by intros s s' (t & g & _ & ->) H. Qed.

Lemma since_nonneg i h : 0 <= since i h.
Proof. induction h as [|[j|j|j] h IH]; cbn; try case_decide; lia. Qed.

Lemma peer_upd i f j s :
  peer j (upd i f s) = if decide (i = j /\ (i < length (peers s))%nat) then f (peer j s) else peer j s.
Proof.
  unfold peer, upd. cbn. case_decide as Hd.
  - destruct Hd as [-> Hlt]. rewrite list_lookup_alter_eq.
    destruct (lookup_lt_is_Some_2 _ _ Hlt) as [p ->]. done.
  - destruct (decide (i = j)) as [->|]; [|by rewrite list_lookup_alter_ne].
    rewrite list_lookup_alter_eq. rewrite (proj2 (lookup_ge_None (peers s) j)); [done|].
    destruct (decide (j < length (peers s))%nat); [naive_solver|lia].
Qed.

(** Updates that leave the deadlines alone keep the invariant. *)
Lemma ejected_at_alter now f i ps :
  (forall p, ejectedUntil (f p) = ejectedUntil p) -> ejected_at now (alter f i ps) = ejected_at now ps.
Proof.
  intros Hf. unfold ejected_at. f_equal. revert i. induction ps as [|p ps IH]; intros [|i]; [done..| |].
  - change (alter f 0%nat (p :: ps)) with (f p :: ps). rewrite !filter_cons, Hf. by destruct (decide _).
  - change (alter f (S i) (p :: ps)) with (p :: alter f i ps). rewrite !filter_cons.
    destruct (decide _); cbn; by rewrite IH.
Qed.

Lemma ejected_at_until now t i ps :
  ejected_at now (alter (set_ejectedUntil t) i ps) <= ejected_at now ps + 1 /\
  (t <= now -> ejected_at now (alter (set_ejectedUntil t) i ps) <= ejected_at now ps).
Proof.
  unfold ejected_at. revert i. induction ps as [|p ps IH]; intros [|i]; cbn [alter list_alter]; [cbn; lia..| |].
  - change (alter (set_ejectedUntil t) 0%nat (p :: ps)) with (set_ejectedUntil t p :: ps).
    rewrite !filter_cons. cbn [ejectedUntil set_ejectedUntil].
    destruct (decide (now < t)), (decide (now < ejectedUntil p)); cbn; lia.
  - change (alter (set_ejectedUntil t) (S i) (p :: ps)) with (p :: alter (set_ejectedUntil t) i ps).
    rewrite !filter_cons. destruct (IH i) as [H1 H2]. destruct (decide _); cbn; lia.
Qed.

Lemma upd_inv i f s :
  (forall p, ejectedUntil (f p) = ejectedUntil p) -> Inv s -> Inv (upd i f s).
Proof.
  intros Hf (H1 & H2 & H3 & H4). unfold Inv, capped in *. cbn.
  by rewrite length_alter, ejected_at_alter.
Qed.

Lemma log_inv x s : (forall i, x <> Ejected i) -> Inv s -> Inv (log x s).
Proof. intros Hx (H1 & H2 & H3 & H4). split; [done|]. split; [done|]. split; [done|]. by destruct x; [| destruct (Hx i) |]. Qed.

(** Writing a field other than the sample counter and the deadline. *)
Lemma triple_store {A} P (set : A -> latPeer -> latPeer) i v :
  (forall p, ejectedUntil (set v p) = ejectedUntil p) -> stable P ->
  (forall s, P s -> P (upd i (set v) s)) -> triple P (Store set i v) (fun _ => P).
Proof.
  intros Hf HP HU. apply triple_action; [done|done|]. intros s Hs HI.
  split; [by apply upd_inv|by apply HU].
Qed.

Lemma counted_upd i f s :
  (forall p, samples (f p) = samples p) -> counted s -> counted (upd i f s).
Proof. intros Hf H j Hj. rewrite peer_upd. case_decide; [rewrite Hf|]; by apply H. Qed.

Lemma triple_emit P i from to r :
  stable P -> (forall s ev, P s -> P (mkShared (cursor s) (peers s) (gate s) (clock s) ev (history s))) ->
  triple P (emit i from to r) (fun _ => P).
Proof. intros HP HE. apply triple_action; [done|done|]. intros s Hs HI. split; [done|by apply HE]. Qed.

(** What [observe] leaves: the counters agree with the log, and the count it returns
    is at most the samples since the last ejection. *)
Definition observed (i : nat) (r : spec_float * Z) (s : shared) : Prop :=
  counted s /\ r.2 <= since i (history s).

Lemma observed_stable i r : stable (observed i r).
Proof. by intros s s' (t & g & _ & ->) H. Qed.

Lemma triple_observe i sample now :
  (i < n)%nat -> triple counted (observe Exp fuel c i sample now) (observed i).
Proof.
  intros Hi. unfold observe. eapply triple_bind with (Q := fun m s => observed i (sample, m) s).
  { apply triple_action; [apply counted_stable|intros; apply observed_stable|]. intros s Hs HI. split.
    - apply log_inv; [done|]. by apply upd_inv.
    - destruct HI as (_ & Hlen & _). pose proof (since_nonneg i (history s)). split.
      + intros j Hj. cbn. change (peer j (log _ ?x)) with (peer j x). rewrite peer_upd, Hlen.
        destruct (decide (i = j)) as [->|Hne].
        * rewrite !decide_True by done. cbn. rewrite (Hs j Hj). unfold u64, wrap_u. by rewrite Zplus_mod_idemp_l.
        * rewrite !decide_False by naive_solver. by apply Hs.
      + cbn. rewrite decide_True by done. rewrite (Hs i Hi). unfold u64, wrap_u.
        rewrite Zplus_mod_idemp_l. apply Z.mod_le; lia. }
  intros m. apply triple_loop; [apply observed_stable|intros; apply observed_stable|].
  eapply triple_bind; [apply triple_load, observed_stable|]. intros old.
  eapply triple_bind with (Q := fun _ => observed i (sample, m)).
  { case_decide; [by apply triple_ret; [apply observed_stable|]|].
    eapply triple_bind; [apply triple_load, observed_stable|]. intros last.
    by apply triple_ret; [apply observed_stable|]. }
  intros next. eapply triple_bind with (Q := fun _ => observed i (sample, m)).
  { apply triple_action; [apply observed_stable|intros; apply observed_stable|]. intros s [Hs Hm] HI.
    case_decide; [|done]. split; [by apply upd_inv|]. split; [by apply counted_upd|done]. }
  intros []; [|by apply triple_ret; [apply observed_stable|]].
  eapply triple_bind.
  { apply (triple_store (observed i (sample, m))); [done|apply observed_stable|].
    intros s [Hs Hm]. split; [by apply counted_upd|done]. }
  intros ?. by apply triple_ret; [apply observed_stable|].
Qed.

(** ** The scans *)

Lemma triple_collect P k i vals : stable P -> triple P (collect c k i vals) (fun _ => P).
Proof.
  intros HP. revert i vals. induction k as [|k IH]; intros i vals; cbn [collect]; [by apply triple_ret|].
  eapply triple_bind; [by apply triple_load|]. intros m. destruct (m <? _); [apply IH|].
  eapply triple_bind; [by apply triple_load|]. intros b. apply IH.
Qed.

Lemma triple_count P ps now k i a :
  stable P -> (forall s, P s -> peers s = ps) -> (i + k = length ps)%nat ->
  triple P (count_ejected now k i a) (fun x s => P s /\ x = a + ejected_at now (drop i ps)).
Proof.
  intros HP Hps. revert i a. induction k as [|k IH]; intros i a Hl; cbn [count_ejected].
  - apply triple_ret; [done|]. intros s Hs. split; [done|]. rewrite drop_ge by lia. unfold ejected_at. cbn. lia.
  - destruct (lookup_lt_is_Some_2 ps i ltac:(lia)) as [p Hp].
    eapply triple_bind with (Q := fun u s => P s /\ u = ejectedUntil p).
    { apply triple_action; [done| |].
      - intros u s s' Ht [Hs ->]. split; [by eapply HP|done].
      - intros s Hs HI. split; [done|]. split; [done|]. unfold peer. by rewrite (Hps s Hs), Hp. }
    intros u. intros s [Hs ->]. eapply (rg_mono R G Inv); [|by apply (IH (S i) _ ltac:(lia))].
    intros x s' _ [Hs' ->]. split; [done|]. rewrite (drop_S _ _ _ Hp). unfold ejected_at. rewrite filter_cons.
    destruct (Z.ltb_spec now (ejectedUntil p)); [rewrite decide_True by done|rewrite decide_False by lia]; cbn; lia.
Qed.

Lemma triple_ex {X A} (P : X -> shared -> Prop) (p : prog shared A) Q :
  (forall x, triple (P x) p Q) -> triple (fun s => exists x, P x s) p Q.
Proof. intros H s [x Hx]. by apply (H x). Qed.

(** ** Ejection *)

(** What the guards of [record] establish before [eject]. *)
Definition allowed (i : nat) (t : Z) (ps : list latPeer) (s : shared) : Prop :=
  peers s = ps /\ t <= clock s /\ (ejected_at t ps + 1) * 100 <= MaxEjectionPercent c * Z.of_nat n /\
  counted s /\ MinSamples c <= since i (history s).

Lemma allowed_stable i t ps : stable (allowed i t ps).
Proof.
  intros s s' (t' & g & Ht & ->) (H1 & H2 & H3 & H4 & H5). unfold allowed. cbn.
  split; [done|]. split; [lia|]. split; [done|]. by split.
Qed.

(** Between the compare-and-swap and the reset of the counter. *)
Definition resetting (i : nat) (s : shared) : Prop :=
  since i (history s) = 0 /\
  forall j, (j < n)%nat -> j <> i -> samples (peer j s) = u64 (since j (history s)).

Lemma resetting_stable i : stable (resetting i).
Proof. by intros s s' (t & g & _ & ->) H. Qed.

Lemma resetting_upd i f s : resetting i s -> resetting i (upd i f s).
Proof.
  intros [H0 H]. split; [done|]. intros j Hj Hne. rewrite peer_upd, decide_False by naive_solver. by apply H.
Qed.

Lemma allowed_cas i t ps until s :
  allowed i t ps s -> Inv s ->
  Inv (log (Ejected i) (upd i (set_ejectedUntil until) s)) /\
  resetting i (log (Ejected i) (upd i (set_ejectedUntil until) s)).
Proof.
  intros (Hps & Ht & Hcap & Hc & Hm) (H1 & H2 & H3 & H4). split.
  - unfold Inv, capped. cbn. rewrite length_alter. split; [done|]. split; [done|]. split; [|done].
    destruct (ejected_at_until (clock s) until i (peers s)) as [Hle _].
    pose proof (ejected_at_mono t (clock s) (peers s) Ht). rewrite Hps in *. lia.
  - split; [cbn; by rewrite decide_True|]. intros j Hj Hne. cbn. rewrite decide_False by done.
    change (peer j (log _ ?x)) with (peer j x). rewrite peer_upd, decide_False by naive_solver. by apply Hc.
Qed.

Lemma triple_eject i t ps : (i < n)%nat -> triple (allowed i t ps) (eject fuel c i) (fun _ => counted).
Proof.
  intros Hi. pose proof (allowed_stable i t ps) as HA. pose proof (resetting_stable i) as HR.
  pose proof counted_stable as HC. unfold eject.
  eapply triple_bind; [by apply triple_load|]. intros now. apply triple_loop; [done|done|].
  eapply triple_bind; [by apply triple_load|]. intros prev.
  destruct (now <? prev); [by apply triple_ret; [|intros s (_ & _ & _ & ? & _)]|].
  eapply triple_bind; [by apply triple_load|]. intros k. cbv zeta.
  eapply triple_bind with (Q := fun (ok : bool) s => if ok then resetting i s else allowed i t ps s).
  { apply triple_action; [done|by intros []|]. intros s Hs HI. destruct (_ =? prev); [|done]. by eapply allowed_cas. }
  intros []; [|by apply triple_ret].
  eapply triple_bind; [apply (triple_store (resetting i)); [done|done|apply resetting_upd]|]. intros ?.
  eapply triple_bind; [apply (triple_store (resetting i)); [done|done|apply resetting_upd]|]. intros ?.
  eapply triple_bind with (Q := fun _ => counted).
  { apply triple_action; [done|done|]. intros s [H0 Hs] HI. split; [by apply upd_inv|].
    destruct HI as (_ & Hlen & _). intros j Hj. rewrite peer_upd, Hlen. destruct (decide (i = j)) as [->|Hne].
    - rewrite decide_True by done. cbn. by rewrite H0.
    - rewrite decide_False by naive_solver. by apply Hs. }
  intros ?. eapply triple_bind; [by apply triple_emit|]. intros ?. by apply triple_ret.
Qed.

Lemma triple_heal i : triple counted (maybeHeal i) (fun _ => counted).
Proof.
  pose proof counted_stable as HC. unfold maybeHeal.
  eapply triple_bind; [by apply triple_load|]. intros e.
  eapply triple_bind with (Q := fun _ => counted).
  { destruct (negb _); [by apply triple_ret|]. eapply triple_bind; [by apply triple_load|]. intros u. by apply triple_ret. }
  intros []; [|by apply triple_ret]. eapply triple_bind with (Q := fun _ => counted).
  { apply triple_action; [done|done|]. intros s Hs (H1 & H2 & H3 & H4). split.
    - unfold Inv, capped in *. cbn. rewrite length_alter. split; [done|]. split; [done|]. split; [|done].
      destruct (ejected_at_until (clock s) 0 i (peers s)) as [_ Hle]. specialize (Hle H1). lia.
    - intros j Hj. cbn. change (peer j (log _ ?x)) with (peer j x). by apply (counted_upd i). }
  intros old. eapply triple_bind; [by apply triple_store; [|done|intros; apply counted_upd]|]. intros ?.
  destruct (negb _); [|by apply triple_ret]. by apply triple_emit.
Qed.

(** [observed], with the peers fixed and a time that has passed. *)
Definition outlier (i : nat) (r : spec_float * Z) (t : Z) (ps : list latPeer) (s : shared) : Prop :=
  length ps = n /\ peers s = ps /\ t <= clock s /\ observed i r s.

Lemma outlier_stable i r t ps : stable (outlier i r t ps).
Proof.
  intros s s' (t' & g & Ht & ->) (H1 & H2 & H3 & H4). split_and!; [done|done|cbn; lia|by destruct H4].
Qed.

(** The pool-level guards and the ejection. *)
Lemma triple_guarded i r t ps :
  (i < n)%nat -> MinSamples c <= r.2 ->
  triple (outlier i r t ps)
    (ej <- ejectedCount n t ;;
     if PanicThreshold c * Z.of_nat n <? (ej + 1) * 100 then Ret tt
     else if MaxEjectionPercent c * Z.of_nat n <? (ej + 1) * 100 then Ret tt
     else eject fuel c i) (fun _ => counted).
Proof.
  intros Hi Hm s0 Hs0. pose proof (proj1 Hs0) as Hlen. revert s0 Hs0.
  pose proof (outlier_stable i r t ps) as HP. set (P := outlier i r t ps) in *.
  refine (triple_bind P _ _ (fun x s => P s /\ x = ejected_at t ps) _ _ _).
  { eapply triple_post; [apply (triple_count P ps); [done|by intros s (_ & ? & _)|lia]|]. done. }
  intros x. assert (stable (fun s => P s /\ x = ejected_at t ps)) as HP'.
  { intros s s' Ht [Hs Hx]. split; [by eapply HP|done]. }
  assert (forall s, P s /\ x = ejected_at t ps -> counted s) as Hout by (by intros s [(_ & _ & _ & []) _]).
  destruct (_ <? _); [by apply triple_ret|]. destruct (_ <? _) eqn:Ec; [by apply triple_ret|]. bool_prop.
  eapply triple_pre; [|by apply (triple_eject i t ps)].
  intros s [(H1 & H2 & H3 & [H4 H5]) ->]. cbn in *. split_and!; [done|done|lia|done|lia].
Qed.

Lemma triple_record i d resp err :
  (i < n)%nat -> triple counted (record Exp fuel c n i d resp err) (fun _ => counted).
Proof.
  intros Hi. pose proof counted_stable as HC. unfold record.
  destruct err; [by apply triple_ret|]. destruct resp; [|by apply triple_ret].
  eapply triple_bind; [by apply triple_load|]. intros now.
  eapply triple_bind; [by apply triple_observe|]. intros ob. pose proof (observed_stable i ob) as HO.
  destruct (_ <? _) eqn:Em; [by apply triple_ret; [|intros s []]|]. bool_prop.
  eapply triple_bind with (Q := fun _ => observed i ob).
  { eapply triple_bind; [by apply triple_collect|]. intros vals. by apply triple_ret. }
  intros [median eligible]. destruct (_ <? _); [by apply triple_ret; [|intros s []]|].
  destruct (tolerated _ _ _); [by eapply triple_pre; [|apply triple_heal]; intros s []|].
  eapply triple_bind with (Q := fun t s => exists ps, outlier i ob t ps s).
  { apply triple_action; [done| |].
    - intros t s s' Ht [ps Hs]. exists ps. by eapply outlier_stable.
    - intros s Hs HI. split; [done|]. exists (peers s). split_and!; [apply HI|done|cbn; lia|done]. }
  intros t. apply triple_ex. intros ps. by apply triple_guarded.
Qed.

(** ** Selection *)

Lemma triple_count_any P now k i a : stable P -> triple P (count_ejected now k i a) (fun _ => P).
Proof.
  intros HP. revert i a. induction k as [|k IH]; intros i a; cbn [count_ejected]; [by apply triple_ret|].
  eapply triple_bind; [by apply triple_load|]. intros u. apply IH.
Qed.

Lemma triple_pick_scan P now ks fallback :
  stable P -> Forall (fun k => 0 <= k < Z.of_nat n) ks -> 0 <= fallback < Z.of_nat n ->
  triple P (pick_scan now ks fallback) (fun k s => P s /\ 0 <= k < Z.of_nat n).
Proof.
  intros HP Hks Hf. induction Hks as [|k ks Hk Hks IH]; cbn [pick_scan]; [by apply triple_ret|].
  eapply triple_bind; [by apply triple_load|]. intros u. destruct (u <=? now); [|apply IH].
  eapply triple_bind; [by apply triple_load|]. intros b. destruct b; [by apply triple_ret|apply IH].
Qed.

Lemma triple_pick :
  (0 < n)%nat -> triple counted (pick c n) (fun k s => counted s /\ 0 <= k < Z.of_nat n).
Proof.
  intros Hn. pose proof counted_stable as HC. unfold pick.
  eapply triple_bind with (Q := fun _ => counted); [apply triple_action; [done|done|]|].
  { intros s Hs HI. done. }
  intros start. eapply triple_bind; [by apply triple_load|]. intros now.
  eapply triple_bind; [by apply triple_count_any|]. intros ej. cbv zeta.
  assert (0 <= start mod Z.of_nat n < Z.of_nat n) by (apply Z.mod_pos_bound; lia).
  destruct (_ <? _); [by apply triple_ret|]. apply triple_pick_scan; [done| |done].
  apply Forall_forall. intros k Hk. eapply ring_u32_range; [lia|exact Hk].
Qed.

Lemma triple_serve reqs : triple counted (serve reqs) (fun _ => counted).
Proof.
  pose proof counted_stable as HC. induction reqs as [|[r d] reqs IH]; cbn [serve]; [by apply triple_ret|].
  eapply triple_bind with (Q := fun _ => counted); [|done]. unfold RoundTrip.
  destruct (n =? 0)%nat eqn:En; [by apply triple_ret|]. apply Nat.eqb_neq in En.
  eapply triple_bind; [apply triple_pick; lia|]. intros k.
  assert (stable (fun s => counted s /\ 0 <= k < Z.of_nat n)) as HK.
  { intros s s' Ht [Hs Hk]. split; [by eapply HC|done]. }
  assert (triple (fun s => counted s /\ 0 <= k < Z.of_nat n) (Ret Panicked) (fun _ => counted)) as Hp.
  { apply triple_ret; [done|]. by intros s []. }
  destruct (targets !! Z.to_nat k) as [tg|]; [|done]. destruct (Transport tg _) as [resp err|]; [|done].
  intros s [Hs Hk]. eapply triple_bind; [apply triple_record; lia| |exact Hs]. intros ?. by apply triple_ret.
Qed.

End Cap.

(** The requests of a pool of [n] targets, from start-up at time [now]. *)
Lemma lat_reachable Exp fuel c targets n g now reqs s ps :
  0 <= now -> 0 <= MaxEjectionPercent c ->
  rtc (pstep tick) (zero n g now, [serve Exp fuel c n targets reqs]) (s, ps) -> Inv c n s.
Proof.
  intros Hnow Hmax Hr. pose proof (lat_rg c n) as RG.
  eapply (pool_sound tick R G (Inv c n) (fun _ _ _ => True)); [| |exact Hr].
  - split; [done|]. split; [apply length_replicate|]. split; [|done]. unfold capped, zero. cbn.
    enough (ejected_at now (replicate n zero_peer) = 0) as -> by lia.
    unfold ejected_at. clear RG Hr. induction n as [|k IH]; [done|]. cbn [replicate].
    rewrite filter_cons_False; [exact IH|cbn; lia].
  - intros [|j] p Hp; [|done]. injection Hp as <-.
    eapply (rg_mono R G (Inv c n)); [|apply triple_serve]; [done|].
    intros i Hi. unfold peer, zero. cbn. by rewrite lookup_replicate_2.
Qed.

Lemma lat_init_config_ok c :
  let c' := init_config c in
  0 < MaxEjectionPercent c' <= 100 /\ MaxEjectionPercent c' < PanicThreshold c' /\ 2 <= MinHosts c' /\
  0 < EjectTimeout c' <= MaxEjectTimeout c'.
Proof.
  unfold init_config; cbn. unfold defaultMaxEjectionPercent, defaultPanicThreshold, defaultLatMinHosts,
    Ejecting.defaultEjectTimeout, Ejecting.defaultMaxEjectTimeout, Minute, Second, Millisecond.
  bool_case; lia.
Qed.

(** When requests are served one after the other, with any transports and
    durations and the clock advancing (and the health gate changing) at any point, the
    targets that are ejected at any moment never exceed MaxEjectionPercent of the
    pool, whatever the configuration. *)
Theorem lat_ejection_cap Exp fuel c targets g now reqs s ps :
  let n := length targets in
  0 <= now ->
  rtc (pstep tick) (zero n g now, [serve Exp fuel (init_config c) n targets reqs]) (s, ps) ->
  ejected_at (clock s) (peers s) * 100 <= MaxEjectionPercent (init_config c) * Z.of_nat n.
Proof.
  intros n Hnow Hr. pose proof (lat_init_config_ok c) as [Hc _].
  apply lat_reachable in Hr as (_ & _ & H & _); [done|done|lia].
Qed.

(** In the same runs, every ejection of a target is preceded by at least
    MinSamples measured round trips of it since its previous ejection (or start-up): a
    target back from its cooldown is never ejected again on stale or too few samples. *)
Theorem lat_ejection_earned Exp fuel c targets g now reqs s ps :
  let n := length targets in
  0 <= now ->
  rtc (pstep tick) (zero n g now, [serve Exp fuel (init_config c) n targets reqs]) (s, ps) ->
  earned (init_config c) (history s).
Proof.
  intros n Hnow Hr. pose proof (lat_init_config_ok c) as [Hc _].
  apply lat_reachable in Hr as (_ & _ & _ & H); [done|done|lia].
Qed.

(** ** Witnesses *)

(** Three targets, two samples to be eligible; the third is slow. *)
Definition demo_config : config := mkConfig (float64 3) 2 2 0 0 0 50 0 10 40.
Definition demo_target (h : string) : Target := mkTarget (fun _ => Returned (Some (mkResponse 200 ∅ None)) None) h 1 0.
Definition demo_targets : list Target := demo_target <$> ["a"; "b"; "c"].
Definition demo_reqs : list (Request * Z) :=
  (fun d => (mkRequest "GET" "" ∅, d * Millisecond)) <$> [10; 10; 900; 10; 10; 900; 10; 10; 900].
Definition demo_run := exec (replicate 400 0%nat)
  (zero 3 None 5, [serve (fun _ => float64 0) 2 (init_config demo_config) 3 demo_targets demo_reqs]).

Lemma lat_ejection_cap_witness :
  ejected_at 5 (peers demo_run.1) = 1 /\ ejected_at 5 (peers demo_run.1) * 100 <= 50 * 3.
Proof.
  split; [vm_compute; reflexivity|].
  apply (lat_ejection_cap (fun _ => float64 0) 2 demo_config demo_targets None 5 demo_reqs demo_run.1 demo_run.2);
    [lia|]. rewrite <- surjective_pairing. apply (exec_rtc tick).
Defined.

Lemma lat_ejection_earned_witness :
  Ejected 2 ∈ history demo_run.1 /\ earned (init_config demo_config) (history demo_run.1).
Proof.
  split; [apply (bool_decide_unpack (Ejected 2 ∈ history demo_run.1)); vm_compute; exact I|].
  apply (lat_ejection_earned (fun _ => float64 0) 2 demo_config demo_targets None 5 demo_reqs demo_run.1 demo_run.2);
    [lia|]. rewrite <- surjective_pairing. apply (exec_rtc tick).
Defined.

Lemma lat_median_robust_witness :
  let vals := float64 <$> [900; 10; 12] in
  (median_of vals).1 = float64 12 /\ (median_of vals).1 ∈ vals /\
  f_leq (float64 12) (median_of vals).1 /\ f_leq (median_of vals).1 (float64 12).
Proof.
  split; [vm_compute; reflexivity|].
  apply (lat_median_robust (float64 <$> [900; 10; 12]) (float64 12) (float64 12));
    [vm_compute; reflexivity|apply Nat.ltb_lt; vm_compute; reflexivity..].
Defined.

End LatencyEjectingFacts.
