(* ===== verification/HealthCheck.v ===== *)
(** * pkg/upstream: active health checks

    [src/pkg/upstream/healthcheck.go].  Three parts: the configuration and the
    classification of a probe's outcome; the verdict counters of one target, which
    only its own goroutine touches; and the lifecycle ([start], [Close] and the
    probe goroutines) as a step relation over the sections the mutex and the
    [sync.Once] make atomic. *)

From Stdlib Require Import Ascii.
From S2P Require Import Prelude Http UpstreamState.

Module HealthCheck.

Definition defaultHCProbePath : string := "/".
Definition defaultHCProbeMethod : string := "GET".
Definition defaultHCProbeScheme : string := "http".
Definition defaultHCProbeInterval : Z := 10 * Second.
Definition defaultHCProbeTimeout : Z := 5 * Second.
Definition defaultHCHealthyThreshold : Z := 1.
Definition defaultHCUnhealthyThreshold : Z := 3.

(** The errors [errors.Is] and [errors.As] meet when they unwrap an error, with
    what [Timeout] says of those that are a [net.Error]. *)
Inductive fault_kind :=
  | KDNS | KDeadlineExceeded | KCertificate | KRecordHeader | KConnRefused | KConnReset
  | KEOF | KUnexpectedEOF | KOther.

#[global] Instance fault_kind_eq_dec : EqDecision fault_kind.
Proof. solve_decision. Defined.

Record fault := mkFault { kind : fault_kind; net_timeout : option bool }.

Record ActiveHealthCheck := mkHC {
  Path : string;
  Method : string;
  Scheme : string;
  Interval : Z;
  Timeout : Z;
  HealthyThld : Z;
  UnhealthyThld : Z;
  StartUnhealthy : bool;
  IsHealthy : option (option Response -> option (list fault) -> bool);
}.

Definition orS (s d : string) : string := if String.eqb s "" then d else s.
Definition orZ (z d : Z) : Z := if z <=? 0 then d else z.

Definition init_config (a : ActiveHealthCheck) : ActiveHealthCheck :=
  let path := orS (Path a) defaultHCProbePath in
  let path := match path with
              | String c _ => if Ascii.eqb c "/"%char then path else String "/"%char path
              | EmptyString => path
              end in
  mkHC path (orS (Method a) defaultHCProbeMethod) (orS (Scheme a) defaultHCProbeScheme)
       (orZ (Interval a) defaultHCProbeInterval) (orZ (Timeout a) defaultHCProbeTimeout)
       (orZ (HealthyThld a) defaultHCHealthyThreshold) (orZ (UnhealthyThld a) defaultHCUnhealthyThreshold)
       (StartUnhealthy a) (IsHealthy a).

Record probeTarget := mkPT { host : string; up : bool; okRun : Z; failRun : Z }.

Definition init_target (a : ActiveHealthCheck) (h : string) : probeTarget :=
  mkPT h (negb (StartUnhealthy a)) 0 0.

Definition healthy (a : ActiveHealthCheck) (resp : option Response) (err : option (list fault)) : bool :=
  match IsHealthy a with
  | Some f => f resp err
  | None => match err, resp with
            | None, Some resp => StatusCode resp <? 400
            | _, _ => false
            end
  end.

Definition meets (k : fault_kind) (err : list fault) : bool := existsb (fun f => bool_decide (kind f = k)) err.

(** [errors.As] to a [net.Error]: the first that is one. *)
Fixpoint first_net (err : list fault) : option bool :=
  match err with
  | [] => None
  | f :: err => match net_timeout f with Some t => Some t | None => first_net err end
  end.

Definition classifyProbeCause (resp : option Response) (err : option (list fault)) : ProbeCause :=
  match err with
  | None => CauseStatus
  | Some err =>
      if meets KDNS err then CauseDNS
      else if meets KDeadlineExceeded err then CauseTimeout
      else if meets KCertificate err || meets KRecordHeader err then CauseTLS
      else if meets KConnRefused err then CauseRefused
      else if meets KConnReset err || meets KEOF err || meets KUnexpectedEOF err then CauseReset
      else match first_net err with
           | Some true => CauseTimeout
           | _ => CauseError
           end
  end.

Definition observe (a : ActiveHealthCheck) (ok : bool) (cause : ProbeCause) (pt : probeTarget)
    : probeTarget * list StateChange :=
  if ok then
    let ok' := i64 (okRun pt + 1) in
    if (HealthyThld a <=? ok') && negb (up pt)
    then (mkPT (host pt) true ok' 0,
          [mkStateChange (host pt) StateOpen StateClosed ReasonProbeRecover CauseNone])
    else (mkPT (host pt) (up pt) ok' 0, [])
  else
    let fail' := i64 (failRun pt + 1) in
    if (UnhealthyThld a <=? fail') && up pt
    then (mkPT (host pt) false 0 fail',
          [mkStateChange (host pt) StateClosed StateOpen ReasonProbeDown cause])
    else (mkPT (host pt) (up pt) 0 fail', []).

(** What a probe can meet: whether the request could be built, what the transport
    returned, and whether the prober's own context is cancelled when it is done. *)
Record probing := mkProbing {
  built : bool;
  answer : option Response * option (list fault);
  shut : bool;
}.

Definition probe (a : ActiveHealthCheck) (p : probing) (pt : probeTarget) : probeTarget * list StateChange :=
  if negb (built p) then (if shut p then (pt, []) else observe a false CauseError pt)
  else if shut p then (pt, [])
  else
    let '(resp, err) := answer p in
    let ok := healthy a resp err in
    observe a ok (if ok then CauseNone else classifyProbeCause resp err) pt.

(** ** Lifecycle *)

Inductive once_phase := NotStarted | Inited | Started.

(** [pending]: the probe goroutines added to the wait group and not yet started;
    [running]: those that run.  [published] is [a.cancel != nil]. *)
Record lifecycle := mkLife {
  phase : once_phase;
  closed : bool;
  published : bool;
  cancelled : bool;
  pending : list nat;
  running : list nat;
  gate : list bool;
  returned : bool;
}.

Definition fresh : lifecycle := mkLife NotStarted false false false [] [] [] false.

Section Lifecycle.
Variable a : ActiveHealthCheck.
Variable n : nat.

(** [init], the first thing in the [Once]. *)
Definition do_init (l : lifecycle) : lifecycle :=
  mkLife Inited (closed l) (published l) (cancelled l) (pending l) (running l)
         (replicate n (negb (StartUnhealthy a))) (returned l).

(** The section of [start] under the mutex. *)
Definition do_start (l : lifecycle) : lifecycle :=
  if closed l
  then mkLife Started true (published l) (cancelled l) (pending l) (running l) (replicate n true) (returned l)
  else mkLife Started false true (cancelled l) (seq 0 n) (running l) (gate l) (returned l).

Definition do_close (l : lifecycle) : lifecycle :=
  mkLife (phase l) true (published l) (cancelled l || published l) (pending l) (running l) (gate l) (returned l).

Inductive step : lifecycle -> lifecycle -> Prop :=
  | step_init l : phase l = NotStarted -> step l (do_init l)
  | step_start l : phase l = Inited -> step l (do_start l)
  | step_go l i js :
      pending l = i :: js ->
      step l (mkLife (phase l) (closed l) (published l) (cancelled l) js (i :: running l) (gate l) (returned l))
  | step_verdict l i b :
      i ∈ running l ->
      step l (mkLife (phase l) (closed l) (published l) (cancelled l) (pending l) (running l)
                     (<[i := b]> (gate l)) (returned l))
  | step_exit l i js1 js2 :
      running l = js1 ++ i :: js2 -> cancelled l = true ->
      step l (mkLife (phase l) (closed l) (published l) (cancelled l) (pending l) (js1 ++ js2) (gate l) (returned l))
  (* the context given to [Start] is cancelled *)
  | step_ctx l :
      published l = true ->
      step l (mkLife (phase l) (closed l) true true (pending l) (running l) (gate l) (returned l))
  | step_close l : step l (do_close l)
  | step_wait l :
      closed l = true -> pending l = [] -> running l = [] ->
      step l (mkLife (phase l) true (published l) (cancelled l) [] [] (gate l) true).
End Lifecycle.
End HealthCheck.

Module HealthCheckFacts.
Import HealthCheck.

(** ** The gate is a function of the verdicts *)

(** How many of the latest verdicts (newest first) are [b]. *)
Fixpoint latest (b : bool) (vs : list bool) : Z :=
  match vs with
  | [] => 0
  | v :: vs => if Bool.eqb v b then 1 + latest b vs else 0
  end.

(** Up after [H] successes in a row, down after [U] failures in a row, else as
    before. *)
Fixpoint debounced (H U : Z) (start : bool) (vs : list bool) : bool :=
  match vs with
  | [] => start
  | v :: older =>
      if v then (if H <=? latest true vs then true else debounced H U start older)
      else (if U <=? latest false vs then false else debounced H U start older)
  end.

Fixpoint observe_all (a : ActiveHealthCheck) (vs : list (bool * ProbeCause)) (pt : probeTarget)
    : probeTarget * list StateChange :=
  match vs with
  | [] => (pt, [])
  | (ok, cause) :: older =>
      let '(pt, evs) := observe_all a older pt in
      let '(pt, ev) := observe a ok cause pt in (pt, evs ++ ev)
  end.

(** The events of a history, oldest first: one per change of the gate. *)
Fixpoint changes (h : string) (H U : Z) (start : bool) (vs : list (bool * ProbeCause)) : list StateChange :=
  match vs with
  | [] => []
  | (ok, cause) :: older =>
      let before := debounced H U start older.*1 in
      let after := debounced H U start vs.*1 in
      changes h H U start older ++
      (if Bool.eqb before after then []
       else if after then [mkStateChange h StateOpen StateClosed ReasonProbeRecover CauseNone]
       else [mkStateChange h StateClosed StateOpen ReasonProbeDown cause])
  end.

Lemma latest_bounds b vs : 0 <= latest b vs <= Z.of_nat (length vs).
Proof. induction vs as [|v vs IH]; cbn [latest length]; [done|]. case_match; lia. Qed.

Lemma observe_all_ok a vs h start :
  Z.of_nat (length vs) <= max_i64 ->
  observe_all a vs (mkPT h start 0 0)
  = (mkPT h (debounced (HealthyThld a) (UnhealthyThld a) start vs.*1)
          (latest true vs.*1) (latest false vs.*1),
     changes h (HealthyThld a) (UnhealthyThld a) start vs).
Proof.
  induction vs as [|[ok cause] vs IH]; intros Hl; [done|]. cbn [length] in Hl.
  cbn [observe_all]. rewrite IH by lia. unfold observe. cbn [host up okRun failRun fmap list_fmap fst changes debounced].
  pose proof (latest_bounds true vs.*1). pose proof (latest_bounds false vs.*1). rewrite length_fmap in *.
  unfold max_i64 in *. rewrite !i64_small by lia.
  destruct ok; cbn [latest Bool.eqb].
  - rewrite (Z.add_comm 1).
    destruct (HealthyThld a <=? latest true vs.*1 + 1), (debounced (HealthyThld a) (UnhealthyThld a) start vs.*1);
      cbn; by rewrite ?app_nil_r.
  - rewrite (Z.add_comm 1).
    destruct (UnhealthyThld a <=? latest false vs.*1 + 1), (debounced (HealthyThld a) (UnhealthyThld a) start vs.*1);
      cbn; by rewrite ?app_nil_r.
Qed.

(** The verdict of a probe; a probe cut off by shutdown has none. *)
Definition verdict (a : ActiveHealthCheck) (p : probing) : option (bool * ProbeCause) :=
  if shut p then None
  else if built p then
    let '(resp, err) := answer p in
    if healthy a resp err then Some (true, CauseNone) else Some (false, classifyProbeCause resp err)
  else Some (false, CauseError).

(** A target's probes, newest first. *)
Fixpoint probe_all (a : ActiveHealthCheck) (ps : list probing) (pt : probeTarget)
    : probeTarget * list StateChange :=
  match ps with
  | [] => (pt, [])
  | p :: older =>
      let '(pt, evs) := probe_all a older pt in
      let '(pt, ev) := probe a p pt in (pt, evs ++ ev)
  end.

Lemma probe_verdict a p pt :
  probe a p pt = match verdict a p with Some (ok, cause) => observe a ok cause pt | None => (pt, []) end.
Proof.
  unfold probe, verdict. destruct (built p), (shut p); cbn; try done.
  destruct (answer p) as [resp err]. by destruct (healthy a resp err).
Qed.

Lemma probe_all_verdicts a ps pt : probe_all a ps pt = observe_all a (omap (verdict a) ps) pt.
Proof.
  induction ps as [|p ps IH]; [done|]. cbn [probe_all]. rewrite IH.
  assert (omap (verdict a) (p :: ps)
          = match verdict a p with Some v => v :: omap (verdict a) ps | None => omap (verdict a) ps end) as ->
    by done.
  destruct (observe_all a (omap (verdict a) ps) pt) as [pt' evs] eqn:E. rewrite probe_verdict.
  destruct (verdict a p) as [[ok cause]|]; cbn [observe_all]; rewrite E; [done|by rewrite app_nil_r].
Qed.

Lemma omap_length {A B} (f : A -> option B) l : (length (omap f l) <= length l)%nat.
Proof. induction l as [|x l IH]; cbn; [done|]. destruct (f x); cbn; lia. Qed.

(** C38: For every history of a target's probes the gate is the debounced verdict: up
    after HealthyThld successes in a row, down after UnhealthyThld failures in a row,
    otherwise as it was; exactly one event per change, with its classified cause; and
    a probe cut off by shutdown counts for nothing. *)
Theorem hc_gate_debounced a h ps :
  Z.of_nat (length ps) <= max_i64 ->
  let a := init_config a in
  let '(pt, evs) := probe_all a ps (init_target a h) in
  let vs := omap (verdict a) ps in
  let start := negb (StartUnhealthy a) in
  up pt = debounced (HealthyThld a) (UnhealthyThld a) start vs.*1
  /\ evs = changes h (HealthyThld a) (UnhealthyThld a) start vs
  /\ 0 < HealthyThld a /\ 0 < UnhealthyThld a.
Proof.
  intros Hl a'. pose proof (omap_length (verdict a') ps).
  unfold init_target. rewrite probe_all_verdicts, observe_all_ok by lia. cbn [up].
  split; [done|]. split; [done|]. unfold a', init_config, orZ. cbn. split; case_match; bool_prop; done || lia.
Qed.

(** ** Lifecycle *)

Section Lifecycle.
Variable a : ActiveHealthCheck.
Variable n : nat.

Definition reachable (l : lifecycle) : Prop := rtc (step a n) fresh l.

Record linv (l : lifecycle) : Prop := {
  li_started : published l = true -> phase l = Started;
  li_idle : published l = false -> pending l = [] /\ running l = [];
  li_cancel : closed l = true -> published l = true -> cancelled l = true;
  li_returned : returned l = true -> closed l = true /\ pending l = [] /\ running l = [];
  li_open : phase l = Started -> published l = false -> closed l = true /\ gate l = replicate n true;
}.

Lemma linv_fresh : linv fresh.
Proof. by split. Qed.

Lemma linv_step l l' : linv l -> step a n l l' -> linv l'.
Proof.
  intros [H1 H2 H3 H4 H5] Hst. destruct Hst as [l Hp|l Hp|l i js Hp|l i b Hi|l i js1 js2 Hr Hc|l Hp|l|l Hc Hp Hr].
  - assert (published l = false) as Hpub by (destruct (published l); [by rewrite Hp in H1; discriminate (H1 eq_refl)|done]).
    unfold do_init. split; cbn; try done; rewrite Hpub; done.
  - assert (published l = false) as Hpub by (destruct (published l); [by rewrite Hp in H1; discriminate (H1 eq_refl)|done]).
    destruct (H2 Hpub) as [Ep Er]. unfold do_start. destruct (closed l) eqn:Ec.
    + split; cbn; try done; rewrite ?Hpub; done.
    + split; cbn; try done. intros Hret. by destruct (H4 Hret).
  - split; cbn; try done.
    + intros Hpub. destruct (H2 Hpub) as [E _]. congruence.
    + intros Hret. destruct (H4 Hret) as (_ & E & _). congruence.
  - assert (published l = true) as Hpub.
    { destruct (published l); [done|]. destruct (H2 eq_refl) as [_ E]. rewrite E in Hi. by apply elem_of_nil in Hi. }
    split; cbn; try done. congruence.
  - assert (published l = true) as Hpub.
    { destruct (published l); [done|]. destruct (H2 eq_refl) as [_ E]. rewrite E in Hr. by destruct js1. }
    split; cbn; try done; try congruence.
    intros Hret. destruct (H4 Hret) as (_ & _ & E). rewrite E in Hr. by destruct js1.
  - split; cbn; try done. by intros _; apply H1.
  - unfold do_close. split; cbn; try done.
    + intros _ ->. apply orb_true_r.
    + intros Hret. by destruct (H4 Hret).
    + intros Hph Hpub. by destruct (H5 Hph Hpub).
  - split; cbn; try done; [intros _; by apply H3|intros Hph Hpub; by destruct (H5 Hph Hpub)].
Qed.

Lemma reachable_linv l : reachable l -> linv l.
Proof.
  intros H. apply (rtc_ind_r linv) in H; [done|apply linv_fresh|]. intros; by eapply linv_step.
Qed.

(** Once cancelled, the goroutines start and exit until none is left. *)
Lemma drain l : cancelled l = true -> exists l', rtc (step a n) l l'
  /\ pending l' = [] /\ running l' = [] /\ closed l' = closed l /\ gate l' = gate l.
Proof.
  remember (2 * length (pending l) + length (running l))%nat as k eqn:Ek. revert l Ek.
  induction k as [k IH] using lt_wf_ind. intros l Ek Hc.
  destruct (pending l) as [|i js] eqn:Ep; [destruct (running l) as [|i js] eqn:Er|].
  - by exists l.
  - assert (step a n l (mkLife (phase l) (closed l) (published l) (cancelled l) (pending l) ([] ++ js) (gate l) (returned l)))
      as Hst by (by eapply step_exit).
    set (l1 := mkLife _ _ _ _ _ _ _ _) in Hst.
    destruct (IH (2 * length (pending l1) + length (running l1))%nat) with (l := l1) as (l' & Hr & H'); [|done|done|].
    { subst k l1. cbn. rewrite Ep. cbn. lia. }
    exists l'. split; [by eapply rtc_l|done].
  - assert (step a n l (mkLife (phase l) (closed l) (published l) (cancelled l) js (i :: running l) (gate l) (returned l)))
      as Hst by (by eapply step_go).
    set (l1 := mkLife _ _ _ _ _ _ _ _) in Hst.
    destruct (IH (2 * length (pending l1) + length (running l1))%nat) with (l := l1) as (l' & Hr & H'); [|done|done|].
    { subst k l1. cbn. lia. }
    exists l'. split; [by eapply rtc_l|done].
Qed.

(** In every interleaving of start, Close, probe goroutines and verdicts, a Close
    that has returned leaves no probe goroutine and none ever starts later, a Close
    that was called can always return, and a start that loses to Close leaves the
    whole gate open. *)
Theorem hc_close_drains l :
  reachable l ->
  (returned l = true -> pending l = [] /\ running l = [])
  /\ (closed l = true -> exists l', rtc (step a n) l l' /\ returned l' = true)
  /\ (phase l = Started -> published l = false -> gate l = replicate n true).
Proof.
  intros H. apply reachable_linv in H as [H1 H2 H3 H4 H5]. split; [|split].
  - intros Hret. by destruct (H4 Hret) as (_ & ? & ?).
  - intros Hc.
    assert (exists l1, rtc (step a n) l l1 /\ pending l1 = [] /\ running l1 = [] /\ closed l1 = true) as (l1 & Hr & E1 & E2 & E3).
    { destruct (published l) eqn:Ep.
      - destruct (drain l (H3 Hc eq_refl)) as (l1 & Hr & ? & ? & Ec & _). exists l1. by rewrite Ec.
      - destruct (H2 eq_refl). by exists l. }
    eexists. split; [eapply rtc_r; [exact Hr|by apply step_wait]|done].
  - intros Hph Hpub. by destruct (H5 Hph Hpub).
Qed.
End Lifecycle.

(** ** Witnesses *)

Definition demo_hc : ActiveHealthCheck := mkHC "" "" "" 0 0 2 2 false None.

Definition probed (status : Z) : probing := mkProbing true (Some (mkResponse status ∅ None), None) false.

Lemma hc_gate_debounced_witness :
  up (probe_all (init_config demo_hc) [probed 200; probed 503; probed 500; probed 200] (init_target (init_config demo_hc) "h")).1
  = false.
Proof.
  exact (proj1 (hc_gate_debounced demo_hc "h" [probed 200; probed 503; probed 500; probed 200] ltac:(vm_compute; discriminate))).
Defined.

(** [Close] before the first request of a pool that starts unhealthy. *)
Lemma hc_close_drains_witness :
  gate (do_start 2 (do_init (mkHC "" "" "" 0 0 1 1 true None) 2 (do_close fresh))) = [true; true].
Proof.
  refine (proj2 (proj2 (hc_close_drains (mkHC "" "" "" 0 0 1 1 true None) 2
    (do_start 2 (do_init (mkHC "" "" "" 0 0 1 1 true None) 2 (do_close fresh))) _)) eq_refl eq_refl).
  eapply rtc_l; [apply step_close|]. eapply rtc_l; [by apply step_init|]. eapply rtc_l; [by apply step_start|].
  apply rtc_refl.
Defined.
End HealthCheckFacts.
