(* ===== verification/RateLimit.v ===== *)
(** * pkg/ratelimit: the middleware and the strategy interface

    [src/pkg/ratelimit/ratelimit.go] and [observe.go].  The Go interface [Strategy]
    is a type class of operations; the middleware is a function over any instance,
    and its theorems are proved against the class, so they hold of every strategy
    of the package.  The handler it wraps is a tree of calls on the response
    writer, each continuing on the call's reply, that returns or panics. *)

From stdpp Require Import pretty.
From Stdlib Require Import Ascii.
From S2P Require Import Prelude Http.

(** [Take] and [After] read the clock; [Put] does not.  A result [None] is a
    panic (a division by a zero window, a write to a nil map). *)
Class Strategy (St : Type) := {
  Take : Z -> string -> St -> St * option bool;
  Put : string -> St -> St;
  After : Z -> string -> St -> option Z;
}.

Module RateLimit.

Inductive Result := ResultAllowed | ResultLimited.

Definition Result_String (r : Result) : string :=
  match r with
  | ResultAllowed => "allowed"
  | ResultLimited => "limited"
  end.

Record Event := mkEvent { ev_name : string; ev_result : Result }.

(** What a handler does with its writer, the replies it gets, and the handler. *)
Inductive call :=
  | WriteHeader (code : Z)
  | Write (data : string)
  | Hijack
  | Flush
  | Push (target : string).

Inductive reply := ReplyOk | ErrNotSupported.

Inductive handler :=
  | Return
  | Panic
  | Do (c : call) (k : reply -> handler).

Inductive ending := Returned | Panicked.

(** What reaches the underlying writer. *)
Inductive sent :=
  | SHeader (code : Z)
  | SSet (name value : string)
  | SDel (name : string)
  | SData (data : string)
  | SHijack
  | SFlush
  | SPush (target : string).

(** The optional interfaces the underlying writer implements. *)
Record caps := mkCaps { Hijacker : bool; Flusher : bool; Pusher : bool }.

Record RateLimiter := mkRL {
  Key : option (Request -> string);
  ExceededHandler : option (Request -> Z -> list sent);
  Observe : bool;
  Name : string;
  ReleaseOnWriteHeader : bool;
  ReleaseOnHijacked : bool;
}.

(** [http.Error(w, msg, code)]. *)
Definition http_error (msg : string) (code : Z) : list sent :=
  [SDel "Content-Length"; SSet "Content-Type" "text/plain; charset=utf-8"; SSet "X-Content-Type-Options" "nosniff";
   SHeader code; SData (msg +:+ String "010"%char "")].

Definition defaultExceededHandler (_ : Request) (after : Z) : list sent :=
  (if 0 <? after then [SSet "Retry-After" (pretty (Z.quot after Second))] else []) ++ http_error "Too Many Requests" 429.

Definition defaultKey (_ : Request) : string := "".

(** Calls of the strategy, in order. *)
Inductive scall := CTake (key : string) (ok : option bool) | CPut (key : string) | CAfter (key : string).

Section Middleware.
Context {St : Type} `{!Strategy St}.

(** Everything one request touches. *)
Record world := mkWorld {
  strat : St;
  calls : list scall;
  wire : list sent;
  seen : list Event;
}.

(** The wrapped [responseWriter]'s own fields; [ReleaseOnWriteHeader] and
    [ReleaseOnHijacked] are copied from the limiter and never change. *)
Record responseWriter := mkRW {
  rw_key : string;
  wroteHeader : bool;
  released : bool;
  releaseOnWriteHeader : bool;
  releaseOnHijack : bool;
}.

Definition do_put (key : string) (w : world) : world :=
  mkWorld (Put key (strat w)) (calls w ++ [CPut key]) (wire w) (seen w).
Definition do_send (x : list sent) (w : world) : world :=
  mkWorld (strat w) (calls w) (wire w ++ x) (seen w).

Definition release (rw : responseWriter) (w : world) : responseWriter * world :=
  if released rw then (rw, w)
  else (mkRW (rw_key rw) (wroteHeader rw) true (releaseOnWriteHeader rw) (releaseOnHijack rw),
        do_put (rw_key rw) w).

Definition rw_WriteHeader (code : Z) (rw : responseWriter) (w : world) : responseWriter * world :=
  if wroteHeader rw then (rw, w)
  else
    let rw := mkRW (rw_key rw) true (released rw) (releaseOnWriteHeader rw) (releaseOnHijack rw) in
    let '(rw, w) := if releaseOnWriteHeader rw then release rw w else (rw, w) in
    (rw, do_send [SHeader code] w).

Definition rw_Write (data : string) (rw : responseWriter) (w : world) : responseWriter * world :=
  let '(rw, w) := if wroteHeader rw then (rw, w) else rw_WriteHeader 200 rw w in
  (rw, do_send [SData data] w).

Definition rw_Push (cp : caps) (target : string) (w : world) : world * reply :=
  if Pusher cp then (do_send [SPush target] w, ReplyOk) else (w, ErrNotSupported).

Definition rw_Flush (cp : caps) (w : world) : world :=
  if Flusher cp then do_send [SFlush] w else w.

Definition rw_Hijack (cp : caps) (rw : responseWriter) (w : world)
    : responseWriter * world * reply :=
  if Hijacker cp then
    let '(rw, w) := if releaseOnHijack rw then release rw w else (rw, w) in
    (rw, do_send [SHijack] w, ReplyOk)
  else (rw, w, ErrNotSupported).

Definition rw_call (cp : caps) (c : call) (rw : responseWriter) (w : world)
    : responseWriter * world * reply :=
  match c with
  | WriteHeader code => (rw_WriteHeader code rw w, ReplyOk)
  | Write data => (rw_Write data rw w, ReplyOk)
  | Hijack => rw_Hijack cp rw w
  | Flush => (rw, rw_Flush cp w, ReplyOk)
  | Push target => let '(w, r) := rw_Push cp target w in (rw, w, r)
  end.

(** The handler on the wrapped writer ... *)
Fixpoint run_wrapped (cp : caps) (h : handler) (rw : responseWriter) (w : world)
    : responseWriter * world * ending :=
  match h with
  | Return => (rw, w, Returned)
  | Panic => (rw, w, Panicked)
  | Do c k => let '(rw, w, r) := rw_call cp c rw w in run_wrapped cp (k r) rw w
  end.

(** ... and on the writer the middleware was given. *)
Definition bare_call (cp : caps) (c : call) (w : world) : world * reply :=
  match c with
  | WriteHeader code => (do_send [SHeader code] w, ReplyOk)
  | Write data => (do_send [SData data] w, ReplyOk)
  | Hijack => if Hijacker cp then (do_send [SHijack] w, ReplyOk) else (w, ErrNotSupported)
  | Flush => (if Flusher cp then do_send [SFlush] w else w, ReplyOk)
  | Push target => if Pusher cp then (do_send [SPush target] w, ReplyOk) else (w, ErrNotSupported)
  end.

Fixpoint run_bare (cp : caps) (h : handler) (w : world) : world * ending :=
  match h with
  | Return => (w, Returned)
  | Panic => (w, Panicked)
  | Do c k => let '(w, r) := bare_call cp c w in run_bare cp (k r) w
  end.

Definition observe (m : RateLimiter) (r : Result) (w : world) : world :=
  if Observe m then mkWorld (strat w) (calls w) (wire w) (seen w ++ [mkEvent (Name m) r]) else w.

(** The rejected branch, the same in both handlers: [after] is when [After]
    reads the clock. *)
Definition exceed (m : RateLimiter) (after : Z) (r : Request) (key : string) (w : world) : world * ending :=
  let w := observe m ResultLimited w in
  let d := After after key (strat w) in
  let w := mkWorld (strat w) (calls w ++ [CAfter key]) (wire w) (seen w) in
  match d with
  | Some d => (do_send (default defaultExceededHandler (ExceededHandler m) r d) w, Returned)
  | None => (w, Panicked)
  end.

Definition take (now : Z) (key : string) (w : world) : world * option bool :=
  let '(st, ok) := Take now key (strat w) in
  (mkWorld st (calls w ++ [CTake key ok]) (wire w) (seen w), ok).

(** [ServeHandler]'s handler for request [r] at time [now] around [h]. The
    deferred release runs on a return and on a panic alike. *)
Definition serve (m : RateLimiter) (cp : caps) (now after : Z) (r : Request) (h : handler)
    (w : world) : world * ending :=
  let key := default defaultKey (Key m) r in
  let '(w, ok) := take now key w in
  match ok with
  | None => (w, Panicked)
  | Some false => exceed m after r key w
  | Some true =>
    let w := observe m ResultAllowed w in
    if negb (ReleaseOnWriteHeader m) && negb (ReleaseOnHijacked m) then
      let '(w, e) := run_bare cp h w in (do_put key w, e)
    else
      let rw := mkRW key false false (ReleaseOnWriteHeader m) (ReleaseOnHijacked m) in
      let '(rw, w, e) := run_wrapped cp h rw w in
      (snd (release rw w), e)
  end.
End Middleware.
Arguments world : clear implicits.
End RateLimit.

Module RateLimitFacts.
Import RateLimit.

Section Facts.
Context {St : Type} `{!Strategy St}.

(** What the wrapped writer has done to the strategy since the request was
    admitted in [w0]: nothing, or one [Put] of its key. *)
Definition tracked (w0 : world St) (key : string) (rw : responseWriter) (w : world St) : Prop :=
  rw_key rw = key /\ seen w = seen w0 /\
  (if released rw
   then strat w = Put key (strat w0) /\ calls w = calls w0 ++ [CPut key]
   else strat w = strat w0 /\ calls w = calls w0).

Lemma tracked_send w0 key rw w x : tracked w0 key rw w -> tracked w0 key rw (do_send x w).
Proof. done. Qed.

Lemma tracked_release w0 key rw w :
  tracked w0 key rw w ->
  tracked w0 key (release rw w).1 (release rw w).2 /\ released (release rw w).1 = true.
Proof.
  intros (<- & Hs & H). unfold release. destruct (released rw) eqn:E; cbn.
  - split; [|done]. unfold tracked. by rewrite E.
  - destruct H as [Hst Hc]. split; [|done]. unfold tracked. cbn. by rewrite Hst, Hc.
Qed.

Lemma tracked_header w0 key rw w code :
  tracked w0 key rw w ->
  tracked w0 key (rw_WriteHeader code rw w).1 (rw_WriteHeader code rw w).2.
Proof.
  intros H. unfold rw_WriteHeader. destruct (wroteHeader rw); [done|].
  set (rw' := mkRW _ _ _ _ _).
  assert (tracked w0 key rw' w) as H' by exact H.
  cbn [releaseOnWriteHeader rw']. destruct (releaseOnWriteHeader rw); [|done].
  apply tracked_release in H' as [H' _].
  destruct (release rw' w). by apply tracked_send.
Qed.

Lemma tracked_call cp c w0 key rw w :
  tracked w0 key rw w ->
  tracked w0 key (rw_call cp c rw w).1.1 (rw_call cp c rw w).1.2.
Proof.
  intros H. destruct c; cbn.
  - by apply tracked_header.
  - unfold rw_Write. destruct (wroteHeader rw); [done|].
    apply (tracked_header _ _ _ _ 200) in H.
    destruct (rw_WriteHeader 200 rw w). by apply tracked_send.
  - unfold rw_Hijack. destruct (Hijacker cp); [|done].
    destruct (releaseOnHijack rw); [|done].
    apply tracked_release in H as [H _]. destruct (release rw w). by apply tracked_send.
  - unfold rw_Flush. by destruct (Flusher cp).
  - unfold rw_Push. by destruct (Pusher cp).
Qed.

(** The ending of a handler does not depend on the wrapper: every call gets the
    same reply. *)
Lemma rw_call_reply cp c rw (w w' : world St) : (rw_call cp c rw w).2 = (bare_call cp c w').2.
Proof.
  destruct c; cbn; try done.
  - unfold rw_Hijack. destruct (Hijacker cp); [|done]. by destruct (releaseOnHijack rw), (release rw w).
  - unfold rw_Push. by destruct (Pusher cp).
Qed.

Lemma run_wrapped_tracked cp h w0 key rw w :
  tracked w0 key rw w ->
  tracked w0 key (run_wrapped cp h rw w).1.1 (run_wrapped cp h rw w).1.2.
Proof.
  revert rw w. induction h as [| |c k IH]; intros rw w H; [done..|]. cbn.
  apply (tracked_call cp c) in H. destruct (rw_call cp c rw w) as [[rw' w'] r]. by apply IH.
Qed.

Lemma run_wrapped_ending cp h rw (w w' : world St) :
  (run_wrapped cp h rw w).2 = (run_bare cp h w').2.
Proof.
  revert rw w w'. induction h as [| |c k IH]; intros rw w w'; [done..|]. cbn.
  pose proof (rw_call_reply cp c rw w w') as Hr.
  destruct (rw_call cp c rw w) as [[rw1 w1] r], (bare_call cp c w') as [w2 r']. cbn in Hr. subst r'.
  apply IH.
Qed.

Lemma run_bare_strategy cp h (w : world St) :
  strat (run_bare cp h w).1 = strat w /\ calls (run_bare cp h w).1 = calls w /\
  seen (run_bare cp h w).1 = seen w.
Proof.
  revert w. induction h as [| |c k IH]; intros w; [done..|]. cbn.
  assert (strat (bare_call cp c w).1 = strat w /\ calls (bare_call cp c w).1 = calls w
          /\ seen (bare_call cp c w).1 = seen w) as H by (destruct c, cp as [[] [] []]; done).
  destruct (bare_call cp c w) as [w' r]. cbn in H. destruct H as (<- & <- & <-). apply IH.
Qed.

(** The events one decision adds. *)
Definition reported (m : RateLimiter) (r : Result) : list Event :=
  if Observe m then [mkEvent (Name m) r] else [].

Lemma observe_seen m r (w : world St) :
  strat (observe m r w) = strat w /\ calls (observe m r w) = calls w /\
  seen (observe m r w) = seen w ++ reported m r.
Proof. unfold observe, reported. destruct (Observe m); cbn; rewrite ?app_nil_r; done. Qed.

(** C37: For every strategy, configuration and handler (returning or panicking,
    wrapped writer or not): an admitted request calls Take once and Put exactly once,
    a rejected one calls Take, then After, and never Put; exactly one event is
    observed; the handler's own ending is kept. *)
Theorem rl_token_discipline m cp now after r h (w : world St) :
  let key := default defaultKey (Key m) r in
  let '(st, ok) := Take now key (strat w) in
  let '(w', e) := serve m cp now after r h w in
  match ok with
  | Some true =>
      strat w' = Put key st /\ calls w' = calls w ++ [CTake key ok; CPut key]
      /\ seen w' = seen w ++ reported m ResultAllowed /\ e = (run_bare cp h w).2
  | Some false =>
      strat w' = st /\ calls w' = calls w ++ [CTake key ok; CAfter key]
      /\ seen w' = seen w ++ reported m ResultLimited
      /\ match After after key st with
         | Some d => e = Returned
             /\ wire w' = wire w ++ default defaultExceededHandler (ExceededHandler m) r d
         | None => e = Panicked /\ wire w' = wire w
         end
  | None =>
      strat w' = st /\ calls w' = calls w ++ [CTake key ok] /\ seen w' = seen w
      /\ wire w' = wire w /\ e = Panicked
  end.
Proof.
  intros key. unfold serve, take. fold key.
  destruct (Take now key (strat w)) as [st [[]|]]; cbn; [| |done].
  - set (w0 := mkWorld st _ _ _).
    destruct (observe_seen m ResultAllowed w0) as (Hst & Hc & Hs).
    destruct (negb (ReleaseOnWriteHeader m) && negb (ReleaseOnHijacked m)).
    + pose proof (run_bare_strategy cp h (observe m ResultAllowed w0)) as (H1 & H2 & H3).
      pose proof (run_wrapped_ending cp h (mkRW key false false false false) w) as He.
      rewrite <- (He w), (He (observe m ResultAllowed w0)).
      destruct (run_bare _ _ _) as [w1 e]. cbn in *.
      rewrite H1, H2, H3, Hst, Hc, Hs. cbn. by rewrite <- app_assoc.
    + set (rw := mkRW _ _ _ _ _).
      rewrite <- (run_wrapped_ending cp h rw (observe m ResultAllowed w0)).
      pose proof (run_wrapped_tracked cp h (observe m ResultAllowed w0) key rw
                    (observe m ResultAllowed w0)) as H.
      destruct (run_wrapped _ _ _ _) as [[rw' w1] e]. cbn in *.
      destruct (tracked_release _ _ _ _ (H ltac:(done))) as [(_ & Hs' & Hr) Erel].
      rewrite Erel in Hr. destruct Hr as [Hr1 Hr2].
      rewrite Hr1, Hr2, Hs', Hst, Hc, Hs. cbn. by rewrite <- app_assoc.
  - unfold exceed. set (w0 := mkWorld st _ _ _).
    destruct (observe_seen m ResultLimited w0) as (Hst & Hc & Hs).
    assert (wire (observe m ResultLimited w0) = wire w) as Hw by (unfold observe; by destruct (Observe m)).
    cbn in *. rewrite Hst. destruct (After after key st); cbn;
      rewrite ?Hst, Hc, Hs, Hw; by rewrite <- app_assoc.
Qed.
End Facts.

(** ** What the client sees through the wrapped writer *)

(** net/http's informational statuses: a 1xx other than 101. *)
Definition informational (c : Z) : bool := (100 <=? c) && (c <? 200) && negb (c =? 101).

(** The status a net/http client sees of what was sent: the first one that is not
    informational, or 200 at the first data. *)
Fixpoint client_status (l : list sent) : option Z :=
  match l with
  | [] => None
  | SHeader c :: l => if informational c then client_status l else Some c
  | SData _ :: _ => Some 200
  | _ :: l => client_status l
  end.

Fixpoint payload (l : list sent) : list string :=
  match l with
  | [] => []
  | SData d :: l => d :: payload l
  | _ :: l => payload l
  end.

(** What the wrapper makes of a stream: one header, written before any data. *)
Fixpoint normalise (wrote : bool) (l : list sent) : list sent :=
  match l with
  | [] => []
  | SHeader c :: l => (if wrote then [] else [SHeader c]) ++ normalise true l
  | SData d :: l => (if wrote then [] else [SHeader 200]) ++ SData d :: normalise true l
  | x :: l => x :: normalise wrote l
  end.

Definition no_informational (l : list sent) : bool :=
  forallb (fun x => match x with SHeader c => negb (informational c) | _ => true end) l.

Section Transparency.
Context {St : Type} `{!Strategy St}.

Lemma wire_release rw (w : world St) : wire (release rw w).2 = wire w.
Proof. unfold release. by destruct (released rw). Qed.

Lemma wire_header code rw (w : world St) :
  wire (rw_WriteHeader code rw w).2 = wire w ++ (if wroteHeader rw then [] else [SHeader code])
  /\ wroteHeader (rw_WriteHeader code rw w).1 = true.
Proof.
  unfold rw_WriteHeader, release.
  destruct (wroteHeader rw) eqn:E; cbn; [by rewrite app_nil_r|].
  destruct (releaseOnWriteHeader rw), (released rw); done.
Qed.

Lemma wire_bare_call cp c (w : world St) :
  exists l, wire (bare_call cp c w).1 = wire w ++ l /\
  forall rw (w' : world St) l',
    wire (rw_call cp c rw w').1.2 ++ normalise (wroteHeader (rw_call cp c rw w').1.1) l'
    = wire w' ++ normalise (wroteHeader rw) (l ++ l').
Proof.
  destruct c; cbn.
  - exists [SHeader code]. split; [done|]. intros rw w' l'.
    destruct (wire_header code rw w') as [-> ->]. cbn. by rewrite <- app_assoc.
  - exists [SData data]. split; [done|]. intros rw w' l'. unfold rw_Write.
    destruct (wroteHeader rw) eqn:E; cbn; [by rewrite E, <- app_assoc|].
    destruct (wire_header 200 rw w') as [H1 H2]. rewrite E in H1.
    destruct (rw_WriteHeader 200 rw w'). cbn in *. rewrite H1, H2, <- !app_assoc. done.
  - unfold rw_Hijack. destruct (Hijacker cp); cbn.
    + exists [SHijack]. split; [done|]. intros rw w' l'.
      pose proof (wire_release rw w') as H. unfold release in *.
      destruct (releaseOnHijack rw), (released rw); cbn; by rewrite <- app_assoc.
    + exists []. rewrite app_nil_r. done.
  - unfold rw_Flush. destruct (Flusher cp); cbn.
    + exists [SFlush]. split; [done|]. intros. by rewrite <- app_assoc.
    + exists []. rewrite app_nil_r. done.
  - unfold rw_Push. destruct (Pusher cp); cbn.
    + exists [SPush target]. split; [done|]. intros. by rewrite <- app_assoc.
    + exists []. rewrite app_nil_r. done.
Qed.

Lemma wire_wrapped cp h (w : world St) :
  exists l, wire (run_bare cp h w).1 = wire w ++ l /\
  forall rw (w' : world St),
    wire (run_wrapped cp h rw w').1.2 = wire w' ++ normalise (wroteHeader rw) l.
Proof.
  revert w. induction h as [| |c k IH]; intros w; cbn.
  1,2: exists []; split; [by rewrite app_nil_r|]; intros; cbn; by rewrite app_nil_r.
  destruct (wire_bare_call cp c w) as (l1 & E1 & N1).
  assert (forall rw (w' : world St), (rw_call cp c rw w').2 = (bare_call cp c w).2) as Hr
    by (intros; apply rw_call_reply).
  destruct (bare_call cp c w) as [w1 r]. cbn in E1, Hr.
  destruct (IH r w1) as (l2 & E2 & N2). exists (l1 ++ l2). split.
  - by rewrite E2, E1, app_assoc.
  - intros rw w'. specialize (N1 rw w' l2). specialize (Hr rw w').
    destruct (rw_call cp c rw w') as [[rw2 w2] r2]. cbn in *. subst r2. by rewrite N2.
Qed.

Lemma client_status_normalise l :
  no_informational l = true -> client_status (normalise false l) = client_status l.
Proof.
  induction l as [|[] l IH]; cbn; try done; intros H.
  apply andb_true_iff in H as [H _]. apply negb_true_iff in H. by rewrite H.
Qed.

Lemma payload_normalise b l : payload (normalise b l) = payload l.
Proof.
  revert b. induction l as [|[] l IH]; intros b; cbn; try done; destruct b; cbn; by rewrite ?IH.
Qed.

(** Through the releasing response writer a client sees the same status and the
    same body as through the bare one, for every handler that sends no informational
    status. *)
Theorem rl_wrapper_transparent cp h rw (w w' : world St) :
  wroteHeader rw = false -> wire w = [] -> wire w' = [] ->
  no_informational (wire (run_bare cp h w).1) = true ->
  client_status (wire (run_wrapped cp h rw w').1.2) = client_status (wire (run_bare cp h w).1)
  /\ payload (wire (run_wrapped cp h rw w').1.2) = payload (wire (run_bare cp h w).1).
Proof.
  intros Hrw Hw Hw' Hn. destruct (wire_wrapped cp h w) as (l & E & N).
  rewrite E, Hw in *. rewrite N, Hw', Hrw. cbn in *.
  by rewrite client_status_normalise, payload_normalise.
Qed.

(** An informational response followed by the real one, as a reverse proxy relays
    them. *)
Definition early_hints (code : Z) (body : string) : handler :=
  Do (WriteHeader 103) (fun _ => Do (WriteHeader code) (fun _ => Do (Write body) (fun _ => Return))).

(** A handler that relays an informational status before its final one loses the
    final status in the wrapped writer: the client sees 200 where the bare writer
    delivers the real status. *)
Theorem rl_wrapper_drops_final_status cp rw (w : world St) code body :
  wroteHeader rw = false -> wire w = [] -> informational code = false ->
  client_status (wire (run_bare cp (early_hints code body) w).1) = Some code
  /\ client_status (wire (run_wrapped cp (early_hints code body) rw w).1.2) = Some 200.
Proof.
  intros Hrw Hw Hc. destruct (wire_wrapped cp (early_hints code body) w) as (l & E & N).
  rewrite E, N, Hrw, Hw. cbn in E. rewrite Hw in E. cbn in E. subst l.
  split; [|done]. cbn -[informational]. change (informational 103) with true. by rewrite Hc.
Qed.
End Transparency.

(** A strategy that admits everything, for the witnesses. *)
#[local] Instance unlimited : Strategy unit :=
  {| Take _ _ u := (u, Some true); Put _ u := u; After _ _ _ := Some 0 |}.

Definition demo_world : world unit := mkWorld tt [] [] [].
Definition demo_rw : responseWriter := mkRW "k" false false true false.

Lemma rl_wrapper_transparent_witness :
  client_status (wire (run_wrapped (mkCaps true true true)
     (Do (WriteHeader 404) (fun _ => Do (Write "no") (fun _ => Return))) demo_rw demo_world).1.2)
  = Some 404.
Proof.
  etransitivity; [apply (rl_wrapper_transparent (mkCaps true true true)
    (Do (WriteHeader 404) (fun _ => Do (Write "no") (fun _ => Return))) demo_rw demo_world demo_world);
    reflexivity | reflexivity].
Defined.

Lemma rl_wrapper_drops_final_status_witness :
  client_status (wire (run_wrapped (mkCaps true true true) (early_hints 404 "no") demo_rw demo_world).1.2)
  = Some 200.
Proof. apply (rl_wrapper_drops_final_status (mkCaps true true true) demo_rw demo_world 404 "no"); reflexivity. Defined.
End RateLimitFacts.
