(* ===== verification/FixedWindow.v ===== *)
(** * pkg/ratelimit: the fixed-window strategy

    [src/pkg/ratelimit/fixedwindow.go].  The state is the struct's own, with the
    nil map kept apart from the empty one; a panic is a result [None].  The
    refinement theorem compares a run of [Take]s with a specification that only
    counts the requests of a key in a window. *)

From S2P Require Import Prelude Http RateLimit.

Module FixedWindow.

Record FixedWindowStrategy := mk {
  lastWindow : Z;
  storage : option (gmap string Z);
  Max : Z;
  Size : Z;
}.

Definition FixedWindow (rate unit : Z) : FixedWindowStrategy := mk 0 None rate unit.
Definition FixedWindowPerSecond (rate : Z) : FixedWindowStrategy := FixedWindow rate Second.
Definition FixedWindowPerMinute (rate : Z) : FixedWindowStrategy := FixedWindow rate Minute.
Definition FixedWindowPerHour (rate : Z) : FixedWindowStrategy := FixedWindow rate Hour.

(** [UnixNano() / int64(Size)]; [None] is the division by zero. *)
Definition window (size now : Z) : option Z := if size =? 0 then None else Some (Z.quot now size).

(** The map read of a possibly nil map. *)
Definition get (s : option (gmap string Z)) (key : string) : option Z :=
  match s with Some m => m !! key | None => None end.

(** The window switch at the head of [Take]. *)
Definition switch (currentWindow : Z) (b : FixedWindowStrategy) : FixedWindowStrategy :=
  if lastWindow b =? currentWindow then b
  else mk currentWindow (Some ∅) (Max b) (Size b).

Definition Take (now : Z) (key : string) (b : FixedWindowStrategy)
    : FixedWindowStrategy * option bool :=
  match window (Size b) now with
  | None => (b, None)
  | Some currentWindow =>
      let b := switch currentWindow b in
      let available := default (Max b) (get (storage b) key) in
      if available <=? 0 then (b, Some false)
      else
        match storage b with
        | None => (b, None)
        | Some s =>
            (mk (lastWindow b) (Some (<[key := i64 (available - 1)]> s)) (Max b) (Size b), Some true)
        end
  end.

Definition Put (_ : string) (b : FixedWindowStrategy) : FixedWindowStrategy := b.

Definition After (now : Z) (key : string) (b : FixedWindowStrategy) : option Z :=
  match window (Size b) now with
  | None => None
  | Some currentWindow =>
      Some (if negb (lastWindow b =? currentWindow) then 0
            else match get (storage b) key with
                 | None => 0
                 | Some available =>
                     if 0 <? available then 0
                     else
                       let nextWindow := i64 (i64 (currentWindow + 1) * Size b) in
                       i64 (nextWindow - now)
                 end)
  end.

#[export] Instance fixed_window : Strategy FixedWindowStrategy :=
  {| RateLimit.Take := Take; RateLimit.Put := Put; RateLimit.After := After |}.
End FixedWindow.

Module FixedWindowFacts.
Import FixedWindow.

(** ** Specification: count the key's requests in the window *)

Definition same (size now : Z) (key : string) (r : Z * string) : bool :=
  (Z.quot r.1 size =? Z.quot now size) && bool_decide (r.2 = key).

(** Requests of [key] in [now]'s window among [h]. *)
Definition requests (size now : Z) (key : string) (h : list (Z * string)) : Z :=
  foldr (fun r n => n + Z.b2z (same size now key r)) 0 h.

(** The decisions on [rs] after [h] (newest first). *)
Fixpoint decisions (mx size : Z) (h rs : list (Z * string)) : list (option bool) :=
  match rs with
  | [] => []
  | (now, key) :: rs =>
      Some (requests size now key h <? mx) :: decisions mx size ((now, key) :: h) rs
  end.

Fixpoint run (rs : list (Z * string)) (b : FixedWindowStrategy) : list (option bool) :=
  match rs with
  | [] => []
  | (now, key) :: rs => let '(b, r) := Take now key b in r :: run rs b
  end.

(** The clock readings of a list never go back, and start at [t] or later. *)
Fixpoint clock_from (t : Z) (rs : list (Z * string)) : Prop :=
  match rs with
  | [] => True
  | (now, _) :: rs => t <= now /\ clock_from now rs
  end.

Lemma requests_cons size now key r h :
  requests size now key (r :: h) = requests size now key h + Z.b2z (same size now key r).
Proof. done. Qed.

Lemma requests_nonneg size now key h : 0 <= requests size now key h.
Proof.
  induction h as [|r h IH]; [done|]. rewrite requests_cons. destruct (same size now key r); cbn; lia.
Qed.

(** Only the window of [now] matters. *)
Lemma requests_window size t now key h :
  Z.quot t size = Z.quot now size -> requests size t key h = requests size now key h.
Proof. intros E. unfold requests, same. by rewrite E. Qed.

Lemma requests_new size t now key h :
  0 < size -> Forall (fun r => r.1 <= t) h -> t <= now -> Z.quot t size <> Z.quot now size ->
  requests size now key h = 0.
Proof.
  intros Hs Hh Ht Hne. induction Hh as [|r h Hr _ IH]; [done|].
  rewrite requests_cons. unfold same. assert (Z.quot r.1 size <= Z.quot t size) by (apply Z.quot_le_mono; lia).
  assert (Z.quot t size <= Z.quot now size) by (apply Z.quot_le_mono; lia).
  rewrite (proj2 (Z.eqb_neq _ _)) by lia. cbn. rewrite Z.add_0_r. exact IH.
Qed.

(** Tokens left after [n] requests. *)
Definition left_over (mx n : Z) : Z := if mx <=? 0 then mx else Z.max 0 (mx - n).

(** The state after the requests [h], the last of them in [t]'s window. *)
Record holds (mx size t : Z) (h : list (Z * string)) (b : FixedWindowStrategy) (s : gmap string Z)
    : Prop := {
  holds_config : b = mk (Z.quot t size) (Some s) mx size;
  holds_past : Forall (fun r => r.1 <= t) h;
  holds_left key : default mx (s !! key) = left_over mx (requests size t key h);
}.

Definition state_after (mx size t : Z) (h : list (Z * string)) (b : FixedWindowStrategy) : Prop :=
  (h = [] /\ b = FixedWindow mx size /\ size <= t) \/ exists s, holds mx size t h b s.

Lemma left_over_cons mx size now key key' h :
  left_over mx (requests size now key' ((now, key) :: h))
  = if bool_decide (key = key')
    then left_over mx (requests size now key h + 1) else left_over mx (requests size now key' h).
Proof.
  rewrite requests_cons. unfold same. cbn [fst snd]. rewrite Z.eqb_refl. case_bool_decide; subst; cbn; f_equal; lia.
Qed.

Lemma left_over_pos mx n : 0 <= n -> (left_over mx n <=? 0) = negb (n <? mx).
Proof. intros. unfold left_over. bool_case; lia. Qed.

(** The switched state holds of the history at the new time. *)
Lemma switch_holds mx size t now h b :
  0 < size -> t <= now -> state_after mx size t h b ->
  exists s, holds mx size now h (switch (Z.quot now size) b) s.
Proof.
  intros Hs Ht [(-> & -> & H)|(s & [-> Hp Hl])]; unfold switch; cbn [lastWindow FixedWindow Max Size].
  - assert (1 <= Z.quot now size) by (apply Z.quot_le_lower_bound; lia).
    rewrite (proj2 (Z.eqb_neq _ _)) by lia. exists ∅. split; [done|constructor|].
    intros key. rewrite lookup_empty. cbn. unfold left_over. bool_case; lia.
  - assert (Forall (fun r => r.1 <= now) h) by (eapply Forall_impl; [done|]; cbn; lia).
    destruct (Z.eqb_spec (Z.quot t size) (Z.quot now size)) as [E|E].
    + exists s. split; [by rewrite E|done|]. intros key.
      by rewrite (Hl key), (requests_window _ _ _ _ _ E).
    + exists ∅. split; [done..|]. intros key. rewrite lookup_empty. cbn.
      rewrite (requests_new size t now) by done. unfold left_over. bool_case; lia.
Qed.

Lemma take_step mx size t now key h b :
  0 < size -> mx <= max_i64 -> t <= now -> state_after mx size t h b ->
  exists b', Take now key b = (b', Some (requests size now key h <? mx))
  /\ state_after mx size now ((now, key) :: h) b'.
Proof.
  intros Hs Hm Ht Hb.
  assert (Size b = size) as Esz by (destruct Hb as [(_ & -> & _)|(s & [-> _ _])]; done).
  destruct (switch_holds mx size t now h b Hs Ht Hb) as (s & [E Hp Hl]).
  unfold Take, window. rewrite Esz, (proj2 (Z.eqb_neq _ _)) by lia. rewrite E. cbn.
  pose proof (requests_nonneg size now key h) as Hn.
  rewrite (Hl key), left_over_pos by done.
  assert (Forall (fun r => r.1 <= now) ((now, key) :: h)) by (constructor; [cbn; lia|done]).
  destruct (requests size now key h <? mx) eqn:Elt; cbn; eexists; (split; [done|]);
    right; eexists; (split; [done..|]); intros key'; rewrite left_over_cons; bool_prop.
  - case_bool_decide; subst.
    + rewrite lookup_insert_eq. cbn. unfold left_over. rewrite (proj2 (Z.leb_gt _ _)) by lia.
      rewrite i64_small; unfold max_i64 in *; lia.
    + by rewrite lookup_insert_ne.
  - rewrite Hl. case_bool_decide; subst; [|done]. unfold left_over. bool_case; lia.
Qed.

Lemma run_decisions mx size t h rs b :
  0 < size -> mx <= max_i64 -> state_after mx size t h b -> clock_from t rs ->
  run rs b = decisions mx size h rs.
Proof.
  intros Hs Hm. revert t h b. induction rs as [|[now key] rs IH]; intros t h b Hb Hc; [done|].
  destruct Hc as [Ht Hc]. destruct (take_step mx size t now key h b Hs Hm Ht Hb) as (b' & E & Hb').
  cbn. rewrite E. f_equal. by apply (IH now).
Qed.

(** On a clock that does not go back, every run of Take decides each request by
    counting: it is admitted exactly when fewer than Max requests of its key came
    earlier in its window; no call panics. *)
Theorem fw_exact_quota mx size rs :
  0 < size -> mx <= max_i64 -> clock_from size rs ->
  run rs (FixedWindow mx size) = decisions mx size [] rs.
Proof. intros Hs Hm Hc. apply (run_decisions mx size size); try done. by left. Qed.

(** ** [After] *)

(** A key without tokens in the current window. *)
Definition exhausted (key : string) (b : FixedWindowStrategy) : Prop :=
  exists a, get (storage b) key = Some a /\ a <= 0.

Lemma take_denied now key b b' :
  0 < Max b -> 0 < Size b -> Take now key b = (b', Some false) ->
  lastWindow b' = Z.quot now (Size b) /\ Max b' = Max b /\ Size b' = Size b /\ exhausted key b'.
Proof.
  intros Hm Hs. unfold Take, window. rewrite (proj2 (Z.eqb_neq _ _)) by lia.
  set (c := switch _ b).
  assert (lastWindow c = Z.quot now (Size b) /\ Max c = Max b /\ Size c = Size b) as (? & ? & ?).
  { unfold c, switch. destruct (Z.eqb_spec (lastWindow b) (Z.quot now (Size b))); done. }
  destruct (default (Max c) (get (storage c) key) <=? 0) eqn:E; [|by case_match].
  intros [= <-]. repeat split; [done..|]. bool_prop.
  destruct (get (storage c) key) as [a|] eqn:G; cbn in E; [by exists a|lia].
Qed.

(** In its window an exhausted key is denied, in a later one it starts afresh. *)
Lemma exhausted_denied now key b :
  Size b <> 0 -> lastWindow b = Z.quot now (Size b) -> exhausted key b ->
  (Take now key b).2 = Some false.
Proof.
  intros Hs E (a & G & Ha). unfold Take, window, switch. rewrite (proj2 (Z.eqb_neq _ _)) by lia.
  rewrite E, Z.eqb_refl, G. cbn. by rewrite (proj2 (Z.leb_le _ _)) by lia.
Qed.

Lemma other_window_admits now key b :
  0 < Max b -> Size b <> 0 -> lastWindow b <> Z.quot now (Size b) ->
  (Take now key b).2 = Some true.
Proof.
  intros Hm Hs E. unfold Take, window, switch. rewrite !(proj2 (Z.eqb_neq _ _)) by lia. cbn.
  by rewrite lookup_empty, (proj2 (Z.leb_gt _ _)) by (cbn; lia).
Qed.

Lemma quot_window now size q :
  0 <= now -> 0 < size -> q * size <= now < (q + 1) * size -> Z.quot now size = q.
Proof.
  intros. rewrite Z.quot_div_nonneg by lia. symmetry. apply (Z.div_unique _ _ _ (now - q * size)); lia.
Qed.

(** After a denied Take, After returns the exact wait: between 1ns and the window
    size, a Take then is admitted and every earlier one is denied. *)
Theorem fw_after_exact now key b b' :
  0 < Max b -> 0 < Size b -> 0 <= now -> now + Size b <= max_i64 ->
  Take now key b = (b', Some false) ->
  exists d, After now key b' = Some d /\ 0 < d <= Size b
  /\ (Take (now + d) key b').2 = Some true
  /\ forall t, 0 <= t < d -> (Take (now + t) key b').2 = Some false.
Proof.
  intros Hm Hs Hn Hmax HT.
  destruct (take_denied now key b b' Hm Hs HT) as (El & Em & Es & Hx).
  pose proof Hx as (a & G & Ha).
  set (q := Z.quot now (Size b)) in *.
  assert (0 <= q /\ q * Size b <= now < (q + 1) * Size b) as [Hq0 Hq].
  { unfold q. rewrite Z.quot_div_nonneg by lia.
    pose proof (Z.div_mod now (Size b)). pose proof (Z.mod_pos_bound now (Size b)).
    pose proof (Z.div_pos now (Size b)). lia. }
  assert (q <= now) by nia.
  exists ((q + 1) * Size b - now). unfold max_i64 in *. repeat split; try lia.
  - unfold After, window. rewrite Es, (proj2 (Z.eqb_neq _ _)) by lia. fold q.
    rewrite El, Z.eqb_refl, G. cbn [negb]. rewrite (proj2 (Z.ltb_ge _ _)) by lia.
    cbv zeta. rewrite (i64_small (q + 1)) by lia.
    rewrite (i64_small ((q + 1) * Size b)) by lia. rewrite i64_small by lia. done.
  - apply other_window_admits; [lia..|]. rewrite El, Es.
    rewrite (quot_window _ _ (q + 1)); lia.
  - intros t Ht. apply exhausted_denied; [lia| |done]. rewrite El, Es.
    symmetry. apply quot_window; lia.
Qed.

(** With a window longer than the time since the epoch the first Take writes to a
    nil map: the window index 0 equals the initial lastWindow, so the map is never
    made. *)
Theorem fw_huge_window_panics mx size now key :
  0 < mx -> 0 <= now < size -> (Take now key (FixedWindow mx size)).2 = None.
Proof.
  intros Hm Hn. unfold Take, window, switch. cbn [Size FixedWindow Max lastWindow].
  rewrite (proj2 (Z.eqb_neq _ _)) by lia. rewrite Z.quot_small by lia. cbn.
  by rewrite (proj2 (Z.leb_gt _ _)) by lia.
Qed.

Lemma fw_exact_quota_witness :
  run [(10, "a"); (11, "a"); (12, "a"); (13, "b"); (20, "a")] (FixedWindow 2 10)
  = [Some true; Some true; Some false; Some true; Some true].
Proof.
  rewrite (fw_exact_quota 2 10); [vm_compute; reflexivity | lia | unfold max_i64; lia | cbn; lia].
Defined.

Lemma fw_after_exact_witness :
  exists d, After 12 "a" (mk 1 (Some {["a" := 0]}) 2 10) = Some d /\ 0 < d <= 10
  /\ (Take (12 + d) "a" (mk 1 (Some {["a" := 0]}) 2 10)).2 = Some true
  /\ forall t, 0 <= t < d -> (Take (12 + t) "a" (mk 1 (Some {["a" := 0]}) 2 10)).2 = Some false.
Proof.
  apply (fw_after_exact 12 "a" (mk 1 (Some {["a" := 0]}) 2 10)); unfold max_i64; cbn; try lia.
  vm_compute. reflexivity.
Defined.

Lemma fw_huge_window_panics_witness :
  (Take (1750000000 * Second) "a" (FixedWindow 5 max_i64)).2 = None.
Proof. apply (fw_huge_window_panics 5 max_i64); vm_compute; intuition discriminate. Defined.
End FixedWindowFacts.
