(* ===== verification/Concurrent.v ===== *)
(** * pkg/ratelimit: the concurrency limiter

    [src/pkg/ratelimit/concurrent.go].  Both operations run under the mutex, so a
    run of the program is a sequence of [Take]s and [Put]s; the step relation
    interleaves those of any number of requests, each of which puts its key back
    once, after a successful [Take] (the discipline the middleware keeps). *)

From S2P Require Import Prelude Http RateLimit.

Module Concurrent.

Record ConcurrentStrategy := mk {
  storage : option (gmap string Z);
  Capacity : Z;
}.

Definition Concurrent (capacity : Z) : ConcurrentStrategy := mk None capacity.

(** [m[key]], with the zero value for a missing key. *)
Definition at_ (m : gmap string Z) (key : string) : Z := default 0 (m !! key).

Definition Take (_ : Z) (key : string) (b : ConcurrentStrategy) : ConcurrentStrategy * option bool :=
  let m := default ∅ (storage b) in
  if Capacity b <=? at_ m key then (mk (Some m) (Capacity b), Some false)
  else (mk (Some (<[key := i64 (at_ m key + 1)]> m)) (Capacity b), Some true).

Definition Put (key : string) (b : ConcurrentStrategy) : ConcurrentStrategy :=
  match storage b with
  | None => b
  | Some m =>
      if at_ m key <=? 0 then b
      else
        let m := <[key := i64 (at_ m key - 1)]> m in
        mk (Some (if at_ m key <=? 0 then delete key m else m)) (Capacity b)
  end.

Definition After (_ : Z) (_ : string) (_ : ConcurrentStrategy) : option Z := Some 0.

#[export] Instance concurrent : Strategy ConcurrentStrategy :=
  {| RateLimit.Take := Take; RateLimit.Put := Put; RateLimit.After := After |}.
End Concurrent.

Module ConcurrentFacts.
Import Concurrent.

(** The strategy and the requests in flight: request number to its key. *)
Record system := mkSys { strategy : ConcurrentStrategy; inflight : gmap nat string }.

Inductive step : system -> system -> Prop :=
  | step_take i now key s b :
      inflight s !! i = None -> Take now key (strategy s) = (b, Some true) ->
      step s (mkSys b (<[i := key]> (inflight s)))
  | step_drop now key s b :
      Take now key (strategy s) = (b, Some false) -> step s (mkSys b (inflight s))
  | step_put i key s :
      inflight s !! i = Some key -> step s (mkSys (Put key (strategy s)) (delete i (inflight s))).

Definition reachable (capacity : Z) (s : system) : Prop :=
  rtc step (mkSys (Concurrent capacity) ∅) s.

(** Requests of [key] in flight. *)
Definition running (key : string) (s : system) : Z := count_eq key (inflight s).

(** The map holds the positive counts of the requests in flight. *)
Definition counts (m : gmap string Z) (fl : gmap nat string) : Prop :=
  forall key, m !! key = if 0 <? count_eq key fl then Some (count_eq key fl) else None.

Definition inv (capacity : Z) (s : system) : Prop :=
  Capacity (strategy s) = capacity /\ counts (default ∅ (storage (strategy s))) (inflight s)
  /\ (storage (strategy s) = None -> inflight s = ∅)
  /\ forall key, running key s <= Z.max 0 capacity.

Lemma counts_at m fl key : counts m fl -> at_ m key = count_eq key fl.
Proof.
  intros H. unfold at_. rewrite (H key). pose proof (count_eq_nonneg key fl).
  destruct (Z.ltb_spec 0 (count_eq key fl)); cbn; lia.
Qed.

Lemma counts_take m fl i key :
  counts m fl -> fl !! i = None ->
  counts (<[key := count_eq key fl + 1]> m) (<[i := key]> fl).
Proof.
  intros H Hi key'. destruct (decide (key = key')) as [<-|Hne].
  - rewrite lookup_insert_eq, count_eq_insert by congruence.
    pose proof (count_eq_nonneg key fl). rewrite (proj2 (Z.ltb_lt _ _)) by lia. done.
  - by rewrite lookup_insert_ne, count_eq_insert_ne by congruence.
Qed.

Lemma counts_put m fl i key :
  counts m fl -> fl !! i = Some key ->
  counts (if count_eq key fl - 1 <=? 0 then delete key m else <[key := count_eq key fl - 1]> m)
         (delete i fl).
Proof.
  intros H Hi key'. pose proof (count_eq_pos _ _ _ Hi) as Hp.
  destruct (decide (key = key')) as [<-|Hne].
  - rewrite (count_eq_delete key fl i Hi). case_match; bool_prop.
    + by rewrite lookup_delete_eq, (proj2 (Z.ltb_ge _ _)) by lia.
    + by rewrite lookup_insert_eq, (proj2 (Z.ltb_lt _ _)) by lia.
  - rewrite count_eq_delete_ne by congruence.
    case_match; [rewrite lookup_delete_ne by done | rewrite lookup_insert_ne by done]; apply H.
Qed.

Lemma con_inv_init capacity : inv capacity (mkSys (Concurrent capacity) ∅).
Proof.
  assert (forall key, count_eq key (∅ : gmap nat string) = 0) as Z0
    by (intros; apply count_eq_zero; intros j g Hg; by rewrite lookup_empty in Hg).
  split; [done|]. split; [|split; [done|]].
  - intros key. cbn. by rewrite Z0, lookup_empty.
  - intros key. unfold running. cbn. rewrite Z0. lia.
Qed.

Lemma con_inv_step capacity s s' : capacity <= max_i64 -> inv capacity s -> step s s' -> inv capacity s'.
Proof.
  intros Hmax (Hc & Hm & Hn & Hle) Hst. unfold max_i64 in *. destruct Hst as [i now key s b Hi HT|now key s b HT|i key s Hi].
  - unfold Take in HT. rewrite (counts_at _ _ key Hm), Hc in HT.
    case_match; [done|]; bool_prop. injection HT as <-. specialize (Hle key) as Hk.
    pose proof (count_eq_nonneg key (inflight s)). rewrite i64_small by (unfold running in *; lia).
    split; [done|]. split; [|split; [done|]]; cbn.
    + by apply counts_take.
    + intros key'. unfold running; cbn. destruct (decide (key = key')) as [<-|].
      * rewrite count_eq_insert by congruence. lia.
      * rewrite count_eq_insert_ne by congruence. apply Hle.
  - unfold Take in HT. case_match; [|done]. injection HT as <-. done.
  - pose proof (count_eq_pos _ _ _ Hi) as Hp. specialize (Hle key) as Hk. unfold running in Hk.
    unfold Put. destruct (storage (strategy s)) as [m|] eqn:E.
    2: { rewrite (Hn eq_refl), lookup_empty in Hi. done. }
    cbn in Hm. rewrite (counts_at _ _ key Hm), (proj2 (Z.leb_gt _ _)) by lia.
    rewrite i64_small by lia. cbv zeta. set (n := count_eq key (inflight s) - 1) in *.
    replace (at_ (<[key := n]> m) key) with n by (unfold at_; by rewrite lookup_insert_eq).
    split; [done|]. split; [|split; [done|]]; cbn.
    + pose proof (counts_put m _ i key Hm Hi) as H. fold n in H. rewrite delete_insert_eq. exact H.
    + intros key'. unfold running; cbn. destruct (decide (key = key')) as [<-|].
      * rewrite (count_eq_delete _ _ _ Hi). lia.
      * rewrite count_eq_delete_ne by congruence. apply Hle.
Qed.

Lemma con_reachable_inv capacity s : capacity <= max_i64 -> reachable capacity s -> inv capacity s.
Proof.
  intros Hmax H. apply (rtc_ind_r (inv capacity)) in H; [done|apply con_inv_init|].
  intros; by eapply con_inv_step.
Qed.

(** Under every interleaving of requests, a key has at most Capacity requests in
    flight, Take admits exactly when it has fewer, and when all have finished the map
    is empty. *)
Theorem con_exact capacity s now key :
  capacity <= max_i64 -> reachable capacity s ->
  running key s <= Z.max 0 capacity
  /\ (Take now key (strategy s)).2 = Some (running key s <? capacity)
  /\ (inflight s = ∅ -> default ∅ (storage (strategy s)) = ∅).
Proof.
  intros Hmax H. apply con_reachable_inv in H as (Hc & Hm & _ & Hle); [|done].
  split; [apply Hle|]. split.
  - unfold Take. rewrite (counts_at _ _ key Hm), Hc. unfold running.
    destruct (Z.leb_spec capacity (count_eq key (inflight s)));
      [rewrite (proj2 (Z.ltb_ge _ _)) by lia | rewrite (proj2 (Z.ltb_lt _ _)) by lia]; done.
  - intros E. apply map_empty. intros k. rewrite (Hm k), E.
    rewrite count_eq_zero; [done|]. intros j g Hg. by rewrite lookup_empty in Hg.
Qed.

(** Two admitted requests of one key at capacity 2. *)
Definition demo : system := mkSys (mk (Some {["k" := 2]}) 2) {[0%nat := "k"; 1%nat := "k"]}.

Lemma con_exact_witness : (Take 0 "k" (strategy demo)).2 = Some false.
Proof.
  refine (proj1 (proj2 (con_exact 2 demo 0 "k" ltac:(unfold max_i64; lia) _))).
  eapply rtc_l; [apply (step_take 1 0 "k"); [done|vm_compute; reflexivity]|].
  eapply rtc_l; [apply (step_take 0 0 "k"); [done|vm_compute; reflexivity]|].
  apply rtc_refl.
Defined.
End ConcurrentFacts.
