(* ===== verification/ConcurrentQueue.v ===== *)
(** * pkg/ratelimit: the queueing concurrency limiter

    [src/pkg/ratelimit/concurrentqueue.go].  [Take] keeps a pointer to the key's
    item across a window in which it does not hold the mutex, and the item can
    leave the map in that window; so items live in a heap and the map holds their
    addresses.  [Take] is split where it blocks: [take_enter] (the first critical
    section), [take_send] (the channel send) and [take_leave] (the second critical
    section).  [Put] receives from the channel while it holds the mutex: a result
    [PutBlocked] is a deadlock of the whole strategy. *)

From S2P Require Import Prelude.

Module ConcurrentQueue.

(** [Process] is the number of elements in the channel, whose buffer is [Capacity]. *)
Record concurrentQueueItem := mkItem {
  Process : Z;
  ProcessCount : Z;
  QueueCount : Z;
}.

Record ConcurrentQueueStrategy := mk {
  storage : option (gmap string nat);
  heap : gmap nat concurrentQueueItem;
  fresh : nat;
  Capacity : Z;
  Size : Z;
}.

Definition ConcurrentQueue (capacity size : Z) : ConcurrentQueueStrategy :=
  mk None ∅ 0 capacity size.

Definition set_item (p : nat) (t : concurrentQueueItem) (b : ConcurrentQueueStrategy)
    : ConcurrentQueueStrategy :=
  mk (storage b) (<[p := t]> (heap b)) (fresh b) (Capacity b) (Size b).

Inductive enter :=
  | EnterPanic                                             (* make(chan) with a negative size *)
  | EnterFull (b : ConcurrentQueueStrategy)
  | EnterQueued (p : nat) (b : ConcurrentQueueStrategy).

(** The map with the key's item, made when it has none. *)
Definition ensure (key : string) (b : ConcurrentQueueStrategy) : option (nat * ConcurrentQueueStrategy) :=
  let m := default ∅ (storage b) in
  match m !! key with
  | Some p => Some (p, mk (Some m) (heap b) (fresh b) (Capacity b) (Size b))
  | None =>
      if Capacity b <? 0 then None
      else Some (fresh b, mk (Some (<[key := fresh b]> m)) (<[fresh b := mkItem 0 0 0]> (heap b))
                             (S (fresh b)) (Capacity b) (Size b))
  end.

Definition zero_item : concurrentQueueItem := mkItem 0 0 0.
Definition item (p : nat) (b : ConcurrentQueueStrategy) : concurrentQueueItem :=
  default zero_item (heap b !! p).

Definition take_enter (key : string) (b : ConcurrentQueueStrategy) : enter :=
  match ensure key b with
  | None => EnterPanic
  | Some (p, b) =>
      let t := item p b in
      if Size b <=? QueueCount t then EnterFull b
      else EnterQueued p (set_item p (mkItem (Process t) (i64 (ProcessCount t + 1)) (i64 (QueueCount t + 1))) b)
  end.

(** [t.Process <- struct{}{}]: [None] while the buffer is full. *)
Definition take_send (p : nat) (b : ConcurrentQueueStrategy) : option ConcurrentQueueStrategy :=
  let t := item p b in
  if Process t <? Capacity b
  then Some (set_item p (mkItem (Process t + 1) (ProcessCount t) (QueueCount t)) b) else None.

Definition take_leave (p : nat) (b : ConcurrentQueueStrategy) : ConcurrentQueueStrategy :=
  let t := item p b in
  set_item p (mkItem (Process t) (ProcessCount t) (i64 (QueueCount t - 1))) b.

Inductive put := PutBlocked | PutDone (b : ConcurrentQueueStrategy).

Definition Put (key : string) (b : ConcurrentQueueStrategy) : put :=
  match storage b with
  | None => PutDone b
  | Some m =>
      match m !! key with
      | None => PutDone b
      | Some p =>
          let t := item p b in
          if Process t <=? 0 then PutBlocked
          else
            let t := mkItem (Process t - 1) (i64 (ProcessCount t - 1)) (QueueCount t) in
            let b := set_item p t b in
            PutDone
              (if (ProcessCount t <=? 0) && (QueueCount t <=? 0)
               then mk (Some (delete key m)) (heap b) (fresh b) (Capacity b) (Size b)
               else b)
      end
  end.

Definition After (_ : string) (_ : ConcurrentQueueStrategy) : Z := 0.
End ConcurrentQueue.

Module ConcurrentQueueFacts.
Import ConcurrentQueue.

(** Where an admitted request is: queued on its item's channel, past the send but
    not yet returned from [Take], or being served. *)
Inductive phase := Queued | Granted | Serving.

#[global] Instance phase_eq_dec : EqDecision phase.
Proof. solve_decision. Defined.

(** The requests carry the item they queued on and their key. *)
Record system := mkSys {
  strategy : ConcurrentQueueStrategy;
  reqs : gmap nat (phase * (nat * string));
}.

Inductive step : system -> system -> Prop :=
  | step_enter i key s p b :
      reqs s !! i = None -> take_enter key (strategy s) = EnterQueued p b ->
      step s (mkSys b (<[i := (Queued, (p, key))]> (reqs s)))
  | step_drop key s b :
      take_enter key (strategy s) = EnterFull b -> step s (mkSys b (reqs s))
  | step_send i p key s b :
      reqs s !! i = Some (Queued, (p, key)) -> take_send p (strategy s) = Some b ->
      step s (mkSys b (<[i := (Granted, (p, key))]> (reqs s)))
  | step_leave i p key s :
      reqs s !! i = Some (Granted, (p, key)) ->
      step s (mkSys (take_leave p (strategy s)) (<[i := (Serving, (p, key))]> (reqs s)))
  | step_put i p key s b :
      reqs s !! i = Some (Serving, (p, key)) -> Put key (strategy s) = PutDone b ->
      step s (mkSys b (delete i (reqs s))).

Definition reachable (capacity size : Z) (s : system) : Prop :=
  rtc step (mkSys (ConcurrentQueue capacity size) ∅) s.

Definition stored (key : string) (b : ConcurrentQueueStrategy) : option nat :=
  default ∅ (storage b) !! key.

Definition num (ph : phase) (p : nat) (key : string) (s : system) : Z :=
  count_eq (ph, (p, key)) (reqs s).

(** The counters of [key]'s item are the numbers of requests in each phase. *)
Definition item_ok (t : concurrentQueueItem) (p : nat) (key : string) (capacity size : Z) (s : system)
    : Prop :=
  Process t = num Granted p key s + num Serving p key s
  /\ QueueCount t = num Queued p key s + num Granted p key s
  /\ ProcessCount t = num Queued p key s + num Granted p key s + num Serving p key s
  /\ Process t <= Z.max 0 capacity /\ QueueCount t <= Z.max 0 size.

Record inv (capacity size : Z) (s : system) : Prop := {
  inv_capacity : Capacity (strategy s) = capacity;
  inv_size : Size (strategy s) = size;
  inv_fresh key p : stored key (strategy s) = Some p -> (p < fresh (strategy s))%nat;
  inv_inj key key' p :
    stored key (strategy s) = Some p -> stored key' (strategy s) = Some p -> key = key';
  inv_item key p : stored key (strategy s) = Some p ->
    item_ok (item p (strategy s)) p key capacity size s;
  inv_held i ph p key : reqs s !! i = Some (ph, (p, key)) -> stored key (strategy s) = Some p;
}.

(** No item outlives its requests. *)
Definition live (s : system) : Prop :=
  forall key p, stored key (strategy s) = Some p -> exists i ph, reqs s !! i = Some (ph, (p, key)).

Lemma num_nonneg ph p key s : 0 <= num ph p key s.
Proof. apply count_eq_nonneg. Qed.

Lemma item_set_eq p t b : item p (set_item p t b) = t.
Proof. unfold item, set_item. cbn. by rewrite lookup_insert_eq. Qed.

Lemma item_set_ne p q t b : p <> q -> item q (set_item p t b) = item q b.
Proof. intros H. unfold item, set_item. cbn. by rewrite lookup_insert_ne. Qed.

(** A step that changes one item, stored at [key], and moves requests of it. *)
Lemma inv_update capacity size s s' p key :
  inv capacity size s ->
  Capacity (strategy s') = capacity -> Size (strategy s') = size ->
  fresh (strategy s') = fresh (strategy s) ->
  (forall k, stored k (strategy s') = stored k (strategy s)) ->
  stored key (strategy s) = Some p ->
  (forall q, q <> p -> item q (strategy s') = item q (strategy s)) ->
  (forall ph q k, (q, k) <> (p, key) -> num ph q k s' = num ph q k s) ->
  (forall i ph q k, reqs s' !! i = Some (ph, (q, k)) -> (q, k) = (p, key) \/ exists ph', reqs s !! i = Some (ph', (q, k))) ->
  item_ok (item p (strategy s')) p key capacity size s' ->
  inv capacity size s'.
Proof.
  intros I Hc Hs Hf Hst Hp Hit Hnum Hrq Hok. split; [done|done|..].
  - intros k q. rewrite Hst, Hf. apply (inv_fresh _ _ _ I).
  - intros k k' q. rewrite !Hst. apply (inv_inj _ _ _ I).
  - intros k q Hq. rewrite Hst in Hq. destruct (decide (q = p)) as [->|Hne].
    + by rewrite (inv_inj _ _ _ I k key p Hq Hp).
    + pose proof (inv_item _ _ _ I k q Hq) as H. unfold item_ok in *.
      rewrite Hit, !Hnum by congruence. exact H.
  - intros i ph q k H. rewrite Hst. destruct (Hrq _ _ _ _ H) as [[= -> ->]|[ph' H']]; [done|].
    by eapply (inv_held _ _ _ I).
Qed.

Lemma ensure_spec key b p b' :
  ensure key b = Some (p, b') ->
  Capacity b' = Capacity b /\ Size b' = Size b /\ stored key b' = Some p /\
  ((stored key b = Some p /\ fresh b' = fresh b /\ heap b' = heap b /\ forall k, stored k b' = stored k b)
   \/ (stored key b = None /\ p = fresh b /\ fresh b' = S (fresh b) /\ item p b' = zero_item
       /\ (forall q, q <> p -> item q b' = item q b)
       /\ forall k, k <> key -> stored k b' = stored k b)).
Proof.
  unfold ensure, stored, item. destruct (default ∅ (storage b) !! key) as [q|] eqn:E.
  - intros [= <- <-]. cbn. repeat split; [done|]. left. done.
  - case_match; [done|]. intros [= <- <-]. cbn. rewrite !lookup_insert_eq.
    repeat split. right. repeat split.
    + intros q Hq. by rewrite lookup_insert_ne.
    + intros k Hk. by rewrite lookup_insert_ne.
Qed.

Lemma inv_ensure capacity size s key p b :
  inv capacity size s -> ensure key (strategy s) = Some (p, b) -> inv capacity size (mkSys b (reqs s)).
Proof.
  intros I E. pose proof (inv_capacity _ _ _ I) as Hc0. pose proof (inv_size _ _ _ I) as Hs0.
  apply ensure_spec in E as (Hc & Hs & Hp & [(Ho & Hf & Hh & Hst)|(Ho & -> & Hf & Hz & Hit & Hst)]).
  - apply (inv_update capacity size s _ p key); cbn; try done; try congruence.
    + intros q _. unfold item. by rewrite Hh.
    + intros i ph q k Hr. right. by exists ph.
    + unfold item. rewrite Hh. apply (inv_item _ _ _ I _ _ Ho).
  - set (p := fresh (strategy s)) in *.
    assert (forall k q, stored k b = Some q ->
              (k = key /\ q = p) \/ (k <> key /\ q <> p /\ stored k (strategy s) = Some q)) as Hcase.
    { intros k q Hq. destruct (decide (k = key)) as [->|Hne]; [left; split; congruence|].
      right. rewrite (Hst _ Hne) in Hq. split; [done|]. split; [|done].
      pose proof (inv_fresh _ _ _ I _ _ Hq). unfold p. lia. }
    split; cbn; [congruence|congruence|..].
    + intros k q Hq. rewrite Hf. destruct (Hcase _ _ Hq) as [[_ ->]|(_ & _ & Hq')]; [lia|].
      pose proof (inv_fresh _ _ _ I _ _ Hq'). lia.
    + intros k k' q H1 H2. destruct (Hcase _ _ H1) as [[-> ->]|(? & ? & H1')], (Hcase _ _ H2) as [[-> ?]|(? & ? & H2')];
        try done. by eapply (inv_inj _ _ _ I).
    + intros k q Hq. destruct (Hcase _ _ Hq) as [[-> ->]|(? & ? & Hq')].
      * rewrite Hz. enough (forall ph, num ph p key (mkSys b (reqs s)) = 0) as H0
          by (unfold item_ok; rewrite !H0; cbn; lia).
        intros ph. apply count_eq_zero. intros i g Hg ->.
        pose proof (inv_held _ _ _ I _ _ _ _ Hg). congruence.
      * rewrite Hit by done. apply (inv_item _ _ _ I _ _ Hq').
    + intros i ph q k Hr. pose proof (inv_held _ _ _ I _ _ _ _ Hr) as Hk.
      destruct (decide (k = key)) as [->|Hne]; [congruence|]. by rewrite (Hst _ Hne).
Qed.

(** Counting after the requests changed at an index whose entry [Hi] is known. *)
Ltac nums Hi :=
  unfold num in *; cbn [reqs] in *;
  rewrite ?count_eq_insert_any, ?count_eq_delete_any, ?Hi in *;
  repeat case_bool_decide; simplify_eq; cbn [Z.b2z] in *; try lia; try congruence.

(** A request of [(p, key)] enters or changes phase, and its item changes. *)
Lemma inv_move capacity size s i ph p key t :
  inv capacity size s -> stored key (strategy s) = Some p ->
  (reqs s !! i = None \/ exists ph0, reqs s !! i = Some (ph0, (p, key))) ->
  let s' := mkSys (set_item p t (strategy s)) (<[i := (ph, (p, key))]> (reqs s)) in
  item_ok t p key capacity size s' -> inv capacity size s'.
Proof.
  intros I Hp Hi s' Hok.
  apply (inv_update capacity size s s' p key); try done.
  - apply (inv_capacity _ _ _ I).
  - apply (inv_size _ _ _ I).
  - intros q Hq. by apply item_set_ne.
  - intros ph' q k Hne. destruct Hi as [Hi|[ph0 Hi]]; subst s'; nums Hi.
  - intros j ph' q k. subst s'. cbn. destruct (decide (i = j)) as [<-|Hne].
    + rewrite lookup_insert_eq. intros [= <- <- <-]. by left.
    + rewrite lookup_insert_ne by done. intros H. right. by exists ph'.
  - subst s'. cbn [strategy]. by rewrite item_set_eq.
Qed.

Lemma inv_enter capacity size s i key p b :
  Z.max 0 capacity + Z.max 0 size <= max_i64 ->
  inv capacity size s -> reqs s !! i = None -> take_enter key (strategy s) = EnterQueued p b ->
  inv capacity size (mkSys b (<[i := (Queued, (p, key))]> (reqs s))).
Proof.
  intros Hmax I Hi. unfold take_enter.
  destruct (ensure key (strategy s)) as [[q b1]|] eqn:E; [|done].
  pose proof (inv_ensure _ _ _ _ _ _ I E) as I1.
  apply ensure_spec in E as (_ & Es & Hp & _). rewrite Es, (inv_size _ _ _ I).
  destruct (size <=? QueueCount (item q b1)) eqn:El; [done|]. intros [= <- <-]. bool_prop.
  pose proof (inv_item _ _ _ I1 key q Hp) as (H1 & H2 & H3 & H4 & H5).
  cbn [strategy] in *.
  assert (forall ph, 0 <= num ph q key (mkSys b1 (reqs s))) as Hn by (intros; apply num_nonneg).
  pose proof (Hn Queued). pose proof (Hn Granted). pose proof (Hn Serving). unfold max_i64 in *.
  apply (inv_move capacity size (mkSys b1 (reqs s)) i Queued q key); [done|done|by left|].
  wrap_small. unfold item_ok. cbn [Process QueueCount ProcessCount]. repeat split; nums Hi.
Qed.

Lemma inv_send capacity size s i p key b :
  inv capacity size s -> reqs s !! i = Some (Queued, (p, key)) -> take_send p (strategy s) = Some b ->
  inv capacity size (mkSys b (<[i := (Granted, (p, key))]> (reqs s))).
Proof.
  intros I Hi. unfold take_send. rewrite (inv_capacity _ _ _ I).
  destruct (_ <? _) eqn:El; [|done]. intros [= <-]. bool_prop.
  pose proof (inv_held _ _ _ I _ _ _ _ Hi) as Hp.
  pose proof (inv_item _ _ _ I key p Hp) as (H1 & H2 & H3 & H4 & H5).
  apply inv_move; [done|done|by right; eexists|].
  unfold item_ok. cbn [Process QueueCount ProcessCount]. repeat split; nums Hi.
Qed.

Lemma inv_leave capacity size s i p key :
  Z.max 0 capacity + Z.max 0 size <= max_i64 ->
  inv capacity size s -> reqs s !! i = Some (Granted, (p, key)) ->
  inv capacity size (mkSys (take_leave p (strategy s)) (<[i := (Serving, (p, key))]> (reqs s))).
Proof.
  intros Hmax I Hi. pose proof (inv_held _ _ _ I _ _ _ _ Hi) as Hp.
  pose proof (inv_item _ _ _ I key p Hp) as (H1 & H2 & H3 & H4 & H5).
  pose proof (num_nonneg Queued p key s). pose proof (count_eq_pos _ _ _ Hi) as Hpos.
  fold (num Granted p key s) in Hpos. unfold max_i64 in *.
  apply inv_move; [done|done|by right; eexists|].
  wrap_small. unfold item_ok. cbn [Process QueueCount ProcessCount]. repeat split; nums Hi.
Qed.

(** [Put] by a request being served finds its own item and an element to receive. *)
Lemma put_done capacity size s i p key :
  Z.max 0 capacity + Z.max 0 size <= max_i64 ->
  inv capacity size s -> reqs s !! i = Some (Serving, (p, key)) ->
  exists m t, storage (strategy s) = Some m /\ m !! key = Some p
  /\ item_ok t p key capacity size (mkSys (set_item p t (strategy s)) (delete i (reqs s)))
  /\ Put key (strategy s) = PutDone
       (if (ProcessCount t <=? 0) && (QueueCount t <=? 0)
        then mk (Some (delete key m)) (<[p := t]> (heap (strategy s))) (fresh (strategy s)) capacity size
        else set_item p t (strategy s)).
Proof.
  intros Hmax I Hi. pose proof (inv_held _ _ _ I _ _ _ _ Hi) as Hp.
  pose proof (inv_item _ _ _ I key p Hp) as (H1 & H2 & H3 & H4 & H5).
  pose proof (num_nonneg Queued p key s). pose proof (num_nonneg Granted p key s).
  pose proof (count_eq_pos _ _ _ Hi) as Hpos. fold (num Serving p key s) in Hpos.
  unfold stored in Hp. destruct (storage (strategy s)) as [m|] eqn:Em; cbn in Hp;
    [|by rewrite lookup_empty in Hp]. unfold max_i64 in *.
  set (t0 := item p (strategy s)) in *.
  exists m, (mkItem (Process t0 - 1) (ProcessCount t0 - 1) (QueueCount t0)).
  repeat split; try done; cbn [Process QueueCount ProcessCount]; try (nums Hi; fail).
  unfold Put. rewrite Em, Hp. fold t0. rewrite (proj2 (Z.leb_gt _ _)) by lia.
  rewrite i64_small by lia. cbn. by rewrite (inv_capacity _ _ _ I), (inv_size _ _ _ I).
Qed.

Lemma num_delete_other ph q k i ph0 p key b s :
  reqs s !! i = Some (ph0, (p, key)) -> (q, k) <> (p, key) ->
  num ph q k (mkSys b (delete i (reqs s))) = num ph q k s.
Proof. intros Hi Hne. nums Hi. Qed.

Lemma inv_put capacity size s i p key b :
  Z.max 0 capacity + Z.max 0 size <= max_i64 ->
  inv capacity size s -> reqs s !! i = Some (Serving, (p, key)) -> Put key (strategy s) = PutDone b ->
  inv capacity size (mkSys b (delete i (reqs s))).
Proof.
  intros Hmax I Hi HP. pose proof (inv_held _ _ _ I _ _ _ _ Hi) as Hp.
  destruct (put_done _ _ _ _ _ _ Hmax I Hi) as (m & t & Em & Hm & Hok & E).
  rewrite E in HP. injection HP as <-.
  destruct ((ProcessCount t <=? 0) && (QueueCount t <=? 0)) eqn:Ez; bool_prop.
  - (* the item leaves the map: nobody else refers to it *)
    assert (forall k, stored k (strategy s) = m !! k) as Est by (intros; unfold stored; by rewrite Em).
    assert (forall k q, delete key m !! k = Some q -> k <> key /\ q <> p /\ stored k (strategy s) = Some q) as Hd.
    { intros k q Hq. apply lookup_delete_Some in Hq as [Hk Hq]. rewrite Est. repeat split; [done| |done].
      intros ->. apply Hk. symmetry. apply (inv_inj _ _ _ I k key p); by rewrite Est. }
    destruct Hok as (H1 & H2 & H3 & _). split; cbn; [done|done|..]; unfold stored; cbn.
    + intros k q Hq. apply Hd in Hq as (_ & _ & Hq). by eapply (inv_fresh _ _ _ I).
    + intros k k' q Hq Hq'. apply Hd in Hq as (_ & _ & Hq), Hq' as (_ & _ & Hq').
      by eapply (inv_inj _ _ _ I).
    + intros k q Hq. apply Hd in Hq as (Hk & Hne & Hq).
      pose proof (inv_item _ _ _ I k q Hq) as HI. unfold item_ok, item in *. cbn.
      rewrite lookup_insert_ne by done.
      rewrite !(num_delete_other _ _ _ _ _ _ _ _ s Hi) by congruence. exact HI.
    + intros j ph q k Hj. apply lookup_delete_Some in Hj as Hj'. destruct Hj' as [_ Hj'].
      pose proof (inv_held _ _ _ I _ _ _ _ Hj') as Hk. rewrite Est in Hk.
      apply lookup_delete_Some. split; [|done]. intros <-.
      rewrite Est in Hp. assert (q = p) as -> by congruence.
      set (s' := mkSys _ _) in H1, H2, H3.
      assert (0 < num ph p key s') by (by eapply count_eq_pos).
      pose proof (num_nonneg Queued p key s'). pose proof (num_nonneg Granted p key s').
      pose proof (num_nonneg Serving p key s'). destruct ph; lia.
  - eapply (inv_update capacity size s _ p key); cbn; try done; try apply I.
    + intros q Hq. by apply item_set_ne.
    + intros ph q k Hne. by eapply num_delete_other.
    + intros j ph q k Hj. apply lookup_delete_Some in Hj as [_ Hj]. right. by exists ph.
    + by rewrite item_set_eq.
Qed.

Lemma cq_inv_init capacity size : inv capacity size (mkSys (ConcurrentQueue capacity size) ∅).
Proof. split; try done; intros *; cbn; unfold stored; cbn; by rewrite lookup_empty. Qed.

Lemma cq_inv_step capacity size s s' :
  Z.max 0 capacity + Z.max 0 size <= max_i64 -> inv capacity size s -> step s s' -> inv capacity size s'.
Proof.
  intros Hmax I Hst. destruct Hst as [i key s p b Hi HT|key s b HT|i p key s b Hi HT|i p key s Hi|i p key s b Hi HP].
  - by apply inv_enter.
  - unfold take_enter in HT. destruct (ensure key (strategy s)) as [[q b1]|] eqn:E; [|done].
    case_match; [|done]. injection HT as <-. by eapply inv_ensure.
  - by apply inv_send.
  - by apply inv_leave.
  - by eapply inv_put.
Qed.

Lemma cq_reachable_inv capacity size s :
  Z.max 0 capacity + Z.max 0 size <= max_i64 -> reachable capacity size s -> inv capacity size s.
Proof.
  intros Hmax H. apply (rtc_ind_r (inv capacity size)) in H; [done|apply cq_inv_init|].
  intros; by eapply cq_inv_step.
Qed.

(** A served request that leaves keeps every stored item owned. *)
Lemma live_put capacity size s i p key b :
  Z.max 0 capacity + Z.max 0 size <= max_i64 -> inv capacity size s -> live s ->
  reqs s !! i = Some (Serving, (p, key)) -> Put key (strategy s) = PutDone b ->
  live (mkSys b (delete i (reqs s))).
Proof.
  intros Hmax I L Hi HP.
  destruct (put_done _ _ _ _ _ _ Hmax I Hi) as (m & t & Em & Hm & (H1 & H2 & H3 & _) & E).
  rewrite E in HP. injection HP as <-. intros k q Hq. cbn in *.
  pose proof (inv_held _ _ _ I _ _ _ _ Hi) as Hp.
  assert (stored k (strategy s) = Some q /\ (k = key -> 0 < ProcessCount t)) as [Hq' Hk].
  { unfold stored in *. rewrite Em in *. case_match; bool_prop; cbn in Hq.
    - apply lookup_delete_Some in Hq as [? Hq]. split; [done|]. congruence.
    - rewrite Em in Hq. split; [done|]. intros _.
      set (s' := mkSys _ _) in H1, H2, H3. pose proof (num_nonneg Serving p key s'). lia. }
  destruct (decide (k = key)) as [->|Hne].
  + assert (q = p) as -> by congruence. specialize (Hk eq_refl). rewrite H3 in Hk.
    set (s' := mkSys _ _) in Hk.
    assert (exists ph, 0 < num ph p key s') as [ph Hph].
    { pose proof (num_nonneg Queued p key s'). pose proof (num_nonneg Granted p key s').
      destruct (decide (0 < num Queued p key s')); [by eexists|].
      destruct (decide (0 < num Granted p key s')); [by eexists|]. exists Serving. lia. }
    apply count_eq_exists in Hph as [j Hj]. by exists j, ph.
  + destruct (L _ _ Hq') as (j & ph & Hj). exists j, ph. rewrite lookup_delete_ne; [done|congruence].
Qed.

Lemma live_step capacity size s s' :
  Z.max 0 capacity + Z.max 0 size <= max_i64 -> 0 < size ->
  inv capacity size s -> live s -> step s s' -> live s'.
Proof.
  intros Hmax Hsize I L Hst.
  assert (forall i e b, (forall k, stored k b = stored k (strategy s)) ->
            (exists ph0, reqs s !! i = Some (ph0, e.2)) -> live (mkSys b (<[i := e]> (reqs s)))) as Hmove.
  { intros i [ph0 e] b Hb [ph1 Hi] k q Hq. cbn in *. rewrite Hb in Hq.
    destruct (L _ _ Hq) as (j & ph & Hj). destruct (decide (i = j)) as [<-|Hne].
    - exists i, ph0. rewrite lookup_insert_eq. congruence.
    - exists j, ph. by rewrite lookup_insert_ne. }
  destruct Hst as [i key s p b Hi HT|key s b HT|i p key s b Hi HT|i p key s Hi|i p key s b Hi HP].
  - unfold take_enter in HT. destruct (ensure key (strategy s)) as [[p1 b1]|] eqn:E; [|done].
    case_match; [done|]. injection HT as <- <-.
    apply ensure_spec in E as (_ & _ & Hp & Hcase). intros k q Hq. cbn in *.
    change (stored k b1 = Some q) in Hq. destruct (decide (k = key)) as [->|Hne].
    + exists i, Queued. rewrite lookup_insert_eq. congruence.
    + assert (stored k (strategy s) = Some q) as Hq'.
      { destruct Hcase as [(_ & _ & _ & H')|(_ & _ & _ & _ & _ & H')]; [by rewrite <- H'|by rewrite <- H']. }
      destruct (L _ _ Hq') as (j & ph & Hj). exists j, ph. rewrite lookup_insert_ne; [done|congruence].
  - (* a full queue: the item existed already *)
    unfold take_enter in HT. destruct (ensure key (strategy s)) as [[p1 b1]|] eqn:E; [|done].
    case_match eqn:El; [|done]. injection HT as <-. bool_prop.
    apply ensure_spec in E as (_ & Es & Hp & [(_ & _ & _ & Hst)|(_ & _ & _ & Hz & _)]).
    + intros k q Hq. cbn in *. rewrite Hst in Hq. by apply L.
    + rewrite Hz, Es, (inv_size _ _ _ I) in El. cbn in El. lia.
  - apply Hmove; [|by exists Queued]. unfold take_send in HT. case_match; [|done]. by injection HT as <-.
  - apply Hmove; [done|by exists Granted].
  - by eapply live_put.
Qed.

Lemma reachable_live capacity size s :
  Z.max 0 capacity + Z.max 0 size <= max_i64 -> 0 < size -> reachable capacity size s -> live s.
Proof.
  intros Hmax Hs H. enough (inv capacity size s /\ live s) by tauto.
  revert s H. apply (rtc_ind_r (fun s => inv capacity size s /\ live s)).
  - split; [apply cq_inv_init|]. intros k q Hq. unfold stored in Hq. cbn in Hq. by rewrite lookup_empty in Hq.
  - intros s s' _ Hst [I L]. split; [by eapply cq_inv_step|by eapply live_step].
Qed.

(** Under every interleaving, all requests of a key use one item although Take
    holds it outside the mutex; at most Capacity of them are past the channel send and
    at most Size are queued. *)
Theorem cq_bounded capacity size s key :
  Z.max 0 capacity + Z.max 0 size <= max_i64 -> reachable capacity size s ->
  exists p, (forall i ph q, reqs s !! i = Some (ph, (q, key)) -> q = p)
  /\ num Granted p key s + num Serving p key s <= Z.max 0 capacity
  /\ num Queued p key s + num Granted p key s <= Z.max 0 size.
Proof.
  intros Hmax H. apply cq_reachable_inv in H as I; [|done].
  destruct (stored key (strategy s)) as [p|] eqn:Hp.
  - exists p. pose proof (inv_item _ _ _ I _ _ Hp) as (H1 & H2 & H3 & H4 & H5). split; [|lia].
    intros i ph q Hi. pose proof (inv_held _ _ _ I _ _ _ _ Hi). congruence.
  - assert (forall i ph q, reqs s !! i <> Some (ph, (q, key))) as Hno.
    { intros i ph q Hi. pose proof (inv_held _ _ _ I _ _ _ _ Hi). congruence. }
    exists 0%nat. split; [intros i ph q Hi; by apply Hno in Hi|].
    unfold num. rewrite !count_eq_zero; [lia|..]; intros j g Hg ->; by apply Hno in Hg.
Qed.

(** C39: With a positive capacity (and a capacity and queue size whose sum fits 64
    bits), the receive Put makes while holding the mutex never blocks, and while any
    request is pending some pending request can take a step. *)
Theorem cq_no_deadlock capacity size s :
  Z.max 0 capacity + Z.max 0 size <= max_i64 -> 0 < capacity -> reachable capacity size s ->
  (forall i p key, reqs s !! i = Some (Serving, (p, key)) -> Put key (strategy s) <> PutBlocked)
  /\ (reqs s <> ∅ -> exists i r s', reqs s !! i = Some r /\ step s s' /\ reqs s' !! i <> Some r).
Proof.
  intros Hmax Hcap H. apply cq_reachable_inv in H as I; [|done].
  assert (forall i p key, reqs s !! i = Some (Serving, (p, key)) ->
            exists b, Put key (strategy s) = PutDone b) as Hput.
  { intros i p key Hi. destruct (put_done _ _ _ _ _ _ Hmax I Hi) as (m & t & _ & _ & _ & E). eauto. }
  split; [intros i p key Hi Hb; destruct (Hput _ _ _ Hi); congruence|].
  intros Hne. destruct (map_choose _ Hne) as (i & [ph [p key]] & Hi).
  pose proof (inv_held _ _ _ I _ _ _ _ Hi) as Hp.
  pose proof (inv_item _ _ _ I _ _ Hp) as (H1 & _).
  destruct (decide (0 < num Serving p key s)) as [Hs|Hs];
    [|destruct (decide (0 < num Granted p key s)) as [Hg|Hg]].
  - apply count_eq_exists in Hs as [j Hj]. destruct (Hput _ _ _ Hj) as [b Hb].
    do 3 eexists. split; [exact Hj|]. split; [by eapply step_put|]. cbn. by rewrite lookup_delete_eq.
  - apply count_eq_exists in Hg as [j Hj].
    do 3 eexists. split; [exact Hj|]. split; [by eapply step_leave|]. cbn. by rewrite lookup_insert_eq.
  - destruct ph; [|by apply count_eq_pos in Hi|by apply count_eq_pos in Hi].
    pose proof (num_nonneg Serving p key s). pose proof (num_nonneg Granted p key s).
    do 3 eexists. split; [exact Hi|]. split.
    + eapply step_send; [exact Hi|]. unfold take_send.
      rewrite (inv_capacity _ _ _ I), (proj2 (Z.ltb_lt _ _)) by lia. done.
    + cbn. by rewrite lookup_insert_eq.
Qed.

(** With a positive queue size, when every request has finished no key is left in
    the map. *)
Theorem cq_drains capacity size s key :
  Z.max 0 capacity + Z.max 0 size <= max_i64 -> 0 < size -> reachable capacity size s ->
  reqs s = ∅ -> stored key (strategy s) = None.
Proof.
  intros Hmax Hs H E. destruct (stored key (strategy s)) as [p|] eqn:Hp; [|done].
  destruct (reachable_live _ _ _ Hmax Hs H _ _ Hp) as (i & ph & Hi). by rewrite E, lookup_empty in Hi.
Qed.

(** A queue of size zero admits nobody, however much capacity is free: a request
    counts as queued before it takes a free slot. *)
Theorem cq_size_zero_drops_all capacity s key p b :
  0 <= capacity <= max_i64 -> reachable capacity 0 s -> take_enter key (strategy s) <> EnterQueued p b.
Proof.
  intros Hc H. apply cq_reachable_inv in H as I; [|lia]. unfold take_enter.
  destruct (ensure key (strategy s)) as [[q b1]|] eqn:E; [|done].
  pose proof (inv_ensure _ _ _ _ _ _ I E) as I1. apply ensure_spec in E as (_ & Es & Hp & _).
  pose proof (inv_item _ _ _ I1 key q Hp) as (_ & H2 & _). cbn in H2.
  pose proof (num_nonneg Queued q key (mkSys b1 (reqs s))).
  pose proof (num_nonneg Granted q key (mkSys b1 (reqs s))).
  rewrite Es, (inv_size _ _ _ I), (proj2 (Z.leb_le _ _)) by lia. done.
Qed.

(** ** Witnesses: one request served and one queued behind it *)

Definition demo1 : system :=
  mkSys (mk (Some {["k" := 0%nat]}) {[0%nat := mkItem 0 1 1]} 1 1 2) {[0%nat := (Queued, (0%nat, "k"))]}.
Definition demo2 : system :=
  mkSys (mk (Some {["k" := 0%nat]}) {[0%nat := mkItem 1 1 1]} 1 1 2) {[0%nat := (Granted, (0%nat, "k"))]}.
Definition demo3 : system :=
  mkSys (mk (Some {["k" := 0%nat]}) {[0%nat := mkItem 1 1 0]} 1 1 2) {[0%nat := (Serving, (0%nat, "k"))]}.
Definition demo4 : system :=
  mkSys (mk (Some ∅) {[0%nat := mkItem 0 0 0]} 1 1 2) ∅.

Lemma demo_reachable : reachable 1 2 demo3 /\ reachable 1 2 demo4.
Proof.
  assert (reachable 1 2 demo3) as H.
  { apply (rtc_l _ _ demo1); [apply (step_enter 0 "k"); vm_compute; reflexivity|].
    apply (rtc_l _ _ demo2); [apply (step_send 0 0 "k"); vm_compute; reflexivity|].
    apply (rtc_l _ _ demo3); [apply (step_leave 0 0 "k"); vm_compute; reflexivity|]. apply rtc_refl. }
  split; [done|]. eapply rtc_r; [exact H|]. apply (step_put 0 0 "k"); vm_compute; reflexivity.
Qed.

Lemma cq_bounded_witness :
  exists p, (forall i ph q, reqs demo3 !! i = Some (ph, (q, "k")) -> q = p)
  /\ num Granted p "k" demo3 + num Serving p "k" demo3 <= 1
  /\ num Queued p "k" demo3 + num Granted p "k" demo3 <= 2.
Proof. apply (cq_bounded 1 2 demo3 "k"); [unfold max_i64; lia|apply demo_reachable]. Defined.

Lemma cq_no_deadlock_witness :
  exists i r s', reqs demo3 !! i = Some r /\ step demo3 s' /\ reqs s' !! i <> Some r.
Proof.
  refine (proj2 (cq_no_deadlock 1 2 demo3 _ _ _) _);
    [unfold max_i64; lia|lia|apply demo_reachable|].
  intros E. apply (f_equal (fun m => m !! 0%nat)) in E. vm_compute in E. discriminate.
Defined.

Lemma cq_drains_witness : stored "k" (strategy demo4) = None.
Proof. apply (cq_drains 1 2 demo4 "k"); [unfold max_i64; lia|lia|apply demo_reachable|reflexivity]. Defined.

Lemma cq_size_zero_drops_all_witness :
  take_enter "k" (ConcurrentQueue 4 0) <> EnterQueued 0 (ConcurrentQueue 4 0).
Proof.
  apply (cq_size_zero_drops_all 4 (mkSys (ConcurrentQueue 4 0) ∅) "k"); [unfold max_i64; lia|apply rtc_refl].
Defined.
End ConcurrentQueueFacts.
