(* ===== verification/LeakyBucket.v ===== *)
(** * pkg/ratelimit: the leaky-bucket strategy

    [src/pkg/ratelimit/leakybucket.go].  [Take] may sleep outside the mutex while
    it holds a pointer to the key's item, and a janitor goroutine deletes idle
    items; items therefore live in a heap.  [Take] is split at the sleep:
    [take_enter] is everything before it, [take_wake] everything after.  The field
    [janitors] counts the live [cleanupLoop] goroutines. *)

From S2P Require Import Prelude.

Module LeakyBucket.

Record leakyItem := mkItem { Last : Z; Count : Z }.

Record LeakyBucketStrategy := mk {
  storage : option (gmap string nat);
  heap : gmap nat leakyItem;
  fresh : nat;
  cleanupRunning : bool;
  janitors : Z;
  sweepEvery : Z;
  PerRequest : Z;
  Size : Z;
}.

Definition LeakyBucket (perRequest size : Z) : LeakyBucketStrategy :=
  mk None ∅ 0 false 0 0 perRequest size.

Definition set_item (p : nat) (t : leakyItem) (b : LeakyBucketStrategy) : LeakyBucketStrategy :=
  mk (storage b) (<[p := t]> (heap b)) (fresh b) (cleanupRunning b) (janitors b) (sweepEvery b)
     (PerRequest b) (Size b).

Definition item (p : nat) (b : LeakyBucketStrategy) : leakyItem :=
  default (mkItem zero_time 0) (heap b !! p).

(** The map with the key's item, made when it has none, and a live janitor. *)
Definition ensure (key : string) (b : LeakyBucketStrategy) : nat * LeakyBucketStrategy :=
  let m := default ∅ (storage b) in
  let '(p, m, h, f) :=
    match m !! key with
    | Some p => (p, m, heap b, fresh b)
    | None => (fresh b, <[key := fresh b]> m, <[fresh b := mkItem zero_time 0]> (heap b), S (fresh b))
    end in
  let n := if cleanupRunning b then janitors b else janitors b + 1 in
  (p, mk (Some m) h f true n (sweepEvery b) (PerRequest b) (Size b)).

Inductive take :=
  | TakeOk (b : LeakyBucketStrategy)
  | TakeFull (b : LeakyBucketStrategy)
  | TakeSleep (p : nat) (sleep : Z) (b : LeakyBucketStrategy).

Definition take_enter (now : Z) (key : string) (b : LeakyBucketStrategy) : take :=
  let '(p, b) := ensure key b in
  let t := item p b in
  if Last t =? zero_time then TakeOk (set_item p (mkItem now (Count t)) b)
  else
    let next := Last t + PerRequest b in
    let sleep := time_sub next now in
    if sleep <=? 0 then TakeOk (set_item p (mkItem now (Count t)) b)
    else if Size b <=? Count t then TakeFull b
    else TakeSleep p sleep (set_item p (mkItem next (i64 (Count t + 1))) b).

Definition take_wake (p : nat) (b : LeakyBucketStrategy) : LeakyBucketStrategy :=
  let t := item p b in set_item p (mkItem (Last t) (i64 (Count t - 1))) b.

Definition Put (_ : string) (b : LeakyBucketStrategy) : LeakyBucketStrategy := b.

Definition After (now : Z) (key : string) (b : LeakyBucketStrategy) : Z :=
  match storage b with
  | None => 0
  | Some m =>
      match m !! key with
      | None => 0
      | Some p =>
          let next := Last (item p b) + PerRequest b in
          if next <? now then 0 else time_sub next now
      end
  end.

(** The interval of [cleanupLoop], which is also the age it evicts at. *)
Definition every (b : LeakyBucketStrategy) : Z :=
  if sweepEvery b <=? 0 then
    let e := i64 (PerRequest b + Second) in
    if e <? Minute then Minute else e
  else sweepEvery b.

(** One sweep that read the clock at [now]: the new state and whether the janitor
    stops. *)
Definition evictStale (now maxAge : Z) (b : LeakyBucketStrategy) : LeakyBucketStrategy * bool :=
  let deleteBefore := now - maxAge in
  let m := filter (fun kv => ~ (Count (item kv.2 b) <= 0 /\ Last (item kv.2 b) < deleteBefore))
                  (default ∅ (storage b)) in
  let s := match storage b with None => None | Some _ => Some m end in
  let running := if (0 <? size m)%nat then cleanupRunning b else false in
  (mk s (heap b) (fresh b) running (janitors b) (sweepEvery b) (PerRequest b) (Size b),
   negb (0 <? size m)%nat).

(** One turn of [cleanupLoop]; the goroutine ends when the sweep says so. *)
Definition cleanup_turn (now : Z) (b : LeakyBucketStrategy) : LeakyBucketStrategy :=
  let '(b, stopped) := evictStale now (every b) b in
  mk (storage b) (heap b) (fresh b) (cleanupRunning b) (if stopped then janitors b - 1 else janitors b)
     (sweepEvery b) (PerRequest b) (Size b).
End LeakyBucket.

Module LeakyBucketFacts.
Import LeakyBucket.

(** The requests that sleep in [Take] carry their item and key, and the time
    before which they do not wake; [log] has every admission, newest first, with
    the time the request goes ahead. *)
Record system := mkSys {
  strategy : LeakyBucketStrategy;
  clock : Z;
  sleeping : gmap nat (nat * string);
  until : gmap nat Z;
  log : list (string * Z);
}.

Inductive step : system -> system -> Prop :=
  | step_tick t s : clock s <= t -> step s (mkSys (strategy s) t (sleeping s) (until s) (log s))
  | step_now key s b :
      take_enter (clock s) key (strategy s) = TakeOk b ->
      step s (mkSys b (clock s) (sleeping s) (until s) ((key, clock s) :: log s))
  | step_full key s b :
      take_enter (clock s) key (strategy s) = TakeFull b ->
      step s (mkSys b (clock s) (sleeping s) (until s) (log s))
  | step_sleep i key s p d b :
      sleeping s !! i = None ->
      take_enter (clock s) key (strategy s) = TakeSleep p d b ->
      step s (mkSys b (clock s) (<[i := (p, key)]> (sleeping s)) (<[i := clock s + d]> (until s))
                    ((key, clock s + d) :: log s))
  | step_wake i key s p u :
      sleeping s !! i = Some (p, key) -> until s !! i = Some u -> u <= clock s ->
      step s (mkSys (take_wake p (strategy s)) (clock s) (delete i (sleeping s)) (delete i (until s)) (log s))
  | step_sweep t s :
      t <= clock s -> 0 < janitors (strategy s) ->
      step s (mkSys (cleanup_turn t (strategy s)) (clock s) (sleeping s) (until s) (log s)).

Definition reachable (per size : Z) (s : system) : Prop :=
  exists t, 0 <= t /\ rtc step (mkSys (LeakyBucket per size) t ∅ ∅ []) s.

(** The admission times of [key], newest first. *)
Definition times (key : string) (l : list (string * Z)) : list Z :=
  (filter (fun kt => kt.1 = key) l).*2.
#[global] Arguments times : simpl never.

Fixpoint spaced (per : Z) (l : list Z) : Prop :=
  match l with
  | [] => True
  | t :: l => match l with [] => True | t' :: _ => t' + per <= t end /\ spaced per l
  end.

Definition stored (key : string) (b : LeakyBucketStrategy) : option nat :=
  default ∅ (storage b) !! key.

(** What is true of [key]'s item: its count is the requests that sleep on it, its
    time is the last admission, and each admission still to come is a sleeper. *)
Definition item_ok (p : nat) (key : string) (per size : Z) (s : system) : Prop :=
  let t := item p (strategy s) in
  Count t = count_eq (p, key) (sleeping s) /\ Count t <= Z.max 0 size
  /\ 0 <= Last t /\ head (times key (log s)) = Some (Last t)
  /\ forall n, 0 <= n -> clock s < Last t - n * per ->
       exists i, sleeping s !! i = Some (p, key) /\ until s !! i = Some (Last t - n * per).

Record inv (per size : Z) (s : system) : Prop := {
  inv_per : PerRequest (strategy s) = per;
  inv_size : Size (strategy s) = size;
  inv_sweep : sweepEvery (strategy s) = 0;
  inv_clock : 0 <= clock s;
  inv_running key p : stored key (strategy s) = Some p -> cleanupRunning (strategy s) = true;
  inv_janitors : janitors (strategy s) = Z.b2z (cleanupRunning (strategy s));
  inv_fresh key p : stored key (strategy s) = Some p -> (p < fresh (strategy s))%nat;
  inv_inj key key' p :
    stored key (strategy s) = Some p -> stored key' (strategy s) = Some p -> key = key';
  inv_item key p : stored key (strategy s) = Some p -> item_ok p key per size s;
  inv_gone key t : stored key (strategy s) = None -> head (times key (log s)) = Some t ->
    t + per <= clock s;
  inv_spaced key : spaced per (times key (log s));
  inv_held i p key : sleeping s !! i = Some (p, key) -> stored key (strategy s) = Some p;
}.

Lemma times_cons_eq key t l : times key ((key, t) :: l) = t :: times key l.
Proof. unfold times. by rewrite filter_cons_True. Qed.

Lemma times_cons_ne key k t l : k <> key -> times key ((k, t) :: l) = times key l.
Proof. intros H. unfold times. by rewrite filter_cons_False. Qed.

Lemma lb_item_set_eq p t b : item p (set_item p t b) = t.
Proof. unfold item, set_item. cbn. by rewrite lookup_insert_eq. Qed.

Lemma lb_item_set_ne p q t b : p <> q -> item q (set_item p t b) = item q b.
Proof. intros H. unfold item, set_item. cbn. by rewrite lookup_insert_ne. Qed.

(** A step that makes or changes the item of [key]. *)
Record update (p : nat) (key : string) (s s' : system) : Prop := {
  up_config : PerRequest (strategy s') = PerRequest (strategy s)
    /\ Size (strategy s') = Size (strategy s) /\ sweepEvery (strategy s') = sweepEvery (strategy s);
  up_clock : clock s' = clock s;
  up_live : cleanupRunning (strategy s') = true /\ janitors (strategy s') = 1;
  up_fresh : (p < fresh (strategy s'))%nat /\ (fresh (strategy s) <= fresh (strategy s'))%nat;
  up_stored k : stored k (strategy s') = if decide (k = key) then Some p else stored k (strategy s);
  up_new k : stored k (strategy s) = Some p -> k = key;
  up_item q : q <> p -> item q (strategy s') = item q (strategy s);
  up_count q k : k <> key -> count_eq (q, k) (sleeping s') = count_eq (q, k) (sleeping s);
  up_until i q k : k <> key -> sleeping s !! i = Some (q, k) ->
    sleeping s' !! i = Some (q, k) /\ until s' !! i = until s !! i;
  up_times k : k <> key -> times k (log s') = times k (log s);
  up_held i q k : sleeping s' !! i = Some (q, k) ->
    (q = p /\ k = key) \/ (sleeping s !! i = Some (q, k) /\ (k = key -> q = p));
}.

Lemma lb_inv_update per size s s' p key :
  inv per size s -> update p key s s' -> item_ok p key per size s' -> spaced per (times key (log s')) ->
  inv per size s'.
Proof.
  intros I U Hok Hsp. destruct (up_config _ _ _ _ U) as (E1 & E2 & E3).
  destruct (up_live _ _ _ _ U) as [L1 L2]. destruct (up_fresh _ _ _ _ U) as [F1 F2].
  assert (forall k q, stored k (strategy s') = Some q ->
    (k = key /\ q = p) \/ (k <> key /\ q <> p /\ stored k (strategy s) = Some q)) as Hcase.
  { intros k q. rewrite (up_stored _ _ _ _ U). case_decide; [left; split; congruence|].
    intros Hq. right. split; [done|]. split; [|done]. intros ->. by apply (up_new _ _ _ _ U) in Hq. }
  split.
  - rewrite E1. apply I.
  - rewrite E2. apply I.
  - rewrite E3. apply I.
  - rewrite (up_clock _ _ _ _ U). apply I.
  - done.
  - by rewrite L1, L2.
  - intros k q Hq. destruct (Hcase _ _ Hq) as [[_ ->]|(_ & _ & Hq')]; [lia|].
    pose proof (inv_fresh _ _ _ I _ _ Hq'). lia.
  - intros k k' q H1 H2. destruct (Hcase _ _ H1) as [[-> ->]|(? & ? & H1')],
      (Hcase _ _ H2) as [[-> ?]|(? & ? & H2')]; try done. by eapply (inv_inj _ _ _ I).
  - intros k q Hq. destruct (Hcase _ _ Hq) as [[-> ->]|(? & ? & Hq')]; [done|].
    pose proof (inv_item _ _ _ I _ _ Hq') as H'. unfold item_ok in *.
    rewrite (up_item _ _ _ _ U), (up_count _ _ _ _ U), (up_times _ _ _ _ U), (up_clock _ _ _ _ U) by done.
    destruct H' as (H1 & H2 & H3 & H4 & H5). repeat split; try done.
    intros n Hn Hlt. destruct (H5 n Hn Hlt) as (i & Hi & Hu). exists i.
    destruct (up_until _ _ _ _ U i q k) as [-> ->]; done.
  - intros k t. rewrite (up_stored _ _ _ _ U), (up_clock _ _ _ _ U). case_decide; [done|].
    rewrite (up_times _ _ _ _ U) by done. apply (inv_gone _ _ _ I).
  - intros k. destruct (decide (k = key)) as [->|]; [done|].
    rewrite (up_times _ _ _ _ U) by done. apply (inv_spaced _ _ _ I).
  - intros i q k Hi. rewrite (up_stored _ _ _ _ U).
    destruct (up_held _ _ _ _ U _ _ _ Hi) as [[-> ->]|[Hi' Hk]]; case_decide; try done.
    + by rewrite Hk.
    + by eapply (inv_held _ _ _ I).
Qed.

(** ** The backlog *)

(** As many sleepers as admissions still to come. *)
Lemma sleepers_pigeonhole {A} `{!EqDecision A} (e : A) (T per : Z) N sl (un : gmap nat Z) :
  0 < per ->
  (forall n, (n < N)%nat -> exists i, sl !! i = Some e /\ un !! i = Some (T - Z.of_nat n * per)) ->
  Z.of_nat N <= count_eq e sl.
Proof.
  intros Hper. revert sl. induction N as [|N IH]; intros sl H; [apply count_eq_nonneg|].
  destruct (H N) as (i & Hi & Hu); [lia|].
  pose proof (count_eq_delete e sl i Hi). specialize (IH (delete i sl)).
  enough (Z.of_nat N <= count_eq e (delete i sl)) by lia. apply IH. intros n Hn.
  destruct (H n) as (j & Hj & Hv); [lia|]. exists j. split; [|done].
  rewrite lookup_delete_ne; [done|]. intros <-. rewrite Hu in Hv. injection Hv. nia.
Qed.

Lemma backlog per size s key p :
  0 < per -> item_ok p key per size s ->
  Last (item p (strategy s)) <= clock s + per * Count (item p (strategy s)).
Proof.
  intros Hper (Hc & _ & _ & _ & Hb). set (t := item p (strategy s)) in *.
  destruct (Z.le_gt_cases (Last t) (clock s + per * Count t)) as [|Hgt]; [done|exfalso].
  pose proof (count_eq_nonneg (p, key) (sleeping s)) as Hn.
  enough (Z.of_nat (Z.to_nat (Count t + 1)) <= count_eq (p, key) (sleeping s)) by lia.
  apply (sleepers_pigeonhole _ (Last t) per _ _ (until s)); [done|].
  intros n Hlt. apply Hb; nia.
Qed.

(** ** The first critical section *)

Lemma lb_ensure_spec key b p b' :
  ensure key b = (p, b') ->
  (PerRequest b' = PerRequest b /\ Size b' = Size b /\ sweepEvery b' = sweepEvery b)
  /\ cleanupRunning b' = true /\ janitors b' = (if cleanupRunning b then janitors b else janitors b + 1)
  /\ (forall k, stored k b' = if decide (k = key) then Some p else stored k b)
  /\ ((stored key b = Some p /\ heap b' = heap b /\ fresh b' = fresh b)
      \/ (stored key b = None /\ p = fresh b /\ fresh b' = S (fresh b)
          /\ item p b' = mkItem zero_time 0 /\ forall q, q <> p -> item q b' = item q b)).
Proof.
  unfold ensure, stored, item. destruct (default ∅ (storage b) !! key) as [q|] eqn:E;
    intros [= <- <-]; cbn; (split; [done|]); (split; [done|]); (split; [done|]); split.
  - intros k. case_decide; [by subst k|done].
  - by left.
  - intros k. case_decide; [subst k; by rewrite lookup_insert_eq|by rewrite lookup_insert_ne].
  - right. rewrite lookup_insert_eq. repeat split; try done. intros q Hq. by rewrite lookup_insert_ne.
Qed.

(** [b'] is [b] with at most the item at [p] changed. *)
Definition only_item (p : nat) (b b' : LeakyBucketStrategy) : Prop :=
  storage b' = storage b /\ fresh b' = fresh b /\ cleanupRunning b' = cleanupRunning b
  /\ janitors b' = janitors b /\ sweepEvery b' = sweepEvery b /\ PerRequest b' = PerRequest b
  /\ Size b' = Size b /\ forall q, q <> p -> item q b' = item q b.

Lemma only_item_refl p b : only_item p b b.
Proof. done. Qed.

Lemma only_item_set p t b : only_item p b (set_item p t b).
Proof. repeat split; try done. intros q Hq. by apply lb_item_set_ne. Qed.

Lemma ensure_update per size s key p b b' sl un lg :
  inv per size s -> ensure key (strategy s) = (p, b) -> only_item p b b' ->
  ((sl = sleeping s /\ un = until s)
   \/ exists i u, sleeping s !! i = None /\ sl = <[i := (p, key)]> (sleeping s) /\ un = <[i := u]> (until s)) ->
  (lg = log s \/ exists t, lg = (key, t) :: log s) ->
  update p key s (mkSys b' (clock s) sl un lg).
Proof.
  intros I E (O1 & O2 & O3 & O4 & O5 & O6 & O7 & O8) Hsl Hlg.
  apply lb_ensure_spec in E as (Hcfg & Hrun & Hj & Hst & Hcase).
  pose proof (inv_janitors _ _ _ I) as HJ.
  split; cbn.
  - rewrite O6, O7, O5. exact Hcfg.
  - done.
  - rewrite O3, O4, Hj, HJ. split; [done|]. by destruct (cleanupRunning (strategy s)).
  - rewrite O2. destruct Hcase as [(H1 & _ & ->)|(_ & -> & -> & _)]; [|lia].
    pose proof (inv_fresh _ _ _ I _ _ H1). lia.
  - intros k. unfold stored. rewrite O1. apply Hst.
  - intros k Hk. destruct Hcase as [(H1 & _)|(_ & -> & _)]; [by eapply (inv_inj _ _ _ I)|].
    pose proof (inv_fresh _ _ _ I _ _ Hk). lia.
  - intros q Hq. rewrite O8 by done. destruct Hcase as [(_ & Hh & _)|(_ & _ & _ & _ & Hi)]; [|by apply Hi].
    unfold item. by rewrite Hh.
  - intros q k Hk. destruct Hsl as [[-> _]|(i & u & Hi & -> & _)]; [done|].
    rewrite count_eq_insert_any, Hi. rewrite !bool_decide_false by congruence. cbn. lia.
  - intros i q k Hk Hi. destruct Hsl as [[-> ->]|(j & u & Hj' & -> & ->)]; [done|].
    assert (j <> i) by congruence. by rewrite !lookup_insert_ne.
  - intros k Hk. destruct Hlg as [->|[t ->]]; [done|]. by apply times_cons_ne.
  - intros i q k Hi.
    assert (sleeping s !! i = Some (q, k) -> k = key -> q = p) as Hold.
    { intros Hi' ->. pose proof (inv_held _ _ _ I _ _ _ Hi') as H1.
      destruct Hcase as [(H2 & _)|(H2 & _)]; congruence. }
    destruct Hsl as [[-> _]|(j & u & _ & -> & _)]; [right; auto|].
    destruct (decide (j = i)) as [->|Hne].
    + rewrite lookup_insert_eq in Hi. injection Hi as <- <-. by left.
    + rewrite lookup_insert_ne in Hi by done. right; auto.
Qed.

(** The item [Take] works on: the stored one, or a new one nobody sleeps on. *)
Lemma ensure_item per size s key p b :
  inv per size s -> ensure key (strategy s) = (p, b) ->
  PerRequest b = per /\ Size b = size /\
  ((stored key (strategy s) = Some p /\ item p b = item p (strategy s) /\ item_ok p key per size s)
   \/ (stored key (strategy s) = None /\ item p b = mkItem zero_time 0
       /\ count_eq (p, key) (sleeping s) = 0)).
Proof.
  intros I E. apply lb_ensure_spec in E as ((E1 & E2 & _) & _ & _ & _ & Hcase).
  rewrite E1, E2. split; [apply I|]. split; [apply I|].
  destruct Hcase as [(H1 & Hh & _)|(H1 & _ & _ & Hz & _)].
  - left. unfold item at 1. rewrite Hh. split; [done|]. split; [done|]. by apply (inv_item _ _ _ I).
  - right. repeat split; [done..|]. apply count_eq_zero. intros j g Hg ->.
    pose proof (inv_held _ _ _ I _ _ _ Hg). congruence.
Qed.

Lemma spaced_cons per t l :
  (forall t', head l = Some t' -> t' + per <= t) -> spaced per l -> spaced per (t :: l).
Proof. intros H Hs. split; [|done]. destruct l; [done|]. by apply H. Qed.

Lemma inv_now per size s key b :
  0 < per -> inv per size s -> take_enter (clock s) key (strategy s) = TakeOk b ->
  inv per size (mkSys b (clock s) (sleeping s) (until s) ((key, clock s) :: log s)).
Proof.
  intros Hper I. unfold take_enter. destruct (ensure key (strategy s)) as [p b0] eqn:E.
  destruct (ensure_item _ _ _ _ _ _ I E) as (Ep & Es & Hit). rewrite Ep, Es.
  pose proof (inv_clock _ _ _ I) as Hck. intros HT.
  assert (b = set_item p (mkItem (clock s) (Count (item p b0))) b0
          /\ forall t, head (times key (log s)) = Some t -> t + per <= clock s) as [-> Hsp].
  { destruct Hit as [(H1 & Hi & (H2 & H3 & H4 & H5 & _))|(H1 & Hi & H2)]; rewrite Hi in *.
    - rewrite (proj2 (Z.eqb_neq _ _)) in HT by (unfold zero_time, Second, Millisecond; lia).
      rewrite time_sub_pos in HT. destruct (_ <=? 0) eqn:El; [|by case_match]. bool_prop.
      injection HT as <-. split; [done|]. intros t Ht. assert (t = Last (item p (strategy s))) by congruence. lia.
    - cbn in HT. injection HT as <-. split; [done|]. intros t Ht. by eapply (inv_gone _ _ _ I). }
  eapply lb_inv_update; [exact I| |..].
  - eapply ensure_update; [done..|apply only_item_set|by left|eauto].
  - unfold item_ok. cbn. rewrite lb_item_set_eq, times_cons_eq. cbn.
    repeat split; try done; try nia.
    + destruct Hit as [(_ & -> & H)|(_ & -> & H)]; [apply H|done].
    + destruct Hit as [(_ & -> & H)|(_ & -> & H)]; [apply H|cbn; lia].
  - cbn. rewrite times_cons_eq. apply spaced_cons; [done|apply (inv_spaced _ _ _ I)].
Qed.

Lemma inv_full per size s key b :
  inv per size s -> take_enter (clock s) key (strategy s) = TakeFull b ->
  inv per size (mkSys b (clock s) (sleeping s) (until s) (log s)).
Proof.
  intros I. unfold take_enter. destruct (ensure key (strategy s)) as [p b0] eqn:E.
  destruct (ensure_item _ _ _ _ _ _ I E) as (Ep & Es & Hit).
  destruct Hit as [(H1 & Hi & Hok)|(H1 & Hi & H2)]; [|by rewrite Hi].
  intros HT. assert (b = b0) as -> by (repeat case_match; congruence).
  eapply lb_inv_update; [exact I| |..].
  - eapply ensure_update; [done..|apply only_item_refl|by left|by left].
  - unfold item_ok. cbn. rewrite Hi. exact Hok.
  - apply (inv_spaced _ _ _ I).
Qed.

(** A request that has to wait is scheduled one [PerRequest] after the previous
    admission, at most [Size] of them ahead. *)
Lemma take_sleep_spec per size s key p d b :
  0 < per -> per * Z.max 0 size <= max_i64 -> inv per size s ->
  take_enter (clock s) key (strategy s) = TakeSleep p d b ->
  exists b0, ensure key (strategy s) = (p, b0) /\ item_ok p key per size s
  /\ item p b0 = item p (strategy s) /\ Count (item p b0) < size
  /\ d = Last (item p b0) + per - clock s /\ 0 < d <= per * size
  /\ b = set_item p (mkItem (Last (item p b0) + per) (Count (item p b0) + 1)) b0.
Proof.
  intros Hper Hmax I. unfold take_enter. destruct (ensure key (strategy s)) as [q b0] eqn:E.
  destruct (ensure_item _ _ _ _ _ _ I E) as (Ep & Es & Hit). rewrite Ep, Es.
  destruct Hit as [(H1 & Hi & Hok)|(H1 & Hi & H2)]; [|by rewrite Hi].
  pose proof (backlog _ _ _ _ _ Hper Hok) as Hb. rewrite <- Hi in Hb.
  pose proof (count_eq_nonneg (q, key) (sleeping s)) as Hn.
  assert (Count (item q b0) = count_eq (q, key) (sleeping s)) as Hc by (rewrite Hi; apply Hok).
  rewrite time_sub_pos. destruct (Last _ =? _); [done|]. destruct (_ - _ <=? 0) eqn:E1; [done|].
  destruct (size <=? _) eqn:E2; [done|]. intros [= <- <- <-]. bool_prop. exists b0.
  assert (per * (Count (item q b0) + 1) <= per * size) by nia.
  rewrite time_sub_small by nia. rewrite i64_small by (unfold max_i64 in *; nia).
  repeat split; try done; try apply Hok; lia.
Qed.

Lemma inv_sleep per size s i key p d b :
  0 < per -> per * Z.max 0 size <= max_i64 -> inv per size s -> sleeping s !! i = None ->
  take_enter (clock s) key (strategy s) = TakeSleep p d b ->
  inv per size (mkSys b (clock s) (<[i := (p, key)]> (sleeping s)) (<[i := clock s + d]> (until s))
                      ((key, clock s + d) :: log s)).
Proof.
  intros Hper Hmax I Hi HT.
  destruct (take_sleep_spec _ _ _ _ _ _ _ Hper Hmax I HT) as (b0 & E & Hok & Hit & Hlt & Hd & _ & ->).
  destruct Hok as (H1 & H2 & H3 & H4 & H5). rewrite <- Hit in *.
  set (t := item p b0) in *. replace (clock s + d) with (Last t + per) by lia.
  eapply lb_inv_update; [exact I| |..].
  - eapply ensure_update; [done..|apply only_item_set|right; by exists i, (Last t + per)|eauto].
  - unfold item_ok. cbn. rewrite lb_item_set_eq, times_cons_eq. cbn.
    rewrite count_eq_insert by congruence. repeat split; try lia.
    intros n Hn Hc. destruct (decide (n = 0)) as [->|Hne].
    + exists i. rewrite !lookup_insert_eq. split; [done|]. f_equal. lia.
    + destruct (H5 (n - 1)) as (j & Hj & Hu); [lia|nia|]. exists j.
      assert (i <> j) by congruence. rewrite !lookup_insert_ne by done. split; [done|].
      rewrite Hu. f_equal. lia.
  - cbn. rewrite times_cons_eq. apply spaced_cons; [|apply (inv_spaced _ _ _ I)].
    intros t' Ht'. assert (t' = Last t) by congruence. lia.
Qed.

Lemma inv_wake per size s i key p u :
  0 < per -> size <= max_i64 -> inv per size s ->
  sleeping s !! i = Some (p, key) -> until s !! i = Some u -> u <= clock s ->
  inv per size (mkSys (take_wake p (strategy s)) (clock s) (delete i (sleeping s)) (delete i (until s)) (log s)).
Proof.
  intros Hper Hsz I Hi Hu Hle. pose proof (inv_held _ _ _ I _ _ _ Hi) as Hp.
  pose proof (inv_item _ _ _ I _ _ Hp) as (H1 & H2 & H3 & H4 & H5).
  pose proof (inv_running _ _ _ I _ _ Hp) as Hrun. pose proof (inv_janitors _ _ _ I) as HJ.
  pose proof (count_eq_pos _ _ _ Hi) as Hpos. unfold max_i64 in *.
  unfold take_wake. set (t := item p (strategy s)) in *. rewrite i64_small by lia.
  apply (lb_inv_update per size s _ p key); [done| |..].
  - split; cbn; try done.
    + split; [done|]. by rewrite HJ, Hrun.
    + split; [by apply (inv_fresh _ _ _ I key)|lia].
    + intros k. change (stored k (strategy s) = if decide (k = key) then Some p else stored k (strategy s)).
      case_decide; [by subst k|done].
    + intros k Hk. by apply (inv_inj _ _ _ I k key p).
    + intros q Hq. by apply lb_item_set_ne.
    + intros q k Hk. rewrite count_eq_delete_ne; [done|congruence].
    + intros j q k Hk Hj. assert (i <> j) by congruence. by rewrite !lookup_delete_ne.
    + intros j q k Hj. apply lookup_delete_Some in Hj as [_ Hj]. right. split; [done|]. intros ->.
      pose proof (inv_held _ _ _ I _ _ _ Hj). congruence.
  - unfold item_ok. cbn. rewrite lb_item_set_eq. cbn. rewrite (count_eq_delete _ _ _ Hi).
    repeat split; try done; try lia. intros n Hn Hc. destruct (H5 n Hn Hc) as (j & Hj & Hv).
    assert (i <> j) by (intros <-; rewrite Hu in Hv; injection Hv; lia).
    exists j. by rewrite !lookup_delete_ne.
  - apply (inv_spaced _ _ _ I).
Qed.

Lemma inv_tick per size s t :
  0 < per -> inv per size s -> clock s <= t -> inv per size (mkSys (strategy s) t (sleeping s) (until s) (log s)).
Proof.
  intros Hper I Ht. split; cbn; try apply I.
  - pose proof (inv_clock _ _ _ I). lia.
  - intros k p Hp. destruct (inv_item _ _ _ I _ _ Hp) as (H1 & H2 & H3 & H4 & H5).
    repeat split; try done. intros n Hn Hc. apply H5; [done|cbn in Hc; lia].
  - intros k u Hk Hu. pose proof (inv_gone _ _ _ I _ _ Hk Hu). lia.
Qed.

(** ** The janitor *)

Lemma every_per b :
  sweepEvery b = 0 -> 0 < PerRequest b -> PerRequest b + Second <= max_i64 -> PerRequest b <= every b.
Proof.
  intros E H1 H2. unfold every. rewrite E. cbn -[i64 Z.add Minute Second].
  unfold max_i64, Second, Millisecond in *. rewrite i64_small by lia.
  unfold Minute, Second, Millisecond. case_match; bool_prop; lia.
Qed.

Lemma cleanup_spec t b :
  exists m, m = filter (fun kv => ~ (Count (item kv.2 b) <= 0 /\ Last (item kv.2 b) < t - every b))
                       (default ∅ (storage b))
  /\ (forall k, stored k (cleanup_turn t b) = m !! k) /\ heap (cleanup_turn t b) = heap b
  /\ fresh (cleanup_turn t b) = fresh b
  /\ PerRequest (cleanup_turn t b) = PerRequest b /\ Size (cleanup_turn t b) = Size b
  /\ sweepEvery (cleanup_turn t b) = sweepEvery b
  /\ (if decide (m = ∅) then cleanupRunning (cleanup_turn t b) = false /\ janitors (cleanup_turn t b) = janitors b - 1
      else cleanupRunning (cleanup_turn t b) = cleanupRunning b /\ janitors (cleanup_turn t b) = janitors b).
Proof.
  eexists; split; [done|]. set (m := filter _ _).
  unfold cleanup_turn, evictStale. fold m.
  assert ((0 <? size m)%nat = bool_decide (m <> ∅)) as ->.
  { case_bool_decide as H; [apply Nat.ltb_lt|apply Nat.ltb_ge].
    - apply map_size_non_empty_iff in H. lia.
    - rewrite H, map_size_empty. lia. }
  repeat split.
  - intros k. unfold stored. cbn. destruct (storage b) as [m0|] eqn:E; cbn; [done|].
    unfold m. cbn. rewrite map_filter_empty. done.
  - case_decide as H; [rewrite bool_decide_false by (intros H'; done)|rewrite bool_decide_true by done]; done.
Qed.

Lemma inv_sweep_turn per size s t :
  0 < per -> per + Second <= max_i64 -> inv per size s -> t <= clock s -> 0 < janitors (strategy s) ->
  inv per size (mkSys (cleanup_turn t (strategy s)) (clock s) (sleeping s) (until s) (log s)).
Proof.
  intros Hper Hmax I Ht Hj.
  destruct (cleanup_spec t (strategy s)) as (m & Em & Hst & Hh & Hf & Ep & Es & Esw & Hrun).
  pose proof (every_per (strategy s) (inv_sweep _ _ _ I)) as Hev. rewrite (inv_per _ _ _ I) in Hev.
  specialize (Hev Hper Hmax).
  assert (forall k p, m !! k = Some p -> stored k (strategy s) = Some p) as Hsub.
  { intros k p. rewrite Em. intros H. by apply map_lookup_filter_Some in H as [H _]. }
  pose proof (inv_janitors _ _ _ I) as HJ.
  assert (cleanupRunning (strategy s) = true) as Hr by (destruct (cleanupRunning (strategy s)); [done|cbn in *; lia]).
  split; cbn [strategy clock sleeping until log].
  - rewrite Ep. apply I.
  - rewrite Es. apply I.
  - rewrite Esw. apply I.
  - apply I.
  - intros k p Hk. rewrite Hst in Hk. case_decide as Hm; [by rewrite Hm, lookup_empty in Hk|].
    destruct Hrun as [-> _]. done.
  - rewrite Hr in *. cbn in HJ. case_decide; destruct Hrun as [-> ->]; rewrite ?Hr, HJ; done.
  - intros k p Hk. rewrite Hst in Hk. rewrite Hf. by eapply (inv_fresh _ _ _ I), Hsub.
  - intros k k' p H1 H2. rewrite Hst in H1, H2. eapply (inv_inj _ _ _ I); by apply Hsub.
  - intros k p Hk. rewrite Hst in Hk. apply Hsub in Hk. pose proof (inv_item _ _ _ I _ _ Hk) as H'.
    assert (item p (cleanup_turn t (strategy s)) = item p (strategy s)) as Ei by (unfold item; by rewrite Hh).
    unfold item_ok in *. cbn [strategy clock sleeping until log]. rewrite Ei. exact H'.
  - intros k u Hk Hu. rewrite Hst in Hk. destruct (stored k (strategy s)) as [p|] eqn:E.
    + pose proof (inv_item _ _ _ I _ _ E) as (_ & _ & _ & H4 & _).
      rewrite Em in Hk. apply map_lookup_filter_None in Hk as [Hk|Hk]; [unfold stored in E; congruence|].
      specialize (Hk p E). cbn in Hk. apply dec_stable in Hk as [_ Hk].
      assert (u = Last (item p (strategy s))) by congruence. lia.
    + by eapply (inv_gone _ _ _ I).
  - apply I.
  - intros i p k Hi. rewrite Hst. pose proof (inv_held _ _ _ I _ _ _ Hi) as Hk.
    pose proof (inv_item _ _ _ I _ _ Hk) as (H1 & _). pose proof (count_eq_pos _ _ _ Hi).
    rewrite Em. apply map_lookup_filter_Some. split; [done|]. cbn. lia.
Qed.

Lemma inv_start per size t : 0 <= t -> inv per size (mkSys (LeakyBucket per size) t ∅ ∅ []).
Proof. intros Ht. split; try done; intros *; unfold stored; cbn; by rewrite lookup_empty. Qed.

(** The configurations the theorems are about. *)
Definition config_ok (per size : Z) : Prop :=
  0 < per /\ per + Second <= max_i64 /\ per * (Z.max 0 size + 1) <= max_i64.

Lemma reachable_ok per size s : config_ok per size -> reachable per size s -> inv per size s.
Proof.
  intros (Hper & Hs & Hm') (t & Ht & H). assert (per * Z.max 0 size <= max_i64) as Hm by nia.
  apply (rtc_ind_r (inv per size)) in H; [done|by apply inv_start|].
  intros a b _ Hst IH. assert (size <= max_i64) by nia. destruct Hst.
  - by apply inv_tick.
  - by apply inv_now.
  - by eapply inv_full.
  - by apply inv_sleep.
  - by eapply inv_wake.
  - by apply inv_sweep_turn.
Qed.

(** Under every interleaving of requests, sleeps, wake-ups and sweeps, any two
    consecutive admissions of a key are at least PerRequest apart: eviction never
    forgets an admission that still matters. *)
Theorem lb_spaced per size s key :
  config_ok per size -> reachable per size s -> spaced per (times key (log s)).
Proof. intros Hc H. apply reachable_ok in H as I; [|done]. apply (inv_spaced _ _ _ I). Qed.

(** At most Size requests of a key sleep, all on the one item the map holds, and
    a request that has to wait sleeps at most Size times PerRequest. *)
Theorem lb_queue_bounded per size s key :
  config_ok per size -> reachable per size s ->
  (exists p, (forall i q, sleeping s !! i = Some (q, key) -> q = p)
             /\ count_eq (p, key) (sleeping s) <= Z.max 0 size)
  /\ (forall p d b, take_enter (clock s) key (strategy s) = TakeSleep p d b -> 0 < d <= per * size).
Proof.
  intros Hc H. pose proof Hc as (Hper & Hs & Hm'). assert (per * Z.max 0 size <= max_i64) as Hm by nia.
  apply reachable_ok in H as I; [|done]. split.
  - destruct (stored key (strategy s)) as [p|] eqn:E.
    + pose proof (inv_item _ _ _ I _ _ E) as (H1 & H2 & _). exists p. split; [|lia].
      intros i q Hi. pose proof (inv_held _ _ _ I _ _ _ Hi). congruence.
    + assert (forall i q, sleeping s !! i <> Some (q, key)) as Hno.
      { intros i q Hi. pose proof (inv_held _ _ _ I _ _ _ Hi). congruence. }
      exists 0%nat. split; [intros i q Hi; by apply Hno in Hi|].
      rewrite count_eq_zero; [lia|]. intros j g Hg ->. by apply Hno in Hg.
  - intros p d b HT. by destruct (take_sleep_spec _ _ _ _ _ _ _ Hper Hm I HT) as (b0 & _ & _ & _ & _ & _ & Hd & _).
Qed.

(** There is exactly one cleanup goroutine while cleanupRunning is set and none
    otherwise, and while the map holds any key one is running. *)
Theorem lb_one_janitor per size s :
  config_ok per size -> reachable per size s ->
  janitors (strategy s) = Z.b2z (cleanupRunning (strategy s))
  /\ (default ∅ (storage (strategy s)) <> ∅ -> janitors (strategy s) = 1).
Proof.
  intros Hc H. apply reachable_ok in H as I; [|done]. pose proof (inv_janitors _ _ _ I) as HJ.
  split; [done|]. intros Hne. apply map_choose in Hne as (k & p & Hk).
  by rewrite HJ, (inv_running _ _ _ I k p Hk).
Qed.

(** A second [Take] in the same state finds the map and the janitor as they are. *)
Lemma ensure_idem key b p b0 : ensure key b = (p, b0) -> ensure key b0 = (p, b0).
Proof.
  unfold ensure. destruct (default ∅ (storage b) !! key) as [q|] eqn:E; intros [= <- <-]; cbn.
  - by rewrite E.
  - by rewrite lookup_insert_eq.
Qed.

Lemma take_full_spec per size s key b :
  config_ok per size -> inv per size s -> take_enter (clock s) key (strategy s) = TakeFull b ->
  exists p, ensure key b = (p, b) /\ PerRequest b = per /\ Size b = size /\ 0 <= Last (item p b)
  /\ size <= Count (item p b)
  /\ clock s < Last (item p b) + per <= clock s + per * (Z.max 0 size + 1).
Proof.
  intros (Hper & _ & Hm) I. unfold take_enter. destruct (ensure key (strategy s)) as [p b0] eqn:E.
  destruct (ensure_item _ _ _ _ _ _ I E) as (Ep & Es & Hit).
  destruct Hit as [(H1 & Hi & Hok)|(H1 & Hi & H2)]; [|by rewrite Hi].
  pose proof (backlog _ _ _ _ _ Hper Hok) as Hb. rewrite <- Hi in Hb.
  destruct Hok as (_ & H2 & H3 & _). rewrite <- Hi in H2, H3. rewrite Ep, Es, time_sub_pos.
  destruct (Last _ =? _); [done|]. destruct (_ - _ <=? 0) eqn:E1; [done|].
  destruct (size <=? _) eqn:E2; [|done]. intros [= <-]. bool_prop.
  exists p. repeat split; try done; try lia; [by eapply ensure_idem|nia].
Qed.

(** After a Take rejected by a full queue, After returns the exact wait: it is
    positive and at most (Size+1) times PerRequest, a Take then is admitted at once,
    and every earlier one is rejected. *)
Theorem lb_after_exact per size s key b :
  config_ok per size -> reachable per size s -> take_enter (clock s) key (strategy s) = TakeFull b ->
  0 < After (clock s) key b <= per * (Z.max 0 size + 1)
  /\ (exists b', take_enter (clock s + After (clock s) key b) key b = TakeOk b')
  /\ forall t, 0 <= t < After (clock s) key b -> take_enter (clock s + t) key b = TakeFull b.
Proof.
  intros Hc H HT. apply reachable_ok in H as I; [|done].
  destruct (take_full_spec _ _ _ _ _ Hc I HT) as (p & E & Ep & Es & HL & Hn & Hlt).
  destruct Hc as (Hper & _ & Hm).
  assert (After (clock s) key b = Last (item p b) + per - clock s) as ->.
  { apply lb_ensure_spec in E as (_ & _ & _ & Hst & _). specialize (Hst key).
    rewrite decide_True in Hst by done. unfold stored in Hst. unfold After.
    destruct (storage b) as [m|]; cbn in Hst; [|by rewrite lookup_empty in Hst].
    rewrite Hst, Ep, (proj2 (Z.ltb_ge _ _)) by lia. apply time_sub_small. lia. }
  assert ((Last (item p b) =? zero_time) = false) as Ez
    by (apply Z.eqb_neq; unfold zero_time, Second, Millisecond; lia).
  split; [lia|]. split.
  - unfold take_enter. rewrite E, Ez, Ep, time_sub_pos, (proj2 (Z.leb_le _ 0)) by lia. eauto.
  - intros t Ht. unfold take_enter.
    rewrite E, Ez, Ep, Es, time_sub_pos, (proj2 (Z.leb_gt _ 0)) by lia.
    by rewrite (proj2 (Z.leb_le size _)) by lia.
Qed.

(** ** Witnesses: two requests of one key at the same instant, queue of one *)

Definition demo_per : Z := Second.

Definition demo_b (last count : Z) : LeakyBucketStrategy :=
  mk (Some {["k" := 0%nat]}) {[0%nat := mkItem last count]} 1 true 1 0 demo_per 1.

Definition demo : system :=
  mkSys (demo_b (5 + Second) 1) 5 {[0%nat := (0%nat, "k")]} {[0%nat := 5 + Second]}
        [("k", 5 + Second); ("k", 5)].

Lemma demo_config : config_ok demo_per 1.
Proof. repeat split; vm_compute; congruence. Qed.

Lemma lb_demo_reachable : reachable demo_per 1 demo.
Proof.
  exists 5. split; [lia|].
  eapply rtc_l; [apply (step_now "k"); vm_compute; reflexivity|].
  eapply rtc_l; [eapply (step_sleep 0 "k"); vm_compute; reflexivity|].
  apply rtc_refl.
Qed.

Lemma lb_spaced_witness : spaced demo_per [5 + Second; 5].
Proof. apply (lb_spaced demo_per 1 demo "k"); [apply demo_config|apply lb_demo_reachable]. Defined.

Lemma lb_queue_bounded_witness :
  exists p, (forall i q, sleeping demo !! i = Some (q, "k") -> q = p)
            /\ count_eq (p, "k") (sleeping demo) <= 1.
Proof. exact (proj1 (lb_queue_bounded demo_per 1 demo "k" demo_config lb_demo_reachable)). Defined.

Lemma lb_one_janitor_witness : janitors (strategy demo) = 1.
Proof. exact (proj1 (lb_one_janitor demo_per 1 demo demo_config lb_demo_reachable)). Defined.

Lemma lb_after_exact_witness : 0 < After 5 "k" (demo_b (5 + Second) 1) <= demo_per * 2.
Proof.
  refine (proj1 (lb_after_exact demo_per 1 demo "k" _ demo_config lb_demo_reachable _)).
  vm_compute. reflexivity.
Defined.
End LeakyBucketFacts.
