(* ===== verification/SlidingWindow.v ===== *)
(** * pkg/ratelimit: the sliding-window strategy

    [src/pkg/ratelimit/slidingwindow.go].  Counters and window indices are int64;
    the weighted count is computed in IEEE binary64, as the code does, with the
    Standard Library's executable specification of floats.  Nothing here holds an
    item outside the mutex, so the map holds item values. *)

From S2P Require Import Prelude GoFloat Http RateLimit.

Module SlidingWindow.

Record slidingItem := mkItem { window : Z; curr : Z; prev : Z }.

Record SlidingWindowStrategy := mk {
  storage : option (gmap string slidingItem);
  cleanupRunning : bool;
  janitors : Z;
  sweepEvery : Z;
  Max : Z;
  Size : Z;
}.

Definition SlidingWindow (rate unit : Z) : SlidingWindowStrategy := mk None false 0 0 rate unit.
Definition SlidingWindowPerSecond (rate : Z) : SlidingWindowStrategy := SlidingWindow rate Second.
Definition SlidingWindowPerMinute (rate : Z) : SlidingWindowStrategy := SlidingWindow rate Minute.
Definition SlidingWindowPerHour (rate : Z) : SlidingWindowStrategy := SlidingWindow rate Hour.

Definition size_ (b : SlidingWindowStrategy) : Z := if Size b <=? 0 then Second else Size b.

Definition roll (currentWindow : Z) (t : slidingItem) : slidingItem :=
  let d := i64 (currentWindow - window t) in
  let '(c, p) :=
    if d <=? 0 then (curr t, prev t)
    else if d =? 1 then (0, curr t)
    else (0, 0) in
  mkItem currentWindow c p.

Definition weightedCount (prev curr now size : Z) : spec_float :=
  let elapsed := f_div (float64 (Z.rem now size)) (float64 size) in
  f_add (f_mul (float64 prev) (f_sub (float64 1) elapsed)) (float64 curr).

(** The admission test of [Take]. *)
Definition over (mx prev curr now size : Z) : bool :=
  f_lt (float64 mx) (f_add (weightedCount prev curr now size) (float64 1)).

Definition Take (now : Z) (key : string) (b : SlidingWindowStrategy)
    : SlidingWindowStrategy * option bool :=
  let size := size_ b in
  let currentWindow := Z.quot now size in
  let m := default ∅ (storage b) in
  let t := roll currentWindow (default (mkItem currentWindow 0 0) (m !! key)) in
  let n := if cleanupRunning b then janitors b else janitors b + 1 in
  let st t := mk (Some (<[key := t]> m)) true n (sweepEvery b) (Max b) (Size b) in
  if over (Max b) (prev t) (curr t) now size then (st t, Some false)
  else (st (mkItem (window t) (i64 (curr t + 1)) (prev t)), Some true).

Definition Put (_ : string) (b : SlidingWindowStrategy) : SlidingWindowStrategy := b.

Definition afterAt (maxTokens prev curr size now : Z) : Z :=
  if f_le (f_add (weightedCount prev curr now size) (float64 1)) (float64 maxTokens) then 0
  else
    let curFrac := f_div (float64 (Z.rem now size)) (float64 size) in
    let toBoundary := i64 (i64 (i64 (Z.quot now size + 1) * size) - now) in
    let targetFrac :=
      f_sub (float64 1)
        (f_div (f_sub (f_sub (float64 maxTokens) (float64 curr)) (float64 1)) (float64 prev)) in
    if (0 <? prev) && (i64 (curr + 1) <=? maxTokens)
       && (f_lt curFrac targetFrac && f_lt targetFrac (float64 1))
    then i64 (f_trunc (f_mul (f_sub targetFrac curFrac) (float64 size)) + 1)
    else if i64 (curr + 1) <=? maxTokens then toBoundary
    else if maxTokens <=? 0 then toBoundary
    else
      let nextFrac := f_sub (float64 1) (f_div (f_sub (float64 maxTokens) (float64 1)) (float64 curr)) in
      i64 (i64 (toBoundary + f_trunc (f_mul nextFrac (float64 size))) + 1).

Definition After (now : Z) (key : string) (b : SlidingWindowStrategy) : option Z :=
  let size := size_ b in
  let currentWindow := Z.quot now size in
  match default ∅ (storage b) !! key with
  | None => Some 0
  | Some t =>
      let t' := roll currentWindow t in
      Some (afterAt (Max b) (prev t') (curr t') size now)
  end.

Definition every (b : SlidingWindowStrategy) : Z :=
  if sweepEvery b <=? 0 then
    let e := i64 (2 * size_ b) in
    if e <? Minute then Minute else e
  else sweepEvery b.

Definition evictStale (now : Z) (b : SlidingWindowStrategy) : SlidingWindowStrategy * bool :=
  let deleteBefore := i64 (Z.quot now (size_ b) - 1) in
  let m := filter (fun kv => ~ (window kv.2 < deleteBefore)) (default ∅ (storage b)) in
  let s := match storage b with None => None | Some _ => Some m end in
  let running := if (0 <? size m)%nat then cleanupRunning b else false in
  (mk s running (janitors b) (sweepEvery b) (Max b) (Size b), negb (0 <? size m)%nat).

(** One turn of [cleanupLoop]. *)
Definition cleanup_turn (now : Z) (b : SlidingWindowStrategy) : SlidingWindowStrategy :=
  let '(b, stopped) := evictStale now b in
  mk (storage b) (cleanupRunning b) (if stopped then janitors b - 1 else janitors b)
     (sweepEvery b) (Max b) (Size b).

#[export] Instance sliding_window : Strategy SlidingWindowStrategy :=
  {| RateLimit.Take := Take; RateLimit.Put := Put; RateLimit.After := After |}.
End SlidingWindow.

Module SlidingWindowFacts.
Import SlidingWindow.

(** ** Specification: counts of the admissions made *)

(** Admissions of [key] in window [w], among [h]. *)
Definition admitted (size : Z) (key : string) (w : Z) (h : list (Z * string)) : Z :=
  foldr (fun r n => n + Z.b2z ((Z.quot r.1 size =? w) && bool_decide (r.2 = key))) 0 h.
#[global] Arguments admitted : simpl never.

(** Arrivals at the clock's time, and sweeps that read it a while before they get
    the mutex. *)
Inductive event := Arrive (now : Z) (key : string) | Sweep (read : Z).

Fixpoint decisions (mx size : Z) (h : list (Z * string)) (evs : list event) : list (option bool) :=
  match evs with
  | [] => []
  | Sweep _ :: evs => decisions mx size h evs
  | Arrive now key :: evs =>
      let w := Z.quot now size in
      let ok := negb (over mx (admitted size key (w - 1) h) (admitted size key w h) now size) in
      Some ok :: decisions mx size (if ok then (now, key) :: h else h) evs
  end.

Fixpoint run (evs : list event) (b : SlidingWindowStrategy) : list (option bool) :=
  match evs with
  | [] => []
  | Sweep read :: evs => run evs (cleanup_turn read b)
  | Arrive now key :: evs => let '(b, r) := Take now key b in r :: run evs b
  end.

(** Arrivals never go back from [t]; a sweep's reading is at most the clock. *)
Fixpoint clock_from (t : Z) (evs : list event) : Prop :=
  match evs with
  | [] => True
  | Arrive now _ :: evs => t <= now <= max_i64 /\ clock_from now evs
  | Sweep read :: evs => 0 <= read <= t /\ clock_from t evs
  end.

Lemma admitted_cons size key w r h :
  admitted size key w (r :: h)
  = admitted size key w h + Z.b2z ((Z.quot r.1 size =? w) && bool_decide (r.2 = key)).
Proof. done. Qed.

Lemma admitted_bounds size key w h : 0 <= admitted size key w h <= Z.of_nat (length h).
Proof.
  induction h as [|r h IH]; [done|]. rewrite admitted_cons. cbn [length].
  destruct (_ && _); cbn; lia.
Qed.

(** The item (or its absence) that stands for the admissions [h] when the current
    window is [W]. *)
Definition represents (size W : Z) (key : string) (h : list (Z * string)) (o : option slidingItem)
    : Prop :=
  match o with
  | None => forall w, W - 1 <= w -> admitted size key w h = 0
  | Some t => 0 <= window t <= W /\ curr t = admitted size key (window t) h
      /\ prev t = admitted size key (window t - 1) h
      /\ forall w, window t < w -> admitted size key w h = 0
  end.

Lemma represents_later size W W' key h o :
  W <= W' -> represents size W key h o -> represents size W' key h o.
Proof.
  intros HW. destruct o as [t|]; cbn.
  - intros (H1 & H). split; [lia|done].
  - intros H w Hw. apply H. lia.
Qed.

Lemma represents_future size W key h o v :
  represents size W key h o -> W < v -> admitted size key v h = 0.
Proof.
  destruct o as [t|]; cbn; [intros (Ht & _ & _ & H) Hv|intros H Hv]; apply H; lia.
Qed.

(** Rolled to the current window, both counters are the two windows' counts. *)
Lemma represents_roll size W key h o :
  0 <= W <= max_i64 -> represents size W key h o ->
  roll W (default (mkItem W 0 0) o) = mkItem W (admitted size key W h) (admitted size key (W - 1) h).
Proof.
  intros HW. unfold max_i64 in *. destruct o as [[w0 c p]|]; cbn [default represents].
  - cbn. intros ((H1 & H2) & -> & -> & H). unfold roll. cbn. rewrite i64_small by lia.
    destruct (Z.leb_spec (W - w0) 0); [by replace w0 with W by lia|].
    destruct (Z.eqb_spec (W - w0) 1).
    + rewrite (H W) by lia. by replace (W - 1) with w0 by lia.
    + by rewrite (H W), (H (W - 1)) by lia.
  - intros H. unfold roll. cbn. rewrite Z.sub_diag. cbn. by rewrite (H W), (H (W - 1)) by lia.
Qed.

Lemma represents_evict size W W' key h t :
  W' <= W -> window t < W' - 1 -> represents size W key h (Some t) -> represents size W key h None.
Proof. intros HW Ht (_ & _ & _ & H) w Hw. apply H. lia. Qed.

(** The state after the admissions [h] at clock [t]. *)
Definition state_after (mx sz t : Z) (h : list (Z * string)) (b : SlidingWindowStrategy) : Prop :=
  Max b = mx /\ size_ b = sz
  /\ forall key, represents sz (Z.quot t sz) key h (default ∅ (storage b) !! key).

Lemma quot_range t sz : 0 < sz -> 0 <= t <= max_i64 -> 0 <= Z.quot t sz <= max_i64.
Proof.
  intros Hs Ht. rewrite Z.quot_div_nonneg by lia. split; [apply Z.div_pos; lia|].
  apply Z.div_le_upper_bound; nia.
Qed.

Lemma sw_take_step mx sz t now key h b :
  0 < sz -> 0 <= t -> t <= now <= max_i64 -> Z.of_nat (length h) < max_i64 -> state_after mx sz t h b ->
  let w := Z.quot now sz in
  let ok := negb (over mx (admitted sz key (w - 1) h) (admitted sz key w h) now sz) in
  exists b', Take now key b = (b', Some ok) /\ state_after mx sz now (if ok then (now, key) :: h else h) b'.
Proof.
  intros Hs Ht Hnow Hlen (Hm & Hsz & Hrep) w ok.
  assert (0 <= w <= max_i64) as Hw by (apply quot_range; lia).
  assert (forall k, represents sz w k h (default ∅ (storage b) !! k)) as Hrep'.
  { intros k. eapply represents_later, Hrep. apply Z.quot_le_mono; lia. }
  unfold Take. rewrite Hsz, Hm. fold w. rewrite (represents_roll sz w key h) by done.
  cbn [window curr prev]. unfold ok. destruct (over _ _ _ _ _); cbn [negb].
  - eexists. split; [done|]. split; [done|]. split; [done|]. intros k. cbn. fold w.
    destruct (decide (key = k)) as [<-|]; [rewrite lookup_insert_eq|by rewrite lookup_insert_ne].
    cbn. split; [lia|]. split; [done|]. split; [done|]. intros v Hv.
    by apply (represents_future _ w _ _ _ _ (Hrep' key)).
  - eexists. split; [done|]. split; [done|]. split; [done|]. intros k. cbn. fold w.
    pose proof (admitted_bounds sz key w h). unfold max_i64 in *. rewrite i64_small by lia.
    assert (forall v, v <> w -> admitted sz key v ((now, key) :: h) = admitted sz key v h) as Hother.
    { intros v Hv. rewrite admitted_cons. cbn [fst snd]. fold w.
      rewrite (proj2 (Z.eqb_neq w v)) by lia. cbn. lia. }
    destruct (decide (key = k)) as [<-|Hne]; [rewrite lookup_insert_eq|rewrite lookup_insert_ne by done].
    + cbn. rewrite (Hother (w - 1)) by lia. split; [lia|]. split.
      { rewrite admitted_cons. cbn [fst snd]. fold w. rewrite Z.eqb_refl, bool_decide_true by done. done. }
      split; [done|]. intros v Hv. rewrite Hother by lia. by apply (represents_future _ w _ _ _ _ (Hrep' key)).
    + assert (forall v, admitted sz k v ((now, key) :: h) = admitted sz k v h) as Hk.
      { intros v. rewrite admitted_cons. cbn [fst snd]. rewrite bool_decide_false by done.
        rewrite andb_false_r. cbn. lia. }
      specialize (Hrep' k). destruct (default ∅ (storage b) !! k) as [it|]; cbn -[admitted] in *.
      * by setoid_rewrite Hk.
      * by setoid_rewrite Hk.
Qed.

Lemma sweep_step mx sz t read h b :
  0 < sz -> 0 <= read <= t -> t <= max_i64 -> state_after mx sz t h b ->
  state_after mx sz t h (cleanup_turn read b).
Proof.
  intros Hs Hr Ht (Hm & Hsz & Hrep). split; [done|]. split; [done|]. intros key.
  assert (0 <= Z.quot read sz <= max_i64) by (apply quot_range; lia).
  assert (Z.quot read sz <= Z.quot t sz) by (apply Z.quot_le_mono; lia).
  specialize (Hrep key). unfold cleanup_turn, evictStale. cbn. rewrite Hsz.
  unfold max_i64 in *. rewrite i64_small by lia.
  destruct (storage b) as [m|]; cbn in *; [|done].
  destruct (filter _ m !! key) as [it|] eqn:E.
  - apply map_lookup_filter_Some in E as [E _]. by rewrite E in Hrep.
  - apply map_lookup_filter_None in E as [E|E]; [by rewrite E in Hrep|].
    destruct (m !! key) as [it|] eqn:Em; [|done]. specialize (E it eq_refl). cbn in E.
    apply dec_stable in E. by apply (represents_evict sz _ (Z.quot read sz) key h it).
Qed.

Lemma sw_run_decisions mx sz t h evs b :
  0 < sz -> 0 <= t <= max_i64 -> Z.of_nat (length h + length evs) <= max_i64 ->
  state_after mx sz t h b -> clock_from t evs -> run evs b = decisions mx sz h evs.
Proof.
  intros Hs. revert t h b. induction evs as [|[now key|read] evs IH]; intros t h b Ht Hlen Hb Hc; [done|..].
  - destruct Hc as [Hn Hc]. cbn in Hlen.
    destruct (sw_take_step mx sz t now key h b) as (b' & E & Hb'); [lia..|done|].
    cbn. rewrite E. f_equal. eapply (IH now); [lia| |done|done].
    case_match; cbn; lia.
  - destruct Hc as [Hr Hc]. cbn in *. apply (IH t); [done|lia|apply sweep_step; [done|done|lia|done]|done].
Qed.

(** On a clock that does not go back, with sweeps at any moments, every run of
    Take decides each request by the weighted count of the admissions made in its
    window and in the one before: rolling loses nothing and eviction is invisible. *)
Theorem sw_refines_counts mx sz evs :
  0 < sz -> Z.of_nat (length evs) <= max_i64 -> clock_from 0 evs ->
  run evs (SlidingWindow mx sz) = decisions mx sz [] evs.
Proof.
  intros Hs Hl Hc. apply (sw_run_decisions mx sz 0); [done|unfold max_i64; lia|done| |done].
  split; [done|]. split.
  - unfold size_. cbn. by rewrite (proj2 (Z.leb_gt _ _)) by lia.
  - intros key. cbn. rewrite lookup_empty. cbn. done.
Qed.

(** Two arrivals of four fill the first window; early in the next one the previous
    count still blocks, late it does not; the idle key is swept away between. *)
Definition demo_events : list event :=
  [Arrive 100 "a"; Arrive 110 "a"; Arrive 120 "a"; Arrive 205 "a"; Sweep 205; Arrive 290 "a"; Arrive 300 "b";
   Sweep 300; Arrive 500 "a"].

Lemma sw_refines_counts_witness :
  run demo_events (SlidingWindow 2 100)
  = [Some true; Some true; Some false; Some false; Some true; Some true; Some true].
Proof.
  rewrite (sw_refines_counts 2 100); [vm_compute; reflexivity|lia|vm_compute; discriminate|].
  cbn. unfold max_i64. lia.
Defined.
End SlidingWindowFacts.
