(* ===== verification/Lru.v ===== *)
(** * pkg/cache: the byte-bounded LRU index

    [src/pkg/cache/lru.go].  The [container/list] is a list of elements with
    identities (the pointers), most recently used first; [items] maps a key to its
    element's identity.  Every operation runs under the index's own mutex. *)

From S2P Require Import Prelude.

Module Lru.

Record element := mkEl { eid : nat; ekey : string; esize : Z }.

Record lru := mk {
  ll : list element;
  items : gmap string nat;
  lmax : Z;
  cur : Z;
  next : nat;
}.

Definition newLRU (max : Z) : lru := mk [] ∅ max 0 0.

(** container/list's [Remove], [MoveToFront] and the element behind a pointer. *)
Definition list_remove (p : nat) (l : list element) : list element := filter (fun e => eid e <> p) l.
Definition elem (p : nat) (l : list element) : option element := head (filter (fun e => eid e = p) l).
Definition to_front (p : nat) (l : list element) : list element :=
  match elem p l with Some e => e :: list_remove p l | None => l end.
Definition set_size (p : nat) (size : Z) (l : list element) : list element :=
  (fun e => if decide (eid e = p) then mkEl (eid e) (ekey e) size else e) <$> l.

Definition size_of (p : nat) (l : list element) : Z := match elem p l with Some e => esize e | None => 0 end.

(** The removal three of the operations share. *)
Definition drop (key : string) (p : nat) (l : lru) : lru :=
  mk (list_remove p (ll l)) (delete key (items l)) (lmax l) (i64 (cur l - size_of p (ll l))) (next l).

(** The eviction loop, on the list from its back. *)
Fixpoint evict (back : list element) (items : gmap string nat) (cur max : Z) (evicted : list string)
    : list element * gmap string nat * Z * list string :=
  if cur <=? max then (back, items, cur, evicted)
  else
    match back with
    | [] => ([], items, cur, evicted)
    | it :: back => evict back (delete (ekey it) items) (i64 (cur - esize it)) max (evicted ++ [ekey it])
    end.

Definition admit_new (key : string) (size : Z) (l : lru) : lru :=
  match items l !! key with
  | Some p =>
      let c := i64 (cur l + i64 (size - size_of p (ll l))) in
      mk (to_front p (set_size p size (ll l))) (items l) (lmax l) c (next l)
  | None =>
      mk (mkEl (next l) key size :: ll l) (<[key := next l]> (items l)) (lmax l) (i64 (cur l + size))
         (S (next l))
  end.

Definition lru_admit (key : string) (size : Z) (l : lru) : lru * list string :=
  if lmax l <? size then
    (match items l !! key with Some p => drop key p l | None => l end, [key])
  else
    let l := admit_new key size l in
    let '(back, its, c, evicted) := evict (reverse (ll l)) (items l) (cur l) (lmax l) [] in
    (mk (reverse back) its (lmax l) c (next l), evicted).

Definition touch (key : string) (l : lru) : lru :=
  match items l !! key with
  | Some p => mk (to_front p (ll l)) (items l) (lmax l) (cur l) (next l)
  | None => l
  end.

Definition remove (key : string) (l : lru) : lru :=
  match items l !! key with Some p => drop key p l | None => l end.

Definition lru_size (l : lru) : Z := cur l.
End Lru.

Module LruFacts.
Import Lru.

(** ** Specification: a list of keys and sizes, most recent first *)

Definition without (key : string) (e : list (string * Z)) : list (string * Z) := filter (fun kv => kv.1 <> key) e.

Definition total (e : list (string * Z)) : Z := foldr (fun kv n => kv.2 + n) 0 e.
#[global] Arguments total : simpl never.

(** The longest prefix that fits, and the rest from the back. *)
Fixpoint fit (max : Z) (back : list (string * Z)) : list (string * Z) * list string :=
  match back with
  | [] => ([], [])
  | (k, z) :: rest =>
      if total back <=? max then (back, [])
      else let '(kept, victims) := fit max rest in (kept, k :: victims)
  end.

Definition spec_admit (max : Z) (key : string) (size : Z) (e : list (string * Z)) : list (string * Z) * list string :=
  if max <? size then (without key e, [key])
  else
    let '(kept, victims) := fit max (reverse ((key, size) :: without key e)) in
    (reverse kept, victims).

Definition spec_touch (key : string) (e : list (string * Z)) : list (string * Z) :=
  match head (filter (fun kv => kv.1 = key) e) with
  | Some kv => kv :: without key e
  | None => e
  end.

(** What the index stands for. *)
Definition ent (e : element) : string * Z := (ekey e, esize e).
Definition abs (l : lru) : list (string * Z) := ent <$> ll l.

(** Well-formed, with [B] a bound on the bytes. *)
Record wf (B : Z) (l : lru) : Prop := {
  wf_keys : NoDup (ekey <$> ll l);
  wf_ids : NoDup (eid <$> ll l);
  wf_fresh : Forall (fun e => (eid e < next l)%nat) (ll l);
  wf_items k p : items l !! k = Some p <-> exists e, e ∈ ll l /\ ekey e = k /\ eid e = p;
  wf_cur : cur l = total (abs l);
  wf_bound : total (abs l) <= B;
  wf_sizes : Forall (fun e => 0 <= esize e) (ll l);
}.

Lemma total_cons k z e : total ((k, z) :: e) = z + total e.
Proof. done. Qed.

Lemma total_app a b : total (a ++ b) = total a + total b.
Proof. induction a as [|[k z] a IH]; cbn; [done|]. rewrite !total_cons. lia. Qed.

Lemma total_reverse a : total (reverse a) = total a.
Proof.
  induction a as [|[k z] a IH]; [done|]. rewrite reverse_cons, total_app, IH, !total_cons. unfold total at 2. cbn. lia.
Qed.

Lemma total_nonneg l : Forall (fun e => 0 <= esize e) l -> 0 <= total (ent <$> l).
Proof. induction 1; [done|]. rewrite fmap_cons. unfold ent at 1. rewrite total_cons. lia. Qed.

(** The element of a key, and the list split around it. *)
Lemma wf_lookup B l key p :
  wf B l -> items l !! key = Some p ->
  exists l1 e l2, ll l = l1 ++ e :: l2 /\ ekey e = key /\ eid e = p
  /\ Forall (fun e' => eid e' <> p /\ ekey e' <> key) (l1 ++ l2).
Proof.
  intros W Hi. apply (wf_items _ _ W) in Hi as (e & He & Hk & Hp).
  apply list_elem_of_split in He as (l1 & l2 & E). exists l1, e, l2. repeat split; try done.
  pose proof (wf_keys _ _ W) as NK. pose proof (wf_ids _ _ W) as NI.
  rewrite E, fmap_app, fmap_cons in NK. rewrite E, fmap_app, fmap_cons in NI.
  apply NoDup_app in NK as (_ & NK1 & NK2), NI as (_ & NI1 & NI2).
  apply NoDup_cons in NK2 as [NK2 _], NI2 as [NI2 _].
  apply Forall_forall. intros e' [He'|He']%elem_of_app; split; intros X; subst.
  - apply (NI1 (eid e')); [by apply list_elem_of_fmap_2|]. rewrite X. left.
  - apply (NK1 (ekey e')); [by apply list_elem_of_fmap_2|]. rewrite X. left.
  - apply NI2. rewrite <- X. by apply list_elem_of_fmap_2.
  - apply NK2. rewrite <- X. by apply list_elem_of_fmap_2.
Qed.

Lemma filter_all {A} (P : A -> Prop) `{!forall x, Decision (P x)} (l : list A) :
  Forall P l -> filter P l = l.
Proof. induction 1; [done|]. rewrite filter_cons_True by done. by f_equal. Qed.

Lemma filter_none {A} (P : A -> Prop) `{!forall x, Decision (P x)} (l : list A) :
  Forall (fun x => ~ P x) l -> filter P l = [].
Proof. induction 1; [done|]. by rewrite filter_cons_False. Qed.

Section Split.
Context (l1 l2 : list element) (e : element) (key : string) (p : nat).
Hypothesis Hkey : ekey e = key.
Hypothesis Hid : eid e = p.
Hypothesis Hne : Forall (fun e' => eid e' <> p /\ ekey e' <> key) (l1 ++ l2).

Lemma split_remove : list_remove p (l1 ++ e :: l2) = l1 ++ l2.
Proof.
  unfold list_remove. rewrite filter_app, filter_cons_False by tauto. rewrite <- filter_app.
  apply filter_all. eapply Forall_impl; [exact Hne|]. cbn. tauto.
Qed.

Lemma split_elem : elem p (l1 ++ e :: l2) = Some e.
Proof.
  unfold elem. rewrite filter_app, filter_cons_True by done.
  apply Forall_app in Hne as [H1 _]. rewrite filter_none; [done|].
  eapply Forall_impl; [exact H1|]. cbn. tauto.
Qed.

Lemma split_front : to_front p (l1 ++ e :: l2) = e :: l1 ++ l2.
Proof. unfold to_front. by rewrite split_elem, split_remove. Qed.

Lemma split_without : without key (ent <$> (l1 ++ e :: l2)) = ent <$> (l1 ++ l2).
Proof.
  unfold without. rewrite fmap_app, fmap_cons, filter_app, filter_cons_False by (cbn; tauto).
  rewrite <- filter_app, <- fmap_app. apply filter_all, Forall_fmap.
  eapply Forall_impl; [exact Hne|]. cbn. tauto.
Qed.

Lemma split_set_size z :
  set_size p z (l1 ++ e :: l2) = l1 ++ mkEl p key z :: l2.
Proof.
  assert (forall l, Forall (fun e' => eid e' <> p /\ ekey e' <> key) l -> set_size p z l = l) as H.
  { unfold set_size. induction 1 as [|x l [Hx _] _ IH]; [done|].
    rewrite fmap_cons, IH, decide_False by done. done. }
  apply Forall_app in Hne as [H1 H2]. unfold set_size in *.
  rewrite fmap_app, fmap_cons, (H l1 H1), (H l2 H2), decide_True by done. by rewrite Hkey, Hid.
Qed.
End Split.

Lemma total_perm a b : a ≡ₚ b -> total a = total b.
Proof.
  induction 1 as [|[k z] a b _ IH|[k z] [k' z'] a|a b c _ IH1 _ IH2]; rewrite ?total_cons in *; try lia; done.
Qed.

(** Up to the order of its list an index is determined by its elements. *)
Lemma wf_reorder B l l' :
  wf B l -> ll l' ≡ₚ ll l -> items l' = items l -> cur l' = cur l -> next l' = next l -> wf B l'.
Proof.
  intros W Hp Hi Hc Hn. assert (total (abs l') = total (abs l)) as Ht by (apply total_perm; unfold abs; by rewrite Hp).
  split.
  - rewrite Hp. apply W.
  - rewrite Hp. apply W.
  - rewrite Hp, Hn. apply W.
  - intros k p. rewrite Hi, (wf_items _ _ W). by setoid_rewrite Hp.
  - rewrite Hc, Ht. apply W.
  - rewrite Ht. apply W.
  - rewrite Hp. apply W.
Qed.

(** Taking an element out. *)
Lemma wf_out B l l' e rest :
  wf B l -> ll l ≡ₚ e :: rest -> ll l' = rest -> items l' = delete (ekey e) (items l) ->
  cur l' = cur l - esize e -> next l' = next l ->
  wf (B - esize e) l' /\ 0 <= esize e /\ Forall (fun e' => 0 <= esize e') rest.
Proof.
  intros W Hp Hll Hi Hc Hn.
  assert (total (abs l) = esize e + total (abs l')) as Ht.
  { unfold abs. rewrite (total_perm _ _ (fmap_Permutation ent _ _ Hp)), Hll. done. }
  pose proof (wf_sizes _ _ W) as Hs. rewrite Hp in Hs. apply Forall_cons in Hs as [Hs0 Hs].
  pose proof (wf_keys _ _ W) as NK. rewrite Hp, fmap_cons in NK. apply NoDup_cons in NK as [NK0 NK].
  pose proof (wf_ids _ _ W) as NI. rewrite Hp, fmap_cons in NI. apply NoDup_cons in NI as [NI0 NI].
  pose proof (wf_fresh _ _ W) as Hf. rewrite Hp in Hf. apply Forall_cons in Hf as [_ Hf].
  pose proof (wf_bound _ _ W). pose proof (wf_cur _ _ W).
  split; [|done]. split; rewrite ?Hll, ?Hn; try done; try lia.
  intros k p. rewrite Hi, lookup_delete_Some, (wf_items _ _ W). setoid_rewrite Hp.
  setoid_rewrite elem_of_cons. split.
  - intros [Hk (x & [->|Hx] & <- & <-)]; [done|]. eauto.
  - intros (x & Hx & <- & <-). split; [|eauto]. intros E. apply NK0. rewrite E. by apply list_elem_of_fmap_2.
Qed.

Lemma wf_in B l l' e :
  wf B l -> items l !! ekey e = None -> ll l' = e :: ll l -> items l' = <[ekey e := eid e]> (items l) ->
  cur l' = cur l + esize e -> next l' = S (next l) -> eid e = next l -> 0 <= esize e ->
  wf (B + esize e) l'.
Proof.
  intros W Hno Hll Hi Hc Hn He Hs.
  assert (total (abs l') = esize e + total (abs l)) as Ht by (unfold abs; by rewrite Hll).
  pose proof (wf_bound _ _ W). pose proof (wf_cur _ _ W). pose proof (wf_fresh _ _ W) as Hf.
  assert (ekey e ∉ ekey <$> ll l) as Hk.
  { intros (x & Hx & Hin)%list_elem_of_fmap.
    assert (items l !! ekey e = Some (eid x)) by (apply (wf_items _ _ W); eauto). congruence. }
  split; rewrite ?Hll, ?Hn, ?fmap_cons; try lia.
  - constructor; [done|apply W].
  - constructor; [|apply W]. intros (x & Hx & Hin)%list_elem_of_fmap.
    rewrite Forall_forall in Hf. specialize (Hf _ Hin). lia.
  - constructor; [lia|]. eapply Forall_impl; [exact Hf|]. cbn. lia.
  - intros k p. rewrite Hi. setoid_rewrite elem_of_cons. destruct (decide (k = ekey e)) as [->|Hne].
    + rewrite lookup_insert_eq. split; [intros [= <-]; eauto|].
      intros (x & [->|Hx] & E & <-); [done|]. destruct Hk. rewrite <- E. by apply list_elem_of_fmap_2.
    + rewrite lookup_insert_ne by done. rewrite (wf_items _ _ W). split.
      * intros (x & Hx & ?). eauto.
      * intros (x & [->|Hx] & E & ?); [congruence|]. eauto.
  - constructor; [done|apply W].
Qed.

(** A key the map does not have is not in the list. *)
Lemma absent B l key : wf B l -> items l !! key = None -> Forall (fun e => ekey e <> key) (ll l).
Proof.
  intros W Hi. apply Forall_forall. intros x Hx Hk.
  assert (items l !! key = Some (eid x)) by (apply (wf_items _ _ W); eauto). congruence.
Qed.

Lemma without_absent B l key : wf B l -> items l !! key = None -> without key (abs l) = abs l.
Proof. intros W Hi. apply filter_all, Forall_fmap. exact (absent _ _ _ W Hi). Qed.

(** ** The operations *)

Lemma drop_ok B l key p :
  wf B l -> 0 <= B <= max_i64 -> items l !! key = Some p ->
  wf B (drop key p l) /\ abs (drop key p l) = without key (abs l) /\ lmax (drop key p l) = lmax l.
Proof.
  intros W HB Hi. destruct (wf_lookup _ _ _ _ W Hi) as (l1 & e & l2 & E & Hk & Hp & Hne).
  assert (ll l ≡ₚ e :: l1 ++ l2) as HP by (rewrite E; symmetry; apply Permutation_middle).
  assert (ll (drop key p l) = l1 ++ l2) as Hll by (cbn; rewrite E; by eapply split_remove).
  assert (total (abs l) = esize e + total (ent <$> (l1 ++ l2))) as Ht.
  { unfold abs. by rewrite (total_perm _ _ (fmap_Permutation ent _ _ HP)). }
  pose proof (wf_sizes _ _ W) as Hs. rewrite HP in Hs. apply Forall_cons in Hs as [Hs0 Hs].
  pose proof (total_nonneg _ Hs). pose proof (wf_bound _ _ W). pose proof (wf_cur _ _ W).
  assert (cur (drop key p l) = cur l - esize e) as Hc.
  { cbn. unfold size_of. rewrite E, (split_elem l1 l2 e key p) by done.
    rewrite i64_small; [done|]. unfold max_i64 in *. lia. }
  destruct (wf_out B l (drop key p l) e (l1 ++ l2) W HP Hll) as [W' _]; [cbn; by rewrite Hk|done|done|].
  split; [|split; [|done]].
  - destruct W'. split; try done. lia.
  - unfold abs. rewrite Hll, E. symmetry. by apply (split_without l1 l2 e key p).
Qed.

Lemma admit_new_ok l key size :
  wf (lmax l) l -> 0 <= size <= lmax l -> lmax l < 2 ^ 62 ->
  wf (2 * lmax l) (admit_new key size l) /\ abs (admit_new key size l) = (key, size) :: without key (abs l)
  /\ lmax (admit_new key size l) = lmax l.
Proof.
  intros W Hs Hm. pose proof (wf_bound _ _ W) as Hb. pose proof (wf_cur _ _ W) as Hc.
  pose proof (total_nonneg _ (wf_sizes _ _ W)) as Hn. fold (abs l) in Hn.
  unfold admit_new. destruct (items l !! key) as [p|] eqn:Hi.
  - destruct (wf_lookup _ _ _ _ W Hi) as (l1 & e & l2 & E & Hk & Hp & Hne).
    assert (ll l ≡ₚ e :: l1 ++ l2) as HP by (rewrite E; symmetry; apply Permutation_middle).
    assert (Hsz : Forall (fun e => 0 <= esize e) (e :: l1 ++ l2)) by (rewrite <- HP; apply W).
    apply Forall_cons in Hsz as [Hs0 Hsz]. pose proof (total_nonneg _ Hsz) as Hn2.
    assert (total (abs l) = esize e + total (ent <$> (l1 ++ l2))) as Ht.
    { unfold abs. by rewrite (total_perm _ _ (fmap_Permutation ent _ _ HP)). }
    assert (to_front p (set_size p size (ll l)) = mkEl p key size :: l1 ++ l2) as Hf.
    { rewrite E, (split_set_size l1 l2 e key p) by done. by apply (split_front l1 l2 (mkEl p key size) key p). }
    unfold size_of. rewrite Hf. rewrite E, (split_elem l1 l2 e key p) by done. cbn.
    rewrite (i64_small (size - esize e)) by lia. rewrite i64_small by lia.
    assert (abs l = ent <$> (l1 ++ e :: l2)) as Ea by (unfold abs; by rewrite E).
    split; [|split; [|done]].
    + pose proof (wf_keys _ _ W) as NK. rewrite HP, fmap_cons, Hk in NK.
      pose proof (wf_ids _ _ W) as NI. rewrite HP, fmap_cons, Hp in NI.
      pose proof (wf_fresh _ _ W) as Hfr. rewrite HP in Hfr. apply Forall_cons in Hfr as [Hf0 Hfr].
      split; cbn; try done.
      * constructor; [by rewrite <- Hp|done].
      * intros k q. rewrite (wf_items _ _ W). setoid_rewrite HP. setoid_rewrite elem_of_cons. split.
        -- intros (x & [->|Hx] & <- & <-); [exists (mkEl p key size); auto|eauto].
        -- intros (x & [->|Hx] & <- & <-); [exists e; auto|eauto].
      * unfold abs. cbn. unfold ent at 1. rewrite total_cons. cbn. lia.
      * unfold abs. cbn. unfold ent at 1. rewrite total_cons. cbn. lia.
      * constructor; [cbn; lia|done].
    + rewrite Ea, (split_without l1 l2 e key p) by done. done.
  - rewrite (without_absent _ _ _ W Hi). rewrite i64_small by lia. split; [|done].
    assert (wf (lmax l + size) (mk (mkEl (next l) key size :: ll l) (<[key:=next l]> (items l)) (lmax l)
              (cur l + size) (S (next l)))) as W' by (apply (wf_in (lmax l) l _ (mkEl (next l) key size)); cbn; first [done|lia]).
    destruct W'. split; try done. lia.
Qed.

Lemma fit_nonempty max back :
  fit max back = if total back <=? max then (back, [])
                 else match back with
                      | [] => ([], [])
                      | (k, _) :: rest => let '(kept, victims) := fit max rest in (kept, k :: victims)
                      end.
Proof. destruct back as [|[k z] rest]; cbn; [by case_match|done]. Qed.

Lemma evict_ok B back its c max nxt ev :
  wf B (mk (reverse back) its max c nxt) -> 0 <= max -> B <= max_i64 ->
  exists back' its' c' victims,
    evict back its c max ev = (back', its', c', ev ++ victims)
    /\ wf max (mk (reverse back') its' max c' nxt) /\ fit max (ent <$> back) = (ent <$> back', victims).
Proof.
  revert B its c ev. induction back as [|it back IH]; intros B its c ev W Hmax HB;
    pose proof (wf_cur _ _ W) as Hc; cbn [cur] in Hc; unfold abs in Hc; cbn [ll] in Hc;
    rewrite fmap_reverse, total_reverse in Hc; rewrite fit_nonempty, <- Hc.
  - unfold total in Hc. cbn in Hc. subst c. cbn.
    rewrite (proj2 (Z.leb_le 0 max)) by lia. exists [], its, 0, []. rewrite app_nil_r. split; [done|].
    split; [|done]. destruct W. split; done.
  - cbn [evict]. destruct (Z.leb_spec c max) as [Hle|Hgt].
    { do 4 eexists. split; [by rewrite app_nil_r|]. split; [|done]. destruct W. split; try done.
      cbn in *. lia. }
    assert (reverse (it :: back) ≡ₚ it :: reverse back) as HP
      by (rewrite reverse_cons; symmetry; apply Permutation_cons_append).
    pose proof (wf_bound _ _ W) as Hb. pose proof (wf_cur _ _ W) as Hcur. cbn [cur] in Hcur.
    assert (Hs : Forall (fun e => 0 <= esize e) (it :: reverse back)) by (rewrite <- HP; apply W).
    apply Forall_cons in Hs as [Hs0 Hs]. pose proof (total_nonneg _ Hs) as Hn.
    rewrite fmap_cons in Hc. unfold ent in Hc at 1. rewrite total_cons in Hc.
    rewrite fmap_reverse, total_reverse in Hn. unfold max_i64 in *.
    rewrite i64_small by lia.
    destruct (wf_out B _ (mk (reverse back) (delete (ekey it) its) max (c - esize it) nxt) it (reverse back) W HP)
      as [W' _]; [done..|].
    destruct (IH (B - esize it) _ _ (ev ++ [ekey it]) W') as (back' & its' & c' & v & -> & W2 & Hf); [done|lia|].
    exists back', its', c', (ekey it :: v). split; [by rewrite <- app_assoc|]. split; [done|].
    rewrite fmap_cons. cbn -[fit]. by rewrite Hf.
Qed.

Lemma admit_ok l key size :
  wf (lmax l) l -> 0 <= size -> 0 <= lmax l < 2 ^ 62 ->
  let '(l', victims) := lru_admit key size l in
  wf (lmax l) l' /\ lmax l' = lmax l /\ spec_admit (lmax l) key size (abs l) = (abs l', victims).
Proof.
  intros W Hs Hm. unfold lru_admit, spec_admit. destruct (Z.ltb_spec (lmax l) size) as [Hlt|Hge].
  - destruct (items l !! key) as [p|] eqn:Hi.
    + destruct (drop_ok _ _ _ _ W ltac:(unfold max_i64; lia) Hi) as (W' & -> & E). by rewrite E in *.
    + by rewrite (without_absent _ _ _ W Hi).
  - destruct (admit_new_ok l key size W) as (W' & Ha & Hm'); [lia..|].
    set (l1 := admit_new key size l) in *.
    destruct (evict_ok (2 * lmax l) (reverse (ll l1)) (items l1) (cur l1) (lmax l1) (next l1) [])
      as (back' & its' & c' & v & -> & W2 & Hf).
    { rewrite reverse_involutive. by destruct l1. }
    { lia. }
    { unfold max_i64. lia. }
    rewrite Hm' in *. cbn [fst snd]. split; [done|]. split; [done|].
    rewrite <- Ha. unfold abs at 1. rewrite <- fmap_reverse, Hf. cbn. unfold abs. cbn.
    by rewrite fmap_reverse.
Qed.

Lemma touch_ok B l key : wf B l -> wf B (touch key l) /\ abs (touch key l) = spec_touch key (abs l).
Proof.
  intros W. unfold touch, spec_touch. destruct (items l !! key) as [p|] eqn:Hi.
  - destruct (wf_lookup _ _ _ _ W Hi) as (l1 & e & l2 & E & Hk & Hp & Hne).
    assert (to_front p (ll l) = e :: l1 ++ l2) as Hf by (rewrite E; by apply (split_front l1 l2 e key p)).
    split.
    + apply (wf_reorder B l); cbn; try done. rewrite Hf, E. apply Permutation_middle.
    + assert (head (filter (fun kv => kv.1 = key) (ent <$> (l1 ++ e :: l2))) = Some (ent e)) as Hh.
      { rewrite fmap_app, fmap_cons, filter_app, filter_cons_True by done.
        apply Forall_app in Hne as [Hne _]. rewrite filter_none; [done|].
        apply Forall_fmap. eapply Forall_impl; [exact Hne|]. cbn. tauto. }
      unfold abs. cbn [ll]. rewrite Hf, E, Hh, (split_without l1 l2 e key p) by done. done.
  - split; [done|]. rewrite filter_none; [done|].
    unfold abs. apply Forall_fmap. exact (absent _ _ _ W Hi).
Qed.

Lemma remove_ok l key :
  wf (lmax l) l -> 0 <= lmax l < 2 ^ 62 ->
  wf (lmax l) (remove key l) /\ lmax (remove key l) = lmax l /\ abs (remove key l) = without key (abs l).
Proof.
  intros W Hm. unfold remove. destruct (items l !! key) as [p|] eqn:Hi.
  - destruct (drop_ok _ _ _ _ W ltac:(unfold max_i64; lia) Hi) as (W' & Ha & E). by rewrite E in *.
  - by rewrite (without_absent _ _ _ W Hi).
Qed.

(** ** Runs of the index *)

Inductive op := OAdmit (key : string) (size : Z) | OTouch (key : string) | ORemove (key : string).

Definition do_op (o : op) (l : lru) : lru * list string :=
  match o with
  | OAdmit key size => lru_admit key size l
  | OTouch key => (touch key l, [])
  | ORemove key => (remove key l, [])
  end.

Definition spec_op (max : Z) (o : op) (e : list (string * Z)) : list (string * Z) * list string :=
  match o with
  | OAdmit key size => spec_admit max key size e
  | OTouch key => (spec_touch key e, [])
  | ORemove key => (without key e, [])
  end.

(** All the victims of a run, and what is left at its end. *)
Fixpoint runs {A B : Type} (f : op -> A -> A * list B) (ops : list op) (a : A) : A * list (list B) :=
  match ops with
  | [] => (a, [])
  | o :: ops => let '(a, v) := f o a in let '(a, vs) := runs f ops a in (a, v :: vs)
  end.

Definition sizes_ok (ops : list op) : Prop :=
  Forall (fun o => match o with OAdmit _ size => 0 <= size | _ => True end) ops.

Lemma op_ok o l :
  wf (lmax l) l -> 0 <= lmax l < 2 ^ 62 -> (match o with OAdmit _ size => 0 <= size | _ => True end) ->
  let '(l', v) := do_op o l in
  wf (lmax l) l' /\ lmax l' = lmax l /\ spec_op (lmax l) o (abs l) = (abs l', v).
Proof.
  intros W Hm Ho. destruct o as [key size|key|key]; cbn.
  - by apply admit_ok.
  - destruct (touch_ok _ _ key W) as [W' E]. rewrite E. repeat split; try done; try apply W'.
    unfold touch. by case_match.
  - destruct (remove_ok _ key W Hm) as (W' & E1 & E2). by rewrite E2.
Qed.

Lemma newLRU_wf max : 0 <= max -> wf max (newLRU max).
Proof.
  intros H. split; cbn; try done; try constructor.
  - rewrite lookup_empty. done.
  - intros (e & He & _). by apply not_elem_of_nil in He.
Qed.

Lemma runs_ok ops l :
  wf (lmax l) l -> 0 <= lmax l < 2 ^ 62 -> sizes_ok ops ->
  let '(l', vs) := runs do_op ops l in
  wf (lmax l) l' /\ lmax l' = lmax l /\ runs (spec_op (lmax l)) ops (abs l) = (abs l', vs).
Proof.
  intros W Hm Hs. revert l W Hm. induction Hs as [|o ops Ho _ IH]; intros l W Hm; [done|].
  cbn. pose proof (op_ok o l W Hm Ho) as H. destruct (do_op o l) as [l1 v]. destruct H as (W1 & E1 & ->).
  rewrite <- E1 in *. specialize (IH l1 W1 Hm). destruct (runs do_op ops l1) as [l2 vs].
  destruct IH as (W2 & E2 & ->). done.
Qed.

(** Any run of admit, touch and remove on the index is a run of the LRU
    specification (refuse what can never fit, move to front, evict the least recent
    until the rest fits), returns the same victims, and keeps the byte count exact and
    within the cap. *)
Theorem lru_refines max ops :
  0 <= max < 2 ^ 62 -> sizes_ok ops ->
  let '(l, vs) := runs do_op ops (newLRU max) in
  runs (spec_op max) ops [] = (abs l, vs)
  /\ lru_size l = total (abs l) /\ lru_size l <= max /\ NoDup (abs l).*1
  /\ forall key, is_Some (items l !! key) <-> key ∈ (abs l).*1.
Proof.
  intros Hm Hs. pose proof (runs_ok ops (newLRU max) (newLRU_wf max ltac:(lia)) Hm Hs) as H.
  destruct (runs do_op ops (newLRU max)) as [l vs]. destruct H as (W & _ & E).
  assert ((abs l).*1 = ekey <$> ll l) as Ek by (unfold abs; by rewrite <- list_fmap_compose).
  pose proof (wf_bound _ _ W). pose proof (wf_cur _ _ W) as Hc. unfold lru_size. cbn in H.
  split; [exact E|]. split; [done|]. split; [lia|]. split; [rewrite Ek; apply W|].
  intros key. rewrite Ek, list_elem_of_fmap. split.
  - intros [p Hp]. apply (wf_items _ _ W) in Hp as (e & He & <- & _). eauto.
  - intros (e & -> & He). exists (eid e). apply (wf_items _ _ W). eauto.
Qed.

(** What the specification's eviction does: it keeps the longest recent part that
    fits and returns the rest, least recent first. *)
Lemma fit_spec max back :
  0 <= max ->
  exists out, back = out ++ (fit max back).1 /\ (fit max back).2 = out.*1
  /\ total (fit max back).1 <= max
  /\ forall out' kv, out = out' ++ [kv] -> max < total (kv :: (fit max back).1).
Proof.
  intros Hm. induction back as [|[k z] back IH]; cbn.
  - exists []. repeat split; try done. intros out' kv E. by destruct out'.
  - destruct (Z.leb_spec (total ((k, z) :: back)) max) as [Hle|Hgt].
    + exists []. repeat split; try done. intros out' kv E. by destruct out'.
    + destruct IH as (out & E & Hv & Ht & Hmin). destruct (fit max back) as [kept v]. cbn in *.
      exists ((k, z) :: out). rewrite E at 1. repeat split; [by rewrite Hv|done|].
      intros out' kv Ekv. destruct out' as [|x out'].
      * injection Ekv as <- ->. cbn in E. by rewrite E in Hgt.
      * injection Ekv as _ Ekv. by eapply Hmin.
Qed.

Definition demo_ops : list op :=
  [OAdmit "a" 4; OAdmit "b" 4; OTouch "a"; OAdmit "c" 4; ORemove "a"; OAdmit "d" 11; OAdmit "e" 6].

Lemma lru_refines_witness :
  (runs do_op demo_ops (newLRU 10)).2 = [[]; []; []; ["b"]; []; ["d"]; []]
  /\ runs (spec_op 10) demo_ops [] = ([("e", 6); ("c", 4)], [[]; []; []; ["b"]; []; ["d"]; []]).
Proof.
  split; [vm_compute; reflexivity|].
  exact (proj1 (lru_refines 10 demo_ops ltac:(lia) ltac:(repeat constructor; lia))).
Defined.
End LruFacts.
