(* ===== verification/Memory.v ===== *)
(** * pkg/cache: stored entries and the in-memory backend

    [src/pkg/cache/storage.go] (the metadata) and [memory.go].  The map and the LRU
    index have a mutex each, so every operation is a program of several atomic
    actions ([Concurrency]): run alone it is a step of an LRU cache, which the
    refinement theorem states; interleaved with another operation on the same key
    it is not, and the last theorem gives the interleaving. *)

From S2P Require Import Prelude Concurrency Lru.

Record Meta := mkMeta {
  Header : gmap string (list string);
  PrimaryHex : string;
  Host : string;
  URI : string;
  Vary : list string;
  Tags : list string;
  Created : Z;
  FreshUntil : Z;
  StaleWhileRevalidate : Z;
  StaleIfError : Z;
  Size : Z;
  Status : Z;
}.

Module Memory.
Import Lru.

Record memEntry := mkEntry { body : string; meta : Meta }.

Record MemoryStorage := mk {
  m : gmap string memEntry;
  index : lru;
}.

Definition NewMemory (maxSize : Z) : MemoryStorage := mk ∅ (newLRU maxSize).

Definition on_map (f : gmap string memEntry -> gmap string memEntry) (s : MemoryStorage) : MemoryStorage :=
  mk (f (m s)) (index s).
Definition on_lru (f : lru -> lru) (s : MemoryStorage) : MemoryStorage := mk (m s) (f (index s)).

Open Scope go_scope.

Definition Get (key : string) : prog MemoryStorage (option (Meta * string)) :=
  e <- load (fun s => m s !! key) ;;
  match e with
  | None => Ret None
  | Some e => store (on_lru (touch key)) ;; Ret (Some (meta e, body e))
  end.

Definition Delete (key : string) : prog MemoryStorage unit :=
  store (on_map (delete key)) ;; store (on_lru (remove key)).

(** A writer's own state. *)
Record memWriter := mkWriter { wkey : string; buf : string; wdone : bool }.

Definition Writer (key : string) : memWriter := mkWriter key "" false.
Definition Write (p : string) (w : memWriter) : memWriter :=
  mkWriter (wkey w) (String.append (buf w) p) (wdone w).

Fixpoint delete_victims (victims : list string) : prog MemoryStorage unit :=
  match victims with
  | [] => Ret tt
  | victim :: victims => store (on_map (delete victim)) ;; delete_victims victims
  end.

Definition Commit (mt : Meta) (w : memWriter) : prog MemoryStorage memWriter :=
  if wdone w then Ret w
  else
    let w := mkWriter (wkey w) (buf w) true in
    store (on_map (<[wkey w := mkEntry (buf w) mt]>)) ;;
    victims <- rmw (fun s => snd (lru_admit (wkey w) (Size mt) (index s)))
                   (on_lru (fun l => fst (lru_admit (wkey w) (Size mt) l))) ;;
    delete_victims victims ;;
    Ret w.

Definition AbortWriter (w : memWriter) : memWriter :=
  if wdone w then w else mkWriter (wkey w) "" true.

(** [Range]: a snapshot, then the callback on each pair until it says stop. *)
Fixpoint visit (fn : string -> Meta -> prog MemoryStorage bool) (snap : list (string * memEntry))
    : prog MemoryStorage unit :=
  match snap with
  | [] => Ret tt
  | (k, e) :: snap => more <- fn k (meta e) ;; if more : bool then visit fn snap else Ret tt
  end.

Definition Range (fn : string -> Meta -> prog MemoryStorage bool) : prog MemoryStorage unit :=
  snap <- load (fun s => map_to_list (m s)) ;; visit fn snap.
End Memory.

Module MemoryFacts.
Import Lru LruFacts Memory.

(** ** Specification: an LRU list of entries *)

Definition weights (c : list (string * memEntry)) : list (string * Z) := (fun ke => (ke.1, Size (meta ke.2))) <$> c.

Definition drop_key (key : string) (c : list (string * memEntry)) : list (string * memEntry) := filter (fun ke => ke.1 <> key) c.

Definition find_key (key : string) (c : list (string * memEntry)) : option memEntry :=
  snd <$> head (filter (fun ke => ke.1 = key) c).

Definition spec_get (key : string) (c : list (string * memEntry)) : list (string * memEntry) * option (Meta * string) :=
  match find_key key c with
  | None => (c, None)
  | Some e => ((key, e) :: drop_key key c, Some (meta e, body e))
  end.

Definition spec_commit (max : Z) (key : string) (e : memEntry) (c : list (string * memEntry)) : list (string * memEntry) :=
  let victims := snd (spec_admit max key (Size (meta e)) (weights c)) in
  filter (fun ke => ke.1 ∉ victims) ((key, e) :: drop_key key c).

Inductive op := OGet (key : string) | OCommit (key : string) (e : memEntry) | ODelete (key : string).

Definition spec_op (max : Z) (o : op) (c : list (string * memEntry)) : list (string * memEntry) * option (Meta * string) :=
  match o with
  | OGet key => spec_get key c
  | OCommit key e => (spec_commit max key e c, None)
  | ODelete key => (drop_key key c, None)
  end.

(** The program of each operation; a fill is a new writer, its body and [Commit]. *)
Definition prog_of (o : op) : prog MemoryStorage (option (Meta * string)) :=
  match o with
  | OGet key => Get key
  | OCommit key e => Commit (meta e) (Write (body e) (Writer key)) ;; Ret None
  | ODelete key => Delete key ;; Ret None
  end.

(** The storage stands for the list [c]. *)
Record repr (max : Z) (c : list (string * memEntry)) (s : MemoryStorage) : Prop := {
  repr_wf : wf max (index s);
  repr_max : lmax (index s) = max;
  repr_abs : abs (index s) = weights c;
  repr_map : m s = list_to_map c;
}.

(** ** The list and the map *)

Lemma weights_keys c : (weights c).*1 = c.*1.
Proof. unfold weights. by rewrite <- list_fmap_compose. Qed.

Lemma weights_drop key c : weights (drop_key key c) = without key (weights c).
Proof.
  unfold weights, drop_key, without. induction c as [|[k e] c IH]; [done|]. rewrite fmap_cons.
  destruct (decide (k = key)) as [->|Hne].
  - rewrite !filter_cons_False by (cbn; tauto). exact IH.
  - rewrite !filter_cons_True by done. rewrite fmap_cons. by f_equal.
Qed.

Lemma lookup_find key c : (list_to_map c : gmap string memEntry) !! key = find_key key c.
Proof.
  unfold find_key. induction c as [|[k e] c IH]; [done|].
  change (list_to_map ((k, e) :: c)) with (<[k := e]> (list_to_map c : gmap string memEntry)).
  destruct (decide (k = key)) as [->|Hne].
  - by rewrite lookup_insert_eq, filter_cons_True.
  - by rewrite lookup_insert_ne, filter_cons_False.
Qed.

Lemma map_drop key c : (list_to_map (drop_key key c) : gmap string memEntry) = delete key (list_to_map c).
Proof.
  unfold drop_key. induction c as [|[k e] c IH]; [done|].
  change (list_to_map ((k, e) :: c)) with (<[k := e]> (list_to_map c : gmap string memEntry)).
  destruct (decide (k = key)) as [->|Hne].
  - rewrite filter_cons_False by (cbn; tauto). by rewrite IH, delete_insert_eq.
  - rewrite filter_cons_True by done. cbn. by rewrite IH, delete_insert_ne.
Qed.

Lemma drop_key_absent key c : find_key key c = None -> drop_key key c = c.
Proof.
  unfold find_key, drop_key. induction c as [|[k e] c IH]; [done|].
  destruct (decide (k = key)) as [->|Hne].
  - by rewrite filter_cons_True.
  - rewrite filter_cons_False by done. intros H. rewrite filter_cons_True by done. f_equal. by apply IH.
Qed.

Lemma find_key_weights key c :
  head (filter (fun kz => kz.1 = key) (weights c)) = (fun e => (key, Size (meta e))) <$> find_key key c.
Proof.
  unfold find_key, weights. induction c as [|[k e] c IH]; [done|]. rewrite fmap_cons.
  destruct (decide (k = key)) as [->|Hne].
  - by rewrite !filter_cons_True.
  - by rewrite !filter_cons_False.
Qed.

(** Deleting the victims one by one. *)
Lemma run_delete_victims victims c l :
  run (delete_victims victims) (mk (list_to_map c) l)
  = (mk (list_to_map (filter (fun ke => ke.1 ∉ victims) c)) l, Some tt).
Proof.
  revert c. induction victims as [|v victims IH]; intros c; cbn.
  - do 3 f_equal. symmetry. apply filter_all, Forall_forall. intros x _. apply not_elem_of_nil.
  - unfold on_map. cbn. rewrite <- map_drop, IH. do 3 f_equal. unfold drop_key.
    induction c as [|ke c IHc]; [done|].
    destruct (decide (ke.1 = v)) as [E|E].
    + rewrite filter_cons_False by tauto. rewrite (filter_cons_False (fun ke => ke.1 ∉ v :: victims)); [done|].
      rewrite E. intros H. apply H. left.
    + rewrite filter_cons_True by done. destruct (decide (ke.1 ∈ victims)).
      * rewrite !filter_cons_False; [done|..]; rewrite ?elem_of_cons; tauto.
      * rewrite !filter_cons_True; rewrite ?elem_of_cons; [by f_equal|tauto..].
Qed.

(** ** One operation *)

Lemma get_ok max key c s :
  repr max c s ->
  exists s', run (Get key) s = (s', Some (spec_get key c).2) /\ repr max (spec_get key c).1 s'.
Proof.
  intros [W Hm Ha Hmap]. unfold Get, spec_get. cbn. rewrite Hmap, lookup_find.
  destruct (find_key key c) as [e|] eqn:E; cbn; [|by exists s].
  eexists; split; [done|]. destruct (touch_ok _ _ key W) as [W' Ea]. split; cbn; [done| | |].
  - unfold touch. by case_match.
  - rewrite Ea, Ha. unfold spec_touch. rewrite find_key_weights, E. cbn. by rewrite <- weights_drop.
  - rewrite Hmap, map_drop, insert_delete_eq. symmetry. apply insert_id. by rewrite lookup_find.
Qed.

Lemma delete_ok max key c s :
  0 <= max < 2 ^ 62 -> repr max c s ->
  exists s', run (Delete key) s = (s', Some tt) /\ repr max (drop_key key c) s'.
Proof.
  intros Hm [W Hmax Ha Hmap]. eexists; split; [done|]. rewrite <- Hmax in W, Hm.
  destruct (remove_ok _ key W Hm) as (W' & E1 & E2).
  split; cbn; [by rewrite <- Hmax|by rewrite E1|by rewrite E2, Ha, weights_drop|by rewrite map_drop, Hmap].
Qed.

(** The specification's victims are the keys it does not keep. *)
Lemma fit_filter max back :
  0 <= max -> NoDup back.*1 ->
  filter (fun kz => kz.1 ∉ (fit max back).2) back = (fit max back).1.
Proof.
  intros Hm Hd. destruct (fit_spec max back Hm) as (out & E & -> & _).
  set (kept := (fit max back).1) in *. rewrite E in *. rewrite fmap_app in Hd.
  apply NoDup_app in Hd as (_ & Hd & _). rewrite filter_app, filter_none, filter_all; [done|..].
  - apply Forall_forall. intros x Hx Hin. apply (Hd _ Hin). by apply list_elem_of_fmap_2.
  - apply Forall_forall. intros x Hx Hn. apply Hn. by apply list_elem_of_fmap_2.
Qed.

Lemma spec_admit_filter max key size e :
  0 <= max -> NoDup e.*1 ->
  (spec_admit max key size e).1
  = filter (fun kz => kz.1 ∉ (spec_admit max key size e).2) ((key, size) :: without key e).
Proof.
  intros Hm Hd. unfold spec_admit. destruct (max <? size); cbn [fst snd].
  - rewrite filter_cons_False by (intros H; apply H; left). symmetry. apply filter_all, Forall_forall.
    intros x Hx%list_elem_of_filter. rewrite list_elem_of_singleton. tauto.
  - set (l := (key, size) :: without key e).
    assert (NoDup (reverse l).*1) as Hl.
    { rewrite fmap_reverse, reverse_Permutation. unfold l. rewrite fmap_cons. apply NoDup_cons. split.
      - intros (x & E & Hx)%list_elem_of_fmap. apply list_elem_of_filter in Hx as [Hx _]. cbn in E. congruence.
      - by apply NoDup_fmap_filter. }
    pose proof (fit_filter max (reverse l) Hm Hl) as Hf.
    destruct (fit max (reverse l)) as [kept v]. cbn [fst snd] in *. rewrite <- Hf, filter_reverse, reverse_involutive. done.
Qed.

Lemma weights_filter (vs : list string) c :
  weights (filter (fun ke => ke.1 ∉ vs) c) = filter (fun kz => kz.1 ∉ vs) (weights c).
Proof.
  unfold weights. induction c as [|[k e] c IH]; [done|]. rewrite fmap_cons.
  destruct (decide (k ∈ vs)).
  - by rewrite !filter_cons_False by (cbn; tauto).
  - rewrite !filter_cons_True by done. rewrite fmap_cons. by f_equal.
Qed.

Lemma commit_ok max key e c s :
  0 <= max < 2 ^ 62 -> 0 <= Size (meta e) -> repr max c s ->
  exists s' w, run (Commit (meta e) (Write (body e) (Writer key))) s = (s', Some w)
  /\ repr max (spec_commit max key e c) s'.
Proof.
  intros Hm Hs [W Hmax Ha Hmap]. rewrite <- Hmax in *.
  pose proof (admit_ok (index s) key (Size (meta e)) W Hs Hm) as Hadm.
  assert (NoDup c.*1) as Hd.
  { rewrite <- weights_keys, <- Ha. unfold abs. rewrite <- list_fmap_compose. apply W. }
  assert (NoDup (weights c).*1) as Hdw by (by rewrite weights_keys).
  pose proof (spec_admit_filter (lmax (index s)) key (Size (meta e)) (weights c) ltac:(lia) Hdw) as Hf.
  unfold Commit. cbn [wdone Write Writer wkey buf]. cbn [bind store rmw run].
  unfold on_map, on_lru. cbn [m index].
  destruct (lru_admit key (Size (meta e)) (index s)) as [l' victims] eqn:El. cbn [fst snd].
  destruct Hadm as (W' & Hm' & Hspec). rewrite Ha in Hspec.
  assert (<[key := mkEntry (String.append "" (body e)) (meta e)]> (m s) = list_to_map ((key, e) :: drop_key key c)) as ->.
  { destruct e as [bd mt]. cbn. rewrite map_drop, insert_delete_eq, Hmap. done. }
  rewrite run_bind, run_delete_victims. do 2 eexists. split; [done|].
  unfold spec_commit. rewrite Hspec in *. cbn [snd fst] in *.
  split; cbn [m index]; [done|done| |done].
  rewrite Hf, weights_filter. unfold weights at 2. rewrite fmap_cons. fold (weights (drop_key key c)).
  by rewrite weights_drop.
Qed.

Fixpoint run_ops (ops : list op) (s : MemoryStorage) : MemoryStorage * list (option (option (Meta * string))) :=
  match ops with
  | [] => (s, [])
  | o :: ops => let '(s, r) := run (prog_of o) s in let '(s, rs) := run_ops ops s in (s, r :: rs)
  end.

Fixpoint spec_ops (max : Z) (ops : list op) (c : list (string * memEntry))
    : list (string * memEntry) * list (option (option (Meta * string))) :=
  match ops with
  | [] => (c, [])
  | o :: ops => let '(c, r) := spec_op max o c in let '(c, rs) := spec_ops max ops c in (c, Some r :: rs)
  end.

Definition sizes_ok (ops : list op) : Prop :=
  Forall (fun o => match o with OCommit _ e => 0 <= Size (meta e) | _ => True end) ops.

Lemma prog_ok max o c s :
  0 <= max < 2 ^ 62 -> (match o with OCommit _ e => 0 <= Size (meta e) | _ => True end) -> repr max c s ->
  exists s', run (prog_of o) s = (s', Some (spec_op max o c).2) /\ repr max (spec_op max o c).1 s'.
Proof.
  intros Hm Ho R. destruct o as [key|key e|key]; cbn [prog_of spec_op fst snd].
  - by apply get_ok.
  - destruct (commit_ok max key e c s Hm Ho R) as (s' & w & E & R'). rewrite run_bind, E. by exists s'.
  - destruct (delete_ok max key c s Hm R) as (s' & E & R'). rewrite run_bind, E. by exists s'.
Qed.

Lemma run_ops_ok max ops c s :
  0 <= max < 2 ^ 62 -> sizes_ok ops -> repr max c s ->
  exists s', run_ops ops s = (s', (spec_ops max ops c).2) /\ repr max (spec_ops max ops c).1 s'.
Proof.
  intros Hm Hs. revert c s. induction Hs as [|o ops Ho _ IH]; intros c s R; [by exists s|].
  destruct (prog_ok max o c s Hm Ho R) as (s1 & E1 & R1). cbn. rewrite E1.
  destruct (spec_op max o c) as [c1 r]. cbn in R1. destruct (IH c1 s1 R1) as (s2 & E2 & R2). rewrite E2.
  destruct (spec_ops max ops c1) as [c2 rs]. by exists s2.
Qed.

(** Body bytes held, by the entries' own accounting. *)
Definition stored_bytes (s : MemoryStorage) : Z :=
  total (weights (map_to_list (m s))).

(** C32: One operation at a time, the in-memory backend is an LRU cache: Get returns
    exactly the last committed entry of a key that was not evicted or deleted, the
    bytes held never exceed the cap, and the index's count is the bytes held. *)
Theorem mem_refines_lru max ops :
  0 <= max < 2 ^ 62 -> sizes_ok ops ->
  exists s, run_ops ops (NewMemory max) = (s, (spec_ops max ops []).2)
  /\ stored_bytes s <= max /\ lru_size (index s) = stored_bytes s
  /\ forall key, m s !! key = find_key key (spec_ops max ops []).1.
Proof.
  intros Hm Hs.
  assert (repr max [] (NewMemory max)) as R by (split; [apply newLRU_wf; lia|done..]).
  destruct (run_ops_ok max ops [] _ Hm Hs R) as (s & E & [W Hmax Ha Hmap]). exists s. split; [done|].
  set (c := (spec_ops max ops []).1) in *.
  assert (NoDup c.*1) as Hd.
  { rewrite <- weights_keys, <- Ha. unfold abs. rewrite <- list_fmap_compose. apply W. }
  assert (stored_bytes s = total (abs (index s))) as Hb.
  { rewrite Ha. unfold stored_bytes. apply total_perm. unfold weights. f_equiv.
    rewrite Hmap. by apply map_to_list_to_map. }
  pose proof (wf_bound _ _ W). pose proof (wf_cur _ _ W). unfold lru_size.
  split; [lia|]. split; [lia|]. intros key. by rewrite Hmap, lookup_find.
Qed.

(** ** A [Delete] that overlaps a fill of the same key *)

Definition demo_meta (size : Z) : Meta := mkMeta ∅ "" "" "" [] [] 0 0 0 0 size 200.
Definition demo_entry : memEntry := mkEntry "0123456789" (demo_meta 10).

Definition race (key : string) : list (prog MemoryStorage (option (Meta * string))) :=
  [prog_of (ODelete key); prog_of (OCommit key demo_entry)].

(** The [Delete] is overtaken by the whole [Commit] between its two locks. *)
Definition overtaken : list nat := [0; 1; 1; 0]%nat.

Definition after_race (key : string) (s : MemoryStorage) : MemoryStorage :=
  (exec overtaken (s, race key)).1.

(** A Delete whose two locked sections surround a Commit of the same key leaves
    the entry in the map and out of the index: two such races hold 20 bytes under a
    cap of 10, which no later eviction reclaims, and Get still serves them. *)
Theorem mem_race_exceeds_cap :
  let s := after_race "b" (after_race "a" (NewMemory 10)) in
  rtc (pstep (fun _ _ => False)) (NewMemory 10, race "a") (exec overtaken (NewMemory 10, race "a"))
  /\ stored_bytes s = 20 /\ lru_size (index s) = 0
  /\ (run (Get "a") s).2 = Some (Some (demo_meta 10, "0123456789")).
Proof.
  split; [apply exec_rtc|]. vm_compute. done.
Qed.

Lemma mem_refines_lru_witness :
  exists s, run_ops [OCommit "a" demo_entry; OGet "a"; OCommit "b" demo_entry; OGet "a"; OGet "b"] (NewMemory 10)
    = (s, [Some None; Some (Some (demo_meta 10, "0123456789")); Some None; Some None;
           Some (Some (demo_meta 10, "0123456789"))]).
Proof.
  destruct (mem_refines_lru 10 [OCommit "a" demo_entry; OGet "a"; OCommit "b" demo_entry; OGet "a"; OGet "b"])
    as (s & E & _); [lia|repeat constructor; cbn; lia|].
  exists s. rewrite E. vm_compute. reflexivity.
Defined.
End MemoryFacts.
