(* ===== verification/GoStrings.v ===== *)
(** * The parts of strings, strconv and http.Header the policies use

    Header values are byte strings; the functions are those of Go's [strings] and
    [strconv] on ASCII input (the Unicode cases of [TrimSpace], [ToLower] and
    [EqualFold] do not arise in a valid header value). *)

From Stdlib Require Import Ascii.
From S2P Require Import Prelude.

Definition lower_ascii (c : ascii) : ascii :=
  let n := N_of_ascii c in
  if ((65 <=? n) && (n <=? 90))%N then ascii_of_N (n + 32) else c.

Fixpoint ToLower (s : string) : string :=
  match s with
  | EmptyString => EmptyString
  | String c s => String (lower_ascii c) (ToLower s)
  end.

Definition EqualFold (a b : string) : bool := String.eqb (ToLower a) (ToLower b).

Definition is_space (c : ascii) : bool :=
  let n := N_of_ascii c in ((n =? 32) || ((9 <=? n) && (n <=? 13)))%N.

Fixpoint trim_left (p : ascii -> bool) (s : list ascii) : list ascii :=
  match s with
  | [] => []
  | c :: s' => if p c then trim_left p s' else s
  end.

(** [TrimFunc]. *)
Definition trim (p : ascii -> bool) (s : string) : string :=
  String.string_of_list_ascii (reverse (trim_left p (reverse (trim_left p (String.list_ascii_of_string s))))).

Definition TrimSpace (s : string) : string := trim is_space s.
(** [strings.Trim] of double quotes. *)
Definition TrimQuotes (s : string) : string := trim (fun c => Ascii.eqb c "034"%char) s.

(** [strings.Split] by one byte: always at least one piece. *)
Fixpoint Split (sep : ascii) (s : string) : list string :=
  match s with
  | EmptyString => [EmptyString]
  | String c s =>
      if Ascii.eqb c sep then EmptyString :: Split sep s
      else match Split sep s with
           | [] => [String c EmptyString]
           | p :: ps => String c p :: ps
           end
  end.

(** [strings.Cut] at one byte: before and after it, all of it and nothing if it
    does not occur. *)
Fixpoint Cut (sep : ascii) (s : string) : string * string :=
  match s with
  | EmptyString => (EmptyString, EmptyString)
  | String c s =>
      if Ascii.eqb c sep then (EmptyString, s)
      else let '(a, b) := Cut sep s in (String c a, b)
  end.

Fixpoint HasPrefix (p s : string) : bool :=
  match p, s with
  | EmptyString, _ => true
  | String a p, String b s => Ascii.eqb a b && HasPrefix p s
  | _, _ => false
  end.

(** [strings.TrimSuffix]. *)
Definition TrimSuffix (s suffix : string) : string :=
  let n := (String.length s - String.length suffix)%nat in
  if (String.length suffix <=? String.length s)%nat && String.eqb (String.substring n (String.length suffix) s) suffix
  then String.substring 0 n s else s.

(** [strconv.ParseInt(s, 10, 64)]: an optional sign, at least one digit, in range;
    [None] is an error. *)
Fixpoint parse_digits (acc : Z) (s : string) : option Z :=
  match s with
  | EmptyString => Some acc
  | String c s =>
      let n := Z.of_N (N_of_ascii c) in
      if (48 <=? n) && (n <=? 57) then parse_digits (acc * 10 + (n - 48)) s else None
  end.

Definition parse_unsigned (s : string) : option Z :=
  match s with EmptyString => None | _ => parse_digits 0 s end.

Definition ParseInt (s : string) : option Z :=
  let r :=
    match s with
    | String "-" s' => Z.opp <$> parse_unsigned s'
    | String "+" s' => parse_unsigned s'
    | _ => parse_unsigned s
    end in
  match r with
  | Some n => if (- 2 ^ 63 <=? n) && (n <=? max_i64) then Some n else None
  | None => None
  end.

(** [http.Header]: canonical names to values. *)
Definition header := gmap string (list string).
Definition Values (h : header) (k : string) : list string := default [] (h !! k).
Definition HGet (h : header) (k : string) : string := default "" (head (Values h k)).

(** The comma-separated pieces of every value of a header. *)
Definition pieces (h : header) (k : string) : list string := mbind (Split ","%char) (Values h k).

Lemma append_cons c a b : String c a +:+ b = String c (a +:+ b).
Proof. done. Qed.
Lemma append_assoc a b c : (a +:+ b) +:+ c = a +:+ (b +:+ c).
Proof. induction a as [|x a IH]; [done|]. exact (f_equal (String x) IH). Qed.
Lemma append_nil_r a : a +:+ "" = a.
Proof. induction a as [|x a IH]; [done|]. exact (f_equal (String x) IH). Qed.
Lemma append_length a b : String.length (a +:+ b) = (String.length a + String.length b)%nat.
Proof. induction a as [|x a IH]; [done|]. exact (f_equal S IH). Qed.

Lemma HasPrefix_app a b : HasPrefix a b = true <-> (exists t, b = a +:+ t).
Proof.
  revert b. induction a as [|c a IH]; intros b; cbn [HasPrefix].
  - split; [by exists b|done].
  - destruct b as [|d b]; [split; [done|by intros [t Ht]]|]. rewrite andb_true_iff, Ascii.eqb_eq, IH. split.
    + intros [<- [t ->]]. by exists t.
    + intros [t Ht]. rewrite append_cons in Ht. injection Ht as <- ->. split; [done|by exists t].
Qed.

Lemma substring_prefix a b : String.substring 0 (String.length a) (a +:+ b) = a.
Proof. induction a as [|c a IH]; [by destruct b|]. exact (f_equal (String c) IH). Qed.
Lemma substring_suffix a b : String.substring (String.length a) (String.length b) (a +:+ b) = b.
Proof.
  induction a as [|c a IH]; [|exact IH]. change (String.substring 0 (String.length b) b = b).
  induction b as [|d b IH]; [done|]. exact (f_equal (String d) IH).
Qed.

Lemma TrimSuffix_app a b : TrimSuffix (a +:+ b) b = a.
Proof.
  unfold TrimSuffix. rewrite append_length, Nat.add_sub, substring_suffix, substring_prefix, String.eqb_refl.
  by rewrite (proj2 (Nat.leb_le _ _)) by lia.
Qed.

Lemma parse_digits_nonneg acc s n : 0 <= acc -> parse_digits acc s = Some n -> 0 <= n.
Proof.
  revert acc. induction s as [|c s IH]; intros acc Ha; [by intros [= <-]|].
  cbn -[N_of_ascii Z.mul Z.add]. destruct (_ && _) eqn:E; [|done]. bool_prop. apply IH. lia.
Qed.

Lemma ParseInt_range s n : ParseInt s = Some n -> - 2 ^ 63 <= n <= max_i64.
Proof.
  unfold ParseInt. destruct (match s with String "-" s' => _ | String "+" s' => _ | _ => _ end) as [z|]; [|done].
  destruct (_ && _) eqn:E; [|done]. intros [= <-]. bool_prop. lia.
Qed.

Example ParseInt_ex1 : ParseInt "-120" = Some (-120) /\ ParseInt "9223372036854775808" = None
  /\ ParseInt "" = None /\ ParseInt "+7" = Some 7 /\ ParseInt "1x" = None.
Proof. vm_compute. done. Qed.

Example strings_ex : Split "," "a, B,," = ["a"; " B"; ""; ""] /\ TrimSpace " B	" = "B"
  /\ Cut "=" "max-age=60" = ("max-age", "60") /\ TrimQuotes (String "034" (String "x" (String "034" ""))) = "x".
Proof. vm_compute. done. Qed.
