(* ===== verification/GoNet.v ===== *)
(** * The parts of package net the components use

    Addresses and networks ([net.ParseIP], [net.ParseCIDR], [IPNet.Contains]) and
    [net.SplitHostPort], on byte strings.  An address is a list of 4 or 16 bytes. *)

From Stdlib Require Import Ascii.
From S2P Require Import Prelude GoStrings.

Definition bytes_of (s : string) : list Z := (fun c => Z.of_N (N_of_ascii c)) <$> String.list_ascii_of_string s.
Definition str_of (l : list Z) : string := String.string_of_list_ascii ((fun b => ascii_of_N (Z.to_N b)) <$> l).

Module NetIP.

(** A [net.IP] is a list of 4 or 16 bytes. *)
Definition v4mapped (a : list Z) : list Z := replicate 10 0 ++ [255; 255] ++ a.

(** A dotted-decimal field: one to three digits, no leading zero, at most 255. *)
Definition parse_octet (s : string) : option Z :=
  match s with
  | EmptyString => None
  | String c rest =>
      if Ascii.eqb c "0"%char && negb (String.eqb rest "") then None
      else if (3 <? String.length s)%nat then None
      else n ← parse_unsigned s; if n <=? 255 then Some n else None
  end.

Definition parseIPv4 (s : string) : option (list Z) :=
  match Split "."%char s with
  | [a; b; c; d] =>
      a ← parse_octet a; b ← parse_octet b; c ← parse_octet c; d ← parse_octet d;
      Some [a; b; c; d]
  | _ => None
  end.

Definition hex_digit (c : ascii) : option Z :=
  let n := Z.of_N (N_of_ascii c) in
  if (48 <=? n) && (n <=? 57) then Some (n - 48)
  else if (97 <=? n) && (n <=? 102) then Some (n - 97 + 10)
  else if (65 <=? n) && (n <=? 70) then Some (n - 65 + 10)
  else None.

(** A run of hex digits: its value, its length and the rest. *)
Fixpoint hex_run (acc : Z) (off : nat) (s : string) : Z * nat * string :=
  match s with
  | EmptyString => (acc, off, s)
  | String c rest =>
      match hex_digit c with
      | Some d => hex_run (acc * 16 + d) (S off) rest
      | None => (acc, off, s)
      end
  end.

(** The groups of an IPv6 address; [ip] has the bytes so far, [ell] where the
    ellipsis was.  [fuel] is the eight groups. *)
Fixpoint groups (fuel : nat) (s : string) (ip : list Z) (ell : option nat)
    : option (list Z * option nat * string) :=
  match fuel with
  | O => Some (ip, ell, s)
  | S fuel =>
      let '(acc, off, rest) := hex_run 0 0 s in
      if (off =? 0)%nat || (4 <? off)%nat then None
      else
        match rest with
        | String "." _ =>
            if (match ell with None => true | Some _ => false end) && negb (length ip =? 12)%nat then None
            else if (16 <? length ip + 4)%nat then None
            else q ← parseIPv4 s; Some (ip ++ q, ell, EmptyString)
        | _ =>
            let ip := ip ++ [acc / 256; acc mod 256] in
            match rest with
            | EmptyString => Some (ip, ell, EmptyString)
            | String ":" EmptyString => None
            | String ":" (String ":" rest') =>
                match ell with
                | Some _ => None
                | None =>
                    match rest' with
                    | EmptyString => Some (ip, Some (length ip), EmptyString)
                    | _ => groups fuel rest' ip (Some (length ip))
                    end
                end
            | String ":" rest' => groups fuel rest' ip ell
            | _ => None
            end
        end
  end.

Definition parseIPv6 (s : string) : option (list Z) :=
  match
    match s with
    | String ":" (String ":" EmptyString) => Some ([], Some 0%nat, EmptyString)
    | String ":" (String ":" s') => groups 8 s' [] (Some 0%nat)
    | _ => groups 8 s [] None
    end
  with
  | Some (ip, ell, EmptyString) =>
      if (length ip <? 16)%nat then
        e ← ell; Some (take e ip ++ replicate (16 - length ip) 0 ++ drop e ip)
      else match ell with None => Some ip | Some _ => None end
  | _ => None
  end.

(** The first separator decides; a zone is refused. *)
Fixpoint family (s : string) : option ascii :=
  match s with
  | EmptyString => None
  | String c s => if Ascii.eqb c "." || Ascii.eqb c ":" || Ascii.eqb c "%" then Some c else family s
  end.

Fixpoint has (c : ascii) (s : string) : bool :=
  match s with EmptyString => false | String d s => Ascii.eqb c d || has c s end.

Definition ParseIP (s : string) : option (list Z) :=
  if has "%"%char s then None
  else match family s with
       | Some "."%char => v4mapped <$> parseIPv4 s
       | Some ":"%char => parseIPv6 s
       | _ => None
       end.

(** [IP.To4]. *)
Definition To4 (ip : list Z) : option (list Z) :=
  if (length ip =? 4)%nat then Some ip
  else if (length ip =? 16)%nat && bool_decide (take 12 ip = replicate 10 0 ++ [255; 255])
  then Some (drop 12 ip) else None.

(** [net.IPNet]: the network number and the mask. *)
Record IPNet := mkNet { netip : list Z; mask : list Z }.

(** [IPNet.Contains]: a 16-byte mask of a 4-byte network is its last four bytes. *)
Definition Contains (n : IPNet) (ip : list Z) : bool :=
  let nn := default (netip n) (To4 (netip n)) in
  let m := if (length nn =? 4)%nat && (length (mask n) =? 16)%nat then drop 12 (mask n) else mask n in
  let ip := default ip (To4 ip) in
  (length ip =? length nn)%nat
  && forallb (fun '(a, b, k) => Z.land a k =? Z.land b k) (zip (zip nn ip) m).

(** One byte of [net.CIDRMask], with [k] bits left. *)
Definition mask_byte (k : Z) : Z :=
  if 8 <=? k then 255 else if k <=? 0 then 0 else 255 - Z.shiftr 255 k.

Definition CIDRMask (n : Z) (bytes : nat) : list Z :=
  (fun i => mask_byte (n - 8 * i)) <$> seqZ 0 (Z.of_nat bytes).

Definition and_bytes (a m : list Z) : list Z := zip_with Z.land a m.

(** [net.ParseCIDR]: an IPv4 address has 32 bits, any other 128. *)
Definition ParseCIDR (s : string) : option IPNet :=
  if negb (has "/"%char s) then None
  else
    let '(addr, bits) := Cut "/"%char s in
    match ParseIP addr, parse_unsigned bits with
    | Some ip, Some n =>
        let v4 := match family addr with Some "."%char => true | _ => false end in
        let size := if v4 then 4%nat else 16%nat in
        let ip := if v4 then drop 12 ip else ip in
        if 8 * Z.of_nat size <? n then None
        else Some (mkNet (and_bytes ip (CIDRMask n size)) (CIDRMask n size))
    | _, _ => None
    end.

Example ParseIP_ex :
  ParseIP "192.168.0.1" = Some (v4mapped [192; 168; 0; 1])
  /\ ParseIP "2001:db8::1" = Some ([32; 1; 13; 184] ++ replicate 11 0 ++ [1])
  /\ ParseIP "::ffff:1.2.3.4" = Some (v4mapped [1; 2; 3; 4])
  /\ ParseIP "::" = Some (replicate 16 0) /\ ParseIP "1.2.3" = None /\ ParseIP "01.2.3.4" = None
  /\ ParseIP "fe80::1%eth0" = None /\ ParseIP "1::2::3" = None /\ ParseIP "1:2:3:4:5:6:7:8:9" = None
  /\ ParseIP "1:2:3:4:5:6:7::8" = None.
Proof. vm_compute. repeat split. Qed.
End NetIP.

(** ** net.SplitHostPort *)

Fixpoint IndexByte (c : ascii) (s : list ascii) : option nat :=
  match s with
  | [] => None
  | d :: s => if Ascii.eqb c d then Some 0%nat else S <$> IndexByte c s
  end.

Fixpoint LastIndexByte (c : ascii) (s : list ascii) : option nat :=
  match s with
  | [] => None
  | d :: s => match LastIndexByte c s with
              | Some i => Some (S i)
              | None => if Ascii.eqb c d then Some 0%nat else None
              end
  end.

Definition chars : string -> list ascii := String.list_ascii_of_string.
Definition text : list ascii -> string := String.string_of_list_ascii.

Lemma chars_text h : chars (text h) = h.
Proof. apply String.list_ascii_of_string_of_list_ascii. Qed.
Lemma text_chars s : text (chars s) = s.
Proof. apply String.string_of_list_ascii_of_string. Qed.
Lemma chars_inj x y : chars x = chars y -> x = y.
Proof. intros H. rewrite <- (text_chars x), <- (text_chars y). by rewrite H. Qed.
Lemma chars_app x y : chars (x +:+ y) = chars x ++ chars y.
Proof. induction x as [|c x IH]; [done|]. exact (f_equal (cons c) IH). Qed.
Lemma chars_length s : length (chars s) = String.length s.
Proof. unfold chars. induction s as [|c s IH]; [done|]. cbn. by rewrite IH. Qed.

(** The host and the port, or [None] for an error. *)
Definition SplitHostPort (hostport : string) : option (string * string) :=
  let s := chars hostport in
  i ← LastIndexByte ":"%char s;
  let after j k host :=
    if bool_decide (is_Some (IndexByte "["%char (drop j s))) then None
    else if bool_decide (is_Some (IndexByte "]"%char (drop k s))) then None
    else Some (text host, text (drop (S i) s)) in
  match s with
  | "["%char :: _ =>
      end_ ← IndexByte "]"%char s;
      if (S end_ =? length s)%nat then None
      else if (S end_ =? i)%nat then after 1%nat (S end_) (drop 1 (take end_ s))
      else None
  | _ =>
      let host := take i s in
      if bool_decide (is_Some (IndexByte ":"%char host)) then None else after 0%nat 0%nat host
  end.

(** [host, _, _ := net.SplitHostPort(s)]: empty on an error. *)
Definition split_host (s : string) : string := default "" (fst <$> SplitHostPort s).

Example SplitHostPort_ex :
  SplitHostPort "example.com:443" = Some ("example.com", "443") /\ SplitHostPort "[::1]:80" = Some ("::1", "80")
  /\ SplitHostPort "example.com" = None /\ SplitHostPort "::1" = None /\ SplitHostPort "[::1]" = None
  /\ SplitHostPort "a:b:c" = None /\ SplitHostPort ":80" = Some ("", "80").
Proof. vm_compute. repeat split. Qed.

(** ** Facts *)

Module NetFacts.
Import NetIP.

Example ParseCIDR_ex :
  ParseCIDR "10.0.0.0/8" = Some (mkNet [10; 0; 0; 0] [255; 0; 0; 0])
  /\ ParseCIDR "10.1.2.3/12" = Some (mkNet [10; 0; 0; 0] [255; 240; 0; 0])
  /\ ParseCIDR "10.0.0.1" = None /\ ParseCIDR "10.0.0.0/33" = None /\ ParseCIDR "2001:db8::/129" = None.
Proof. vm_compute. repeat split. Qed.

(** Bit [j] of an address, from the most significant. *)
Definition addr_bit (ip : list Z) (j : Z) : bool := Z.testbit (default 0 (ip !! Z.to_nat (j / 8))) (7 - j mod 8).

Definition is_bytes (ip : list Z) : Prop := Forall (fun b => 0 <= b < 256) ip.

Lemma mask_byte_bit k t : 0 <= t < 8 -> Z.testbit (mask_byte k) t = (8 - k <=? t).
Proof.
  intros Ht. unfold mask_byte. assert (t = 0 \/ t = 1 \/ t = 2 \/ t = 3 \/ t = 4 \/ t = 5 \/ t = 6 \/ t = 7) as Hc by lia.
  destruct (8 <=? k) eqn:E8; [|destruct (k <=? 0) eqn:E0]; bool_prop.
  - rewrite (proj2 (Z.leb_le _ _)) by lia. naive_solver.
  - rewrite (proj2 (Z.leb_gt _ _)) by lia. apply Z.testbit_0_l.
  - assert (k = 1 \/ k = 2 \/ k = 3 \/ k = 4 \/ k = 5 \/ k = 6 \/ k = 7) as Hk by lia.
    naive_solver.
Qed.

(** Masked bytes agree exactly when the kept bits do. *)
Lemma land_mask_eq a b k :
  0 <= a < 256 -> 0 <= b < 256 ->
  Z.land a (mask_byte k) = Z.land b (mask_byte k) <->
  forall t, 0 <= t < 8 -> t < k -> Z.testbit a (7 - t) = Z.testbit b (7 - t).
Proof.
  intros Ha Hb. split.
  - intros E t Ht Hk. apply (f_equal (fun z => Z.testbit z (7 - t))) in E.
    rewrite !Z.land_spec, mask_byte_bit in E by lia. rewrite (proj2 (Z.leb_le _ _)) in E by lia.
    by rewrite !andb_true_r in E.
  - intros H. apply Z.bits_inj'. intros t Ht. rewrite !Z.land_spec.
    destruct (decide (t < 8)) as [Hlt|Hge].
    + rewrite mask_byte_bit by lia. destruct (8 - k <=? t) eqn:E; [|by rewrite !andb_false_r]. bool_prop.
      specialize (H (7 - t) ltac:(lia) ltac:(lia)). replace (7 - (7 - t)) with t in H by lia. by rewrite H.
    + assert (forall z, 0 <= z < 256 -> Z.testbit z t = false) as Hz; [|rewrite (Hz a Ha), (Hz b Hb); done].
      intros z Hz. destruct (decide (z = 0)) as [->|]; [apply Z.testbit_0_l|].
      apply Z.bits_above_log2; [lia|]. apply Z.log2_lt_pow2; [lia|].
      eapply Z.lt_le_trans with (2 ^ 8); [lia|]. apply Z.pow_le_mono_r; lia.
Qed.

Lemma CIDRMask_length n l : length (CIDRMask n l) = l.
Proof. unfold CIDRMask. rewrite length_fmap, length_seqZ. lia. Qed.

Lemma CIDRMask_lookup n l i : (i < l)%nat -> CIDRMask n l !! i = Some (mask_byte (n - 8 * Z.of_nat i)).
Proof.
  intros H. unfold CIDRMask. rewrite list_lookup_fmap, lookup_seqZ_lt by lia. cbn. do 2 f_equal.
Qed.

Lemma forallb_zip3 (P : Z -> Z -> Z -> bool) a b m :
  length a = length b -> length b = length m ->
  forallb (fun '(x, y, k) => P x y k) (zip (zip a b) m) = true <->
  forall i x y k, a !! i = Some x -> b !! i = Some y -> m !! i = Some k -> P x y k = true.
Proof.
  revert b m. induction a as [|x a IH]; intros [|y b] [|k m] H1 H2; try done.
  cbn. rewrite andb_true_iff, IH by (cbn in *; lia). split.
  - intros [Hx H] [|i] x' y' k' E1 E2 E3; cbn in *; [congruence|eauto].
  - intros H. split; [by apply (H 0%nat)|]. intros i x' y' k' E1 E2 E3. by apply (H (S i)).
Qed.

(** A network of [n] bits keeps exactly the addresses that share its first [n] bits. *)
Lemma masked_prefix ip0 ip n l :
  length ip0 = l -> length ip = l -> is_bytes ip0 -> is_bytes ip -> 0 <= n <= 8 * Z.of_nat l ->
  forallb (fun '(a, b, k) => Z.land a k =? Z.land b k)
    (zip (zip (and_bytes ip0 (CIDRMask n l)) ip) (CIDRMask n l)) = true <->
  forall j, 0 <= j < n -> addr_bit ip j = addr_bit ip0 j.
Proof.
  intros L0 L1 B0 B1 Hn. unfold is_bytes in *. rewrite Forall_lookup in B0, B1.
  assert (length (and_bytes ip0 (CIDRMask n l)) = l) as La.
  { unfold and_bytes. rewrite length_zip_with, CIDRMask_length. lia. }
  rewrite forallb_zip3 by (rewrite ?La, ?CIDRMask_length; done). split.
  - intros H j Hj. assert (Z.to_nat (j / 8) < l)%nat as Hi.
    { assert (j / 8 < Z.of_nat l) by (apply Z.div_lt_upper_bound; lia).
      assert (0 <= j / 8) by (apply Z.div_pos; lia). lia. }
    destruct (lookup_lt_is_Some_2 ip0 (Z.to_nat (j / 8))) as [a Ea]; [lia|].
    destruct (lookup_lt_is_Some_2 ip (Z.to_nat (j / 8))) as [b Eb]; [lia|].
    specialize (H _ (Z.land a (mask_byte (n - 8 * Z.of_nat (Z.to_nat (j / 8))))) b _
      ltac:(unfold and_bytes; rewrite lookup_zip_with, Ea, CIDRMask_lookup by done; done) Eb (CIDRMask_lookup n l _ Hi)).
    apply Z.eqb_eq in H. rewrite <- Z.land_assoc, Z.land_diag in H. unfold addr_bit. rewrite Ea, Eb. cbn.
    symmetry. apply (proj1 (land_mask_eq a b _ (B0 _ _ Ea) (B1 _ _ Eb)) H); [apply Z.mod_pos_bound; lia|].
    pose proof (Z.div_mod j 8 ltac:(lia)). assert (0 <= j / 8) by (apply Z.div_pos; lia). lia.
  - intros H i x y k Ex Ey Ek. unfold and_bytes in Ex. rewrite lookup_zip_with in Ex.
    apply bind_Some in Ex as (a & Ea & Ex). apply bind_Some in Ex as (m & Em & [= <-]).
    assert (i < l)%nat as Hi by (apply lookup_lt_Some in Ea; lia).
    rewrite CIDRMask_lookup in Em, Ek by done. simplify_eq. apply Z.eqb_eq.
    rewrite <- Z.land_assoc, Z.land_diag. apply (land_mask_eq a y _ (B0 _ _ Ea) (B1 _ _ Ey)).
    intros t Ht Hk. specialize (H (8 * Z.of_nat i + t) ltac:(lia)). unfold addr_bit in H.
    rewrite (Z.mul_comm 8), Z.div_add_l, Z.div_small, Z.add_0_r, Nat2Z.id in H by lia.
    rewrite Z.add_comm, Z.mod_add, Z.mod_small in H by lia. rewrite Ea, Ey in H. cbn in H. done.
Qed.

(** An IPv4 network: the address in its 4-byte form shares the first [n] bits. *)
Lemma Contains_v4 ip0 n ip :
  length ip0 = 4%nat -> is_bytes ip0 -> 0 <= n <= 32 -> is_bytes ip ->
  Contains (mkNet (and_bytes ip0 (CIDRMask n 4)) (CIDRMask n 4)) ip = true <->
  exists a, To4 ip = Some a /\ forall j, 0 <= j < n -> addr_bit a j = addr_bit ip0 j.
Proof.
  intros L0 B0 Hn Bi. unfold Contains. cbn [netip mask].
  set (nn := and_bytes ip0 (CIDRMask n 4)).
  assert (length nn = 4%nat) as Ln by (unfold nn, and_bytes; rewrite length_zip_with, CIDRMask_length; lia).
  assert (To4 nn = Some nn) as -> by (unfold To4; by rewrite Ln). cbv zeta. change (default nn (Some nn)) with nn.
  rewrite Ln, CIDRMask_length. cbn [Nat.eqb andb]. rewrite andb_true_iff, Nat.eqb_eq.
  assert (forall a, To4 ip = Some a -> length a = 4%nat /\ is_bytes a) as H4.
  { unfold To4. intros a. case_match eqn:E4; [intros [= <-]; by apply Nat.eqb_eq in E4|].
    case_match eqn:E16; [|done]. intros [= <-]. apply andb_true_iff in E16 as [E16 _]. apply Nat.eqb_eq in E16.
    rewrite length_drop. split; [lia|]. by apply Forall_drop. }
  destruct (To4 ip) as [a|] eqn:E.
  - destruct (H4 a eq_refl) as [La Ba]. change (default ip (Some a)) with a. unfold nn. rewrite masked_prefix by (done || lia). split.
    + intros [_ H]. by exists a.
    + intros (a' & [= <-] & H). done.
  - cbn. split; [|by intros (a & ? & _)]. intros [L _]. unfold To4 in E. by rewrite L in E.
Qed.
End NetFacts.
