(* ===== verification/Policy.v ===== *)
(** * pkg/cache: the cacheability policy

    [src/pkg/cache/policy.go] and the [Override] type of [cache.go].  Durations
    are int64 nanoseconds with the wrap-around of Go's multiplication; times are
    nanoseconds since the epoch and [Sub] saturates.  [ParseTime] stands for
    [http.ParseTime]; every theorem holds whatever it returns. *)

From Stdlib Require Import Ascii.
From S2P Require Import Prelude GoStrings.

(** [time.Duration(n) * time.Second]. *)
Definition seconds (n : Z) : Z := i64 (n * Second).

Definition maxTTL : Z := 10 * 365 * 24 * Hour.

Inductive OverrideMode := OverrideConservative | OverrideBalanced | OverrideAggressive.

#[global] Instance OverrideMode_eq_dec : EqDecision OverrideMode.
Proof. solve_decision. Defined.

Record Override := mkOverride {
  ov_Mode : OverrideMode;
  ov_TTL : Z;
  ov_SWR : Z;
  ov_SIE : Z;
}.

Module Policy.

Definition cacheableMethod (m : string) : bool := String.eqb m "GET" || String.eqb m "HEAD".

Definition isUpgrade (h : header) : bool :=
  negb (String.eqb (HGet h "Upgrade") "")
  || existsb (fun tok => EqualFold (TrimSpace tok) "upgrade") (pieces h "Connection").

Definition cacheableStatus (code : Z) : bool :=
  bool_decide (code ∈ [200; 203; 204; 300; 301; 308; 404; 410]).

Record decision := mkDecision {
  cacheable : bool;
  freshUntil : Z;
  vary : list string;
  swr : Z;
  sie : Z;
  noStale : bool;
}.
Definition no : decision := mkDecision false 0 [] 0 0 false.

Record cacheControl := mkCC {
  maxAge : Z;
  sMaxAge : Z;
  cc_swr : Z;
  cc_sie : Z;
  private : bool;
  noStore : bool;
  noCache : bool;
  public : bool;
  mustRevalidate : bool;
  proxyRevalidate : bool;
  hasMax : bool;
  hasSMax : bool;
}.
Definition cc_zero : cacheControl := mkCC 0 0 0 0 false false false false false false false false.

Definition directive_name (d : string) : string := ToLower (TrimSpace (Cut "="%char d).1).
Definition directive_val (d : string) : string := TrimQuotes (TrimSpace (Cut "="%char d).2).

(** One directive; [raw] is a piece between commas. *)
Definition directive (cc : cacheControl) (raw : string) : cacheControl :=
  let '(mkCC ma sm sw si pr ns nc pu mr px hm hs) := cc in
  let d := TrimSpace raw in
  if String.eqb d "" then cc
  else
    let name := directive_name d in
    let val := directive_val d in
    if String.eqb name "private" then mkCC ma sm sw si true ns nc pu mr px hm hs
    else if String.eqb name "no-store" then mkCC ma sm sw si pr true nc pu mr px hm hs
    else if String.eqb name "no-cache" then mkCC ma sm sw si pr ns true pu mr px hm hs
    else if String.eqb name "public" then mkCC ma sm sw si pr ns nc true mr px hm hs
    else if String.eqb name "must-revalidate" then mkCC ma sm sw si pr ns nc pu true px hm hs
    else if String.eqb name "proxy-revalidate" then mkCC ma sm sw si pr ns nc pu mr true hm hs
    else if String.eqb name "max-age" then
      match ParseInt val with Some n => mkCC n sm sw si pr ns nc pu mr px true hs | None => cc end
    else if String.eqb name "s-maxage" then
      match ParseInt val with Some n => mkCC ma n sw si pr ns nc pu mr px hm true | None => cc end
    else if String.eqb name "stale-while-revalidate" then
      match ParseInt val with
      | Some n => if 0 <=? n then mkCC ma sm n si pr ns nc pu mr px hm hs else cc
      | None => cc
      end
    else if String.eqb name "stale-if-error" then
      match ParseInt val with
      | Some n => if 0 <=? n then mkCC ma sm sw n pr ns nc pu mr px hm hs else cc
      | None => cc
      end
    else cc.

Definition parseCacheControl (h : header) : cacheControl :=
  fold_left directive (pieces h "Cache-Control") cc_zero.

(** The names so far (also the [seen] set), or [None] at a star. *)
Fixpoint vary_loop (toks names : list string) : option (list string) :=
  match toks with
  | [] => Some names
  | tok :: toks =>
      let tok := ToLower (TrimSpace tok) in
      if String.eqb tok "" then vary_loop toks names
      else if String.eqb tok "*" then None
      else if bool_decide (tok ∈ names) then vary_loop toks names
      else vary_loop toks (names ++ [tok])
  end.

Definition parseVary (h : header) : list string * bool :=
  match vary_loop (pieces h "Vary") [] with
  | Some names => (names, false)
  | None => ([], true)
  end.

Definition storeRefusals (status : Z) (h : header) : option (list string) :=
  if negb (cacheableStatus status) then None
  else if (0 <? length (Values h "Set-Cookie"))%nat then None
  else let '(names, star) := parseVary h in if star then None else Some names.

Definition sharedOptIn (cc : cacheControl) : bool := public cc || hasSMax cc || mustRevalidate cc.

Definition contentLength (h : header) : option Z :=
  let v := HGet h "Content-Length" in
  if String.eqb v "" then None else ParseInt (TrimSpace v).

Definition isEventStream (h : header) : bool :=
  let ct := ToLower (TrimSpace (HGet h "Content-Type")) in
  String.eqb ct "text/event-stream" || HasPrefix "text/event-stream;" ct.

Definition fitsCap (method : string) (h : header) (maxFileSize : Z) (cacheChunked : bool) : bool :=
  if negb (String.eqb method "GET") then true
  else match contentLength h with
       | None => cacheChunked && negb (isEventStream h)
       | Some cl => (0 <=? cl) && (cl <=? maxFileSize)
       end.

Definition clampStaleWindow (d : Z) : Z := if d <? 0 then 0 else if maxTTL <? d then maxTTL else d.

Definition staleWindows (cc : cacheControl) : Z * Z :=
  if mustRevalidate cc || proxyRevalidate cc then (0, 0)
  else (clampStaleWindow (seconds (cc_swr cc)), clampStaleWindow (seconds (cc_sie cc))).

Section Clock.
Variable ParseTime : string -> option Z.

Definition responseAge (h : header) (now : Z) : Z :=
  let d := HGet h "Date" in
  let apparent :=
    if String.eqb d "" then 0
    else match ParseTime d with
         | Some dt => let a := time_sub now dt in if 0 <? a then a else 0
         | None => 0
         end in
  let v := HGet h "Age" in
  let ageVal :=
    if String.eqb v "" then 0
    else match ParseInt (TrimSpace v) with
         | Some n => if 0 <? n then seconds n else 0
         | None => 0
         end in
  if apparent <? ageVal then ageVal else apparent.

Definition freshnessLifetime (cc : cacheControl) (h : header) (now : Z) : Z :=
  if hasSMax cc then seconds (sMaxAge cc)
  else if hasMax cc then seconds (maxAge cc)
  else
    let exp := HGet h "Expires" in
    if String.eqb exp "" then 0
    else match ParseTime exp with
         | None => 0
         | Some expTime =>
             let d := HGet h "Date" in
             let ref := if String.eqb d "" then now else default now (ParseTime d) in
             time_sub expTime ref
         end.

Definition freshness (cc : cacheControl) (h : header) (now : Z) : Z :=
  let lifetime := freshnessLifetime cc h now in
  if lifetime <=? 0 then lifetime else i64 (lifetime - responseAge h now).

Definition decide (method : string) (status : Z) (h : header) (reqAuthorized : bool)
    (maxFileSize : Z) (cacheChunked : bool) (now : Z) : decision :=
  match storeRefusals status h with
  | None => no
  | Some vary =>
      let cc := parseCacheControl h in
      if private cc || noStore cc || noCache cc then no
      else if reqAuthorized && negb (sharedOptIn cc) then no
      else
        let ttl := freshness cc h now in
        if ttl <=? 0 then no
        else if negb (fitsCap method h maxFileSize cacheChunked) then no
        else
          let ttl := if maxTTL <? ttl then maxTTL else ttl in
          let noStale := mustRevalidate cc || proxyRevalidate cc in
          let '(swr, sie) := staleWindows cc in
          mkDecision true (now + ttl) vary swr sie noStale
  end.

(** The refusals the mode keeps. *)
Definition mode_refuses (mode : OverrideMode) (cc : cacheControl) (reqAuthorized : bool) : bool :=
  match mode with
  | OverrideConservative =>
      (private cc || noStore cc || noCache cc) || (reqAuthorized && negb (sharedOptIn cc))
  | OverrideBalanced => (private cc || noStore cc) || (reqAuthorized && negb (sharedOptIn cc))
  | OverrideAggressive => false
  end.

(** The stale windows and whether the origin forbids them. *)
Definition forced_windows (conservative : bool) (cc : cacheControl) (ov : Override) : Z * Z * bool :=
  if conservative then
    let '(swr, sie) := staleWindows cc in
    let noStale := mustRevalidate cc || proxyRevalidate cc in
    if noStale then (swr, sie, noStale)
    else (if swr =? 0 then clampStaleWindow (ov_SWR ov) else swr,
          if sie =? 0 then clampStaleWindow (ov_SIE ov) else sie, noStale)
  else (clampStaleWindow (ov_SWR ov), clampStaleWindow (ov_SIE ov), false).

Definition decideForced (method : string) (status : Z) (h : header) (reqAuthorized : bool)
    (maxFileSize : Z) (cacheChunked : bool) (now : Z) (ov : Override) : decision :=
  match storeRefusals status h with
  | None => no
  | Some vary =>
      let cc := parseCacheControl h in
      if mode_refuses (ov_Mode ov) cc reqAuthorized then no
      else
        let conservative := bool_decide (ov_Mode ov = OverrideConservative) in
        let originTTL := freshness cc h now in
        let ttl := if conservative && (0 <? originTTL) then originTTL else ov_TTL ov in
        if ttl <=? 0 then no
        else if negb (fitsCap method h maxFileSize cacheChunked) then no
        else
          let ttl := if maxTTL <? ttl then maxTTL else ttl in
          let '(swr, sie, noStale) := forced_windows conservative cc ov in
          mkDecision true (now + ttl) vary swr sie noStale
  end.
End Clock.
End Policy.

Module PolicyFacts.
Import Policy.

(** ** What a Cache-Control header says *)

(** The piece [raw] is the directive [name]. *)
Definition names_directive (name raw : string) : bool := String.eqb (directive_name (TrimSpace raw)) name.

Definition says (h : header) (name : string) : bool :=
  existsb (names_directive name) (pieces h "Cache-Control").

(** Case analysis on the directive a piece is. *)
Ltac directive_cases :=
  intros [ma sm sw si pr ns nc pu mr px hm hs] raw; unfold directive, names_directive;
  destruct (String.eqb_spec (TrimSpace raw) "") as [->|_];
  [ destruct pr, ns, nc, pu, mr, px; reflexivity |];
  generalize (directive_name (TrimSpace raw)) (directive_val (TrimSpace raw)); intros name val;
  repeat match goal with
  | |- context [if String.eqb name ?s then _ else _] =>
      destruct (String.eqb_spec name s) as [->|?];
      [ cbn; try case_match; cbn; try case_match; cbn; rewrite ?orb_true_r, ?orb_false_r; try reflexivity |]
  end;
  cbn; by rewrite ?orb_false_r.

Lemma private_step cc raw : private (directive cc raw) = private cc || names_directive "private" raw.
Proof. revert cc raw. directive_cases. Qed.
Lemma noStore_step cc raw : noStore (directive cc raw) = noStore cc || names_directive "no-store" raw.
Proof. revert cc raw. directive_cases. Qed.
Lemma noCache_step cc raw : noCache (directive cc raw) = noCache cc || names_directive "no-cache" raw.
Proof. revert cc raw. directive_cases. Qed.
Lemma public_step cc raw : public (directive cc raw) = public cc || names_directive "public" raw.
Proof. revert cc raw. directive_cases. Qed.
Lemma mustRevalidate_step cc raw :
  mustRevalidate (directive cc raw) = mustRevalidate cc || names_directive "must-revalidate" raw.
Proof. revert cc raw. directive_cases. Qed.
Lemma proxyRevalidate_step cc raw :
  proxyRevalidate (directive cc raw) = proxyRevalidate cc || names_directive "proxy-revalidate" raw.
Proof. revert cc raw. directive_cases. Qed.

(** A well-formed [s-maxage]. *)
Definition gives_smax (raw : string) : bool :=
  names_directive "s-maxage" raw && bool_decide (is_Some (ParseInt (directive_val (TrimSpace raw)))).

Lemma hasSMax_step cc raw : hasSMax (directive cc raw) = hasSMax cc || gives_smax raw.
Proof.
  unfold gives_smax. destruct (ParseInt (directive_val (TrimSpace raw))) as [n|] eqn:E.
  - rewrite bool_decide_true by done. rewrite andb_true_r. revert cc raw E.
    intros [ma sm sw si pr ns nc pu mr px hm hs] raw E. unfold directive, names_directive.
    destruct (String.eqb_spec (TrimSpace raw) "") as [->|_]; [by destruct hs|]. rewrite E.
    generalize (directive_name (TrimSpace raw)). intros name.
    repeat match goal with
    | |- context [if String.eqb name ?s then _ else _] =>
        destruct (String.eqb_spec name s) as [->|?];
        [cbn; try case_match; cbn; by rewrite ?orb_true_r, ?orb_false_r|]
    end.
    cbn. by rewrite ?orb_false_r.
  - rewrite bool_decide_false by (intros [? ?]; done). rewrite andb_false_r, orb_false_r.
    destruct cc as [ma sm sw si pr ns nc pu mr px hm hs]. unfold directive. cbv zeta. rewrite E.
    repeat match goal with |- context [if ?b then _ else _] => destruct b end; done.
Qed.

Lemma fold_flag (f : cacheControl -> bool) (P : string -> bool) ps cc :
  (forall cc raw, f (directive cc raw) = f cc || P raw) ->
  f (fold_left directive ps cc) = f cc || existsb P ps.
Proof.
  intros H. revert cc. induction ps as [|raw ps IH]; intros cc; cbn; [by rewrite orb_false_r|].
  by rewrite IH, H, orb_assoc.
Qed.

(** The parsed flags are what the header says. *)
Lemma parse_flags h :
  let cc := parseCacheControl h in
  private cc = says h "private" /\ noStore cc = says h "no-store" /\ noCache cc = says h "no-cache"
  /\ public cc = says h "public" /\ mustRevalidate cc = says h "must-revalidate"
  /\ proxyRevalidate cc = says h "proxy-revalidate"
  /\ hasSMax cc = existsb gives_smax (pieces h "Cache-Control").
Proof.
  cbn zeta. unfold parseCacheControl.
  rewrite (fold_flag private _ _ _ private_step), (fold_flag noStore _ _ _ noStore_step),
    (fold_flag noCache _ _ _ noCache_step), (fold_flag public _ _ _ public_step),
    (fold_flag mustRevalidate _ _ _ mustRevalidate_step),
    (fold_flag proxyRevalidate _ _ _ proxyRevalidate_step), (fold_flag hasSMax _ _ _ hasSMax_step).
  done.
Qed.

(** Vary. *)
Lemma vary_loop_star toks names :
  vary_loop toks names = None <-> Exists (fun tok => ToLower (TrimSpace tok) = "*") toks.
Proof.
  revert names. induction toks as [|tok toks IH]; intros names; cbn.
  - split; [done|]. by intros H%Exists_nil.
  - rewrite Exists_cons. destruct (String.eqb_spec (ToLower (TrimSpace tok)) "") as [E|E].
    { rewrite IH, E. split; [tauto|]. by intros [?|?]. }
    destruct (String.eqb_spec (ToLower (TrimSpace tok)) "*"); [tauto|].
    case_bool_decide; rewrite IH; tauto.
Qed.

(** The refusals of every mode. *)
Definition storable (status : Z) (h : header) : Prop :=
  status ∈ [200; 203; 204; 300; 301; 308; 404; 410] /\ Values h "Set-Cookie" = []
  /\ ~ Exists (fun tok => ToLower (TrimSpace tok) = "*") (pieces h "Vary").

Lemma storeRefusals_ok status h : is_Some (storeRefusals status h) <-> storable status h.
Proof.
  unfold storeRefusals, storable, cacheableStatus, parseVary.
  case_bool_decide as Hs; cbn; [|split; [by intros [? ?]|tauto]].
  destruct (Values h "Set-Cookie") as [|v vs]; cbn; [|split; [by intros [? ?]|by intros (_ & ? & _)]].
  destruct (vary_loop (pieces h "Vary") []) as [names|] eqn:E; rewrite <- (vary_loop_star _ []), E.
  - split; [done|by eexists].
  - split; [by intros [? ?]|]. tauto.
Qed.

(** ** The decisions *)

Definition forbids (h : header) : list string -> bool := existsb (says h).

(** RFC 9111's opt-in for responses to authorized requests. *)
Definition opted_in (h : header) : bool :=
  says h "public" || says h "must-revalidate" || existsb gives_smax (pieces h "Cache-Control").

Lemma sharedOptIn_ok h : sharedOptIn (parseCacheControl h) = opted_in h.
Proof.
  unfold sharedOptIn, opted_in. destruct (parse_flags h) as (_ & _ & _ & -> & -> & _ & ->).
  by destruct (says h "public"), (says h "must-revalidate"), (existsb _ _).
Qed.

Section Decisions.
Variable ParseTime : string -> option Z.

Definition capped (method : string) (h : header) (maxFileSize : Z) (cacheChunked : bool) : Prop :=
  method = "GET" ->
  match contentLength h with
  | Some cl => 0 <= cl <= maxFileSize
  | None => cacheChunked = true /\ isEventStream h = false
  end.

Lemma fitsCap_ok method h mfs chunked : fitsCap method h mfs chunked = true <-> capped method h mfs chunked.
Proof.
  unfold fitsCap, capped. destruct (String.eqb_spec method "GET") as [->|Hne]; cbn; [|done].
  destruct (contentLength h) as [cl|].
  - rewrite andb_true_iff, !Z.leb_le. split; [done|by intros H; apply H].
  - rewrite andb_true_iff, negb_true_iff. split; [done|by intros H; apply H].
Qed.

(** C8: A response is cacheable exactly when its status is in the cacheable set, it
    sets no cookie, no Vary token is a star, no Cache-Control directive is private,
    no-store or no-cache in any case or spacing, an authorized request's response opts
    in, its freshness is positive and its body fits. *)
Theorem policy_honours_origin method status h auth mfs chunked now :
  cacheable (decide ParseTime method status h auth mfs chunked now) = true <->
  storable status h
  /\ forbids h ["private"; "no-store"; "no-cache"] = false
  /\ (auth = true -> opted_in h = true)
  /\ 0 < freshness ParseTime (parseCacheControl h) h now
  /\ capped method h mfs chunked.
Proof.
  rewrite <- storeRefusals_ok, <- fitsCap_ok. unfold decide.
  destruct (storeRefusals status h) as [names|]; [|split; [done|by intros ([? ?] & _)]].
  unfold forbids. cbn [existsb]. rewrite sharedOptIn_ok.
  destruct (parse_flags h) as (-> & -> & -> & _). rewrite orb_false_r.
  rewrite <- orb_assoc. destruct (says h "private" || _) eqn:E1; [split; [done|by intros (_ & ? & _)]|].
  destruct auth, (opted_in h) eqn:E2; cbn;
    try (split; [done|]; intros (_ & _ & H & _); by specialize (H eq_refl));
    (destruct (Z.leb_spec (freshness ParseTime (parseCacheControl h) h now) 0);
      [split; [done|]; lia|]);
    (destruct (fitsCap method h mfs chunked); cbn; [|split; [done|]; by intros (_ & _ & _ & _ & ?)]);
    destruct (staleWindows (parseCacheControl h)); split; try done; intros _; repeat split; eauto; done.
Qed.

Lemma clamp_range d : 0 <= clampStaleWindow d <= maxTTL.
Proof.
  unfold clampStaleWindow. assert (0 <= maxTTL) by (vm_compute; discriminate).
  repeat case_match; bool_prop; lia.
Qed.

Lemma staleWindows_range cc :
  0 <= (staleWindows cc).1 <= maxTTL /\ 0 <= (staleWindows cc).2 <= maxTTL.
Proof.
  unfold staleWindows. assert (0 <= maxTTL) by (vm_compute; discriminate).
  case_match; cbn; [lia|]. split; apply clamp_range.
Qed.

(** What any cacheable decision's times are like; [ttl] is the lifetime it was
    given. *)
Definition times_ok (now ttl : Z) (d : decision) : Prop :=
  freshUntil d = now + Z.min maxTTL ttl /\ 0 < ttl
  /\ 0 <= swr d <= maxTTL /\ 0 <= sie d <= maxTTL.

Lemma min_ttl ttl : (if maxTTL <? ttl then maxTTL else ttl) = Z.min maxTTL ttl.
Proof. case_match; bool_prop; lia. Qed.

(** A cacheable response is fresh for exactly its remaining lifetime clamped to
    maxTTL, both stale windows lie within [0, maxTTL], and they are zero when the
    response says must-revalidate or proxy-revalidate. *)
Theorem policy_times method status h auth mfs chunked now :
  let d := decide ParseTime method status h auth mfs chunked now in
  cacheable d = true ->
  times_ok now (freshness ParseTime (parseCacheControl h) h now) d
  /\ noStale d = forbids h ["must-revalidate"; "proxy-revalidate"]
  /\ (noStale d = true -> swr d = 0 /\ sie d = 0).
Proof.
  cbn zeta. unfold decide, times_ok, forbids. cbn [existsb].
  destruct (parse_flags h) as (_ & _ & _ & _ & E1 & E2 & _). rewrite <- E1, <- E2, orb_false_r.
  destruct (storeRefusals status h) as [names|]; [|done].
  destruct (private _ || _ || _); [done|]. destruct (auth && _); [done|].
  destruct (Z.leb_spec (freshness ParseTime (parseCacheControl h) h now) 0); [done|].
  destruct (negb _); [done|]. pose proof (staleWindows_range (parseCacheControl h)) as Hw.
  rewrite min_ttl. unfold staleWindows in *.
  destruct (mustRevalidate _ || proxyRevalidate _) eqn:Em; cbn in *; intros _; repeat split; try done; lia.
Qed.

Lemma forced_windows_ok conservative cc ov :
  let '(swr, sie, noStale) := forced_windows conservative cc ov in
  0 <= swr <= maxTTL /\ 0 <= sie <= maxTTL
  /\ (conservative = true -> noStale = (mustRevalidate cc || proxyRevalidate cc)
      /\ (noStale = true -> swr = 0 /\ sie = 0)).
Proof.
  pose proof (staleWindows_range cc) as Hw.
  pose proof (clamp_range (ov_SWR ov)). pose proof (clamp_range (ov_SIE ov)).
  unfold forced_windows, staleWindows in *.
  destruct conservative, (mustRevalidate cc || proxyRevalidate cc); cbn in *; try (repeat split; done || lia).
  repeat split; try done; case_match; lia.
Qed.

Lemma mode_refuses_ok mode h auth :
  mode_refuses mode (parseCacheControl h) auth = false ->
  (mode <> OverrideAggressive ->
     forbids h ["private"; "no-store"] = false /\ (auth = true -> opted_in h = true))
  /\ (mode = OverrideConservative -> says h "no-cache" = false).
Proof.
  unfold mode_refuses, forbids. cbn [existsb]. rewrite sharedOptIn_ok, orb_false_r.
  destruct (parse_flags h) as (-> & -> & -> & _).
  destruct mode, (says h "private"), (says h "no-store"), (says h "no-cache"), auth, (opted_in h); cbn;
    intros ?; try done; repeat split; congruence.
Qed.

(** No operator override stores a response with a refused status, a cookie, a
    Vary star or an oversized body; short of the aggressive mode it also keeps
    private, no-store and the authorization gate, and the conservative mode keeps no-
    cache and the ban on serving stale. *)
Theorem policy_forced_refusals method status h auth mfs chunked now ov :
  let d := decideForced ParseTime method status h auth mfs chunked now ov in
  cacheable d = true ->
  storable status h /\ capped method h mfs chunked
  /\ (exists ttl, times_ok now ttl d)
  /\ (ov_Mode ov <> OverrideAggressive ->
        forbids h ["private"; "no-store"] = false /\ (auth = true -> opted_in h = true))
  /\ (ov_Mode ov = OverrideConservative ->
        says h "no-cache" = false /\ noStale d = forbids h ["must-revalidate"; "proxy-revalidate"]
        /\ (noStale d = true -> swr d = 0 /\ sie d = 0)).
Proof.
  cbn zeta. rewrite <- storeRefusals_ok, <- fitsCap_ok. unfold decideForced.
  destruct (storeRefusals status h) as [names|]; [|done].
  destruct (mode_refuses _ _ _) eqn:Er; [done|]. apply mode_refuses_ok in Er as [Er1 Er2].
  set (ttl := if _ && _ then _ else _). destruct (Z.leb_spec ttl 0); [done|].
  destruct (fitsCap method h mfs chunked); cbn [negb]; [|done]. rewrite min_ttl.
  pose proof (forced_windows_ok (bool_decide (ov_Mode ov = OverrideConservative)) (parseCacheControl h) ov) as Hw.
  destruct (forced_windows _ _ _) as [[sw si] ns]. destruct Hw as (H1 & H2 & H3).
  intros _. split; [done|]. split; [done|]. split; [by exists ttl|]. split; [done|].
  intros Em. rewrite bool_decide_true in H3 by done. destruct (H3 eq_refl) as [-> H4].
  split; [by apply Er2|]. split; [|done]. unfold forbids. cbn.
  destruct (parse_flags h) as (_ & _ & _ & _ & -> & -> & _). by rewrite orb_false_r.
Qed.
End Decisions.

(** ** Absurd lifetimes wrap before they are clamped *)

Definition hdr (kvs : list (string * string)) : header := list_to_map ((fun kv => (kv.1, [kv.2])) <$> kvs).

Definition no_dates (_ : string) : option Z := None.

(** Durations in seconds overflow. *)
Theorem policy_duration_overflow :
  cacheable (decide no_dates "HEAD" 200 (hdr [("Cache-Control", "max-age=9223372037")]) false 0 false 0) = false
  /\ freshUntil (decide no_dates "HEAD" 200 (hdr [("Cache-Control", "max-age=18446744074")]) false 0 false 0)
     = 290448384
  /\ responseAge no_dates (hdr [("Age", "9223372037")]) 0 = 0
  /\ freshUntil (decide no_dates "HEAD" 200
       (hdr [("Cache-Control", "max-age=60"); ("Age", "9223372037")]) false 0 false 0) = 60 * Second.
Proof. vm_compute. done. Qed.

(** Under the conservative override a response whose explicit max-age leaves no
    lifetime (max-age=0, or already older than it) is cached for the operator's TTL. *)
Theorem policy_conservative_fills_zero_lifetime ttl h now :
  0 < ttl <= maxTTL -> says h "max-age" = true ->
  freshness no_dates (parseCacheControl h) h now <= 0 ->
  let d := decideForced no_dates "HEAD" 200 h false 0 false now (mkOverride OverrideConservative ttl 0 0) in
  storable 200 h -> forbids h ["private"; "no-store"; "no-cache"] = false ->
  cacheable d = true /\ freshUntil d = now + ttl.
Proof.
  intros Ht _ Hf d Hst Hno. subst d. unfold decideForced.
  apply storeRefusals_ok in Hst as [names ->]. cbn [ov_Mode ov_TTL].
  assert (mode_refuses OverrideConservative (parseCacheControl h) false = false) as ->.
  { unfold mode_refuses. destruct (parse_flags h) as (-> & -> & -> & _). unfold forbids in Hno. cbn in *.
    rewrite orb_false_r in *. by rewrite <- orb_assoc. }
  rewrite bool_decide_true by done. cbn [andb]. rewrite (proj2 (Z.ltb_ge 0 _)) by lia.
  rewrite (proj2 (Z.leb_gt ttl 0)) by lia. cbn [fitsCap negb String.eqb Ascii.eqb Bool.eqb].
  rewrite min_ttl. destruct (forced_windows _ _ _) as [[? ?] ?]. cbn. split; [done|lia].
Qed.

Lemma policy_conservative_fills_zero_lifetime_witness :
  freshUntil (decideForced no_dates "HEAD" 200 (hdr [("Cache-Control", "max-age=0")]) false 0 false 7
                (mkOverride OverrideConservative Hour 0 0)) = 7 + Hour.
Proof.
  apply (policy_conservative_fills_zero_lifetime Hour (hdr [("Cache-Control", "max-age=0")]) 7);
    try (vm_compute; done).
  apply storeRefusals_ok. exists []. vm_compute. reflexivity.
Defined.

(** ** Witnesses *)

Definition demo_header : header :=
  hdr [("Cache-Control", "Public, max-age=60, stale-if-error=30"); ("Content-Length", "5"); ("Vary", "Accept")].

Lemma policy_times_witness :
  times_ok 1000 (60 * Second) (decide no_dates "GET" 200 demo_header true 10 false 1000).
Proof. apply (policy_times no_dates "GET" 200 demo_header true 10 false 1000). vm_compute. reflexivity. Defined.

Lemma policy_forced_refusals_witness :
  storable 200 demo_header /\ capped "GET" demo_header 10 false.
Proof.
  destruct (policy_forced_refusals no_dates "GET" 200 demo_header true 10 false 1000
              (mkOverride OverrideConservative 5 0 0)) as (H1 & H2 & _); [vm_compute; reflexivity|].
  exact (conj H1 H2).
Defined.
End PolicyFacts.
