(* ===== verification/ProxyProtocol.v ===== *)
(** * pkg/proxyprotocol: the PROXY header, v1 and v2

    [src/pkg/proxyprotocol/parse.go] and [proxyprotocol.go].  A connection is the
    bytes it will deliver and the error its reads then end with (the end of the
    stream, a deadline); the [bufio.Reader] has Go's default buffer of 4096 bytes.
    Every parser returns its result and what is left to read. *)

From Stdlib Require Import Ascii.
From stdpp Require Import pretty.
From S2P Require Import Prelude GoStrings GoNet.

(** ** The reader *)

Inductive error := EOF | ErrTimeout | ErrUnexpectedEOF | ErrNoHeader | ErrMalformed.

Record reader := mkReader { rest : list Z; fin : error }.

(** The default size of a [bufio.Reader]'s buffer. *)
Definition bufsize : nat := 4096.

(** [ReadSlice] of a newline among the first [fuel] bytes: the line and the rest. *)
Fixpoint cut_line (fuel : nat) (l : list Z) : option (list Z * list Z) :=
  match fuel, l with
  | S fuel, b :: l =>
      if b =? 10 then Some ([b], l)
      else match cut_line fuel l with Some (line, l) => Some (b :: line, l) | None => None end
  | _, _ => None
  end.

Definition ReadFull (n : nat) (r : reader) : (list Z + error) * reader :=
  if (n <=? length (rest r))%nat then (inl (take n (rest r)), mkReader (drop n (rest r)) (fin r))
  else
    let e := match rest r, fin r with
             | [], e => e
             | _, EOF => ErrUnexpectedEOF
             | _, e => e
             end in
    (inr e, mkReader [] (fin r)).

Module ProxyProtocol.
Import NetIP.

Definition v2Signature : list Z := [13; 10; 13; 10; 0; 13; 10; 81; 85; 73; 84; 10].
Definition v1Prefix : list Z := bytes_of "PROXY ".
Definition maxV1Line : nat := 108.

(** [net.Addr]; of another type only the host its string splits into matters. *)
Inductive Addr := TCPAddr (ip : list Z) (port : Z) | UDPAddr (ip : list Z) (port : Z) | OtherAddr (host : option string).

Definition parsed : Type := (option Addr + error) * reader.

Definition be16 (hi lo : Z) : Z := hi * 256 + lo.

Definition discard (n : Z) (a : option Addr) (r : reader) : parsed :=
  if n <=? 0 then (inl a, r)
  else if n <=? Z.of_nat (length (rest r)) then (inl a, mkReader (drop (Z.to_nat n) (rest r)) (fin r))
  else (inr (fin r), mkReader [] (fin r)).

Definition parse_fields (fields : list string) : option Addr + error :=
  match fields with
  | first :: proto :: more =>
      if negb (String.eqb first "PROXY") then inr ErrMalformed
      else if String.eqb proto "TCP4" || String.eqb proto "TCP6" then
        match more with
        | [src; _; sport; _] =>
            match ParseIP src, ParseInt sport with
            | Some ip, Some port =>
                if (port <? 0) || (65535 <? port) then inr ErrMalformed else inl (Some (TCPAddr ip port))
            | _, _ => inr ErrMalformed
            end
        | _ => inr ErrMalformed
        end
      else if String.eqb proto "UNKNOWN" then inl None
      else inr ErrMalformed
  | _ => inr ErrMalformed
  end.

Definition parseV1 (r : reader) : parsed :=
  match cut_line bufsize (rest r) with
  | None =>
      if (bufsize <=? length (rest r))%nat
      then (inr ErrMalformed, mkReader (drop bufsize (rest r)) (fin r))
      else (inr (fin r), mkReader [] (fin r))
  | Some (line, after) =>
      let r := mkReader after (fin r) in
      let n := length line in
      if (maxV1Line <? n)%nat || negb (bool_decide (drop (n - 2) line = [13; 10])) then (inr ErrMalformed, r)
      else (parse_fields (Split " "%char (str_of (take (n - 2) line))), r)
  end.

Definition v2VersionPROXY : Z := 2.
Definition v2CmdLocal : Z := 0.
Definition v2CmdProxy : Z := 1.
Definition v2FamUnspec : Z := 0.
Definition v2FamInet : Z := 1.
Definition v2FamInet6 : Z := 2.
Definition v2FamUnix : Z := 3.
Definition v2AddrLenInet : Z := 12.
Definition v2AddrLenInet6 : Z := 36.

Definition at_ (l : list Z) (i : nat) : Z := default 0 (l !! i).

(** The address block of a family: [n] address bytes, the source port at [p]. *)
Definition parse_block (len n : Z) (p : nat) (length : Z) (r : reader) : parsed :=
  if length <? len then (inr ErrMalformed, r)
  else match ReadFull (Z.to_nat len) r with
       | (inr e, r) => (inr e, r)
       | (inl b, r) =>
           let src := TCPAddr (take (Z.to_nat n) b) (be16 (at_ b p) (at_ b (S p))) in
           discard (length - len) (Some src) r
       end.

Definition parseV2 (r : reader) : parsed :=
  match ReadFull 16 r with
  | (inr e, r) => (inr e, r)
  | (inl hdr, r) =>
      let verCmd := at_ hdr 12 in
      if negb (Z.shiftr verCmd 4 =? v2VersionPROXY) then (inr ErrMalformed, r)
      else
        let cmd := Z.land verCmd 15 in
        let family := Z.shiftr (at_ hdr 13) 4 in
        let length := be16 (at_ hdr 14) (at_ hdr 15) in
        if cmd =? v2CmdLocal then discard length None r
        else if negb (cmd =? v2CmdProxy) then (inr ErrMalformed, r)
        else if family =? v2FamInet then parse_block v2AddrLenInet 4 8 length r
        else if family =? v2FamInet6 then parse_block v2AddrLenInet6 16 32 length r
        else if (family =? v2FamUnspec) || (family =? v2FamUnix) then discard length None r
        else (inr ErrMalformed, r)
  end.

Definition parseHeader (r : reader) : parsed :=
  let buf := take 12 (rest r) in
  if (12 <=? length buf)%nat && bool_decide (buf = v2Signature) then parseV2 r
  else if (6 <=? length buf)%nat && bool_decide (take 6 buf = v1Prefix) then parseV1 r
  else (inr ErrNoHeader, r).

(** ** The connection *)

Record Modifier := mkModifier { trusted : list IPNet; Require_ : bool; HeaderTimeout : Z }.

(** [None] is the panic on an invalid CIDR. *)
Definition New (trustedCIDRs : list string) : option Modifier :=
  trusted ← mapM ParseCIDR trustedCIDRs; Some (mkModifier trusted false 0).

Definition DefaultHeaderTimeout : Z := 10 * Second.
Definition headerTimeout (m : Modifier) : Z :=
  if HeaderTimeout m =? 0 then DefaultHeaderTimeout else HeaderTimeout m.

Definition addrIP (a : Addr) : option (list Z) :=
  match a with
  | TCPAddr ip _ | UDPAddr ip _ => Some ip
  | OtherAddr host => host ≫= ParseIP
  end.

Definition trusts (m : Modifier) (a : Addr) : bool :=
  match trusted m with
  | [] => true
  | nets => match addrIP a with
            | None => false
            | Some ip => existsb (fun n => Contains n ip) nets
            end
  end.

Record conn := mkConn {
  peer : Addr;
  wrapped : bool;
  r : reader;
  once : bool;
  remoteAddr : option Addr;
  parseErr : option error;
  require : bool;
  timeout : Z;
}.

(** The accepted connection as it is, and as [ModifyConnection] returns it. *)
Definition accepted (a : Addr) (rd : reader) : conn := mkConn a false rd false None None false 0.

Definition ModifyConnection (m : Modifier) (a : Addr) (rd : reader) : conn :=
  if negb (trusts m a) then accepted a rd
  else mkConn a true rd false None None (Require_ m) (headerTimeout m).

Definition parse (c : conn) : conn :=
  let '(res, rd) := parseHeader (r c) in
  let set a e := mkConn (peer c) (wrapped c) rd true a e (require c) (timeout c) in
  match res with
  | inr ErrNoHeader => set (remoteAddr c) (if require c then Some ErrNoHeader else parseErr c)
  | inr e => set (remoteAddr c) (Some e)
  | inl src => set src (parseErr c)
  end.

Definition once_parse (c : conn) : conn := if wrapped c && negb (once c) then parse c else c.

(** A read that returns up to [k] bytes ([k] positive). *)
Definition Read (k : nat) (c : conn) : (list Z + error) * conn :=
  let c := once_parse c in
  match parseErr c with
  | Some e => (inr e, c)
  | None =>
      match rest (r c) with
      | [] => (inr (fin (r c)), c)
      | l => (inl (take k l),
              mkConn (peer c) (wrapped c) (mkReader (drop k l) (fin (r c))) (once c) (remoteAddr c)
                     (parseErr c) (require c) (timeout c))
      end
  end.

Definition RemoteAddr (c : conn) : Addr * conn :=
  let c := once_parse c in (default (peer c) (remoteAddr c), c).
End ProxyProtocol.

Module ProxyProtocolFacts.
Import NetIP ProxyProtocol.

(** ** The encoders a load balancer uses *)

Definition encodeV2 (family : Z) (ip1 ip2 : list Z) (p1 p2 : Z) (tlvs : list Z) : list Z :=
  let block := ip1 ++ ip2 ++ [p1 / 256; p1 mod 256; p2 / 256; p2 mod 256] ++ tlvs in
  let n := Z.of_nat (length block) in
  v2Signature ++ [33; family * 16 + 1; n / 256; n mod 256] ++ block.

Definition family_of (ip : list Z) : Z := if (length ip =? 4)%nat then v2FamInet else v2FamInet6.

Lemma discard_app n a l1 l2 e :
  n = Z.of_nat (length l1) -> discard n a (mkReader (l1 ++ l2) e) = (inl a, mkReader l2 e).
Proof.
  intros ->. unfold discard. cbn. rewrite length_app. destruct (Z.leb_spec (Z.of_nat (length l1)) 0).
  - assert (l1 = []) as -> by (apply length_zero_iff_nil; lia). done.
  - rewrite (proj2 (Z.leb_le _ _)) by lia. by rewrite Nat2Z.id, drop_app_length.
Qed.

Lemma ReadFull_app n l1 l2 e :
  length l1 = n -> ReadFull n (mkReader (l1 ++ l2) e) = (inl l1, mkReader l2 e).
Proof.
  intros <-. unfold ReadFull. cbn. rewrite length_app. rewrite (proj2 (Nat.leb_le _ _)) by lia.
  by rewrite take_app_length, drop_app_length.
Qed.

Lemma be16_split n : 0 <= n -> be16 (n / 256) (n mod 256) = n.
Proof. intros. unfold be16. pose proof (Z.div_mod n 256). lia. Qed.

Lemma at_app ip1 ip2 l i :
  at_ (ip1 ++ ip2 ++ l) (length ip1 + length ip2 + i) = at_ l i.
Proof.
  unfold at_. rewrite lookup_app_r by lia. rewrite lookup_app_r by lia. do 2 f_equal. lia.
Qed.

(** An address block parses back, its TLVs are skipped and the payload is left. *)
Lemma parse_block_ok ip1 ip2 p1 p2 tlvs payload e len n p :
  Z.of_nat (length ip1) = n -> length ip2 = length ip1 -> 2 * n + 4 = len -> Z.of_nat p = 2 * n ->
  0 <= p1 ->
  parse_block len n p (len + Z.of_nat (length tlvs))
    (mkReader ((ip1 ++ ip2 ++ [p1 / 256; p1 mod 256; p2 / 256; p2 mod 256]) ++ tlvs ++ payload) e)
  = (inl (Some (TCPAddr ip1 p1)), mkReader payload e).
Proof.
  intros <- H2 <- Hp Hp1. unfold parse_block. rewrite (proj2 (Z.ltb_ge _ _)) by lia.
  rewrite ReadFull_app by (rewrite !length_app; cbn [length]; lia).
  rewrite Nat2Z.id, take_app_length. rewrite discard_app by lia.
  replace p with (length ip1 + length ip2 + 0)%nat by lia.
  replace (S (length ip1 + length ip2 + 0)) with (length ip1 + length ip2 + 1)%nat by lia.
  rewrite !at_app. unfold at_. cbn. by rewrite be16_split.
Qed.

Lemma parseHeader_v2 l e : parseHeader (mkReader (v2Signature ++ l) e) = parseV2 (mkReader (v2Signature ++ l) e).
Proof. done. Qed.

Lemma parseV2_inet hdr12 fam n l e :
  0 <= n ->
  parseV2 (mkReader (v2Signature ++ [hdr12; fam; n / 256; n mod 256] ++ l) e)
  = if negb (Z.shiftr hdr12 4 =? v2VersionPROXY) then (inr ErrMalformed, mkReader l e)
    else if Z.land hdr12 15 =? v2CmdLocal then discard n None (mkReader l e)
    else if negb (Z.land hdr12 15 =? v2CmdProxy) then (inr ErrMalformed, mkReader l e)
    else if Z.shiftr fam 4 =? v2FamInet then parse_block v2AddrLenInet 4 8 n (mkReader l e)
    else if Z.shiftr fam 4 =? v2FamInet6 then parse_block v2AddrLenInet6 16 32 n (mkReader l e)
    else if (Z.shiftr fam 4 =? v2FamUnspec) || (Z.shiftr fam 4 =? v2FamUnix) then discard n None (mkReader l e)
    else (inr ErrMalformed, mkReader l e).
Proof.
  intros Hn. unfold parseV2. rewrite app_assoc, (ReadFull_app 16) by done.
  change (at_ (v2Signature ++ [hdr12; fam; n / 256; n mod 256]) 12) with hdr12.
  change (at_ (v2Signature ++ [hdr12; fam; n / 256; n mod 256]) 13) with fam.
  change (be16 (at_ (v2Signature ++ [hdr12; fam; n / 256; n mod 256]) 14)
               (at_ (v2Signature ++ [hdr12; fam; n / 256; n mod 256]) 15)) with (be16 (n / 256) (n mod 256)).
  by rewrite be16_split.
Qed.

(** Every v2 header for an IPv4 or IPv6 source, with any TLVs, parses to exactly
    that source address and port, and the reader is left at the first byte after the
    header. *)
Theorem pp_v2_roundtrip ip1 ip2 p1 p2 tlvs payload e :
  (length ip1 = 4 \/ length ip1 = 16)%nat -> length ip2 = length ip1 -> 0 <= p1 < 65536 ->
  parseHeader (mkReader (encodeV2 (family_of ip1) ip1 ip2 p1 p2 tlvs ++ payload) e)
  = (inl (Some (TCPAddr ip1 p1)), mkReader payload e).
Proof.
  intros H1 H2 Hp. unfold encodeV2. rewrite <- !app_assoc, parseHeader_v2.
  set (n := Z.of_nat _). rewrite parseV2_inet by lia.
  change (negb (Z.shiftr 33 4 =? v2VersionPROXY)) with false.
  change (Z.land 33 15 =? v2CmdLocal) with false. change (negb (Z.land 33 15 =? v2CmdProxy)) with false.
  cbv iota. unfold family_of. destruct H1 as [H1|H1]; rewrite H1.
  - change (Z.shiftr ((if (4 =? 4)%nat then v2FamInet else v2FamInet6) * 16 + 1) 4 =? v2FamInet) with true. cbv iota.
    replace n with (v2AddrLenInet + Z.of_nat (length tlvs))
      by (unfold n, v2AddrLenInet; rewrite !length_app; cbn [length]; lia).
    rewrite <- (parse_block_ok ip1 ip2 p1 p2 tlvs payload e v2AddrLenInet 4 8) by (unfold v2AddrLenInet; lia).
    by rewrite <- !app_assoc.
  - change (Z.shiftr ((if (16 =? 4)%nat then v2FamInet else v2FamInet6) * 16 + 1) 4 =? v2FamInet) with false.
    change (Z.shiftr ((if (16 =? 4)%nat then v2FamInet else v2FamInet6) * 16 + 1) 4 =? v2FamInet6) with true. cbv iota.
    replace n with (v2AddrLenInet6 + Z.of_nat (length tlvs))
      by (unfold n, v2AddrLenInet6; rewrite !length_app; cbn [length]; lia).
    rewrite <- (parse_block_ok ip1 ip2 p1 p2 tlvs payload e v2AddrLenInet6 16 32) by (unfold v2AddrLenInet6; lia).
    by rewrite <- !app_assoc.
Qed.

(** ** What is consumed *)

(** The errors a connection's reads can end with. *)
Definition io_error (e : error) : Prop := e = EOF \/ e = ErrTimeout.

Definition begins (l : list Z) : bool :=
  bool_decide (take 12 l = v2Signature) || bool_decide (take 6 l = v1Prefix).

(** A complete header: a v2 one of the length it declares, or a v1 line. *)
Definition is_header (hdr : list Z) : Prop :=
  (take 12 hdr = v2Signature /\ Z.of_nat (length hdr) = 16 + be16 (at_ hdr 14) (at_ hdr 15))
  \/ (take 6 hdr = v1Prefix /\ (length hdr <= maxV1Line)%nat /\ drop (length hdr - 2) hdr = [13; 10]).

(** [res] left [r'] of [r]: on success exactly the bytes [hdr] are gone, and an
    error is not [ErrNoHeader]. *)
Definition consumes (r : reader) (P : list Z -> Prop) (res : parsed) : Prop :=
  match res with
  | (inl _, r') => fin r' = fin r /\ exists hdr, rest r = hdr ++ rest r' /\ P hdr
  | (inr e, _) => e <> ErrNoHeader
  end.

Lemma ReadFull_cases n r :
  io_error (fin r) ->
  (exists l1 l2, rest r = l1 ++ l2 /\ length l1 = n /\ ReadFull n r = (inl l1, mkReader l2 (fin r)))
  \/ (exists e r', ReadFull n r = (inr e, r') /\ e <> ErrNoHeader).
Proof.
  intros Hf. unfold ReadFull. destruct (Nat.leb_spec n (length (rest r))) as [Hle|Hgt].
  - left. exists (take n (rest r)), (drop n (rest r)). rewrite take_drop, length_take. repeat split; lia.
  - right. do 2 eexists. split; [done|]. destruct Hf as [->| ->]; destruct (rest r); done.
Qed.

Lemma discard_consumes n a r :
  0 <= n -> io_error (fin r) -> consumes r (fun hdr => Z.of_nat (length hdr) = n) (discard n a r).
Proof.
  intros Hn Hf. unfold discard. destruct (Z.leb_spec n 0); [|destruct (Z.leb_spec n (Z.of_nat (length (rest r))))]; cbn.
  - split; [done|]. exists []. cbn. split; [done|lia].
  - split; [done|]. exists (take (Z.to_nat n) (rest r)). rewrite take_drop, length_take. split; [done|lia].
  - by destruct Hf as [->| ->].
Qed.

Lemma parse_block_consumes len n p length r :
  0 <= len -> io_error (fin r) ->
  consumes r (fun hdr => Z.of_nat (Datatypes.length hdr) = length) (parse_block len n p length r).
Proof.
  intros Hl Hf. unfold parse_block. destruct (Z.ltb_spec length len); [done|].
  destruct (ReadFull_cases (Z.to_nat len) r Hf) as [(l1 & l2 & E & El & ->)|(e & r' & -> & He)]; [|done].
  pose proof (discard_consumes (length - len)
    (Some (TCPAddr (take (Z.to_nat n) l1) (be16 (at_ l1 p) (at_ l1 (S p))))) (mkReader l2 (fin r)) ltac:(lia) Hf) as H'.
  destruct (discard _ _ _) as [[a|e] r']; [|done]. cbn in *. destruct H' as (Hfin & hdr & E2 & Hlen).
  split; [done|]. exists (l1 ++ hdr). rewrite E, E2, <- app_assoc. split; [done|]. rewrite length_app. lia.
Qed.

(** The bytes of the stream are bytes. *)
Definition bytes_ok (l : list Z) : Prop := Forall (fun b => 0 <= b < 256) l.

Lemma at_range l i : bytes_ok l -> 0 <= at_ l i < 256.
Proof.
  intros H. unfold at_. destruct (l !! i) as [b|] eqn:E; cbn; [|lia].
  by apply (Forall_lookup_1 _ _ _ _ H) in E.
Qed.

Lemma parseV2_consumes r :
  bytes_ok (rest r) -> io_error (fin r) -> take 12 (rest r) = v2Signature ->
  consumes r is_header (parseV2 r).
Proof.
  intros Hb Hf Hsig. unfold parseV2.
  destruct (ReadFull_cases 16 r Hf) as [(hdr & l2 & E & El & ->)|(e & r' & -> & He)]; [|done].
  assert (bytes_ok hdr) as Hbh by (rewrite E in Hb; by apply Forall_app in Hb as [? _]).
  pose proof (at_range hdr 14 Hbh). pose proof (at_range hdr 15 Hbh).
  set (n := be16 (at_ hdr 14) (at_ hdr 15)). assert (0 <= n) by (unfold n, be16; lia).
  destruct (negb (Z.shiftr (at_ hdr 12) 4 =? v2VersionPROXY)); [done|].
  assert (forall res, consumes (mkReader l2 (fin r)) (fun h => Z.of_nat (length h) = n) res ->
                      consumes r is_header res) as Hlift.
  { intros [[a|e] r'] Hc; [|done]. cbn in *. destruct Hc as (Hfin & h & E2 & Hlen). split; [done|].
    exists (hdr ++ h). rewrite E, E2, <- app_assoc. split; [done|]. left. split.
    - rewrite E in Hsig. rewrite take_app_le in Hsig by lia. by rewrite take_app_le by lia.
    - rewrite length_app. unfold at_. rewrite !lookup_app_l by lia. fold (at_ hdr 14) (at_ hdr 15). fold n. lia. }
  destruct (Z.land (at_ hdr 12) 15 =? v2CmdLocal); [by apply Hlift, discard_consumes|].
  destruct (negb (Z.land (at_ hdr 12) 15 =? v2CmdProxy)); [done|].
  destruct (Z.shiftr (at_ hdr 13) 4 =? v2FamInet); [by apply Hlift, parse_block_consumes|].
  destruct (Z.shiftr (at_ hdr 13) 4 =? v2FamInet6); [by apply Hlift, parse_block_consumes|].
  destruct (_ || _); [by apply Hlift, discard_consumes|done].
Qed.

Lemma cut_line_app fuel l line after : cut_line fuel l = Some (line, after) -> l = line ++ after.
Proof.
  revert l line. induction fuel as [|fuel IH]; intros [|b l] line; cbn; [done..|].
  destruct (b =? 10); [by intros [= <- <-]|].
  destruct (cut_line fuel l) as [[line' after']|] eqn:E; [|done]. intros [= <- <-]. by rewrite (IH _ _ E) at 1.
Qed.

Lemma parse_fields_error fields e : parse_fields fields = inr e -> e = ErrMalformed.
Proof. unfold parse_fields. intros H. repeat case_match; congruence. Qed.

Lemma parseV1_consumes r :
  io_error (fin r) -> take 6 (rest r) = v1Prefix -> consumes r is_header (parseV1 r).
Proof.
  intros Hf Hpre. unfold parseV1.
  destruct (cut_line bufsize (rest r)) as [[line after]|] eqn:E.
  - apply cut_line_app in E. destruct (Nat.ltb_spec maxV1Line (length line)) as [Hlt|Hle]; cbn [orb]; [done|].
    case_bool_decide as Hcr; cbn [negb]; [|done].
    destruct (parse_fields _) as [a|e] eqn:Ep; cbn.
    + split; [done|]. exists line. split; [done|]. right. split; [|done].
      destruct (Nat.le_gt_cases 6 (length line)) as [H6|H6].
      * rewrite E in Hpre. by rewrite take_app_le in Hpre.
      * (* a line ends with CR LF, which the prefix does not have *)
        exfalso. rewrite E in Hpre.
        assert (length line >= 2)%nat as H2
          by (assert (length (drop (length line - 2) line) = 2%nat) as H2 by (by rewrite Hcr); rewrite length_drop in H2; lia).
        assert ((line ++ after) !! (length line - 1)%nat = Some 10) as Hb.
        { rewrite lookup_app_l by lia. replace (length line - 1)%nat with ((length line - 2) + 1)%nat by lia.
          rewrite <- lookup_drop, Hcr. done. }
        assert (v1Prefix !! (length line - 1)%nat = Some 10) as Hc by (rewrite <- Hpre, lookup_take_lt by lia; done).
        assert (length line = 2 \/ length line = 3 \/ length line = 4 \/ length line = 5)%nat as [X|[X|[X|X]]] by lia;
          rewrite X in Hc; vm_compute in Hc; discriminate.
    + apply parse_fields_error in Ep. by subst.
  - destruct (_ <=? _)%nat; cbn; [done|]. by destruct Hf as [->| ->].
Qed.

(** On any stream the parser either reports no header and consumes nothing,
    exactly when the stream begins with neither signature, or reports another error,
    or consumes exactly one complete header: a v2 header of the length it declares or
    a v1 line of at most 108 bytes ending in CRLF. *)
Theorem pp_consumes_one_header r :
  bytes_ok (rest r) -> io_error (fin r) ->
  if begins (rest r) then consumes r is_header (parseHeader r)
  else parseHeader r = (inr ErrNoHeader, r).
Proof.
  intros Hb Hf. unfold begins, parseHeader.
  assert (forall n l, (n <=? length (take 12 (rest r)))%nat && bool_decide (take n (take 12 (rest r)) = l)
          = bool_decide (take n (rest r) = l) \/ (12 < n)%nat \/ (length l <> n)%nat) as Hbool.
  { intros n l. destruct (Nat.le_gt_cases n 12); [|auto]. destruct (decide (length l = n)) as [El|]; [|auto].
    left. rewrite take_take, Nat.min_l by lia. case_bool_decide as E; [|by rewrite andb_false_r].
    rewrite andb_true_r. apply Nat.leb_le. rewrite <- El, <- E, !length_take. lia. }
  destruct (Hbool 12%nat v2Signature) as [H12|[?|Hx]]; [|lia|by destruct Hx].
  destruct (Hbool 6%nat v1Prefix) as [H6|[?|Hx]]; [|lia|by destruct Hx].
  rewrite take_take, Nat.min_id in H12. rewrite H12, H6. clear H12 H6 Hbool.
  case_bool_decide as E1; cbn [orb]; [by apply parseV2_consumes|].
  case_bool_decide as E2; [by apply parseV1_consumes|done].
Qed.

(** ** The connection a server sees *)

(** What a connection from [a] that delivers [rd] should look like: its client
    address, and its stream or the error every read gives. *)
Definition verdict (m : Modifier) (a : Addr) (rd : reader) : Addr * (list Z + error) :=
  if negb (trusts m a) then (a, inl (rest rd))
  else match parseHeader rd with
       | (inl src, rd') => (default a src, inl (rest rd'))
       | (inr ErrNoHeader, rd') => (a, if Require_ m then inr ErrNoHeader else inl (rest rd'))
       | (inr e, _) => (a, inr e)
       end.

Inductive op := ORead (k : nat) | OAddr.

(** The bytes read, the addresses and the errors seen. *)
Record seen := mkSeen { s_bytes : list Z; s_addrs : list Addr; s_errs : list error }.

Definition do_op (o : op) (c : conn) (s : seen) : conn * seen :=
  match o with
  | ORead k =>
      match Read k c with
      | (inl b, c) => (c, mkSeen (s_bytes s ++ b) (s_addrs s) (s_errs s))
      | (inr e, c) => (c, mkSeen (s_bytes s) (s_addrs s) (s_errs s ++ [e]))
      end
  | OAddr => let '(a, c) := RemoteAddr c in (c, mkSeen (s_bytes s) (s_addrs s ++ [a]) (s_errs s))
  end.

Fixpoint run_ops (ops : list op) (c : conn) (s : seen) : conn * seen :=
  match ops with
  | [] => (c, s)
  | o :: ops => let '(c, s) := do_op o c s in run_ops ops c s
  end.

(** A connection past its header: [got] has been read. *)
Definition settled (v : Addr * (list Z + error)) (e0 : error) (got : list Z) (c : conn) : Prop :=
  wrapped c && negb (once c) = false /\ default (peer c) (remoteAddr c) = v.1 /\ fin (r c) = e0
  /\ match v.2 with
     | inl l => parseErr c = None /\ l = got ++ rest (r c)
     | inr e => parseErr c = Some e /\ got = []
     end.

Lemma settle m a rd :
  settled (verdict m a rd) (fin (r (once_parse (ModifyConnection m a rd)))) [] (once_parse (ModifyConnection m a rd)).
Proof.
  unfold verdict, ModifyConnection, settled. destruct (negb (trusts m a)); [done|].
  cbn [once_parse wrapped once negb andb]. unfold parse. cbn [r].
  destruct (parseHeader rd) as [[src|e] rd'] eqn:E; cbn.
  - destruct src; done.
  - destruct e; try done. cbn. by destruct (Require_ m).
Qed.

(** What has been observed agrees with the verdict. *)
Definition agrees (v : Addr * (list Z + error)) (e0 : error) (s : seen) : Prop :=
  Forall (eq v.1) (s_addrs s) /\ Forall (eq (match v.2 with inl _ => e0 | inr e => e end)) (s_errs s).

Lemma do_op_settled v e0 o c s :
  settled v e0 (s_bytes s) c -> agrees v e0 s ->
  settled v e0 (s_bytes (do_op o c s).2) (do_op o c s).1 /\ agrees v e0 (do_op o c s).2.
Proof.
  intros (Ho & Ha & Hf & Hv) [A1 A2].
  assert (once_parse c = c) as Hc by (unfold once_parse; by rewrite Ho).
  destruct o as [k|]; cbn.
  - unfold Read. rewrite Hc. destruct v as [va [l|e]]; cbn in *; destruct Hv as [Hp Hl]; rewrite Hp.
    + destruct (rest (r c)) as [|b bs] eqn:Er; cbn.
      * split; [repeat split; try done; by rewrite ?Er|]. split; [done|].
        apply Forall_app. split; [done|]. by repeat constructor.
      * split; [|done]. unfold settled. cbn. repeat split; try done.
        rewrite <- app_assoc, take_drop. by rewrite Hl.
    + split; [done|]. split; [done|]. apply Forall_app. split; [done|]. by repeat constructor.
  - rewrite Hc. split; [done|]. split; [|done]. apply Forall_app. split; [done|]. by repeat constructor.
Qed.

Lemma run_settled v e0 ops c s :
  settled v e0 (s_bytes s) c -> agrees v e0 s ->
  settled v e0 (s_bytes (run_ops ops c s).2) (run_ops ops c s).1 /\ agrees v e0 (run_ops ops c s).2.
Proof.
  revert c s. induction ops as [|o ops IH]; intros c s Hs Ha; [done|]. cbn.
  pose proof (do_op_settled v e0 o c s Hs Ha) as [Hs' Ha'].
  destruct (do_op o c s) as [c' s']. by apply IH.
Qed.

(** Reading through [once]: the first operation parses. *)
Lemma do_op_once o c s : do_op o c s = do_op o (once_parse c) s.
Proof.
  assert (once_parse (once_parse c) = once_parse c) as H.
  { unfold once_parse at 2 3. destruct (wrapped c && negb (once c)) eqn:E; [|unfold once_parse; by rewrite E].
    unfold once_parse. assert (once (parse c) = true) as ->; [|by rewrite andb_false_r].
    unfold parse. destruct (parseHeader (r c)) as [[src|[]] rd']; done. }
  destruct o as [k|]; cbn; unfold Read, RemoteAddr; by rewrite H.
Qed.

Lemma connection_verdict m a rd ops :
  let '(c, s) := run_ops ops (ModifyConnection m a rd) (mkSeen [] [] []) in
  let v := verdict m a rd in
  Forall (eq v.1) (s_addrs s)
  /\ match v.2 with
     | inl l => exists tail, l = s_bytes s ++ tail
     | inr e => s_bytes s = [] /\ Forall (eq e) (s_errs s)
     end.
Proof.
  destruct ops as [|o ops]; cbn [run_ops].
  { cbn. split; [done|]. destruct (verdict m a rd).2; [by eexists|done]. }
  rewrite do_op_once. set (c0 := once_parse (ModifyConnection m a rd)).
  pose proof (settle m a rd) as Hs. fold c0 in Hs.
  pose proof (run_settled _ _ (o :: ops) c0 (mkSeen [] [] []) Hs ltac:(split; constructor)) as [Hs' [A1 A2]].
  cbn [run_ops] in *. destruct (do_op o c0 _) as [c1 s1]. destruct (run_ops ops c1 s1) as [c s]. cbn [fst snd] in *.
  split; [done|]. destruct Hs' as (_ & _ & _ & Hv). destruct (verdict m a rd).2 as [l|e].
  - exists (rest (r c)). apply Hv.
  - split; [apply Hv|done].
Qed.

(** C9: For every sequence of reads and address queries, an accepted connection shows
    one client address and one stream: the peer's own if it is untrusted or sends no
    header, the header's if a trusted peer sends one, and after a broken or a required
    but missing header every read fails and no byte is delivered. *)
Theorem pp_connection m a rd ops :
  let '(c, s) := run_ops ops (ModifyConnection m a rd) (mkSeen [] [] []) in
  let v := verdict m a rd in
  Forall (eq v.1) (s_addrs s)
  /\ match v.2 with
     | inl l => exists tail, l = s_bytes s ++ tail
     | inr e => s_bytes s = [] /\ Forall (eq e) (s_errs s)
     end.
Proof. exact (connection_verdict m a rd ops). Qed.

(** An untrusted peer keeps its address and its bytes, whatever it sends. *)
Lemma untrusted_verdict m a rd : trusts m a = false -> verdict m a rd = (a, inl (rest rd)).
Proof. intros H. unfold verdict. by rewrite H. Qed.

(** A peer outside the trusted networks keeps its own address and its bytes are
    delivered untouched, whatever it sends. *)
Theorem pp_untrusted_cannot_spoof m a rd ops :
  trusts m a = false ->
  let '(c, s) := run_ops ops (ModifyConnection m a rd) (mkSeen [] [] []) in
  Forall (eq a) (s_addrs s) /\ exists tail, rest rd = s_bytes s ++ tail.
Proof.
  intros H. pose proof (connection_verdict m a rd ops) as Hc. rewrite untrusted_verdict in Hc by done.
  destruct (run_ops _ _ _) as [c s]. exact Hc.
Qed.

(** Configuration is all or nothing: one bad network and there is no modifier; otherwise a
    peer with an address is trusted exactly if there are no networks or one has it. *)
Lemma new_trusts cidrs :
  match New cidrs with
  | None => exists x, x ∈ cidrs /\ ParseCIDR x = None
  | Some m => forall a ip, addrIP a = Some ip ->
      (trusts m a = true <-> cidrs = [] \/ exists x n, x ∈ cidrs /\ ParseCIDR x = Some n /\ Contains n ip = true)
  end.
Proof.
  unfold New. destruct (mapM ParseCIDR cidrs) as [nets|] eqn:E; cbn.
  - apply mapM_Some in E. intros a ip Ha. unfold trusts. cbn [trusted]. rewrite Ha. destruct E as [|x n cidrs nets Hx HE]; [split; [by left|done]|].
    assert (Forall2 (fun x y => ParseCIDR x = Some y) (x :: cidrs) (n :: nets)) as HF by by constructor. clear Hx HE. rename HF into HE. rewrite existsb_exists. split.
    + intros (n' & Hn%list_elem_of_In & Hc). right. destruct (proj1 (list_elem_of_lookup _ _) Hn) as [i Hi].
      destruct (Forall2_lookup_r _ _ _ _ _ HE Hi) as (y & Hy & Ey). exists y, n'. split; [by eapply list_elem_of_lookup_2|done].
    + intros [?|(y & n' & Hy & En & Hc)]; [done|]. destruct (proj1 (list_elem_of_lookup _ _) Hy) as [i Hi].
      destruct (Forall2_lookup_l _ _ _ _ _ HE Hi) as (n2 & Hn2 & E2). exists n2. split; [apply list_elem_of_In; by eapply list_elem_of_lookup_2|congruence].
  - apply mapM_None in E. apply Exists_exists in E. naive_solver.
Qed.

(** ** Witnesses *)

Definition demo_stream : reader :=
  mkReader (encodeV2 v2FamInet [10; 0; 0; 7] [10; 0; 0; 1] 5123 443 [1; 2; 3] ++ bytes_of "GET /") EOF.

Lemma pp_v2_roundtrip_witness :
  parseHeader demo_stream = (inl (Some (TCPAddr [10; 0; 0; 7] 5123)), mkReader (bytes_of "GET /") EOF).
Proof.
  apply (pp_v2_roundtrip [10; 0; 0; 7] [10; 0; 0; 1] 5123 443 [1; 2; 3] (bytes_of "GET /") EOF); [auto|done|lia].
Defined.

Lemma pp_consumes_one_header_witness :
  consumes demo_stream is_header (parseHeader demo_stream).
Proof.
  apply (pp_consumes_one_header demo_stream); [|by left].
  unfold bytes_ok. apply (bool_decide_unpack _). vm_compute. exact I.
Defined.

Definition demo_modifier : Modifier := mkModifier [mkNet [10; 0; 0; 0] [255; 0; 0; 0]] false 0.

Lemma pp_untrusted_cannot_spoof_witness :
  (RemoteAddr (ModifyConnection demo_modifier (TCPAddr [8; 8; 8; 8] 99) demo_stream)).1 = TCPAddr [8; 8; 8; 8] 99.
Proof.
  pose proof (pp_untrusted_cannot_spoof demo_modifier (TCPAddr [8; 8; 8; 8] 99) demo_stream [OAddr]
                ltac:(vm_compute; reflexivity)) as H.
  destruct H as [H _]. inversion H. symmetry. assumption.
Defined.
End ProxyProtocolFacts.
