(* ===== verification/UpstreamHandler.v ===== *)
(** * pkg/upstream: the proxying handler

    [src/pkg/upstream/upstream.go] and [observe.go]: the path the director sends,
    and the retry loop that runs through [httputil.ReverseProxy]'s error handler.
    The reverse proxy clones the request, runs the director on the clone, makes the
    round trip and hands a transport error, with that clone, to [ErrorHandler],
    which retries by calling the reverse proxy again.  The transport is a parameter
    over a world of its own, so a balancer of this package can be one. *)

From Stdlib Require Import Ascii.
From S2P Require Import Prelude Http GoStrings RoundRobin.

(** ** strings and path *)

Definition HasSuffix (c : ascii) (s : string) : bool :=
  match last (String.list_ascii_of_string s) with Some d => Ascii.eqb c d | None => false end.

Fixpoint Join (sep : string) (ss : list string) : string :=
  match ss with
  | [] => ""
  | [s] => s
  | s :: ss => s +:+ sep +:+ Join sep ss
  end.

(** [path.Clean], by segments: [out] holds the kept ones, last first. *)
Definition resolve1 (rooted : bool) (out : list string) (seg : string) : list string :=
  if String.eqb seg "" || String.eqb seg "." then out
  else if String.eqb seg ".." then
    match out with
    | [] => if rooted then [] else [".."]
    | top :: below => if String.eqb top ".." then ".." :: out else below
    end
  else seg :: out.

Definition resolve (rooted : bool) (segs : list string) : list string :=
  reverse (foldl (resolve1 rooted) [] segs).

Definition Clean (p : string) : string :=
  if String.eqb p "" then "."
  else
    let rooted := HasPrefix "/" p in
    let s := Join "/" (resolve rooted (Split "/"%char p)) in
    if rooted then "/" +:+ s else if String.eqb s "" then "." else s.

Module Upstream.

Definition cleanRequestPath (p : string) : string :=
  if String.eqb p "" then "/"
  else
    let trailing := HasSuffix "/"%char p in
    let cleaned := Clean p in
    let cleaned := if String.eqb cleaned "." then "/" else cleaned in
    if trailing && negb (HasSuffix "/"%char cleaned) then cleaned +:+ "/" else cleaned.

(** [b[1:]] is [tail1 b]. *)
Definition tail1 (s : string) : string := match s with EmptyString => EmptyString | String _ s => s end.

Definition singleJoiningSlash (a b : string) : string :=
  let aslash := HasSuffix "/"%char a in
  let bslash := HasPrefix "/" b in
  if aslash && bslash then a +:+ tail1 b
  else if negb aslash && negb bslash then a +:+ "/" +:+ b
  else a +:+ b.

(** The parts of [*http.Request] the handler touches.  [Body] is what is left to
    read ([None]: nil or [http.NoBody]); [GetBody] is nil, fails, or gives a fresh
    body; [retry] is the value under [retryContextKey]. *)
Record Request := mkReq {
  Method : string;
  URLHost : string;
  Path : string;
  RawPath : string;
  RawQuery : string;
  ReqHost : string;
  RemoteAddr : string;
  Body : option string;
  GetBody : option (option string);
  retry : option Z;
}.

Definition set_url (path query host : string) (r : Request) : Request :=
  mkReq (Method r) (URLHost r) path "" query host (RemoteAddr r) (Body r) (GetBody r) (retry r).
Definition set_url_host (h : string) (r : Request) : Request :=
  mkReq (Method r) h (Path r) (RawPath r) (RawQuery r) (ReqHost r) (RemoteAddr r) (Body r) (GetBody r) (retry r).
Definition set_body (b : option string) (r : Request) : Request :=
  mkReq (Method r) (URLHost r) (Path r) (RawPath r) (RawQuery r) (ReqHost r) (RemoteAddr r) b (GetBody r) (retry r).
Definition set_retry (n : Z) (r : Request) : Request :=
  mkReq (Method r) (URLHost r) (Path r) (RawPath r) (RawQuery r) (ReqHost r) (RemoteAddr r) (Body r) (GetBody r) (Some n).
Definition set_remote (a : string) (r : Request) : Request :=
  mkReq (Method r) (URLHost r) (Path r) (RawPath r) (RawQuery r) (ReqHost r) a (Body r) (GetBody r) (retry r).

Definition canMethodRetry (method : string) : bool :=
  String.eqb method "GET" || String.eqb method "HEAD" || String.eqb method "OPTIONS" || String.eqb method "TRACE".

Definition canRetry (r : Request) : bool :=
  if negb (canMethodRetry (Method r)) then false
  else match Body r with
       | None => true
       | Some _ => match GetBody r with None => false | Some _ => true end
       end.

Record Upstream := mk {
  RetryPolicy : option (Request -> bool);
  Host : string;
  PathPrefix : string;
  Retries : Z;
  BackoffFactor : Z;
}.

Definition New : Upstream := mk None "" "" 3 (50 * Millisecond).

Definition retryable (m : Upstream) (r : Request) : bool :=
  match RetryPolicy m with Some f => f r | None => canRetry r end.

(** The parsed target: its path and query. *)
Definition Director (m : Upstream) (target : string * string) (r : Request) : Request :=
  set_url (singleJoiningSlash target.1 (cleanRequestPath (Path r)))
    (if String.eqb target.2 "" || String.eqb (RawQuery r) "" then target.2 +:+ RawQuery r
     else target.2 +:+ "&" +:+ RawQuery r)
    (if String.eqb (Host m) "" then ReqHost r else Host m) r.

(** [m.BackoffFactor * time.Duration(1<<uint(retry))]. *)
Definition backoff_wait (m : Upstream) (retry : Z) : Z :=
  i64 (BackoffFactor m * i64 (Z.shiftl 1 retry)).

(** What a transport does with a request: the target it resolved, how much of the
    body it left unread, and a response or an error. *)
Record trip := mkTrip { thost : string; left : string; result : Response + error }.

Record RoundTripInfo := mkInfo { info_host : string; Status : Z; Err : option error; Attempt : Z }.

(** What one request makes happen, in order. *)
Inductive event :=
  | Sent (r : Request)
  | Observed (i : RoundTripInfo)
  | Waited (d : Z).

(** What the client gets: the response, nothing (it left), or an error page. *)
Inductive reply := Served (r : Response) | Gone | ErrorPage (code : Z).

Section Handler.
Context {W : Type} (transport : W -> Request -> W * trip).
(** Whether the client's context is done when the n-th backoff is waited for. *)
Context (done : Z -> bool).

Definition RoundTrip (w : W) (r : Request) : W * Request * (Response + error) * list event :=
  let r := set_url_host "" r in
  let '(w, t) := transport w r in
  let attempt := default 0 (retry r) in
  let info :=
    mkInfo (thost t) (match result t with inl resp => StatusCode resp | inr _ => 0 end)
      (match result t with inl _ => None | inr e => Some e end) attempt in
  (w, set_body (match Body r with Some _ => Some (left t) | None => None end) (set_url_host (thost t) r),
   result t, [Sent r; Observed info]).

Definition error_page (e : error) : reply :=
  match e with ErrUnavailable => ErrorPage 503 | _ => ErrorPage 502 end.

(** What [ErrorHandler] decides: an answer, or another attempt after a wait. *)
Definition ErrorHandler (m : Upstream) (r : Request) (e : error) : reply + Request * Z :=
  match e with
  | ErrCanceled => inl Gone
  | _ =>
      if retryable m r then
        let n := default 0 (retry r) in
        if n <? Retries m then
          if done n then inl Gone
          else match GetBody r with
               | Some None => inl (error_page e)
               | Some (Some b) => inr (set_retry (n + 1) (set_body (Some b) r), backoff_wait m n)
               | None => inr (set_retry (n + 1) r, backoff_wait m n)
               end
        else inl (error_page e)
      else inl (error_page e)
  end.

(** [p.ServeHTTP], with the error handler's recursive call; [None] when [fuel]
    attempts were not enough. *)
Fixpoint proxy (fuel : nat) (m : Upstream) (target : string * string) (w : W) (r : Request)
    : W * list event * option reply :=
  match fuel with
  | O => (w, [], None)
  | S fuel =>
      let '(w, outreq, res, evs) := RoundTrip w (Director m target r) in
      match res with
      | inl resp => (w, evs, Some (Served resp))
      | inr e =>
          match ErrorHandler m outreq e with
          | inl a => (w, evs, Some a)
          | inr (r', d) =>
              let '(w, evs', a) := proxy fuel m target w r' in
              (w, evs ++ Waited d :: evs', a)
          end
      end
  end.

(** [ServeHandler]; [None] is the panic on a target that does not parse. *)
Definition ServeHandler (ParseRequestURI : string -> option (string * string)) (m : Upstream)
    : option (nat -> W -> Request -> W * list event * option reply) :=
  let m := if String.eqb (PathPrefix m) ""
           then mk (RetryPolicy m) (Host m) "/" (Retries m) (BackoffFactor m) else m in
  match ParseRequestURI (PathPrefix m) with
  | None => None
  | Some target => Some (fun fuel w r => proxy fuel m target w (set_remote "" r))
  end.

End Handler.

(** [SingleHost]'s transport. *)
Definition singleHostTransport {W} (host : string) (next : W -> Request -> W * trip)
    (w : W) (r : Request) : W * trip :=
  next w (set_url_host host r).

End Upstream.

(** [src/pkg/stripprefix/stripprefix.go]: [http.StripPrefix]; [None] is its 404. *)
Module StripPrefix.
Import Upstream.

Fixpoint TrimPrefix (s p : string) : string :=
  match p, s with
  | EmptyString, _ => s
  | String a p', String b s' =>
      if Ascii.eqb a b && HasPrefix p' s' then TrimPrefix s' p' else s
  | _, EmptyString => s
  end.

Definition ServeHandler (prefix : string) (r : Request) : option Request :=
  if String.eqb prefix "" then Some r
  else
    let p := TrimPrefix (Path r) prefix in
    let rp := TrimPrefix (RawPath r) prefix in
    if (String.length p <? String.length (Path r))%nat
       && (String.eqb (RawPath r) "" || (String.length rp <? String.length (RawPath r))%nat)
    then Some (mkReq (Method r) (URLHost r) p rp (RawQuery r) (ReqHost r) (RemoteAddr r) (Body r) (GetBody r) (retry r))
    else None.
End StripPrefix.

(** ** Facts about segments *)

Definition slash : ascii := "/"%char.

(** A path segment that resolution keeps. *)
Definition normal (seg : string) : Prop := seg <> "" /\ seg <> "." /\ seg <> "..".

Definition no_sep (sep : ascii) (s : string) : Prop := sep ∉ String.list_ascii_of_string s.

Lemma list_ascii_app a b :
  String.list_ascii_of_string (a +:+ b) = String.list_ascii_of_string a ++ String.list_ascii_of_string b.
Proof. induction a as [|c a IH]; [done|]. exact (f_equal (cons c) IH). Qed.

Lemma Split_ne sep s : Split sep s <> [].
Proof. destruct s as [|c s]; cbn [Split]; [done|]. destruct (Ascii.eqb c sep); [done|]. by destruct (Split sep s). Qed.

Lemma Split_app sep a b : Split sep (a +:+ String sep b) = Split sep a ++ Split sep b.
Proof.
  induction a as [|c a IH].
  - change ("" +:+ String sep b) with (String sep b). cbn [Split]. by rewrite Ascii.eqb_refl.
  - rewrite append_cons. cbn [Split]. rewrite IH. destruct (Ascii.eqb c sep); [done|].
    destruct (Split sep a) as [|p ps] eqn:E; [by apply Split_ne in E|done].
Qed.

Lemma Split_no_sep sep s : Forall (no_sep sep) (Split sep s).
Proof.
  induction s as [|c s IH]; cbn [Split].
  - constructor; [|done]. apply not_elem_of_nil.
  - destruct (Ascii.eqb c sep) eqn:E; [constructor; [apply not_elem_of_nil|done]|].
    apply Ascii.eqb_neq in E. destruct (Split sep s) as [|p ps].
    + constructor; [|done]. unfold no_sep. cbn. set_solver.
    + apply Forall_cons in IH as [Hp Hps]. constructor; [|done]. unfold no_sep in *. cbn. set_solver.
Qed.

Lemma Split_one sep s : no_sep sep s -> Split sep s = [s].
Proof.
  induction s as [|c s IH]; [done|]. unfold no_sep. cbn. intros H.
  rewrite IH by (unfold no_sep; set_solver).
  destruct (Ascii.eqb c sep) eqn:E; [|done]. apply Ascii.eqb_eq in E. set_solver.
Qed.

Lemma Split_Join segs : segs <> [] -> Forall (no_sep slash) segs -> Split slash (Join "/" segs) = segs.
Proof.
  intros Hne H. induction H as [|s segs Hs H IH]; [done|]. destruct segs as [|s' segs]; [by apply Split_one|].
  change (Join "/" (s :: s' :: segs)) with (s +:+ String slash (Join "/" (s' :: segs))).
  rewrite Split_app, Split_one by done. rewrite IH by done. done.
Qed.

Lemma HasSuffix_app c a b : b <> "" -> HasSuffix c (a +:+ b) = HasSuffix c b.
Proof.
  intros Hb. unfold HasSuffix. rewrite list_ascii_app, last_app.
  destruct b as [|x b]; [done|]. cbn [String.list_ascii_of_string].
  destruct (last (x :: String.list_ascii_of_string b)) eqn:E; [done|]. by apply last_None in E.
Qed.

Lemma HasSuffix_inv c s : HasSuffix c s = true -> exists s0, s = s0 +:+ String c "".
Proof.
  induction s as [|x s IH]; [done|]. destruct s as [|y s].
  - unfold HasSuffix. cbn. intros <-%Ascii.eqb_eq. by exists "".
  - change (String x (String y s)) with (String x "" +:+ String y s). rewrite HasSuffix_app by done.
    intros [s0 E]%IH. exists (String x s0). cbn. by rewrite E.
Qed.

Lemma HasSuffix_no_sep c s : no_sep c s -> HasSuffix c s = false.
Proof.
  intros H. destruct (HasSuffix c s) eqn:E; [|done]. apply HasSuffix_inv in E as [s0 ->].
  destruct H. rewrite list_ascii_app. cbn. set_solver.
Qed.

Lemma HasSuffix_Join segs :
  segs <> [] -> Forall (no_sep slash) segs -> Forall normal segs -> HasSuffix slash (Join "/" segs) = false.
Proof.
  intros Hne H Hn. induction H as [|s segs Hs H IH]; [done|]. apply Forall_cons in Hn as [Hs0 Hn].
  destruct segs as [|s' segs]; [by apply HasSuffix_no_sep|].
  change (Join "/" (s :: s' :: segs)) with (s +:+ ("/" +:+ Join "/" (s' :: segs))).
  rewrite <- append_assoc, HasSuffix_app; [by apply IH|].
  intros E. apply Forall_cons in Hn as [[Hs' _] _]. cbn in E. destruct segs; [done|].
  by destruct s'.
Qed.

Lemma resolve1_normal out seg : Forall normal out -> Forall normal (resolve1 true out seg).
Proof.
  intros H. unfold resolve1. destruct (String.eqb_spec seg ""); [done|].
  destruct (String.eqb_spec seg "."); [done|]. destruct (String.eqb_spec seg "..").
  - destruct H as [|top below [_ [_ Ht]] Hb]; [done|]. destruct (String.eqb_spec top ".."); done.
  - cbn. by constructor.
Qed.

Lemma resolve1_no_sep r out seg :
  no_sep slash seg -> Forall (no_sep slash) out -> Forall (no_sep slash) (resolve1 r out seg).
Proof.
  intros Hs H. unfold resolve1. destruct (_ || _); [done|]. destruct (String.eqb_spec seg "..") as [->|].
  - destruct H as [|top below Ht Hb]; [by destruct r; repeat constructor|].
    destruct (String.eqb top ".."); [|done]. by repeat constructor.
  - by constructor.
Qed.

Lemma resolve_ok segs :
  Forall (no_sep slash) segs -> Forall normal (resolve true segs) /\ Forall (no_sep slash) (resolve true segs).
Proof.
  intros H. unfold resolve. rewrite !Forall_reverse.
  assert (forall out, Forall normal out -> Forall (no_sep slash) out ->
    Forall normal (foldl (resolve1 true) out segs) /\ Forall (no_sep slash) (foldl (resolve1 true) out segs)) as G.
  { induction H as [|s segs Hs H IH]; intros out H1 H2; [done|]. cbn.
    apply IH; [by apply resolve1_normal|by apply resolve1_no_sep]. }
  by apply G.
Qed.

Lemma foldl_normal r out segs : Forall normal segs -> foldl (resolve1 r) out segs = reverse segs ++ out.
Proof.
  intros H. revert out. induction H as [|s segs (H1 & H2 & H3) H IH]; intros out; [done|].
  cbn [foldl]. rewrite IH, reverse_cons, <- app_assoc. unfold resolve1.
  apply String.eqb_neq in H1, H2, H3. by rewrite H1, H2, H3.
Qed.

Lemma foldl_empty r out : foldl (resolve1 r) out [""] = out.
Proof. done. Qed.

Module UpstreamFacts.
Import Upstream.

(** ** The path that is sent *)

Definition segments (p : string) : list string := resolve true (Split slash p).

Lemma segments_ok p : Forall normal (segments p) /\ Forall (no_sep slash) (segments p).
Proof. apply resolve_ok, Split_no_sep. Qed.

(** A request path as a server receives it. *)
Definition rooted (p : string) : Prop := p = "" \/ HasPrefix "/" p = true.

Definition joined (R : list string) (t : string) : string := Join "/" R +:+ t.

Lemma rooted_cons p : HasPrefix "/" p = true -> exists p', p = String slash p'.
Proof. destruct p as [|c p]; [done|]. cbn -[Ascii.eqb]. intros [E%Ascii.eqb_eq _]%andb_true_iff. exists p. by subst. Qed.

(** The cleaned path of a rooted one: a slash, the resolved segments, and the
    trailing slash if there was one. *)
Lemma cleanRequestPath_spec p :
  rooted p ->
  cleanRequestPath p =
  String slash (joined (segments p)
    (if bool_decide (segments p <> []) && HasSuffix slash p then "/" else "")).
Proof.
  intros [->|Hp]; [done|]. destruct (rooted_cons p Hp) as [p' E].
  unfold cleanRequestPath, Clean, joined. rewrite Hp.
  assert (String.eqb p "" = false) as -> by (by subst).
  change (resolve true (Split "/"%char p)) with (segments p).
  change (HasSuffix "/"%char) with (HasSuffix slash).
  assert (forall x, String.eqb ("/" +:+ x) "." = false) as Hdot by done. rewrite Hdot.
  destruct (segments_ok p) as [Hn Hs].
  destruct (bool_decide_reflect (segments p <> [])) as [Hne|Hnil].
  - rewrite HasSuffix_app, HasSuffix_Join; [|done..|].
    + cbn [negb andb]. rewrite andb_true_r. destruct (HasSuffix slash p); [done|].
      by rewrite append_nil_r.
    + intros Ej. pose proof (Split_Join _ Hne Hs) as Es. rewrite Ej in Es. cbn in Es. rewrite <- Es in Hn.
      apply Forall_cons in Hn as [[Hx _] _]. done.
  - destruct (segments p); [|by destruct Hnil]. cbn. by rewrite andb_false_r.
Qed.

Lemma Split_joined p t :
  t = "" \/ t = "/" ->
  exists more, Split slash (joined (segments p) t) = segments p ++ more /\ Forall (eq "") more.
Proof.
  destruct (segments_ok p) as [_ Hs]. unfold joined. intros Ht.
  destruct (decide (segments p = [])) as [->|Hne].
  - destruct Ht as [->| ->]; eexists; (split; [reflexivity|by repeat constructor]).
  - destruct Ht as [->| ->].
    + exists []. rewrite append_nil_r, Split_Join, app_nil_r by done. done.
    + exists [""]. change "/" with (String slash ""). rewrite Split_app.
      rewrite Split_Join by done. split; [done|by repeat constructor].
Qed.

Lemma foldl_empties r out more : Forall (eq "") more -> foldl (resolve1 r) out more = out.
Proof. intros H. revert out. induction H as [|x more <- H IH]; intros out; [done|]. apply IH. Qed.

(** Joining a rooted path to a target: below the target, and no dot segments. *)
Lemma join_rooted a p :
  rooted p ->
  let q := singleJoiningSlash a (cleanRequestPath p) in
  segments q = segments a ++ segments p /\
  exists a0 rest, (a = a0 \/ a = a0 +:+ "/") /\ q = a0 +:+ "/" +:+ rest /\
    Forall (fun seg => seg <> "." /\ seg <> "..") (Split slash rest).
Proof.
  intros Hp q. unfold q. rewrite cleanRequestPath_spec by done.
  set (t := if _ && _ then "/" else ""). set (rest := joined (segments p) t).
  assert (t = "" \/ t = "/") as Ht by (unfold t; destruct (_ && _); auto).
  destruct (Split_joined p t Ht) as (more & Es & Hm). fold rest in Es.
  assert (exists a0, (a = a0 \/ a = a0 +:+ "/") /\
    singleJoiningSlash a (String slash rest) = a0 +:+ String slash rest) as (a0 & Ha & Eq).
  { unfold singleJoiningSlash. change (HasPrefix "/" (String slash rest)) with true.
    destruct (HasSuffix "/"%char a) eqn:E; cbn [andb negb].
    - apply HasSuffix_inv in E as [a0 ->]. exists a0. split; [by right|]. by rewrite append_assoc.
    - exists a. split; [by left|done]. }
  rewrite Eq. destruct (segments_ok p) as [Hn _]. split.
  - unfold segments at 1, resolve. rewrite Split_app, Es, !foldl_app, (foldl_empties _ _ _ Hm),
      (foldl_normal _ _ _ Hn), reverse_app, reverse_involutive. f_equal.
    destruct Ha as [->| ->]; [done|]. unfold segments, resolve.
    change "/" with (String slash ""). by rewrite Split_app, foldl_app.
  - exists a0, rest. split; [done|]. split; [done|]. rewrite Es. apply Forall_app. split.
    + eapply Forall_impl; [exact Hn|]. by intros x (_ & ? & ?).
    + eapply Forall_impl; [exact Hm|]. by intros x <-.
Qed.

(** Whatever dot segments the request path has, the path sent upstream resolves
    to the configured target path followed by the request's own resolved segments, and
    what is appended to the target has no dot segment left: a request whose path
    starts with a slash cannot escape the configured prefix. *)
Theorem up_path_confined m target r :
  rooted (Path r) ->
  let q := Path (Director m target r) in
  segments q = segments target.1 ++ segments (Path r) /\
  exists a0 rest, (target.1 = a0 \/ target.1 = a0 +:+ "/") /\ q = a0 +:+ "/" +:+ rest /\
    Forall (fun seg => seg <> "." /\ seg <> "..") (Split slash rest).
Proof. intros Hp. by apply join_rooted. Qed.

(** ** The retry loop *)

(** ** The documented policy *)

(** A request as a transport leaves it: the target resolved, the body read. *)
Definition spent (q : Request) (t : trip) : Request :=
  set_body (match Body q with Some _ => Some (left t) | None => None end) (set_url_host (thost t) q).

(** Who may be retried: what the operator's policy says of the request the transport
    left, or, without one, an idempotent method whose body is absent or can be
    rewound. *)
Definition eligible (m : Upstream) (q : Request) (t : trip) : Prop :=
  match RetryPolicy m with
  | Some f => f (spent q t) = true
  | None => Method q ∈ ["GET"; "HEAD"; "OPTIONS"; "TRACE"] /\ (Body q = None \/ GetBody q <> None)
  end.

(** The next request sent is the last one again, with the next attempt number and a
    fresh body where there is one to get. *)
Definition resent (n : Z) (q : Request) (t : trip) (q' : Request) : Prop :=
  Method q' = Method q /\ GetBody q' = GetBody q /\ retry q' = Some (n + 1) /\
  Body q' = match GetBody q with Some (Some b) => Some b | _ => Body (spent q t) end.

(** What is to happen from the [n]-th attempt, which sends [q], on: the state of the
    transport before and after, the events and the reply. *)
Inductive trace {W} (transport : W -> Request -> W * trip) (done : Z -> bool) (m : Upstream)
    : Z -> Request -> W -> list event -> W -> reply -> Prop :=
  | trace_served n q w w' t resp :
      transport w q = (w', t) -> result t = inl resp ->
      trace transport done m n q w [Sent q; Observed (mkInfo (thost t) (StatusCode resp) None n)] w' (Served resp)
  | trace_gone n q w w' t e :
      transport w q = (w', t) -> result t = inr e ->
      e = ErrCanceled \/ eligible m q t /\ n < Retries m /\ done n = true ->
      trace transport done m n q w [Sent q; Observed (mkInfo (thost t) 0 (Some e) n)] w' Gone
  | trace_failed n q w w' t e :
      transport w q = (w', t) -> result t = inr e -> e <> ErrCanceled ->
      ~ eligible m q t \/ Retries m <= n \/ done n = false /\ GetBody q = Some None ->
      trace transport done m n q w [Sent q; Observed (mkInfo (thost t) 0 (Some e) n)] w'
        (ErrorPage (if decide (e = ErrUnavailable) then 503 else 502))
  | trace_retry n q w w1 t e q' evs w' a :
      transport w q = (w1, t) -> result t = inr e -> e <> ErrCanceled ->
      eligible m q t -> n < Retries m -> done n = false -> GetBody q <> Some None ->
      resent n q t q' -> trace transport done m (n + 1) q' w1 evs w' a ->
      trace transport done m n q w
        (Sent q :: Observed (mkInfo (thost t) 0 (Some e) n) :: Waited (i64 (BackoffFactor m * 2 ^ n)) :: evs) w' a.

Definition sent (evs : list event) : list Request :=
  omap (fun e => match e with Sent r => Some r | _ => None end) evs.

Lemma error_page_spec e : error_page e = ErrorPage (if decide (e = ErrUnavailable) then 503 else 502).
Proof. by destruct e. Qed.

Lemma trace_bound {W} (transport : W -> Request -> W * trip) done m n q w evs w' a :
  trace transport done m n q w evs w' a -> 1 <= Z.of_nat (length (sent evs)) <= Z.max 0 (Retries m - n) + 1.
Proof. induction 1; cbn [sent omap list_omap length] in *; try fold (sent evs) in *; lia. Qed.

Lemma eligible_spec m q t : retryable m (spent q t) = true <-> eligible m q t.
Proof.
  unfold retryable, eligible, canRetry, canMethodRetry. destruct (RetryPolicy m) as [f|]; [done|].
  change (Method (spent q t)) with (Method q). change (GetBody (spent q t)) with (GetBody q).
  assert (Body (spent q t) = None <-> Body q = None) as HB by (cbn; by destruct (Body q)).
  rewrite !elem_of_cons, elem_of_nil.
  destruct (String.eqb_spec (Method q) "GET"), (String.eqb_spec (Method q) "HEAD"),
    (String.eqb_spec (Method q) "OPTIONS"), (String.eqb_spec (Method q) "TRACE"); cbn [negb orb];
    try (split; [done|naive_solver]);
    (destruct (Body (spent q t)), (GetBody q); naive_solver).
Qed.

Lemma backoff_wait_spec m n : 0 <= n -> backoff_wait m n = i64 (BackoffFactor m * 2 ^ n).
Proof. intros Hn. unfold backoff_wait. rewrite Z.shiftl_1_l. apply i64_mul_r. Qed.

Section Runs.
Context {W : Type} (transport : W -> Request -> W * trip) (done : Z -> bool).

Lemma handler_cases m r e :
  match ErrorHandler done m r e with
  | inl Gone => e = ErrCanceled \/
      retryable m r = true /\ default 0 (retry r) < Retries m /\ done (default 0 (retry r)) = true
  | inl a => e <> ErrCanceled /\ a = error_page e /\
      (retryable m r <> true \/ Retries m <= default 0 (retry r) \/
       done (default 0 (retry r)) = false /\ GetBody r = Some None)
  | inr (r', d) =>
      e <> ErrCanceled /\ default 0 (retry r) < Retries m /\ done (default 0 (retry r)) = false /\
      retryable m r = true /\ d = backoff_wait m (default 0 (retry r)) /\
      (GetBody r = None /\ r' = set_retry (default 0 (retry r) + 1) r \/
       exists b, GetBody r = Some (Some b) /\ r' = set_retry (default 0 (retry r) + 1) (set_body (Some b) r))
  end.
Proof.
  destruct (decide (e = ErrCanceled)) as [->|He]; [by left|].
  assert (exists code, error_page e = ErrorPage code) as [code Ep] by (destruct e; by eexists).
  replace (ErrorHandler done m r e) with
    (if retryable m r then
       if default 0 (retry r) <? Retries m then
         if done (default 0 (retry r)) then inl Gone
         else match GetBody r with
              | Some None => inl (error_page e)
              | Some (Some b) => inr (set_retry (default 0 (retry r) + 1) (set_body (Some b) r),
                                      backoff_wait m (default 0 (retry r)))
              | None => inr (set_retry (default 0 (retry r) + 1) r, backoff_wait m (default 0 (retry r)))
              end
       else inl (error_page e)
     else inl (error_page e)) by (by destruct e).
  rewrite Ep. destruct (retryable m r); [|by auto]. destruct (_ <? _) eqn:En; bool_prop; [|by auto].
  destruct (done _); [by right|]. destruct (GetBody r) as [[b|]|]; eauto 10.
Qed.

(** The request an attempt sends. *)
Definition outgoing (m : Upstream) (target : string * string) (r : Request) : Request :=
  set_url_host "" (Director m target r).

(** The handler always answers within [Retries + 1] attempts. *)
Lemma proxy_trace fuel m target w r :
  0 <= default 0 (retry r) -> Z.max 0 (Retries m - default 0 (retry r)) < Z.of_nat fuel ->
  exists w' evs a, proxy transport done fuel m target w r = (w', evs, Some a) /\
    trace transport done m (default 0 (retry r)) (outgoing m target r) w evs w' a.
Proof.
  revert w r. induction fuel as [|fuel IH]; intros w r H0 Hf; [lia|]. cbn [proxy]. unfold RoundTrip.
  fold (outgoing m target r). set (q := outgoing m target r). change (retry r) with (retry q) in *.
  destruct (transport w q) as [w1 t] eqn:Et. fold (spent q t). destruct (result t) as [resp|e] eqn:Er.
  { do 3 eexists. split; [done|]. by apply trace_served. }
  pose proof (handler_cases m (spent q t) e) as H.
  change (retry (spent q t)) with (retry q) in H. change (GetBody (spent q t)) with (GetBody q) in H.
  destruct (ErrorHandler done m (spent q t) e) as [[resp| |code]|[r2 d]]; rewrite eligible_spec in H.
  - destruct H as (_ & H & _). by destruct e.
  - do 3 eexists. split; [done|]. by eapply trace_gone.
  - destruct H as (He & -> & Hn). do 3 eexists. split; [done|]. rewrite error_page_spec. by eapply trace_failed.
  - destruct H as (He & Hn & Hd & Hel & -> & Hr2). rewrite backoff_wait_spec by done.
    assert (default 0 (retry r2) = default 0 (retry q) + 1) as En by (by destruct Hr2 as [[_ ->]|(b & _ & ->)]).
    destruct (IH w1 r2) as (w' & evs & a & -> & Ht); [lia..|]. rewrite En in Ht.
    do 3 eexists. split; [done|]. eapply trace_retry; [done..| | |exact Ht].
    + by destruct Hr2 as [[-> _]|(b & -> & _)].
    + destruct Hr2 as [[Hg ->]|(b & Hg & ->)]; (split_and!; [done..|]); by rewrite Hg.
Qed.

(** A property of the requests that are sent, by a property of the requests the
    reverse proxy is called with. *)
Lemma proxy_sent (P : nat -> Request -> Prop) m target :
  (forall k r w, P k r ->
     match RoundTrip transport w (Director m target r) with
     | (_, r1, inr e, _) =>
         forall r2 d, ErrorHandler done m r1 e = inr (r2, d) -> P (S k) r2
     | _ => True
     end) ->
  forall fuel k w r j r', P k r -> sent (proxy transport done fuel m target w r).1.2 !! j = Some r' ->
  exists r0, P (k + j)%nat r0 /\ r' = set_url_host "" (Director m target r0).
Proof.
  intros HP fuel. induction fuel as [|fuel IH]; intros k w r j r' Hr; [done|].
  specialize (HP k r w Hr). cbn [proxy]. unfold RoundTrip in *.
  destruct (transport w _) as [w1 t]. destruct (result t) as [resp|e].
  { destruct j as [|[|]]; [|done..]. intros [= <-]. exists r. by rewrite Nat.add_0_r. }
  destruct (ErrorHandler done m _ e) as [a|[r2 d]].
  { destruct j as [|[|]]; [|done..]. intros [= <-]. exists r. by rewrite Nat.add_0_r. }
  specialize (HP r2 d eq_refl). specialize (IH (S k) w1 r2).
  destruct (proxy transport done fuel m target w1 r2) as [[w2 evs] a]. destruct j as [|j].
  - intros [= <-]. exists r. by rewrite Nat.add_0_r.
  - cbn. intros Hj. destruct (IH j r' HP Hj) as (r0 & H0 & ->). exists r0. by rewrite Nat.add_succ_r.
Qed.

Lemma rewinds_step m target body get :
  RetryPolicy m = None -> (forall b, get = Some (Some b) -> body = Some b) ->
  forall (k : nat) r w, Body r = body /\ GetBody r = get ->
    match RoundTrip transport w (Director m target r) with
    | (_, r1, inr e, _) =>
        forall r2 d, ErrorHandler done m r1 e = inr (r2, d) -> Body r2 = body /\ GetBody r2 = get
    | _ => True
    end.
Proof.
  intros Hm Hb k r0 w0 [H1 H2]. unfold RoundTrip. destruct (transport w0 _) as [w1 t].
  destruct (result t) as [|e]; [done|]. set (r1 := set_body _ _). intros r2 d E.
  pose proof (handler_cases m r1 e) as H. rewrite E in H. destruct H as (_ & _ & _ & Hr & _ & H).
  assert (GetBody r1 = get) as Eg by done.
  unfold retryable in Hr. rewrite Hm in Hr. unfold canRetry in Hr. rewrite Eg in *.
  destruct H as [[Hg ->]|(b & Hg & ->)]; cbn [set_retry set_body Body GetBody]; (split; [|done]).
  - rewrite Hg in Hr. destruct (canMethodRetry _); [|done]. cbn in Hr |- *.
    rewrite H1 in Hr |- *. by destruct body.
  - symmetry. by apply Hb.
Qed.
End Runs.


(** Under the default retry rule every attempt carries the whole body: it is
    rewound before each re-attempt, and a request that cannot be rewound is sent once. *)
Theorem up_full_body {W} (transport : W -> Request -> W * trip) done m target fuel w r r' :
  RetryPolicy m = None -> (forall b, GetBody r = Some (Some b) -> Body r = Some b) ->
  r' ∈ sent (proxy transport done fuel m target w r).1.2 -> Body r' = Body r.
Proof.
  intros Hm Hb [j Hj]%list_elem_of_lookup.
  destruct (proxy_sent transport done (fun _ r0 => Body r0 = Body r /\ GetBody r0 = GetBody r) m target
    (rewinds_step transport done m target (Body r) (GetBody r) Hm Hb) fuel 0 w r j r' (conj eq_refl eq_refl) Hj) as (r0 & [H1 _] & ->). done.
Qed.

Lemma director_rooted m target r :
  HasPrefix "/" target.1 = true -> rooted (Path r) -> rooted (Path (Director m target r)).
Proof.
  intros Ht Hr. right. destruct (join_rooted target.1 (Path r) Hr) as (_ & a0 & rest & Ha & E & _).
  change (Path (Director m target r)) with (singleJoiningSlash target.1 (cleanRequestPath (Path r))).
  rewrite E. destruct a0 as [|c a0]; [done|].
  destruct Ha as [Ha|Ha]; rewrite Ha in Ht; exact Ht.
Qed.

(** C15: The error handler re-enters the reverse proxy with the request the director
    already rewrote, so the n-th re-attempt of a request has the target prefix n more
    times: attempts agree on the path when the configured path is the root, and a
    retry under a prefix goes to a doubled prefix. *)
Theorem up_retry_paths {W} (transport : W -> Request -> W * trip) done m target fuel w r n r' :
  HasPrefix "/" target.1 = true -> rooted (Path r) ->
  sent (proxy transport done fuel m target w r).1.2 !! n = Some r' ->
  segments (Path r') = concat (replicate (S n) (segments target.1)) ++ segments (Path r).
Proof.
  intros Ht Hr Hn.
  set (P := fun (k : nat) r0 => rooted (Path r0) /\
    segments (Path r0) = concat (replicate k (segments target.1)) ++ segments (Path r)).
  assert (forall k r0, P k r0 -> P (S k) (Director m target r0)) as HD.
  { intros k r0 [H1 H2]. split; [by apply director_rooted|].
    destruct (join_rooted target.1 (Path r0) H1) as [E _].
    etransitivity; [exact E|]. rewrite H2. cbn. by rewrite app_assoc. }
  destruct (proxy_sent transport done P m target) with (fuel := fuel) (k := 0%nat) (w := w) (r := r) (j := n) (r' := r')
    as (r0 & HP & ->); [|done|done|by apply HD in HP as [_ HP]].
  intros k r0 w0 HP. unfold RoundTrip. destruct (transport w0 _) as [w1 t].
  destruct (result t) as [|e]; [done|]. set (r1 := set_body _ _). intros r2 d E.
  pose proof (handler_cases done m r1 e) as H. rewrite E in H. destruct H as (_ & _ & _ & _ & _ & H).
  assert (Path r2 = Path (Director m target r0)) as Ep by (by destruct H as [[_ ->]|(b & _ & ->)]).
  unfold P. rewrite Ep. by apply HD.
Qed.

(** ** Witnesses *)

Definition demo_request (path : string) : Request :=
  mkReq "GET" "" path "" "q=1" "example.com" "" (Some "data") (Some (Some "data")) None.

(** A transport that fails [n] times and then answers. *)
Definition demo_transport (n : nat) (r : Request) : nat * trip :=
  match n with
  | O => (O, mkTrip "b:80" "" (inl (mkResponse 200 ∅ None)))
  | S n => (n, mkTrip "a:80" "" (inr (ErrOther "refused")))
  end.

Definition demo_run :=
  proxy demo_transport (fun _ => false) 4 New ("/api", "") 2%nat (demo_request "/x/../v1/").

Lemma up_path_confined_witness :
  Path (Director New ("/api", "") (demo_request "/../../etc/./passwd")) = "/api/etc/passwd" /\
  segments "/api/etc/passwd" = ["api"] ++ segments "/../../etc/./passwd".
Proof.
  split; [by vm_compute|].
  exact (proj1 (up_path_confined New ("/api", "") (demo_request "/../../etc/./passwd") ltac:(by right))).
Defined.


(** A failed POST is sent once; a failed GET goes on until the transport answers. *)
Example up_retries_only_idempotent :
  let post := mkReq "POST" "" "/" "" "" "h" "" None None None in
  let get := mkReq "GET" "" "/" "" "" "h" "" None None None in
  let run r := proxy demo_transport (fun _ => false) 4 New ("/", "") 2%nat r in
  (length (sent (run post).1.2), (run post).2) = (1%nat, Some (ErrorPage 502)) /\
  (length (sent (run get).1.2), (run get).2) = (3%nat, Some (Served (mkResponse 200 ∅ None))).
Proof. split; vm_compute; reflexivity. Qed.

Lemma up_full_body_witness :
  length (sent demo_run.1.2) = 3%nat /\ Forall (fun r' => Body r' = Some "data") (sent demo_run.1.2).
Proof.
  split; [by vm_compute|]. unfold demo_run. apply Forall_forall. intros r' Hr'.
  refine (up_full_body demo_transport (fun _ => false) New ("/api", "") 4 2%nat (demo_request "/x/../v1/") r'
    eq_refl _ Hr'). by intros b [= <-].
Defined.

Lemma up_retry_paths_witness :
  Path <$> sent demo_run.1.2 = ["/api/v1/"; "/api/api/v1/"; "/api/api/api/v1/"] /\
  forall r', sent demo_run.1.2 !! 1%nat = Some r' -> segments (Path r') = ["api"; "api"; "v1"].
Proof.
  split; [by vm_compute|]. unfold demo_run. intros r' Hr'.
  exact (up_retry_paths demo_transport (fun _ => false) New ("/api", "") 4 2%nat (demo_request "/x/../v1/") 1 r'
    eq_refl (or_intror eq_refl) Hr').
Defined.

(** A path that the prefix-stripping middleware leaves without its leading slash
    is outside what the director resolves: the request escapes the configured target
    path. *)
Theorem up_stripped_path_escapes :
  exists r r', rooted (Path r) /\ StripPrefix.ServeHandler "/api/" r = Some r' /\
    Path (Director New ("/base", "") r') = "/base/../secret" /\
    segments (Path (Director New ("/base", "") r')) = ["secret"].
Proof.
  exists (demo_request "/api/../secret"). eexists. split; [by right|].
  split; [vm_compute; reflexivity|]. split; vm_compute; reflexivity.
Qed.

(** With a custom [RetryPolicy] and no [GetBody], a re-attempt sends the consumed
    body. *)
Lemma up_policy_resends_consumed_body :
  let m := mk (Some (fun _ => true)) "" "/" 3 0 in
  let r := mkReq "POST" "" "/" "" "" "h" "" (Some "data") None None in
  Body <$> sent (proxy demo_transport (fun _ => false) 4 m ("/", "") 1%nat r).1.2 = [Some "data"; Some ""].
Proof. vm_compute. reflexivity. Qed.

End UpstreamFacts.
