(* ===== verification/Hedging.v ===== *)
(** * pkg/upstream: hedged requests

    [src/pkg/upstream/hedging.go].  One hedged request is a race: the supervisor's
    [select] loop, the goroutine of each leg, the hedge timer, the client's context
    and the reaper take steps in any order.  What the supervisor does on each case
    of the [select] is a function of the code; the relation [step] says when it, the
    legs and the others run. *)

From S2P Require Import Prelude Http GoStrings RoundRobin UpstreamHandler.

Module Hedging.

Definition defaultMaxHedge : Z := 1.

Record HedgingLoadBalancer := mk {
  HedgeDelay : Z;
  MaxHedge : Z;
  HedgeOnError : bool;
  IsHedgeable : option (Upstream.Request -> bool);
  IsWinner : option (option Response -> option error -> bool);
}.

Definition NewHedgingLoadBalancer : HedgingLoadBalancer := mk 0 defaultMaxHedge true None None.

Definition init (l : HedgingLoadBalancer) : HedgingLoadBalancer :=
  mk (HedgeDelay l) (if MaxHedge l <=? 0 then defaultMaxHedge else MaxHedge l) (HedgeOnError l)
    (IsHedgeable l) (IsWinner l).

Definition hedgeable (l : HedgingLoadBalancer) (r : Upstream.Request) : bool :=
  match IsHedgeable l with
  | Some f => f r
  | None =>
      if negb (Upstream.canMethodRetry (Upstream.Method r)) then false
      else if bool_decide (is_Some (Upstream.Body r)) then false
      else negb (bool_decide (is_Some (Upstream.retry r)))
  end.

Definition won (l : HedgingLoadBalancer) (resp : option Response) (err : option error) : bool :=
  match IsWinner l with
  | Some f => f resp err
  | None => bool_decide (err = None) && bool_decide (is_Some resp)
  end.

(** [RoundTrip] races the request; otherwise it is one plain call of [Next]. *)
Definition races (l : HedgingLoadBalancer) (r : Upstream.Request) : bool :=
  let l := init l in
  negb ((HedgeDelay l <=? 0) || (MaxHedge l <=? 0) || negb (hedgeable l r)).

Record hedgeResult := mkResult {
  resp : option Response;
  err : option error;
  host : string;
  idx : nat;
}.

(** [safeRoundTrip]: what a leg publishes, with a panic of the transport as an error. *)
Definition safeRoundTrip (o : outcome) : option Response * option error :=
  match o with
  | Returned resp err => (resp, err)
  | Http.Panicked => (None, Some ErrUnavailable)
  end.

Definition leg_result (i : nat) (o : outcome) (host : string) : hedgeResult :=
  let '(resp, err) := safeRoundTrip o in mkResult resp err host i.

(** The hedge timer: running, fired with the value still in its channel, or neither. *)
Inductive tstate := Armed | Pending | Idle.

(** What [RoundTrip] returned: the winner with its body wrapped, an error, or the
    panic of [wrapWinner] on a nil response. *)
Inductive verdict := Won (res : hedgeResult) | Failed (e : error) | Panicked.

(** [running] are the legs in flight, [results] the channel, [legs] the length of
    [cancels], [cancelled] the leg contexts released by a call of their cancel function
    (not those that merely ended with the client's own context), [closed] the bodies
    closed, in order, [taken] the results received by the supervisor or the reaper, in order. *)
Record race := mkRace {
  running : list nat;
  results : list hedgeResult;
  legs : nat;
  cancelled : gset nat;
  closed : list nat;
  launched : Z;
  received : Z;
  firstErr : option error;
  timer : tstate;
  ctxErr : option error;
  reaping : Z;
  urlHost : string;
  ret : option verdict;
  taken : list hedgeResult;
}.

Definition set_timer (t : tstate) (s : race) : race :=
  mkRace (running s) (results s) (legs s) (cancelled s) (closed s) (launched s) (received s) (firstErr s) t
    (ctxErr s) (reaping s) (urlHost s) (ret s) (taken s).
Definition set_launched (n : Z) (s : race) : race :=
  mkRace (running s) (results s) (legs s) (cancelled s) (closed s) n (received s) (firstErr s) (timer s)
    (ctxErr s) (reaping s) (urlHost s) (ret s) (taken s).
Definition set_firstErr (e : option error) (s : race) : race :=
  mkRace (running s) (results s) (legs s) (cancelled s) (closed s) (launched s) (received s) e (timer s)
    (ctxErr s) (reaping s) (urlHost s) (ret s) (taken s).
Definition cancel (i : nat) (s : race) : race :=
  mkRace (running s) (results s) (legs s) ({[i]} ∪ cancelled s) (closed s) (launched s) (received s) (firstErr s)
    (timer s) (ctxErr s) (reaping s) (urlHost s) (ret s) (taken s).
Definition add_closed (i : nat) (s : race) : race :=
  mkRace (running s) (results s) (legs s) (cancelled s) (closed s ++ [i]) (launched s) (received s) (firstErr s)
    (timer s) (ctxErr s) (reaping s) (urlHost s) (ret s) (taken s).
(** A return; the deferred [timer.Stop] runs. *)
Definition set_ret (v : verdict) (s : race) : race :=
  mkRace (running s) (results s) (legs s) (cancelled s) (closed s) (launched s) (received s) (firstErr s) Idle
    (ctxErr s) (reaping s) (urlHost s) (Some v) (taken s).
(** [go reap(results, n)]. *)
Definition start_reap (n : Z) (s : race) : race :=
  mkRace (running s) (results s) (legs s) (cancelled s) (closed s) (launched s) (received s) (firstErr s) (timer s)
    (ctxErr s) n (urlHost s) (ret s) (taken s).
Definition set_urlHost (h : string) (s : race) : race :=
  mkRace (running s) (results s) (legs s) (cancelled s) (closed s) (launched s) (received s) (firstErr s) (timer s)
    (ctxErr s) (reaping s) h (ret s) (taken s).

Definition launch (s : race) : race :=
  mkRace (running s ++ [legs s]) (results s) (S (legs s)) (cancelled s) (closed s) (launched s) (received s)
    (firstErr s) (timer s) (ctxErr s) (reaping s) (urlHost s) (ret s) (taken s).

Definition drainClose (r : option Response) (i : nat) (s : race) : race :=
  match r with
  | Some r => match resp_body r with Some _ => add_closed i s | None => s end
  | None => s
  end.

Section Race.
Context (l : HedgingLoadBalancer).

Definition maxAttempts : Z := i64 (MaxHedge (init l) + 1).

(** The primary is launched and the timer started. *)
Definition start (urlHost : string) : race :=
  set_timer Armed (launch (mkRace [] [] 0 ∅ [] 1 0 None Idle None 0 urlHost None [])).

(** [for j := range cancels { if j != keep { cancels[j]() } }]. *)
Definition cancel_others (keep : option nat) (s : race) : race :=
  foldl (fun s j => if bool_decide (Some j = keep) then s else cancel j s) s (seq 0 (legs s)).

Definition wrapWinner (res : hedgeResult) (s : race) : race :=
  match resp res with
  | None => set_ret Panicked s
  | Some r => match resp_body r with
              | None => set_ret (Won res) (cancel (idx res) s)
              | Some _ => set_ret (Won res) s
              end
  end.

(** One more leg, and the timer again while legs remain. *)
Definition launch_next (s : race) : race :=
  let s := launch s in
  let s := set_launched (i64 (launched s + 1)) s in
  if launched s <? maxAttempts then set_timer Armed s else s.

Definition receive (res : hedgeResult) (rest : list hedgeResult) (s : race) : race :=
  mkRace (running s) rest (legs s) (cancelled s) (closed s) (launched s) (received s) (firstErr s) (timer s)
    (ctxErr s) (reaping s) (urlHost s) (ret s) (taken s ++ [res]).

(** [case res := <-results]. *)
Definition on_result (res : hedgeResult) (rest : list hedgeResult) (s : race) : race :=
  let s := receive res rest s in
  let s := mkRace (running s) (results s) (legs s) (cancelled s) (closed s) (launched s) (i64 (received s + 1))
             (firstErr s) (timer s) (ctxErr s) (reaping s) (urlHost s) (ret s) (taken s) in
  if won l (resp res) (err res) then
    let s := cancel_others (Some (idx res)) (set_urlHost (host res) s) in
    wrapWinner res (start_reap (i64 (launched s - received s)) s)
  else
    let s := drainClose (resp res) (idx res) (cancel (idx res) s) in
    let s := match firstErr s with None => set_firstErr (err res) s | Some _ => s end in
    if received s =? maxAttempts then set_ret (Failed (default ErrUnavailable (firstErr s))) s
    else if HedgeOnError l && (launched s <? maxAttempts) then launch_next (set_timer Idle s)
    else s.

(** [case <-timer.C]. *)
Definition on_timer (s : race) : race :=
  let s := set_timer Idle s in
  if launched s <? maxAttempts then launch_next s else s.

(** [case <-r.Context().Done()]. *)
Definition on_done (e : error) (s : race) : race :=
  let s := cancel_others None s in
  set_ret (Failed e) (start_reap (i64 (launched s - received s)) s).

(** One read of [reap]. *)
Definition reap1 (res : hedgeResult) (rest : list hedgeResult) (s : race) : race :=
  drainClose (resp res) (idx res) (start_reap (reaping s - 1) (receive res rest s)).

(** [Close] of the winner's body by the proxy. *)
Definition close_body (i : nat) (s : race) : race := cancel i (add_closed i s).

(** A leg's goroutine publishes its result. *)
Definition publish (res : hedgeResult) (s : race) : race :=
  mkRace (filter (fun j => j <> idx res) (running s)) (results s ++ [res]) (legs s) (cancelled s) (closed s)
    (launched s) (received s) (firstErr s) (timer s) (ctxErr s) (reaping s) (urlHost s) (ret s) (taken s).

Definition set_ctxErr (e : error) (s : race) : race :=
  mkRace (running s) (results s) (legs s) (cancelled s) (closed s) (launched s) (received s) (firstErr s) (timer s)
    (Some e) (reaping s) (urlHost s) (ret s) (taken s).

Definition has_body (res : hedgeResult) : bool :=
  match resp res with Some r => bool_decide (is_Some (resp_body r)) | None => false end.

(** A send waits for room in the channel's buffer; the select takes any ready case;
    the client's context may end at any time. *)
Inductive step : race -> race -> Prop :=
  | S_publish s i o host :
      i ∈ running s -> Z.of_nat (length (results s)) < maxAttempts -> step s (publish (leg_result i o host) s)
  | S_result s res rest : ret s = None -> results s = res :: rest -> step s (on_result res rest s)
  | S_fire s : timer s = Armed -> step s (set_timer Pending s)
  | S_timer s : ret s = None -> timer s = Pending -> step s (on_timer s)
  | S_ctx s e : ctxErr s = None -> step s (set_ctxErr e s)
  | S_done s e : ret s = None -> ctxErr s = Some e -> step s (on_done e s)
  | S_reap s res rest : 0 < reaping s -> results s = res :: rest -> step s (reap1 res rest s)
  | S_close s res : ret s = Some (Won res) -> has_body res = true -> idx res ∉ closed s -> step s (close_body (idx res) s).


End Race.
End Hedging.

Module HedgingFacts.
Import Hedging.

Section Facts.
Context (l : HedgingLoadBalancer) (HM : MaxHedge l < 2 ^ 63 - 1).

Local Abbreviation max := (maxAttempts l).

Lemma max_range : 2 <= max < 2 ^ 63.
Proof.
  unfold maxAttempts, init, defaultMaxHedge. cbn. destruct (MaxHedge l <=? 0) eqn:Em; bool_prop.
  - rewrite i64_small; lia.
  - rewrite i64_small; lia.
Qed.

(** ** Cancelling in bulk *)

Definition with_cancelled (C : gset nat) (s : race) : race :=
  mkRace (running s) (results s) (legs s) C (closed s) (launched s) (received s) (firstErr s) (timer s)
    (ctxErr s) (reaping s) (urlHost s) (ret s) (taken s).

Lemma cancel_fold keep js s :
  foldl (fun s j => if bool_decide (Some j = keep) then s else cancel j s) s js
  = with_cancelled (list_to_set (filter (fun j => Some j <> keep) js) ∪ cancelled s) s.
Proof.
  revert s. induction js as [|j js IH]; intros s; cbn [foldl].
  - destruct s. unfold with_cancelled. cbn. f_equal. set_solver.
  - rewrite IH. case_bool_decide as Ej.
    + by rewrite filter_cons_False by tauto.
    + rewrite filter_cons_True by done. unfold with_cancelled, cancel. cbn. f_equal. set_solver.
Qed.

Lemma cancel_others_eq keep s :
  cancel_others keep s = with_cancelled (list_to_set (filter (fun j => Some j <> keep) (seq 0 (legs s))) ∪ cancelled s) s.
Proof. apply cancel_fold. Qed.

(** ** Legs, results and the timer *)

(** Every launched leg is in flight, in the channel or received; the counters say so;
    a leg still to launch has its timer. *)
Record counted (s : race) : Prop := {
  c_part : running s ++ (idx <$> results s) ++ (idx <$> taken s) ≡ₚ seq 0 (legs s);
  c_launched : launched s = Z.of_nat (legs s);
  c_legs : 1 <= launched s <= max;
  c_open : ret s = None -> received s = Z.of_nat (length (taken s)) /\ reaping s = 0 /\
    (launched s < max -> timer s <> Idle);
  c_ret : ret s <> None -> reaping s = Z.of_nat (length (running s) + length (results s));
}.

Lemma counted_length s :
  counted s -> (length (running s) + length (results s) + length (taken s) = legs s)%nat.
Proof.
  intros H. pose proof (Permutation_length (c_part s H)) as E. rewrite !length_app, !length_fmap, length_seq in E. lia.
Qed.

Lemma remove_perm (i : nat) js : NoDup js -> i ∈ js -> js ≡ₚ i :: filter (fun j => j <> i) js.
Proof.
  intros Hd Hi. apply NoDup_Permutation; [done| |].
  - apply NoDup_cons. split; [|by apply NoDup_filter]. rewrite list_elem_of_filter. tauto.
  - intros x. rewrite elem_of_cons, list_elem_of_filter. destruct (decide (x = i)); naive_solver.
Qed.

Lemma counted_nodup s : counted s -> NoDup (running s ++ (idx <$> results s) ++ (idx <$> taken s)).
Proof. intros H. rewrite (c_part s H). apply NoDup_seq. Qed.

Lemma counted_publish res s : counted s -> idx res ∈ running s -> counted (publish res s).
Proof.
  intros H Hi. pose proof (counted_nodup s H) as Hd. apply NoDup_app in Hd as (Hd & _ & _).
  pose proof (remove_perm _ _ Hd Hi) as Hp. destruct H as [H1 H2 H3 H4 H5].
  split; cbn [publish running results legs taken launched ret reaping received timer]; try done.
  - rewrite fmap_app, <- H1. clear H1 H5. generalize dependent (filter (fun j => j <> idx res) (running s)).
    intros R ->. cbn. rewrite <- app_assoc. cbn. by rewrite !Permutation_middle.
  - intros Hr. rewrite (H5 Hr). rewrite (Permutation_length Hp), length_app. cbn. lia.
Qed.

Lemma part_receive (res : hedgeResult) (R : list nat) rest T n :
  R ++ (idx <$> res :: rest) ++ (idx <$> T) ≡ₚ n -> R ++ (idx <$> rest) ++ (idx <$> T ++ [res]) ≡ₚ n.
Proof.
  intros <-. rewrite fmap_app. cbn. rewrite (app_assoc (idx <$> rest)), <- Permutation_cons_append. done.
Qed.

Lemma counted_launch_next s :
  running s ++ (idx <$> results s) ++ (idx <$> taken s) ≡ₚ seq 0 (legs s) -> launched s = Z.of_nat (legs s) ->
  1 <= launched s < max -> ret s = None -> received s = Z.of_nat (length (taken s)) -> reaping s = 0 ->
  counted (launch_next l s).
Proof.
  intros H1 H2 H3 H4 H5 H6. pose proof max_range. unfold launch_next, launch, set_launched. cbn [launched].
  rewrite i64_small by lia.
  assert (forall t, (launched s + 1 < max -> t <> Idle) -> counted (set_timer t (mkRace (running s ++ [legs s]) (results s) (S (legs s)) (cancelled s) (closed s)
    (launched s + 1) (received s) (firstErr s) (timer s) (ctxErr s) (reaping s) (urlHost s) (ret s) (taken s)))) as HC.
  { intros t Ht. split; cbn; try done.
    - change (0%nat :: seq 1 (legs s)) with (seq 0 (S (legs s))). rewrite seq_S, <- H1. rewrite <- app_assoc. cbn. rewrite <- Permutation_middle. apply Permutation_cons_append.
    - lia.
    - lia. }
  destruct (launched s + 1 <? max) eqn:El; bool_prop; [by apply HC|].
  apply (HC (timer s)). lia.
Qed.

Lemma counted_result s res rest :
  counted s -> ret s = None -> results s = res :: rest -> counted (on_result l res rest s).
Proof.
  intros H Hr Hres. pose proof (counted_length s H) as HL. rewrite Hres in HL. cbn in HL. pose proof max_range.
  destruct H as [H1 H2 H3 H4 H5]. destruct (H4 Hr) as (E1 & E2 & E3). rewrite Hres in H1. apply part_receive in H1.
  assert (i64 (received s + 1) = Z.of_nat (length (taken s ++ [res]))) as E4 by (rewrite length_app, i64_small; cbn; lia).
  unfold on_result. cbv zeta. destruct (won l (resp res) (err res)).
  - rewrite cancel_others_eq. unfold wrapWinner.
    destruct (resp res) as [rp|]; [destruct (resp_body rp)|]; split; cbn in *; try done; rewrite E4; intros _;
      rewrite length_app; cbn; rewrite i64_small; lia.
  - set (s1 := match firstErr _ with None => _ | Some _ => _ end).
    assert (running s1 = running s /\ results s1 = rest /\ taken s1 = taken s ++ [res] /\ legs s1 = legs s /\
      launched s1 = launched s /\ received s1 = Z.of_nat (length (taken s ++ [res])) /\ ret s1 = None /\ reaping s1 = 0 /\ timer s1 = timer s)
      as (F1 & F2 & F3 & F4 & F5 & F6 & F7 & F8 & F9).
    { subst s1. unfold drainClose. destruct (resp res) as [rp|]; [destruct (resp_body rp)|]; cbn; destruct (firstErr s); cbn; done. }
    clearbody s1. destruct (received s1 =? max) eqn:Em; bool_prop;
      [|destruct (HedgeOnError l && (launched s1 <? max)) eqn:Eh; [apply andb_true_iff in Eh as [_ Eh]; bool_prop|]].
    + split; cbn; rewrite ?F1, ?F2, ?F3, ?F4, ?F5, ?F8; try done. intros _. rewrite F6, length_app in Em. cbn in Em. lia.
    + apply counted_launch_next; cbn; rewrite ?F1, ?F2, ?F3, ?F4, ?F5, ?F6, ?F7, ?F8; try done. rewrite F5 in Eh. lia.
    + split; rewrite ?F1, ?F2, ?F3, ?F4, ?F5, ?F6, ?F7, ?F8, ?F9; try done.
Qed.

Lemma counted_timer s : counted s -> ret s = None -> counted (on_timer l s).
Proof.
  intros [H1 H2 H3 H4 H5] Hr. destruct (H4 Hr) as (E1 & E2 & E3). unfold on_timer. cbv zeta.
  destruct (launched (set_timer Idle s) <? max) eqn:El; bool_prop.
  - apply counted_launch_next; try done. cbn in *. lia.
  - split; cbn in *; try done. intros _. split; [done|]. split; [done|]. lia.
Qed.

Lemma counted_done e s : counted s -> ret s = None -> counted (on_done e s).
Proof.
  intros H Hr. pose proof (counted_length s H) as HL. pose proof max_range. destruct H as [H1 H2 H3 H4 H5].
  destruct (H4 Hr) as (E1 & E2 & E3). unfold on_done. rewrite cancel_others_eq. split; cbn; try done.
  intros _. rewrite i64_small; lia.
Qed.

Lemma counted_reap s res rest :
  counted s -> 0 < reaping s -> results s = res :: rest -> counted (reap1 res rest s).
Proof.
  intros [H1 H2 H3 H4 H5] Hr Hres. rewrite Hres in *. apply part_receive in H1.
  assert (ret s <> None) as Hn by (intros E; destruct (H4 E) as (_ & ? & _); lia).
  assert (counted (start_reap (reaping s - 1) (receive res rest s))) as HC.
  { split; cbn; try done. intros _. rewrite (H5 Hn). cbn. lia. }
  unfold reap1, drainClose. destruct (resp res) as [rp|]; [destruct (resp_body rp)|]; try done.
  destruct HC as [G1 G2 G3 G4 G5]. by split.
Qed.

Lemma counted_step s s' : step l s s' -> counted s -> counted s'.
Proof.
  intros Hs HC. destruct Hs.
  - apply counted_publish; [done|]. unfold leg_result. by destruct (safeRoundTrip o).
  - by apply counted_result.
  - destruct HC as [G1 G2 G3 G4 G5]. split; cbn; try done. intros Hr. destruct (G4 Hr) as (? & ? & _). done.
  - by apply counted_timer.
  - destruct HC. by split.
  - by apply counted_done.
  - by apply counted_reap.
  - destruct HC. by split.
Qed.

Lemma counted_start h : counted (start h).
Proof. pose proof max_range. split; cbn; try done; lia. Qed.

(** ** Contexts, bodies and the result *)

Definition wins (res : hedgeResult) : Prop := won l (resp res) (err res) = true.
Definition loses (res : hedgeResult) : Prop := won l (resp res) (err res) = false.

(** The first error among some results, in order. *)
Definition first_error (rs : list hedgeResult) : option error := head (omap err rs).

(** A context kept for the winner's body until it is closed. *)
Definition held (s : race) (i : nat) : Prop :=
  exists res, ret s = Some (Won res) /\ has_body res = true /\ i = idx res /\ i ∉ closed s.

Record sound (s : race) : Prop := {
  s_first : ret s = None -> Forall loses (taken s) /\ firstErr s = first_error (taken s);
  s_open : ret s = None -> forall i, i ∈ cancelled s <-> i ∈ idx <$> taken s;
  s_cancel : ret s <> None -> ret s <> Some Panicked -> forall i, (i < legs s)%nat -> i ∈ cancelled s <-> ~ held s i;
  s_nodup : NoDup (closed s);
  s_closed i : i ∈ closed s -> exists res, res ∈ taken s /\ idx res = i /\ has_body res = true;
  s_closes res : res ∈ taken s -> has_body res = true -> idx res ∈ closed s \/ ret s = Some (Won res);
  s_won res : ret s = Some (Won res) ->
    exists pre post, taken s = pre ++ res :: post /\ Forall loses pre /\ wins res /\ is_Some (resp res);
  s_failed e : ret s = Some (Failed e) ->
    ctxErr s = Some e \/
    Forall loses (taken s) /\ Z.of_nat (length (taken s)) = max /\ e = default ErrUnavailable (first_error (taken s));
  s_panic : ret s = Some Panicked -> exists res, res ∈ taken s /\ wins res /\ resp res = None;
}.

Definition closed_by (res : hedgeResult) : list nat := if has_body res then [idx res] else [].

Definition with_closed (C : list nat) (s : race) : race :=
  mkRace (running s) (results s) (legs s) (cancelled s) C (launched s) (received s) (firstErr s) (timer s)
    (ctxErr s) (reaping s) (urlHost s) (ret s) (taken s).

Lemma drainClose_eq res s : drainClose (resp res) (idx res) s = with_closed (closed s ++ closed_by res) s.
Proof.
  unfold drainClose, closed_by, has_body, with_closed. destruct s, (resp res) as [rp|]; cbn; [|by rewrite app_nil_r].
  destruct (resp_body rp); cbn; [done|by rewrite app_nil_r].
Qed.

Lemma first_error_snoc rs res :
  first_error (rs ++ [res]) = match first_error rs with None => err res | Some e => Some e end.
Proof.
  unfold first_error. rewrite omap_app. destruct (omap err rs) as [|e es]; [|done]. cbn. by destruct (err res).
Qed.

(** A result received next is not of a leg received before. *)
Lemma counted_fresh s res rest :
  counted s -> results s = res :: rest -> idx res ∉ idx <$> taken s.
Proof.
  intros H Hres. pose proof (counted_nodup s H) as Hd. rewrite Hres in Hd.
  apply NoDup_app in Hd as (_ & _ & Hd). apply NoDup_app in Hd as (_ & Hd & _). apply Hd. left.
Qed.

(** Receiving a loser: its body is closed. *)
Lemma closed_snoc s res :
  sound s -> idx res ∉ idx <$> taken s ->
  NoDup (closed s ++ closed_by res) /\
  (forall i, i ∈ closed s ++ closed_by res -> exists res', res' ∈ taken s ++ [res] /\ idx res' = i /\ has_body res' = true) /\
  (forall res', res' ∈ taken s ++ [res] -> has_body res' = true -> idx res' ∈ closed s ++ closed_by res \/ ret s = Some (Won res')).
Proof.
  intros HS Hf. assert (idx res ∉ closed s) as Hc.
  { intros Hi. destruct (s_closed s HS _ Hi) as (res' & H1 & H2 & _). apply Hf. rewrite <- H2. by apply list_elem_of_fmap_2. }
  unfold closed_by. split_and!.
  - apply NoDup_app. split; [apply HS|]. destruct (has_body res); [|split; [set_solver|constructor]].
    split; [|apply NoDup_singleton]. intros x Hx ->%list_elem_of_singleton. done.
  - intros i [Hi|Hi]%elem_of_app.
    + destruct (s_closed s HS i Hi) as (res' & H1 & H2). exists res'. split; [set_solver|done].
    + destruct (has_body res) eqn:Eb; [|by apply not_elem_of_nil in Hi]. apply list_elem_of_singleton in Hi as ->.
      exists res. split; [set_solver|done].
  - intros res' [H1|H1]%elem_of_app Hb.
    + destruct (s_closes s HS res' H1 Hb); [left; set_solver|by right].
    + apply list_elem_of_singleton in H1 as ->. rewrite Hb. left. set_solver.
Qed.

Lemma sound_launch_next s : ret s = None -> sound s -> sound (launch_next l s).
Proof.
  intros Hr [S1 S2 S3 S4 S5 S6 S7 S8 S9]. unfold launch_next. cbv zeta.
  destruct (launched _ <? max); split; cbn; rewrite ?Hr in *; done.
Qed.

(** The winner's context is kept, every other one is cancelled. *)
Lemma cancel_winner n (C : gset nat) res i :
  (i < n)%nat -> idx res ∉ C ->
  i ∈ list_to_set (filter (fun j => Some j <> Some (idx res)) (seq 0 n)) ∪ C <-> i <> idx res.
Proof.
  intros Hi Hc. rewrite elem_of_union, elem_of_list_to_set, list_elem_of_filter, elem_of_seq. split.
  - intros [[H _]|H] ->; done.
  - intros Hne. left. split; [congruence|lia].
Qed.

Lemma sound_win s res rest :
  counted s -> sound s -> ret s = None -> results s = res :: rest -> wins res -> sound (on_result l res rest s).
Proof.
  intros HC HS Hr Hres Hw. pose proof (counted_fresh s res rest HC Hres) as Hf.
  unfold on_result. cbv zeta. unfold wins in Hw. rewrite Hw, cancel_others_eq. unfold wrapWinner.
  destruct (s_first s HS Hr) as [Hl _].
  assert (idx res ∉ cancelled s) as Hnc by (by rewrite (s_open s HS Hr)).
  assert (idx res ∉ closed s) as Hncl.
  { intros Hi. destruct (s_closed s HS _ Hi) as (res' & H1 & H2 & _). apply Hf. rewrite <- H2. by apply list_elem_of_fmap_2. }
  assert (forall i, i ∈ closed s -> exists res', res' ∈ taken s ++ [res] /\ idx res' = i /\ has_body res' = true) as Hcl.
  { intros i Hi. destruct (s_closed s HS i Hi) as (res' & H1 & H2). exists res'. split; [set_solver|done]. }
  assert (forall res', res' ∈ taken s ++ [res] -> has_body res' = true -> res' <> res -> idx res' ∈ closed s) as Hcs.
  { intros res' [H1| ->%list_elem_of_singleton]%elem_of_app Hb Hne; [|done]. destruct (s_closes s HS res' H1 Hb); [done|congruence]. }
  assert (exists pre post, taken s ++ [res] = pre ++ res :: post /\ Forall loses pre /\ wins res) as Hwon by (by exists (taken s), []).
  destruct (resp res) as [rp|] eqn:Er; [destruct (resp_body rp) as [bd|] eqn:Eb|]; split; cbn; try done; try apply HS.
  - intros _ _ i Hi. rewrite cancel_winner by done. unfold held. cbn. split.
    + intros Hne (res' & [= <-] & _ & ? & _). done.
    + intros Hh ->. apply Hh. exists res. split_and!; [done| |done|done]. unfold has_body. by rewrite Er, Eb.
  - intros res' H1 H2. destruct (decide (idx res' = idx res)) as [Ei|Ei].
    + right. apply elem_of_app in H1 as [H1| ->%list_elem_of_singleton]; [|done].
      destruct Hf. rewrite <- Ei. by apply list_elem_of_fmap_2.
    + left. apply Hcs; [done..|congruence].
  - intros res' [= <-]. destruct Hwon as (pre & post & ? & ? & ?). exists pre, post. by rewrite Er.
  - intros _ _ i Hi. rewrite elem_of_union, elem_of_singleton. rewrite cancel_winner by done. unfold held. cbn. split.
    + intros _ (res' & [= <-] & Hb & _). unfold has_body in Hb. by rewrite Er, Eb in Hb.
    + intros _. destruct (decide (i = idx res)); auto.
  - intros res' H1 H2. left. apply Hcs; [done..|]. intros ->. unfold has_body in H2. by rewrite Er, Eb in H2.
  - intros res' [= <-]. destruct Hwon as (pre & post & ? & ? & ?). exists pre, post. by rewrite Er.
  - intros res' H1 H2. left. apply Hcs; [done..|]. intros ->. unfold has_body in H2. by rewrite Er in H2.
  - intros _. exists res. split_and!; [set_solver|by unfold wins; rewrite Er|done].
Qed.

Lemma sound_lose s res rest :
  counted s -> sound s -> ret s = None -> results s = res :: rest -> loses res -> sound (on_result l res rest s).
Proof.
  intros HC HS Hr Hres Hw. pose proof (counted_fresh s res rest HC Hres) as Hf. pose proof (counted_length s HC) as HL.
  destruct (c_open s HC Hr) as (E1 & _ & _). pose proof max_range. pose proof (c_legs s HC) as HG. rewrite (c_launched s HC) in HG.
  unfold on_result. cbv zeta. unfold loses in Hw. rewrite Hw, drainClose_eq.
  set (s1 := match firstErr _ with None => _ | Some _ => _ end).
  destruct (s_first s HS Hr) as [Hl He]. destruct (closed_snoc s res HS Hf) as (N1 & N2 & N3).
  assert (s1 = mkRace (running s) rest (legs s) ({[idx res]} ∪ cancelled s) (closed s ++ closed_by res) (launched s)
    (i64 (received s + 1)) (first_error (taken s ++ [res])) (timer s) (ctxErr s) (reaping s) (urlHost s) None (taken s ++ [res])) as ->.
  { subst s1. rewrite first_error_snoc, <- He, <- Hr. cbn. destruct (firstErr s) eqn:Ef; cbn; unfold with_closed, cancel, receive; cbn; by rewrite ?Ef. }
  assert (Forall loses (taken s ++ [res])) as Hls by (apply Forall_app; split; [done|by repeat constructor]).
  assert (forall i, i ∈ ({[idx res]} ∪ cancelled s) <-> i ∈ idx <$> taken s ++ [res]) as Hcc.
  { intros i. rewrite fmap_app, elem_of_app, elem_of_union, (s_open s HS Hr). cbn. rewrite elem_of_singleton, list_elem_of_singleton. tauto. }
  match goal with |- context [set_ret _ ?x] => set (s2 := x) end.
  assert (sound s2) as H2.
  { split; cbn; try done. intros res' H1 H2. destruct (N3 res' H1 H2); [by left|congruence]. }
  change (received s2) with (i64 (received s + 1)). destruct (_ =? max) eqn:Em; bool_prop.
  - rewrite Hres in HL. cbn in HL. rewrite i64_small in Em by lia.
    split; cbn; try done; try apply H2.
    + intros _ _ i Hi. rewrite Hcc. split; [by intros _ (? & [=] & _)|]. intros _.
      assert (i ∈ seq 0 (legs s)) as Hin by (apply elem_of_seq; lia). rewrite <- (c_part s HC), Hres in Hin.
      assert (running s = []) as Hrun by (apply nil_length_inv; lia). assert (rest = []) as Hrest by (apply nil_length_inv; lia).
      rewrite Hrun, Hrest in Hin. cbn in Hin. rewrite fmap_app. set_solver.
    + intros res' H1 H3. destruct (N3 res' H1 H3); [by left|congruence].
    + intros e [= <-]. right. split_and!; [done| |done]. rewrite length_app. cbn. lia.
  - destruct (HedgeOnError l && (launched s2 <? max)); [|done].
    apply sound_launch_next; [done|]. destruct H2 as [S1 S2 S3 S4 S5 S6 S7 S8 S9]. by split.
Qed.


Lemma sound_done e s : counted s -> sound s -> ret s = None -> ctxErr s = Some e -> sound (on_done e s).
Proof.
  intros HC HS Hr He. unfold on_done. rewrite cancel_others_eq. split; cbn; try done; try apply HS.
  - intros _ _ i Hi. split; [by intros _ (? & [=] & _)|]. intros _.
    rewrite elem_of_union, elem_of_list_to_set, list_elem_of_filter, elem_of_seq. left. split; [done|lia].
  - intros res H1 H2. destruct (s_closes s HS res H1 H2); [by left|congruence].
  - intros e' [= <-]. by left.
Qed.

Lemma sound_reap s res rest :
  counted s -> sound s -> 0 < reaping s -> results s = res :: rest -> sound (reap1 res rest s).
Proof.
  intros HC HS Hp Hres. pose proof (counted_fresh s res rest HC Hres) as Hf. pose proof (counted_length s HC) as HL.
  assert (ret s <> None) as Hn by (intros E; destruct (c_open s HC E) as (_ & ? & _); lia).
  pose proof (c_ret s HC Hn) as Hrp. pose proof (c_legs s HC) as HG. rewrite (c_launched s HC) in HG.
  unfold reap1. rewrite drainClose_eq. destruct (closed_snoc s res HS Hf) as (N1 & N2 & N3).
  assert (forall i, held s i -> i ∉ closed_by res) as Hh.
  { intros i (res' & E1 & E2 & -> & _) Hi. destruct (s_won s HS res' E1) as (pre & post & Ht & _).
    unfold closed_by in Hi. destruct (has_body res); [|by apply not_elem_of_nil in Hi]. apply list_elem_of_singleton in Hi.
    apply Hf. rewrite <- Hi, Ht. apply list_elem_of_fmap_2. set_solver. }
  split; cbn; try done.
  - intros _ Hnp i Hi. rewrite (s_cancel s HS Hn Hnp i Hi). unfold held. cbn. split; intros Hx Hy; apply Hx.
    + destruct Hy as (res' & ? & ? & ? & ?). exists res'. split_and!; try done. set_solver.
    + pose proof (Hh i Hy). destruct Hy as (res' & ? & ? & ? & ?). exists res'. split_and!; try done. set_solver.
  - intros res' Hw. destruct (s_won s HS res' Hw) as (pre & post & -> & ? & ? & ?). exists pre, (post ++ [res]).
    split; [|done]. by rewrite <- app_assoc.
  - intros e He. destruct (s_failed s HS e He) as [?|(_ & Ht & _)]; [by left|]. exfalso. rewrite Hres in *. cbn in *. lia.
  - intros Hpn. destruct (s_panic s HS Hpn) as (res' & ? & ?). exists res'. split; [set_solver|done].
Qed.

Lemma sound_close s res :
  counted s -> sound s -> ret s = Some (Won res) -> has_body res = true -> idx res ∉ closed s -> sound (close_body (idx res) s).
Proof.
  intros HC HS Hr Hb Hc. destruct (s_won s HS res Hr) as (pre & post & Ht & ? & ? & ?).
  split; cbn; try done; try apply HS; rewrite ?Hr; try done.
  - intros _ _ i Hi. rewrite elem_of_union, elem_of_singleton, (s_cancel s HS); [|congruence|congruence|done]. unfold held. cbn. split.
    + intros Hx (res' & E1 & _ & -> & Hnc). assert (res' = res) as -> by congruence. set_solver.
    + intros Hx. destruct (decide (i = idx res)) as [->|Hne]; [by left|right]. intros (res' & E1 & ? & -> & ?).
      assert (res' = res) as -> by congruence. done.
  - apply NoDup_app. split; [apply HS|]. split; [|apply NoDup_singleton]. intros x Hx ->%list_elem_of_singleton. done.
  - intros i [Hi| ->%list_elem_of_singleton]%elem_of_app; [by apply (s_closed s HS)|]. exists res. rewrite Ht. split; [set_solver|done].
  - intros res' G1 G2. destruct (s_closes s HS res' G1 G2) as [?|Hr']; [left; set_solver|right; congruence].
Qed.

Lemma sound_step s s' : step l s s' -> counted s -> sound s -> sound s'.
Proof.
  intros Hs HC HS. destruct Hs.
  1, 3, 5: destruct HS as [S1 S2 S3 S4 S5 S6 S7 S8 S9]; split; try done.
  - cbn. intros e' He. destruct (S8 e' He) as [?|?]; [congruence|by right].
  - destruct (won l (resp res) (err res)) eqn:Ew; [by apply sound_win|by apply sound_lose].
  - assert (sound (set_timer Idle s)) as H2 by (destruct HS; by split).
    unfold on_timer. cbv zeta. destruct (_ <? max); [|done]. by apply sound_launch_next.
  - by apply sound_done.
  - by apply sound_reap.
  - by apply sound_close.
Qed.

Lemma sound_start h : sound (start h).
Proof. split; cbn; try done; try set_solver. constructor. Qed.

Definition reached (h : string) (s : race) : Prop := rtc (step l) (start h) s.

Lemma reached_inv h s : reached h s -> counted s /\ sound s.
Proof.
  intros H. assert (counted (start h) /\ sound (start h)) as H0 by (split; [apply counted_start|apply sound_start]).
  induction H as [|x y z Hxy _ IH]; [done|]. apply IH. destruct H0. split; [by eapply counted_step|by eapply sound_step].
Qed.

(** ** The race ends *)

(** The supervisor is still choosing only while a result is missing. *)
Definition more (s : race) : Prop := ret s = None -> Z.of_nat (length (taken s)) < max.

Lemma launch_next_taken s : taken (launch_next l s) = taken s.
Proof. unfold launch_next. cbv zeta. by destruct (_ <? _). Qed.

(** What the supervisor's cases leave alone. *)
Lemma on_result_lose res rest s :
  loses res ->
  let s' := on_result l res rest s in
  taken s' = taken s ++ [res] /\ ctxErr s' = ctxErr s /\
  (ret s = None -> ret s' = None -> i64 (received s + 1) <> max).
Proof.
  unfold loses, on_result. cbv zeta. intros ->. rewrite drainClose_eq.
  destruct (firstErr _); (destruct (_ =? max) eqn:Em; [by split_and!|]); bool_prop; cbn in Em;
    (destruct (HedgeOnError l && _); [rewrite launch_next_taken; unfold launch_next; cbv zeta; destruct (_ <? max)|]); by split_and!.
Qed.

Lemma on_result_ctx res rest s : ctxErr (on_result l res rest s) = ctxErr s.
Proof.
  destruct (won l (resp res) (err res)) eqn:Ew; [|by apply on_result_lose].
  unfold on_result. cbv zeta. rewrite Ew, cancel_others_eq. unfold wrapWinner.
  destruct (resp res) as [rp|]; [by destruct (resp_body rp)|done].
Qed.

Lemma on_timer_ctx s : ctxErr (on_timer l s) = ctxErr s.
Proof. unfold on_timer, launch_next. cbv zeta. destruct (_ <? _); [by destruct (_ <? _)|done]. Qed.

Lemma reap1_ctx res rest s : ctxErr (reap1 res rest s) = ctxErr s.
Proof. unfold reap1. by rewrite drainClose_eq. Qed.

Lemma more_step s s' : step l s s' -> counted s -> more s -> more s'.
Proof.
  intros Hs HC HM'. pose proof max_range. pose proof (counted_length s HC) as HL. pose proof (c_legs s HC) as HG.
  rewrite (c_launched s HC) in HG. destruct Hs as [| s res rest Hr Hres | | s Hr Ht | | | s res rest Hp Hres |]; try done.
  - unfold more. destruct (won l (resp res) (err res)) eqn:Ew.
    + unfold on_result. cbv zeta. rewrite Ew, cancel_others_eq. unfold wrapWinner.
      destruct (resp res) as [rp|]; [by destruct (resp_body rp)|done].
    + destruct (on_result_lose res rest s Ew) as (-> & _ & H2). intros Hn. specialize (H2 Hr Hn).
      destruct (c_open s HC Hr) as (E1 & _). rewrite Hres in HL. cbn in HL. rewrite i64_small in H2 by lia.
      rewrite length_app. cbn. lia.
  - unfold more. intros _. specialize (HM' Hr). unfold on_timer. cbv zeta.
    destruct (_ <? max); [by rewrite launch_next_taken|done].
  - unfold more. unfold reap1. rewrite drainClose_eq. cbn. intros Hn. destruct (c_open s HC Hn) as (_ & ? & _). lia.
Qed.

Lemma reached_more h s : reached h s -> more s.
Proof.
  intros H. assert (counted (start h) /\ more (start h)) as H0.
  { split; [apply counted_start|]. pose proof max_range. intros _. cbn. lia. }
  induction H as [|x y z Hxy _ IH]; [apply H0|]. apply IH. destruct H0. split; [by eapply counted_step|by eapply more_step].
Qed.

(** No step is left but the end of the client's context. *)
Definition quiet (s : race) : Prop := forall s', step l s s' -> ctxErr s' <> ctxErr s.

Lemma quiet_ended s :
  counted s -> sound s -> more s -> quiet s ->
  exists v, ret s = Some v /\ running s = [] /\ results s = [] /\ reaping s = 0 /\ length (taken s) = legs s /\
  (forall res, res ∈ taken s -> has_body res = true -> idx res ∈ closed s) /\
  (v <> Panicked -> forall i, (i < legs s)%nat -> i ∈ cancelled s).
Proof.
  intros HC HS HM' HQ. pose proof max_range. pose proof (counted_length s HC) as HL. pose proof (c_legs s HC) as HG.
  rewrite (c_launched s HC) in HG. unfold more in HM'.
  assert (running s = []) as Hrun.
  { destruct (running s) as [|i R] eqn:Er; [done|]. exfalso.
    apply (HQ (publish (leg_result i Http.Panicked "") s)); [|done]. apply S_publish; [rewrite Er; left|]. cbn in HL. lia. }
  assert (results s = []) as Hres.
  { destruct (results s) as [|res rest] eqn:Er; [done|]. exfalso. destruct (ret s) as [v|] eqn:Ev.
    - assert (0 < reaping s) by (rewrite (c_ret s HC), Er by congruence; cbn; lia).
      apply (HQ (reap1 res rest s)); [by apply S_reap|apply reap1_ctx].
    - apply (HQ (on_result l res rest s)); [by apply S_result|apply on_result_ctx]. }
  rewrite Hrun, Hres in HL. cbn in HL. destruct (ret s) as [v|] eqn:Ev.
  - exists v. split_and!; [done..| | | |].
    + rewrite (c_ret s HC), Hrun, Hres by congruence. done.
    + done.
    + intros res H1 H2. destruct (s_closes s HS res H1 H2) as [?|Hw]; [done|].
      destruct (decide (idx res ∈ closed s)); [done|]. exfalso.
      apply (HQ (close_body (idx res) s)); [by apply S_close|done].
    + intros Hv i Hi. apply (s_cancel s HS); [congruence..|done|]. intros (res & H1 & H2 & -> & H3).
      apply (HQ (close_body (idx res) s)); [by apply S_close|done].
  - exfalso. destruct (c_open s HC Ev) as (E1 & _ & Ht). specialize (HM' eq_refl). rewrite (c_launched s HC) in Ht.
    specialize (Ht ltac:(lia)). destruct (timer s) eqn:Et; [| |done].
    + apply (HQ (set_timer Pending s)); [by apply S_fire|done].
    + apply (HQ (on_timer l s)); [by apply S_timer|apply on_timer_ctx].
Qed.

(** The steps left. *)
Definition timer_weight (t : tstate) : Z := match t with Armed => 2 | Pending => 1 | Idle => 0 end.
Definition ret_weight (v : option verdict) (C : list nat) : Z :=
  match v with
  | None => 2
  | Some (Won res) => if has_body res && negb (bool_decide (idx res ∈ C)) then 1 else 0
  | Some _ => 0
  end.
Definition weight (s : race) : Z :=
  5 * (max - launched s) + 2 * Z.of_nat (length (running s)) + Z.of_nat (length (results s)) + timer_weight (timer s)
  + match ctxErr s with Some _ => 0 | None => 1 end + ret_weight (ret s) (closed s).

Lemma timer_weight_range t : 0 <= timer_weight t <= 2.
Proof. destruct t; cbn; lia. Qed.

Lemma ret_weight_range v C : 0 <= ret_weight v C <= 2 /\ (v <> None -> ret_weight v C <= 1).
Proof. destruct v as [[res|e|]|]; cbn; try (destruct (_ && _)); split; try lia; done. Qed.

Lemma ret_weight_app v C C' : ret_weight v (C ++ C') <= ret_weight v C.
Proof.
  destruct v as [[res|e|]|]; cbn; try lia. destruct (has_body res); [|done]. cbn.
  repeat case_bool_decide; cbn; try lia. set_solver.
Qed.

Lemma weight_launch_next s :
  1 <= launched s < max -> timer s = Idle -> weight (launch_next l s) < weight s.
Proof.
  intros H Ht. pose proof max_range. unfold launch_next, weight. cbv zeta. cbn [launched set_launched launch]. rewrite i64_small by lia.
  destruct (_ <? max); cbn; rewrite ?Ht, ?length_app; cbn; lia.
Qed.

Lemma weight_result s res rest :
  counted s -> ret s = None -> results s = res :: rest -> weight (on_result l res rest s) < weight s.
Proof.
  intros HC Hr Hres. pose proof (c_legs s HC) as HG. pose proof (timer_weight_range (timer s)) as Ht.
  unfold on_result. cbv zeta. destruct (won l (resp res) (err res)).
  - rewrite cancel_others_eq. unfold wrapWinner, weight. rewrite Hres, Hr.
    destruct (resp res) as [rp|] eqn:Er; [destruct (resp_body rp) as [bd|] eqn:Eb|]; cbn.
    + destruct (ctxErr s); destruct (_ && _); lia.
    + destruct (ctxErr s); destruct (_ && _); lia.
    + destruct (ctxErr s); lia.
  - rewrite drainClose_eq. match goal with |- context [received ?x =? max] => set (s1 := x) end.
    assert (weight s1 < weight s /\ launched s1 = launched s) as [H1 H2].
    { subst s1. unfold weight. destruct (firstErr _); cbn; rewrite Hres, Hr; cbn; split; try done; destruct (ctxErr s); lia. }
    assert (ret s1 = None) as H3 by (subst s1; destruct (firstErr _); done). clearbody s1.
    destruct (received s1 =? max); [|destruct (HedgeOnError l && (launched s1 <? max)) eqn:Eh; [|done]].
    + revert H1. unfold weight. cbn. rewrite H3. cbn. pose proof (timer_weight_range (timer s1)). lia.
    + apply andb_true_iff in Eh as [_ Eh]. bool_prop.
      pose proof (weight_launch_next (set_timer Idle s1) ltac:(cbn; lia) eq_refl) as H4.
      assert (weight (set_timer Idle s1) <= weight s1) by (unfold weight; cbn; pose proof (timer_weight_range (timer s1)); lia). lia.
Qed.

Lemma weight_step s s' : step l s s' -> counted s -> weight s' < weight s.
Proof.
  intros Hs HC. pose proof (c_legs s HC) as HG.
  destruct Hs as [s i o hs Hi Hlen|s res rest Hr Hres|s Ht|s Hr Ht|s e He|s e Hr He|s res rest Hp Hres|s res Hr Hb Hc].
  - pose proof (counted_nodup s HC) as Hd. apply NoDup_app in Hd as (Hd & _ & _).
    pose proof (Permutation_length (remove_perm _ _ Hd Hi)) as Hl. cbn in Hl. unfold weight, publish. cbn.
    assert (idx (leg_result i o hs) = i) as -> by (unfold leg_result; by destruct (safeRoundTrip o)).
    rewrite Hl, length_app. cbn. lia.
  - by apply weight_result.
  - unfold weight. cbn. rewrite Ht. cbn. lia.
  - unfold on_timer. cbv zeta. assert (weight (set_timer Idle s) < weight s) as H1 by (unfold weight; cbn; rewrite Ht; cbn; lia).
    destruct (launched (set_timer Idle s) <? max) eqn:El; bool_prop; [|done].
    pose proof (weight_launch_next (set_timer Idle s) ltac:(cbn in *; lia) eq_refl). lia.
  - unfold weight. cbn. rewrite He. lia.
  - unfold on_done. rewrite cancel_others_eq. unfold weight. cbn. rewrite Hr. cbn. pose proof (timer_weight_range (timer s)). lia.
  - unfold reap1. rewrite drainClose_eq. unfold weight. cbn. rewrite Hres. cbn.
    pose proof (ret_weight_app (ret s) (closed s) (closed_by res)). lia.
  - unfold weight. cbn -[has_body]. rewrite Hr. cbn -[has_body]. rewrite Hb. cbn. rewrite (bool_decide_false (idx res ∈ closed s)), bool_decide_true by (done || set_solver). cbn. lia.
Qed.

Lemma weight_nonneg s : counted s -> 0 <= weight s.
Proof.
  intros HC. pose proof (c_legs s HC). pose proof (timer_weight_range (timer s)). pose proof (ret_weight_range (ret s) (closed s)).
  unfold weight. destruct (ctxErr s); lia.
Qed.

Lemma steps_weight n s s' : nsteps (step l) n s s' -> counted s -> counted s' /\ Z.of_nat n + weight s' <= weight s.
Proof.
  induction 1 as [|n x y z Hxy _ IH]; intros HC; [split; [done|lia]|].
  destruct (IH (counted_step x y Hxy HC)) as [H1 H2]. pose proof (weight_step x y Hxy HC). split; [done|lia].
Qed.

(** C16: A race of a hedged request launches at most MaxHedge + 1 legs and no leg ever
    blocks publishing its result. Until a verdict only finished legs are cancelled;
    once a winner is returned every other leg is cancelled, and the winner's context
    stays alive until its body is closed. No body is closed twice, and the winner's is
    closed by the proxy alone. *)
Theorem hedge_one_winner h s :
  reached h s ->
  1 <= Z.of_nat (legs s) <= max /\
  (forall i, i ∈ running s -> Z.of_nat (length (results s)) < max) /\
  (ret s = None -> forall i, i ∈ running s -> i ∉ cancelled s) /\
  (forall res, ret s = Some (Won res) -> has_body res = true -> forall i, (i < legs s)%nat ->
     (i ∈ cancelled s <-> (i <> idx res \/ i ∈ closed s))) /\
  NoDup (closed s) /\
  (forall i, i ∈ closed s -> exists res, res ∈ taken s /\ idx res = i /\ has_body res = true).
Proof.
  intros [HC HS]%reached_inv. pose proof (counted_length s HC) as HL. pose proof (c_legs s HC) as HG.
  rewrite (c_launched s HC) in HG. split_and!; try lia.
  - intros i Hi. destruct (running s); [by apply not_elem_of_nil in Hi|]. cbn in HL. lia.
  - intros Hr i Hi Hc. apply (s_open s HS Hr) in Hc. pose proof (counted_nodup s HC) as Hd.
    apply NoDup_app in Hd as (_ & Hd & _). apply (Hd i Hi). set_solver.
  - intros res Hr Hb i Hi. rewrite (s_cancel s HS); [|congruence|congruence|done]. split.
    + intros Hn. destruct (decide (i = idx res)) as [->|]; [right|by left].
      destruct (decide (idx res ∈ closed s)); [done|]. destruct Hn. by exists res.
    + intros Hx (res' & Hr' & _ & -> & Hc). assert (res' = res) as -> by congruence. by destruct Hx.
  - apply HS.
  - apply (s_closed s HS).
Qed.

(** What a hedged request returns: a winner is the first result, in the order
    received, that wins, and all before it lost; an error is the client's context
    error, or every one of the MaxHedge + 1 legs lost, and then it is the first error
    received, ErrUnavailable when none had one. *)
Theorem hedge_result h s :
  reached h s ->
  (forall res, ret s = Some (Won res) ->
     exists pre post, taken s = pre ++ res :: post /\ Forall loses pre /\ wins res) /\
  (forall e, ret s = Some (Failed e) ->
     ctxErr s = Some e \/
     Forall loses (taken s) /\ Z.of_nat (length (taken s)) = max /\ e = default ErrUnavailable (first_error (taken s))).
Proof.
  intros [HC HS]%reached_inv. split.
  - intros res Hr. destruct (s_won s HS res Hr) as (pre & post & ? & ? & ? & _). by exists pre, post.
  - apply (s_failed s HS).
Qed.

(** C17: A race is over after at most 5 (MaxHedge + 1) + 2 steps, whatever the order
    of results, timer, cancellation and reaping; and when nothing is left to happen
    the request has been answered, every launched leg's result has been received (no
    goroutine is left blocked), every response body is closed, and every leg's context
    is released unless the winner test accepted a missing response. *)
Theorem hedge_ends h n s :
  nsteps (step l) n (start h) s ->
  Z.of_nat n <= 5 * max + 2 /\
  (quiet s ->
   exists v, ret s = Some v /\ running s = [] /\ results s = [] /\ reaping s = 0 /\ length (taken s) = legs s /\
   (forall res, res ∈ taken s -> has_body res = true -> idx res ∈ closed s) /\
   (v <> Panicked -> forall i, (i < legs s)%nat -> i ∈ cancelled s)).
Proof.
  intros Hn. assert (reached h s) as Hr by (eapply rtc_nsteps_2, Hn).
  destruct (reached_inv h s Hr) as [HC HS]. pose proof (reached_more h s Hr).
  destruct (steps_weight n _ s Hn (counted_start h)) as [_ Hw]. pose proof (weight_nonneg s HC).
  split; [unfold weight at 2 in Hw; cbn in Hw; lia|]. by apply quiet_ended.
Qed.
End Facts.

(** ** What is hedged *)

(** By default only an idempotent request without a body that is not already being
    retried is raced; anything else, and everything while HedgeDelay is not positive,
    is one plain call of the wrapped balancer. *)
Theorem hedge_default_rule l r :
  IsHedgeable l = None ->
  races l r = true <->
  0 < HedgeDelay l /\ Upstream.canMethodRetry (Upstream.Method r) = true /\
  Upstream.Body r = None /\ Upstream.retry r = None.
Proof.
  intros Hn. unfold races, init, hedgeable, defaultMaxHedge. cbn. rewrite Hn.
  assert (((if MaxHedge l <=? 0 then 1 else MaxHedge l) <=? 0) = false) as ->
    by (destruct (MaxHedge l <=? 0) eqn:Em; bool_prop; apply Z.leb_gt; lia).
  destruct (Upstream.canMethodRetry _); cbn; rewrite ?orb_false_r, ?orb_true_r; [|naive_solver].
  rewrite negb_true_iff, orb_false_iff, Z.leb_gt, negb_false_iff.
  destruct (Upstream.Body r), (Upstream.retry r); cbn; naive_solver.
Qed.

(** ** A race in which the hedge wins *)

Definition demo_l : HedgingLoadBalancer := mk 10 1 true None None.
Definition demo_ok : hedgeResult := leg_result 1 (Returned (Some (mkResponse 200 ∅ (Some (mkBody false "hi")))) None) "b".
Definition demo_panic : hedgeResult := leg_result 0 Http.Panicked "a".

Definition race_at (n : nat) : race :=
  foldl (fun s f => f s) (start "")
    (take n [set_timer Pending; on_timer demo_l; publish demo_ok; on_result demo_l demo_ok [];
             publish demo_panic; reap1 demo_panic []; close_body 1]).

Lemma demo_step n : (n < 7)%nat -> step demo_l (race_at n) (race_at (S n)).
Proof.
  intros Hn. destruct n as [|[|[|[|[|[|[|n]]]]]]]; [| | | | | | |lia].
  - by apply S_fire.
  - by apply S_timer.
  - apply (S_publish demo_l (race_at 2) 1); [vm_compute; right; left|reflexivity].
  - apply (S_result demo_l (race_at 3) demo_ok []); reflexivity.
  - apply (S_publish demo_l (race_at 4) 0); [vm_compute; left|reflexivity].
  - apply (S_reap demo_l (race_at 5) demo_panic []); [reflexivity|reflexivity].
  - apply (S_close demo_l (race_at 6) demo_ok); [reflexivity|reflexivity|]. apply not_elem_of_nil.
Qed.

Lemma demo_nsteps n : (n <= 7)%nat -> nsteps (step demo_l) n (start "") (race_at n).
Proof.
  induction n as [|n IH]; intros Hn; [constructor|]. eapply nsteps_r; [apply IH; lia|]. apply demo_step. lia.
Qed.

Lemma demo_reached n : (n <= 7)%nat -> reached demo_l "" (race_at n).
Proof. intros Hn. eapply rtc_nsteps_2, demo_nsteps, Hn. Qed.

Lemma hedge_one_winner_witness :
  ret (race_at 4) = Some (Won demo_ok) /\ (0%nat ∈ cancelled (race_at 4)) /\ (1%nat ∉ cancelled (race_at 4)).
Proof.
  split; [reflexivity|].
  destruct (hedge_one_winner demo_l ltac:(cbn; lia) "" (race_at 4)) as (_ & _ & _ & H & _); [apply demo_reached; lia|].
  specialize (H demo_ok eq_refl eq_refl). split.
  - apply H; [vm_compute; lia|]. left. discriminate.
  - rewrite (H 1%nat); [|vm_compute; lia]. intros [Hn|Hc]; [by apply Hn|by apply not_elem_of_nil in Hc].
Defined.

Lemma hedge_result_witness :
  exists pre post, taken (race_at 7) = pre ++ demo_ok :: post /\ Forall (loses demo_l) pre.
Proof.
  destruct (hedge_result demo_l ltac:(cbn; lia) "" (race_at 7)) as [H _]; [apply demo_reached; lia|].
  destruct (H demo_ok eq_refl) as (pre & post & ? & ? & _). by exists pre, post.
Defined.

Lemma demo_quiet : quiet demo_l (race_at 7).
Proof.
  intros s' Hs. inversion Hs as [? i o hs Hi|? ? ? Hr|? Ht|? Hr|? e He|? e Hr|? ? ? Hp|? res Hr Hb Hc]; subst; try done.
  - by apply not_elem_of_nil in Hi.
  - injection Hr as <-. destruct Hc. vm_compute. left.
Qed.

Lemma hedge_ends_witness :
  closed (race_at 7) = [1%nat] /\
  exists v, ret (race_at 7) = Some v /\ running (race_at 7) = [] /\ length (taken (race_at 7)) = legs (race_at 7).
Proof.
  split; [reflexivity|].
  destruct (hedge_ends demo_l ltac:(cbn; lia) "" 7 (race_at 7)) as [_ H]; [apply demo_nsteps; lia|].
  destruct (H demo_quiet) as (v & ? & ? & _ & _ & ? & _). by exists v.
Defined.

Lemma hedge_default_rule_witness :
  races demo_l (Upstream.mkReq "GET" "" "/" "" "" "h" "" None None None) = true /\
  races demo_l (Upstream.mkReq "POST" "" "/" "" "" "h" "" None None None) = false.
Proof.
  split; [apply (hedge_default_rule demo_l); [reflexivity|by split_and!]|].
  destruct (races demo_l _) eqn:Er; [|reflexivity].
  apply (hedge_default_rule demo_l) in Er as (_ & Hm & _); [discriminate Hm|reflexivity].
Defined.
End HedgingFacts.
