(* ===== verification/Proxy.v ===== *)
(** * The proxy handler: trust and forwarded headers

    [src/proxy.go].  Header values are slices, and downstream middlewares write
    slices in place, so a header map holds addresses of slices in a store; two
    slices of the store are the package globals behind [Server.ShareProtoSlice]. *)

From Stdlib Require Import Ascii.
From S2P Require Import Prelude GoStrings GoNet.

Module Proxy.
Import NetIP.

Definition headerXForwardedFor : string := "X-Forwarded-For".
Definition headerXForwardedProto : string := "X-Forwarded-Proto".
Definition headerXRealIP : string := "X-Real-Ip".

(** The store of value slices; addresses from [nextp] on are free. *)
Record store := mkStore { slices : gmap nat (list string); nextp : nat }.

(** The addresses of the package globals, and the store at start-up. *)
Definition xfpHTTP : nat := 0.
Definition xfpHTTPS : nat := 1.
Definition init_store : store := mkStore {[ xfpHTTP := ["http"]; xfpHTTPS := ["https"] ]} 2.

(** [[]string{...}]: a fresh slice. *)
Definition alloc (v : list string) (s : store) : nat * store :=
  (nextp s, mkStore (<[nextp s := v]> (slices s)) (S (nextp s))).

Record Request := mkRequest {
  RemoteAddr : string;
  TLS : bool;
  Header : gmap string nat;
}.

Definition set_header (k : string) (p : nat) (r : Request) : Request :=
  mkRequest (RemoteAddr r) (TLS r) (<[k := p]> (Header r)).

(** The values under a key; the nil slice when there is none. *)
Definition values (s : store) (r : Request) (k : string) : list string :=
  default [] (Header r !! k ≫= fun p => slices s !! p).

Definition headerFirst (s : store) (r : Request) (key : string) : string := default "" (head (values s r key)).

Definition parseHost (s : string) : string := split_host s.

Definition firstHost (s : string) : string := TrimSpace (Cut ","%char s).1.

(** [None] is the panic on a CIDR that does not parse. *)
Fixpoint parseCIDRs (xs : list string) : option (list IPNet) :=
  match xs with
  | [] => Some []
  | x :: xs => n ← ParseCIDR x; rs ← parseCIDRs xs; Some (n :: rs)
  end.

Definition trusts (trust : list IPNet) (r : Request) : bool :=
  match trust with
  | [] => false
  | _ => match ParseIP (parseHost (RemoteAddr r)) with
         | None => false
         | Some ip => existsb (fun n => Contains n ip) trust
         end
  end.

Definition TrustCIDRs (s : list string) : option (Request -> bool) := trusts <$> parseCIDRs s.

Definition Trusted : Request -> bool := fun _ => true.

Record proxy := mk {
  Trust : option (Request -> bool);
  ComputeFullForwardedFor : bool;
  shareProtoSlice : bool;
}.

Definition protoValue (m : proxy) (isTLS : bool) (s : store) : nat * store :=
  if shareProtoSlice m then (if isTLS then xfpHTTPS else xfpHTTP, s)
  else alloc [if isTLS then "https" else "http"] s.

(** [h[key] = v] for a fresh slice [v]. *)
Definition put (key : string) (v : list string) (r : Request) (s : store) : Request * store :=
  let '(p, s) := alloc v s in (set_header key p r, s).

(** The rewriting of [trust] and [distrust], up to the call of the next handler. *)
Definition trust (m : proxy) (r : Request) (s : store) : Request * store :=
  let '(r, s) :=
    if ComputeFullForwardedFor m then
      let remoteIP := parseHost (RemoteAddr r) in
      let p := headerFirst s r headerXForwardedFor in
      if String.eqb p "" then put headerXForwardedFor [remoteIP] r s
      else put headerXForwardedFor [p +:+ ", " +:+ remoteIP] r s
    else (r, s) in
  let '(r, s) :=
    if String.eqb (headerFirst s r headerXRealIP) ""
    then put headerXRealIP [firstHost (headerFirst s r headerXForwardedFor)] r s else (r, s) in
  if String.eqb (headerFirst s r headerXForwardedProto) "" then
    let '(p, s) := protoValue m (TLS r) s in (set_header headerXForwardedProto p r, s)
  else (r, s).

Definition distrust (m : proxy) (r : Request) (s : store) : Request * store :=
  let remoteIP := parseHost (RemoteAddr r) in
  let '(r, s) := put headerXForwardedFor [remoteIP] r s in
  let '(r, s) := put headerXRealIP [remoteIP] r s in
  let '(p, s) := protoValue m (TLS r) s in
  (set_header headerXForwardedProto p r, s).

(** What the next handler is called with. *)
Definition ServeHTTP (m : proxy) (r : Request) (s : store) : Request * store :=
  match Trust m with
  | None => distrust m r s
  | Some f => if f r then trust m r s else distrust m r s
  end.

End Proxy.

Module ProxyFacts.
Import NetIP NetFacts Proxy.

(** ** The store *)

(** Every address in use is below the free ones, and the globals are intact. *)
Definition store_ok (s : store) : Prop :=
  (forall p v, slices s !! p = Some v -> (p < nextp s)%nat) /\
  slices s !! xfpHTTP = Some ["http"] /\ slices s !! xfpHTTPS = Some ["https"].

Definition forwarded : list string := [headerXForwardedFor; headerXRealIP; headerXForwardedProto].

(** The slices there were before are as they were. *)
Definition preserved (s s' : store) : Prop :=
  store_ok s' /\ (nextp s <= nextp s')%nat /\ forall p, (p < nextp s)%nat -> slices s' !! p = slices s !! p.

#[local] Instance preserved_trans : Transitive preserved.
Proof.
  intros s1 s2 s3 (_ & H1 & H2) (O & H3 & H4). split; [done|]. split; [lia|].
  intros p Hp. rewrite H4 by lia. by apply H2.
Qed.

Lemma preserved_refl s : store_ok s -> preserved s s.
Proof. done. Qed.

Lemma alloc_preserved v s : store_ok s -> preserved s (alloc v s).2.
Proof.
  intros (H1 & H2 & H3). split; [split; [|split]|split]; cbn.
  - intros p w. destruct (decide (p = nextp s)) as [->|]; [lia|]. rewrite lookup_insert_ne by done.
    intros Hp%H1. lia.
  - apply H1 in H2 as Hlt. rewrite lookup_insert_ne by lia. done.
  - apply H1 in H3 as Hlt. rewrite lookup_insert_ne by lia. done.
  - lia.
  - intros p Hp. rewrite lookup_insert_ne by lia. done.
Qed.

Lemma alloc_lookup v s : slices (alloc v s).2 !! (alloc v s).1 = Some v.
Proof. cbn. apply lookup_insert_eq. Qed.

(** A request's headers name slices of the store. *)
Definition req_ok (s : store) (r : Request) : Prop := forall k p, Header r !! k = Some p -> is_Some (slices s !! p).

Lemma values_preserved s s' r k : store_ok s -> req_ok s r -> preserved s s' -> values s' r k = values s r k.
Proof.
  intros (Hs & _) Hr (_ & _ & H). unfold values. destruct (Header r !! k) as [p|] eqn:E; [|done]. cbn.
  destruct (Hr _ _ E) as [v Hv]. by rewrite H by eauto.
Qed.

Lemma values_set s r k p k' :
  values s (set_header k p r) k' = if decide (k = k') then default [] (slices s !! p) else values s r k'.
Proof.
  unfold values, set_header. cbn. destruct (decide (k = k')) as [->|].
  - by rewrite lookup_insert_eq.
  - by rewrite lookup_insert_ne.
Qed.

Lemma req_ok_preserved s s' r : store_ok s -> req_ok s r -> preserved s s' -> req_ok s' r.
Proof.
  intros (Hs & _) Hr (_ & _ & H) k p E. destruct (Hr _ _ E) as [v Hv]. exists v. by rewrite H by eauto.
Qed.

Lemma req_ok_set s r k p : req_ok s r -> is_Some (slices s !! p) -> req_ok s (set_header k p r).
Proof.
  intros Hr Hp k' p'. cbn. destruct (decide (k = k')) as [->|].
  - rewrite lookup_insert_eq. by intros [= <-].
  - rewrite lookup_insert_ne by done. apply Hr.
Qed.

(** ** The untrusted branch *)

(** Setting a header to a fresh slice. *)
Lemma put_spec key v r s :
  store_ok s -> req_ok s r ->
  let r' := (put key v r s).1 in let s' := (put key v r s).2 in
  preserved s s' /\ req_ok s' r' /\ RemoteAddr r' = RemoteAddr r /\ TLS r' = TLS r /\
  values s' r' key = v /\ (forall k, k <> key -> values s' r' k = values s r k) /\
  Header r' !! key = Some (nextp s) /\ (forall k, k <> key -> Header r' !! k = Header r !! k).
Proof.
  intros Hs Hr. pose proof (alloc_preserved v s Hs) as HP. pose proof (alloc_lookup v s) as HL.
  unfold put. destruct (alloc v s) as [p s'] eqn:E. cbn in *. injection E as Ep Es.
  split; [done|]. split; [apply req_ok_set; [by eapply req_ok_preserved|by eexists]|]. split; [done|]. split; [done|].
  split; [rewrite values_set, decide_True, HL by done; done|].
  split; [intros k Hk; rewrite values_set, decide_False by done; by apply values_preserved|].
  split; [rewrite lookup_insert_eq; congruence|]. intros k Hk. by rewrite lookup_insert_ne.
Qed.

Lemma proto_spec m r s :
  store_ok s -> req_ok s r ->
  let p := (protoValue m (TLS r) s).1 in let s' := (protoValue m (TLS r) s).2 in
  let r' := set_header headerXForwardedProto p r in
  preserved s s' /\ req_ok s' r' /\
  values s' r' headerXForwardedProto = [if TLS r then "https" else "http"] /\
  (forall k, k <> headerXForwardedProto -> values s' r' k = values s r k) /\
  (shareProtoSlice m = false -> p = nextp s).
Proof.
  intros Hs Hr. unfold protoValue. destruct (shareProtoSlice m) eqn:E.
  - cbn. destruct Hs as (H1 & H2 & H3). split; [by split|].
    assert (slices s !! (if TLS r then xfpHTTPS else xfpHTTP) = Some [if TLS r then "https" else "http"]) as HL
      by (by destruct (TLS r)).
    split; [apply req_ok_set; [done|by eexists]|]. split; [rewrite values_set, decide_True by done; by rewrite HL|].
    split; [|done]. intros k Hk. by rewrite values_set, decide_False.
  - destruct (put_spec headerXForwardedProto [if TLS r then "https" else "http"] r s Hs Hr)
      as (H1 & H2 & _ & _ & H3 & H4 & _). unfold put in *. cbn in *.
    split; [done|]. split; [done|]. split; [done|]. by split.
Qed.

#[local] Arguments put : simpl never.
#[local] Arguments protoValue : simpl never.

Lemma distrust_spec m r s :
  store_ok s -> req_ok s r ->
  let r' := (distrust m r s).1 in let s' := (distrust m r s).2 in
  preserved s s' /\ req_ok s' r' /\
  values s' r' headerXForwardedFor = [parseHost (RemoteAddr r)] /\
  values s' r' headerXRealIP = [parseHost (RemoteAddr r)] /\
  values s' r' headerXForwardedProto = [if TLS r then "https" else "http"] /\
  forall k, k ∉ forwarded -> values s' r' k = values s r k.
Proof.
  intros Hs Hr. unfold distrust.
  destruct (put_spec headerXForwardedFor [parseHost (RemoteAddr r)] r s Hs Hr) as (P1 & R1 & A1 & T1 & V1 & O1 & _).
  destruct (put headerXForwardedFor _ r s) as [r1 s1]. cbn in *. pose proof (proj1 P1) as S1.
  destruct (put_spec headerXRealIP [parseHost (RemoteAddr r)] r1 s1 S1 R1) as (P2 & R2 & A2 & T2 & V2 & O2 & _).
  destruct (put headerXRealIP _ r1 s1) as [r2 s2]. cbn in *. pose proof (proj1 P2) as S2.
  destruct (proto_spec m r2 s2 S2 R2) as (P3 & R3 & V3 & O3 & _).
  destruct (protoValue m (TLS r2) s2) as [p s3]. cbn in *. rewrite T2, T1 in V3.
  split; [exact (preserved_trans _ _ _ P1 (preserved_trans _ _ _ P2 P3))|]. split; [done|].
  split; [rewrite O3, O2 by (compute; discriminate); done|].
  split; [rewrite O3 by (compute; discriminate); done|]. split; [done|].
  intros k Hk. unfold forwarded in Hk. rewrite O3, O2, O1 by set_solver. done.
Qed.

(** A peer the proxy does not trust cannot choose the forwarded headers: whatever
    it sent under them, the next handler sees exactly its own address and scheme,
    every other header as it came, and no slice of another request is touched. *)
Theorem proxy_distrust_overwrites m r s :
  store_ok s -> req_ok s r ->
  match Trust m with None => True | Some f => f r = false end ->
  let r' := (ServeHTTP m r s).1 in let s' := (ServeHTTP m r s).2 in
  values s' r' headerXForwardedFor = [parseHost (RemoteAddr r)] /\
  values s' r' headerXRealIP = [parseHost (RemoteAddr r)] /\
  values s' r' headerXForwardedProto = [if TLS r then "https" else "http"] /\
  (forall k, k ∉ forwarded -> values s' r' k = values s r k) /\
  forall p, (p < nextp s)%nat -> slices s' !! p = slices s !! p.
Proof.
  intros Hs Hr Ht. assert (ServeHTTP m r s = distrust m r s) as ->.
  { unfold ServeHTTP. destruct (Trust m); [by rewrite Ht|done]. }
  destruct (distrust_spec m r s Hs Hr) as ((_ & _ & HP) & _ & H). cbn in *. naive_solver.
Qed.


(** ** The trust list *)

Lemma parse_octet_byte s n : parse_octet s = Some n -> 0 <= n < 256.
Proof.
  unfold parse_octet. destruct s as [|c s]; [done|]. destruct (_ && _); [done|]. destruct (_ <? _)%nat; [done|].
  intros (m & Hm & H)%bind_Some. destruct (m <=? 255) eqn:E; [|done]. injection H as <-. bool_prop.
  apply parse_digits_nonneg in Hm; lia.
Qed.

Lemma parseIPv4_ok s ip : parseIPv4 s = Some ip -> length ip = 4%nat /\ is_bytes ip.
Proof.
  unfold parseIPv4. destruct (Split "."%char s) as [|a [|b [|c [|d [|e l]]]]]; try done.
  intros (x & Hx%parse_octet_byte & H)%bind_Some. apply bind_Some in H as (y & Hy%parse_octet_byte & H).
  apply bind_Some in H as (z & Hz%parse_octet_byte & H). apply bind_Some in H as (w & Hw%parse_octet_byte & H).
  injection H as <-. split; [done|]. do 4 (apply Forall_cons; split; [done|]). constructor.
Qed.

(** An IPv4 network as text: the address and the number of bits. *)
Definition v4_net (x : string) : option (list Z * Z) :=
  let '(addr, bits) := Cut "/"%char x in
  a ← parseIPv4 addr; n ← parse_unsigned bits; if n <=? 32 then Some (a, n) else None.

Definition is_v4 (x : string) : Prop := family (Cut "/"%char x).1 = Some "."%char.

Lemma ParseCIDR_v4 x n :
  is_v4 x -> ParseCIDR x = Some n ->
  exists ip0 k, v4_net x = Some (ip0, k) /\ length ip0 = 4%nat /\ is_bytes ip0 /\ 0 <= k <= 32 /\
    n = mkNet (and_bytes ip0 (CIDRMask k 4)) (CIDRMask k 4).
Proof.
  unfold is_v4, ParseCIDR, v4_net, ParseIP. intros Hf. destruct (negb _); [done|].
  destruct (Cut "/"%char x) as [addr bits]. cbn in Hf. rewrite Hf. destruct (has _ addr); [done|].
  destruct (parseIPv4 addr) as [ip0|] eqn:Ea; [|done]. cbn -[CIDRMask and_bytes drop v4mapped].
  destruct (parseIPv4_ok _ _ Ea) as [L0 B0]. destruct (parse_unsigned bits) as [k|] eqn:Ek; [|done].
  assert (0 <= k) as Hk by (destruct bits; [done|]; by apply parse_digits_nonneg in Ek).
  change (8 * Z.of_nat 4) with 32. destruct (32 <? k) eqn:E32; [done|]. bool_prop.
  intros [= <-]. exists ip0, k. cbn. rewrite (proj2 (Z.leb_le k 32)) by lia. by repeat split.
Qed.

Lemma parseCIDRs_Forall2 cidrs nets : parseCIDRs cidrs = Some nets -> Forall2 (fun x n => ParseCIDR x = Some n) cidrs nets.
Proof.
  revert nets. induction cidrs as [|x cidrs IH]; intros nets; cbn; [by intros [= <-]|].
  intros (n & Hn & H)%bind_Some. apply bind_Some in H as (ns & Hns & [= <-]). by constructor; [|apply IH].
Qed.

Lemma To4_v4mapped a : length a = 4%nat -> To4 (v4mapped a) = Some a.
Proof. intros H. by destruct a as [|x [|y [|z [|w [|]]]]]. Qed.

(** For a trust list of IPv4 networks, a request is trusted exactly when its
    remote address shares the prefix of one of them, bit by bit. *)
Theorem proxy_trust_prefix cidrs f r a :
  TrustCIDRs cidrs = Some f -> Forall is_v4 cidrs ->
  parseIPv4 (parseHost (RemoteAddr r)) = Some a -> ParseIP (parseHost (RemoteAddr r)) = Some (v4mapped a) ->
  f r = true <->
  exists x ip0 n, x ∈ cidrs /\ v4_net x = Some (ip0, n) /\ forall j, 0 <= j < n -> addr_bit a j = addr_bit ip0 j.
Proof.
  intros Hf Hv Ha Hip. destruct (parseIPv4_ok _ _ Ha) as [La Ba].
  assert (is_bytes (v4mapped a)) as Bm by (do 12 (apply Forall_cons; split; [lia|]); exact Ba).
  unfold TrustCIDRs in Hf. destruct (parseCIDRs cidrs) as [nets|] eqn:En; [|done]. injection Hf as <-.
  assert (trusts nets r = existsb (fun n => Contains n (v4mapped a)) nets) as ->.
  { unfold trusts. rewrite Hip. by destruct nets. }
  apply parseCIDRs_Forall2 in En. induction En as [|x n cidrs nets Hx Hxs IH]; cbn.
  - split; [done|]. by intros (x & _ & _ & ?%elem_of_nil & _).
  - apply Forall_cons in Hv as [Hv Hvs]. specialize (IH Hvs). rewrite orb_true_iff, IH.
    destruct (ParseCIDR_v4 x n Hv Hx) as (ip0 & k & E0 & L0 & B0 & Hk & ->).
    rewrite Contains_v4 by done. pose proof (To4_v4mapped a La) as E4. split.
    + intros [(a' & E' & H)|(y & ip1 & k1 & Hy & H)]; [exists x, ip0, k|exists y, ip1, k1; set_solver].
      change (To4 (v4mapped a) = Some a') in E'. rewrite E4 in E'. injection E' as <-. set_solver.
    + intros (y & ip1 & k1 & [->|Hy]%elem_of_cons & Ey & H).
      * left. exists a. split; [done|]. rewrite E0 in Ey. by injection Ey as <- <-.
      * right. by exists y, ip1, k1.
Qed.

(** ** Witnesses *)

(** A client that forges all three headers. *)
Definition demo_store : store := mkStore (<[2%nat := ["6.6.6.6"]]> (slices init_store)) 3.
Definition demo_request (addr : string) : Request :=
  mkRequest addr true {[ headerXForwardedFor := 2%nat; headerXRealIP := 2%nat; headerXForwardedProto := 0%nat; "Accept" := 2%nat ]}.

Lemma demo_store_ok : store_ok demo_store.
Proof.
  split; [|done]. intros p v. unfold demo_store, init_store. cbn.
  intros [[<- _]|[_ H]]%lookup_insert_Some; [lia|].
  apply lookup_insert_Some in H as [[<- _]|[_ H]]; [unfold xfpHTTP; lia|].
  apply lookup_singleton_Some in H as [<- _]. unfold xfpHTTPS. lia.
Qed.

Lemma demo_request_ok a : req_ok demo_store (demo_request a).
Proof.
  intros k p. unfold demo_request. cbn.
  repeat (intros H; apply lookup_insert_Some in H as [[<- <-]|[_ H]]; [by eexists|revert H]).
  intros [<- <-]%lookup_singleton_Some. by eexists.
Qed.

Lemma proxy_distrust_overwrites_witness :
  let m := mk (TrustCIDRs ["10.0.0.0/8"]) false true in
  let r := demo_request "203.0.113.9:4711" in
  values (ServeHTTP m r demo_store).2 (ServeHTTP m r demo_store).1 headerXForwardedFor = ["203.0.113.9"].
Proof.
  refine (proj1 (proxy_distrust_overwrites (mk (TrustCIDRs ["10.0.0.0/8"]) false true)
    (demo_request "203.0.113.9:4711") demo_store demo_store_ok (demo_request_ok _) _)).
  vm_compute. reflexivity.
Defined.

Lemma proxy_trust_prefix_witness :
  exists f, TrustCIDRs ["192.168.0.0/16"; "10.1.0.0/12"] = Some f /\
  (f (demo_request "10.9.1.1:80") = true <->
   exists x ip0 n, x ∈ ["192.168.0.0/16"; "10.1.0.0/12"] /\ v4_net x = Some (ip0, n) /\
     forall j, 0 <= j < n -> addr_bit [10; 9; 1; 1] j = addr_bit ip0 j).
Proof.
  eexists. split; [reflexivity|].
  apply (proxy_trust_prefix ["192.168.0.0/16"; "10.1.0.0/12"] _ (demo_request "10.9.1.1:80") [10; 9; 1; 1]);
    [reflexivity|by repeat constructor|vm_compute; reflexivity..].
Defined.
End ProxyFacts.
