(* ===== verification/Middleware.v ===== *)
(** * Middlewares, chains and blocks

    [src/middleware.go], [handler.go] and [pkg/block/block.go].  A handler takes a
    request to the calls it makes on its response writer, a tree; a middleware takes
    a handler to a handler, so composition is the code's own and a wrapped writer is a
    function on trees.  [exec] is net/http's response writer. *)

From Stdlib Require Import Ascii.
From S2P Require Import Prelude GoStrings GoNet.

(** The parts of [*http.Request] the middlewares read and write. *)
Record Request := mkRequest {
  Method : string;
  Host : string;
  Path : string;
  RequestURI : string;
  RemoteAddr : string;
  TLS : bool;
  Header : header;
}.

Definition with_header (h : header) (r : Request) : Request :=
  mkRequest (Method r) (Host r) (Path r) (RequestURI r) (RemoteAddr r) (TLS r) h.
Definition with_host (h : string) (r : Request) : Request :=
  mkRequest (Method r) h (Path r) (RequestURI r) (RemoteAddr r) (TLS r) (Header r).

(** What a handler does with its [http.ResponseWriter]. *)
Inductive act :=
  | Done
  | Panic
  | ReadHeader (k : header -> act)
  | UpdateHeader (f : header -> header) (k : act)
  | WriteHeader (code : Z) (k : act)
  | Write (data : string) (k : act)
  | Flush (k : act).

Definition Handler := Request -> act.
Definition Middleware := Handler -> Handler.

(** net/http's own writer: the header map, the status and headers once sent, the
    informational statuses sent before, the body. *)
Record rw := mkRW {
  hdr : header;
  sent : option (Z * header);
  early : list Z;
  body : string;
}.

Definition new_rw : rw := mkRW ∅ None [] "".

Definition informational (code : Z) : bool := (100 <=? code) && (code <? 200) && negb (code =? 101).

Definition rw_WriteHeader (code : Z) (w : rw) : rw :=
  match sent w with
  | Some _ => w
  | None =>
      if informational code then mkRW (hdr w) None (early w ++ [code]) (body w)
      else mkRW (hdr w) (Some (code, hdr w)) (early w) (body w)
  end.

Fixpoint exec (a : act) (w : rw) : rw * bool :=
  match a with
  | Done => (w, true)
  | Panic => (w, false)
  | ReadHeader k => exec (k (hdr w)) w
  | UpdateHeader f k => exec k (mkRW (f (hdr w)) (sent w) (early w) (body w))
  | WriteHeader code k => exec k (rw_WriteHeader code w)
  | Write data k =>
      let w := rw_WriteHeader 200 w in exec k (mkRW (hdr w) (sent w) (early w) (body w +:+ data))
  | Flush k => exec k (rw_WriteHeader 200 w)
  end.

(** What the client has when the handler returns: a response that was not started is
    an empty 200. *)
Definition respond (a : act) : rw := rw_WriteHeader 200 (exec a new_rw).1.

(** [http.NotFoundHandler()]: [http.Error] drops the entity headers it replaces. *)
Definition http_Error (msg : string) (code : Z) : act :=
  UpdateHeader (fun h => <["X-Content-Type-Options" := ["nosniff"]]>
                  (<["Content-Type" := ["text/plain; charset=utf-8"]]> (delete "Content-Length" h)))
    (WriteHeader code (Write (msg +:+ String "010"%char "") Done)).
Definition NotFoundHandler : Handler := fun _ => http_Error "404 page not found" 404.

Module Middlewares.

(** [Handler.ServeHandler] ignores what it wraps. *)
Definition FromHandler (h : Handler) : Middleware := fun _ => h.

Definition MiddlewareFunc (f : Handler -> Handler) : Middleware := f.

(** [Use]: a nil middleware is ignored. *)
Definition Use (ms : list Middleware) (m : option Middleware) : list Middleware :=
  match m with None => ms | Some m => ms ++ [m] end.

(** [for i := len(ms); i > 0; i--]: the loop with [i] left. *)
Fixpoint serve_loop (ms : list Middleware) (i : nat) (h : Handler) : Handler :=
  match i with
  | O => h
  | S i' => match ms !! i' with
            | Some m => serve_loop ms i' (m h)
            | None => h
            end
  end.
Definition ServeHandler (ms : list Middleware) : Middleware := fun h => serve_loop ms (length ms) h.

Record Cond := mkCond { If : Request -> bool; Then : Middleware; Else : option Middleware }.

Definition CondServe (m : Cond) : Middleware := fun h =>
  let thenh := Then m h in
  let elseh := match Else m with Some e => e h | None => h end in
  fun r => if If m r then thenh r else elseh r.

End Middlewares.

Module Block.

(** [Match] is nil, or a test that may panic. *)
Record Block := mk { Match : option (Request -> option bool); ms : list Middleware }.

Definition New (m : option (Request -> option bool)) : Block := mk m [].
Definition Use (b : Block) (m : option Middleware) : Block := mk (Match b) (Middlewares.Use (ms b) m).

Definition ServeHandler (b : Block) : Middleware := fun h =>
  let next := Middlewares.ServeHandler (ms b) NotFoundHandler in
  match Match b with
  | None => next
  | Some matches => fun r =>
      match matches r with
      | None => Panic
      | Some true => next r
      | Some false => h r
      end
  end.

End Block.

Module MiddlewareFacts.
Import Middlewares Block.

Lemma serve_loop_take (ms : list Middleware) i h :
  (i <= length ms)%nat -> serve_loop ms i h = foldr (fun m h => m h) h (take i ms).
Proof.
  revert h. induction i as [|i IH]; intros h Hi; [by rewrite take_0|]. cbn [serve_loop].
  destruct (lookup_lt_is_Some_2 ms i) as [m Hm]; [lia|]. rewrite (take_S_r ms i m Hm), foldr_app. cbn.
  destruct (ms !! i) as [m'|]; [|done]. injection Hm as ->. by apply IH; lia.
Qed.

(** The loop builds the nest [m1 (m2 (... h))]. *)
Lemma serve_foldr (ms : list Middleware) h : Middlewares.ServeHandler ms h = foldr (fun m h => m h) h ms.
Proof. unfold Middlewares.ServeHandler. rewrite serve_loop_take by done. by rewrite firstn_all. Qed.

Lemma serve_app (ms ms' : list Middleware) h :
  Middlewares.ServeHandler (ms ++ ms') h = Middlewares.ServeHandler ms (Middlewares.ServeHandler ms' h).
Proof. rewrite !serve_foldr. apply foldr_app. Qed.

Definition selects (b : Block) (r : Request) : option bool :=
  match Match b with None => Some true | Some f => f r end.

(** What a block does with a request it does not pass on. *)
Definition takes (b : Block) (r : Request) : act :=
  match selects b r with
  | None => Panic
  | Some _ => foldr (fun m h => m h) NotFoundHandler (ms b) r
  end.

Lemma block_serves b h r :
  Block.ServeHandler b h r = if bool_decide (selects b r = Some false) then h r else takes b r.
Proof.
  unfold Block.ServeHandler, takes, selects. destruct (Match b) as [f|]; [|by rewrite serve_foldr].
  destruct (f r) as [[]|]; cbn; by rewrite ?serve_foldr.
Qed.

(** A chain runs its middlewares outermost first, in the order they were used; a
    chain of blocks sends a request to the inner chain of the first block that matches
    it, ended by a 404, and to what follows the chain when none does: no later block
    and no handler after it sees a request a block took. *)
Theorem chain_first_block (bs : list Block) (rest : list Middleware) h r :
  Middlewares.ServeHandler ((Block.ServeHandler <$> bs) ++ rest) h r =
  match list_find (fun b => selects b r <> Some false) bs with
  | Some (_, b) => takes b r
  | None => foldr (fun m h => m h) h rest r
  end.
Proof.
  rewrite serve_app, !serve_foldr. induction bs as [|b bs IH]; cbn; [done|].
  rewrite block_serves. case_bool_decide as Eb.
  - rewrite decide_False by tauto. rewrite IH. by destruct (list_find _ bs) as [[i b']|].
  - by rewrite decide_True.
Qed.
End MiddlewareFacts.
