(* ===== verification/Routing.v ===== *)
(** * Routing by host and by path

    [src/pkg/host] (host.go, cidr.go, stripport.go, tolower.go) and [src/pkg/location]
    (exact.go, prefix.go): the tests of the blocks they build, and the two middlewares
    that rewrite the host. *)

From Stdlib Require Import Ascii.
From S2P Require Import Prelude Http GoStrings GoNet RoundRobin UpstreamHandler Middleware.

Module Host.
Import NetIP.

Definition is_upper (c : ascii) : bool := let n := N_of_ascii c in ((65 <=? n) && (n <=? 90))%N.
(** [c >= utf8.RuneSelf]. *)
Definition non_ascii (c : ascii) : bool := (128 <=? N_of_ascii c)%N.

Definition ends_with (c : ascii) (h : list ascii) : bool := bool_decide (last h = Some c).

(** A slice [h[:len(h)-1]] panics on the empty string. *)
Definition drop_last (h : list ascii) : option (list ascii) :=
  match h with [] => None | _ => Some (take (length h - 1) h) end.

Definition normalizeHostSlow (h : list ascii) (hasColon trailingDot needsLower : bool) : option string :=
  let '(h, trailingDot) :=
    if hasColon then
      let h := match SplitHostPort (text h) with
               | Some (host, _) => chars host
               | None => if bool_decide (head h = Some "["%char) && ends_with "]"%char h
                         then drop 1 (take (length h - 1) h) else h
               end in
      (h, if (0 <? length h)%nat then ends_with "."%char h else trailingDot)
    else (h, trailingDot) in
  h ← (if trailingDot then drop_last h else Some h);
  Some (if needsLower then ToLower (text h) else text h).

(** [None] is a panic. *)
Definition normalizeHost (host : string) : option string :=
  let h := chars host in
  match h with
  | [] => Some host
  | _ =>
      let needsLower := existsb (fun c => is_upper c || non_ascii c) h in
      let hasColon := existsb (Ascii.eqb ":"%char) h in
      let trailingDot := ends_with "."%char h in
      if negb needsLower && negb hasColon && negb trailingDot then Some host
      else normalizeHostSlow h hasColon trailingDot needsLower
  end.

(** [for h != ""]: each round drops a label, so the length of [h] bounds the rounds. *)
Fixpoint wildcard (hosts : gset string) (fuel : nat) (h : list ascii) : bool :=
  match fuel with
  | O => false
  | S fuel =>
      match IndexByte "."%char h with
      | None | Some O => false
      | Some i =>
          if bool_decide ("*" +:+ text (drop i h) ∈ hosts) then true
          else wildcard hosts fuel (drop (S i) h)
      end
  end.

Definition matches (hosts : gset string) (r : Request) : option bool :=
  h ← normalizeHost (Host r);
  Some (bool_decide (h ∈ hosts) || wildcard hosts (S (String.length h)) (chars h)).

(** [New]; [None] when a configured name panics. *)
Definition New (host : list string) : option Block.Block :=
  names ← mapM normalizeHost host;
  let hostMap : gset string := list_to_set names in
  Some (match host with
        | [] => Block.New (Some (fun _ => Some false))
        | _ => if bool_decide ("*" ∈ hostMap) then Block.New None else Block.New (Some (matches hostMap))
        end).

Definition stripHostPort (h : string) : string :=
  if negb (existsb (Ascii.eqb ":"%char) (chars h)) then h
  else match SplitHostPort h with None => h | Some (host, _) => host end.

Definition StripPort : Middleware := fun h r => h (with_host (stripHostPort (Host r)) r).

Definition ToLowerHost : Middleware := fun h r => h (with_host (ToLower (Host r)) r).

Definition in_nets (nets : list IPNet) (r : Request) : bool :=
  let requestHost := split_host (Host r) in
  let requestHost := if String.eqb requestHost "" then Host r else requestHost in
  match ParseIP requestHost with
  | None => false
  | Some ip => existsb (fun n => Contains n ip) nets
  end.

(** [None] is the panic on a CIDR that does not parse. *)
Definition NewCIDR (pattern : list string) : option Block.Block :=
  match pattern with
  | [] => Some (Block.New (Some (fun _ => Some false)))
  | _ => nets ← mapM ParseCIDR pattern; Some (Block.New (Some (fun r => Some (in_nets nets r))))
  end.

End Host.

Module Location.

Definition Exact (pattern : string) : Block.Block :=
  Block.New (Some (fun r => Some (String.eqb (Path r) pattern))).

Definition prefix_matches (pattern p : string) : bool :=
  if negb (HasPrefix pattern p) then false
  else if (String.length p =? String.length pattern)%nat then true
  else if HasSuffix "/"%char pattern then true
  else bool_decide (String.get (String.length pattern) p = Some "/"%char).

Definition Prefix (pattern : string) : Block.Block :=
  if String.eqb pattern "" then Block.New None
  else Block.New (Some (fun r => Some (prefix_matches pattern (Path r)))).

End Location.

Example host_ex :
  let go hosts h := (fun b => MiddlewareFacts.selects b (mkRequest "GET" h "/" "/" "" false ∅)) <$> Host.New hosts in
  go ["*.moonrhythm.io"] "www.test.MoonRhythm.io:443" = Some (Some true) /\
  go ["*.moonrhythm.io"] "moonrhythm.io" = Some (Some false) /\
  go ["[::1]"] "[::1]:8080" = Some (Some true) /\ go ["host"] "[host]" = Some (Some false) /\
  go ["moonrhythm.io"] "moonrhythm.io." = Some (Some true) /\ go ["moonrhythm.io"] ".com" = Some (Some false) /\
  go [] "localhost" = Some (Some false) /\ go ["*"] "localhost" = Some (Some true) /\
  go ["moonrhythm.io"] ":80." = Some None.
Proof. vm_compute. repeat split. Qed.

Module RoutingFacts.
Import NetIP Host Location.

(** ** Normalization *)

Definition strip_port (h : list ascii) : list ascii :=
  if existsb (Ascii.eqb ":"%char) h then
    match SplitHostPort (text h) with
    | Some (host, _) => chars host
    | None => if bool_decide (head h = Some "["%char) && ends_with "]"%char h
              then drop 1 (take (length h - 1) h) else h
    end
  else h.

Definition strip_dot (h : list ascii) : list ascii :=
  if ends_with "."%char h then take (length h - 1) h else h.

(** The name a host stands for: no port, no final dot, in lower case. *)
Definition canonical_host (host : string) : string := ToLower (text (strip_dot (strip_port (chars host)))).

(** A port that ends in a dot, and no host before it. *)
Definition only_port (host : string) : bool :=
  bool_decide (strip_port (chars host) = []) && ends_with "."%char (chars host).

Definition lowered (c : ascii) : Prop := is_upper c || non_ascii c = false.

Lemma ToLower_lowered h : Forall lowered h -> ToLower (text h) = text h.
Proof.
  induction 1 as [|c h Hc _ IH]; [done|]. cbn. f_equal; [|exact IH]. unfold lowered in Hc.
  apply orb_false_iff in Hc as [Hc _]. unfold is_upper in Hc. unfold lower_ascii. by rewrite Hc.
Qed.

Lemma existsb_lowered h : existsb (fun c => is_upper c || non_ascii c) h = false -> Forall lowered h.
Proof.
  induction h as [|c h IH]; cbn; [by constructor|]. rewrite orb_false_iff. intros [H1 H2]. constructor; [exact H1|auto].
Qed.

(** The host of [SplitHostPort] is a piece of its argument. *)
Lemma SplitHostPort_piece P s host port :
  SplitHostPort s = Some (host, port) -> Forall P (chars s) -> Forall P (chars host).
Proof.
  unfold SplitHostPort. destruct (LastIndexByte _ _) as [i|]; [|done]. cbn -[IndexByte take drop].
  generalize (chars s) as cs. intros cs H HP.
  assert (forall n m, Forall P (drop n (take m cs))) as HPP by (intros; by apply Forall_drop, Forall_take).
  repeat (case_match; try done); simplify_option_eq; repeat (case_match; try done);
    try (injection H as <- <-); rewrite ?chars_text; first [apply (HPP 0%nat)|exact (HPP 1%nat (S _))|apply HPP].
Qed.

Lemma strip_port_piece P h : Forall P h -> Forall P (strip_port h).
Proof.
  intros HP. unfold strip_port. destruct (existsb _ h); [|done].
  destruct (SplitHostPort (text h)) as [[host port]|] eqn:Es.
  - apply (SplitHostPort_piece P _ _ _ Es). by rewrite chars_text.
  - destruct (_ && _); [|done]. by apply Forall_drop, Forall_take.
Qed.

Lemma strip_dot_piece P h : Forall P h -> Forall P (strip_dot h).
Proof. intros HP. unfold strip_dot. destruct (ends_with _ h); [by apply Forall_take|done]. Qed.

Lemma drop_last_dot h : ends_with "."%char h = true -> drop_last h = Some (strip_dot h).
Proof. intros E. unfold strip_dot. rewrite E. destruct h; [done|]. reflexivity. Qed.

(** Normalizing a host, by the fast path or the slow one, gives its canonical
    form: without its port (or the brackets of an IPv6 literal), without a final dot,
    in lower case; and it panics exactly when the host is an empty name and a port
    that ends in a dot. *)
Theorem host_normalize host :
  normalizeHost host = if only_port host then None else Some (canonical_host host).
Proof.
  unfold normalizeHost, only_port, canonical_host. destruct (chars host) as [|c cs] eqn:Eh.
  { rewrite <- (text_chars host), Eh. done. }
  assert (host = text (c :: cs)) as Hh by (rewrite <- Eh; by rewrite text_chars).
  set (h := c :: cs) in *. assert (h <> []) as Hne by done. clearbody h. clear Eh.
  assert (existsb (fun c => is_upper c || non_ascii c) h = false -> forall h', (forall P, Forall P h -> Forall P h') -> ToLower (text h') = text h') as HL.
  { intros E h' H. apply ToLower_lowered, H. by apply existsb_lowered. }
  assert (h = [] -> False) by done.
  destruct (negb _ && negb _ && negb _) eqn:Ef.
  - rewrite !andb_true_iff, !negb_true_iff in Ef. destruct Ef as [[E1 E2] E3].
    unfold strip_port. rewrite E2. rewrite bool_decide_false by done. cbn [andb]. unfold strip_dot. rewrite E3.
    rewrite HL by done. by rewrite Hh.
  - unfold normalizeHostSlow. set (lo := existsb (fun c => is_upper c || non_ascii c) h) in *.
    assert (forall h', (forall P, Forall P h -> Forall P h') ->
      (if lo then ToLower (text h') else text h') = ToLower (text h')) as HLo.
    { intros h' Hp. destruct lo; [done|]. symmetry. by apply HL. }
    destruct (existsb (Ascii.eqb ":"%char) h) eqn:E2.
    + set (h1 := match SplitHostPort (text h) with Some _ => _ | None => _ end).
      assert (strip_port h = h1) as -> by (unfold strip_port; by rewrite E2).
      assert (forall P, Forall P h -> Forall P (strip_dot h1)) as Hp.
      { intros P HP. apply strip_dot_piece. replace h1 with (strip_port h) by (unfold strip_port; by rewrite E2). by apply strip_port_piece. }
      destruct h1 as [|d ds] eqn:E1; cbn [length Nat.ltb Nat.leb].
      * rewrite bool_decide_true by done. cbn [andb]. destruct (ends_with _ h); [done|]. cbn. by destruct lo.
      * rewrite bool_decide_false by done. cbn [andb]. rewrite <- E1 in *. clear E1.
        destruct (ends_with "."%char h1) eqn:E3.
        -- rewrite drop_last_dot by done. cbn. by rewrite HLo.
        -- cbn. assert (strip_dot h1 = h1) as Hs by (unfold strip_dot; by rewrite E3). rewrite Hs in *. by rewrite HLo.
    + assert (strip_port h = h) as -> by (unfold strip_port; by rewrite E2). rewrite bool_decide_false by done. cbn [andb].
      destruct (ends_with "."%char h) eqn:E3.
      * rewrite drop_last_dot by done. cbn. rewrite HLo; [done|]. intros P. apply strip_dot_piece.
      * cbn. assert (strip_dot h = h) as -> by (unfold strip_dot; by rewrite E3). by rewrite HLo.
Qed.

(** ** Wildcards, by labels *)

Definition dot : ascii := "."%char.

Lemma Join_Split c s : Join (String c "") (Split c s) = s.
Proof.
  induction s as [|d s IH]; [done|]. cbn [Split]. destruct (Ascii.eqb d c) eqn:Ed.
  - apply Ascii.eqb_eq in Ed as ->. pose proof (Split_ne c s) as Hn.
    change (Join (String c "") ("" :: Split c s)) with
      (match Split c s with [] => "" | _ => "" +:+ (String c "" +:+ Join (String c "") (Split c s)) end).
    rewrite IH. destruct (Split c s); [by destruct Hn|reflexivity].
  - destruct (Split c s) as [|p ps] eqn:Es; [by apply Split_ne in Es|]. rewrite <- IH.
    destruct ps; reflexivity.
Qed.

Lemma IndexByte_Split c h :
  match IndexByte c h with
  | None => Split c (text h) = [text h]
  | Some i => Split c (text h) = text (take i h) :: Split c (text (drop (S i) h)) /\
              drop i h = c :: drop (S i) h /\ (text (take i h) = "" <-> i = 0%nat)
  end.
Proof.
  induction h as [|d h IH]; [done|]. cbn [IndexByte]. change (text (d :: h)) with (String d (text h)). cbn [Split].
  rewrite (Ascii.eqb_sym d c). destruct (Ascii.eqb c d) eqn:Ed.
  - apply Ascii.eqb_eq in Ed as <-. done.
  - destruct (IndexByte c h) as [i|]; cbn [fmap option_fmap option_map].
    + destruct IH as (-> & H2 & _). split; [done|]. split; [exact H2|]. done.
    + by rewrite IH.
Qed.

(** A configured wildcard covers the labels from some non-empty prefix on. *)
Definition covered (hosts : gset string) (labels : list string) : Prop :=
  exists k, (0 < k < length labels)%nat /\ Forall (fun s => s <> "") (take k labels) /\
    "*." +:+ Join "." (drop k labels) ∈ hosts.

Lemma covered_cons hosts s ls :
  ls <> [] -> covered hosts (s :: ls) <-> s <> "" /\ ("*." +:+ Join "." ls ∈ hosts \/ covered hosts ls).
Proof.
  intros Hne. split.
  - intros (k & Hk & HF & Hin). destruct k as [|k]; [lia|]. cbn [take drop] in *. apply Forall_cons in HF as [Hs HF].
    split; [done|]. destruct k as [|k]; [by left|right]. exists (S k). cbn in Hk. split; [lia|done].
  - intros [Hs [Hin|(k & Hk & HF & Hin)]].
    + exists 1%nat. split; [destruct ls; [done|cbn; lia]|]. cbn. rewrite take_0. split; [by repeat constructor|done].
    + exists (S k). cbn. split; [lia|]. split; [by constructor|done].
Qed.

Lemma wildcard_covered hosts fuel h :
  (length h < fuel)%nat -> wildcard hosts fuel h = true <-> covered hosts (Split dot (text h)).
Proof.
  revert h. induction fuel as [|fuel IH]; intros h Hl; [lia|]. cbn [wildcard].
  pose proof (IndexByte_Split dot h) as HI. destruct (IndexByte dot h) as [i|] eqn:Ei; unfold dot in *; rewrite Ei.
  - destruct HI as (-> & Hd & Hz). rewrite covered_cons by apply Split_ne. destruct i as [|i].
    + split; [done|]. intros [Hs _]. by destruct Hs, Hz as [_ ->].
    + assert (text (take (S i) h) <> "") as Hs by (intros E; by apply Hz in E).
      assert ("*" +:+ text (drop (S i) h) = "*." +:+ Join "." (Split "."%char (text (drop (S (S i)) h)))) as ->.
      { rewrite Hd. rewrite (Join_Split "."%char). done. }
      assert (length (drop (S (S i)) h) < fuel)%nat as Hl'.
      { rewrite length_drop. destruct h; [by rewrite drop_nil in Hd|cbn in *; lia]. }
      specialize (IH _ Hl'). case_bool_decide as Ein; [split; [tauto|done]|]. rewrite IH. tauto.
  - rewrite HI. split; [done|]. intros (k & Hk & _). cbn in Hk. lia.
Qed.

(** A host block built for some names (none of them the lone star) takes a
    request exactly when the canonical form of its host is the canonical form of a
    name, or some name is a star and a dot before what is left of the host after one
    or more of its leading labels, all of them non-empty; it never matches across a
    label. *)
Theorem host_matches_labels host hs names b r :
  mapM normalizeHost (host :: hs) = Some names -> New (host :: hs) = Some b -> "*" ∉ names ->
  only_port (Middleware.Host r) = false ->
  MiddlewareFacts.selects b r = Some true <->
  canonical_host (Middleware.Host r) ∈ names \/
  covered (list_to_set names) (Split dot (canonical_host (Middleware.Host r))).
Proof.
  intros Hn Hb Hs Hp. unfold New in Hb. rewrite Hn in Hb. cbn in Hb.
  rewrite bool_decide_false in Hb by (by rewrite elem_of_list_to_set). injection Hb as <-.
  unfold MiddlewareFacts.selects. cbn. unfold matches. rewrite host_normalize, Hp. cbn.
  set (n := canonical_host _).
  assert (length (chars n) < S (String.length n))%nat as Hl.
  { rewrite chars_length. lia. }
  pose proof (wildcard_covered (list_to_set names) _ _ Hl) as HW. rewrite text_chars in HW. rewrite <- HW.
  split.
  - intros [= H]. apply orb_true_iff in H as [H|H]; [left|by right].
    apply bool_decide_eq_true in H. by apply elem_of_list_to_set in H.
  - intros H. f_equal. apply orb_true_iff. destruct H as [H|H]; [left|by right].
    apply bool_decide_eq_true. by apply elem_of_list_to_set.
Qed.

(** ** Path prefixes, by segments *)

Lemma get_app a b : String.get (String.length a) (a +:+ b) = String.get 0 b.
Proof. induction a as [|c a IH]; [done|]. exact IH. Qed.

Lemma Join_app sep a b : a <> [] -> b <> [] -> Join sep (a ++ b) = Join sep a +:+ (sep +:+ Join sep b).
Proof.
  intros Ha Hb. induction a as [|x a IH]; [done|]. destruct a as [|y a].
  - destruct b; [done|]. reflexivity.
  - change (Join sep ((x :: y :: a) ++ b)) with (x +:+ (sep +:+ Join sep ((y :: a) ++ b))). rewrite IH by done.
    change (Join sep (x :: y :: a)) with (x +:+ (sep +:+ Join sep (y :: a))). by rewrite !append_assoc.
Qed.

(** At or below the pattern. *)
Lemma prefix_matches_iff pattern p :
  HasSuffix slash pattern = false ->
  prefix_matches pattern p = true <-> p = pattern \/ (exists t, p = pattern +:+ String slash t).
Proof.
  intros Hs. unfold prefix_matches. fold slash. rewrite Hs. destruct (HasPrefix pattern p) eqn:Ep; cbn [negb].
  - apply HasPrefix_app in Ep as [t ->]. rewrite append_length, get_app. destruct t as [|c t].
    + rewrite append_nil_r, Nat.add_0_r, Nat.eqb_refl. split; [by left|done].
    + destruct (Nat.eqb_spec (String.length pattern + String.length (String c t)) (String.length pattern)) as [E|_]; [cbn in E; lia|].
      cbn [String.get]. rewrite bool_decide_eq_true. split.
      * intros [= ->]. right. by exists t.
      * intros [E|[t' E]].
        -- apply (f_equal String.length) in E. rewrite append_length in E. cbn in E. lia.
        -- f_equal. revert E. induction pattern as [|d q IH]; [by intros [= -> _]|].
           intros E. rewrite !append_cons in E. injection E as E. revert E. clear. induction q as [|d q IH]; [by intros [= -> _]|].
           intros E. rewrite !append_cons in E. injection E as E. by apply IH.
  - split; [done|]. intros H. assert (HasPrefix pattern p = true) as E; [|congruence]. apply HasPrefix_app.
    destruct H as [->|[t ->]]; [exists ""; by rewrite append_nil_r|by eexists].
Qed.

(** A prefix location whose pattern does not end in a slash takes exactly the
    paths whose segments begin with the pattern's segments: it matches the pattern
    itself and everything below it, and never a longer first segment such as /adminxyz
    under /admin. *)
Theorem location_prefix_segments pattern r :
  pattern <> "" -> HasSuffix slash pattern = false ->
  MiddlewareFacts.selects (Prefix pattern) r = Some true <-> Split slash pattern `prefix_of` Split slash (Path r).
Proof.
  intros Hne Hs. unfold Prefix. destruct (String.eqb_spec pattern "") as [|_]; [done|].
  unfold MiddlewareFacts.selects. cbn. transitivity (prefix_matches pattern (Path r) = true); [by split; [intros [=]|intros ->]|].
  rewrite prefix_matches_iff by done. split.
  - intros [->|[t ->]]; [done|]. rewrite Split_app. by eexists.
  - intros [more Hm]. pose proof (Join_Split slash (Path r)) as E. rewrite Hm in E. rewrite <- E. destruct more as [|m more].
    + left. rewrite app_nil_r. apply Join_Split.
    + right. rewrite Join_app; [|apply Split_ne|done]. rewrite Join_Split. by eexists.
Qed.

(** ** Examples *)

Lemma host_matches_labels_witness :
  let r := mkRequest "GET" "A.b.Example.com:443" "/" "/" "" false ∅ in
  exists b, New ["*.example.com"; "example.org"] = Some b /\
  MiddlewareFacts.selects b r = Some true /\ covered {["*.example.com"; "example.org"]} ["a"; "b"; "example"; "com"].
Proof.
  destruct (New ["*.example.com"; "example.org"]) as [b|] eqn:Eb; [|discriminate Eb]. exists b. split; [done|].
  assert (covered {["*.example.com"; "example.org"]} ["a"; "b"; "example"; "com"]) as Hc.
  { exists 2%nat. split; [cbn; lia|]. split; [repeat constructor; done|]. apply (bool_decide_unpack _). vm_compute. exact I. }
  split; [|exact Hc].
  apply (host_matches_labels "*.example.com" ["example.org"] ["*.example.com"; "example.org"] b); [reflexivity|exact Eb| |reflexivity|].
  - apply (bool_decide_unpack _). vm_compute. exact I.
  - right. assert (list_to_set ["*.example.com"; "example.org"] = ({["*.example.com"; "example.org"]} : gset string)) as -> by set_solver.
    exact Hc.
Defined.

Lemma location_prefix_segments_witness :
  MiddlewareFacts.selects (Prefix "/admin") (mkRequest "GET" "" "/admin/x" "" "" false ∅) = Some true /\
  MiddlewareFacts.selects (Prefix "/admin") (mkRequest "GET" "" "/adminxyz" "" "" false ∅) <> Some true.
Proof.
  split; [apply location_prefix_segments; [done|reflexivity|]; by eexists|].
  intros H. apply location_prefix_segments in H as [t Ht]; [discriminate Ht|done|reflexivity].
Defined.
End RoutingFacts.
