(* ===== verification/CacheKeys.v ===== *)
(** * pkg/cache: cache keys

    [primaryHash], [schemeOf], [normalizeHost] and [variantHashFor] of
    [src/pkg/cache/cache.go].  The digest (SHA-256, truncated, in hex) is a parameter
    [sha]: that it has no collisions and writes no NUL byte is the only thing the
    theorems ask of it. *)

From Stdlib Require Import Ascii.
From S2P Require Import Prelude GoStrings GoNet.

(** ** http.CanonicalHeaderKey *)

Definition upper_ascii (c : ascii) : ascii :=
  let n := N_of_ascii c in
  if ((97 <=? n) && (n <=? 122))%N then ascii_of_N (n - 32) else c.

(** The bytes of a header field name. *)
Definition token_byte (c : ascii) : bool :=
  let n := N_of_ascii c in
  ((48 <=? n) && (n <=? 57) || (65 <=? n) && (n <=? 90) || (97 <=? n) && (n <=? 122))%N
  || bool_decide (c ∈ chars "!#$%&'*+-.^_`|~").

Fixpoint canonical (upper : bool) (s : list ascii) : list ascii :=
  match s with
  | [] => []
  | c :: s => (if upper then upper_ascii c else lower_ascii c) :: canonical (Ascii.eqb c "-"%char) s
  end.

Definition CanonicalHeaderKey (s : string) : string :=
  if forallb token_byte (chars s) then text (canonical true (chars s)) else s.

Module CacheKeys.

(** The parts of a request the cache reads. *)
Record Request := mkRequest {
  Method : string;
  Host : string;
  RequestURI : string;
  Header : header;
  TLS : bool;
}.

Definition normalizeHost (host : string) : string :=
  let host := ToLower host in
  match SplitHostPort host with Some (h, _) => h | None => host end.

Definition schemeOf (r : Request) : string :=
  let xfp := HGet (Header r) "X-Forwarded-Proto" in
  if EqualFold xfp "https" then "https"
  else if EqualFold xfp "http" then "http"
  else if TLS r then "https" else "http".

Definition nl : string := String "010"%char "".
Definition nul : string := String "000"%char "".

(** What is digested for a primary key. *)
Definition primary_text (r : Request) : string :=
  normalizeHost (Host r) +:+ nl +:+ Method r +:+ nl +:+ schemeOf r +:+ nl +:+ RequestURI r.

(** [name=value\n] for each name, in order. *)
Fixpoint variance (names : list string) (h : header) : string :=
  match names with
  | [] => ""
  | name :: names => name +:+ "=" +:+ HGet h (CanonicalHeaderKey name) +:+ nl +:+ variance names h
  end.

Section Digest.
Context (sha : string -> string).

Definition primaryHash (r : Request) : string := sha (primary_text r).

Definition variantHashFor (primaryHex : string) (names : list string) (h : header) : string :=
  sha (primaryHex +:+ nul +:+ variance names h).
End Digest.

End CacheKeys.

Module CacheKeysFacts.
Import CacheKeys.

(** ** Cutting at a separator *)

Definition free (c : ascii) (s : string) : Prop := c ∉ chars s.

(** Text up to the first separator determines both sides. *)
Lemma cut_inj c a b x y :
  free c a -> free c b -> a +:+ String c x = b +:+ String c y -> a = b /\ x = y.
Proof.
  unfold free. revert b. induction a as [|u a IH]; intros [|v b] Ha Hb.
  - by intros [= ->].
  - intros [= <- _]. destruct Hb. cbn. set_solver.
  - intros [= -> _]. destruct Ha. cbn. set_solver.
  - rewrite !append_cons. intros [= <- E].
    destruct (IH b) as [-> ->]; [cbn in *; set_solver..|done].
Qed.

(** A name that can be told from its value, a value that can be told from the next
    name. *)
Definition good_name (s : string) : Prop := free "="%char s.
Definition good_value (s : string) : Prop := free "010"%char s.

Lemma variance_inj names names' h h' :
  Forall good_name names -> Forall good_name names' ->
  (forall k, good_value (HGet h k)) -> (forall k, good_value (HGet h' k)) ->
  variance names h = variance names' h' ->
  names = names' /\ Forall (fun n => HGet h (CanonicalHeaderKey n) = HGet h' (CanonicalHeaderKey n)) names.
Proof.
  intros Hn. revert names'. induction Hn as [|n names Hn Hns IH]; intros [|n' names'] Hn' Hv Hv' E.
  - done.
  - exfalso. destruct n'; discriminate.
  - exfalso. destruct n; discriminate.
  - apply Forall_cons in Hn' as [Hn' Hns']. cbn [variance] in E.
    apply (cut_inj "="%char) in E as [-> E]; [|done|done].
    apply (cut_inj "010"%char) in E as [Ev E]; [|apply Hv|apply Hv'].
    destruct (IH names' Hns' Hv Hv' E) as [-> H]. split; [done|]. by constructor.
Qed.

(** ** Collisions *)

Class Digest (sha : string -> string) : Prop := {
  sha_inj : Inj (=) (=) sha;
  sha_hex s : free "000"%char (sha s);
}.

(** A request whose parts have no line break, as net/http ensures. *)
Record well_formed (r : Request) : Prop := {
  wf_host : good_value (normalizeHost (Host r));
  wf_method : good_value (Method r);
  wf_header k : good_value (HGet (Header r) k);
}.

Lemma schemeOf_good r : good_value (schemeOf r).
Proof.
  unfold schemeOf, good_value, free. repeat case_match; by apply (bool_decide_unpack (_ ∉ _)).
Qed.

Lemma primary_inj sha `{!Digest sha} r r' :
  well_formed r -> well_formed r' -> primaryHash sha r = primaryHash sha r' ->
  normalizeHost (Host r) = normalizeHost (Host r') /\ Method r = Method r' /\
  schemeOf r = schemeOf r' /\ RequestURI r = RequestURI r'.
Proof.
  intros Hr Hr' E. apply (sha_inj (sha := sha)) in E. unfold primary_text in E.
  apply (cut_inj "010"%char) in E as [E1 E]; [|by apply wf_host..].
  apply (cut_inj "010"%char) in E as [E2 E]; [|by apply wf_method..].
  apply (cut_inj "010"%char) in E as [E3 E]; [|apply schemeOf_good..]. done.
Qed.

(** Equal keys come from the same primary, names and values. *)
Lemma keys_faithful sha `{!Digest sha} r r' names names' :
  well_formed r -> well_formed r' -> Forall good_name names -> Forall good_name names' ->
  variantHashFor sha (primaryHash sha r) names (Header r) =
  variantHashFor sha (primaryHash sha r') names' (Header r') ->
  (normalizeHost (Host r) = normalizeHost (Host r') /\ Method r = Method r' /\
   schemeOf r = schemeOf r' /\ RequestURI r = RequestURI r') /\
  names = names' /\
  Forall (fun n => HGet (Header r) (CanonicalHeaderKey n) = HGet (Header r') (CanonicalHeaderKey n)) names.
Proof.
  intros Hr Hr' Hn Hn' E. apply (sha_inj (sha := sha)) in E.
  apply (cut_inj "000"%char) in E as [Ep E]; [|apply (sha_hex (sha := sha))..].
  split; [by apply (primary_inj sha)|]. apply variance_inj; [done|done|by apply wf_header..|done].
Qed.

(** Two well-formed requests get the same storage key only if they agree on the
    normalized host, the method, the scheme and the URI, their responses vary on the
    same header names, and they carry the same values of those headers: one variant or
    one site is never served for another. *)
Theorem cache_keys_faithful sha `{!Digest sha} r r' names names' :
  well_formed r -> well_formed r' -> Forall good_name names -> Forall good_name names' ->
  variantHashFor sha (primaryHash sha r) names (Header r) =
  variantHashFor sha (primaryHash sha r') names' (Header r') ->
  (normalizeHost (Host r) = normalizeHost (Host r') /\ Method r = Method r' /\
   schemeOf r = schemeOf r' /\ RequestURI r = RequestURI r') /\
  names = names' /\
  Forall (fun n => HGet (Header r) (CanonicalHeaderKey n) = HGet (Header r') (CanonicalHeaderKey n)) names.
Proof. apply (keys_faithful sha). Qed.

(** ** A digest without collisions *)

Definition hex_char (b0 b1 b2 b3 : bool) : ascii := Ascii b0 b1 b2 b3 false false true false.
Definition hex_of (c : ascii) : list ascii :=
  match c with Ascii a b c d e f g h => [hex_char a b c d; hex_char e f g h] end.
Definition demo_sha (s : string) : string := text (mbind hex_of (chars s)).

Lemma hex_inj l l' : mbind hex_of l = mbind hex_of l' -> l = l'.
Proof.
  revert l'. induction l as [|[] l IH]; intros [|[] l']; try done.
  cbn. intros [= -> -> -> -> -> -> -> -> E]. f_equal. by apply IH.
Qed.

#[export] Instance demo_digest : Digest demo_sha.
Proof.
  split.
  - intros s s' E. apply (f_equal chars) in E. unfold demo_sha in E. rewrite !chars_text in E.
    apply hex_inj in E. rewrite <- (String.string_of_list_ascii_of_string s), <- (String.string_of_list_ascii_of_string s').
    unfold chars in E. by rewrite E.
  - intros s. unfold free, demo_sha. rewrite chars_text. intros ([] & H & _)%list_elem_of_bind.
    unfold hex_of, hex_char in H. set_solver.
Qed.

Definition demo_req (lang : string) (h : string) : Request :=
  mkRequest "GET" h "/p?q=1" {["Accept-Language" := [lang]]} true.

Lemma demo_well_formed lang h :
  good_value (normalizeHost h) -> good_value lang -> well_formed (demo_req lang h).
Proof.
  intros Hh Hl. split; [done|by apply (bool_decide_unpack (_ ∉ _))|]. intros k. unfold demo_req, HGet, Values. cbn [Header].
  destruct (decide (k = "Accept-Language")) as [->|].
  - exact Hl.
  - assert (({["Accept-Language" := [lang]]} : gmap string (list string)) !! k = None) as E by (by apply lookup_singleton_ne).
    unfold header in *. rewrite E. by apply (bool_decide_unpack (_ ∉ _)).
Qed.

Lemma cache_keys_faithful_witness :
  let r := demo_req "th" "Example.com" in let r' := demo_req "th" "example.com:443" in
  variantHashFor demo_sha (primaryHash demo_sha r) ["accept-language"] (Header r) =
  variantHashFor demo_sha (primaryHash demo_sha r') ["accept-language"] (Header r') /\
  HGet (Header r) "Accept-Language" = HGet (Header r') "Accept-Language".
Proof.
  split; [vm_compute; reflexivity|].
  assert (forall h, good_value (normalizeHost h) -> well_formed (demo_req "th" h)) as W.
  { intros h Hh. apply demo_well_formed; [done|by apply (bool_decide_unpack (_ ∉ _))]. }
  assert (Forall good_name ["accept-language"]) as G.
  { constructor; [|constructor]. by apply (bool_decide_unpack (_ ∉ _)). }
  destruct (cache_keys_faithful demo_sha (demo_req "th" "Example.com") (demo_req "th" "example.com:443")
    ["accept-language"] ["accept-language"]) as (_ & _ & H);
    [apply W, (bool_decide_unpack (_ ∉ _)); vm_compute; reflexivity
    |apply W, (bool_decide_unpack (_ ∉ _)); vm_compute; reflexivity|exact G|exact G|vm_compute; reflexivity|].
  by apply Forall_cons in H as [H _].
Defined.
End CacheKeysFacts.
