(* ===== verification/Headers.v ===== *)
(** * Header middlewares

    [src/pkg/headers] (set, add, del, map, intercept), [src/pkg/header/header.go],
    [src/pkg/hsts], [src/pkg/cors], [src/pkg/requestid] and [src/pkg/redirect].  The
    response interceptor wraps the response writer: it is a function on the calls of
    the handler it wraps.  http.Redirect and the generator of UUIDs are parameters. *)

From Stdlib Require Import Ascii.
From stdpp Require Import pretty.
From S2P Require Import Prelude Http GoStrings GoNet RoundRobin UpstreamHandler Middleware CacheKeys.

(** ** pkg/header *)

Definition HExists (h : header) (key : string) : bool := negb (String.eqb (HGet h key) "").
Definition HSet (h : header) (key value : string) : header := <[key := [value]]> h.
Definition HAdd (h : header) (key value : string) : header := <[key := Values h key ++ [value]]> h.
Definition AddIfNotExists (h : header) (key value : string) : header :=
  if bool_decide (value ∈ Values h key) then h else HAdd h key value.

Module Headers.

Record Pair := mkPair { Key : string; Value : string }.

(** Pairs of arguments; a last one without its value is dropped. *)
Fixpoint buildHeaders (pairs : list string) : list Pair :=
  match pairs with
  | k :: v :: pairs => mkPair k v :: buildHeaders pairs
  | _ => []
  end.

Definition buildCanonicalHeaders (pairs : list string) : list Pair :=
  (fun p => mkPair (CanonicalHeaderKey (Key p)) (Value p)) <$> buildHeaders pairs.

Definition canonKeys (keys : list string) : list string := CanonicalHeaderKey <$> keys.

Definition set_all (hs : list Pair) (h : header) : header := foldl (fun h p => HSet h (Key p) (Value p)) h hs.
Definition add_all (hs : list Pair) (h : header) : header := foldl (fun h p => HAdd h (Key p) (Value p)) h hs.
Definition del_all (keys : list string) (h : header) : header := foldl (fun h k => delete k h) h keys.

(** [InterceptRequest]; [None] is a nil function. *)
Definition RequestInterceptor (intercept : option (header -> header)) : Middleware := fun h =>
  match intercept with
  | None => h
  | Some f => fun r => h (with_header (f (Header r)) r)
  end.

Definition SetRequest (headerpairs : list string) : Middleware :=
  let hs := buildCanonicalHeaders headerpairs in RequestInterceptor (Some (set_all hs)).
Definition AddRequest (headerpairs : list string) : Middleware :=
  let hs := buildCanonicalHeaders headerpairs in RequestInterceptor (Some (add_all hs)).
Definition DeleteRequest (headers : list string) : Middleware :=
  let keys := canonKeys headers in RequestInterceptor (Some (del_all keys)).
Definition MapRequest (key : string) (mapper : string -> string) : Middleware :=
  let key := CanonicalHeaderKey key in RequestInterceptor (Some (alter (fmap mapper) key)).

(** What an interceptor of responses does with its [ResponseHeaderWriter]. *)
Inductive iact :=
  | IDone
  | IRead (k : header -> iact)
  | IUpdate (f : header -> header) (k : iact)
  | IWriteHeader (code : Z) (k : iact).

(** [interceptRW]'s fields. *)
Record interceptRW := mkI { status : Z; wroteHeader : bool; intercepted : bool }.

(** The interceptor on the wrapped writer: [intercepted] is set, so its own
    [WriteHeader] only forwards. *)
Fixpoint run_intercept (i : iact) (w : interceptRW) (k : interceptRW -> act) : act :=
  match i with
  | IDone => k w
  | IRead g => ReadHeader (fun h => run_intercept (g h) w k)
  | IUpdate f i => UpdateHeader f (run_intercept i w k)
  | IWriteHeader code i =>
      if wroteHeader w then run_intercept i w k
      else WriteHeader code (run_intercept i (mkI (status w) true (intercepted w)) k)
  end.

Section Intercept.
Context (f : Z -> iact).

Definition intercept (w : interceptRW) (k : interceptRW -> act) : act :=
  if intercepted w then k w else run_intercept (f (status w)) (mkI (status w) (wroteHeader w) true) k.

Definition i_WriteHeader (code : Z) (w : interceptRW) (k : interceptRW -> act) : act :=
  let send w := if wroteHeader w then k w
                else WriteHeader code (k (mkI (status w) true (intercepted w))) in
  if intercepted w then send w else intercept (mkI code (wroteHeader w) false) send.

(** The calls of the handler through the wrapper, and the deferred interception. *)
Fixpoint icept (a : act) (w : interceptRW) : act :=
  match a with
  | Done => intercept w (fun _ => Done)
  | Panic => intercept w (fun _ => Panic)
  | ReadHeader k => ReadHeader (fun h => icept (k h) w)
  | UpdateHeader g k => UpdateHeader g (icept k w)
  | WriteHeader code k => i_WriteHeader code w (icept k)
  | Write data k =>
      if wroteHeader w then Write data (icept k w)
      else i_WriteHeader 200 w (fun w => Write data (icept k w))
  | Flush k => Flush (icept k w)
  end.
End Intercept.

(** [InterceptResponse]; [None] is a nil function. *)
Definition ResponseInterceptor (f : option (Z -> iact)) : Middleware := fun h =>
  match f with
  | None => h
  | Some f => fun r => icept f (h r) (mkI 200 false false)
  end.

Definition SetResponse (headerpairs : list string) : Middleware :=
  let hs := buildCanonicalHeaders headerpairs in
  ResponseInterceptor (Some (fun _ => IUpdate (set_all hs) IDone)).
Definition AddResponse (headerpairs : list string) : Middleware :=
  let hs := buildCanonicalHeaders headerpairs in
  ResponseInterceptor (Some (fun _ => IUpdate (add_all hs) IDone)).
Definition DeleteResponse (headers : list string) : Middleware :=
  let keys := canonKeys headers in
  ResponseInterceptor (Some (fun _ => IUpdate (del_all keys) IDone)).

(** The mapped values that are not empty; no key at all when none is left. *)
Definition map_values (key : string) (mapper : string -> string) (h : header) : header :=
  match Values h key with
  | [] => h
  | vs => match filter (fun x => x <> "") (mapper <$> vs) with
          | [] => delete key h
          | xs => <[key := xs]> h
          end
  end.
Definition MapResponse (key : string) (mapper : string -> string) : Middleware :=
  let key := CanonicalHeaderKey key in
  ResponseInterceptor (Some (fun _ => IUpdate (map_values key mapper) IDone)).

End Headers.

Module HSTS.

Record HSTS := mk { MaxAge : Z; IncludeSubDomains : bool; PreloadFlag : bool; ShareValueSlice : bool }.

Definition Default : HSTS := mk (31536000 * Second) false false false.
Definition Preload : HSTS := mk (63072000 * Second) true true false.

Definition value (m : HSTS) : string :=
  let hs := "max-age=" +:+ pretty (Z.quot (MaxAge m) Second) in
  let hs := if IncludeSubDomains m then hs +:+ "; includeSubDomains" else hs in
  if PreloadFlag m then hs +:+ "; preload" else hs.

Definition ServeHandler (m : HSTS) : Middleware := fun h r =>
  UpdateHeader (fun w => HSet w "Strict-Transport-Security" (value m)) (h r).
End HSTS.

Module CORS.

Record CORS := mk {
  AllowOrigins : option (string -> bool);
  AllowMethods : list string;
  AllowHeaders : list string;
  ExposeHeaders : list string;
  MaxAge : Z;
  AllowAllOrigins : bool;
  AllowCredentials : bool;
}.

Definition New : CORS :=
  mk None ["GET"; "POST"; "PUT"; "PATCH"; "DELETE"] ["Authorization"; "Content-Type"] [] (3600 * Second) true false.

Definition AllowOriginsOf (origins : list string) : string -> bool := fun o => bool_decide (o ∈ origins).

Definition set_if (b : bool) (key value : string) (h : header) : header := if b then HSet h key value else h.

Definition preflightHeaders (m : CORS) : header :=
  let h : header := ∅ in
  let h := set_if (AllowCredentials m) "Access-Control-Allow-Credentials" "true" h in
  let h := set_if (bool_decide (AllowMethods m <> [])) "Access-Control-Allow-Methods" (Join "," (AllowMethods m)) h in
  let h := set_if (bool_decide (AllowHeaders m <> [])) "Access-Control-Allow-Headers" (Join "," (AllowHeaders m)) h in
  let h := set_if (0 <? MaxAge m) "Access-Control-Max-Age" (pretty (Z.quot (MaxAge m) Second)) h in
  if AllowAllOrigins m then HSet h "Access-Control-Allow-Origin" "*"
  else HAdd (HAdd (HAdd h "Vary" "Origin") "Vary" "Access-Control-Request-Method") "Vary" "Access-Control-Request-Headers".

Definition headers (m : CORS) : header :=
  let h : header := ∅ in
  let h := set_if (AllowCredentials m) "Access-Control-Allow-Credentials" "true" h in
  let h := set_if (bool_decide (ExposeHeaders m <> [])) "Access-Control-Expose-Headers" (Join "," (ExposeHeaders m)) h in
  if AllowAllOrigins m then HSet h "Access-Control-Allow-Origin" "*" else HSet h "Vary" "Origin".

(** [None] is the panic on a configuration that cannot work. *)
Definition ServeHandler (m : CORS) : option Middleware :=
  if negb (AllowAllOrigins m) && bool_decide (AllowOrigins m = None) then None
  else if AllowAllOrigins m && AllowCredentials m then None
  else Some (fun h r =>
    let origin := HGet (Header r) "Origin" in
    if String.eqb origin "" then h r
    else
      let rest :=
        if String.eqb (Method r) "OPTIONS"
        then UpdateHeader (fun w => preflightHeaders m ∪ w) (WriteHeader 200 Done)
        else UpdateHeader (fun w => headers m ∪ w) (h r) in
      if AllowAllOrigins m then rest
      else if match AllowOrigins m with Some f => f origin | None => false end
           then UpdateHeader (fun w => HSet w "Access-Control-Allow-Origin" origin) rest
           else WriteHeader 403 Done).
End CORS.

Module RequestID.

Record RequestID := mk { TrustProxy : bool; HeaderKey : string }.
Definition New : RequestID := mk true "".

Definition DefaultHeader : string := "X-Request-Id".
Definition maxClientRequestIDLen : nat := 128.

Definition id_byte (c : ascii) : bool :=
  let n := N_of_ascii c in
  ((48 <=? n) && (n <=? 57) || (97 <=? n) && (n <=? 122) || (65 <=? n) && (n <=? 90))%N
  || bool_decide (c ∈ chars "-_.:+=/").

Definition isValidRequestID (s : string) : bool :=
  if String.eqb s "" || (maxClientRequestIDLen <? String.length s)%nat then false
  else forallb id_byte (chars s).

(** [uuid] is the identifier the generator gives for this request. *)
Definition ServeHandler (m : RequestID) (uuid : Request -> string) : Middleware :=
  let key := CanonicalHeaderKey (if String.eqb (HeaderKey m) "" then DefaultHeader else HeaderKey m) in
  fun h r =>
    let id := HGet (Header r) key in
    let '(id, r) :=
      if String.eqb id "" || negb (TrustProxy m) || negb (isValidRequestID id)
      then (uuid r, with_header (HSet (Header r) key (uuid r)) r) else (id, r) in
    UpdateHeader (fun w => HSet w key id) (h r).
End RequestID.

Module Redirect.
Section Redirect.
(** [http.Redirect]. *)
Context (Redirect : Request -> string -> Z -> act).

Definition code_or_moved (code : Z) : Z := if code <=? 0 then 301 else code.

Definition HTTPS (StatusCode : Z) : Middleware := fun h r =>
  if String.eqb (HGet (Header r) "X-Forwarded-Proto") "http"
  then Redirect r ("https://" +:+ Host r +:+ RequestURI r) (code_or_moved StatusCode) else h r.

(** [strings.TrimPrefix]. *)
Definition TrimPrefix (s prefix : string) : string :=
  if HasPrefix prefix s then text (drop (String.length prefix) (chars s)) else s.

Definition NonWWW (StatusCode : Z) : Middleware := fun h r =>
  let host := TrimPrefix (Host r) "www." in
  if (String.length host <? String.length (Host r))%nat
  then Redirect r (HGet (Header r) "X-Forwarded-Proto" +:+ "://" +:+ host +:+ RequestURI r) (code_or_moved StatusCode)
  else h r.

Definition WWW (StatusCode : Z) : Middleware := fun h r =>
  if negb (HasPrefix "www." (Host r))
  then Redirect r (HGet (Header r) "X-Forwarded-Proto" +:+ "://www." +:+ Host r +:+ RequestURI r) (code_or_moved StatusCode)
  else h r.

Definition To (Target : string) (StatusCode : Z) : Middleware := fun _ r =>
  Redirect r Target (code_or_moved StatusCode).
End Redirect.
End Redirect.

Module HeadersFacts.
Import Headers.

(** ** Intercepted responses *)

(** A handler that writes headers, a final status and a body, and neither reads the
    headers back nor flushes nor sends an informational status. *)
Fixpoint plain (a : act) : Prop :=
  match a with
  | Done | Panic => True
  | ReadHeader _ | Flush _ => False
  | UpdateHeader _ k | Write _ k => plain k
  | WriteHeader code k => informational code = false /\ plain k
  end.

(** An interceptor that rewrites the headers, given the status. *)
Definition rewriting (F : Z -> header -> header) : Z -> iact := fun code => IUpdate (F code) IDone.

Lemma rw_WriteHeader_sent code w x : sent w = Some x -> rw_WriteHeader code w = w.
Proof. intros E. unfold rw_WriteHeader. by rewrite E. Qed.

Lemma rw_WriteHeader_new code w :
  sent w = None -> informational code = false ->
  rw_WriteHeader code w = mkRW (hdr w) (Some (code, hdr w)) (early w) (body w).
Proof. intros E1 E2. unfold rw_WriteHeader. by rewrite E1, E2. Qed.

(** Once the status is sent the two writers only share the body. *)
Lemma icept_sent F a st w w' x y :
  plain a -> sent w = Some x -> sent w' = Some y -> body w = body w' ->
  let p := exec a w in let q := exec (icept (rewriting F) a (mkI st true true)) w' in
  sent p.1 = Some x /\ sent q.1 = Some y /\ body p.1 = body q.1 /\ p.2 = q.2.
Proof.
  revert w w'. induction a as [| |k IH|f k IH|code k IH|d k IH|k IH]; intros w w' Hp Hx Hy Hb; try done; cbn.
  - by apply IH.
  - destruct Hp as [_ Hp]. rewrite (rw_WriteHeader_sent code w x Hx). by apply IH.
  - rewrite (rw_WriteHeader_sent 200 w x Hx), (rw_WriteHeader_sent 200 w' y Hy). apply IH; try done. cbn. by rewrite Hb.
Qed.

Lemma icept_open F a w :
  plain a -> sent w = None ->
  let p := exec a w in let q := exec (icept (rewriting F) a (mkI 200 false false)) w in
  body p.1 = body q.1 /\ p.2 = q.2 /\
  match sent p.1 with
  | Some (c, h) => sent q.1 = Some (c, F c h)
  | None => sent q.1 = None /\ hdr q.1 = F 200 (hdr p.1)
  end.
Proof.
  revert w. induction a as [| |k IH|f k IH|code k IH|d k IH|k IH]; intros w Hp Hs; try done; cbn.
  - by rewrite Hs.
  - by rewrite Hs.
  - by apply IH.
  - destruct Hp as [Hi Hp]. destruct w as [hd sn er bd]. cbn in Hs. subst sn. unfold rw_WriteHeader. cbn. rewrite Hi.
    destruct (icept_sent F k code (mkRW hd (Some (code, hd)) er bd)
      (mkRW (F code hd) (Some (code, F code hd)) er bd) _ _ Hp eq_refl eq_refl eq_refl) as (H1 & H2 & H3 & H4).
    rewrite H1. by split_and!.
  - destruct w as [hd sn er bd]. cbn in Hs. subst sn. cbn.
    destruct (icept_sent F k 200 (mkRW hd (Some (200, hd)) er (bd +:+ d))
      (mkRW (F 200 hd) (Some (200, F 200 hd)) er (bd +:+ d)) _ _ Hp eq_refl eq_refl eq_refl) as (H1 & H2 & H3 & H4).
    rewrite H1. by split_and!.
Qed.

(** Whatever headers a handler sets and whenever it sends its status (explicitly,
    by its first write, or never), an interceptor that rewrites response headers is
    applied once, to the headers as they are sent and with the status sent: the client
    gets the handler's status and body under the rewritten headers. *)
Theorem headers_intercept_sent F (h : Handler) r :
  plain (h r) ->
  exists c hd, sent (respond (h r)) = Some (c, hd) /\
  sent (respond (ResponseInterceptor (Some (rewriting F)) h r)) = Some (c, F c hd) /\
  body (respond (ResponseInterceptor (Some (rewriting F)) h r)) = body (respond (h r)).
Proof.
  intros Hp. unfold respond, ResponseInterceptor. destruct (icept_open F (h r) new_rw Hp eq_refl) as (H1 & _ & H3).
  destruct (exec (h r) new_rw) as [p b]. destruct (exec (icept _ _ _) new_rw) as [q b']. cbn in *.
  destruct (sent p) as [[c hd]|] eqn:Ep.
  - exists c, hd. rewrite (rw_WriteHeader_sent 200 p _ Ep), (rw_WriteHeader_sent 200 q _ H3). done.
  - destruct H3 as [H3 H4]. exists 200, (hdr p). rewrite !rw_WriteHeader_new by done. cbn. by rewrite H4, H1.
Qed.

(** A handler that flushes before it writes has its status and headers sent
    without the interceptor: a header that a response interceptor was to set never
    reaches the client. *)
Theorem headers_flush_first f data r :
  sent (respond (ResponseInterceptor (Some f) (fun _ => Flush (Write data Done)) r)) = Some (200, ∅).
Proof.
  unfold respond, ResponseInterceptor. cbn. unfold i_WriteHeader, intercept. cbn.
  assert (forall i w wi (k : interceptRW -> act), sent w = Some (200, ∅) ->
    (forall wi w, sent w = Some (200, ∅) -> sent (exec (k wi) w).1 = Some (200, ∅)) ->
    sent (exec (run_intercept i wi k) w).1 = Some (200, ∅)) as H.
  { induction i as [|g IH|g i IH|code i IH]; intros w wi k Hw Hk; cbn; auto.
    destruct (wroteHeader wi); [auto|]. cbn. apply IH; [|done]. by rewrite (rw_WriteHeader_sent _ w _ Hw). }
  rewrite (rw_WriteHeader_sent 200 _ (200, ∅)); apply H; try done; intros wi w Hw;
    destruct (wroteHeader wi); cbn; rewrite ?(rw_WriteHeader_sent 200 w _ Hw); cbn;
    unfold intercept; cbn; destruct (intercepted wi); cbn; try done; apply H; try done.
Qed.

(** Under a response interceptor a final status that follows an informational one
    is dropped: the body goes out under status 200, whatever status the handler set. *)
Theorem headers_drops_final_status F code data r :
  exists hd,
  sent (respond (ResponseInterceptor (Some (rewriting F)) (fun _ => WriteHeader 103 (WriteHeader code (Write data Done))) r))
  = Some (200, hd).
Proof. eexists. reflexivity. Qed.

(** ** CORS *)

Definition allows (m : CORS.CORS) (o : string) : bool :=
  CORS.AllowAllOrigins m || match CORS.AllowOrigins m with Some f => f o | None => false end.

Definition start_with (upd : header -> header) (w : rw) : rw := mkRW (upd (hdr w)) (sent w) (early w) (body w).

Lemma HSet_eq h k v : HSet h k v !! k = Some [v].
Proof. exact (lookup_insert_eq h k [v]). Qed.
Lemma HSet_ne h k v k' : k <> k' -> HSet h k v !! k' = h !! k'.
Proof. exact (lookup_insert_ne h k k' [v]). Qed.
Lemma HAdd_ne h k v k' : k <> k' -> HAdd h k v !! k' = h !! k'.
Proof. exact (lookup_insert_ne h k k' _). Qed.

Lemma set_if_ne b k v h k' : k <> k' -> CORS.set_if b k v h !! k' = h !! k'.
Proof. intros Hk. unfold CORS.set_if. destruct b; [by apply HSet_ne|done]. Qed.

Lemma set_if_eq b k v h : CORS.set_if b k v h !! k = if b then Some [v] else h !! k.
Proof. unfold CORS.set_if. destruct b; [apply HSet_eq|done]. Qed.

Ltac lookups :=
  repeat first [rewrite HSet_eq|rewrite HSet_ne by done|rewrite HAdd_ne by done|rewrite set_if_eq
               |rewrite set_if_ne by done].

Lemma preflight_lookup m :
  CORS.preflightHeaders m !! "Access-Control-Allow-Origin" = (if CORS.AllowAllOrigins m then Some ["*"] else None) /\
  CORS.preflightHeaders m !! "Access-Control-Allow-Credentials" = (if CORS.AllowCredentials m then Some ["true"] else None).
Proof. unfold CORS.preflightHeaders. cbv zeta. destruct (CORS.AllowAllOrigins m); split; lookups;
  first [done|by destruct (CORS.AllowCredentials m)]. Qed.

Lemma headers_lookup m :
  CORS.headers m !! "Access-Control-Allow-Origin" = (if CORS.AllowAllOrigins m then Some ["*"] else None) /\
  CORS.headers m !! "Access-Control-Allow-Credentials" = (if CORS.AllowCredentials m then Some ["true"] else None).
Proof.
  unfold CORS.headers. cbv zeta. destruct (CORS.AllowAllOrigins m); split; lookups;
  first [done|by destruct (CORS.AllowCredentials m)].
Qed.

(** What a table of headers with no origin, or with the star, says under one that may. *)
Lemma union_lookup (t w : header) k x : t !! k = x -> (t ∪ w) !! k = match x with Some v => Some v | None => w !! k end.
Proof.
  intros E. pose proof (lookup_union t w k) as H. unfold header in *. rewrite H, E. destruct x; by destruct (w !! k).
Qed.

(** CORS: a request with an origin that is not allowed gets 403 and never reaches
    the handler; for an allowed one the response headers name that origin (or the
    star) before anything else runs, credentials are allowed only as configured and
    never together with the star, a preflight is answered 200 without the handler, and
    any other request goes to the handler. *)
Theorem cors_policy m mw (h : Handler) r :
  CORS.ServeHandler m = Some mw -> HGet (Header r) "Origin" <> "" ->
  if allows m (HGet (Header r) "Origin") then
    exists upd, (forall w, exec (mw h r) w =
        exec (if String.eqb (Method r) "OPTIONS" then WriteHeader 200 Done else h r) (start_with upd w)) /\
      forall w, let o := if CORS.AllowAllOrigins m then "*" else HGet (Header r) "Origin" in
        upd w !! "Access-Control-Allow-Origin" = Some [o] /\
        (upd w !! "Access-Control-Allow-Credentials" = if CORS.AllowCredentials m then Some ["true"]
                                                       else w !! "Access-Control-Allow-Credentials") /\
        (o = "*" -> CORS.AllowAllOrigins m = true -> CORS.AllowCredentials m = false)
  else mw h r = WriteHeader 403 Done.
Proof.
  unfold CORS.ServeHandler. destruct (negb (CORS.AllowAllOrigins m) && _) eqn:E1; [done|].
  destruct (CORS.AllowAllOrigins m && CORS.AllowCredentials m) eqn:E2; [done|]. intros [= <-] Ho. cbv zeta.
  set (o := HGet (Header r) "Origin") in *. destruct (String.eqb_spec o "") as [|_]; [done|].
  destruct (preflight_lookup m) as [P1 P2], (headers_lookup m) as [H1 H2].
  unfold allows. destruct (CORS.AllowAllOrigins m) eqn:Ea; cbn [orb].
  - exists (fun w => (if String.eqb (Method r) "OPTIONS" then CORS.preflightHeaders m else CORS.headers m) ∪ w). split.
    + intros w. by destruct (String.eqb (Method r) "OPTIONS").
    + intros w. cbn in E2. rewrite E2 in *.
      destruct (String.eqb (Method r) "OPTIONS"); rewrite !(union_lookup _ w _ _ P1) || rewrite !(union_lookup _ w _ _ H1);
        rewrite (union_lookup _ w _ _ P2) || rewrite (union_lookup _ w _ _ H2); done.
  - destruct (CORS.AllowOrigins m) as [f|]; [|done]. destruct (f o) eqn:Ef; [|done].
    set (t := if String.eqb (Method r) "OPTIONS" then CORS.preflightHeaders m else CORS.headers m).
    exists (fun w => t ∪ HSet w "Access-Control-Allow-Origin" o). split.
    + intros w. unfold t. by destruct (String.eqb (Method r) "OPTIONS").
    + assert (t !! "Access-Control-Allow-Origin" = None /\
        t !! "Access-Control-Allow-Credentials" = (if CORS.AllowCredentials m then Some ["true"] else None)) as [T1 T2].
      { unfold t. by destruct (String.eqb (Method r) "OPTIONS"). }
      intros w. rewrite (union_lookup _ _ _ _ T1), (union_lookup _ _ _ _ T2). rewrite HSet_eq.
      split; [done|]. split; [|done]. destruct (CORS.AllowCredentials m); [done|]. by rewrite HSet_ne.
Qed.

(** ** Request identifiers *)

(** The identifier that the handler, the response and the log see is the same,
    and it is either freshly generated or, when the proxy is trusted, the client's
    own, of at most 128 bytes, each a letter, a digit or one of a few marks: a client
    cannot inject separators, spaces or control bytes. *)
Theorem requestid_safe m uuid (h : Handler) r :
  let key := CanonicalHeaderKey (if String.eqb (RequestID.HeaderKey m) "" then RequestID.DefaultHeader else RequestID.HeaderKey m) in
  exists id r', RequestID.ServeHandler m uuid h r = UpdateHeader (fun w => HSet w key id) (h r') /\
    HGet (Header r') key = id /\
    (id = uuid r \/
     RequestID.TrustProxy m = true /\ r' = r /\ (0 < String.length id <= 128)%nat /\
     Forall (fun c => RequestID.id_byte c = true) (chars id)).
Proof.
  intros key. unfold RequestID.ServeHandler. fold key. set (id := HGet (Header r) key).
  destruct (String.eqb id "" || _ || _) eqn:Ec.
  - exists (uuid r), (with_header (HSet (Header r) key (uuid r)) r). split; [done|]. split; [|by left].
    unfold HGet, Values. cbn. by rewrite HSet_eq.
  - exists id, r. split; [done|]. split; [done|]. right. rewrite !orb_false_iff, !negb_false_iff in Ec.
    destruct Ec as [[E1 E2] E3]. split; [done|]. split; [done|]. unfold RequestID.isValidRequestID in E3. rewrite E1 in E3. cbn [orb] in E3.
    destruct (RequestID.maxClientRequestIDLen <? String.length id)%nat eqn:El; [done|].
    apply Nat.ltb_ge in El. unfold RequestID.maxClientRequestIDLen in El. split.
    + destruct id as [|c id]; [done|]. cbn in *. lia.
    + apply Forall_forall. intros c Hc. apply (proj1 (forallb_forall _ _) E3). by apply list_elem_of_In.
Qed.

(** ** Redirects *)

(** For a request line in absolute form ("GET http://h/p") the https redirector puts the
    whole request target after the host. *)
Lemma redirect_absolute_form Redirect code h :
  Redirect.HTTPS Redirect code h (mkRequest "GET" "h" "/p" "http://h/p" "" false {["X-Forwarded-Proto" := ["http"]]})
  = Redirect (mkRequest "GET" "h" "/p" "http://h/p" "" false {["X-Forwarded-Proto" := ["http"]]})
      "https://hhttp://h/p" (Redirect.code_or_moved code).
Proof. reflexivity. Qed.

(** ** Examples *)

Lemma headers_intercept_sent_witness :
  exists hd, sent (respond (SetResponse ["x-a"; "1"] (fun _ => UpdateHeader (fun h => HSet h "X-A" "0") (Write "hi" Done))
      (mkRequest "GET" "" "/" "/" "" false ∅))) = Some (200, set_all [mkPair "X-A" "1"] hd) /\
    HGet (set_all [mkPair "X-A" "1"] hd) "X-A" = "1".
Proof.
  destruct (headers_intercept_sent (fun _ => set_all [mkPair "X-A" "1"])
    (fun _ => UpdateHeader (fun h => HSet h "X-A" "0") (Write "hi" Done)) (mkRequest "GET" "" "/" "/" "" false ∅)) as (c & hd & H1 & H2 & _).
  { exact I. }
  assert (c = 200) as -> by (vm_compute in H1; congruence).
  exists hd. split; [exact H2|]. unfold HGet, Values, set_all. cbn [foldl Key Value]. by rewrite HSet_eq.
Defined.

Definition demo_cors : CORS.CORS := CORS.mk (Some (CORS.AllowOriginsOf ["https://a"])) ["GET"] [] [] 0 false true.
Definition from (o : string) : Request := mkRequest "GET" "" "/" "/" "" false {["Origin" := [o]]}.

Lemma cors_policy_witness :
  exists mw, CORS.ServeHandler demo_cors = Some mw /\ (forall h, mw h (from "https://evil") = WriteHeader 403 Done) /\
    exists upd : header -> header, forall w, upd w !! "Access-Control-Allow-Origin" = Some ["https://a"].
Proof.
  destruct (CORS.ServeHandler demo_cors) as [mw|] eqn:Em; [|discriminate Em]. exists mw. split; [done|]. split.
  - intros h. exact (cors_policy demo_cors mw h (from "https://evil") Em ltac:(discriminate)).
  - destruct (cors_policy demo_cors mw (fun _ => Done) (from "https://a") Em ltac:(discriminate)) as (upd & _ & H).
    exists upd. intros w. apply H.
Defined.
End HeadersFacts.
