(* ===== verification/CacheServe.v ===== *)
(** * pkg/cache: the middleware

    [src/pkg/cache/cache.go], [stale.go], [tee.go] and [result.go]: classification of
    a stored entry, the tee that streams a fill to the client and to storage, the
    stale-if-error gate, single flight, and [serve].  The storage backend is the
    interface of [storage.go], a type class; the origin is a tree of calls on the
    response writer.  Other requests run concurrently: wherever this one waits or the
    origin pauses, an arbitrary function [env] changes the shared state. *)

From stdpp Require Import pretty.
From S2P Require Import Prelude GoStrings GoNet Policy Memory CacheKeys.

(** The interface [Storage] with its [EntryWriter]; errors are [None] or [false]. *)
Class Storage (St E : Type) := {
  sGet : string -> St -> St * option (Meta * string);
  sDelete : string -> St -> St;
  sWriter : string -> St -> St * option E;
  eWrite : string -> E -> St -> St * E * bool;
  eCommit : Meta -> E -> St -> St * bool;
  eAbort : E -> St -> St;
}.

Module CacheServe.
Import Policy CacheKeys.

Inductive Result := ResultHit | ResultMiss | ResultStale | ResultStaleError | ResultBypass.

Definition Result_string (r : Result) : string :=
  match r with
  | ResultHit => "HIT"
  | ResultMiss => "MISS"
  | ResultStale => "STALE"
  | ResultStaleError => "STALE_ERROR"
  | ResultBypass => "BYPASS"
  end.

Record ResultInfo := mkInfo { info_result : Result; FillDuration : Z }.

(** ** The client's writer *)

(** [csent] is the status line and headers once they are sent; [cbudget] bounds the
    writes the connection takes before it breaks. *)
Record client := mkClient {
  ch : header;
  csent : option (Z * header);
  cdata : string;
  cbudget : option nat;
}.

Definition fresh_client (budget : option nat) : client := mkClient ∅ None "" budget.

Definition set_ch (h : header) (c : client) : client := mkClient h (csent c) (cdata c) (cbudget c).

(** A 1xx status other than 101 is informational: it is sent and does not count. *)
Definition informational (code : Z) : bool := (100 <=? code) && (code <? 200) && negb (code =? 101).

Definition cl_WriteHeader (code : Z) (c : client) : client :=
  match csent c with
  | Some _ => c
  | None => if informational code then c else mkClient (ch c) (Some (code, ch c)) (cdata c) (cbudget c)
  end.

Definition cl_Write (p : string) (c : client) : client * bool :=
  let c := match csent c with None => cl_WriteHeader 200 c | Some _ => c end in
  match cbudget c with
  | Some O => (c, false)
  | Some (S n) => (mkClient (ch c) (csent c) (cdata c +:+ p) (Some n), true)
  | None => (mkClient (ch c) (csent c) (cdata c +:+ p) None, true)
  end.

(** What a tee writes to: the client, a [staleGate] around it, or the discarding
    writer of a background revalidation. *)
Inductive sink := Direct | Gate (decided fellBack : bool) | Discard.
Record writer := mkW { kind : sink; cl : client }.

Definition w_set_header (f : header -> header) (w : writer) : writer := mkW (kind w) (set_ch (f (ch (cl w))) (cl w)).

Definition w_WriteHeader (code : Z) (w : writer) : writer :=
  match kind w with
  | Direct => mkW Direct (cl_WriteHeader code (cl w))
  | Gate decided fellBack =>
      if decided then w
      else if 500 <=? code then mkW (Gate true true) (cl w)
      else mkW (Gate true fellBack) (cl_WriteHeader code (cl w))
  | Discard => w
  end.

Definition w_Write (p : string) (w : writer) : writer * bool :=
  match kind w with
  | Direct => let '(c, ok) := cl_Write p (cl w) in (mkW Direct c, ok)
  | Gate decided _ =>
      let w := if decided then w else w_WriteHeader 200 w in
      match kind w with
      | Gate _ true => (w, true)
      | _ => let '(c, ok) := cl_Write p (cl w) in (mkW (kind w) c, ok)
      end
  | Discard => (w, true)
  end.

(** [Flush]: net/http's writer sends a 200 if nothing was sent; the gate passes it on
    unless it fell back; the discarding writer is no [http.Flusher]. *)
Definition w_Flush (w : writer) : writer :=
  match kind w with
  | Direct | Gate _ false => mkW (kind w) (cl_WriteHeader 200 (cl w))
  | Gate _ true | Discard => w
  end.

(** ** The origin *)

Inductive handler :=
  | HReturn
  | HPanic
  | HSetHeader (f : header -> header) (k : handler)
  | HWriteHeader (code : Z) (k : handler)
  | HWrite (p : string) (k : bool -> handler)
  | HFlush (k : handler)
  | HPause (n : nat) (k : handler).

Inductive ending := Returned | Panicked.

(** ** Configuration *)

Record Cache := mkCache {
  invalidatedAfter : option (Request -> Meta -> Z);
  cacheable_hook : option (Request -> bool);
  override : option (Request -> Z -> header -> option Override);
  maxFileSize : Z;
  lockTimeout : Z;
  revalidateTimeout : Z;
  defaultSWR : Z;
  defaultSIE : Z;
  decoupleFill : bool;
  cacheChunked : bool;
}.

Definition defaultLockTimeout : Z := 2 * Second.
Definition defaultMaxFileSize : Z := Z.shiftl 8 20.
Definition defaultRevalidateTimeout : Z := 30 * Second.
Definition maxPrimaryVary : nat := Z.to_nat (Z.shiftl 1 16).

(** [New], of the options as given. *)
Definition New (o : Cache) : Cache :=
  mkCache (invalidatedAfter o) (cacheable_hook o) (override o)
    (if maxFileSize o <=? 0 then defaultMaxFileSize else maxFileSize o)
    (if lockTimeout o <=? 0 then defaultLockTimeout else lockTimeout o)
    (if revalidateTimeout o <=? 0 then defaultRevalidateTimeout else revalidateTimeout o)
    (clampStaleWindow (defaultSWR o)) (clampStaleWindow (defaultSIE o))
    (decoupleFill o) (cacheChunked o).

Definition overrideFor (c : Cache) (r : Request) (status : Z) (h : header) : option Override :=
  match override c with
  | None => None
  | Some f => match f r status h with
              | Some ov => if ov_TTL ov <=? 0 then None else Some ov
              | None => None
              end
  end.

(** ** Stored entries at serve time *)

Inductive freshState := stateExpired | stateFresh | stateStaleRevalidate | stateStaleIfError.

Definition classify (c : Cache) (m : Meta) (r : Request) (now : Z) : freshState :=
  let fresh := FreshUntil m in
  let state :=
    if negb (fresh <? now) then stateFresh
    else if (0 <? StaleWhileRevalidate m) && (now <? fresh + StaleWhileRevalidate m) then stateStaleRevalidate
    else if (0 <? StaleIfError m) && (now <? fresh + StaleIfError m) then stateStaleIfError
    else stateExpired in
  match state, invalidatedAfter c with
  | stateExpired, _ => stateExpired
  | _, Some f => if Created m <=? f r m then stateExpired else state
  | _, None => state
  end.

Definition serveableUntil (m : Meta) : Z :=
  FreshUntil m + (if StaleWhileRevalidate m <? StaleIfError m then StaleIfError m else StaleWhileRevalidate m).

Definition servedAgeSeconds (ParseTime : string -> option Z) (m : Meta) (now : Z) : Z :=
  let age := i64 (responseAge ParseTime (Memory.Header m) (Created m) + time_sub now (Created m)) in
  Z.quot (if age <? 0 then 0 else age) Second.

Definition bodiless (method : string) (status : Z) : bool := String.eqb method "HEAD" || (status =? 204).

Definition writeStored (ParseTime : string -> option Z) (now : Z) (r : Request) (m : Meta) (body tag : string)
    (w : writer) : writer :=
  let h := Memory.Header m ∪ ch (cl w) in
  let h := <["Age" := [pretty (servedAgeSeconds ParseTime m now)]]> h in
  let h := <["X-Cache" := [tag]]> h in
  let h := if String.eqb (HGet h "Content-Length") "" && negb (bodiless (Method r) (Status m))
           then <["Content-Length" := [pretty (Z.of_nat (String.length body))]]> h else h in
  let w := w_WriteHeader (Status m) (w_set_header (fun _ => h) w) in
  if bodiless (Method r) (Status m) then w else (w_Write body w).1.

(** ** What a response says about itself *)

Definition hopByHop : list string :=
  ["Connection"; "Proxy-Connection"; "Keep-Alive"; "Te"; "Trailer"; "Transfer-Encoding"; "Upgrade";
   "Proxy-Authenticate"; "Proxy-Authorization"].

Definition sanitizeHeader (h : header) : header := filter (fun kv => CanonicalHeaderKey kv.1 ∉ hopByHop) h.

Definition maxCacheTags : nat := 64.
Definition maxCacheTagLen : nat := 256.

Fixpoint tags_loop (toks tags : list string) : list string :=
  match toks with
  | [] => tags
  | t :: toks =>
      let t := TrimSpace t in
      if String.eqb t "" || (maxCacheTagLen <? String.length t)%nat then tags_loop toks tags
      else if bool_decide (t ∈ tags) then tags_loop toks tags
      else
        let tags := tags ++ [t] in
        if (maxCacheTags <=? length tags)%nat then tags else tags_loop toks tags
  end.

Definition parseCacheTags (h : header) : list string := tags_loop (pieces h "Cache-Tag") [].

(** [sort.Strings]. *)
Fixpoint str_insert (x : string) (l : list string) : list string :=
  match l with
  | [] => [x]
  | y :: l' => if bool_decide (String.leb y x) then y :: str_insert x l' else x :: l
  end.
Definition sort_strings (l : list string) : list string := foldr str_insert [] l.

Section Middleware.
Context {St E : Type} `{!Storage St E}.
Context (ParseTime : string -> option Z) (sha : string -> string).

(** ** The shared state *)

(** The locks hold identities; [waiters] counts the followers of each, [closed] are
    the closed [done] channels. *)
Record shared := mkShared {
  store : St;
  clock : Z;
  primaryVary : gmap string (list string);
  locks : gmap string nat;
  waiters : gmap nat Z;
  closed : gset nat;
  nextlock : nat;
}.

Definition set_store (st : St) (s : shared) : shared :=
  mkShared st (clock s) (primaryVary s) (locks s) (waiters s) (closed s) (nextlock s).
Definition set_pv (pv : gmap string (list string)) (s : shared) : shared :=
  mkShared (store s) (clock s) pv (locks s) (waiters s) (closed s) (nextlock s).

(** What the other requests do between two of this one's actions, and the entry
    [range] happens to visit first. *)
Context (env : nat -> shared -> shared) (pick : gmap string (list string) -> string).

Definition getPrimaryVary (s : shared) (primaryHex : string) : list string :=
  default [] (primaryVary s !! primaryHex).

Definition setPrimaryVary (primaryHex : string) (names : list string) (s : shared) : shared :=
  let pv := primaryVary s in
  let pv := match pv !! primaryHex with
            | None => if (maxPrimaryVary <=? size pv)%nat then delete (pick pv) pv else pv
            | Some _ => pv
            end in
  set_pv (<[primaryHex := sort_strings names]> pv) s.

Definition variantHash (s : shared) (primaryHex : string) (r : Request) : string :=
  variantHashFor sha primaryHex (getPrimaryVary s primaryHex) (Header r).

Definition acquire (variantHex : string) (s : shared) : nat * bool * shared :=
  match locks s !! variantHex with
  | Some l => (l, false, s)
  | None =>
      (nextlock s, true,
       mkShared (store s) (clock s) (primaryVary s) (<[variantHex := nextlock s]> (locks s))
         (<[nextlock s := 0]> (waiters s)) (closed s) (S (nextlock s)))
  end.

Definition release (variantHex : string) (l : nat) (s : shared) : shared :=
  mkShared (store s) (clock s) (primaryVary s) (delete variantHex (locks s)) (waiters s)
    ({[l]} ∪ closed s) (nextlock s).

Definition add_waiters (l : nat) (d : Z) (s : shared) : shared :=
  mkShared (store s) (clock s) (primaryVary s) (locks s) (alter (fun n => i32 (n + d)) l (waiters s))
    (closed s) (nextlock s).

(** ** The tee *)

Record teeWriter := mkTee {
  ew : option E;
  storeKey : string;
  tvary : list string;
  tags : list string;
  tfreshUntil : Z;
  tswr : Z;
  tsie : Z;
  metaHeader : header;
  hasCL : bool;
  contentLen : Z;
  written : Z;
  status : Z;
  wroteHeader : bool;
  deferredClient : bool;
  leaderBuf : string;
}.

Definition new_tee : teeWriter := mkTee None "" [] [] 0 0 0 ∅ false 0 0 0 false false "".

Definition set_ew (e : option E) (t : teeWriter) : teeWriter :=
  mkTee e (storeKey t) (tvary t) (tags t) (tfreshUntil t) (tswr t) (tsie t) (metaHeader t) (hasCL t)
    (contentLen t) (written t) (status t) (wroteHeader t) (deferredClient t) (leaderBuf t).
Definition set_written (n : Z) (t : teeWriter) : teeWriter :=
  mkTee (ew t) (storeKey t) (tvary t) (tags t) (tfreshUntil t) (tswr t) (tsie t) (metaHeader t) (hasCL t)
    (contentLen t) n (status t) (wroteHeader t) (deferredClient t) (leaderBuf t).
Definition set_status (n : Z) (t : teeWriter) : teeWriter :=
  mkTee (ew t) (storeKey t) (tvary t) (tags t) (tfreshUntil t) (tswr t) (tsie t) (metaHeader t) (hasCL t)
    (contentLen t) (written t) n true (deferredClient t) (leaderBuf t).
Definition set_deferred (t : teeWriter) : teeWriter :=
  mkTee (ew t) (storeKey t) (tvary t) (tags t) (tfreshUntil t) (tswr t) (tsie t) (metaHeader t) (hasCL t)
    (contentLen t) (written t) (status t) (wroteHeader t) true (leaderBuf t).
Definition set_leaderBuf (b : string) (t : teeWriter) : teeWriter :=
  mkTee (ew t) (storeKey t) (tvary t) (tags t) (tfreshUntil t) (tswr t) (tsie t) (metaHeader t) (hasCL t)
    (contentLen t) (written t) (status t) (wroteHeader t) (deferredClient t) b.

Definition decision_for (c : Cache) (r : Request) (code : Z) (h : header) (now : Z) : decision :=
  let reqAuthorized := negb (String.eqb (HGet (Header r) "Authorization") "") in
  match overrideFor c r code h with
  | Some ov => decideForced ParseTime (Method r) code h reqAuthorized (maxFileSize c) (cacheChunked c) now ov
  | None => Policy.decide ParseTime (Method r) code h reqAuthorized (maxFileSize c) (cacheChunked c) now
  end.

(** A tee that starts to store under a decision. *)
Definition open_entry (c : Cache) (r : Request) (primaryHex : string) (h : header) (dec : decision)
    (t : teeWriter) (s : shared) : teeWriter * shared :=
  let vary := sort_strings (Policy.vary dec) in
  let key := variantHashFor sha primaryHex vary (Header r) in
  let '(st, e) := sWriter key (store s) in
  let s := set_store st s in
  match e with
  | None => (t, s)
  | Some e =>
      let swr := if negb (noStale dec) && (Policy.swr dec =? 0) then defaultSWR c else Policy.swr dec in
      let sie := if negb (noStale dec) && (Policy.sie dec =? 0) then defaultSIE c else Policy.sie dec in
      let '(has, len) := match contentLength h with Some n => (true, n) | None => (false, 0) end in
      (mkTee (Some e) key vary (parseCacheTags h) (freshUntil dec) swr sie (sanitizeHeader h) has len
         (written t) (status t) (wroteHeader t) (deferredClient t) (leaderBuf t), s)
  end.

(** [lock] is the leader's fill lock; nil for a background revalidation. *)
Definition tee_WriteHeader (c : Cache) (r : Request) (primaryHex : string) (lock : option nat) (code : Z)
    (t : teeWriter) (w : writer) (s : shared) : teeWriter * writer * shared :=
  if wroteHeader t then (t, w, s)
  else
    let t := set_status code t in
    let h := ch (cl w) in
    let dec := decision_for c r code h (clock s) in
    let '(t, s) := if cacheable dec then open_entry c r primaryHex h dec t s else (t, s) in
    let contended := match lock with
                     | Some l => 0 <? default 0 (waiters s !! l)
                     | None => false
                     end in
    if bool_decide (is_Some (ew t)) && hasCL t && decoupleFill c && contended
    then (set_deferred t, w, s)
    else (t, w_WriteHeader code (w_set_header (<["X-Cache" := ["MISS"]]>) w), s).

Definition tee_abort (t : teeWriter) (s : shared) : teeWriter * shared :=
  match ew t with
  | Some e => (set_ew None t, set_store (eAbort e (store s)) s)
  | None => (t, s)
  end.

(** The storage half of a write. *)
Definition tee_store (c : Cache) (p : string) (t : teeWriter) (s : shared) : teeWriter * shared :=
  match ew t with
  | None => (t, s)
  | Some e =>
      let n := Z.of_nat (String.length p) in
      if maxFileSize c <? i64 (written t + n) then tee_abort t s
      else
        let '(st, e, ok) := eWrite p e (store s) in
        let s := set_store st s in
        let t := set_ew (Some e) t in
        if ok then (set_written (i64 (written t + n)) t, s) else tee_abort t s
  end.

Definition tee_Write (c : Cache) (r : Request) (primaryHex : string) (lock : option nat) (p : string)
    (t : teeWriter) (w : writer) (s : shared) : teeWriter * writer * shared * bool :=
  let '(t, w, s) := if wroteHeader t then (t, w, s) else tee_WriteHeader c r primaryHex lock 200 t w s in
  if deferredClient t then
    let room := i64 (maxFileSize c - Z.of_nat (String.length (leaderBuf t))) in
    let t := if 0 <? room
             then set_leaderBuf (leaderBuf t +:+ String.substring 0 (Z.to_nat room) p) t else t in
    let '(t, s) := tee_store c p t s in
    (t, w, s, true)
  else
    let '(w, ok) := w_Write p w in
    let '(t, s) := tee_store c p t s in
    (t, w, s, ok).

Definition complete (c : Cache) (r : Request) (t : teeWriter) : bool :=
  String.eqb (Method r) "HEAD" || hasCL t && (written t =? contentLen t) || negb (hasCL t) && cacheChunked c.

Definition meta_of (r : Request) (primaryHex : string) (now : Z) (t : teeWriter) : Meta :=
  mkMeta (metaHeader t) primaryHex (normalizeHost (Host r)) (RequestURI r) (tvary t) (tags t) now
    (tfreshUntil t) (tswr t) (tsie t) (written t) (status t).

Definition finish (c : Cache) (r : Request) (primaryHex : string) (t : teeWriter) (s : shared)
    : teeWriter * shared :=
  match ew t with
  | None => (t, s)
  | Some e =>
      if negb (complete c r t) then tee_abort t s
      else
        let '(st, ok) := eCommit (meta_of r primaryHex (clock s) t) e (store s) in
        let s := set_store st s in
        (set_ew None t, if ok then setPrimaryVary primaryHex (tvary t) s else s)
  end.

Definition serveLeader (r : Request) (t : teeWriter) (w : writer) : writer :=
  let w := w_WriteHeader (status t) (w_set_header (fun _ => <["X-Cache" := ["MISS"]]> (metaHeader t)) w) in
  if bodiless (Method r) (status t) then w else (w_Write (leaderBuf t) w).1.

Definition tee_Flush (t : teeWriter) (w : writer) : writer := if deferredClient t then w else w_Flush w.

(** The origin on the tee, and on the writer itself. *)
Fixpoint run_tee (c : Cache) (r : Request) (primaryHex : string) (lock : option nat) (o : handler)
    (t : teeWriter) (w : writer) (s : shared) : teeWriter * writer * shared * ending :=
  match o with
  | HReturn => (t, w, s, Returned)
  | HPanic => (t, w, s, Panicked)
  | HSetHeader f k => run_tee c r primaryHex lock k t (w_set_header f w) s
  | HWriteHeader code k =>
      let '(t, w, s) := tee_WriteHeader c r primaryHex lock code t w s in run_tee c r primaryHex lock k t w s
  | HWrite p k =>
      let '(t, w, s, ok) := tee_Write c r primaryHex lock p t w s in run_tee c r primaryHex lock (k ok) t w s
  | HFlush k => run_tee c r primaryHex lock k t (tee_Flush t w) s
  | HPause n k => run_tee c r primaryHex lock k t w (env n s)
  end.

Fixpoint run_plain (o : handler) (w : writer) (s : shared) : writer * shared * ending :=
  match o with
  | HReturn => (w, s, Returned)
  | HPanic => (w, s, Panicked)
  | HSetHeader f k => run_plain k (w_set_header f w) s
  | HWriteHeader code k => run_plain k (w_WriteHeader code w) s
  | HWrite p k => let '(w, ok) := w_Write p w in run_plain (k ok) w s
  | HFlush k => run_plain k (w_Flush w) s
  | HPause n k => run_plain k w (env n s)
  end.

(** ** Filling *)

Definition fill (c : Cache) (r : Request) (next : handler) (primaryHex variantHex : string) (lock : nat)
    (w : writer) (s : shared) : writer * shared * ResultInfo * ending :=
  let start := clock s in
  let '(t, w, s, e) := run_tee c r primaryHex (Some lock) next new_tee w s in
  match e with
  | Panicked =>
      let '(_, s) := tee_abort t s in
      (w, release variantHex lock s, mkInfo ResultMiss 0, Panicked)
  | Returned =>
      let '(t, s) := finish c r primaryHex t s in
      let info := mkInfo ResultMiss (time_sub (clock s) start) in
      let s := release variantHex lock s in
      (if deferredClient t then serveLeader r t w else w, s, info, Returned)
  end.

(** The follower's second look. *)
Definition tryServeHit (c : Cache) (r : Request) (key : string) (w : writer) (s : shared) : writer * shared * bool :=
  let '(st, got) := sGet key (store s) in
  let s := set_store st s in
  match got with
  | None => (w, s, false)
  | Some (m, body) =>
      match classify c m r (clock s) with
      | stateFresh => (writeStored ParseTime (clock s) r m body "HIT" w, s, true)
      | stateExpired => (w, set_store (sDelete key (store s)) s, false)
      | _ => (w, s, false)
      end
  end.

(** The single-flight loop with [n] attempts left; the last resort is an uncached
    fetch. *)
Fixpoint fill_loop (n : nat) (c : Cache) (r : Request) (next : handler) (primaryHex : string)
    (w : writer) (s : shared) : writer * shared * ResultInfo * ending :=
  let uncached w s :=
    let start := clock s in
    let '(w, s, e) := run_plain next (w_set_header (<["X-Cache" := ["MISS"]]>) w) s in
    (w, s, mkInfo ResultMiss (time_sub (clock s) start), e) in
  match n with
  | O => uncached w s
  | S n' =>
      let variantHex := variantHash s primaryHex r in
      let '(lock, leader, s) := acquire variantHex s in
      if leader then fill c r next primaryHex variantHex lock w s
      else
        let s := add_waiters lock (-1) (env n' (add_waiters lock 1 s)) in
        let '(w, s, hit) := tryServeHit c r (variantHash s primaryHex r) w s in
        if hit then (w, s, mkInfo ResultHit 0, Returned)
        else if String.eqb (variantHash s primaryHex r) variantHex then uncached w s
        else fill_loop n' c r next primaryHex w s
  end.

Definition fillAndServe := fill_loop 2.

Definition finalize (r : Request) (m : Meta) (body : string) (now : Z) (w : writer) : writer :=
  match kind w with
  | Gate _ true =>
      mkW Direct (cl (writeStored ParseTime now r m body "STALE" (mkW Direct (set_ch ∅ (cl w)))))
  | _ => mkW Direct (cl w)
  end.

Definition fillWithStale (c : Cache) (r : Request) (next : handler) (primaryHex : string) (m : Meta) (body : string)
    (w : writer) (s : shared) : writer * shared * ResultInfo * ending :=
  let '(w, s, info, e) := fillAndServe c r next primaryHex (mkW (Gate false false) (cl w)) s in
  match e with
  | Panicked => (mkW Direct (cl w), s, info, Panicked)
  | Returned =>
      (finalize r m body (clock s) w, s,
       match kind w with Gate _ true => mkInfo ResultStaleError (FillDuration info) | _ => info end, Returned)
  end.

(** The background refresh, after [env] steps of the others; its panics are
    contained. *)
Definition revalidate (c : Cache) (r : Request) (next : handler) (primaryHex : string) (s : shared) : shared :=
  let variantHex := variantHash s primaryHex r in
  let '(lock, leader, s) := acquire variantHex s in
  if negb leader then s
  else
    let '(t, _, s, e) := run_tee c r primaryHex None next new_tee (mkW Discard (fresh_client None)) s in
    let '(t, s) := match e with Returned => finish c r primaryHex t s | Panicked => (t, s) end in
    let '(_, s) := tee_abort t s in
    release variantHex lock s.

(** ** A request *)

(** [None] for a panic that unwinds past the report. *)
Definition serve (c : Cache) (r : Request) (next bg : handler) (w : writer) (s : shared)
    : writer * shared * option ResultInfo :=
  if negb (cacheableMethod (Method r)) || isUpgrade (Header r)
     || negb (String.eqb (HGet (Header r) "Range") "")
     || match cacheable_hook c with Some f => negb (f r) | None => false end
  then
    let '(w, s, _) := run_plain next w s in (w, s, Some (mkInfo ResultBypass 0))
  else
    let primaryHex := primaryHash sha r in
    let key := variantHash s primaryHex r in
    let '(st, got) := sGet key (store s) in
    let s := set_store st s in
    let reported x := let '(w, s, info, e) := x in
      (w, s, match e with Returned => Some info | Panicked => None end) in
    match got with
    | None => reported (fillAndServe c r next primaryHex w s)
    | Some (m, body) =>
        match classify c m r (clock s) with
        | stateFresh => (writeStored ParseTime (clock s) r m body "HIT" w, s, Some (mkInfo ResultHit 0))
        | stateStaleRevalidate =>
            let w := writeStored ParseTime (clock s) r m body "STALE" w in
            (w, revalidate c r bg primaryHex s, Some (mkInfo ResultStale 0))
        | stateStaleIfError => reported (fillWithStale c r next primaryHex m body w s)
        | stateExpired =>
            reported (fillAndServe c r next primaryHex w (set_store (sDelete key (store s)) s))
        end
    end.

End Middleware.
End CacheServe.
