(* ===== verification/CacheServeFacts.v ===== *)
(** * pkg/cache: what the middleware guarantees

    The contract of a storage backend as a class of laws over [Storage], the theorems
    of the middleware proved against it, and the in-memory backend as an instance. *)

From stdpp Require Import pretty.
From S2P Require Import Prelude GoStrings GoNet Policy Concurrency Lru Memory CacheKeys CacheServe.

(** ** The contract of a backend *)

(** A lookup of [k] finds [m] and [b]. *)
Definition stored {St E} `{!Storage St E} (s : St) (k : string) (m : Meta) (b : string) : Prop :=
  (sGet k s).2 = Some (m, b).

(** Nothing becomes visible but what is committed, whole; anything may disappear. *)
Class StorageLaws (St E : Type) `{!Storage St E} := {
  ekey : E -> string;
  ebuf : E -> string;
  get_keeps k s k' m b : stored (sGet k s).1 k' m b -> stored s k' m b;
  delete_keeps k s k' m b : stored (sDelete k s) k' m b -> stored s k' m b;
  writer_keeps k s k' m b : stored (sWriter k s).1 k' m b -> stored s k' m b;
  writer_fresh k s e : (sWriter k s).2 = Some e -> ekey e = k /\ ebuf e = "";
  write_keeps p e s k' m b : stored (eWrite p e s).1.1 k' m b -> stored s k' m b;
  write_appends p e s : ekey (eWrite p e s).1.2 = ekey e /\
    ((eWrite p e s).2 = true -> ebuf (eWrite p e s).1.2 = ebuf e +:+ p);
  commit_adds mt e s k' m b : stored (eCommit mt e s).1 k' m b ->
    stored s k' m b \/ k' = ekey e /\ m = mt /\ b = ebuf e;
  abort_keeps e s k' m b : stored (eAbort e s) k' m b -> stored s k' m b;
}.

Module CacheServeFacts.
Import Policy CacheKeys CacheKeysFacts CacheServe.

(** ** What an origin sends *)

(** The status line stands once set. *)
Definition first_line (sent : option (Z * header)) (code : Z) (h : header) : option (Z * header) :=
  match sent with None => Some (code, h) | Some _ => sent end.

(** [sends o h sent body sent' body' e]: the origin [o], run from a header map [h] with
    the status line [sent] and the bytes [body] behind it, ends as [e] with the line
    [sent'] and, in all, the bytes [body'].  No cache is involved: a write counts with
    all its bytes, whether or not the client took them. *)
Inductive sends : handler -> header -> option (Z * header) -> string ->
    option (Z * header) -> string -> ending -> Prop :=
  | sends_return h sent body : sends HReturn h sent body sent body Returned
  | sends_panic h sent body : sends HPanic h sent body sent body Panicked
  | sends_header f k h sent body sent' body' e :
      sends k (f h) sent body sent' body' e -> sends (HSetHeader f k) h sent body sent' body' e
  | sends_status code k h sent body sent' body' e :
      sends k h (first_line sent code h) body sent' body' e -> sends (HWriteHeader code k) h sent body sent' body' e
  | sends_write p k ok h sent body sent' body' e :
      sends (k ok) h (first_line sent 200 h) (body +:+ p) sent' body' e -> sends (HWrite p k) h sent body sent' body' e
  | sends_flush k h sent body sent' body' e :
      sends k h sent body sent' body' e -> sends (HFlush k) h sent body sent' body' e
  | sends_pause n k h sent body sent' body' e :
      sends k h sent body sent' body' e -> sends (HPause n k) h sent body sent' body' e.

(** A header map is read only until the status line is set. *)
Lemma sends_late o h h' line body sent' body' e :
  sends o h (Some line) body sent' body' e -> sends o h' (Some line) body sent' body' e.
Proof.
  intros H. remember (Some line) as sent eqn:Es. revert h' Es.
  induction H; intros h' ->; cbn in *; econstructor; eauto.
Qed.

Section Middleware.
Context {St E : Type} `{!Storage St E, !StorageLaws St E}.
Context (ParseTime : string -> option Z) (sha : string -> string).
Context (env : nat -> shared (St := St) -> shared (St := St)) (pick : gmap string (list string) -> string).
Context (c : Cache).

(** ** Only whole, cacheable responses are stored *)

(** The entry [k], [m], [b] is what a fill for the request [r] that began at [t0] with
    the client's headers [h0] may commit: the origin [o] returned, without a panic, and
    sent the status line [Status m] with the headers [h] and then the bytes [b], no
    more and no fewer; the policy found that response cacheable when its status line
    was set; the key is the one of this request and of the names this response varies
    on; the entry has the response's end-to-end headers, tags and lifetime; its size is
    within the cap and matches the declared length, if one was declared. *)
Definition fills (r : Request) (o : handler) (h0 : header) (t0 : Z) (k : string) (m : Meta) (b : string) : Prop :=
  exists h now, let dec := decision_for ParseTime c r (Status m) h now in
  sends o h0 None "" (Some (Status m, h)) b Returned /\ t0 <= now <= Created m /\ cacheable dec = true /\
  k = variantHashFor sha (primaryHash sha r) (Vary m) (Header r) /\ Vary m = sort_strings (vary dec) /\
  PrimaryHex m = primaryHash sha r /\ Memory.Host m = normalizeHost (Host r) /\ URI m = RequestURI r /\
  Memory.Header m = sanitizeHeader h /\ Tags m = parseCacheTags h /\ FreshUntil m = freshUntil dec /\
  Size m = i64 (Z.of_nat (String.length b)) /\ Size m <= Z.max 0 (maxFileSize c) /\
  (Method r = "HEAD" \/ contentLength h = Some (Size m) \/ contentLength h = None /\ cacheChunked c = true).

Section Provenance.
(** What storage may hold. *)
Context (P : string -> Meta -> string -> Prop).

Definition holds (st : St) : Prop := forall k m b, stored st k m b -> P k m b.
Definition Inv (s : shared (St := St)) : Prop := holds (store s).

Lemma holds_get k st : holds st -> holds (sGet k st).1.
Proof. intros H k' m b Hs. eapply H, get_keeps, Hs. Qed.
Lemma holds_delete k st : holds st -> holds (sDelete k st).
Proof. intros H k' m b Hs. eapply H, delete_keeps, Hs. Qed.
Lemma holds_writer k st : holds st -> holds (sWriter k st).1.
Proof. intros H k' m b Hs. eapply H, writer_keeps, Hs. Qed.
Lemma holds_write p e st : holds st -> holds (eWrite p e st).1.1.
Proof. intros H k' m b Hs. eapply H, write_keeps, Hs. Qed.
Lemma holds_abort e st : holds st -> holds (eAbort e st).
Proof. intros H k' m b Hs. eapply H, abort_keeps, Hs. Qed.

(** ** The tee, against what the origin has sent so far *)

(** An open entry holds all the bytes sent, under the decision on the status line. *)
Definition entry_ok (r : Request) (t0 now : Z) (sent : option (Z * header)) (body : string)
    (t : teeWriter (E := E)) : Prop :=
  match ew t with
  | None => True
  | Some e =>
      ekey e = storeKey t /\ ebuf e = body /\ written t = i64 (Z.of_nat (String.length body)) /\
      written t <= Z.max 0 (maxFileSize c) /\
      exists h td, let dec := decision_for ParseTime c r (status t) h td in
      sent = Some (status t, h) /\ t0 <= td <= now /\ cacheable dec = true /\ tvary t = sort_strings (vary dec) /\
      storeKey t = variantHashFor sha (primaryHash sha r) (tvary t) (Header r) /\
      metaHeader t = sanitizeHeader h /\ tags t = parseCacheTags h /\ tfreshUntil t = freshUntil dec /\
      contentLength h = (if hasCL t then Some (contentLen t) else None)
  end.

(** The tee before and after its status line. *)
Definition line_ok (h : header) (sent : option (Z * header)) (body : string) (t : teeWriter (E := E)) (w : writer) : Prop :=
  if wroteHeader t then exists h1, sent = Some (status t, h1)
  else sent = None /\ body = "" /\ ch (cl w) = h /\ ew t = None /\ written t = 0.

Definition tracks (r : Request) (t0 : Z) (h : header) (sent : option (Z * header)) (body : string)
    (t : teeWriter (E := E)) (w : writer) (s : shared (St := St)) : Prop :=
  line_ok h sent body t w /\ entry_ok r t0 (clock s) sent body t /\ t0 <= clock s /\ Inv s.

Lemma tee_abort_ok r t0 now sent body t s :
  Inv s -> entry_ok r t0 now sent body (tee_abort t s).1 /\ Inv (tee_abort t s).2 /\
    clock (tee_abort t s).2 = clock s /\ wroteHeader (tee_abort t s).1 = wroteHeader t /\
    status (tee_abort t s).1 = status t.
Proof.
  intros HI. unfold tee_abort, entry_ok. destruct (ew t) as [e|] eqn:Ee; cbn; [|by rewrite Ee].
  split_and!; try done. by apply holds_abort.
Qed.

Lemma tee_store_ok r t0 now sent body p t s :
  entry_ok r t0 now sent body t -> Inv s ->
  entry_ok r t0 now sent (body +:+ p) (tee_store c p t s).1 /\ Inv (tee_store c p t s).2 /\
  clock (tee_store c p t s).2 = clock s /\ wroteHeader (tee_store c p t s).1 = wroteHeader t /\
  status (tee_store c p t s).1 = status t.
Proof.
  intros Ht HI. unfold tee_store. destruct (ew t) as [e|] eqn:Ee; [|split_and!; try done; unfold entry_ok; cbn; by rewrite Ee].
  destruct (_ <? _) eqn:Eb; [by apply tee_abort_ok|]. apply Z.ltb_ge in Eb.
  pose proof (write_appends p e (store s)) as [Hk Hb]. pose proof (holds_write p e (store s) HI) as HL.
  destruct (eWrite p e (store s)) as [[st e'] ok]. cbn [fst snd] in *.
  destruct ok; [|by apply (tee_abort_ok r t0 now sent (body +:+ p) (set_ew (Some e') t) (set_store st s))].
  split; [|by split_and!]. unfold entry_ok in *. rewrite Ee in Ht. cbn. destruct Ht as (H1 & H2 & H3 & H4 & H5).
  split_and!; [congruence|rewrite Hb, H2; done| |lia|done].
  rewrite append_length, H3, Nat2Z.inj_add. by rewrite i64_add_l.
Qed.

Lemma open_entry_ok r t0 h dec t s :
  ew t = None -> written t = 0 -> Inv s -> t0 <= clock s -> cacheable dec = true ->
  dec = decision_for ParseTime c r (status t) h (clock s) ->
  let x := open_entry sha c r (primaryHash sha r) h dec t s in
  entry_ok r t0 (clock s) (Some (status t, h)) "" x.1 /\ Inv x.2 /\ clock x.2 = clock s /\
  wroteHeader x.1 = wroteHeader t /\ status x.1 = status t.
Proof.
  intros Hew Hw HI Ht0 Hd Hdec. unfold open_entry.
  set (key := variantHashFor _ _ _ _). pose proof (holds_writer key (store s) HI) as HL.
  pose proof (writer_fresh key (store s)) as HF.
  destruct (sWriter key (store s)) as [st [e|]]; cbn [fst snd] in *.
  - destruct (HF e eq_refl) as [Hk Hb].
    destruct (contentLength h) as [n|] eqn:Ec; cbn; (split; [|by split_and!]);
      unfold entry_ok; cbn; rewrite Hb, Hw; (split_and!; [done|done|done|lia|]);
      exists h, (clock s); rewrite <- Hdec; split_and!; try done; lia.
  - unfold entry_ok. cbn. by rewrite Hew.
Qed.

Lemma tee_WriteHeader_ok r t0 lock code h sent body t w s :
  tracks r t0 h sent body t w s ->
  let x := tee_WriteHeader ParseTime sha c r (primaryHash sha r) lock code t w s in
  wroteHeader x.1.1 = true /\ tracks r t0 h (first_line sent code h) body x.1.1 x.1.2 x.2.
Proof.
  intros (Hl & He & Ht0 & HI). unfold line_ok in Hl. unfold tee_WriteHeader. destruct (wroteHeader t) eqn:Ew.
  { split; [done|]. unfold tracks, line_ok. cbn. rewrite Ew. by destruct Hl as [h1 ->]; split_and!; eauto. }
  destruct Hl as (-> & -> & Hh & Hew & Hw). rewrite Hh. set (dec := decision_for _ _ _ _ _ _).
  assert (exists t' s', (if cacheable dec then open_entry sha c r (primaryHash sha r) h dec (set_status code t) s
            else (set_status code t, s)) = (t', s') /\ entry_ok r t0 (clock s) (Some (code, h)) "" t' /\ Inv s' /\
            clock s' = clock s /\ wroteHeader t' = true /\ status t' = code)
    as (t' & s' & -> & Ht' & HI' & Hc & Hwr & Hst).
  { destruct (cacheable dec) eqn:Ed.
    - pose proof (open_entry_ok r t0 h dec (set_status code t) s Hew Hw HI Ht0 Ed eq_refl) as H.
      destruct (open_entry _ _ _ _ _ _ _ _) as [t' s']. by exists t', s'.
    - exists (set_status code t), s. split_and!; try done. unfold entry_ok. cbn. by rewrite Hew. }
  assert (forall t2 w2, entry_ok r t0 (clock s) (Some (code, h)) "" t2 -> wroteHeader t2 = true -> status t2 = code ->
    wroteHeader t2 = true /\ tracks r t0 h (Some (code, h)) "" t2 w2 s') as HT.
  { intros t2 w2 H1 H2 H3. split; [done|]. unfold tracks, line_ok. rewrite H2, H3, Hc. split_and!; try done. by eexists. }
  cbn [first_line]. destruct (_ && _); by apply HT.
Qed.

Lemma tee_Write_ok r t0 lock p h sent body t w s :
  tracks r t0 h sent body t w s ->
  let x := tee_Write ParseTime sha c r (primaryHash sha r) lock p t w s in
  wroteHeader x.1.1.1 = true /\ tracks r t0 h (first_line sent 200 h) (body +:+ p) x.1.1.1 x.1.1.2 x.1.2.
Proof.
  intros HT. unfold tee_Write.
  assert (exists t' w' s', (if wroteHeader t then (t, w, s)
            else tee_WriteHeader ParseTime sha c r (primaryHash sha r) lock 200 t w s) = (t', w', s') /\
            wroteHeader t' = true /\ tracks r t0 h (first_line sent 200 h) body t' w' s') as (t' & w' & s' & -> & Hw' & HT').
  { destruct (wroteHeader t) eqn:Ew.
    - exists t, w, s. split_and!; [done|done|]. destruct HT as (Hl & HT). unfold line_ok in Hl. rewrite Ew in Hl.
      destruct Hl as [h1 ->]. split; [|done]. unfold line_ok. rewrite Ew. by exists h1.
    - pose proof (tee_WriteHeader_ok r t0 lock 200 h sent body t w s HT) as H.
      destruct (tee_WriteHeader _ _ _ _ _ _ _ _ _ _) as [[t' w'] s']. by exists t', w', s'. }
  assert (forall t w, tracks r t0 h (first_line sent 200 h) body t w s' -> wroteHeader t = true -> forall w2,
    wroteHeader (tee_store c p t s').1 = true /\
    tracks r t0 h (first_line sent 200 h) (body +:+ p) (tee_store c p t s').1 w2 (tee_store c p t s').2) as HS.
  { intros t1 w1 (H1 & H2 & H3 & H4) H5 w2.
    destruct (tee_store_ok r t0 (clock s') _ body p t1 s' H2 H4) as (S1 & S2 & S3 & S4 & S5).
    split; [congruence|]. unfold tracks, line_ok in *. rewrite S3, S4, H5, S5 in *. by split_and!. }
  destruct (deferredClient t').
  - set (t2 := if 0 <? _ then _ else _).
    destruct (HS t2 w') with (w2 := w') as [H1 H2]; [unfold t2; by destruct (0 <? _)..|].
    by destruct (tee_store c p t2 s').
  - destruct (w_Write p w') as [w2 ok]. destruct (HS t' w' HT' Hw' w2) as [H1 H2].
    by destruct (tee_store c p t' s').
Qed.

Lemma tracks_header r t0 h sent body t w s f :
  tracks r t0 h sent body t w s -> tracks r t0 (f h) sent body t (w_set_header f w) s.
Proof.
  intros (Hl & Hr). split; [|done]. unfold line_ok in *. destruct (wroteHeader t); [done|].
  destruct Hl as (? & ? & <- & ? & ?). done.
Qed.

Lemma tracks_flush r t0 h sent body t w s :
  tracks r t0 h sent body t w s -> tracks r t0 h sent body t (tee_Flush t w) s.
Proof.
  intros (Hl & Hr). split; [|done]. unfold line_ok in *. destruct (wroteHeader t); [done|].
  destruct Hl as (? & ? & <- & ? & ?). split_and!; try done. unfold tee_Flush, w_Flush, cl_WriteHeader.
  destruct (deferredClient t); [done|].
  destruct (kind w) as [|? []|]; cbn; try done; destruct (csent (cl w)); try done; by destruct (informational _).
Qed.

Section Run.
Context (env_ok : forall n s, Inv s -> Inv (env n s)) (env_time : forall n s, clock s <= clock (env n s)).

Lemma tracks_pause r t0 h sent body t w s n :
  tracks r t0 h sent body t w s -> tracks r t0 h sent body t w (env n s).
Proof.
  intros (Hl & He & Ht & HI). pose proof (env_time n s). split_and!; [done| |lia|by apply env_ok].
  unfold entry_ok in *. destruct (ew t); [|done]. destruct He as (? & ? & ? & ? & h1 & td & ?). split_and!; [done..|].
  exists h1, td. intuition lia.
Qed.

(** The tee's account of a run is the origin's. *)
Lemma run_tee_ok r t0 lock o h sent body t w s :
  tracks r t0 h sent body t w s ->
  let x := run_tee ParseTime sha env c r (primaryHash sha r) lock o t w s in
  exists h' sent' body', sends o h sent body sent' body' x.2 /\ tracks r t0 h' sent' body' x.1.1.1 x.1.1.2 x.1.2.
Proof.
  revert h sent body t w s.
  induction o as [| |f k IH|code k IH|p k IH|k IH|n k IH]; intros h sent body t w s HT; cbn [run_tee].
  - do 3 eexists. split; [constructor|done].
  - do 3 eexists. split; [constructor|done].
  - destruct (IH _ _ _ _ _ _ (tracks_header _ _ _ _ _ _ _ _ f HT)) as (h' & l' & b' & H1 & H2).
    exists h', l', b'. split; [by constructor|done].
  - pose proof (tee_WriteHeader_ok r t0 lock code h sent body t w s HT) as [_ H].
    destruct (tee_WriteHeader _ _ _ _ _ _ _ _ _ _) as [[t' w'] s'].
    destruct (IH _ _ _ _ _ _ H) as (h' & l' & b' & H1 & H2). exists h', l', b'. split; [by constructor|done].
  - pose proof (tee_Write_ok r t0 lock p h sent body t w s HT) as [_ H].
    destruct (tee_Write _ _ _ _ _ _ _ _ _ _) as [[[t' w'] s'] ok].
    destruct (IH ok _ _ _ _ _ _ H) as (h' & l' & b' & H1 & H2). exists h', l', b'. split; [by econstructor|done].
  - destruct (IH _ _ _ _ _ _ (tracks_flush _ _ _ _ _ _ _ _ HT)) as (h' & l' & b' & H1 & H2).
    exists h', l', b'. split; [by constructor|done].
  - destruct (IH _ _ _ _ _ _ (tracks_pause _ _ _ _ _ _ _ _ n HT)) as (h' & l' & b' & H1 & H2).
    exists h', l', b'. split; [by constructor|done].
Qed.

Lemma finish_ok r o h0 t0 h sent body t w s :
  sends o h0 None "" sent body Returned -> tracks r t0 h sent body t w s ->
  (forall k m b, fills r o h0 t0 k m b -> P k m b) ->
  Inv (finish pick c r (primaryHash sha r) t s).2.
Proof.
  intros Hs (_ & He & _ & HI) HP. unfold finish. destruct (ew t) as [e|] eqn:Ee; [|done].
  destruct (complete c r t) eqn:Ec; cbn [negb]; [|by apply (tee_abort_ok r t0 0 sent body)].
  assert (holds (eCommit (meta_of r (primaryHash sha r) (clock s) t) e (store s)).1) as HL.
  { intros k m b [Hst|(-> & -> & ->)]%commit_adds; [by apply (HI k m b)|]. apply HP.
    unfold entry_ok in He. rewrite Ee in He.
    destruct He as (Hk & Hb & Hw & Hmax & h1 & now & H1 & H2 & H3 & H4 & H5 & H6 & H7 & H8 & H9).
    exists h1, now. cbn. rewrite Hb, H1 in *. split_and!; try done; try lia; try congruence.
    unfold complete in Ec. destruct (String.eqb_spec (Method r) "HEAD"); [by left|]. cbn in Ec.
    rewrite H9. destruct (hasCL t); cbn in Ec; [|by right; right]. rewrite orb_false_r in Ec. apply Z.eqb_eq in Ec.
    right; left. by rewrite Ec. }
  destruct (eCommit _ _ _) as [st ok]. cbn in *. by destruct ok.
Qed.

(** ** Requests *)

Local Abbreviation fill' := (fill ParseTime sha env pick).
Local Abbreviation fill_loop' := (fill_loop ParseTime sha env pick).
Local Abbreviation serve' := (serve ParseTime sha env pick).
Local Abbreviation tryServeHit' := (tryServeHit (St := St) ParseTime).

Lemma new_tee_tracks r t0 w s : Inv s -> t0 <= clock s -> tracks r t0 (ch (cl w)) None "" new_tee w s.
Proof. intros HI Ht. by split_and!. Qed.

(** What a run that ended as [e] may have added. *)
Definition may_add (r : Request) (o : handler) (h0 : header) (t0 : Z) (done : Prop) : Prop :=
  done -> forall k m b, fills r o h0 t0 k m b -> P k m b.

Lemma fill_ok r next t0 variantHex lock w s :
  Inv s -> t0 <= clock s ->
  let x := fill' c r next (primaryHash sha r) variantHex lock w s in
  may_add r next (ch (cl w)) t0 (x.2 = Returned) -> Inv x.1.1.2.
Proof.
  intros HI Ht. unfold fill, may_add.
  destruct (run_tee_ok r t0 (Some lock) next _ _ _ _ _ _ (new_tee_tracks r t0 w s HI Ht)) as (h' & l' & b' & Hs & HT).
  destruct (run_tee _ _ _ _ _ _ _ _ _ _ _) as [[[t w'] s'] e]. cbn [fst snd] in Hs, HT. destruct e.
  - pose proof (finish_ok r next (ch (cl w)) t0 h' l' b' t w' s' Hs HT) as H.
    destruct (finish _ _ _ _ t s'). cbn [fst snd] in *. intros HP. by apply H, HP.
  - intros _. destruct HT as (_ & _ & _ & HI').
    pose proof (tee_abort_ok r t0 0 l' b' t s' HI') as (_ & H & _). by destruct (tee_abort t s').
Qed.

Lemma run_plain_ok o w s : Inv s -> Inv (run_plain env o w s).1.2.
Proof.
  revert w s. induction o as [| |f k IH|code k IH|p k IH|k IH|n k IH]; intros w s HI; cbn [run_plain]; auto.
  destruct (w_Write p w). by apply IH.
Qed.

Lemma tryServeHit_ok r key w s :
  Inv s -> Inv (tryServeHit' c r key w s).1.2 /\ clock (tryServeHit' c r key w s).1.2 = clock s /\
  ((tryServeHit' c r key w s).2 = false -> (tryServeHit' c r key w s).1.1 = w).
Proof.
  intros HI. unfold tryServeHit. pose proof (holds_get key (store s) HI) as HL.
  destruct (sGet key (store s)) as [st [[m b]|]]; [|done]. cbn in *.
  destruct (classify _ _ _ _); try done. split_and!; try done. by apply holds_delete.
Qed.

Lemma acquire_ok k s : Inv s -> Inv (acquire k s).2 /\ clock (acquire k s).2 = clock s.
Proof. intros HI. unfold acquire. by destruct (locks s !! k). Qed.

Lemma fill_loop_ok n r next t0 w s :
  Inv s -> t0 <= clock s ->
  let x := fill_loop' n c r next (primaryHash sha r) w s in
  may_add r next (ch (cl w)) t0 (x.2 = Returned) -> Inv x.1.1.2.
Proof.
  assert (forall w s, Inv s -> Inv (let start := clock s in
    let '(w, s, e) := run_plain env next (w_set_header (<["X-Cache" := ["MISS"]]>) w) s in
    (w, s, mkInfo ResultMiss (time_sub (clock s) start), e)).1.1.2) as HU.
  { intros w0 s0 H0. pose proof (run_plain_ok next (w_set_header (<["X-Cache" := ["MISS"]]>) w0) s0 H0) as H.
    cbv zeta. by destruct (run_plain env next _ s0) as [[w1 s1] e]. }
  revert w s. induction n as [|n IH]; intros w s HI Ht; cbn [fill_loop]; [intros; by apply HU|].
  pose proof (acquire_ok (variantHash sha s (primaryHash sha r) r) s HI) as [H1 Hc1].
  destruct (acquire _ s) as [[lock leader] s1]. cbn [fst snd] in *.
  destruct leader; [apply fill_ok; [done|lia]|]. set (s2 := add_waiters lock (-1) _).
  assert (Inv s2 /\ t0 <= clock s2) as [H2 Ht2].
  { unfold s2. cbn. split; [by apply (env_ok n (add_waiters lock 1 s1))|].
    pose proof (env_time n (add_waiters lock 1 s1)). cbn in *. lia. }
  pose proof (tryServeHit_ok r (variantHash sha s2 (primaryHash sha r) r) w s2 H2) as (H3 & Hc3 & H4).
  destruct (tryServeHit _ _ _ _ w s2) as [[w3 s3] hit]. cbn [fst snd] in *. destruct hit; [done|].
  rewrite H4 by done. destruct (String.eqb _ _); [intros _; by apply HU|]. apply IH; [done|lia].
Qed.

Lemma revalidate_ok r next t0 s :
  Inv s -> t0 <= clock s -> may_add r next ∅ t0 True ->
  Inv (revalidate ParseTime sha env pick c r next (primaryHash sha r) s).
Proof.
  intros HI Ht HP. unfold revalidate.
  pose proof (acquire_ok (variantHash sha s (primaryHash sha r) r) s HI) as [H1 Hc1].
  destruct (acquire _ s) as [[lock leader] s1]. cbn [fst snd] in *. destruct leader; [|done]. cbn [negb].
  destruct (run_tee_ok r t0 None next _ _ _ _ _ _
    (new_tee_tracks r t0 (mkW Discard (fresh_client None)) s1 H1 ltac:(lia))) as (h' & l' & b' & Hs & HT).
  destruct (run_tee _ _ _ _ _ _ _ _ _ _ _) as [[[t w'] s2] e]. cbn [fst snd cl ch fresh_client] in Hs, HT.
  assert (exists t' s3, (match e with Returned => finish pick c r (primaryHash sha r) t s2 | Panicked => (t, s2) end) = (t', s3)
    /\ Inv s3) as (t' & s3 & -> & H3).
  { destruct e; [|exists t, s2; split; [done|]; apply HT].
    pose proof (finish_ok r next ∅ t0 h' l' b' t w' s2 Hs HT (HP I)). destruct (finish _ _ _ _ t s2) as [t' s3]. by exists t', s3. }
  pose proof (tee_abort_ok r t0 0 l' b' t' s3 H3) as (_ & H4 & _). by destruct (tee_abort t' s3).
Qed.

Lemma serve_Inv r next bg w s :
  Inv s ->
  let x := serve' c r next bg w s in
  may_add r next (ch (cl w)) (clock s) (is_Some x.2) ->
  may_add r bg ∅ (clock s) (x.2 = Some (mkInfo ResultStale 0)) -> Inv x.1.2.
Proof.
  intros HI. unfold serve. destruct (_ || _).
  { pose proof (run_plain_ok next w s HI). by destruct (run_plain env next w s) as [[w1 s1] e]. }
  set (key := variantHash _ _ _ _). pose proof (holds_get key (store s) HI) as HL.
  destruct (sGet key (store s)) as [st got]. cbn in HL. set (s1 := set_store st s).
  assert (Inv s1) as H1 by done.
  assert (forall s1, Inv s1 -> clock s1 = clock s ->
    let x := (let '(w, s, info, e) := fillAndServe ParseTime sha env pick c r next (primaryHash sha r) w s1 in
    (w, s, match e with Returned => Some info | Panicked => None end)) in
    may_add r next (ch (cl w)) (clock s) (is_Some x.2) -> Inv x.1.2) as HF.
  { intros s0 H0 Hc. pose proof (fill_loop_ok 2 r next (clock s) w s0 H0 ltac:(lia)) as H. unfold fillAndServe.
    destruct (fill_loop' 2 c r next _ w s0) as [[[w2 s2] info] []]; cbn [fst snd] in *; intros HP; apply H;
      [intros _; apply HP; by eexists|done]. }
  destruct got as [[m b]|]; [|intros; by apply HF]. destruct (classify _ _ _ _).
  - intros. apply HF; [by apply holds_delete|done|done].
  - done.
  - intros _ HP. apply (revalidate_ok r bg (clock s)); [done|done|]. intros _. by apply HP.
  - unfold fillWithStale, fillAndServe.
    pose proof (fill_loop_ok 2 r next (clock s) (mkW (Gate false false) (cl w)) s1 H1 ltac:(done)) as H.
    destruct (fill_loop' 2 c r next _ _ s1) as [[[w2 s2] info] []]; cbn [fst snd cl] in *; intros HP _; apply H;
      [intros _; apply HP; by eexists|done].
Qed.
End Run.
End Provenance.

Local Abbreviation fill_loop' := (fill_loop ParseTime sha env pick).
Local Abbreviation serve' := (serve ParseTime sha env pick).
Local Abbreviation tryServeHit' := (tryServeHit (St := St) ParseTime).

(** C6: After a request, storage holds nothing but what it held before, what
    concurrent requests put there while this one waited ([others], any set of
    entries), and at most what this request's own fill committed, and then the origin
    returned (the foreground one without a panic reaching the caller, or the
    background one of a stale hit) and the entry is its response: the status and end-
    to-end headers it set first, exactly the bytes it wrote, found cacheable by the
    policy at that time, under the key of this request's variant, within the size cap,
    and of the declared length (or HEAD, or no declared length with chunked caching
    on). A response that was cut short by a panic, truncated, refused or too large is
    never stored. The clock does not go back. *)
Theorem cache_stores_only_complete (others : string -> Meta -> string -> Prop) r next bg w s :
  (forall n s k m b, stored (store (env n s)) k m b -> stored (store s) k m b \/ others k m b) ->
  (forall n s, clock s <= clock (env n s)) ->
  let x := serve' c r next bg w s in
  forall k m b, stored (store x.1.2) k m b ->
    stored (store s) k m b \/ others k m b \/
    is_Some x.2 /\ fills r next (ch (cl w)) (clock s) k m b \/
    x.2 = Some (mkInfo ResultStale 0) /\ fills r bg ∅ (clock s) k m b.
Proof.
  intros He Ht x.
  assert (Inv (fun k m b => stored (store s) k m b \/ others k m b \/ is_Some x.2 /\ fills r next (ch (cl w)) (clock s) k m b \/
    x.2 = Some (mkInfo ResultStale 0) /\ fills r bg ∅ (clock s) k m b) (x.1.2)) as H; [|exact H].
  apply serve_Inv; [|done|by intros k m b; left|intros Hd k m b Hf; auto 6..].
  intros n s1 HI k m b [Hs|Ho]%He; [by apply HI|auto].
Qed.

(** ** What a hit shows *)

Lemma cacheable_status r code h now :
  cacheable (decision_for ParseTime c r code h now) = true -> cacheableStatus code = true.
Proof.
  unfold decision_for, decideForced, Policy.decide, storeRefusals. destruct (cacheableStatus code); [done|].
  by destruct (overrideFor _ _ _ _).
Qed.

(** A cacheable status passes the stale-if-error gate. *)
Lemma gate_passes now r m b tag cl0 :
  cacheableStatus (Status m) = true ->
  kind (writeStored ParseTime now r m b tag (mkW (Gate false false) cl0)) = Gate true false /\
  cl (writeStored ParseTime now r m b tag (mkW (Gate false false) cl0)) =
  cl (writeStored ParseTime now r m b tag (mkW Direct cl0)).
Proof.
  intros Hst. assert ((500 <=? Status m) = false) as H5.
  { unfold cacheableStatus in Hst. apply bool_decide_eq_true in Hst. apply Z.leb_gt. set_solver by lia. }
  unfold writeStored, w_set_header. cbv zeta. set (h := if _ && _ then _ else _). cbn [kind cl].
  unfold w_WriteHeader. cbn [kind cl]. rewrite H5. destruct (bodiless _ _); [done|].
  unfold w_Write. cbn [kind cl]. by destruct (cl_Write b _).
Qed.

(** Every entry was committed by a fill of some request. *)
Definition filled : string -> Meta -> string -> Prop :=
  fun k m b => exists r0 o h0 t0, fills r0 o h0 t0 k m b.

(** What a request does to the shared state before it has its hit: it looks up a key,
    drops an expired entry, or waits for another request's fill while the others run. *)
Inductive looks_on : shared (St := St) -> shared (St := St) -> Prop :=
  | looks_get k s : looks_on s (set_store (sGet k (store s)).1 s)
  | looks_drop k s : looks_on s (set_store (sDelete k (store s)) s)
  | looks_wait n l s : looks_on s (add_waiters l (-1) (env n (add_waiters l 1 s))).

(** From the state [s], the request came to look up its own key at [s1], storage held
    [m], [b] there, fresh at that time, and that is what the client was sent. *)
Definition hit_from (r : Request) (cl0 : client) (s : shared (St := St)) (cl1 : client)
    (s1 : shared (St := St)) (m : Meta) (b : string) : Prop :=
  rtc looks_on s s1 /\ stored (store s1) (variantHash sha s1 (primaryHash sha r) r) m b /\
  classify c m r (clock s1) = stateFresh /\
  cl1 = cl (writeStored ParseTime (clock s1) r m b "HIT" (mkW Direct cl0)).

Section Hits.
Context (env_ok : forall n s, Inv filled s -> Inv filled (env n s)).

Lemma tryServeHit_hit r w s :
  Inv filled s -> (kind w = Direct \/ kind w = Gate false false) ->
  let x := tryServeHit' c r (variantHash sha s (primaryHash sha r) r) w s in
  rtc looks_on s x.1.2 /\
  (x.2 = true -> (exists m b, hit_from r (cl w) s (cl x.1.1) s m b) /\ (kind w = Gate false false -> kind x.1.1 = Gate true false)).
Proof.
  intros HI Hk. unfold tryServeHit. set (key := variantHash _ _ _ _).
  pose proof (looks_get key s) as HG. destruct (sGet key (store s)) as [st [[m b]|]] eqn:Eg; cbn [fst snd] in *;
    [|split; [by apply rtc_once|done]].
  assert (stored (store s) key m b) as Hs by (unfold stored; by rewrite Eg).
  destruct (classify c m r (clock (set_store st s))) eqn:Ec; cbn [fst snd]; try (split; [by apply rtc_once|done]).
  { split; [|done]. eapply rtc_l; [exact HG|]. apply rtc_once, (looks_drop key (set_store st s)). }
  split; [by apply rtc_once|]. intros _. destruct (HI key m b Hs) as (r0 & o & h0 & t0 & h & now & _ & _ & Hc & _).
  apply cacheable_status in Hc. destruct w as [kd cl0]. cbn in Hk. destruct Hk as [-> | ->].
  - split; [|done]. exists m, b. by split_and!.
  - destruct (gate_passes (clock s) r m b "HIT" cl0 Hc) as [H1 H2]. split; [|done]. exists m, b. by split_and!.
Qed.

Lemma hit_later r cl0 s s0 cl1 s1 m b : rtc looks_on s s0 -> hit_from r cl0 s0 cl1 s1 m b -> hit_from r cl0 s cl1 s1 m b.
Proof. intros H (H1 & H2). split; [by etrans|done]. Qed.

Lemma fill_loop_hit n r next w s :
  Inv filled s -> (kind w = Direct \/ kind w = Gate false false) ->
  let x := fill_loop' n c r next (primaryHash sha r) w s in
  info_result x.1.2 = ResultHit -> x.2 = Returned /\ (exists s1 m b, Inv filled s1 /\ hit_from r (cl w) s (cl x.1.1.1) s1 m b) /\
    (kind w = Gate false false -> kind x.1.1.1 = Gate true false).
Proof.
  revert w s. induction n as [|n IH]; intros w s HI Hk; cbn [fill_loop].
  { cbv zeta. by destruct (run_plain env next _ s) as [[? ?] ?]. }
  destruct (acquire _ s) as [[lock leader] s0] eqn:Ea. destruct leader.
  { unfold fill. destruct (run_tee _ _ _ _ _ _ _ _ _ _ _) as [[[t w'] s'] []];
      [by destruct (finish _ _ _ _ t s')|by destruct (tee_abort t s')]. }
  assert (s0 = s) as -> by (unfold acquire in Ea; destruct (locks s !! _); by simplify_eq).
  set (s2 := add_waiters lock (-1) _).
  assert (Inv filled s2) as H2 by (unfold s2; cbn; by apply (env_ok n (add_waiters lock 1 s))).
  assert (rtc looks_on s s2) as HR by apply rtc_once, looks_wait.
  pose proof (tryServeHit_hit r w s2 H2 Hk) as [HR3 H3].
  pose proof (tryServeHit_ok filled r (variantHash sha s2 (primaryHash sha r) r) w s2 H2) as (H4 & _ & H5).
  destruct (tryServeHit _ _ _ _ w s2) as [[w3 s3] hit]. cbn [fst snd] in *.
  destruct hit.
  { intros _. destruct (H3 eq_refl) as [(m & b & Hit) Hg]. split_and!; [done| |done].
    exists s2, m, b. split; [done|]. by eapply hit_later. }
  rewrite H5 by done. destruct (String.eqb _ _); [by destruct (run_plain env next _ s3) as [[? ?] ?]|].
  intros Hh. destruct (IH w s3 H4 Hk Hh) as (H6 & (s1 & m & b & H7 & H8) & H9). split_and!; [done| |done].
  exists s1, m, b. split; [done|]. eapply hit_later; [|exact H8]. by etrans.
Qed.

(** A hit shows the client what storage held under its own key. *)
Lemma serve_hit r next bg w s info :
  Inv filled s -> kind w = Direct -> (serve' c r next bg w s).2 = Some info -> info_result info = ResultHit ->
  exists s1 m b, Inv filled s1 /\ hit_from r (cl w) s (cl (serve' c r next bg w s).1.1) s1 m b.
Proof.
  intros HI Hk. unfold serve. destruct (_ || _).
  { destruct (run_plain env next w s) as [[w1 s1] e]. by intros [= <-]. }
  set (key := variantHash _ _ _ _). pose proof (holds_get filled key (store s) HI) as HL.
  pose proof (looks_get key s) as HG.
  assert (forall m b, (sGet key (store s)).2 = Some (m, b) -> stored (store s) key m b) as Hst by done.
  destruct (sGet key (store s)) as [st got]. cbn [fst snd] in *.
  set (s1 := set_store st s) in *. assert (Inv filled s1) as H1 by done.
  assert (forall s0, Inv filled s0 -> rtc looks_on s s0 ->
    let x := (let '(w, s, info, e) := fillAndServe ParseTime sha env pick c r next (primaryHash sha r) w s0 in
    (w, s, match e with Returned => Some info | Panicked => None end)) in
    x.2 = Some info -> info_result info = ResultHit -> exists s1 m b, Inv filled s1 /\ hit_from r (cl w) s (cl x.1.1) s1 m b) as HF.
  { intros s0 H0 HR. unfold fillAndServe. pose proof (fill_loop_hit 2 r next w s0 H0 (or_introl Hk)) as H.
    destruct (fill_loop' 2 c r next _ w s0) as [[[w2 s2] i2] []]; [|done]. intros [= ->] Hh.
    destruct (H Hh) as (_ & (s3 & m & b & H2 & H3) & _). exists s3, m, b. split; [done|]. by eapply hit_later. }
  destruct got as [[m b]|]; [|by apply HF, rtc_once]. specialize (Hst m b eq_refl).
  destruct (classify c m r (clock s1)) eqn:Ec.
  - apply HF; [by apply holds_delete|]. eapply rtc_l; [exact HG|]. apply rtc_once, (looks_drop key s1).
  - intros _ _. exists s, m, b. split; [done|]. destruct w as [kd cl0]. cbn in Hk. subst kd. by split_and!.
  - by intros [= <-].
  - unfold fillWithStale, fillAndServe.
    pose proof (fill_loop_hit 2 r next (mkW (Gate false false) (cl w)) s1 H1 (or_intror eq_refl)) as H.
    destruct (fill_loop' 2 c r next _ _ s1) as [[[w2 s2] i2] []]; [|done]. cbn [fst snd cl kind] in *.
    destruct (kind w2) as [|d []|] eqn:Ek; intros [= <-] Hh; try done;
      destruct (H Hh) as (_ & (s3 & mt & bt & H2 & H3) & Hg); specialize (Hg eq_refl); try done;
      exists s3, mt, bt; (split; [done|]); unfold finalize; rewrite Ek;
      (eapply hit_later; [by apply rtc_once|exact H3]).
Qed.

(** C20: If every stored entry comes from a completed fill, and the others keep it so,
    a request reported as a hit was sent exactly the entry that storage held under the
    request's own key when it looked (at once, or after waiting for another fill), and
    that entry was fresh then. For a digest without collisions, well-formed requests
    and header names, whatever fill stored it was for a request with the same
    normalized host, method, scheme and URI, the names in the key are the ones the
    stored response varies on, and the two requests agree on all of their values; the
    entry is recorded under this request's own host and URI. *)
Theorem cache_hit_own_variant `{!Digest sha} r next bg w s info :
  Inv filled s -> kind w = Direct -> (serve' c r next bg w s).2 = Some info -> info_result info = ResultHit ->
  exists s1 m b, let k := variantHash sha s1 (primaryHash sha r) r in
    rtc looks_on s s1 /\ stored (store s1) k m b /\ classify c m r (clock s1) = stateFresh /\
    cl (serve' c r next bg w s).1.1 = cl (writeStored ParseTime (clock s1) r m b "HIT" (mkW Direct (cl w))) /\
    filled k m b /\
    forall r0 o h0 t0, fills r0 o h0 t0 k m b ->
      well_formed r -> well_formed r0 ->
      Forall good_name (getPrimaryVary s1 (primaryHash sha r)) -> Forall good_name (Vary m) ->
      normalizeHost (Host r) = normalizeHost (Host r0) /\ Method r = Method r0 /\
      schemeOf r = schemeOf r0 /\ RequestURI r = RequestURI r0 /\
      Memory.Host m = normalizeHost (Host r) /\ URI m = RequestURI r /\
      getPrimaryVary s1 (primaryHash sha r) = Vary m /\
      Forall (fun n => HGet (Header r) (CanonicalHeaderKey n) = HGet (Header r0) (CanonicalHeaderKey n)) (Vary m).
Proof.
  intros HI Hk Hs Hh. destruct (serve_hit r next bg w s info HI Hk Hs Hh) as (s1 & m & b & HI1 & HR & Hst & Hc & Hcl).
  exists s1, m, b. cbv zeta. split_and!; [done..|by apply HI1|].
  intros r0 o h0 t0 (h & now & _ & _ & _ & Hk0 & _ & _ & Hho & Hu & _) W W0 G G0.
  destruct (keys_faithful sha r0 r (Vary m) _ W0 W G0 G (eq_sym Hk0)) as ((H1 & H2 & H3 & H4) & H5 & H6).
  split_and!; try done; try congruence. eapply Forall_impl; [exact H6|]. cbn. by intros x ->.
Qed.
End Hits.

(** ** Stale if error *)

(** A gate that fell back has let nothing through; one that did not has let no server
    error through. *)
Definition gated (bd : option nat) (w : writer) : Prop :=
  match kind w with
  | Gate d fb =>
      (d = false \/ fb = true -> csent (cl w) = None /\ cdata (cl w) = "" /\ cbudget (cl w) = bd) /\
      (d = false -> fb = false) /\ (forall code h, csent (cl w) = Some (code, h) -> code < 500)
  | _ => False
  end.

Lemma gated_header bd f w : gated bd w -> gated bd (w_set_header f w).
Proof. done. Qed.

Lemma gated_WriteHeader bd code w : gated bd w -> gated bd (w_WriteHeader code w).
Proof.
  unfold gated, w_WriteHeader. destruct (kind w) as [|d fb|] eqn:Ek; try done. intros (H1 & H2 & H3).
  destruct d; [by rewrite Ek|]. destruct (H1 (or_introl eq_refl)) as (E1 & E2 & E3). specialize (H2 eq_refl). subst fb.
  destruct (500 <=? code) eqn:Ex; cbn; [done|]. bool_prop. split; [by intros [?|?]|]. split; [done|].
  unfold cl_WriteHeader. rewrite E1. destruct (informational code); cbn; [by rewrite E1|]. intros ? ? [= <- _]. lia.
Qed.

Lemma gated_Write bd p w : gated bd w -> gated bd (w_Write p w).1.
Proof.
  intros Hg. assert (forall w, gated bd w -> (forall d fb, kind w = Gate d fb -> d = true) ->
    gated bd (match kind w with Gate _ true => (w, true) | _ => let '(c, ok) := cl_Write p (cl w) in (mkW (kind w) c, ok) end).1) as HD.
  { intros [[|d fb|] c0]; cbn; try done. intros (H1 & H2 & H3) Hd. specialize (Hd _ _ eq_refl). subst d.
    destruct fb; [done|]. unfold gated.
    assert (forall code h, csent (cl_Write p c0).1 = Some (code, h) -> code < 500) as H4.
    { intros code h. unfold cl_Write. destruct (csent c0) as [[cd hh]|] eqn:Es; cbn.
      - destruct (cbudget c0) as [[|]|]; cbn; rewrite ?Es; intros [= <- <-]; by eapply H3.
      - unfold cl_WriteHeader. rewrite Es. cbn. destruct (cbudget c0) as [[|]|]; cbn; intros [= <- <-]; lia. }
    destruct (cl_Write p c0). cbn in *. split; [by intros [?|?]|]. by split. }
  unfold w_Write. destruct (kind w) as [|d fb|] eqn:Ek; [by unfold gated in Hg; rewrite Ek in Hg| |by unfold gated in Hg; rewrite Ek in Hg].
  destruct d.
  - apply HD; [done|]. rewrite Ek. by intros ? ? [= <- _].
  - apply HD; [by apply gated_WriteHeader|]. unfold w_WriteHeader. rewrite Ek.
    destruct (500 <=? 200); cbn; by intros ? ? [= <- _].
Qed.

Lemma gated_writeStored bd now r m b tag w : gated bd w -> gated bd (writeStored ParseTime now r m b tag w).
Proof.
  intros Hg. unfold writeStored. cbv zeta. set (h := if _ && _ then _ else _).
  pose proof (gated_WriteHeader bd (Status m) _ (gated_header bd (fun _ => h) w Hg)) as H.
  destruct (bodiless _ _); [done|]. by apply gated_Write.
Qed.

(** An origin that flushes only after it has sent a status or a part of the body. *)
Fixpoint flushes_late (wrote : bool) (o : handler) : Prop :=
  match o with
  | HReturn | HPanic => True
  | HSetHeader _ k | HPause _ k => flushes_late wrote k
  | HWriteHeader _ k => flushes_late true k
  | HWrite _ k => forall ok, flushes_late true (k ok)
  | HFlush k => wrote = true /\ flushes_late true k
  end.

(** The gate has decided. *)
Definition settled (w : writer) : Prop := match kind w with Gate d _ => d = true | _ => True end.

Lemma settled_WriteHeader code w : settled (w_WriteHeader code w).
Proof. unfold settled, w_WriteHeader. destruct (kind w) as [|[] fb|] eqn:Ek; rewrite ?Ek; try done. by destruct (500 <=? code). Qed.

Lemma settled_Write p w : settled (w_Write p w).1.
Proof.
  unfold w_Write. destruct (kind w) as [|d fb|] eqn:Ek; [by destruct (cl_Write p (cl w))| |unfold settled; cbn; by rewrite Ek].
  set (w1 := if d then w else w_WriteHeader 200 w). assert (settled w1) as H1.
  { unfold w1. destruct d; [unfold settled; by rewrite Ek|apply settled_WriteHeader]. }
  unfold settled in H1. destruct (kind w1) as [|d1 fb1|] eqn:E1; [by destruct (cl_Write p (cl w1))| |by destruct (cl_Write p (cl w1))].
  subst d1. destruct fb1; [unfold settled; cbn; by rewrite E1|by destruct (cl_Write p (cl w1))].
Qed.

Lemma gated_Flush bd w : gated bd w -> settled w -> gated bd (w_Flush w) /\ settled (w_Flush w).
Proof.
  unfold gated, settled, w_Flush. destruct (kind w) as [|d fb|] eqn:Ek; [done| |done]. intros (H1 & H2 & H3) ->.
  destruct fb; [by rewrite Ek|]. cbn. split; [|done]. split; [by intros [?|?]|]. split; [done|].
  intros code h. unfold cl_WriteHeader. destruct (csent (cl w)) as [x|] eqn:Ec; [rewrite Ec; by apply H3|]. cbn. intros [= <- _]. lia.
Qed.

Lemma gated_run_plain bd wrote o w s :
  flushes_late wrote o -> (wrote = true -> settled w) -> gated bd w -> gated bd (run_plain env o w s).1.1.
Proof.
  revert wrote w s. induction o as [| |f k IH|code k IH|p k IH|k IH|n k IH]; intros wrote w s Ho Hw Hg; cbn [run_plain flushes_late] in *; eauto.
  - apply (IH true); [done| |by apply gated_WriteHeader]. intros _. apply settled_WriteHeader.
  - pose proof (gated_Write bd p w Hg) as H1. pose proof (settled_Write p w) as H2. destruct (w_Write p w). by apply (IH _ true).
  - destruct Ho as [-> Ho]. destruct (gated_Flush bd w Hg (Hw eq_refl)). by apply (IH true).
Qed.

Lemma gated_tee_WriteHeader bd r ph lock code t w s :
  gated bd w -> gated bd (tee_WriteHeader ParseTime sha c r ph lock code t w s).1.2.
Proof.
  intros Hg. unfold tee_WriteHeader. destruct (wroteHeader t); [done|].
  destruct (if cacheable _ then _ else _) as [t' s']. destruct (_ && _); [done|]. by apply gated_WriteHeader.
Qed.

(** A tee that has its header has settled the gate or is holding the response back. *)
Definition tee_settled (t : teeWriter (E := E)) (w : writer) : Prop := deferredClient t = true \/ settled w.

Lemma tee_store_flags p t s :
  wroteHeader (tee_store c p t s).1 = wroteHeader t /\ deferredClient (tee_store c p t s).1 = deferredClient t.
Proof.
  unfold tee_store, tee_abort. destruct (ew t) eqn:Ee; [|done]. destruct (_ <? _); [done|].
  by destruct (eWrite _ _ _) as [[? ?] []].
Qed.

Lemma tee_WriteHeader_settled r ph lock code t w s :
  (wroteHeader t = true -> tee_settled t w) ->
  let x := tee_WriteHeader ParseTime sha c r ph lock code t w s in wroteHeader x.1.1 = true /\ tee_settled x.1.1 x.1.2.
Proof.
  intros H. unfold tee_WriteHeader. destruct (wroteHeader t) eqn:Ew; [by split; [|apply H]|].
  destruct (if cacheable _ then _ else _) as [t' s'] eqn:Ex.
  assert (wroteHeader t' = true) as Hw.
  { destruct (cacheable _); [|by injection Ex as <- _]. unfold open_entry in Ex.
    destruct (sWriter _ _) as [st [e|]]; [destruct (contentLength _)|]; by injection Ex as <- _. }
  destruct (_ && _); cbn [fst snd]; split; try done; [by left|right; apply settled_WriteHeader].
Qed.

Lemma tee_Write_gated bd r ph lock p t w s :
  gated bd w -> (wroteHeader t = true -> tee_settled t w) ->
  let x := tee_Write ParseTime sha c r ph lock p t w s in
  gated bd x.1.1.2 /\ wroteHeader x.1.1.1 = true /\ tee_settled x.1.1.1 x.1.1.2.
Proof.
  intros Hg Ht. unfold tee_Write. pose proof (gated_tee_WriteHeader bd r ph lock 200 t w s Hg) as H.
  pose proof (tee_WriteHeader_settled r ph lock 200 t w s Ht) as HS.
  destruct (if wroteHeader t then _ else _) as [[t' w'] s'] eqn:Ex.
  assert (gated bd w' /\ wroteHeader t' = true /\ tee_settled t' w') as (Hw & Hh & Hd).
  { destruct (wroteHeader t) eqn:Ew; [simplify_eq; by split_and!; [| |apply Ht]|]. rewrite Ex in H, HS. by destruct HS. }
  destruct (deferredClient t') eqn:Ed.
  - set (t2 := if 0 <? _ then _ else _). pose proof (tee_store_flags p t2 s') as [F1 F2].
    destruct (tee_store c p t2 s') as [t3 s3]. cbn [fst snd] in *. split_and!; [done| |left].
    + rewrite F1. unfold t2. by destruct (0 <? _).
    + rewrite F2. unfold t2. by destruct (0 <? _).
  - pose proof (gated_Write bd p w' Hw) as G1. pose proof (settled_Write p w') as G2. destruct (w_Write p w') as [w2 ok].
    pose proof (tee_store_flags p t' s') as [F1 F2]. destruct (tee_store c p t' s') as [t3 s3]. cbn [fst snd] in *.
    split_and!; [done|by rewrite F1|by right].
Qed.

Lemma gated_run_tee bd wrote r ph lock o t w s :
  flushes_late wrote o -> (wrote = true -> wroteHeader t = true) -> (wroteHeader t = true -> tee_settled t w) ->
  gated bd w -> gated bd (run_tee ParseTime sha env c r ph lock o t w s).1.1.2.
Proof.
  revert wrote t w s. induction o as [| |f k IH|code k IH|p k IH|k IH|n k IH]; intros wrote t w s Ho Hw Ht Hg; cbn [run_tee flushes_late] in *; eauto.
  - pose proof (gated_tee_WriteHeader bd r ph lock code t w s Hg) as H.
    pose proof (tee_WriteHeader_settled r ph lock code t w s Ht) as HS.
    destruct (tee_WriteHeader _ _ _ _ _ _ _ _ _ _) as [[t' w'] s']. destruct HS. by apply (IH true).
  - pose proof (tee_Write_gated bd r ph lock p t w s Hg Ht) as H.
    destruct (tee_Write _ _ _ _ _ _ _ _ _ _) as [[[t' w'] s'] ok]. destruct H as (H1 & H2 & H3). by apply (IH _ true).
  - destruct Ho as [-> Ho]. assert (gated bd (tee_Flush t w) /\ tee_settled t (tee_Flush t w)) as [H1 H2].
    { unfold tee_Flush. destruct (deferredClient t) eqn:Ed; [by split; [|left]|].
      destruct (Ht (Hw eq_refl)) as [?|Hs]; [congruence|]. destruct (gated_Flush bd w Hg Hs). by split; [|right]. }
    by apply (IH true).
Qed.

Lemma gated_fill_loop bd n r next ph w s :
  flushes_late false next -> gated bd w -> gated bd (fill_loop' n c r next ph w s).1.1.1.
Proof.
  intros Hn. revert w s. induction n as [|n IH]; intros w s Hg; cbn [fill_loop].
  { cbv zeta. pose proof (gated_run_plain bd false next _ s Hn ltac:(done) (gated_header bd (<["X-Cache" := ["MISS"]]>) w Hg)).
    by destruct (run_plain env next _ s) as [[? ?] ?]. }
  destruct (acquire _ s) as [[lock leader] s1]. destruct leader.
  { unfold fill. pose proof (gated_run_tee bd false r ph (Some lock) next new_tee w s1 Hn ltac:(done) ltac:(done) Hg) as H.
    destruct (run_tee _ _ _ _ _ _ _ _ _ _ _) as [[[t w'] s'] []]; [|by destruct (tee_abort t s')].
    destruct (finish _ _ _ _ t s') as [t2 s2]. cbn in *. destruct (deferredClient t2); [|done]. unfold serveLeader.
    pose proof (gated_WriteHeader bd (status t2) _ (gated_header bd (fun _ => <["X-Cache" := ["MISS"]]> (metaHeader t2)) w' H)).
    destruct (bodiless _ _); [done|]. by apply gated_Write. }
  assert (forall k s, gated bd (tryServeHit' c r k w s).1.1) as HT.
  { intros k s0. unfold tryServeHit. destruct (sGet _ _) as [st [[m b]|]]; [|done].
    destruct (classify _ _ _ _); try done. by apply gated_writeStored. }
  set (s2 := add_waiters lock (-1) _). specialize (HT (variantHash sha s2 ph r) s2).
  destruct (tryServeHit _ _ _ _ w s2) as [[w3 s3] hit]. cbn in HT. destruct hit; [done|].
  destruct (String.eqb _ _); [|by apply IH].
  pose proof (gated_run_plain bd false next _ s3 Hn ltac:(done) (gated_header bd (<["X-Cache" := ["MISS"]]>) w3 HT)).
  by destruct (run_plain env next _ s3) as [[? ?] ?].
Qed.

Lemma fill_loop_result n r next ph w s :
  info_result (fill_loop' n c r next ph w s).1.2 <> ResultStaleError.
Proof.
  revert w s. induction n as [|n IH]; intros w s; cbn [fill_loop]; cbv zeta.
  { by destruct (run_plain env next _ s) as [[? ?] ?]. }
  destruct (acquire _ s) as [[lock leader] s1]. destruct leader.
  { unfold fill. destruct (run_tee _ _ _ _ _ _ _ _ _ _ _) as [[[t w'] s'] []]; [|by destruct (tee_abort t s')].
    by destruct (finish _ _ _ _ t s'). }
  destruct (tryServeHit _ _ _ _ w _) as [[w3 s3] hit]. destruct hit; [done|].
  destruct (String.eqb _ _); [|by apply IH]. by destruct (run_plain env next _ s3) as [[? ?] ?].
Qed.

(** The client holds the stored response, marked STALE, and nothing else. *)
Definition shows_stale (now : Z) (r : Request) (m : Meta) (b : string) (cl0 cl1 : client) : Prop :=
  cl1 = cl (writeStored ParseTime now r m b "STALE" (mkW Direct cl0)).

(** Serving a stale-if-error request to a fresh client, when the origin returns (and
    does not flush before it has sent a status), either falls back, and then the client holds exactly the stored response marked
    STALE, with no header or byte of the failed one, or does not, and then no status
    of 500 or more reached the client. *)
Theorem cache_stale_if_error r next ph m b bd s w' s' info :
  flushes_late false next ->
  fillWithStale ParseTime sha env pick c r next ph m b (mkW Direct (fresh_client bd)) s = (w', s', info, Returned) ->
  (info_result info = ResultStaleError /\
   shows_stale (clock s') r m b (fresh_client bd) (cl w')) \/
  (info_result info <> ResultStaleError /\ forall code h, csent (cl w') = Some (code, h) -> code < 500).
Proof.
  intros Hn. unfold fillWithStale, fillAndServe. cbn [cl].
  assert (gated bd (mkW (Gate false false) (fresh_client bd))) as H0 by done.
  pose proof (gated_fill_loop bd 2 r next ph _ s Hn H0) as Hg.
  assert (info_result (fill_loop' 2 c r next ph (mkW (Gate false false) (fresh_client bd)) s).1.2 <> ResultStaleError) as Hi.
  { by apply fill_loop_result. }
  destruct (fill_loop' 2 c r next ph _ s) as [[[w1 s1] i1] []]; [|done]. cbn in Hg, Hi. intros [= <- <- <-].
  unfold gated in Hg. destruct (kind w1) as [|d fb|] eqn:Ek; [done| |done]. destruct Hg as (H1 & H2 & H3).
  unfold finalize. rewrite Ek. destruct fb; [left|right; by split].
  split; [done|]. unfold shows_stale. cbn [cl]. destruct (H1 (or_intror eq_refl)) as (E1 & E2 & E3). unfold fresh_client, set_ch.
  by rewrite E1, E2, E3.
Qed.

(** ** The windows *)

Definition valid (m : Meta) (r : Request) : Prop :=
  match invalidatedAfter c with None => True | Some f => f r m < Created m end.

(** A stored entry is fresh up to and including FreshUntil, then serveable while
    it is revalidated, then on an error only, in windows that do not overlap, and past
    the last of them, or when it was invalidated out of band, it is expired and never
    served. *)
Theorem cache_classify_windows m r now :
  0 <= StaleWhileRevalidate m -> 0 <= StaleIfError m ->
  (classify c m r now = stateFresh <-> valid m r /\ now <= FreshUntil m) /\
  (classify c m r now = stateStaleRevalidate <->
   valid m r /\ FreshUntil m < now < FreshUntil m + StaleWhileRevalidate m) /\
  (classify c m r now = stateStaleIfError <->
   valid m r /\ FreshUntil m < now /\ FreshUntil m + StaleWhileRevalidate m <= now < FreshUntil m + StaleIfError m) /\
  (classify c m r now = stateExpired <-> ~ valid m r \/ FreshUntil m < now /\ serveableUntil m <= now).
Proof.
  intros Hs Hi. unfold classify, valid, serveableUntil. cbv zeta.
  destruct (FreshUntil m <? now) eqn:E1; cbn [negb];
    [destruct (_ && (now <? FreshUntil m + StaleWhileRevalidate m)) eqn:E2;
     [|destruct (_ && (now <? FreshUntil m + StaleIfError m)) eqn:E3]|]; bool_prop;
    destruct (invalidatedAfter c) as [f|];
    try (destruct (Created m <=? f r m) eqn:E4; bool_prop);
    destruct (StaleWhileRevalidate m <? StaleIfError m) eqn:E5; bool_prop;
    split_and!; (split; [try done; intros; try lia|try done; intros; try lia]).
Qed.

(** ** Informational responses *)

Definition early_hints (code : Z) (p : string) : handler :=
  HWriteHeader 103 (HWriteHeader code (HWrite p (fun _ => HReturn))).

(** An origin that sends an informational 103 before its final status (as the
    reverse proxy does when the upstream sends Early Hints) has the final status
    dropped on a fill, whatever it is: the client gets the body under status 200. *)
Theorem cache_drops_final_status r ph lock code p s :
  let x := run_tee ParseTime sha env c r ph lock
    (early_hints code p) new_tee (mkW Direct (fresh_client None)) s in
  exists h, csent (cl x.1.1.2) = Some (200, h) /\ cdata (cl x.1.1.2) = p.
Proof.
  assert (tee_WriteHeader ParseTime sha c r ph lock 103 new_tee (mkW Direct (fresh_client None)) s =
    (set_status 103 new_tee, mkW Direct (set_ch (<["X-Cache" := ["MISS"]]> ∅) (fresh_client None)), s)) as H.
  { unfold tee_WriteHeader. cbn [wroteHeader new_tee].
    destruct (cacheable _) eqn:Ec; [by apply cacheable_status in Ec|done]. }
  cbv zeta. unfold early_hints. cbn [run_tee]. rewrite H. eexists. split; reflexivity.
Qed.

End Middleware.
End CacheServeFacts.
