(* ===== verification/CacheMemory.v ===== *)
(** * pkg/cache: the middleware over the in-memory backend

    The in-memory backend of [Memory] meets the contract of [CacheServeFacts], so the
    theorems proved there for any backend hold of the middleware on it; the requests
    at the end run the two together. *)

From S2P Require Import Prelude GoStrings GoNet Policy Concurrency Lru Memory CacheKeys CacheServe CacheServeFacts.

#[export] Instance memory_storage : Storage Memory.MemoryStorage Memory.memWriter := {
  sGet k s := let '(s, r) := run (Memory.Get k) s in (s, default None r);
  sDelete k s := (run (Memory.Delete k) s).1;
  sWriter k s := (s, Some (Memory.Writer k));
  eWrite p e s := (s, Memory.Write p e, true);
  eCommit mt e s := let '(s, r) := run (Memory.Commit mt e) s in (s, bool_decide (is_Some r));
  eAbort e s := s;
}.

Module CacheMemory.
Import Policy Memory CacheKeys CacheKeysFacts CacheServe CacheServeFacts.

Lemma stored_iff (s : MemoryStorage) k mt b : stored s k mt b <-> m s !! k = Some (mkEntry b mt).
Proof.
  unfold stored, sGet, memory_storage, Get. cbn. destruct (m s !! k) as [[b' m']|]; cbn; [|done].
  split; by intros [= -> ->].
Qed.

Lemma run_get_map k s : m (run (Get k) s).1 = m s.
Proof. unfold Get. cbn. by destruct (m s !! k). Qed.

Lemma delete_victims_sub victims s : m (run (delete_victims victims) s).1 ⊆ m s.
Proof.
  revert s. induction victims as [|v victims IH]; intros s; cbn; [done|].
  etrans; [apply IH|]. cbn. apply delete_subseteq.
Qed.

#[export] Instance memory_laws : StorageLaws MemoryStorage memWriter.
Proof.
  refine {| ekey := wkey; ebuf := buf |}.
  - intros k s k' mt b. rewrite !stored_iff. pose proof (run_get_map k s) as H.
    unfold sGet, memory_storage. destruct (run (Get k) s) as [s1 res]. cbn in *. by rewrite H.
  - intros k s k' mt b. rewrite !stored_iff. cbn. by intros [_ H]%lookup_delete_Some.
  - done.
  - by intros k s e [= <-].
  - done.
  - done.
  - intros mt e s k' m0 b. rewrite !stored_iff. cbn. unfold Commit. destruct (wdone e); [by left|].
    cbn. rewrite run_bind. set (s1 := on_lru _ _).
    match goal with |- context [delete_victims ?v] => pose proof (delete_victims_sub v s1) as H end.
    destruct (run (delete_victims _) s1) as [s2 [[]|]]; cbn in *; intros Hl;
      (eapply lookup_weaken in Hl; [|exact H]); cbn in Hl;
      apply lookup_insert_Some in Hl as [[<- [= <- <-]]|[_ Hl]]; auto.
  - done.
Defined.

(** ** Requests on an empty cache *)

Definition no_date : string -> option Z := fun _ => None.
Definition alone : nat -> shared (St := MemoryStorage) -> shared (St := MemoryStorage) := fun _ s => s.
Definition first_key : gmap string (list string) -> string := fun pv => default "" (fst <$> head (map_to_list pv)).

Definition demo_cache : Cache := New (mkCache None None None 0 0 0 0 (60 * Second) false false).
Definition demo_state : shared (St := MemoryStorage) := mkShared (NewMemory (Z.shiftl 1 20)) 0 ∅ ∅ ∅ ∅ 0.
Definition at_time (t : Z) (s : shared (St := MemoryStorage)) : shared :=
  mkShared (store s) t (primaryVary s) (locks s) (waiters s) (closed s) (nextlock s).

(** An origin that declares five bytes, varies on the language, and writes [body]. *)
Definition demo_origin (body : string) : handler :=
  HSetHeader (fun _ => <["Cache-Control" := ["max-age=60"]]> (<["Vary" := ["Accept-Language"]]>
                         {["Content-Length" := ["5"]]}))
    (HWriteHeader 200 (HWrite body (fun _ => HReturn))).

Definition demo_serve (next : handler) (s : shared (St := MemoryStorage)) :=
  serve no_date demo_sha alone first_key demo_cache (demo_req "th" "example.com") next HReturn
    (mkW Direct (fresh_client None)) s.

(** The state after one miss. *)
Definition demo_filled : shared (St := MemoryStorage) := (demo_serve (demo_origin "hello") demo_state).1.2.

Lemma demo_state_empty k mt b : ~ stored (store demo_state) k mt b.
Proof. intros H. by apply stored_iff in H. Qed.

Definition body_sizes (s : shared (St := MemoryStorage)) : list Z :=
  (fun ke => Size (meta (snd ke))) <$> map_to_list (m (store s)).

(** An origin that breaks off after its last byte. *)
Definition demo_broken : handler :=
  HSetHeader (fun _ => <["Cache-Control" := ["max-age=60"]]> {["Content-Length" := ["5"]]})
    (HWriteHeader 200 (HWrite "hello" (fun _ => HPanic))).

(** The first request fills the cache, and what is there is its origin's response; a
    truncated response, or one that ends in a panic, leaves nothing. *)
Lemma cache_stores_only_complete_witness :
  body_sizes demo_filled = [5] /\
  (forall k mt b, stored (store demo_filled) k mt b ->
    fills no_date demo_sha demo_cache (demo_req "th" "example.com") (demo_origin "hello") ∅ 0 k mt b) /\
  body_sizes (demo_serve (demo_origin "hell") demo_state).1.2 = [] /\
  body_sizes (demo_serve demo_broken demo_state).1.2 = [].
Proof.
  split_and!; [vm_compute; reflexivity| |vm_compute; reflexivity..]. intros k mt b Hs.
  destruct (cache_stores_only_complete no_date demo_sha alone first_key demo_cache (fun _ _ _ => False)
    (demo_req "th" "example.com") (demo_origin "hello") HReturn (mkW Direct (fresh_client None)) demo_state
    (fun n s k mt b H => or_introl H) (fun n s => Z.le_refl _) k mt b Hs) as [H|[[]|[[_ H]|[H _]]]].
  - by apply demo_state_empty in H.
  - exact H.
  - vm_compute in H. discriminate H.
Defined.

Lemma served_Inv r next bg w s :
  Inv (filled no_date demo_sha demo_cache) s ->
  Inv (filled no_date demo_sha demo_cache) (serve no_date demo_sha alone first_key demo_cache r next bg w s).1.2.
Proof.
  intros HI. apply serve_Inv; [done|intros n s0; apply Z.le_refl|done|..];
    intros _ k mt b Hf; eexists _, _, _, _; exact Hf.
Qed.

Lemma at_time_Inv P t (s : shared (St := MemoryStorage)) : Inv P s -> Inv P (at_time t s).
Proof. done. Qed.

Lemma demo_filled_Inv t : Inv (filled no_date demo_sha demo_cache) (at_time t demo_filled).
Proof. apply at_time_Inv, served_Inv. intros k mt b Hs. by apply demo_state_empty in Hs. Qed.

(** Thirty seconds later the same request is a hit, on what the first one stored. *)
Lemma cache_hit_own_variant_witness :
  let x := demo_serve HPanic (at_time (30 * Second) demo_filled) in
  x.2 = Some (mkInfo ResultHit 0) /\ cdata (cl x.1.1) = "hello" /\
  exists s1 mt b, rtc (looks_on alone) (at_time (30 * Second) demo_filled) s1 /\
    stored (store s1) (variantHash demo_sha s1 (primaryHash demo_sha (demo_req "th" "example.com")) (demo_req "th" "example.com")) mt b /\
    cl x.1.1 = cl (writeStored no_date (clock s1) (demo_req "th" "example.com") mt b "HIT" (mkW Direct (fresh_client None))).
Proof.
  split; [vm_compute; reflexivity|]. split; [vm_compute; reflexivity|].
  destruct (cache_hit_own_variant no_date demo_sha alone first_key demo_cache (fun n s H => H)
    (demo_req "th" "example.com") HPanic HReturn (mkW Direct (fresh_client None))
    (at_time (30 * Second) demo_filled) (mkInfo ResultHit 0)) as (s1 & mt & b & H1 & H2 & _ & H4 & _).
  - apply demo_filled_Inv.
  - reflexivity.
  - vm_compute. reflexivity.
  - reflexivity.
  - exists s1, mt, b. split; [exact H1|]. split; [exact H2|exact H4].
Defined.

(** A minute and a half later the origin fails: the client gets the stored body. *)
Lemma cache_stale_if_error_witness :
  let x := demo_serve (HWriteHeader 503 (HWrite "down" (fun _ => HReturn))) (at_time (90 * Second) demo_filled) in
  x.2 = Some (mkInfo ResultStaleError 0) /\ cdata (cl x.1.1) = "hello" /\
  exists mt b w' s' info,
    fillWithStale no_date demo_sha alone first_key demo_cache (demo_req "th" "example.com")
      (HWriteHeader 503 (HWrite "down" (fun _ => HReturn))) "" mt b (mkW Direct (fresh_client None))
      demo_filled = (w', s', info, Returned) /\
    (info_result info <> ResultStaleError -> forall code h, csent (cl w') = Some (code, h) -> code < 500).
Proof.
  split; [vm_compute; reflexivity|]. split; [vm_compute; reflexivity|].
  exists (MemoryFacts.demo_meta 5), "hello".
  destruct (fillWithStale no_date demo_sha alone first_key demo_cache (demo_req "th" "example.com")
      (HWriteHeader 503 (HWrite "down" (fun _ => HReturn))) "" (MemoryFacts.demo_meta 5) "hello" (mkW Direct (fresh_client None))
      demo_filled) as [[[w' s'] info] e] eqn:Ef.
  assert (e = Returned) as -> by (apply (f_equal snd) in Ef; vm_compute in Ef; by symmetry).
  exists w', s', info. split; [done|].
  assert (flushes_late false (HWriteHeader 503 (HWrite "down" (fun _ => HReturn)))) as Hn by (intros ok; exact I).
  destruct (cache_stale_if_error no_date demo_sha alone first_key demo_cache _ _ _ _ _ _ _ _ _ _ Hn Ef) as [[? _]|[_ H]]; [done|].
  by intros _.
Defined.

(** An origin that flushes before it fails: the gate lets the flush through, which sends
    a 200 with the failing response's headers, and the stored body follows under it. *)
Example cache_flush_before_error :
  let failing := HSetHeader (<["Content-Type" := ["text/event-stream"]]>) (HFlush (HWriteHeader 503 (HWrite "down" (fun _ => HReturn)))) in
  let x := demo_serve failing (at_time (90 * Second) demo_filled) in
  (fun h => (h.1, HGet h.2 "Content-Type", HGet h.2 "X-Cache")) <$> csent (cl x.1.1) = Some (200, "text/event-stream", "") /\
  cdata (cl x.1.1) = "hello" /\ x.2 = Some (mkInfo ResultStaleError 0).
Proof. vm_compute. done. Qed.

Lemma cache_classify_windows_witness :
  let mt := mkMeta ∅ "" "" "" [] [] 0 10 5 20 0 200 in
  classify demo_cache mt (demo_req "th" "h") 10 = stateFresh /\ classify demo_cache mt (demo_req "th" "h") 14 = stateStaleRevalidate /\
  classify demo_cache mt (demo_req "th" "h") 15 = stateStaleIfError /\ classify demo_cache mt (demo_req "th" "h") 30 = stateExpired.
Proof.
  split_and!; apply cache_classify_windows; cbn; try lia.
  all: unfold valid, serveableUntil; cbn; first [lia|split; [exact I|lia]|right; lia].
Defined.
End CacheMemory.
