(* ===== verification/CacheFlight.v ===== *)
(** * pkg/cache: single flight among concurrent requests

    [fillAndServe], [fill] and [revalidate] of [src/pkg/cache/cache.go] and [stale.go]
    as the steps of any number of requests interleaved in any order: the leader of a
    variant fills while the others wait for its lock or time out.  [CacheServe] has
    the same code run by one request; here [acquire], the two halves of [release]
    and [tryServeHit] are the atomic steps, each with the computation of the key it
    works on (the code computes the key just before, under another mutex), and the rest
    of a fill is an arbitrary change of the store. *)

From S2P Require Import Prelude GoStrings GoNet Policy Memory CacheKeys CacheServe CacheServeFacts CacheMemory.

Module CacheFlight.
Import CacheKeys CacheServe.

(** Where a request is: in [fillAndServe] before its [attempt]-th acquire, filling,
    waiting for the fill of [key], woken from it, fetching on its own, or answered;
    [Refreshing] is the start of a background revalidation, [Closing] a leader
    between the two halves of [release]. *)
Inductive phase :=
  | Trying (attempt : nat)
  | Refreshing
  | Leading (key : string) (lock : nat)
  | Closing (lock : nat)
  | Waiting (attempt : nat) (key : string) (lock : nat)
  | Woken (attempt : nat) (key : string)
  | Fetching
  | Served.

Section Flight.
Context {St E : Type} `{!Storage St E}.
Context (ParseTime : string -> option Z) (sha : string -> string) (c : Cache).

Record flight := mkFlight { sh : shared (St := St); reqs : list (Request * phase) }.

Definition lookup_key (s : shared (St := St)) (r : Request) : string := variantHash sha s (primaryHash sha r) r.

(** What a fill may do to the shared state before it releases: anything but the
    locks. *)
Definition fills (s s' : shared (St := St)) : Prop :=
  locks s' = locks s /\ closed s' = closed s /\ nextlock s' = nextlock s.

(** [release]: the table entry goes under the mutex, the channel is closed after. *)
Definition drop_lock (key : string) (s : shared (St := St)) : shared (St := St) :=
  mkShared (store s) (clock s) (primaryVary s) (delete key (locks s)) (waiters s) (closed s) (nextlock s).
Definition close_done (l : nat) (s : shared (St := St)) : shared (St := St) :=
  mkShared (store s) (clock s) (primaryVary s) (locks s) (waiters s) ({[l]} ∪ closed s) (nextlock s).

(** A step of one request. *)
Inductive rstep (r : Request) : phase -> shared -> phase -> shared -> Prop :=
  | R_lead a s l s' :
      (a < 2)%nat -> acquire (lookup_key s r) s = (l, true, s') ->
      rstep r (Trying a) s (Leading (lookup_key s r) l) s'
  | R_follow a s l s' :
      (a < 2)%nat -> acquire (lookup_key s r) s = (l, false, s') ->
      rstep r (Trying a) s (Waiting a (lookup_key s r) l) (add_waiters l 1 s')
  | R_exhausted s : rstep r (Trying 2) s Fetching s
  | R_refresh s l s' :
      acquire (lookup_key s r) s = (l, true, s') -> rstep r Refreshing s (Leading (lookup_key s r) l) s'
  | R_refreshed s l s' :
      acquire (lookup_key s r) s = (l, false, s') -> rstep r Refreshing s Served s'
  | R_fill key l s s' : fills s s' -> rstep r (Leading key l) s (Leading key l) s'
  | R_drop key l s : rstep r (Leading key l) s (Closing l) (drop_lock key s)
  | R_close l s : rstep r (Closing l) s Served (close_done l s)
  | R_done a key l s :
      l ∈ closed s -> rstep r (Waiting a key l) s (Woken a key) (add_waiters l (-1) s)
  | R_timeout a key l s : rstep r (Waiting a key l) s (Woken a key) (add_waiters l (-1) s)
  | R_hit a key s w w' s' :
      tryServeHit ParseTime c r (lookup_key s r) w s = (w', s', true) -> rstep r (Woken a key) s Served s'
  | R_same a key s w s' :
      tryServeHit ParseTime c r (lookup_key s r) w s = (w, s', false) -> lookup_key s' r = key ->
      rstep r (Woken a key) s Fetching s'
  | R_again a key s w s' :
      tryServeHit ParseTime c r (lookup_key s r) w s = (w, s', false) -> lookup_key s' r <> key ->
      rstep r (Woken a key) s (Trying (S a)) s'
  | R_fetched s : rstep r Fetching s Served s.

Inductive step : flight -> flight -> Prop :=
  | Step i r p p' s s' rs :
      rs !! i = Some (r, p) -> rstep r p s p' s' -> step (mkFlight s rs) (mkFlight s' (<[i := (r, p')]> rs)).

(** Requests on a cache with no fill in flight. *)
Definition initial (f : flight) : Prop :=
  locks (sh f) = ∅ /\ Forall (fun rp => snd rp = Trying 0 \/ snd rp = Refreshing) (reqs f).

(** ** One leader for each lock *)

(** A request that will close the lock [l]. *)
Definition owns (p : phase) (l : nat) : Prop :=
  match p with Leading _ l' => l = l' | Closing l' => l = l' | _ => False end.

Definition at_phase (f : flight) (i : nat) (p : phase) : Prop := exists r, reqs f !! i = Some (r, p).

Record ok (f : flight) : Prop := {
  ok_table key l : locks (sh f) !! key = Some l <-> (exists i, at_phase f i (Leading key l));
  ok_unique i j p q l : at_phase f i p -> at_phase f j q -> owns p l -> owns q l -> i = j;
  ok_open i p l : at_phase f i p -> owns p l -> (l ∉ closed (sh f)) /\ (l < nextlock (sh f))%nat;
  ok_closed l : l ∈ closed (sh f) -> (l < nextlock (sh f))%nat;
  ok_wait i a key l : at_phase f i (Waiting a key l) ->
    l ∈ closed (sh f) \/ (exists j p, at_phase f j p /\ owns p l);
}.

Lemma release_halves key l s : release key l s = close_done l (drop_lock key s).
Proof. done. Qed.

Lemma at_phase_insert s s0 rs i r p p' j q :
  rs !! i = Some (r, p) ->
  at_phase (mkFlight s (<[i := (r, p')]> rs)) j q <-> (j = i /\ q = p') \/ (j <> i /\ at_phase (mkFlight s0 rs) j q).
Proof.
  intros Hi. unfold at_phase. cbn. assert (i < length rs)%nat by (by apply lookup_lt_Some in Hi). split.
  - intros [r0 H0]. apply list_lookup_insert_Some in H0 as [(-> & [= <- <-] & _)|[? ?]]; [by left|right]. eauto.
  - intros [[-> ->]|[? [r0 ?]]]; [exists r; by apply list_lookup_insert_eq|].
    exists r0. by rewrite list_lookup_insert_ne.
Qed.

(** A step that owns nothing new and leaves the locks alone. *)
Lemma ok_quiet i r p p' s s' rs :
  rs !! i = Some (r, p) -> fills s s' -> (forall l, ~ owns p l) -> (forall l, ~ owns p' l) ->
  (forall a key l, p' = Waiting a key l -> exists j, at_phase (mkFlight s rs) j (Leading key l)) ->
  ok (mkFlight s rs) -> ok (mkFlight s' (<[i := (r, p')]> rs)).
Proof.
  intros Hi (H1 & H2 & H3) Hp Hp' Hw [Ht Hu Ho Hc Hwt].
  assert (forall j q, at_phase (mkFlight s' (<[i := (r, p')]> rs)) j q <-> (j = i /\ q = p') \/ (j <> i /\ at_phase (mkFlight s rs) j q)) as HA
    by (intros; by apply at_phase_insert with p).
  assert (at_phase (mkFlight s rs) i p) as Hat by (by exists r).
  assert (forall j q l, at_phase (mkFlight s rs) j q -> owns q l -> at_phase (mkFlight s' (<[i := (r, p')]> rs)) j q) as Hkeep.
  { intros j q l Hj Hq. apply HA. right. split; [|done]. intros ->. destruct Hat as [? E1], Hj as [? E2]. cbn in *. simplify_eq. by eapply Hp. }
  split; cbn [sh] in *; rewrite ?H1, ?H2, ?H3.
  - intros key l. rewrite Ht. split; intros [j Hj]; exists j; [by eapply Hkeep|].
    apply HA in Hj as [[-> <-]|[_ ?]]; [by destruct (Hp' l)|done].
  - intros j k q q' l Hj Hk Hq Hq'. apply HA in Hj as [[-> ->]|[_ Hj]]; [by destruct (Hp' l)|].
    apply HA in Hk as [[-> ->]|[_ Hk]]; [by destruct (Hp' l)|]. by eapply Hu.
  - intros j q l Hj Hq. apply HA in Hj as [[-> ->]|[_ Hj]]; [by destruct (Hp' l)|]. by eapply Ho.
  - done.
  - intros j a key l Hj. apply HA in Hj as [[-> E1]|[_ Hj]].
    + destruct (Hw a key l (eq_sym E1)) as [k Hk]. right. exists k, (Leading key l). split; [by eapply Hkeep|done].
    + destruct (Hwt j a key l Hj) as [?|(k & q & Hk & Hq)]; [by left|right]. exists k, q. split; [by eapply Hkeep|done].
Qed.
(** A leader whose locks stay. *)
Lemma ok_fill i r key l s s' rs :
  rs !! i = Some (r, Leading key l) -> fills s s' ->
  ok (mkFlight s rs) -> ok (mkFlight s' (<[i := (r, Leading key l)]> rs)).
Proof.
  intros Hi (H1 & H2 & H3) [Ht Hu Ho Hc Hwt]. rewrite list_insert_id by done.
  split; unfold at_phase in *; cbn in *; rewrite ?H1, ?H2, ?H3; done.
Qed.

Lemma ok_lead i r p key l s s' rs :
  rs !! i = Some (r, p) -> (forall l, ~ owns p l) -> (forall a key l, p <> Waiting a key l) ->
  acquire key s = (l, true, s') -> ok (mkFlight s rs) -> ok (mkFlight s' (<[i := (r, Leading key l)]> rs)).
Proof.
  intros Hi Hp Hnw. unfold acquire. destruct (locks s !! key) as [|] eqn:Ek; [done|]. intros [= <- <-] [Ht Hu Ho Hc Hwt].
  set (s' := mkShared _ _ _ _ _ _ _).
  assert (forall j q, at_phase (mkFlight s' (<[i := (r, Leading key (nextlock s))]> rs)) j q <->
    (j = i /\ q = Leading key (nextlock s)) \/ (j <> i /\ at_phase (mkFlight s rs) j q)) as HA
    by (intros; by apply at_phase_insert with p).
  assert (forall j q, at_phase (mkFlight s rs) j q -> owns q (nextlock s) -> False) as Hfresh.
  { intros j q Hj Hq. destruct (Ho j q _ Hj Hq) as [_ H]. cbn in H. lia. }
  assert (forall j q l, at_phase (mkFlight s rs) j q -> owns q l -> j <> i) as Hne.
  { intros j q l [? E1] Hq ->. cbn in *. simplify_eq. by eapply Hp. }
  split; cbn [sh locks closed nextlock s'] in *.
  - intros key' l'. destruct (decide (key' = key)) as [->|Hk].
    + rewrite lookup_insert_eq. split.
      * intros [= <-]. exists i. apply HA. by left.
      * intros [j Hj]. apply HA in Hj as [[_ [= ->]]|[_ Hj]]; [done|]. exfalso.
        assert (locks s !! key = Some l') as H by (apply Ht; by exists j). congruence.
    + rewrite lookup_insert_ne, Ht by done. split; intros [j Hj].
      * exists j. apply HA. right. split; [by eapply Hne|done].
      * apply HA in Hj as [[_ [= -> ->]]|[_ Hj]]; [done|by exists j].
  - intros j k q q' l' Hj Hk Hq Hq'. apply HA in Hj as [[-> ->]|[_ Hj]]; apply HA in Hk as [[-> ->]|[_ Hk]]; cbn in Hq, Hq'; subst; try done.
    + exfalso. by eapply Hfresh.
    + exfalso. by eapply Hfresh.
    + by eapply Hu.
  - intros j q l' Hj Hq. apply HA in Hj as [[-> ->]|[_ Hj]].
    + cbn in Hq. subst l'. split; [|lia]. intros H. apply Hc in H. lia.
    + destruct (Ho j q l' Hj Hq). split; [done|lia].
  - intros l' H. apply Hc in H. lia.
  - intros j a key' l' Hj. apply HA in Hj as [[_ [=]]|[_ Hj]].
    destruct (Hwt j a key' l' Hj) as [?|(k & q & Hk & Hq)]; [by left|right]. exists k, q. split; [|done].
    apply HA. right. split; [by eapply Hne|done].
Qed.

Lemma ok_drop i r key l s rs :
  rs !! i = Some (r, Leading key l) ->
  ok (mkFlight s rs) -> ok (mkFlight (drop_lock key s) (<[i := (r, Closing l)]> rs)).
Proof.
  intros Hi [Ht Hu Ho Hc Hwt].
  assert (forall j q, at_phase (mkFlight (drop_lock key s) (<[i := (r, Closing l)]> rs)) j q <->
    (j = i /\ q = Closing l) \/ (j <> i /\ at_phase (mkFlight s rs) j q)) as HA
    by (intros; by eapply at_phase_insert).
  assert (at_phase (mkFlight s rs) i (Leading key l)) as Hat by (by exists r).
  assert (forall q, at_phase (mkFlight s rs) i q -> q = Leading key l) as Hi'.
  { intros q [? E1]. cbn in E1. congruence. }
  split; cbn [sh locks closed nextlock drop_lock] in *.
  - intros key' l'. rewrite lookup_delete_Some, Ht. split.
    + intros [Hk [j Hj]]. exists j. apply HA. right. split; [|done]. intros ->. apply Hi' in Hj. congruence.
    + intros [j Hj]. apply HA in Hj as [[_ [=]]|[Hji Hj]]. split; [|by exists j]. intros <-.
      assert (locks s !! key = Some l') as E1 by (apply Ht; by exists j).
      assert (locks s !! key = Some l) as E2 by (apply Ht; by exists i). assert (l' = l) as -> by congruence.
      by destruct (Hu j i _ _ l Hj Hat eq_refl eq_refl).
  - intros j k q q' l' Hj Hk Hq Hq'. apply HA in Hj as [[-> ->]|[Hj' Hj]]; apply HA in Hk as [[-> ->]|[Hk' Hk]]; cbn in Hq, Hq'; subst; try done.
    + destruct Hk'. by apply (Hu _ _ _ _ l Hk Hat).
    + destruct Hj'. by apply (Hu _ _ _ _ l Hj Hat).
    + by eapply Hu.
  - intros j q l' Hj Hq. apply HA in Hj as [[-> ->]|[_ Hj]]; [by apply (Ho i (Leading key l))|by apply (Ho j q)].
  - done.
  - intros j a key' l' Hj. apply HA in Hj as [[_ [=]]|[_ Hj]].
    destruct (Hwt j a key' l' Hj) as [?|(k & q & Hk & Hq)]; [by left|right].
    destruct (decide (k = i)) as [->|]; [|exists k, q; split; [apply HA; by right|done]].
    exists i, (Closing l). split; [apply HA; by left|]. by rewrite (Hi' q Hk) in Hq.
Qed.

Lemma ok_close i r l s rs :
  rs !! i = Some (r, Closing l) ->
  ok (mkFlight s rs) -> ok (mkFlight (close_done l s) (<[i := (r, Served)]> rs)).
Proof.
  intros Hi [Ht Hu Ho Hc Hwt].
  assert (forall j q, at_phase (mkFlight (close_done l s) (<[i := (r, Served)]> rs)) j q <->
    (j = i /\ q = Served) \/ (j <> i /\ at_phase (mkFlight s rs) j q)) as HA
    by (intros; by eapply at_phase_insert).
  assert (at_phase (mkFlight s rs) i (Closing l)) as Hat by (by exists r).
  assert (forall q, at_phase (mkFlight s rs) i q -> q = Closing l) as Hi'.
  { intros q [? E1]. cbn in E1. congruence. }
  split; cbn [sh locks closed nextlock close_done] in *.
  - intros key l'. rewrite Ht. split; intros [j Hj]; exists j.
    + apply HA. right. split; [|done]. intros ->. by apply Hi' in Hj.
    + by apply HA in Hj as [[_ [=]]|[_ Hj]].
  - intros j k q q' l' Hj Hk Hq Hq'. apply HA in Hj as [[-> ->]|[_ Hj]]; [done|].
    apply HA in Hk as [[-> ->]|[_ Hk]]; [done|]. by eapply Hu.
  - intros j q l' Hj Hq. apply HA in Hj as [[-> ->]|[Hji Hj]]; [done|]. destruct (Ho j q l' Hj Hq). split; [|done].
    intros [->%elem_of_singleton|?]%elem_of_union; [|done]. destruct Hji. by apply (Hu _ _ _ _ l Hj Hat).
  - intros l' [->%elem_of_singleton|?]%elem_of_union; [by apply (Ho i (Closing l))|by apply Hc].
  - intros j a key' l' Hj. apply HA in Hj as [[_ [=]]|[_ Hj]].
    destruct (Hwt j a key' l' Hj) as [?|(k & q & Hk & Hq)]; [left; set_solver|].
    destruct (decide (k = i)) as [->|]; [|right; exists k, q; split; [apply HA; by right|done]].
    left. rewrite (Hi' q Hk) in Hq. cbn in Hq. set_solver.
Qed.

Lemma tryServeHit_fills r key w s w' s' hit :
  tryServeHit ParseTime c r key w s = (w', s', hit) -> fills s s'.
Proof.
  unfold tryServeHit. destruct (sGet key (store s)) as [st [[m b]|]]; [destruct (classify _ _ _ _)|];
    intros [= <- <- <-]; done.
Qed.

Lemma acquire_follow key (s : shared (St := St)) l s' : acquire key s = (l, false, s') -> s' = s /\ locks s !! key = Some l.
Proof. unfold acquire. destruct (locks s !! key); [by intros [= -> ->]|done]. Qed.

Lemma step_ok f f' : step f f' -> ok f -> ok f'.
Proof.
  intros [i r p p' s s' rs Hi Hr] Hok. destruct Hr.
  1: eapply ok_lead; [exact Hi|by intros ? []|done|eassumption|exact Hok].
  3: eapply ok_lead; [exact Hi|by intros ? []|done|eassumption|exact Hok].
  4: by apply ok_fill with s.
  4: by apply ok_drop.
  4: by apply ok_close.
  all: try (apply acquire_follow in H0 as [-> H0]); try (apply acquire_follow in H as [-> H]);
    try (apply tryServeHit_fills in H); (eapply ok_quiet; [exact Hi| | | | |exact Hok]); try done; try by intros ? [].
  intros ? ? ? [= <- <- <-]. by apply (ok_table _ Hok).
Qed.

Lemma initial_ok f : initial f -> closed (sh f) = ∅ -> ok f.
Proof.
  intros [Hl Hr] Hc. assert (forall i p, at_phase f i p -> p = Trying 0 \/ p = Refreshing) as Hp.
  { intros i p [r E1]. rewrite Forall_lookup in Hr. by apply Hr in E1. }
  split; rewrite ?Hl, ?Hc.
  - intros key l. rewrite lookup_empty. split; [done|]. intros [i Hi]. by destruct (Hp i _ Hi).
  - intros i j p q l Hi _ Ho. by destruct (Hp i p Hi) as [-> | ->].
  - intros i p l Hi Ho. by destruct (Hp i p Hi) as [-> | ->].
  - set_solver.
  - intros i a key l Hi. by destruct (Hp i _ Hi).
Qed.

(** Requests that reached some state from a cache with no fill in flight. *)
Definition reached (f : flight) : Prop := exists f0, initial f0 /\ closed (sh f0) = ∅ /\ rtc step f0 f.

Lemma reached_ok f : reached f -> ok f.
Proof.
  intros (f0 & Hi & Hc & Hs). pose proof (initial_ok f0 Hi Hc) as H. clear Hi Hc.
  induction Hs as [|x y z Hxy _ IH]; [done|]. apply IH. by eapply step_ok.
Qed.

(** C18: However many requests and background refreshes interleave, at every moment at
    most one of them fills a given variant; a request that closes a lock's channel is
    the only one that ever will, and the channel is still open, so closing never
    panics; and a waiting request's channel is closed or some request is yet to close
    it, so no request waits for a fill that was lost. *)
Theorem flight_single_leader f :
  reached f ->
  (forall i j key l l', at_phase f i (Leading key l) -> at_phase f j (Leading key l') -> i = j) /\
  (forall i l, at_phase f i (Closing l) -> l ∉ closed (sh f)) /\
  (forall i a key l, at_phase f i (Waiting a key l) ->
     l ∈ closed (sh f) \/ (exists j p, at_phase f j p /\ owns p l)).
Proof.
  intros [Ht Hu Ho Hc Hw]%reached_ok. split_and!.
  - intros i j key l l' Hi Hj. assert (locks (sh f) !! key = Some l) as E1 by (apply Ht; by exists i).
    assert (locks (sh f) !! key = Some l') as E2 by (apply Ht; by exists j).
    assert (l' = l) as -> by congruence. by eapply Hu.
  - intros i l Hi. by apply (Ho i (Closing l)).
  - apply Hw.
Qed.

(** ** Every request is answered *)

(** The steps a request has left, apart from those of its own fill. *)
Definition left_of (p : phase) : nat :=
  match p with
  | Served => 0
  | Fetching | Closing _ => 1
  | Leading _ _ => 2
  | Refreshing => 3
  | Trying a => 3 + 3 * (2 - a)
  | Woken a _ => 1 + 3 * (2 - a)
  | Waiting a _ _ => 2 + 3 * (2 - a)
  end.

Definition left_all (f : flight) : nat := sum_list ((fun rp => left_of rp.2) <$> reqs f).

(** A run with [n] steps other than of a fill under way. *)
Inductive runs : nat -> flight -> flight -> Prop :=
  | runs_nil f : runs 0 f f
  | runs_fill n f f' f'' : step f f' -> reqs f' = reqs f -> runs n f' f'' -> runs n f f''
  | runs_step n f f' f'' : step f f' -> reqs f' <> reqs f -> runs n f' f'' -> runs (S n) f f''.

(** Attempts never pass the second. *)
Definition attempts_ok (f : flight) : Prop :=
  forall i p, at_phase f i p -> match p with Trying a => (a <= 2)%nat | Waiting a _ _ | Woken a _ => (a <= 1)%nat | _ => True end.

Lemma rstep_attempts r p s p' s' :
  rstep r p s p' s' ->
  match p with Trying a => (a <= 2)%nat | Waiting a _ _ | Woken a _ => (a <= 1)%nat | _ => True end ->
  match p' with Trying a => (a <= 2)%nat | Waiting a _ _ | Woken a _ => (a <= 1)%nat | _ => True end /\
  (p' = p \/ (left_of p' < left_of p)%nat).
Proof. destruct 1; cbn; intros; (split; [lia || done|]); try (right; lia); by left. Qed.

Lemma sum_insert i (l : list nat) x y :
  l !! i = Some x -> (sum_list (<[i := y]> l) + x = sum_list l + y)%nat.
Proof.
  revert i. induction l as [|z l IH]; intros [|i]; cbn; try done.
  - intros [= ->]. lia.
  - intros H. specialize (IH i H). unfold insert in *. lia.
Qed.

Lemma step_left f f' :
  step f f' -> attempts_ok f -> attempts_ok f' /\ (reqs f' = reqs f \/ (left_all f' < left_all f)%nat).
Proof.
  intros [i r p p' s s' rs Hi Hr] Ha. assert (at_phase (mkFlight s rs) i p) as Hat by (by exists r).
  destruct (rstep_attempts _ _ _ _ _ Hr (Ha i p Hat)) as [Ha' Hl]. split.
  - intros j q Hj. apply (at_phase_insert _ s) with (p := p) in Hj as [[-> ->]|[_ Hj]]; [done|by apply (Ha j)|done].
  - destruct Hl as [-> |Hl]; [left; cbn; by rewrite list_insert_id|right].
    unfold left_all. cbn. rewrite list_fmap_insert.
    pose proof (sum_insert i ((fun rp => left_of rp.2) <$> rs) (left_of p) (left_of p')) as H.
    rewrite list_lookup_fmap, Hi in H. specialize (H eq_refl). cbn in *. lia.
Qed.

Lemma initial_attempts f : initial f -> attempts_ok f.
Proof.
  intros [_ Hr] i p [r E1]. rewrite Forall_lookup in Hr. apply Hr in E1 as [Hp|Hp]; cbn in Hp; subst p; [lia|done].
Qed.

Lemma initial_left f : initial f -> (left_all f <= 9 * length (reqs f))%nat.
Proof.
  intros [_ Hr]. unfold left_all. induction Hr as [|[r p] rs Hp _ IH]; cbn in *; [lia|].
  destruct Hp as [-> | ->]; cbn; lia.
Qed.

Lemma runs_left n f f' : runs n f f' -> attempts_ok f -> attempts_ok f' /\ (left_all f' + n <= left_all f)%nat.
Proof.
  induction 1 as [f|n f f1 f2 Hs He _ IH|n f f1 f2 Hs Hne _ IH]; intros Ha; [by split; [|lia]|..];
    destruct (step_left f f1 Hs Ha) as [Ha1 Hl]; destruct (IH Ha1) as [Ha2 Hle]; (split; [done|]).
  - unfold left_all in *. rewrite He in Hle. done.
  - destruct Hl; [done|lia].
Qed.

(** A request that is not answered has a step of its own. *)
Lemma rstep_progress r p s :
  match p with Trying a => (a <= 2)%nat | Waiting a _ _ | Woken a _ => (a <= 1)%nat | _ => True end ->
  p <> Served -> exists p' s', rstep r p s p' s' /\ p' <> p.
Proof.
  intros Ha Hp. destruct p as [a| |key l|l|a key l|a key| |]; try done.
  - destruct (decide (a = 2%nat)) as [-> |]; [do 2 eexists; by split; [apply R_exhausted|]|].
    destruct (acquire (lookup_key s r) s) as [[l []] s'] eqn:Eq.
    + do 2 eexists. split; [apply R_lead; [lia|exact Eq]|done].
    + do 2 eexists. split; [apply R_follow; [lia|exact Eq]|done].
  - destruct (acquire (lookup_key s r) s) as [[l []] s'] eqn:Eq.
    + do 2 eexists. split; [apply R_refresh, Eq|done].
    + do 2 eexists. split; [eapply R_refreshed, Eq|done].
  - do 2 eexists. split; [apply R_drop|done].
  - do 2 eexists. split; [apply R_close|done].
  - do 2 eexists. split; [apply R_timeout|done].
  - destruct (tryServeHit ParseTime c r (lookup_key s r) (mkW Direct (fresh_client None)) s) as [[w s'] []] eqn:Eq.
    + do 2 eexists. split; [eapply R_hit, Eq|done].
    + assert (w = mkW Direct (fresh_client None)) as ->.
      { revert Eq. unfold tryServeHit. destruct (sGet _ _) as [st [[m b]|]]; [destruct (classify _ _ _ _)|]; by intros [= <- <-]. }
      destruct (decide (lookup_key s' r = key)).
      * do 2 eexists. split; [by eapply R_same|done].
      * do 2 eexists. split; [by eapply R_again|done].
  - do 2 eexists. split; [apply R_fetched|done].
Qed.

(** C19: From a cache with no fill in flight, n requests and refreshes take at most 9n
    steps between them apart from the steps of the fills themselves, whatever the
    interleaving (so each waits at most twice and retries at most once), and at every
    point each unanswered request has a step it can take whatever the others do: all
    of them are answered. *)
Theorem flight_answers n f0 f :
  initial f0 -> runs n f0 f ->
  (n <= 9 * length (reqs f0))%nat /\
  (forall i r p, reqs f !! i = Some (r, p) -> p <> Served ->
     exists p' s', step f (mkFlight s' (<[i := (r, p')]> (reqs f))) /\ p' <> p).
Proof.
  intros Hi Hr. destruct (runs_left n f0 f Hr (initial_attempts f0 Hi)) as [Ha Hle].
  pose proof (initial_left f0 Hi). split; [lia|]. intros i r p Hp Hns.
  destruct (rstep_progress r p (sh f) (Ha i p (ex_intro _ r Hp)) Hns) as (p' & s' & Hs & Hne).
  exists p', s'. split; [|done]. destruct f as [s rs]. by apply Step with p.
Qed.
End Flight.

(** ** Two requests of one variant *)

Import CacheKeysFacts CacheMemory.

Definition demo_flight : flight := mkFlight demo_state [(demo_req "th" "h", Trying 0); (demo_req "th" "h", Trying 0)].
Definition demo_key : string := lookup_key demo_sha demo_state (demo_req "th" "h").
Definition demo_led : shared (St := Memory.MemoryStorage) := (acquire demo_key demo_state).2.
Definition demo_joined : flight :=
  mkFlight (add_waiters 0 1 demo_led) [(demo_req "th" "h", Leading demo_key 0); (demo_req "th" "h", Waiting 0 demo_key 0)].

Lemma demo_leads : step no_date demo_sha demo_cache demo_flight
  (mkFlight demo_led [(demo_req "th" "h", Leading demo_key 0); (demo_req "th" "h", Trying 0)]).
Proof.
  apply (Step no_date demo_sha demo_cache 0 (demo_req "th" "h") (Trying 0) (Leading demo_key 0) demo_state demo_led
    [(demo_req "th" "h", Trying 0); (demo_req "th" "h", Trying 0)]); [done|].
  apply R_lead; [lia|done].
Qed.

Lemma demo_joins : step no_date demo_sha demo_cache
  (mkFlight demo_led [(demo_req "th" "h", Leading demo_key 0); (demo_req "th" "h", Trying 0)]) demo_joined.
Proof.
  apply (Step no_date demo_sha demo_cache 1 (demo_req "th" "h") (Trying 0) (Waiting 0 demo_key 0) demo_led _
    [(demo_req "th" "h", Leading demo_key 0); (demo_req "th" "h", Trying 0)]); [done|].
  change demo_key with (lookup_key demo_sha demo_led (demo_req "th" "h")).
  apply R_follow; [lia|vm_compute; reflexivity].
Qed.

Lemma demo_initial : initial demo_flight.
Proof. split; [done|]. repeat constructor. Qed.

Lemma flight_single_leader_witness :
  at_phase demo_joined 1 (Waiting 0 demo_key 0) /\
  exists j p, at_phase demo_joined j p /\ owns p 0.
Proof.
  split; [by eexists|].
  destruct (flight_single_leader no_date demo_sha demo_cache demo_joined) as (_ & _ & H).
  - exists demo_flight. split; [apply demo_initial|]. split; [done|].
    eapply rtc_l; [apply demo_leads|]. eapply rtc_l; [apply demo_joins|]. apply rtc_refl.
  - destruct (H 1%nat 0%nat demo_key 0%nat) as [Hc|Ho]; [by eexists|by apply not_elem_of_empty in Hc|exact Ho].
Defined.

Lemma flight_answers_witness :
  exists p' s', step no_date demo_sha demo_cache demo_joined (mkFlight s' (<[1%nat := (demo_req "th" "h", p')]> (reqs demo_joined))).
Proof.
  destruct (flight_answers no_date demo_sha demo_cache 2 demo_flight demo_joined demo_initial) as [_ H].
  - eapply runs_step; [apply demo_leads|done|]. eapply runs_step; [apply demo_joins|done|]. apply runs_nil.
  - destruct (H 1%nat (demo_req "th" "h") (Waiting 0 demo_key 0)) as (p' & s' & Hs & _); [done|done|]. by exists p', s'.
Defined.
End CacheFlight.
