(* ===== verification/Purge.v ===== *)
(** * pkg/cache/purge: invalidation

    [src/pkg/cache/purge/purge.go] and [reaper.go].  The table's operations run under
    its mutex, one at a time; the clock's reading is an argument of the ones that stamp
    an epoch, and may step back.  The digest of a URL is the parameter [sha] of
    [CacheKeys]. *)

From Stdlib Require Import Ascii.
From S2P Require Import Prelude GoStrings GoNet Policy Concurrency Lru Memory CacheKeys CacheServe.

Module Purge.

Record PrefixRec := mkRec { rPrefix : string; Epoch : Z }.

Record Table := mk {
  host : gmap string Z;
  url : gmap string Z;
  prefix : gmap string (list PrefixRec);
  tag : gmap string Z;
  global : Z;
  highWater : Z;
  folds : Z;
  maxRecs : Z;
  active : bool;
}.

Definition defaultMaxRecords : Z := Z.shiftl 1 16.

(** [New], with [WithMaxRecords(n)]. *)
Definition New (n : Z) : Table :=
  mk ∅ ∅ ∅ ∅ 0 0 0 (if 0 <? n then n else defaultMaxRecords) false.

Definition normHost (host : string) : string :=
  let h := ToLower host in
  match SplitHostPort h with Some (hh, _) => hh | None => h end.

Definition pathOf (uri : string) : string :=
  match IndexByte "?"%char (chars uri) with Some i => text (take i (chars uri)) | None => uri end.

(** [strings.TrimRight(p, "/")]. *)
Definition normalizePrefix (p : string) : string :=
  text (reverse (trim_left (Ascii.eqb "/"%char) (reverse (chars p)))).

Definition matchPrefix (path pre : string) : bool :=
  if String.eqb pre "" then true else String.eqb path pre || HasPrefix (pre +:+ "/") path.

Section Table.
Context (sha : string -> string).

Definition urlKey (host uri : string) : string := sha (host +:+ CacheKeys.nl +:+ uri).

Definition stamp (now : Z) (t : Table) : Z * Table :=
  let n := if now <? highWater t then highWater t else now in
  (n, mk (host t) (url t) (prefix t) (tag t) (global t) n (folds t) (maxRecs t) true).

Definition prefixCount (t : Table) : Z :=
  foldl (fun n kr => n + Z.of_nat (length (snd kr))) 0 (map_to_list (prefix t)).

Definition enforceCapLocked (t : Table) : Table :=
  let over_url := maxRecs t <? Z.of_nat (size (url t)) in
  let over_host := maxRecs t <? Z.of_nat (size (host t)) in
  let over_prefix := maxRecs t <? prefixCount t in
  let over_tag := maxRecs t <? Z.of_nat (size (tag t)) in
  let folded := over_url || over_host || over_prefix || over_tag in
  mk (if over_host then ∅ else host t) (if over_url then ∅ else url t) (if over_prefix then ∅ else prefix t)
    (if over_tag then ∅ else tag t) (if folded then highWater t else global t) (highWater t)
    (if folded then u64 (folds t + 1) else folds t) (maxRecs t) (active t).

Fixpoint apply_rec (pre : string) (epoch : Z) (recs : list PrefixRec) : list PrefixRec :=
  match recs with
  | [] => [mkRec pre epoch]
  | r :: recs =>
      if String.eqb (rPrefix r) pre
      then (if Epoch r <? epoch then mkRec (rPrefix r) epoch else r) :: recs
      else r :: apply_rec pre epoch recs
  end.

Definition applyPrefixLocked (h pre : string) (epoch : Z) (t : Table) : Table :=
  mk (host t) (url t) (<[h := apply_rec pre epoch (default [] (prefix t !! h))]> (prefix t)) (tag t)
    (global t) (highWater t) (folds t) (maxRecs t) (active t).

Definition FlushAll (now : Z) (t : Table) : Table :=
  let '(n, t) := stamp now t in mk ∅ ∅ ∅ ∅ n (highWater t) (folds t) (maxRecs t) (active t).

Definition PurgeHost (h : string) (now : Z) (t : Table) : Table :=
  let h := normHost h in
  if String.eqb h "" then t
  else
    let '(n, t) := stamp now t in
    enforceCapLocked (mk (<[h := n]> (host t)) (url t) (prefix t) (tag t) (global t) (highWater t) (folds t) (maxRecs t) (active t)).

Definition PurgeURL (h uri : string) (now : Z) (t : Table) : Table :=
  let h := normHost h in
  if String.eqb h "" then t
  else
    let '(n, t) := stamp now t in
    enforceCapLocked (mk (host t) (<[urlKey h uri := n]> (url t)) (prefix t) (tag t) (global t) (highWater t) (folds t) (maxRecs t) (active t)).

Definition PurgePrefix (h pre : string) (now : Z) (t : Table) : Table :=
  let h := normHost h in
  if String.eqb h "" then t
  else let '(n, t) := stamp now t in enforceCapLocked (applyPrefixLocked h (normalizePrefix pre) n t).

Definition PurgeTag (tg : string) (now : Z) (t : Table) : Table :=
  if String.eqb tg "" then t
  else
    let '(n, t) := stamp now t in
    enforceCapLocked (mk (host t) (url t) (prefix t) (<[tg := n]> (tag t)) (global t) (highWater t) (folds t) (maxRecs t) (active t)).

Definition epochFor (t : Table) (h uri : string) (tags : list string) : Z :=
  if negb (active t) then 0
  else
    let uk := urlKey h uri in
    let path := pathOf uri in
    let e := global t in
    let v := default 0 (host t !! h) in
    let e := if e <? v then v else e in
    let v := default 0 (url t !! uk) in
    let e := if e <? v then v else e in
    let e := foldl (fun e p => if (e <? Epoch p) && matchPrefix path (rPrefix p) then Epoch p else e) e
               (default [] (prefix t !! h)) in
    foldl (fun e tg => let v := default 0 (tag t !! tg) in if e <? v then v else e) e tags.

Definition InvalidatedAfter (t : Table) (r : CacheKeys.Request) (m : Meta) : Z :=
  epochFor t (normHost (CacheKeys.Host r)) (CacheKeys.RequestURI r) (Tags m).

Definition InvalidatedAfterMeta (t : Table) (m : Meta) : Z :=
  epochFor t (normHost (Memory.Host m)) (URI m) (Tags m).

Record Snapshot := mkSnap {
  sHost : gmap string Z;
  sURL : gmap string Z;
  sPrefix : gmap string (list PrefixRec);
  sTag : gmap string Z;
  sGlobal : Z;
}.

Definition TakeSnapshot (t : Table) : Snapshot := mkSnap (host t) (url t) (prefix t) (tag t) (global t).

Definition max_of (hw : Z) (vs : list Z) : Z := foldl (fun hw v => if hw <? v then v else hw) hw vs.

Definition Restore (s : Snapshot) (t : Table) : Table :=
  let hw := sGlobal s in
  let hw := max_of hw (map_to_list (sHost s)).*2 in
  let hw := max_of hw (map_to_list (sURL s)).*2 in
  let hw := max_of hw (mbind (fun kr => Epoch <$> snd kr) (map_to_list (sPrefix s))) in
  let hw := max_of hw (map_to_list (sTag s)).*2 in
  mk (sHost s) (sURL s) (sPrefix s) (sTag s) (sGlobal s) hw (folds t) (maxRecs t) (active t || (0 <? hw)).

Record StatsRec := mkStats { stGlobal : Z; HostRecs : Z; URLRecs : Z; PrefixRecs : Z; TagRecs : Z; Folds : Z }.
Definition Stats (t : Table) : StatsRec :=
  mkStats (global t) (Z.of_nat (size (host t))) (Z.of_nat (size (url t))) (prefixCount t) (Z.of_nat (size (tag t))) (folds t).

Open Scope go_scope.

(** [Reap] over the in-memory backend: its [Range] takes a snapshot and calls back for
    each entry; [n] is the captured count. *)
Fixpoint reap_loop (t : Table) (snap : list (string * Memory.memEntry)) (n : Z) : prog Memory.MemoryStorage Z :=
  match snap with
  | [] => Ret n
  | (key, e) :: snap =>
      if Created (Memory.meta e) <=? InvalidatedAfterMeta t (Memory.meta e)
      then Memory.Delete key ;; reap_loop t snap (n + 1)
      else reap_loop t snap n
  end.

Definition Reap (t : Table) : prog Memory.MemoryStorage Z :=
  if negb (active t) then Ret 0
  else snap <- load (fun s => map_to_list (Memory.m s)) ;; reap_loop t snap 0.

End Table.
End Purge.

Module PurgeFacts.
Import Purge.

Section Facts.
Context (sha : string -> string).

Local Abbreviation epoch t q := (epochFor sha t q.1.1 q.1.2 q.2).

(** What is asked of the table: a normalized host, a request-uri and tags. *)
Definition query : Type := string * string * list string.

(** ** An epoch is a least upper bound *)

Lemma foldl_prefix path recs e x :
  foldl (fun e p => if (e <? Epoch p) && matchPrefix path (rPrefix p) then Epoch p else e) e recs <= x <->
  e <= x /\ (forall p, p ∈ recs -> matchPrefix path (rPrefix p) = true -> Epoch p <= x).
Proof.
  revert e. induction recs as [|p recs IH]; intros e; cbn [foldl].
  - split; [intros; split; [done|]; intros p Hp; by apply not_elem_of_nil in Hp|tauto].
  - rewrite IH. clear IH. split.
    + intros [He Hr]. destruct (e <? Epoch p) eqn:E1, (matchPrefix path (rPrefix p)) eqn:E2; cbn in He; bool_prop;
        (split; [lia|]); intros p' [->|Hp]%elem_of_cons Hm; try (by apply Hr); try lia; congruence.
    + intros [He Hr]. split; [|intros p' Hp'; apply Hr; by right].
      destruct (e <? Epoch p), (matchPrefix path (rPrefix p)) eqn:E2; cbn; try done. apply Hr; [left|done].
Qed.

Lemma foldl_tags (T : gmap string Z) tags e x :
  foldl (fun e tg => let v := default 0 (T !! tg) in if e <? v then v else e) e tags <= x <->
  e <= x /\ (forall tg, tg ∈ tags -> default 0 (T !! tg) <= x).
Proof.
  revert e. induction tags as [|tg tags IH]; intros e; cbn [foldl].
  - split; [intros; split; [done|]; intros p Hp; by apply not_elem_of_nil in Hp|tauto].
  - rewrite IH. clear IH. cbv zeta. split.
    + intros [He Hr]. destruct (e <? _) eqn:E1; bool_prop; (split; [lia|]);
        intros tg' [->|Hp]%elem_of_cons; try (by apply Hr); lia.
    + intros [He Hr]. split; [|intros p' Hp'; apply Hr; by right].
      destruct (e <? _); [apply Hr; left|done].
Qed.

(** Every epoch that applies to a query is at most [x]. *)
Record below (t : Table) (q : query) (x : Z) : Prop := {
  b_global : global t <= x;
  b_host : default 0 (host t !! q.1.1) <= x;
  b_url : default 0 (url t !! urlKey sha q.1.1 q.1.2) <= x;
  b_prefix p : p ∈ default [] (prefix t !! q.1.1) -> matchPrefix (pathOf q.1.2) (rPrefix p) = true -> Epoch p <= x;
  b_tag tg : tg ∈ q.2 -> default 0 (tag t !! tg) <= x;
}.

Lemma epoch_lub t (q : query) x : active t = true -> epoch t q <= x <-> below t q x.
Proof.
  intros Ha. unfold epochFor. rewrite Ha. cbv zeta. cbn [negb]. rewrite foldl_tags, foldl_prefix. split.
  - intros [[He Hp] Ht]. split; try done; destruct (global t <? _) eqn:E1; bool_prop; destruct (_ <? default 0 (url t !! _)) eqn:E2; bool_prop; lia.
  - intros [H1 H2 H3 H4 H5]. split; [|done]. split; [|done]. destruct (global t <? _); destruct (_ <? default 0 (url t !! _)); lia.
Qed.

Lemma below_self t (q : query) : active t = true -> below t q (epoch t q).
Proof. intros Ha. by apply epoch_lub. Qed.

(** ** Purges *)

Inductive purge := PAll | PHost (h : string) | PURL (h uri : string) | PPrefix (h pre : string) | PTag (tg : string).

Definition apply (p : purge) (now : Z) (t : Table) : Table :=
  match p with
  | PAll => FlushAll now t
  | PHost h => PurgeHost h now t
  | PURL h uri => PurgeURL sha h uri now t
  | PPrefix h pre => PurgePrefix h pre now t
  | PTag tg => PurgeTag tg now t
  end.

(** A purge without a host, or without a tag, does nothing. *)
Definition void (p : purge) : bool :=
  match p with
  | PAll => false
  | PHost h | PURL h _ | PPrefix h _ => String.eqb (normHost h) ""
  | PTag tg => String.eqb tg ""
  end.

(** What a purge invalidates. *)
Definition covers (p : purge) (q : query) : Prop :=
  match p with
  | PAll => True
  | PHost h => normHost h = q.1.1
  | PURL h uri => urlKey sha (normHost h) uri = urlKey sha q.1.1 q.1.2
  | PPrefix h pre => normHost h = q.1.1 /\ matchPrefix (pathOf q.1.2) (normalizePrefix pre) = true
  | PTag tg => tg ∈ q.2
  end.

(** Everything recorded is at most the high-water mark; an idle table is empty. *)
Record inv (t : Table) : Prop := {
  i_global : 0 <= global t <= highWater t;
  i_host k v : host t !! k = Some v -> v <= highWater t;
  i_url k v : url t !! k = Some v -> v <= highWater t;
  i_prefix k recs p : prefix t !! k = Some recs -> p ∈ recs -> Epoch p <= highWater t;
  i_tag k v : tag t !! k = Some v -> v <= highWater t;
  i_idle : active t = false -> host t = ∅ /\ url t = ∅ /\ prefix t = ∅ /\ tag t = ∅ /\ global t = 0 /\ highWater t = 0;
}.

Lemma epoch_bounds t (q : query) : inv t -> 0 <= epoch t q <= highWater t.
Proof.
  intros [I1 I2 I3 I4 I5 I6]. destruct (active t) eqn:Ea.
  - split.
    + pose proof (b_global _ _ _ (below_self t q Ea)). lia.
    + apply epoch_lub; [done|]. split; try lia.
      * destruct (host t !! _) eqn:E; cbn; [by eapply I2|lia].
      * destruct (url t !! _) eqn:E; cbn; [by eapply I3|lia].
      * intros p Hp _. destruct (prefix t !! _) eqn:E; cbn in Hp; [by eapply I4|by apply not_elem_of_nil in Hp].
      * intros tg _. destruct (tag t !! tg) eqn:E; cbn; [by eapply I5|lia].
  - unfold epochFor. rewrite Ea. cbn. lia.
Qed.

(** The table as a purge leaves it before its size is checked. *)
Definition stamped (p : purge) (now : Z) (t : Table) : Table :=
  let '(n, t) := stamp now t in
  match p with
  | PAll => mk ∅ ∅ ∅ ∅ n (highWater t) (folds t) (maxRecs t) (active t)
  | PHost h => mk (<[normHost h := n]> (host t)) (url t) (prefix t) (tag t) (global t) (highWater t) (folds t) (maxRecs t) (active t)
  | PURL h uri => mk (host t) (<[urlKey sha (normHost h) uri := n]> (url t)) (prefix t) (tag t) (global t) (highWater t) (folds t) (maxRecs t) (active t)
  | PPrefix h pre => applyPrefixLocked (normHost h) (normalizePrefix pre) n t
  | PTag tg => mk (host t) (url t) (prefix t) (<[tg := n]> (tag t)) (global t) (highWater t) (folds t) (maxRecs t) (active t)
  end.

Lemma apply_stamped p now t :
  apply p now t = if void p then t else match p with PAll => stamped p now t | _ => enforceCapLocked (stamped p now t) end.
Proof.
  destruct p as [|h|h uri|h pre|tg]; cbn; try done;
    unfold PurgeHost, PurgeURL, PurgePrefix, PurgeTag; cbv zeta; destruct (String.eqb _ ""); done.
Qed.

(** A stamp's epoch: the clock, never before an earlier one. *)
Definition stamp_at (now : Z) (t : Table) : Z := Z.max now (highWater t).

Lemma stamp_eq now t :
  stamp now t = (stamp_at now t, mk (host t) (url t) (prefix t) (tag t) (global t) (stamp_at now t) (folds t) (maxRecs t) true).
Proof.
  unfold stamp, stamp_at. destruct (now <? highWater t) eqn:E; bool_prop;
    [rewrite Z.max_r by lia|rewrite Z.max_l by lia]; done.
Qed.

Lemma epoch_below t (q : query) x : inv t -> 0 <= x -> epoch t q <= x <-> below t q x.
Proof.
  intros HI Hx. destruct (active t) eqn:Ea; [by apply epoch_lub|].
  destruct (i_idle t HI Ea) as (E1 & E2 & E3 & E4 & E5 & _). split.
  - intros _. split; rewrite ?E1, ?E2, ?E3, ?E4, ?E5, ?lookup_empty; cbn; try lia.
    + intros p Hp. by apply not_elem_of_nil in Hp.
    + intros tg _. by rewrite lookup_empty.
  - intros _. unfold epochFor. rewrite Ea. done.
Qed.

Lemma apply_rec_elem pre n recs p : p ∈ apply_rec pre n recs -> p ∈ recs \/ p = mkRec pre n.
Proof.
  induction recs as [|r recs IH]; cbn; [intros ->%list_elem_of_singleton; by right|].
  destruct (String.eqb_spec (rPrefix r) pre) as [E|E].
  - intros [->|Hp]%elem_of_cons; [|left; by right]. destruct (Epoch r <? n); [right; by rewrite E|left; left].
  - intros [->|Hp]%elem_of_cons; [left; left|]. destruct (IH Hp); [left; by right|by right].
Qed.

Lemma apply_rec_latest pre n recs :
  (forall p, p ∈ recs -> Epoch p <= n) ->
  exists p, p ∈ apply_rec pre n recs /\ rPrefix p = pre /\ n <= Epoch p.
Proof.
  intros Hn. induction recs as [|r recs IH]; cbn; [exists (mkRec pre n); split; [left|done]|].
  destruct (String.eqb_spec (rPrefix r) pre) as [E|E].
  - eexists. split; [left|]. destruct (Epoch r <? n) eqn:En; bool_prop; cbn; split; try done; lia.
  - destruct IH as (p & ? & ?); [intros p Hp; apply Hn; by right|]. exists p. split; [by right|done].
Qed.

(** A stamp at least as late as the records of a host. *)
Lemma apply_rec_bound path pre n recs x :
  (forall p, p ∈ recs -> Epoch p <= n) ->
  (forall p, p ∈ apply_rec pre n recs -> matchPrefix path (rPrefix p) = true -> Epoch p <= x) <->
  (forall p, p ∈ recs -> matchPrefix path (rPrefix p) = true -> Epoch p <= x) /\
  (matchPrefix path pre = true -> n <= x).
Proof.
  intros Hn. split.
  - intros H. assert (forall p, p ∈ recs -> exists p', p' ∈ apply_rec pre n recs /\ rPrefix p' = rPrefix p /\ Epoch p <= Epoch p') as H1.
    { clear H. induction recs as [|r recs IH]; [intros p Hp; by apply not_elem_of_nil in Hp|]. cbn.
      assert (forall p, p ∈ recs -> Epoch p <= n) as Hn' by (intros p Hp; apply Hn; by right). specialize (IH Hn').
      destruct (String.eqb_spec (rPrefix r) pre) as [E|E]; intros p [->|Hp]%elem_of_cons.
      - eexists. split; [left|]. destruct (Epoch r <? n) eqn:En; bool_prop; cbn; split; try done; lia.
      - exists p. split; [by right|done].
      - exists r. split; [left|done].
      - destruct (IH p Hp) as (p' & ? & ?). exists p'. split; [by right|done]. }
    split.
    + intros p Hp Hm. destruct (H1 p Hp) as (p' & Hp' & E & Hle). rewrite <- E in Hm. specialize (H p' Hp' Hm). lia.
    + intros Hm. destruct (apply_rec_latest pre n recs Hn) as (p & Hp & E & Hle).
      rewrite <- E in Hm. specialize (H p Hp Hm). lia.
  - intros [H1 H2] p Hp Hm. destruct (apply_rec_elem _ _ _ _ Hp) as [Hr| ->]; [by apply H1|by apply H2].
Qed.

(** Inserting the latest epoch under a key. *)
Lemma insert_bound (M : gmap string Z) k n k' x :
  (forall k v, M !! k = Some v -> v <= n) -> 0 <= n ->
  default 0 (<[k := n]> M !! k') <= x <-> default 0 (M !! k') <= x /\ (k = k' -> n <= x).
Proof.
  intros HM Hn. destruct (decide (k = k')) as [->|Hk].
  - rewrite lookup_insert_eq. cbn. split; [intros H|intros [_ H]; by apply H].
    split; [|done]. destruct (M !! k') eqn:E; cbn; [apply HM in E; lia|lia].
  - rewrite lookup_insert_ne by done. split; [done|by intros [? _]].
Qed.

Lemma stamped_lub p now t (q : query) x :
  inv t -> void p = false -> 0 <= x ->
  epoch (stamped p now t) q <= x <-> epoch t q <= x /\ (covers p q -> stamp_at now t <= x).
Proof.
  intros HI Hv Hx. pose proof HI as [I1 I2 I3 I4 I5 I6]. assert (highWater t <= stamp_at now t) as Hw by (unfold stamp_at; lia).
  rewrite (epoch_below t q x HI Hx). set (n := stamp_at now t) in *.
  assert (active (stamped p now t) = true) as Ha by (unfold stamped; rewrite stamp_eq; by destruct p).
  rewrite epoch_lub by done. unfold stamped. rewrite stamp_eq. fold n. destruct p as [|h|h uri|h pre|tg]; cbn [covers].
  - split.
    + intros [H1 _ _ _ _]. cbn in H1. split; [|done]. apply (epoch_below t q x HI Hx).
      pose proof (epoch_bounds t q HI). lia.
    + intros [_ H]. split; cbn; try rewrite lookup_empty; cbn; [by apply H|done|done| |].
      * intros p Hp. by apply not_elem_of_nil in Hp.
      * intros tg _. by rewrite lookup_empty.
  - split.
    + intros [H1 H2 H3 H4 H5]; cbn in *. apply insert_bound in H2 as [H2 H6]; [|intros k v Hk; apply I2 in Hk; lia|lia]. by split.
    + intros [[H1 H2 H3 H4 H5] H6]. split; cbn; try done. apply insert_bound; [intros k v Hk; apply I2 in Hk; lia|lia|done].
  - split.
    + intros [H1 H2 H3 H4 H5]; cbn in *. apply insert_bound in H3 as [H3 H6]; [|intros k v Hk; apply I3 in Hk; lia|lia]. by split.
    + intros [[H1 H2 H3 H4 H5] H6]. split; cbn; try done. apply insert_bound; [intros k v Hk; apply I3 in Hk; lia|lia|done].
  - assert (forall p, p ∈ default [] (prefix t !! normHost h) -> Epoch p <= n) as Hr.
    { intros p Hp. destruct (prefix t !! normHost h) as [recs|] eqn:E; cbn in Hp; [|by apply not_elem_of_nil in Hp].
      pose proof (I4 _ _ _ E Hp). lia. }
    split.
    + intros [H1 H2 H3 H4 H5]; cbn in *. destruct (decide (normHost h = q.1.1)) as [E|E].
      * rewrite E, lookup_insert_eq in H4. cbn in H4. rewrite E in Hr. apply apply_rec_bound in H4 as [H4 H6]; [|done].
        split; [by split|]. intros [_ Hm]. by apply H6.
      * rewrite lookup_insert_ne in H4 by done. split; [by split|]. by intros [? _].
    + intros [[H1 H2 H3 H4 H5] H6]. split; cbn; try done. destruct (decide (normHost h = q.1.1)) as [E|E].
      * rewrite E, lookup_insert_eq. cbn. rewrite E in Hr. apply apply_rec_bound; [done|]. split; [done|]. intros Hm. by apply H6.
      * by rewrite lookup_insert_ne.
  - split.
    + intros [H1 H2 H3 H4 H5]; cbn in *. split.
      * split; try done. intros tg' Ht. specialize (H5 tg' Ht). by apply insert_bound in H5 as [H5 _]; [|intros k v Hk; apply I5 in Hk; lia|lia].
      * intros Ht. specialize (H5 tg Ht). apply insert_bound in H5 as [_ H6]; [by apply H6|intros k v Hk; apply I5 in Hk; lia|lia].
    + intros [[H1 H2 H3 H4 H5] H6]. split; cbn; try done. intros tg' Ht.
      apply insert_bound; [intros k v Hk; apply I5 in Hk; lia|lia|]. split; [by apply H5|]. intros <-. by apply H6.
Qed.

Lemma inv_stamped p now t : inv t -> inv (stamped p now t).
Proof.
  intros [I1 I2 I3 I4 I5 I6]. assert (highWater t <= stamp_at now t) as Hw by (unfold stamp_at; lia).
  assert (forall (M : gmap string Z) k0 k v, (forall k v, M !! k = Some v -> v <= highWater t) ->
    <[k0 := stamp_at now t]> M !! k = Some v -> v <= stamp_at now t) as Hins.
  { intros M k0 k v HM [[_ <-]|[_ Hk]]%lookup_insert_Some; [lia|]. apply HM in Hk. lia. }
  assert (forall (M : gmap string Z) k v, (forall k v, M !! k = Some v -> v <= highWater t) ->
    M !! k = Some v -> v <= stamp_at now t) as Hold by (intros M k v HM Hk; apply HM in Hk; lia).
  assert (forall k recs p, prefix t !! k = Some recs -> p ∈ recs -> Epoch p <= stamp_at now t) as Hpre
    by (intros k recs r Hk Hr; pose proof (I4 _ _ _ Hk Hr); lia).
  unfold stamped. rewrite stamp_eq. destruct p as [|h|h uri|h pre|tg]; split; cbn; try done; try lia; eauto.
  intros k recs r [[_ <-]|[_ Hk]]%lookup_insert_Some Hr; [|by eapply Hpre].
  apply apply_rec_elem in Hr as [Hr| ->]; [|done].
  destruct (prefix t !! normHost h) as [rs|] eqn:E; cbn in Hr; [by eapply Hpre|by apply not_elem_of_nil in Hr].
Qed.

Lemma cap_cases t :
  let t' := enforceCapLocked t in
  highWater t' = highWater t /\ active t' = active t /\ maxRecs t' = maxRecs t /\
  (t' = t \/
   global t' = highWater t /\ folds t' = u64 (folds t + 1) /\
   (host t' = host t \/ host t' = ∅) /\ (url t' = url t \/ url t' = ∅) /\
   (prefix t' = prefix t \/ prefix t' = ∅) /\ (tag t' = tag t \/ tag t' = ∅)).
Proof.
  unfold enforceCapLocked. cbv zeta. split_and!; try done.
  destruct (_ <? Z.of_nat (size (url t))), (_ <? Z.of_nat (size (host t))), (_ <? prefixCount t), (_ <? Z.of_nat (size (tag t)));
    cbn; try (right; split_and!; auto; done). left. by destruct t.
Qed.

Lemma inv_cap t : inv t -> inv (enforceCapLocked t).
Proof.
  intros HI. destruct (cap_cases t) as (E1 & E2 & E3 & [-> |(E4 & E5 & Eh & Eu & Ep & Et)]); [done|].
  pose proof HI as [I1 I2 I3 I4 I5 I6]. split; rewrite ?E1, ?E4; try lia.
  - destruct Eh as [-> | ->]; [done|by intros k v]; intros k v; by rewrite lookup_empty.
  - destruct Eu as [-> | ->]; [done|by intros k v].
  - destruct Ep as [-> | ->]; [done|by intros k recs r].
  - destruct Et as [-> | ->]; [done|by intros k v].
  - rewrite E2. intros Ha. destruct (I6 Ha) as (H1 & H2 & H3 & H4 & H5 & H6). rewrite H6.
    destruct Eh as [-> | ->], Eu as [-> | ->], Ep as [-> | ->], Et as [-> | ->]; done.
Qed.

(** Folding only raises epochs. *)
Lemma epoch_cap t (q : query) : inv t -> active t = true -> epoch t q <= epoch (enforceCapLocked t) q.
Proof.
  intros HI Ha. destruct (cap_cases t) as (E1 & E2 & _ & [-> |(E4 & _)]); [done|].
  assert (active (enforceCapLocked t) = true) as Ha' by (by rewrite E2).
  pose proof (b_global _ _ _ (below_self (enforceCapLocked t) q Ha')). pose proof (epoch_bounds t q HI). lia.
Qed.

Lemma inv_apply p now t : inv t -> inv (apply p now t).
Proof.
  intros HI. rewrite apply_stamped. destruct (void p); [done|]. pose proof (inv_stamped p now t HI).
  destruct p; try done; by apply inv_cap.
Qed.

Lemma inv_New n : inv (New n).
Proof. split; cbn; try done; intros k; try intros v; by rewrite lookup_empty. Qed.

(** ** A history of purges *)

Definition run (ops : list (purge * Z)) (t : Table) : Table := foldl (fun t o => apply o.1 o.2 t) t ops.

(** The purges issued and their epochs: each takes the clock, or the latest epoch
    before it when the clock has stepped back. *)
Fixpoint history (hw : Z) (ops : list (purge * Z)) : list (purge * Z) :=
  match ops with
  | [] => []
  | (p, now) :: ops =>
      if void p then history hw ops else (p, Z.max now hw) :: history (Z.max now hw) ops
  end.

(** No purge of [H] is lost and, while nothing was folded, nothing else is invalid. *)
Record refines (t : Table) (H : list (purge * Z)) : Prop := {
  r_covers q p e : (p, e) ∈ H -> covers p q -> e <= epoch t q;
  r_exact q x : folds t = 0 -> 0 <= x -> (forall p e, (p, e) ∈ H -> covers p q -> e <= x) -> epoch t q <= x;
}.

Lemma refines_stamped p now t H :
  inv t -> void p = false -> refines t H -> refines (stamped p now t) (H ++ [(p, stamp_at now t)]).
Proof.
  intros HI Hv [R1 R2]. pose proof (inv_stamped p now t HI) as HI'. split.
  - intros q p' e Hin Hc. pose proof (epoch_bounds (stamped p now t) q HI') as [H0 _].
    destruct (proj1 (stamped_lub p now t q _ HI Hv H0) (Z.le_refl _)) as [L1 L2].
    apply elem_of_app in Hin as [Hin|Hin]; [pose proof (R1 q p' e Hin Hc); lia|].
    apply list_elem_of_singleton in Hin. injection Hin as -> ->. by apply L2.
  - intros q x Hf Hx Hall. apply stamped_lub; [done..|]. split.
    + apply R2; [|done|].
      * revert Hf. unfold stamped. rewrite stamp_eq. by destruct p.
      * intros p' e Hin. apply Hall. set_solver.
    + intros Hc. apply (Hall p); [set_solver|done].
Qed.

Lemma refines_cap t H :
  inv t -> active t = true -> 0 <= folds t < 2 ^ 64 - 1 -> refines t H -> refines (enforceCapLocked t) H.
Proof.
  intros HI Ha Hf [R1 R2]. split.
  - intros q p e Hin Hc. pose proof (R1 q p e Hin Hc). pose proof (epoch_cap t q HI Ha). lia.
  - destruct (cap_cases t) as (_ & _ & _ & [-> |(_ & E5 & _)]); [done|].
    intros q x Hf0. rewrite E5, u64_small in Hf0; lia.
Qed.

Lemma stamped_fields p now t :
  active (stamped p now t) = true /\ highWater (stamped p now t) = stamp_at now t /\
  folds (stamped p now t) = folds t /\ maxRecs (stamped p now t) = maxRecs t.
Proof. unfold stamped. rewrite stamp_eq. by destruct p. Qed.

Lemma apply_refines p now t H :
  inv t -> 0 <= folds t < 2 ^ 64 - 1 -> refines t H ->
  refines (apply p now t) (if void p then H else H ++ [(p, stamp_at now t)]) /\
  folds t <= folds (apply p now t) <= folds t + 1 /\
  highWater (apply p now t) = (if void p then highWater t else stamp_at now t).
Proof.
  intros HI Hf HR. rewrite apply_stamped. destruct (void p) eqn:Hv; [split; [done|]; split; [lia|done]|].
  pose proof (refines_stamped p now t H HI Hv HR) as HS. destruct (stamped_fields p now t) as (Ea & Eh & Ef & _).
  pose proof (inv_stamped p now t HI) as HI'.
  assert (refines (enforceCapLocked (stamped p now t)) (H ++ [(p, stamp_at now t)]) /\
    folds t <= folds (enforceCapLocked (stamped p now t)) <= folds t + 1 /\
    highWater (enforceCapLocked (stamped p now t)) = stamp_at now t) as HC.
  { split; [by apply refines_cap; [..|lia|]|].
    destruct (cap_cases (stamped p now t)) as (E1 & _ & _ & HE). rewrite E1. split; [|done].
    destruct HE as [-> |(_ & E5 & _)]; [lia|]. rewrite E5, u64_small; lia. }
  destruct p; try done. split; [done|]. split; [lia|done].
Qed.

Lemma run_refines ops t H :
  inv t -> 0 <= folds t -> folds t + Z.of_nat (length ops) < 2 ^ 64 -> refines t H ->
  inv (run ops t) /\ refines (run ops t) (H ++ history (highWater t) ops).
Proof.
  revert t H. induction ops as [|[p now] ops IH]; intros t H HI Hf Hl HR; [by rewrite app_nil_r|].
  cbn [length] in Hl. destruct (apply_refines p now t H HI ltac:(lia) HR) as (HR' & Hf' & Hh).
  cbn [run foldl fst snd history]. pose proof (inv_apply p now t HI) as HI'.
  specialize (IH (apply p now t) _ HI' ltac:(lia) ltac:(lia) HR'). unfold run in IH. rewrite Hh in IH.
  destruct (void p); [done|]. rewrite <- app_assoc in IH. done.
Qed.

Lemma New_refines n : refines (New n) [].
Proof. split; [intros q p e Hin; by apply not_elem_of_nil in Hin|]. intros q x _ Hx _. done. Qed.

(** C11: The table after any purges, with any clock readings, is the history of those
    purges: the epoch it reports for an entry is at least that of every purge covering
    it (a clock that steps back, a refreshed record or a folded map never un-purges),
    and while no map was folded it is exactly the latest of them, so nothing else is
    invalidated. *)
Theorem purge_refines_history n ops (q : query) :
  Z.of_nat (length ops) < 2 ^ 64 ->
  let t := run ops (New n) in
  (forall p e, (p, e) ∈ history 0 ops -> covers p q -> e <= epoch t q) /\
  (folds t = 0 -> forall x, 0 <= x -> (forall p e, (p, e) ∈ history 0 ops -> covers p q -> e <= x) -> epoch t q <= x).
Proof.
  intros Hl. destruct (run_refines ops (New n) [] (inv_New n) ltac:(done) ltac:(cbn; lia) (New_refines n)) as [_ [R1 R2]].
  split; [apply R1|]. intros Hf x. by apply R2.
Qed.

Lemma epoch_apply p now t (q : query) :
  inv t -> epoch t q <= epoch (apply p now t) q /\
  (void p = false -> covers p q -> stamp_at now t <= epoch (apply p now t) q).
Proof.
  intros HI. rewrite apply_stamped. destruct (void p) eqn:Hv; [done|].
  pose proof (inv_stamped p now t HI) as HI'. pose proof (epoch_bounds _ q HI') as [H0 _].
  destruct (proj1 (stamped_lub p now t q _ HI Hv H0) (Z.le_refl _)) as [L1 L2].
  pose proof (epoch_cap _ q HI' (proj1 (stamped_fields p now t))).
  assert (epoch t q <= epoch (enforceCapLocked (stamped p now t)) q /\
    (covers p q -> stamp_at now t <= epoch (enforceCapLocked (stamped p now t)) q)) as HC.
  { split; [lia|]. intros Hc. specialize (L2 Hc). lia. }
  destruct p; try (split; [apply HC|]; intros _; apply HC). split; [done|]. by intros _.
Qed.

Lemma run_inv ops t : inv t -> inv (run ops t).
Proof. revert t. induction ops as [|[p now] ops IH]; intros t HI; [done|]. cbn. by apply IH, inv_apply. Qed.

Lemma run_mono ops t (q : query) : inv t -> epoch t q <= epoch (run ops t) q.
Proof.
  revert t. induction ops as [|[p now] ops IH]; intros t HI; [done|]. cbn [run foldl fst snd].
  pose proof (proj1 (epoch_apply p now t q HI)). pose proof (IH _ (inv_apply p now t HI)). unfold run in *. lia.
Qed.

(** C12: Under the table's hook the cache never serves a purged entry: whatever purges
    came before and after, an entry stored no later than a purge that covers its host,
    URL, path or tags is expired at every later lookup, whatever its freshness and
    stale windows. *)
Theorem purge_never_served n before p now after c r m later :
  void p = false -> covers p (normHost (CacheKeys.Host r), CacheKeys.RequestURI r, Tags m) -> Created m <= now ->
  let t := run (before ++ (p, now) :: after) (New n) in
  CacheServe.invalidatedAfter c = Some (fun r m => InvalidatedAfter sha t r m) ->
  CacheServe.classify c m r later = CacheServe.stateExpired.
Proof.
  intros Hv Hc Hm t Hi.
  assert (Created m <= InvalidatedAfter sha t r m) as Hle.
  { pose proof (run_inv before _ (inv_New n)) as HI. set (q := (normHost (CacheKeys.Host r), CacheKeys.RequestURI r, Tags m)) in *.
    destruct (epoch_apply p now (run before (New n)) q HI) as [_ H].
    specialize (H Hv Hc). pose proof (run_mono after (apply p now (run before (New n))) q
      (inv_apply p now _ HI)) as HM.
    assert (t = run after (apply p now (run before (New n)))) as Et by (unfold t, run; by rewrite foldl_app).
    unfold InvalidatedAfter. rewrite Et. cbn in *. unfold stamp_at in H. lia. }
  unfold CacheServe.classify. cbv zeta. rewrite Hi. apply Z.leb_le in Hle. rewrite Hle.
  destruct (negb _); [done|]. destruct (_ && _); [done|]. by destruct (_ && _).
Qed.

(** ** Size *)

Definition within (t : Table) : Prop :=
  Z.of_nat (size (host t)) <= maxRecs t /\ Z.of_nat (size (url t)) <= maxRecs t /\
  prefixCount t <= maxRecs t /\ Z.of_nat (size (tag t)) <= maxRecs t.

Lemma within_empty t : 0 <= maxRecs t -> host t = ∅ -> url t = ∅ -> prefix t = ∅ -> tag t = ∅ -> within t.
Proof.
  intros Hm E1 E2 E3 E4. unfold within, prefixCount. rewrite E1, E2, E3, E4, !map_size_empty, map_to_list_empty. done.
Qed.

Lemma within_cap t : 0 <= maxRecs t -> within (enforceCapLocked t).
Proof.
  intros Hm. unfold within, enforceCapLocked, prefixCount. cbn.
  destruct (maxRecs t <? Z.of_nat (size (host t))) eqn:E1, (maxRecs t <? Z.of_nat (size (url t))) eqn:E2,
    (maxRecs t <? foldl _ _ _) eqn:E3, (maxRecs t <? Z.of_nat (size (tag t))) eqn:E4; bool_prop;
    rewrite ?map_size_empty, ?map_to_list_empty; cbn; split_and!; lia.
Qed.

(** After any purges every scope of the table holds at most the configured number
    of records, counting each prefix of each host. *)
Theorem purge_bounded n ops : within (run ops (New n)).
Proof.
  assert (0 <= maxRecs (New n) /\ within (New n)) as H.
  { assert (0 <= maxRecs (New n)) by (cbn; destruct (0 <? n) eqn:E; bool_prop; [lia|done]).
    split; [done|]. by apply within_empty. }
  revert H. generalize (New n). induction ops as [|[p now] ops IH]; intros t [Hm Hw]; [done|].
  cbn. apply IH. rewrite apply_stamped. destruct (void p); [done|].
  destruct (stamped_fields p now t) as (_ & _ & _ & Em).
  assert (0 <= maxRecs (enforceCapLocked (stamped p now t)) /\ within (enforceCapLocked (stamped p now t))) as HC.
  { split; [by rewrite (proj1 (proj2 (proj2 (cap_cases _)))), Em|]. apply within_cap. by rewrite Em. }
  destruct p; done.
Qed.

(** ** Snapshot and restore *)

Lemma max_of_le hw vs x : max_of hw vs <= x <-> hw <= x /\ Forall (fun v => v <= x) vs.
Proof.
  unfold max_of. revert hw. induction vs as [|v vs IH]; intros hw; cbn [foldl]; [split; [by split|by intros [? _]]|].
  rewrite IH, Forall_cons. destruct (hw <? v) eqn:E; bool_prop; split; intros; split_and!; try tauto; lia.
Qed.

(** The high-water mark is the epoch of some record. *)
Definition attained (t : Table) : Prop :=
  forall x, global t <= x -> (forall k v, host t !! k = Some v -> v <= x) -> (forall k v, url t !! k = Some v -> v <= x) ->
    (forall k recs p, prefix t !! k = Some recs -> p ∈ recs -> Epoch p <= x) ->
    (forall k v, tag t !! k = Some v -> v <= x) -> highWater t <= x.

Lemma attained_stamped p now t : inv t -> attained (stamped p now t).
Proof.
  intros [I1 I2 I3 I4 I5 I6] x. unfold stamped. rewrite stamp_eq. destruct p as [|h|h uri|h pre|tg]; cbn; intros H1 H2 H3 H4 H5; try done.
  - apply (H2 (normHost h)), lookup_insert_eq.
  - apply (H3 (urlKey sha (normHost h) uri)), lookup_insert_eq.
  - assert (highWater t <= stamp_at now t) as Hw by (unfold stamp_at; lia).
    destruct (apply_rec_latest (normalizePrefix pre) (stamp_at now t) (default [] (prefix t !! normHost h))) as (p & Hp & _ & Hle).
    { intros p Hp. destruct (prefix t !! normHost h) as [rs|] eqn:E; cbn in Hp; [pose proof (I4 _ _ _ E Hp); lia|by apply not_elem_of_nil in Hp]. }
    pose proof (H4 (normHost h) _ p (lookup_insert_eq _ _ _) Hp). lia.
  - apply (H5 tg), lookup_insert_eq.
Qed.

Lemma attained_cap t : attained t -> attained (enforceCapLocked t).
Proof.
  intros HA. destruct (cap_cases t) as (E1 & _ & _ & [-> |(E4 & _)]); [done|]. intros x H _ _ _ _. by rewrite E1, <- E4.
Qed.

Lemma run_attained ops t : inv t -> attained t -> attained (run ops t).
Proof.
  revert t. induction ops as [|[p now] ops IH]; intros t HI HA; [done|]. cbn. apply IH; [by apply inv_apply|].
  rewrite apply_stamped. destruct (void p); [done|]. pose proof (attained_stamped p now t HI).
  destruct p; try done; by apply attained_cap.
Qed.

(** The mark [Restore] recomputes. *)
Lemma restored_mark t : inv t -> attained t -> highWater (Restore (TakeSnapshot t) (New 0)) = highWater t.
Proof.
  intros HI HA. assert (forall x, highWater (Restore (TakeSnapshot t) (New 0)) <= x <->
    global t <= x /\ (forall k v, host t !! k = Some v -> v <= x) /\ (forall k v, url t !! k = Some v -> v <= x) /\
    (forall k recs p, prefix t !! k = Some recs -> p ∈ recs -> Epoch p <= x) /\ (forall k v, tag t !! k = Some v -> v <= x)) as HR.
  { assert (forall (M : gmap string Z) x, Forall (fun v => v <= x) (map_to_list M).*2 <-> (forall k v, M !! k = Some v -> v <= x)) as HM.
    { intros M x. rewrite Forall_fmap, Forall_forall. split.
      - intros H k v Hk. by apply (H (k, v)), elem_of_map_to_list.
      - intros H [k v] Hk%elem_of_map_to_list. by apply (H k v). }
    intros x. cbn. rewrite !max_of_le, !HM, Forall_forall. split.
    - intros ((((H1 & H2) & H3) & H4) & H5). split_and!; try done. intros k recs p Hk Hp. apply H4.
      apply list_elem_of_bind. exists (k, recs). split; [by apply list_elem_of_fmap_2|by apply elem_of_map_to_list].
    - intros (H1 & H2 & H3 & H4 & H5). split_and!; try done.
      intros v ([k recs] & Hv & Hk%elem_of_map_to_list)%list_elem_of_bind. apply list_elem_of_fmap in Hv as (p & -> & Hp).
      by apply (H4 k recs). }
  apply Z.le_antisymm.
  - apply HR. destruct HI as [I1 I2 I3 I4 I5 _]. split_and!; try done. lia.
  - destruct (proj1 (HR _) (Z.le_refl _)) as (H1 & H2 & H3 & H4 & H5). by apply HA.
Qed.

Lemma run_active ops t M :
  (active t = true -> 0 < highWater t) -> maxRecs t = M -> (forall p now, (p, now) ∈ ops -> 0 < now) ->
  (active (run ops t) = true -> 0 < highWater (run ops t)) /\ maxRecs (run ops t) = M.
Proof.
  revert t. induction ops as [|[p now] ops IH]; intros t Ha Hm Hclock; [done|].
  specialize (Hclock p now ltac:(left)) as Hnow. destruct (stamped_fields p now t) as (_ & Eh & _ & Em).
  destruct (cap_cases (stamped p now t)) as (E1 & _ & E3 & _).
  assert (0 < stamp_at now t) as Hs by (unfold stamp_at; lia).
  change (run ((p, now) :: ops) t) with (run ops (apply p now t)).
  apply IH; [| |intros p' now' Hin; apply (Hclock p'); by right]; rewrite apply_stamped; destruct (void p); try done;
    destruct p; rewrite ?E1, ?E3, ?Eh, ?Em; done.
Qed.

(** A table saved with Snapshot and restored into a new one is the same table,
    with the same records, epochs and high-water mark and its gate open, so it
    invalidates the same entries and a clock behind the saved purges cannot un-purge
    them; only the count of folds starts anew. *)
Theorem purge_snapshot_roundtrip n ops :
  let t := run ops (New n) in
  (forall p now, (p, now) ∈ ops -> 0 < now) ->
  Restore (TakeSnapshot t) (New n) = mk (host t) (url t) (prefix t) (tag t) (global t) (highWater t) 0 (maxRecs t) (active t).
Proof.
  intros t Hclock. pose proof (run_inv ops _ (inv_New n)) as HI. fold t in HI.
  assert (attained t) as HA by (apply run_attained; [apply inv_New|]; intros x H1 _ _ _ _; exact H1).
  assert ((active t = true -> 0 < highWater t) /\ maxRecs t = maxRecs (New n)) as [Hact Hmax].
  { by apply run_active. }
  pose proof (restored_mark t HI HA) as Hw. unfold Restore in *. cbn in Hw |- *. rewrite Hw, Hmax. f_equal.
  destruct (active t) eqn:Ea; [apply Z.ltb_lt; by apply Hact|]. destruct (i_idle t HI Ea) as (_ & _ & _ & _ & _ & ->). done.
Qed.

(** Equal URL keys are of the same host and URI, for a digest without collisions. *)
Lemma urlKey_inj `{!CacheKeysFacts.Digest sha} h u h' u' :
  CacheKeysFacts.good_value h -> CacheKeysFacts.good_value h' -> urlKey sha h u = urlKey sha h' u' -> h = h' /\ u = u'.
Proof.
  intros Hh Hh' E. apply (CacheKeysFacts.sha_inj (sha := sha)) in E. by apply (CacheKeysFacts.cut_inj "010"%char) in E.
Qed.

(** ** Reaping *)

Definition dead (t : Table) (e : Memory.memEntry) : Prop := Created (Memory.meta e) <= InvalidatedAfterMeta sha t (Memory.meta e).
#[local] Instance dead_dec t e : Decision (dead t e) := decide (_ <= _).

Lemma reap_loop_run t snap n s :
  exists s', Concurrency.run (reap_loop sha t snap n) s = (s', Some (n + Z.of_nat (length (filter (fun ke => dead t ke.2) snap)))) /\
    forall k, Memory.m s' !! k = if decide (k ∈ (filter (fun ke => dead t ke.2) snap).*1) then None else Memory.m s !! k.
Proof.
  revert n s. induction snap as [|[key e] snap IH]; intros n s; cbn [reap_loop].
  - exists s. split; [cbn; by rewrite Z.add_0_r|]. intros k. rewrite decide_False; [done|apply not_elem_of_nil].
  - destruct (Created (Memory.meta e) <=? InvalidatedAfterMeta sha t (Memory.meta e)) eqn:Ed; bool_prop.
    + rewrite filter_cons_True by exact Ed. rewrite run_bind.
      destruct (Concurrency.run (Memory.Delete key) s) as [s1 r1] eqn:E1. cbn in E1. injection E1 as <- <-.
      set (s2 := Memory.on_lru _ _). destruct (IH (n + 1) s2) as (s' & Hr & Hm). exists s'. split.
      { rewrite Hr. do 2 f_equal. cbn. lia. }
      intros k. rewrite Hm. cbn [fmap list_fmap fst]. destruct (decide (k = key)) as [->|Hk].
      * rewrite (decide_True (P := key ∈ key :: _)) by left. case_decide; [done|]. apply lookup_delete_eq.
      * destruct (decide (k ∈ (filter (fun ke => dead t ke.2) snap).*1)) as [Hin|Hin].
        -- by rewrite decide_True by (by right).
        -- rewrite decide_False by (by intros [->|?]%elem_of_cons). by apply lookup_delete_ne.
    + rewrite filter_cons_False by (unfold dead; cbn; lia). apply IH.
Qed.

(** One sweep over the in-memory backend deletes exactly the entries the table
    has invalidated, by the host, URI, tags and time stored with them, and returns
    their number. *)
Theorem purge_reap_exact t s :
  active t = true ->
  exists s', Concurrency.run (Reap sha t) s = (s', Some (Z.of_nat (size (filter (fun ke => dead t ke.2) (Memory.m s))))) /\
    Memory.m s' = filter (fun ke => ~ dead t ke.2) (Memory.m s).
Proof.
  intros Ha. unfold Reap. rewrite Ha. cbn [negb]. cbn [bind load].
  destruct (reap_loop_run t (map_to_list (Memory.m s)) 0 s) as (s' & Hr & Hm). exists s'.
  assert (forall k, k ∈ (filter (fun ke => dead t ke.2) (map_to_list (Memory.m s))).*1 <->
    exists e, Memory.m s !! k = Some e /\ dead t e) as Hin.
  { intros k. rewrite list_elem_of_fmap. split.
    - intros ([k' e] & -> & [Hd Hk%elem_of_map_to_list]%list_elem_of_filter). by exists e.
    - intros (e & Hk & Hd). exists (k, e). split; [done|]. apply list_elem_of_filter. split; [done|]. by apply elem_of_map_to_list. }
  split.
  - cbn. rewrite Hr. do 3 f_equal. rewrite map_filter_alt, map_size_list_to_map; [done|].
    apply NoDup_fmap_filter. apply NoDup_fst_map_to_list.
  - apply map_eq. intros k. rewrite Hm. destruct (Memory.m s !! k) as [e|] eqn:Ek.
    + destruct (decide (dead t e)) as [Hd|Hd].
      * rewrite decide_True by (apply Hin; by exists e). symmetry. apply map_lookup_filter_None. right. intros e' He' Hn. simplify_eq. by apply Hn.
      * rewrite decide_False by (intros (e' & ? & ?)%Hin; by simplify_eq). symmetry. by apply map_lookup_filter_Some.
    + rewrite decide_False by (intros (e' & ? & ?)%Hin; by simplify_eq). symmetry. apply map_lookup_filter_None. by left.
Qed.
End Facts.

(** ** Examples *)

Import CacheKeysFacts.

(** A purge of a section, then of a tag with the clock behind. *)
Definition demo_ops : list (purge * Z) := [(PPrefix "Example.com:80" "/blog/", 50); (PTag "t1", 40)].
Definition demo_table : Table := run demo_sha demo_ops (New 2).

Lemma purge_refines_history_witness :
  history 0 demo_ops = [(PPrefix "Example.com:80" "/blog/", 50); (PTag "t1", 50)] /\
  epochFor demo_sha demo_table "example.com" "/blog/x?y" [] = 50 /\ epochFor demo_sha demo_table "example.com" "/blogger" [] = 0.
Proof.
  split; [reflexivity|].
  destruct (purge_refines_history demo_sha 2 demo_ops ("example.com", "/blog/x?y", [])) as [H1 H2]; [cbn; lia|].
  destruct (purge_refines_history demo_sha 2 demo_ops ("example.com", "/blogger", [])) as [_ H3]; [cbn; lia|].
  split; apply Z.le_antisymm.
  - apply H2; [vm_compute; reflexivity|lia|]. intros p e [[= -> ->]|[[= -> ->]|Hn%not_elem_of_nil]%elem_of_cons]%elem_of_cons _; [lia..|done].
  - apply (H1 (PPrefix "Example.com:80" "/blog/") 50); [left|]. split; vm_compute; reflexivity.
  - apply H3; [vm_compute; reflexivity|lia|]. intros p e [[= -> ->]|[[= -> ->]|Hn%not_elem_of_nil]%elem_of_cons]%elem_of_cons Hc; [| |done].
    + destruct Hc as [_ Hc]. vm_compute in Hc. discriminate.
    + by apply not_elem_of_nil in Hc.
  - vm_compute. discriminate.
Defined.

Lemma purge_never_served_witness :
  let m := mkMeta ∅ "" "example.com" "/blog/x" [] [] 45 1000 0 0 0 200 in
  let c := CacheServe.New (CacheServe.mkCache (Some (fun r m => InvalidatedAfter demo_sha demo_table r m)) None None 0 0 0 0 0 false false) in
  CacheServe.classify c m (CacheKeys.mkRequest "GET" "EXAMPLE.com" "/blog/x" ∅ true) 60 = CacheServe.stateExpired.
Proof.
  apply (purge_never_served demo_sha 2 [] (PPrefix "Example.com:80" "/blog/") 50 [(PTag "t1", 40)]);
    [reflexivity|split; vm_compute; reflexivity|cbn; lia|reflexivity].
Defined.

Lemma purge_snapshot_roundtrip_witness :
  Restore (TakeSnapshot demo_table) (New 2) = demo_table.
Proof.
  unfold demo_table. rewrite (purge_snapshot_roundtrip demo_sha 2 demo_ops).
  - vm_compute. reflexivity.
  - intros p e [[= -> ->]|[[= -> ->]|Hn%not_elem_of_nil]%elem_of_cons]%elem_of_cons; [lia..|done].
Defined.

Lemma purge_reap_exact_witness :
  exists s', Concurrency.run (Reap demo_sha demo_table)
    (Memory.mk {["k1" := Memory.mkEntry "" (mkMeta ∅ "" "example.com" "/blog/x" [] [] 45 1000 0 0 0 200);
                 "k2" := Memory.mkEntry "" (mkMeta ∅ "" "example.com" "/" [] [] 45 1000 0 0 0 200)]} (Lru.newLRU 10)) = (s', Some 1).
Proof.
  match goal with |- exists _, Concurrency.run _ ?s0 = _ => destruct (purge_reap_exact demo_sha demo_table s0) as (s' & H & _); [vm_compute; reflexivity|] end.
  exists s'. rewrite H. vm_compute. reflexivity.
Defined.
End PurgeFacts.
