(* ===== verification/Disk.v ===== *)
(** * pkg/cache: the disk backend

    [src/pkg/cache/disk.go].  The files under the cache directory are a map from a
    directory name and a file name to a content and a modification time; every
    system call is one atomic action, which a fault may make fail.  A method is a
    program of such actions, so that it can be interrupted between any two of them:
    the process may be killed there, and a reader may run there.

    Writing through an [*os.File] is writing at the path it was created at: the code
    renames a file only after closing it, and what is written to a file that was
    removed meanwhile cannot be read.  Reading a whole file is one action, because a
    file is complete when it is renamed into place and never written afterwards.  A
    key is a plain file name, not starting with [..], as the middleware's hexadecimal
    keys are. *)

From stdpp Require Import pretty sorting.
From S2P Require Import Prelude Concurrency Lru Memory CacheServe.

Module Disk.
Import Lru.
Open Scope go_scope.

Definition reapMinAge : Z := 60 * Second.
Definition minKeyLen : nat := 2.

(** ** Files *)

(** A directory under the cache directory and a name in it. *)
Definition path : Type := string * string.
Record file := mkFile { content : string; mtime : Z }.

Record DiskStorage := mk {
  files : gmap path file;
  dirs : gset string;
  index : lru;
  seq : Z;
  wall : Z;
  calls : nat;
}.

Definition on_files (f : gmap path file -> gmap path file) (s : DiskStorage) : DiskStorage :=
  mk (f (files s)) (dirs s) (index s) (seq s) (wall s) (calls s).
Definition on_index (f : lru -> lru) (s : DiskStorage) : DiskStorage :=
  mk (files s) (dirs s) (f (index s)) (seq s) (wall s) (calls s).
Definition add_dir (d : string) (s : DiskStorage) : DiskStorage :=
  mk (files s) ({[d]} ∪ dirs s) (index s) (seq s) (wall s) (calls s).
Definition set_seq (n : Z) (s : DiskStorage) : DiskStorage :=
  mk (files s) (dirs s) (index s) n (wall s) (calls s).
Definition set_wall (t : Z) (s : DiskStorage) : DiskStorage :=
  mk (files s) (dirs s) (index s) (seq s) t (calls s).
Definition tick (s : DiskStorage) : DiskStorage :=
  mk (files s) (dirs s) (index s) (seq s) (wall s) (S (calls s)).

Inductive syscall :=
  | SReadFile (p : path) | SCreate (p : path) | SWrite (p : path) | SSync (p : path) | SClose (p : path)
  | SMkdirAll (d : string) | SRename (p q : path) | SRemove (p : path) | SStat (p : path)
  | SReadDir (d : string) | SOpenDir (d : string) | SSyncDir (d : string) | SCloseDir (d : string).

(** [strings.HasSuffix] followed by [strings.TrimSuffix]. *)
Fixpoint CutSuffix (suffix s : string) : option string :=
  if String.eqb s suffix then Some ""
  else match s with
       | EmptyString => None
       | String c s => String c <$> CutSuffix suffix s
       end.

Definition shardDir (key : string) : string := String.substring 0 2 key.
Definition bodyPath (key : string) : path := (shardDir key, key +:+ ".body").
Definition metaPath (key : string) : path := (shardDir key, key +:+ ".meta").

(** [os.ReadDir] sorts by name. *)
Definition name_le (a b : string) : Prop := String.leb a b = true.
#[export] Instance name_le_dec a b : Decision (name_le a b) := decide (String.leb a b = true).
Definition sorted : list string -> list string := merge_sort name_le.
Definition names (d : string) (s : DiskStorage) : list string :=
  sorted (omap (fun pf => if String.eqb pf.1.1 d then Some pf.1.2 else None) (map_to_list (files s))).

Section Backend.
(** Which call fails: by its position and what it is; a failing write has written
    some of its bytes. *)
Context (faults : nat -> syscall -> option nat).
(** [encoding/json] on [Meta]. *)
Context (marshal : Meta -> option string) (unmarshal : string -> option Meta).

(** A call acts when no fault hits it; [act] is [None] when it fails by itself. *)
Definition outcome {A} (c : syscall) (act : DiskStorage -> option (DiskStorage * A))
    (partial : nat -> DiskStorage -> DiskStorage) (s : DiskStorage) : DiskStorage * option A :=
  match faults (calls s) c with
  | Some n => (tick (partial n s), None)
  | None => match act s with
            | Some (s', a) => (tick s', Some a)
            | None => (tick s, None)
            end
  end.

Definition sys {A} (c : syscall) (act : DiskStorage -> option (DiskStorage * A))
    (partial : nat -> DiskStorage -> DiskStorage) : prog DiskStorage (option A) :=
  Atomic (fun s => (outcome c act partial s).1) (fun s => Ret (outcome c act partial s).2).

Definition nothing (n : nat) (s : DiskStorage) : DiskStorage := s.
Definition fine (s : DiskStorage) : option (DiskStorage * unit) := Some (s, tt).
Definition in_dir (d : string) (s : DiskStorage) : option (DiskStorage * unit) :=
  if decide (d ∈ dirs s) then Some (s, tt) else None.

Definition append_to (p : path) (data : string) (s : DiskStorage) : DiskStorage :=
  on_files (alter (fun f => mkFile (content f +:+ data) (wall s)) p) s.

Definition ReadFile (p : path) : prog DiskStorage (option string) :=
  sys (SReadFile p) (fun s => f ← files s !! p; Some (s, content f)) nothing.
Definition Create (p : path) : prog DiskStorage (option unit) :=
  sys (SCreate p) (fun s => if decide (p.1 ∈ dirs s) then Some (on_files (<[p := mkFile "" (wall s)]>) s, tt) else None) nothing.
Definition WriteTo (p : path) (data : string) : prog DiskStorage (option unit) :=
  sys (SWrite p) (fun s => Some (append_to p data s, tt)) (fun n => append_to p (String.substring 0 n data)).
Definition Sync (p : path) : prog DiskStorage (option unit) := sys (SSync p) fine nothing.
Definition Close (p : path) : prog DiskStorage (option unit) := sys (SClose p) fine nothing.
Definition MkdirAll (d : string) : prog DiskStorage (option unit) :=
  sys (SMkdirAll d) (fun s => Some (add_dir d s, tt)) nothing.
Definition Rename (p q : path) : prog DiskStorage (option unit) :=
  sys (SRename p q) (fun s => f ← files s !! p;
                              if decide (q.1 ∈ dirs s) then Some (on_files (fun fs => <[q := f]> (delete p fs)) s, tt) else None) nothing.
Definition Remove (p : path) : prog DiskStorage (option unit) :=
  sys (SRemove p) (fun s => _ ← files s !! p; Some (on_files (delete p) s, tt)) nothing.
Definition Stat (p : path) : prog DiskStorage (option file) :=
  sys (SStat p) (fun s => f ← files s !! p; Some (s, f)) nothing.
Definition ReadDir (d : string) : prog DiskStorage (option (list string)) :=
  sys (SReadDir d) (fun s => if decide (d ∈ dirs s) then Some (s, names d s) else None) nothing.
(** The cache directory itself holds directories only. *)
Definition ReadRoot : prog DiskStorage (option (list string)) :=
  sys (SReadDir "") (fun s => Some (s, sorted (elements (dirs s)))) nothing.

(** ** The backend *)

(** The directory is there and its files are what an earlier process left; the scan
    is a goroutine of its own. *)
Definition NewDisk (dir : string) (maxSize : Z) : prog DiskStorage bool :=
  if String.eqb dir "" then Ret false
  else
    r <- MkdirAll "tmp" ;;
    match r with
    | None => Ret false
    | Some _ => store (fun s => set_seq 0 (on_index (fun _ => newLRU maxSize) s)) ;; Ret true
    end.

Definition tempPath (prefix : string) : prog DiskStorage path :=
  n <- rmw (fun s => u64 (seq s + 1)) (fun s => set_seq (u64 (seq s + 1)) s) ;;
  Ret ("tmp", prefix +:+ "." +:+ pretty n).

Definition short (key : string) : bool := (String.length key <? minKeyLen)%nat.

Definition Get (key : string) : prog DiskStorage (option (Meta * string)) :=
  if short key then Ret None
  else
    mb <- ReadFile (metaPath key) ;;
    match mb with
    | None => Ret None
    | Some mb =>
        match unmarshal mb with
        | None => Ret None
        | Some m =>
            body <- ReadFile (bodyPath key) ;;
            match body with
            | None => Ret None
            | Some body =>
                if negb (Z.of_nat (String.length body) =? Size m) then Ret None
                else store (on_index (touch key)) ;; Ret (Some (m, body))
            end
        end
    end.

Record diskWriter := mkWriter { wkey : string; wtmp : path; wdone : bool }.

Definition Writer (key : string) : prog DiskStorage (option diskWriter) :=
  if short key then Ret None
  else
    tmp <- tempPath key ;;
    f <- Create tmp ;;
    match f with
    | None => Ret None
    | Some _ => Ret (Some (mkWriter key tmp false))
    end.

Definition removeFiles (key : string) : prog DiskStorage unit :=
  if short key then Ret tt
  else Remove (metaPath key) ;; Remove (bodyPath key) ;; Ret tt.

Definition Delete (key : string) : prog DiskStorage unit :=
  if short key then Ret tt
  else removeFiles key ;; store (on_index (remove key)).

(** The file of a finished writer is closed, and writing to it fails. *)
Definition Write (p : string) (w : diskWriter) : prog DiskStorage (option unit) :=
  if wdone w then Ret None else WriteTo (wtmp w) p.

Fixpoint each {A} (f : A -> prog DiskStorage unit) (l : list A) : prog DiskStorage unit :=
  match l with
  | [] => Ret tt
  | x :: l => f x ;; each f l
  end.

Definition admit_key (key : string) (size : Z) : prog DiskStorage unit :=
  victims <- rmw (fun s => snd (lru_admit key size (index s))) (on_index (fun l => fst (lru_admit key size l))) ;;
  each removeFiles victims.

Definition fsyncDir (d : string) : prog DiskStorage bool :=
  o <- sys (SOpenDir d) (in_dir d) nothing ;;
  match o with
  | None => Ret false
  | Some _ =>
      y <- sys (SSyncDir d) fine nothing ;;
      match y with
      | None => sys (SCloseDir d) fine nothing ;; Ret false
      | Some _ => c <- sys (SCloseDir d) fine nothing ;; Ret (bool_decide (is_Some c))
      end
  end.

Definition atomicWriteRename (p : path) (data : string) (tmp : path) : prog DiskStorage bool :=
  f <- Create tmp ;;
  match f with
  | None => Ret false
  | Some _ =>
      r <- WriteTo tmp data ;;
      match r with
      | None => Close tmp ;; Remove tmp ;; Ret false
      | Some _ =>
          r <- Sync tmp ;;
          match r with
          | None => Close tmp ;; Remove tmp ;; Ret false
          | Some _ =>
              r <- Close tmp ;;
              match r with
              | None => Remove tmp ;; Ret false
              | Some _ =>
                  r <- Rename tmp p ;;
                  match r with
                  | None => Remove tmp ;; Ret false
                  | Some _ => Ret true
                  end
              end
          end
      end
  end.

(** The last part of [Commit], the body being in place. *)
Definition commit_meta (mt : Meta) (key : string) : prog DiskStorage bool :=
  match marshal mt with
  | None => Remove (bodyPath key) ;; Ret false
  | Some mb =>
      tmp <- tempPath (key +:+ ".meta") ;;
      ok <- atomicWriteRename (metaPath key) mb tmp ;;
      if negb ok then Remove (bodyPath key) ;; Ret false
      else
        ok <- fsyncDir (shardDir key) ;;
        if negb ok then removeFiles key ;; Ret false
        else admit_key key (Size mt) ;; Ret true
  end.

(** Whether it succeeds; the writer is finished in any case. *)
Definition Commit (mt : Meta) (w : diskWriter) : prog DiskStorage (diskWriter * bool) :=
  if wdone w then Ret (w, true)
  else
    let w := mkWriter (wkey w) (wtmp w) true in
    r <- Sync (wtmp w) ;;
    match r with
    | None => Close (wtmp w) ;; Remove (wtmp w) ;; Ret (w, false)
    | Some _ =>
        r <- Close (wtmp w) ;;
        match r with
        | None => Remove (wtmp w) ;; Ret (w, false)
        | Some _ =>
            r <- MkdirAll (shardDir (wkey w)) ;;
            match r with
            | None => Remove (wtmp w) ;; Ret (w, false)
            | Some _ =>
                r <- Rename (wtmp w) (bodyPath (wkey w)) ;;
                match r with
                | None => Remove (wtmp w) ;; Ret (w, false)
                | Some _ => ok <- commit_meta mt (wkey w) ;; Ret (w, ok)
                end
            end
        end
    end.

Definition AbortWriter (w : diskWriter) : prog DiskStorage diskWriter :=
  if wdone w then Ret w
  else Close (wtmp w) ;; Remove (wtmp w) ;; Ret (mkWriter (wkey w) (wtmp w) true).

(** [Range]: a directory at a time; the callback may change the store. *)
Fixpoint range_names (fn : string -> Meta -> prog DiskStorage bool) (sh : string) (ents : list string) : prog DiskStorage bool :=
  match ents with
  | [] => Ret true
  | name :: ents =>
      match CutSuffix ".meta" name with
      | None => range_names fn sh ents
      | Some key =>
          mb <- ReadFile (sh, name) ;;
          match mb ≫= unmarshal with
          | None => range_names fn sh ents
          | Some m => more <- fn key m ;; if more : bool then range_names fn sh ents else Ret false
          end
      end
  end.

Fixpoint range_shards (fn : string -> Meta -> prog DiskStorage bool) (shards : list string) : prog DiskStorage unit :=
  match shards with
  | [] => Ret tt
  | sh :: shards =>
      if String.eqb sh "tmp" then range_shards fn shards
      else
        ents <- ReadDir sh ;;
        match ents with
        | None => range_shards fn shards
        | Some ents => more <- range_names fn sh ents ;; if more : bool then range_shards fn shards else Ret tt
        end
  end.

Definition Range (fn : string -> Meta -> prog DiskStorage bool) : prog DiskStorage unit :=
  shards <- ReadRoot ;;
  match shards with
  | None => Ret tt
  | Some shards => range_shards fn shards
  end.

(** ** The scan at start-up *)

Definition reapIfStale (p : path) (now : Z) : prog DiskStorage unit :=
  fi <- Stat p ;;
  match fi with
  | None => Ret tt
  | Some fi => if reapMinAge <=? time_sub now (mtime fi) then Remove p ;; Ret tt else Ret tt
  end.

Definition scan_meta (now : Z) (sh : string) (bodies : gset string) (key : string) : prog DiskStorage unit :=
  let mp := (sh, key +:+ ".meta") in
  let bp := (sh, key +:+ ".body") in
  mb <- ReadFile mp ;;
  match mb with
  | None => Ret tt
  | Some mb =>
      match unmarshal mb with
      | None => reapIfStale mp now ;; reapIfStale bp now
      | Some m =>
          if negb (bool_decide (key ∈ bodies)) then reapIfStale mp now
          else if CacheServe.serveableUntil m <? now then reapIfStale mp now ;; reapIfStale bp now
          else
            fi <- Stat bp ;;
            match fi with
            | None => reapIfStale mp now ;; reapIfStale bp now
            | Some fi =>
                if negb (Z.of_nat (String.length (content fi)) =? Size m) then reapIfStale mp now ;; reapIfStale bp now
                else admit_key key (Size m)
            end
      end
  end.

Definition body_keys (ents : list string) : list string := omap (CutSuffix ".body") ents.
Definition meta_keys (ents : list string) : list string :=
  omap (fun name => match CutSuffix ".body" name with Some _ => None | None => CutSuffix ".meta" name end) ents.

Definition scan_shard (now : Z) (sh : string) : prog DiskStorage unit :=
  ents <- ReadDir sh ;;
  match ents with
  | None => Ret tt
  | Some ents =>
      each (scan_meta now sh (list_to_set (body_keys ents))) (meta_keys ents) ;;
      each (fun key => if bool_decide (key ∈ meta_keys ents) then Ret tt else reapIfStale (sh, key +:+ ".body") now)
        (body_keys ents)
  end.

Definition scan (now : Z) : prog DiskStorage unit :=
  tmps <- ReadDir "tmp" ;;
  each (fun name => reapIfStale ("tmp", name) now) (default [] tmps) ;;
  shards <- ReadRoot ;;
  match shards with
  | None => Ret tt
  | Some shards => each (fun sh => if String.eqb sh "tmp" then Ret tt else scan_shard now sh) shards
  end.
End Backend.
End Disk.
