(* ===== verification/DiskFacts.v ===== *)
(** * pkg/cache: commits to disk

    The methods of [Disk] in the logic of interrupted runs of [Concurrency]: what the
    files outside [tmp] are at every point of a commit, and what each ending leaves. *)

From stdpp Require Import pretty sorting.
From S2P Require Import Prelude Concurrency Lru GoStrings Memory CacheServe Disk.

Module DiskFacts.
Import Lru LruFacts Disk.

(** ** Names *)

Lemma CutSuffix_Some suf s k : CutSuffix suf s = Some k <-> s = k +:+ suf.
Proof.
  revert k. induction s as [|c s IH]; intros k; cbn [CutSuffix].
  - destruct (String.eqb_spec "" suf) as [<-|Hne].
    + split; [by intros [= <-]|]. by destruct k.
    + split; [done|]. destruct k; [by destruct suf|done].
  - destruct (String.eqb_spec (String c s) suf) as [<-|Hne].
    + split; [by intros [= <-]|]. intros E. apply (f_equal String.length) in E as E'. rewrite append_length in E'.
      destruct k; [done|cbn in E'; lia].
    + rewrite fmap_Some. split.
      * intros (k' & ->%IH & ->). done.
      * destruct k as [|c' k']; [done|]. rewrite append_cons. intros [= -> ->]. exists k'. split; [by apply IH|done].
Qed.

Lemma CutSuffix_app suf k : CutSuffix suf (k +:+ suf) = Some k.
Proof. by apply CutSuffix_Some. Qed.

Lemma append_inj_r suf a b : a +:+ suf = b +:+ suf -> a = b.
Proof. intros E%(f_equal (CutSuffix suf)). rewrite !CutSuffix_app in E. by injection E. Qed.

Lemma meta_not_body a b : a +:+ ".meta" <> b +:+ ".body".
Proof.
  revert b. induction a as [|c a IH]; intros b E; destruct b as [|c' b].
  - done.
  - apply (f_equal String.length) in E. rewrite !append_length in E. cbn in E. lia.
  - apply (f_equal String.length) in E. rewrite !append_length in E. cbn in E. lia.
  - rewrite !append_cons in E. injection E as _ E. by apply (IH b).
Qed.

Lemma bodyPath_inj k k' : bodyPath k = bodyPath k' -> k = k'.
Proof. intros [= _ E]. by eapply append_inj_r. Qed.
Lemma metaPath_inj k k' : metaPath k = metaPath k' -> k = k'.
Proof. intros [= _ E]. by eapply append_inj_r. Qed.
Lemma metaPath_bodyPath k k' : metaPath k <> bodyPath k'.
Proof. intros [= _ E]. by eapply meta_not_body. Qed.

Lemma substring_length n m s : (String.length (String.substring n m s) <= m)%nat.
Proof. revert n m. induction s as [|c s IH]; intros [|n] [|m]; cbn; try lia; [specialize (IH 0%nat m)|specialize (IH n 0%nat)|specialize (IH n (S m))]; lia. Qed.

Lemma shardDir_tmp k : shardDir k <> "tmp".
Proof. intros E. pose proof (substring_length 0 2 k) as H. unfold shardDir in E. rewrite E in H. cbn in H. lia. Qed.

(** ** The files outside [tmp] *)

Definition vis (s : DiskStorage) : gmap path file := filter (fun pf => pf.1.1 <> "tmp") (files s).

Lemma vis_lookup s (p : path) : p.1 <> "tmp" -> vis s !! p = files s !! p.
Proof.
  intros H. unfold vis. destruct (files s !! p) as [f|] eqn:E.
  - by apply map_lookup_filter_Some.
  - apply map_lookup_filter_None. by left.
Qed.

Lemma vis_ext s s' : (forall q : path, q.1 <> "tmp" -> files s' !! q = files s !! q) -> vis s' = vis s.
Proof.
  intros H. apply map_eq. intros q. destruct (decide (q.1 = "tmp")) as [Hq|Hq]; [|by rewrite !vis_lookup by done; apply H].
  trans (@None file); [|symmetry]; apply map_lookup_filter_None; right; cbn; tauto.
Qed.

Definition cont (V : gmap path file) (p : path) : option string := content <$> V !! p.

(** What a lookup of [k] finds when nothing interferes. *)
Definition entry (unmarshal : string -> option Meta) (V : gmap path file) (k : string) : option (Meta * string) :=
  if short k then None
  else
    mb ← cont V (metaPath k);
    m ← unmarshal mb;
    b ← cont V (bodyPath k);
    if Z.of_nat (String.length b) =? Size m then Some (m, b) else None.

Lemma entry_vis u s k : entry u (vis s) k = entry u (files s) k.
Proof. unfold entry, cont. rewrite !vis_lookup by (cbn; apply shardDir_tmp). done. Qed.

Lemma entry_size u V k m b : entry u V k = Some (m, b) -> Size m = Z.of_nat (String.length b).
Proof.
  unfold entry. destruct (short k); [done|].
  destruct (cont V (metaPath k)) as [mb|]; [|done]. cbn. destruct (u mb) as [m'|]; [|done]. cbn.
  destruct (cont V (bodyPath k)) as [b'|]; [|done]. cbn.
  destruct (Z.eqb_spec (Z.of_nat (String.length b')) (Size m')) as [E|]; [|done]. by intros [= <- <-].
Qed.

Lemma entry_ext u V V' k :
  cont V' (metaPath k) = cont V (metaPath k) -> cont V' (bodyPath k) = cont V (bodyPath k) -> entry u V' k = entry u V k.
Proof. intros E1 E2. unfold entry. by rewrite E1, E2. Qed.

Lemma entry_no_body u V k : cont V (bodyPath k) = None -> entry u V k = None.
Proof. intros E. unfold entry. rewrite E. destruct (short k), (cont V (metaPath k)) as [mb|]; try done. cbn. by destruct (u mb). Qed.

Lemma entry_no_meta u V k : cont V (metaPath k) = None -> entry u V k = None.
Proof. intros E. unfold entry. rewrite E. by destruct (short k). Qed.

Lemma cont_delete V p q : cont (delete p V) q = None \/ cont (delete p V) q = cont V q.
Proof.
  unfold cont. destruct (decide (p = q)) as [->|].
  - left. by rewrite lookup_delete_eq.
  - right. by rewrite lookup_delete_ne.
Qed.

Section Facts.
Context (faults : nat -> syscall -> option nat).
Context (marshal : Meta -> option string) (unmarshal : string -> option Meta).

Definition removes_work : Prop := forall n p, faults n (SRemove p) = None.
Definition no_faults : Prop := forall n c, faults n c = None.

Definition quiet (s s' : DiskStorage) : Prop := files s' = files s /\ index s' = index s.

Local Abbreviation Remove' := (Remove faults).

(** ** One call at a time *)

Section Calls.
Context (P : gmap path file -> Prop) {B : Type} (Q : B -> DiskStorage -> Prop).
Local Abbreviation ok p s := (safe (fun x => P (vis x)) p Q s).

Lemma ok_sys {A} c act partial (f : option A -> prog DiskStorage B) s :
  P (vis s) -> ok (f (outcome faults c act partial s).2) (outcome faults c act partial s).1 ->
  ok (bind (sys faults c act partial) f) s.
Proof. intros HP H. split; [exact HP|exact H]. Qed.

(** A call that changes neither the files nor the index. *)
Lemma ok_noop {A} c (act : DiskStorage -> option (DiskStorage * A)) (f : option A -> prog DiskStorage B) s :
  (forall s' a, act s = Some (s', a) -> quiet s s') ->
  P (vis s) -> (forall r s', quiet s s' -> ok (f r) s') ->
  ok (bind (sys faults c act nothing) f) s.
Proof.
  intros Ha HP H. apply ok_sys; [done|]. unfold outcome.
  destruct (faults (calls s) c); [by apply H|].
  destruct (act s) as [[s' a]|] eqn:E; [|by apply H].
  apply H. destruct (Ha _ _ eq_refl) as [E1 E2]. split; [exact E1|exact E2].
Qed.

Lemma ok_remove (p : path) (f : option unit -> prog DiskStorage B) s :
  P (vis s) ->
  (forall r s', index s' = index s -> (vis s' = vis s \/ vis s' = delete p (vis s)) ->
    (removes_work -> files s' = delete p (files s)) -> ok (f r) s') ->
  ok (bind (Remove' p) f) s.
Proof.
  intros HP H. apply ok_sys; [done|]. unfold outcome.
  destruct (faults (calls s) (SRemove p)) eqn:Ef.
  - apply H; [done|by left|]. intros HR. by rewrite HR in Ef.
  - destruct (files s !! p) as [g|] eqn:Eg; cbn.
    + apply H; [done| |done]. right. unfold vis. cbn. by rewrite map_filter_delete.
    + apply H; [done|by left|]. intros _. cbn. by rewrite delete_id.
Qed.

Lemma ok_create (p : path) (f : option unit -> prog DiskStorage B) s :
  p.1 = "tmp" -> P (vis s) ->
  (forall r s', index s' = index s -> vis s' = vis s ->
     (r = Some tt -> cont (files s') p = Some "") -> ok (f r) s') ->
  ok (bind (Create faults p) f) s.
Proof.
  intros Hp HP H. apply ok_sys; [done|]. unfold outcome.
  destruct (faults (calls s) (SCreate p)); [by apply H|].
  case_decide; [|by apply H]. apply H; [done| |]; cbn.
  - apply vis_ext. intros q Hq. apply lookup_insert_ne. congruence.
  - intros _. unfold cont. by rewrite lookup_insert_eq.
Qed.

Lemma ok_write (p : path) d (f : option unit -> prog DiskStorage B) s :
  p.1 = "tmp" -> P (vis s) ->
  (forall r s', index s' = index s -> vis s' = vis s ->
     (r = Some tt -> cont (files s') p = (fun b => b +:+ d) <$> cont (files s) p) -> ok (f r) s') ->
  ok (bind (WriteTo faults p d) f) s.
Proof.
  intros Hp HP H. apply ok_sys; [done|]. unfold outcome.
  destruct (faults (calls s) (SWrite p)); apply H; try done.
  - apply vis_ext. intros q Hq. apply lookup_alter_ne. congruence.
  - apply vis_ext. intros q Hq. apply lookup_alter_ne. congruence.
  - intros _. unfold cont. cbn. rewrite lookup_alter_eq. destruct (files s !! p); reflexivity.
Qed.

(** A rename from [tmp] into a shard. *)
Lemma ok_rename (p q : path) (f : option unit -> prog DiskStorage B) s :
  p.1 = "tmp" -> q.1 <> "tmp" -> P (vis s) ->
  (forall s', quiet s s' -> ok (f None) s') ->
  (forall s' b t, cont (files s) p = Some b -> index s' = index s -> vis s' = <[q := mkFile b t]> (vis s) -> ok (f (Some tt)) s') ->
  ok (bind (Rename faults p q) f) s.
Proof.
  intros Hp Hq HP H0 H1. apply ok_sys; [done|]. unfold outcome.
  destruct (faults (calls s) (SRename p q)); [by apply H0|]. unfold cont in H1.
  destruct (files s !! p) as [g|] eqn:Eg; cbn in *; [|by apply H0].
  case_decide; [|by apply H0]. apply (H1 _ (content g) (mtime g)); [done..|]. unfold vis. cbn.
  rewrite map_filter_insert_True by done. destruct g as [c t]. cbn in *. f_equal.
  rewrite map_filter_delete. apply delete_id. apply map_lookup_filter_None. right. cbn. tauto.
Qed.

Lemma ok_tempPath prefix (f : path -> prog DiskStorage B) s :
  P (vis s) -> (forall p s', p.1 = "tmp" -> quiet s s' -> ok (f p) s') -> ok (bind (tempPath prefix) f) s.
Proof. intros HP H. split; [done|]. by apply H. Qed.
End Calls.

(** ** Parts of the methods *)

Definition same (s s' : DiskStorage) : Prop := vis s' = vis s /\ index s' = index s.

Lemma quiet_same s s' : quiet s s' -> same s s'.
Proof. intros [E1 E2]. split; [|done]. unfold vis. by rewrite E1. Qed.

Lemma same_trans s1 s2 s3 : same s1 s2 -> same s2 s3 -> same s1 s3.
Proof. intros [E1 E2] [E3 E4]. split; by etrans. Qed.

Lemma vis_delete s s' (p : path) : files s' = delete p (files s) -> vis s' = delete p (vis s).
Proof. intros E. unfold vis. by rewrite E, map_filter_delete. Qed.

Lemma vis_delete_tmp s (p : path) : p.1 = "tmp" -> delete p (vis s) = vis s.
Proof. intros H. apply delete_id, map_lookup_filter_None. right. cbn. tauto. Qed.

Definition drop_files (key : string) (V : gmap path file) : gmap path file :=
  if short key then V else delete (bodyPath key) (delete (metaPath key) V).

(** Removing the files of every key of a list. *)
Definition drop_all (keys : list string) (V : gmap path file) : gmap path file := foldl (fun V k => drop_files k V) V keys.

(** How a [Commit] may end. *)
Inductive committed (mt : Meta) (w : diskWriter) (s s' : DiskStorage) : bool -> Prop :=
  | not_placed : same s s' -> committed mt w s s' false
  | rolled_back :
      index s' = index s ->
      (removes_work -> vis s' = delete (bodyPath (wkey w)) (vis s) \/ vis s' = drop_files (wkey w) (vis s)) ->
      committed mt w s s' false
  | placed b mb t t' :
      cont (files s) (wtmp w) = Some b -> marshal mt = Some mb ->
      index s' = (lru_admit (wkey w) (Size mt) (index s)).1 ->
      (removes_work -> vis s' = drop_all (lru_admit (wkey w) (Size mt) (index s)).2
                                  (<[metaPath (wkey w) := mkFile mb t']> (<[bodyPath (wkey w) := mkFile b t]> (vis s)))) ->
      committed mt w s s' true.

Lemma entry_drop_files_ne u V k k' : k <> k' -> entry u (drop_files k V) k' = entry u V k'.
Proof.
  intros Hne. unfold drop_files. destruct (short k); [done|]. unfold cont.
  apply entry_ext; unfold cont; rewrite !lookup_delete_ne; try done;
    first [apply not_eq_sym, metaPath_bodyPath|apply metaPath_bodyPath|by intros E%bodyPath_inj|by intros E%metaPath_inj].
Qed.

Lemma entry_drop_all u keys V k : entry u (drop_all keys V) k = if decide (k ∈ keys) then None else entry u V k.
Proof. clear faults marshal unmarshal.
  unfold drop_all. revert V. induction keys as [|k' keys IH]; intros V; cbn [foldl]; [done|]. rewrite IH.
  destruct (decide (k' = k)) as [->|Hne].
  - rewrite (decide_True (P := k ∈ k :: keys)) by set_solver. destruct (decide (k ∈ keys)); [done|].
    unfold drop_files. destruct (short k) eqn:Ek; [unfold entry; by rewrite Ek|]. apply entry_no_meta. unfold cont.
    by rewrite lookup_delete_ne, lookup_delete_eq by apply not_eq_sym, metaPath_bodyPath.
  - rewrite entry_drop_files_ne by done. destruct (decide (k ∈ keys)), (decide (k ∈ k' :: keys)); set_solver.
Qed.

Section Parts.
Context (P : gmap path file -> Prop).
Context (P_delete : forall p V, P V -> P (delete p V)).
Local Abbreviation ok p Q s := (safe (fun x => P (vis x)) p Q s).

Lemma ok_remove_tmp {B} (p : path) (f : option unit -> prog DiskStorage B) Q s :
  p.1 = "tmp" -> P (vis s) ->
  (forall r s', same s s' -> (removes_work -> files s' !! p = None) -> ok (f r) Q s') -> ok (bind (Remove' p) f) Q s.
Proof.
  intros Hp HP H. apply ok_remove; [done|]. intros r s' Hi Hv Hf. apply H.
  - split; [|done]. destruct Hv as [->| ->]; [done|by apply vis_delete_tmp].
  - intros HR. rewrite (Hf HR). apply lookup_delete_eq.
Qed.

Lemma discard_ok {B} (tmp : path) (r : B) Q s s' :
  tmp.1 = "tmp" -> P (vis s) -> same s s' ->
  (forall s2, same s s2 -> (removes_work -> files s2 !! tmp = None) -> Q r s2) -> ok (Remove' tmp ;; Ret r)%go Q s'.
Proof.
  intros Ht HP Hs H. apply ok_remove_tmp; [done|by rewrite (proj1 Hs)|]. intros _ s2 Hs2 Hf.
  assert (same s s2) as Hs' by (by eapply same_trans). split; [by rewrite (proj1 Hs')|by apply H].
Qed.

Lemma close_discard_ok {B} (tmp : path) (r : B) Q s s' :
  tmp.1 = "tmp" -> P (vis s) -> same s s' ->
  (forall s2, same s s2 -> (removes_work -> files s2 !! tmp = None) -> Q r s2) ->
  ok (Close faults tmp ;; Remove' tmp ;; Ret r)%go Q s'.
Proof.
  intros Ht HP Hs H. apply ok_noop; [by intros s2 a [= <- <-]|by rewrite (proj1 Hs)|]. intros _ s2 Hq%quiet_same.
  eapply discard_ok; [done|done|by eapply same_trans|done].
Qed.

Lemma removeFiles_ok key s :
  P (vis s) ->
  ok (removeFiles faults key) (fun _ s' => index s' = index s /\ (removes_work -> vis s' = drop_files key (vis s))) s.
Proof.
  intros HP. unfold removeFiles, drop_files. destruct (short key); [done|].
  apply ok_remove; [done|]. intros _ s1 Hi1 Hv1 Hf1.
  assert (P (vis s1)) as HP1 by (destruct Hv1 as [->| ->]; auto).
  apply ok_remove; [done|]. intros _ s2 Hi2 Hv2 Hf2.
  assert (P (vis s2)) as HP2 by (destruct Hv2 as [->| ->]; auto).
  split; [done|]. split; [congruence|]. intros HR.
  by rewrite (vis_delete _ _ _ (Hf2 HR)), (vis_delete _ _ _ (Hf1 HR)).
Qed.

Lemma each_removeFiles_ok keys s :
  P (vis s) ->
  ok (each (removeFiles faults) keys) (fun _ s' => index s' = index s /\ (removes_work -> vis s' = drop_all keys (vis s))) s.
Proof.
  revert s. induction keys as [|k keys IH]; intros s HP; [done|]. cbn [each].
  apply safe_bind. eapply safe_mono; [by apply removeFiles_ok|]. intros _ s1 HP1 [Hi1 Hv1].
  eapply safe_mono; [by apply IH|]. intros _ s2 _ [Hi2 Hv2]. split; [congruence|].
  intros HR. rewrite (Hv2 HR), (Hv1 HR). done.
Qed.

Lemma admit_prog_ok key size s :
  P (vis s) ->
  ok (admit_key faults key size) (fun _ s' => index s' = (lru_admit key size (index s)).1 /\
    (removes_work -> vis s' = drop_all (lru_admit key size (index s)).2 (vis s))) s.
Proof. intros HP. split; [done|]. exact (each_removeFiles_ok (lru_admit key size (index s)).2 (on_index (fun l => (lru_admit key size l).1) s) HP). Qed.

Lemma fsyncDir_ok d s : P (vis s) -> ok (fsyncDir faults d) (fun _ s' => same s s') s.
Proof.
  intros HP. unfold fsyncDir.
  assert (forall s', quiet s s' -> P (vis s')) as HPq by (intros s' [-> _]%quiet_same; done).
  apply ok_noop; [|done|].
  { intros s' a. unfold in_dir. case_decide; [|done]. by intros [= <- <-]. }
  intros [[]|] s1 Q1; [|split; [by apply HPq|by apply quiet_same]].
  assert (forall s', quiet s1 s' -> quiet s s') as Hq by (intros s' [E1 E2]; destruct Q1; split; congruence).
  apply ok_noop; [by intros s' a [= <- <-]|by apply HPq|]. intros [[]|] s2 Q2.
  all: apply ok_noop; [by intros s' a [= <- <-]|apply HPq; by apply Hq|]; intros r s3 Q3.
  all: assert (quiet s s3) as Q4 by (apply Hq in Q2; destruct Q2, Q3; split; congruence).
  all: split; [by apply HPq|by apply quiet_same].
Qed.

Lemma atomicWriteRename_ok (p : path) data (tmp : path) s :
  tmp.1 = "tmp" -> p.1 <> "tmp" -> P (vis s) -> (forall t, P (<[p := mkFile data t]> (vis s))) ->
  ok (atomicWriteRename faults p data tmp)
    (fun r s' => index s' = index s /\ if r then exists t, vis s' = <[p := mkFile data t]> (vis s) else vis s' = vis s) s.
Proof.
  intros Ht Hp HP HPi. unfold atomicWriteRename.
  assert (forall s', same s s' -> P (vis s')) as HPs by (intros s' [-> _]; done).
  apply ok_create; [done..|]. intros [[]|] s1 I1 V1 C1; [|by split; [rewrite V1|]]. specialize (C1 eq_refl).
  assert (same s s1) as S1 by done.
  apply ok_write; [done|by apply HPs|]. intros [[]|] s2 I2 V2 C2; [specialize (C2 eq_refl)|].
  all: assert (same s s2) as S2 by (split; congruence).
  2: { by eapply close_discard_ok; [..|intros ? [? ?] _]. }
  rewrite C1 in C2. change (cont (files s2) tmp = Some data) in C2.
  apply ok_noop; [by intros s3 a [= <- <-]|by apply HPs|]. intros [[]|] s3 Q3.
  all: assert (same s s3) as S3 by (eapply same_trans; [done|by apply quiet_same]).
  2: { by eapply close_discard_ok; [..|intros ? [? ?] _]. }
  apply ok_noop; [by intros s4 a [= <- <-]|by apply HPs|]. intros [[]|] s4 Q4.
  all: assert (same s s4) as S4 by (eapply same_trans; [done|by apply quiet_same]).
  2: { by eapply discard_ok; [..|intros ? [? ?] _]. }
  apply ok_rename; [done|done|by apply HPs| |].
  - intros s5 Q5. apply quiet_same in Q5. by eapply discard_ok; [done|done|by eapply same_trans|intros ? [? ?] _].
  - intros s5 b t Hb I5 V5. destruct S4 as [V4 I4]. rewrite V4 in V5.
    destruct Q3 as [E3 _], Q4 as [E4 _]. rewrite E4, E3, C2 in Hb. injection Hb as <-.
    split; [rewrite V5; apply HPi|]. split; [congruence|by eexists].
Qed.

Lemma commit_meta_ok mt w b t s0 s (key := wkey w) :
  short key = false -> cont (files s0) (wtmp w) = Some b -> index s = index s0 -> vis s = <[bodyPath key := mkFile b t]> (vis s0) ->
  P (vis s) -> (forall mb t', marshal mt = Some mb -> P (<[metaPath key := mkFile mb t']> (vis s))) ->
  ok (commit_meta faults marshal mt key) (fun r s' => committed mt w s0 s' r) s.
Proof.
  intros Hk Hb Hi Hv HP HPm. unfold commit_meta.
  assert (forall s1, vis s1 = vis s -> index s1 = index s ->
    ok (Remove' (bodyPath key) ;; Ret false)%go (fun r s' => committed mt w s0 s' r) s1) as Hback.
  { intros s1 V1 I1. apply ok_remove; [by rewrite V1|]. intros _ s2 I2 V2 F2.
    split; [destruct V2 as [->| ->]; rewrite V1; auto|]. apply rolled_back; [congruence|].
    intros HR. left. rewrite (vis_delete _ _ _ (F2 HR)), V1, Hv. apply delete_insert_eq. }
  destruct (marshal mt) as [mb|] eqn:Em; [|by apply Hback].
  apply ok_tempPath; [done|]. intros tmp s1 Ht [V1 I1]%quiet_same.
  apply safe_bind. eapply safe_mono; [apply atomicWriteRename_ok; [done|apply shardDir_tmp|by rewrite V1|]|].
  { intros t'. rewrite V1. by apply HPm. }
  intros [] s2 HP2 [I2 V2]; cbn [negb]; [|apply Hback; congruence]. destruct V2 as [t' V2]. rewrite V1 in V2.
  apply safe_bind. eapply safe_mono; [by apply fsyncDir_ok|]. intros [] s3 HP3 [V3 I3]; cbn [negb].
  - apply safe_bind. eapply safe_mono; [by apply admit_prog_ok|]. intros _ s4 HP4 [I4 V4]. split; [done|].
    assert (index s3 = index s0) as I by congruence. rewrite I in *.
    eapply placed; [done|done|done|]. intros HR. rewrite (V4 HR), V3, V2, Hv. reflexivity.
  - apply safe_bind. eapply safe_mono; [by apply removeFiles_ok|]. intros _ s4 HP4 [I4 V4]. split; [done|].
    apply rolled_back; [congruence|]. intros HR. right. rewrite (V4 HR), V3, V2, Hv.
    unfold drop_files. fold key. rewrite Hk, delete_insert_eq, delete_insert_ne by apply metaPath_bodyPath. apply delete_insert_eq.
Qed.

Lemma Commit_ok mt w s :
  wdone w = false -> short (wkey w) = false -> (wtmp w).1 = "tmp" ->
  P (vis s) -> (forall b t, cont (files s) (wtmp w) = Some b -> P (<[bodyPath (wkey w) := mkFile b t]> (vis s))) ->
  (forall b mb t t', cont (files s) (wtmp w) = Some b -> marshal mt = Some mb ->
     P (<[metaPath (wkey w) := mkFile mb t']> (<[bodyPath (wkey w) := mkFile b t]> (vis s)))) ->
  ok (Commit faults marshal mt w)
    (fun wr s' => wr.1 = mkWriter (wkey w) (wtmp w) true /\ committed mt w s s' wr.2) s.
Proof.
  intros Hd Hk Ht HP HPb HPm. unfold Commit. rewrite Hd. cbn [wtmp wkey].
  assert (forall s', same s s' -> P (vis s')) as HPs by (intros s' [-> _]; done).
  apply ok_noop; [by intros s1 a [= <- <-]|done|]. intros [[]|] s1 Q1.
  all: pose proof (quiet_same _ _ Q1) as S1.
  2: { eapply close_discard_ok; [done..|]. intros s' S' _. split; [done|by apply not_placed]. }
  apply ok_noop; [by intros s2 a [= <- <-]|by apply HPs|]. intros [[]|] s2 Q2.
  all: pose proof (same_trans _ _ _ S1 (quiet_same _ _ Q2)) as S2.
  2: { eapply discard_ok; [done..|]. intros s' S' _. split; [done|by apply not_placed]. }
  apply ok_noop; [by intros s3 a [= <- <-]|by apply HPs|]. intros [[]|] s3 Q3.
  all: pose proof (same_trans _ _ _ S2 (quiet_same _ _ Q3)) as S3.
  2: { eapply discard_ok; [done..|]. intros s' S' _. split; [done|by apply not_placed]. }
  apply ok_rename; [done|apply shardDir_tmp|by apply HPs| |].
  - intros s4 S4%quiet_same. eapply discard_ok; [done|exact HP|by eapply same_trans|].
    intros s' S' _. split; [done|by apply not_placed].
  - intros s4 b t Hb I4 V4. destruct S3 as [V3 I3]. rewrite V3 in V4. apply safe_bind.
    destruct Q1 as [E1 _], Q2 as [E2 _], Q3 as [E3 _]. rewrite E3, E2, E1 in Hb.
    eapply safe_mono; [apply (commit_meta_ok mt w b t s s4)|]; [done|done|congruence|done|rewrite V4; by apply HPb| |].
    { intros mb t' Em. rewrite V4. by apply HPm. }
    intros r s5 HP5 Hc. by split.
Qed.
End Parts.

(** ** Interrupted commits *)

Local Abbreviation Get' := (Get faults unmarshal).
Local Abbreviation Commit' := (Commit faults marshal).
Local Abbreviation entry' := (entry unmarshal).

Lemma outcome_read p s :
  (outcome faults (SReadFile p) (fun s => f ← files s !! p; Some (s, content f)) nothing s).2 = None \/
  (outcome faults (SReadFile p) (fun s => f ← files s !! p; Some (s, content f)) nothing s).2 = cont (files s) p.
Proof.
  unfold outcome, cont. destruct (faults _ _); [by left|]. right. by destruct (files s !! p).
Qed.

Lemma outcome_read_files p s :
  files (outcome faults (SReadFile p) (fun s => f ← files s !! p; Some (s, content f)) nothing s).1 = files s.
Proof. unfold outcome. destruct (faults _ _); [done|]. by destruct (files s !! p). Qed.

(** A lookup that finds something finds the entry of the key. *)
Lemma Get_entry k s x : (run (Get' k) s).2 = Some (Some x) -> entry' (files s) k = Some x.
Proof.
  unfold Get, entry. destruct (short k); [done|]. unfold ReadFile, sys. cbn [bind run].
  destruct (outcome_read (metaPath k) s) as [->| ->]; [done|].
  destruct (cont (files s) (metaPath k)) as [mb|]; [|done]. cbn.
  destruct (unmarshal mb) as [m|]; [|done]. cbn [bind run mbind option_bind].
  set (s1 := (outcome _ _ _ _ s).1). assert (files s1 = files s) as E1 by apply outcome_read_files.
  destruct (outcome_read (bodyPath k) s1) as [->| ->]; [done|]. rewrite E1.
  destruct (cont (files s) (bodyPath k)) as [b|]; [|done]. cbn.
  destruct (Z.of_nat (String.length b) =? Size m); [|done]. cbn. by intros [= <-].
Qed.

(** The files when the commit of [b] under [key] has begun and stopped anywhere. *)
Definition interrupted (mt : Meta) (key b : string) (V0 V : gmap path file) : Prop :=
  (forall k, k <> key -> (cont V (metaPath k) = None \/ cont V (metaPath k) = cont V0 (metaPath k)) /\
                         (cont V (bodyPath k) = None \/ cont V (bodyPath k) = cont V0 (bodyPath k))) /\
  ((cont V (metaPath key) = None \/ cont V (metaPath key) = cont V0 (metaPath key)) /\
   (cont V (bodyPath key) = None \/ cont V (bodyPath key) = cont V0 (bodyPath key) \/ cont V (bodyPath key) = Some b) \/
   exists mb, marshal mt = Some mb /\ cont V (metaPath key) = Some mb /\
     (cont V (bodyPath key) = None \/ cont V (bodyPath key) = Some b)).

Lemma interrupted_delete mt key b V0 p V : interrupted mt key b V0 V -> interrupted mt key b V0 (delete p V).
Proof.
  intros [Ho Hk]. split.
  - intros k Hne. destruct (Ho k Hne) as [Hm Hb].
    destruct (cont_delete V p (metaPath k)) as [->| ->], (cont_delete V p (bodyPath k)) as [->| ->]; auto.
  - destruct (cont_delete V p (metaPath key)) as [->| ->], (cont_delete V p (bodyPath key)) as [->| ->];
      destruct Hk as [[? ?]|(mb & ? & ? & [?|?])]; try (left; by auto 6); right; eauto.
Qed.

Lemma cont_insert_eq V p b t : cont (<[p := mkFile b t]> V) p = Some b.
Proof. unfold cont. by rewrite lookup_insert_eq. Qed.
Lemma cont_insert_ne V p q f : p <> q -> cont (<[p := f]> V) q = cont V q.
Proof. intros H. unfold cont. by rewrite lookup_insert_ne. Qed.

Lemma interrupted_body mt key b V t : interrupted mt key b V (<[bodyPath key := mkFile b t]> V).
Proof.
  split.
  - intros k Hne. rewrite !cont_insert_ne; [tauto|intros E%bodyPath_inj; congruence|apply not_eq_sym, metaPath_bodyPath].
  - left. rewrite cont_insert_eq, cont_insert_ne by apply not_eq_sym, metaPath_bodyPath. tauto.
Qed.

Lemma interrupted_meta mt key b V mb t t' :
  marshal mt = Some mb -> interrupted mt key b V (<[metaPath key := mkFile mb t']> (<[bodyPath key := mkFile b t]> V)).
Proof.
  intros Em. split.
  - intros k Hne. rewrite !cont_insert_ne; [tauto|..];
      first [apply metaPath_bodyPath|apply not_eq_sym, metaPath_bodyPath|intros E%bodyPath_inj; congruence|intros E%metaPath_inj; congruence].
  - right. exists mb. rewrite cont_insert_eq, cont_insert_ne, cont_insert_eq by apply metaPath_bodyPath. auto.
Qed.

Lemma interrupted_served mt key b V0 V k x :
  interrupted mt key b V0 V -> entry' V k = Some x ->
  entry' V0 k = Some x \/
  k = key /\ x.2 = b /\ exists mb, unmarshal mb = Some x.1 /\ (marshal mt = Some mb \/ cont V0 (metaPath k) = Some mb).
Proof.
  intros [Ho Hk] He. unfold entry in *. destruct (short k); [done|].
  destruct (cont V (metaPath k)) as [mb|] eqn:Em; [|done]. cbn in He.
  destruct (unmarshal mb) as [m|] eqn:Eu; [|done]. cbn in He.
  destruct (cont V (bodyPath k)) as [b1|] eqn:Eb; [|done]. cbn in He.
  destruct (Z.of_nat (String.length b1) =? Size m) eqn:El; [|done]. injection He as <-.
  destruct (decide (k = key)) as [->|Hne].
  - rewrite Em, Eb in Hk. destruct Hk as [[[?|E1] [?|[E2|[= <-]]]]|(mb' & ? & [= <-] & [?|[= <-]])]; try done.
    + left. by rewrite <- E1, <- E2; cbn; rewrite Eu; cbn; rewrite El.
    + right. eauto 6.
    + right. eauto 6.
  - left. destruct (Ho k Hne) as [[?|E1] [?|E2]]; try congruence.
    rewrite <- E1, <- E2, Em, Eb. cbn. rewrite Eu. cbn. by rewrite El.
Qed.

(** C10: A commit to disk that is cut short at any point, by a failing call or by the
    end of the process, never exposes a partial entry: what a lookup then finds was
    there before, or is under the committed key with the whole new body, the metadata
    being the new one or else the old one of a body of the same length. *)
Theorem disk_commit_crash n mt w b s k m b' :
  wdone w = false -> short (wkey w) = false -> (wtmp w).1 = "tmp" -> cont (files s) (wtmp w) = Some b ->
  (run (Get' k) (after n (Commit' mt w) s)).2 = Some (Some (m, b')) ->
  entry' (files s) k = Some (m, b') \/
  k = wkey w /\ b' = b /\ Size m = Z.of_nat (String.length b) /\
    exists mb, unmarshal mb = Some m /\ (marshal mt = Some mb \/ cont (files s) (metaPath k) = Some mb).
Proof.
  intros Hd Hk Ht Hb He%Get_entry. rewrite <- entry_vis in *.
  assert (interrupted mt (wkey w) b (vis s) (vis (after n (Commit' mt w) s))) as Hi.
  { eapply (safe_after (fun x => interrupted mt (wkey w) b (vis s) (vis x))).
    apply (Commit_ok _ (interrupted_delete mt (wkey w) b (vis s))); [done..| | |].
    - split; [|left]; tauto.
    - intros b0 t Hb0. rewrite Hb in Hb0. injection Hb0 as <-. apply interrupted_body.
    - intros b0 mb t t' Hb0. rewrite Hb in Hb0. injection Hb0 as <-. apply interrupted_meta. }
  pose proof (entry_size _ _ _ _ _ He) as Hl.
  destruct (interrupted_served _ _ _ _ _ _ _ Hi He) as [?|(-> & <- & mb & Hu & Hm)]; [by left|].
  right. split_and!; [done|done|done|]. exists mb. split; [done|].
  unfold cont in *. by rewrite vis_lookup in Hm by apply shardDir_tmp.
Qed.

(** ** Finished commits *)

Lemma commit_run mt w s s' w' ok :
  wdone w = false -> short (wkey w) = false -> (wtmp w).1 = "tmp" ->
  run (Commit' mt w) s = (s', Some (w', ok)) -> w' = mkWriter (wkey w) (wtmp w) true /\ committed mt w s s' ok.
Proof.
  intros Hd Hk Ht Hr.
  exact (safe_run (fun _ => True) _ _ _ _ _ (Commit_ok (fun _ => True) (fun _ _ _ => I) mt w s Hd Hk Ht I
    (fun _ _ _ => I) (fun _ _ _ _ _ _ => I)) Hr).
Qed.

(** What the entries are after a commit that reports [ok]. *)
Definition commit_post (mt : Meta) (key b : string) (s s' : DiskStorage) (ok : bool) : Prop :=
  if ok then
    exists mb, marshal mt = Some mb /\ forall k,
      entry' (files s') k =
        if decide (k ∈ (lru_admit key (Size mt) (index s)).2) then None
        else if decide (k = key) then m ← unmarshal mb; if Z.of_nat (String.length b) =? Size m then Some (m, b) else None
        else entry' (files s) k
  else index s' = index s /\ forall k, entry' (files s') k = entry' (files s) k \/ k = key /\ entry' (files s') k = None.

Lemma committed_post mt w b s s' ok (key := wkey w) :
  removes_work -> short key = false -> cont (files s) (wtmp w) = Some b ->
  committed mt w s s' ok -> commit_post mt key b s s' ok.
Proof.
  subst key. intros HR Hk Hb Hc. unfold commit_post. destruct Hc as [[HV HI]|HI HV|b' mb t t' Hb' Em HI HV];
    [| |rewrite Hb in Hb'; injection Hb' as <-].
  - split; [done|]. intros k. left. by rewrite <- !entry_vis, HV.
  - split; [done|]. intros k. rewrite <- !entry_vis. destruct (decide (k = wkey w)) as [->|Hne].
    + right. split; [done|]. apply entry_no_body. unfold cont.
      destruct (HV HR) as [->| ->]; [|unfold drop_files; rewrite Hk]; by rewrite lookup_delete_eq.
    + left. destruct (HV HR) as [->| ->]; [|by apply entry_drop_files_ne].
      apply entry_ext; unfold cont; rewrite lookup_delete_ne; try done;
        [apply not_eq_sym, metaPath_bodyPath|by intros E%bodyPath_inj].
  - exists mb. split; [done|]. intros k. rewrite <- !entry_vis, (HV HR), entry_drop_all. case_decide; [done|].
    case_decide as Hkk.
    + subst k. unfold entry. by rewrite Hk, cont_insert_eq, cont_insert_ne, cont_insert_eq by apply metaPath_bodyPath.
    + apply entry_ext; rewrite !cont_insert_ne; try done;
        first [apply metaPath_bodyPath|apply not_eq_sym, metaPath_bodyPath|by intros E%bodyPath_inj|by intros E%metaPath_inj].
Qed.

(** A commit to disk that reports an error has changed no other entry, and its
    own key reads as before or as a miss; one that reports success has made the new
    entry visible under its key, has removed exactly the entries the byte cap evicts,
    and has changed nothing else. *)
Theorem disk_commit_result mt w b s s' w' ok :
  removes_work ->
  wdone w = false -> short (wkey w) = false -> (wtmp w).1 = "tmp" -> cont (files s) (wtmp w) = Some b ->
  run (Commit' mt w) s = (s', Some (w', ok)) -> commit_post mt (wkey w) b s s' ok.
Proof.
  intros HR Hd Hk Ht Hb Hr. apply committed_post; [done..|]. by eapply commit_run.
Qed.
End Facts.
End DiskFacts.
