(* ===== verification/DiskCap.v ===== *)
(** * pkg/cache: the byte cap of the disk backend

    The bodies on disk are charged to the index: after any sequence of complete method
    calls they fit the cap, whatever calls of the file system fail as long as removals
    do not.  The scan at start-up charges what an earlier process left. *)

From stdpp Require Import pretty sorting.
From S2P Require Import Prelude Concurrency Lru Memory CacheServe Disk DiskFacts.

Module DiskCap.
Import Lru LruFacts Disk DiskFacts.

(** ** Bodies and the index *)

Definition body_charge (pf : path * file) : option (string * Z) :=
  (fun k => (k, Z.of_nat (String.length (content pf.2)))) <$> CutSuffix ".body" pf.1.2.

(** The bytes of all body files. *)
Definition body_bytes (V : gmap path file) : Z := total (omap body_charge (map_to_list V)).

(** Every body file is where its key puts it and is charged, to the byte. *)
Definition charged (V : gmap path file) (e : list (string * Z)) : Prop :=
  forall p f kz, V !! p = Some f -> body_charge (p, f) = Some kz -> p = bodyPath kz.1 /\ short kz.1 = false /\ kz ∈ e.

Lemma body_charge_eq p f kz :
  body_charge (p, f) = Some kz -> p.2 = kz.1 +:+ ".body" /\ kz.2 = Z.of_nat (String.length (content f)).
Proof. unfold body_charge. cbn. intros (k & E%CutSuffix_Some & ->)%fmap_Some. done. Qed.

Lemma body_charge_body k f : body_charge (bodyPath k, f) = Some (k, Z.of_nat (String.length (content f))).
Proof. unfold body_charge. cbn [fst snd bodyPath]. by rewrite CutSuffix_app. Qed.

Lemma body_charge_meta k f : body_charge (metaPath k, f) = None.
Proof.
  destruct (body_charge _) as [kz|] eqn:E; [|done]. apply body_charge_eq in E as [E _]. by apply meta_not_body in E.
Qed.

Lemma charged_bytes V e :
  NoDup e.*1 -> Forall (fun kz => 0 <= kz.2) e -> charged V e -> body_bytes V <= total e.
Proof.
  revert e. induction V as [|p f V Hp IH] using map_ind; intros e Hn Hs Hc.
  - unfold body_bytes. rewrite map_to_list_empty. cbn. clear Hn Hc. induction Hs as [|[k z] e Hz _ IHe]; [done|].
    rewrite total_cons. cbn in *. unfold total in *. cbn in *. lia.
  - unfold body_bytes. rewrite (total_perm _ (omap body_charge ((p, f) :: map_to_list V))); last first.
    { apply omap_Permutation. by apply map_to_list_insert. }
    assert (charged V e) as HcV.
    { intros q g kz Hq. apply (Hc q g kz). rewrite lookup_insert_ne; [done|]. intros ->. by rewrite Hp in Hq. }
    cbn [omap list_omap]. destruct (body_charge (p, f)) as [[k z]|] eqn:Eb; [|by apply IH].
    destruct (Hc p f (k, z) (lookup_insert_eq _ _ _) Eb) as (-> & Hk & (e1 & e2 & ->)%list_elem_of_split).
    rewrite total_cons.
    assert (body_bytes V <= total (e1 ++ e2)) as Hle.
    { apply IH.
      - rewrite fmap_app, fmap_cons in Hn. rewrite fmap_app.
        revert Hn. rewrite !NoDup_app, NoDup_cons. set_solver.
      - revert Hs. rewrite !Forall_app, Forall_cons. tauto.
      - intros q g kz Hq Ekz. destruct (HcV q g kz Hq Ekz) as (-> & Hk' & Hin). split_and!; [done..|].
        apply elem_of_app in Hin as [?|[->|?]%elem_of_cons]; [set_solver| |set_solver].
        by rewrite Hp in Hq. }
    unfold body_bytes in Hle. rewrite total_app, total_cons. rewrite total_app in Hle. lia.
Qed.

Lemma charged_delete V e p : charged V e -> charged (delete p V) e.
Proof. intros Hc q f kz [_ Hq]%lookup_delete_Some. by apply Hc. Qed.

Lemma charged_mono V e e' : (forall kz, kz ∈ e -> kz ∈ e') -> charged V e -> charged V e'.
Proof. intros He Hc p f kz Hp Hkz. destruct (Hc p f kz Hp Hkz) as (? & ? & ?). auto. Qed.

(** ** Admission *)

Lemma spec_admit_keeps max key size e e' victims :
  0 <= max -> spec_admit max key size e = (e', victims) ->
  forall kz, kz ∈ (key, size) :: without key e -> kz ∈ e' \/ kz.1 ∈ victims.
Proof.
  intros Hm. unfold spec_admit. case_match.
  - intros [= <- <-] kz [->|Hin]%elem_of_cons; [right; set_solver|by left].
  - destruct (fit max (reverse ((key, size) :: without key e))) as [kept v] eqn:Ef. intros [= <- <-] kz Hin.
    destruct (fit_spec max (reverse ((key, size) :: without key e)) Hm) as (out & E & Hv & _). rewrite Ef in *. cbn [fst snd] in *.
    apply elem_of_reverse in Hin. rewrite E in Hin. apply elem_of_app in Hin as [Hin|Hin].
    + right. rewrite Hv. apply list_elem_of_fmap. eauto.
    + left. by apply elem_of_reverse.
Qed.

Lemma drop_all_sub keys V : drop_all keys V ⊆ V.
Proof.
  unfold drop_all. revert V. induction keys as [|k keys IH]; intros V; cbn; [done|]. etrans; [apply IH|].
  unfold drop_files. destruct (short k); [done|]. etrans; apply delete_subseteq.
Qed.

Lemma drop_all_body keys V k f :
  short k = false -> drop_all keys V !! bodyPath k = Some f -> k ∉ keys.
Proof.
  unfold drop_all. revert V. induction keys as [|k' keys IH]; intros V Hk Hl; [set_solver|]. cbn in Hl.
  apply not_elem_of_cons. split; [|by eapply IH]. intros ->.
  pose proof (drop_all_sub keys (drop_files k' V)) as Hs. unfold drop_all in Hs.
  eapply lookup_weaken in Hl; [|exact Hs]. unfold drop_files in Hl. rewrite Hk in Hl.
  by rewrite lookup_delete_eq in Hl.
Qed.

Lemma charged_sub V V' e : V' ⊆ V -> charged V e -> charged V' e.
Proof. intros Hs Hc p f kz Hp. apply Hc. by eapply lookup_weaken. Qed.

(** Charging a key and dropping the victims, when its own body has the charged size. *)
Lemma charged_admit l key size V V0 :
  wf (lmax l) l -> 0 <= size -> 0 <= lmax l < 2 ^ 62 -> short key = false -> charged V0 (abs l) ->
  (forall p f kz, V !! p = Some f -> body_charge (p, f) = Some kz ->
     p = bodyPath key /\ kz = (key, size) \/ p <> bodyPath key /\ V0 !! p = Some f) ->
  charged (drop_all (lru_admit key size l).2 V) (abs (lru_admit key size l).1).
Proof.
  intros W Hs Hm Hk Hc HV p f kz Hp Ekz. pose proof (admit_ok l key size W Hs Hm) as Ha.
  destruct (lru_admit key size l) as [l' victims]. destruct Ha as (_ & _ & Ha). cbn [fst snd] in *.
  pose proof (lookup_weaken _ _ _ _ Hp (drop_all_sub _ _)) as HpV.
  assert (p = bodyPath kz.1 /\ short kz.1 = false /\ kz ∈ (key, size) :: without key (abs l)) as (-> & Hk' & Hin).
  { destruct (HV p f kz HpV Ekz) as [[-> ->]|[Hne Hp0]]; [split_and!; [done..|set_solver]|].
    destruct (Hc p f kz Hp0 Ekz) as (-> & ? & ?). split_and!; [done..|]. apply elem_of_cons. right.
    apply list_elem_of_filter. split; [|done]. congruence. }
  split_and!; [done..|].
  destruct (spec_admit_keeps _ _ _ _ _ _ (proj1 Hm) Ha kz Hin) as [?|Hv]; [done|].
  by apply drop_all_body in Hp.
Qed.

Lemma spec_touch_in key e kz : NoDup e.*1 -> kz ∈ e -> kz ∈ spec_touch key e.
Proof.
  intros Hn Hin. unfold spec_touch. destruct (head _) as [kv|] eqn:Eh; [|done].
  apply elem_of_cons. destruct (decide (kz.1 = key)) as [Hk|Hk].
  - left. assert (kv ∈ filter (fun kv => kv.1 = key) e) as [Hk' Hin']%list_elem_of_filter by (destruct (filter _ e); set_solver).
    destruct kz as [k z], kv as [k' z']. cbn in *. subst. f_equal.
    apply (elem_of_list_to_map_1 (M := gmap string)) in Hin, Hin'; [|done..]. congruence.
  - right. by apply list_elem_of_filter.
Qed.

Lemma wf_nodup B l : wf B l -> NoDup (abs l).*1.
Proof. intros W. unfold abs. rewrite <- list_fmap_compose. exact (wf_keys _ _ W). Qed.

Section Calls.
Context (faults : nat -> syscall -> option nat).
Context (marshal : Meta -> option string) (unmarshal : string -> option Meta).
Context (removal : removes_work faults).

(** ** Complete calls, in any order *)

(** The storage with the writers it has handed out; a commit is of the size that was
    written. *)
Inductive dstep : DiskStorage * list diskWriter -> DiskStorage * list diskWriter -> Prop :=
  | step_clock s ws t : dstep (s, ws) (set_wall t s, ws)
  | step_get s ws k : dstep (s, ws) ((run (Get faults unmarshal k) s).1, ws)
  | step_delete s ws k : dstep (s, ws) ((run (Delete faults k) s).1, ws)
  | step_writer s ws k s' w : run (Writer faults k) s = (s', Some w) -> dstep (s, ws) (s', ws ++ option_list w)
  | step_write s ws i w p : ws !! i = Some w -> dstep (s, ws) ((run (Write faults p w) s).1, ws)
  | step_commit s ws i w mt s' w' ok :
      ws !! i = Some w ->
      (forall b, wdone w = false -> cont (files s) (wtmp w) = Some b -> Size mt = Z.of_nat (String.length b)) ->
      run (Commit faults marshal mt w) s = (s', Some (w', ok)) -> dstep (s, ws) (s', <[i := w']> ws)
  | step_abort s ws i w s' w' :
      ws !! i = Some w -> run (AbortWriter faults w) s = (s', Some w') -> dstep (s, ws) (s', <[i := w']> ws).

Definition writer_ok (w : diskWriter) : Prop := (wtmp w).1 = "tmp" /\ short (wkey w) = false.

Record capped (max : Z) (c : DiskStorage * list diskWriter) : Prop := {
  capped_wf : wf max (index c.1);
  capped_max : lmax (index c.1) = max;
  capped_charged : charged (vis c.1) (abs (index c.1));
  capped_writers : Forall writer_ok c.2;
}.

Lemma capped_same max s ws s' ws' :
  same s s' -> Forall writer_ok ws' -> capped max (s, ws) -> capped max (s', ws').
Proof. intros [EV EI] Hw [? ? ? _]. by split; cbn in *; rewrite ?EI, ?EV. Qed.

Definition T (V : gmap path file) : Prop := True.

Lemma Get_effect k s :
  same s (run (Get faults unmarshal k) s).1 \/
  vis (run (Get faults unmarshal k) s).1 = vis s /\ index (run (Get faults unmarshal k) s).1 = touch k (index s).
Proof.
  unfold Get. destruct (short k); [by left|].
  assert (forall p s0, quiet s0 (outcome faults (SReadFile p) (fun s => f ← files s !! p; Some (s, content f)) nothing s0).1) as Hq.
  { intros p s0. unfold outcome. destruct (faults _ _); [done|]. by destruct (files s0 !! p). }
  unfold ReadFile, sys. cbn [bind run]. pose proof (Hq (metaPath k) s) as H1.
  destruct (outcome _ _ _ _ s) as [s1 r1]. cbn in *. apply quiet_same in H1.
  destruct r1 as [mb|]; [|by left]. destruct (unmarshal mb) as [m|]; [|by left]. cbn [bind run].
  pose proof (Hq (bodyPath k) s1) as H2. destruct (outcome _ _ _ _ s1) as [s2 r2]. cbn in *. apply quiet_same in H2.
  pose proof (same_trans _ _ _ H1 H2) as H3. destruct r2 as [b|]; [|by left]. destruct (negb _); [by left|].
  right. destruct H3 as [EV EI]. cbn. by rewrite <- EI.
Qed.

Lemma Delete_effect k s :
  same s (run (Delete faults k) s).1 \/
  short k = false /\ vis (run (Delete faults k) s).1 = drop_files k (vis s) /\
  index (run (Delete faults k) s).1 = remove k (index s).
Proof.
  unfold Delete. destruct (short k) eqn:Hk; [by left|right]. rewrite run_bind.
  pose proof (removeFiles_ok faults T (fun _ _ _ => I) k s I) as H.
  destruct (run (removeFiles faults k) s) as [s1 [[]|]] eqn:E.
  - destruct (safe_run _ _ _ _ _ _ H E) as [HI HV]. cbn. by rewrite HI, <- (HV removal).
  - exfalso. unfold removeFiles in E. rewrite Hk in E. done.
Qed.

Lemma Writer_effect k s s' w : run (Writer faults k) s = (s', Some w) -> same s s' /\ Forall writer_ok (option_list w).
Proof.
  unfold Writer. destruct (short k) eqn:Hk; [by intros [= <- <-]|].
  assert (safe (fun x => T (vis x)) (tmp <- tempPath k ;; f <- Create faults tmp ;;
    match f with None => Ret None | Some _ => Ret (Some (mkWriter k tmp false)) end)%go
    (fun w s' => same s s' /\ Forall writer_ok (option_list w)) s) as H; [|intros E; exact (safe_run _ _ _ _ _ _ H E)].
  apply ok_tempPath; [done|]. intros tmp s1 Ht S1%quiet_same. apply ok_create; [done..|].
  intros r s2 I2 V2 _. assert (same s s2) by (destruct S1; split; congruence).
  destruct r; (split; [exact I|]); (split; [done|]); by repeat constructor.
Qed.

Lemma Write_effect p w s : writer_ok w -> same s (run (Write faults p w) s).1.
Proof.
  intros [Ht _]. unfold Write. destruct (wdone w); [done|]. cbn. unfold outcome.
  destruct (faults (calls s) (SWrite (wtmp w))); (split; [|done]); apply vis_ext; intros q Hq; apply lookup_alter_ne; congruence.
Qed.

Lemma Abort_effect w s s' w' : writer_ok w -> run (AbortWriter faults w) s = (s', Some w') -> same s s' /\ writer_ok w'.
Proof.
  intros Hw. unfold AbortWriter. destruct (wdone w); [by intros [= <- <-]|]. intros E.
  refine (safe_run (fun x => T (vis x)) _ (fun w' s' => same s s' /\ writer_ok w') _ _ _ _ E).
  eapply (close_discard_ok faults T); [apply Hw|done|done|]. intros s2 S2 _. split; [exact S2|exact Hw].
Qed.

Lemma capped_commit max s ws i w mt s' w' ok :
  0 <= max < 2 ^ 62 -> capped max (s, ws) -> ws !! i = Some w ->
  (forall b, wdone w = false -> cont (files s) (wtmp w) = Some b -> Size mt = Z.of_nat (String.length b)) ->
  run (Commit faults marshal mt w) s = (s', Some (w', ok)) -> capped max (s', <[i := w']> ws).
Proof.
  intros Hm Hc Hi Hsz Hr.
  assert (writer_ok w) as [Ht Hk] by (eapply Forall_lookup_1; [apply (capped_writers _ _ Hc)|exact Hi]).
  destruct (wdone w) eqn:Hd.
  { unfold Commit in Hr. rewrite Hd in Hr. injection Hr as <- <- <-. by rewrite list_insert_id. }
  destruct (commit_run faults marshal unmarshal mt w s s' w' ok Hd Hk Ht Hr) as [-> Hpost].
  assert (Forall writer_ok (<[i := mkWriter (wkey w) (wtmp w) true]> ws)) as Hws
    by (apply Forall_insert; [apply (capped_writers _ _ Hc)|done]).
  destruct Hpost as [Hs|HI HV|b mb t t' Hb Em HI HV].
  - by apply (capped_same max s ws).
  - destruct Hc as [W HM HC _]. cbn [fst snd] in *. split; cbn; rewrite ?HI; try done.
    destruct (HV removal) as [->| ->]; [by apply charged_delete|].
    unfold drop_files. rewrite Hk. by do 2 apply charged_delete.
  - destruct Hc as [W HM HC _]. cbn [fst snd] in *. specialize (Hsz b eq_refl Hb). subst max.
    pose proof (admit_ok (index s) (wkey w) (Size mt) W ltac:(lia) Hm) as Ha.
    destruct (lru_admit (wkey w) (Size mt) (index s)) as [l' victims] eqn:El. destruct Ha as (W' & HM' & _). cbn [fst snd] in HI.
    split; cbn; rewrite ?HI; try done. rewrite (HV removal).
    pose proof (charged_admit (index s) (wkey w) (Size mt)) as Hca. rewrite El in Hca. cbn [fst snd] in *.
    apply (Hca _ (vis s)); [done|lia|done|done|done|].
    intros p f kz Hp Ekz. destruct (decide (p = metaPath (wkey w))) as [->|Hne].
    { by rewrite body_charge_meta in Ekz. }
    rewrite lookup_insert_ne in Hp by done. destruct (decide (p = bodyPath (wkey w))) as [->|Hne'].
    + rewrite lookup_insert_eq in Hp. injection Hp as <-. left. split; [done|].
      rewrite body_charge_body in Ekz. injection Ekz as <-. by rewrite Hsz.
    + rewrite lookup_insert_ne in Hp by done. by right.
Qed.

Lemma capped_step max c c' : 0 <= max < 2 ^ 62 -> dstep c c' -> capped max c -> capped max c'.
Proof.
  intros Hm Hst Hc. destruct Hst as [s ws t|s ws k|s ws k|s ws k s' w Hr|s ws i w p Hi|s ws i w mt s' w' ok Hi Hsz Hr|s ws i w s' w' Hi Hr].
  - by apply (capped_same max s ws); [|apply (capped_writers _ _ Hc)|].
  - destruct (Get_effect k s) as [Hs|[HV HI]]; [by apply (capped_same max s ws); [|apply (capped_writers _ _ Hc)|]|].
    destruct Hc as [W HM HC Hw]. cbn [fst snd] in *. destruct (touch_ok max (index s) k W) as [W' Ha].
    split; cbn; rewrite ?HI, ?HV; try done.
    + unfold touch. by destruct (items (index s) !! k).
    + rewrite Ha. eapply charged_mono; [|exact HC]. intros kz. apply spec_touch_in. by eapply wf_nodup.
  - destruct (Delete_effect k s) as [Hs|(Hk & HV & HI)]; [by apply (capped_same max s ws); [|apply (capped_writers _ _ Hc)|]|].
    destruct Hc as [W HM HC Hw]. cbn [fst snd] in *. subst max. destruct (remove_ok (index s) k W Hm) as (W' & HM' & Ha).
    split; cbn; rewrite ?HI, ?HV; try done. rewrite Ha. intros p f kz Hp Ekz.
    unfold drop_files in Hp. rewrite Hk in Hp. apply lookup_delete_Some in Hp as [Hne [_ Hp]%lookup_delete_Some].
    destruct (HC p f kz Hp Ekz) as (-> & ? & ?). split_and!; [done..|]. apply list_elem_of_filter. split; [congruence|done].
  - destruct (Writer_effect k s s' w Hr) as [Hs Hw]. apply (capped_same max s ws); [done| |done].
    apply Forall_app. split; [apply (capped_writers _ _ Hc)|done].
  - apply (capped_same max s ws); [|apply (capped_writers _ _ Hc)|done]. apply Write_effect.
    eapply Forall_lookup_1; [apply (capped_writers _ _ Hc)|exact Hi].
  - by eapply capped_commit.
  - destruct (Abort_effect w s s' w') as [Hs Hw]; [|done|].
    { eapply Forall_lookup_1; [apply (capped_writers _ _ Hc)|exact Hi]. }
    apply (capped_same max s ws); [done| |done]. apply Forall_insert; [apply (capped_writers _ _ Hc)|done].
Qed.

(** C13: The bodies on disk fit the byte cap after every sequence of complete calls,
    with any number of writers open at once and any calls of the file system failing
    but removals. *)
Theorem disk_within_cap max c c' :
  0 <= max < 2 ^ 62 -> capped max c -> rtc dstep c c' -> capped max c' /\ body_bytes (vis c'.1) <= max.
Proof.
  intros Hm Hc Hr. assert (capped max c') as Hc'.
  { induction Hr as [|c1 c2 c3 Hst _ IH]; [done|]. apply IH. by eapply capped_step. }
  split; [done|]. destruct Hc' as [W HM HC _]. etrans; [|exact (wf_bound _ _ W)].
  apply charged_bytes; [by eapply wf_nodup| |done].
  unfold abs. apply Forall_fmap. exact (wf_sizes _ _ W).
Qed.
End Calls.
End DiskCap.
