(* ===== verification/DiskScan.v ===== *)
(** * pkg/cache: the start-up scan of the disk backend

    On a directory that an earlier process left, the scan charges every entry that can
    still be served to the byte cap and removes what it cannot use, unless it is too
    young. *)

From stdpp Require Import pretty sorting.
From S2P Require Import Prelude Concurrency Lru Memory CacheServe Disk DiskFacts DiskCap.

Module DiskScan.
Import Lru LruFacts Disk DiskFacts DiskCap.

Section Scan.
Context (faults : nat -> syscall -> option nat) (unmarshal : string -> option Meta).
Context (nofaults : no_faults faults) (now : Z).

Definition young (f : file) : Prop := time_sub now (mtime f) < reapMinAge.
#[export] Instance young_dec f : Decision (young f) := decide (time_sub now (mtime f) < reapMinAge).

Local Abbreviation ok p Q s := (safe (fun x => T (vis x)) p Q s).
Local Abbreviation entry' := (entry unmarshal).

(** ** Calls without faults *)

(** Nothing changes: neither what readers see nor the temporary files. *)
Definition tmps (s : DiskStorage) : gmap path file := filter (fun pf => pf.1.1 = "tmp") (files s).
Definition fixed (s s' : DiskStorage) : Prop := same s s' /\ dirs s' = dirs s /\ tmps s' = tmps s.

Lemma fixed_refl s : fixed s s.
Proof. done. Qed.
Lemma fixed_trans s1 s2 s3 : fixed s1 s2 -> fixed s2 s3 -> fixed s1 s3.
Proof. intros (E1 & E2 & E3) (F1 & F2 & F3). split; [by eapply same_trans|]. split; congruence. Qed.

Lemma tmps_lookup s n : tmps s !! ("tmp", n) = files s !! ("tmp", n).
Proof.
  unfold tmps. destruct (files s !! ("tmp", n)) as [f|] eqn:E.
  - by apply map_lookup_filter_Some.
  - apply map_lookup_filter_None. by left.
Qed.

Lemma tmps_delete s s' (p : path) : files s' = delete p (files s) -> tmps s' = delete p (tmps s).
Proof. intros E. unfold tmps. by rewrite E, map_filter_delete. Qed.

Lemma tmps_delete_vis s (p : path) : p.1 <> "tmp" -> delete p (tmps s) = tmps s.
Proof. intros H. apply delete_id, map_lookup_filter_None. right. cbn. tauto. Qed.

Lemma ok_look {A B} c (act : DiskStorage -> option A) (f : option A -> prog DiskStorage B) Q s :
  (forall s', fixed s s' -> ok (f (act s)) Q s') ->
  ok (bind (sys faults c (fun s => a ← act s; Some (s, a)) nothing) f) Q s.
Proof.
  intros H. apply ok_sys; [exact I|]. unfold outcome. rewrite nofaults.
  destruct (act s) eqn:E; cbn; rewrite ?E; by apply H.
Qed.

Lemma look_ext {A} c (act act' : DiskStorage -> option (DiskStorage * A)) s :
  act s = act' s -> outcome faults c act nothing s = outcome faults c act' nothing s.
Proof. intros E. unfold outcome. by rewrite E. Qed.

Lemma ok_read {B} p (f : option string -> prog DiskStorage B) Q s :
  (forall s', fixed s s' -> ok (f (cont (files s) p)) Q s') -> ok (bind (ReadFile faults p) f) Q s.
Proof.
  intros H. apply ok_sys; [exact I|]. rewrite (look_ext _ _ (fun s => a ← cont (files s) p; Some (s, a)));
    [|unfold cont; by destruct (files s !! p)].
  unfold outcome. rewrite nofaults. destruct (cont (files s) p) eqn:E; cbn; by apply H.
Qed.

Lemma ok_stat {B} p (f : option file -> prog DiskStorage B) Q s :
  (forall s', fixed s s' -> ok (f (files s !! p)) Q s') -> ok (bind (Stat faults p) f) Q s.
Proof. apply (ok_look (SStat p) (fun s => files s !! p)). Qed.

Lemma ok_readdir {B} d (f : option (list string) -> prog DiskStorage B) Q s :
  (forall s', fixed s s' -> ok (f (if decide (d ∈ dirs s) then Some (names d s) else None)) Q s') ->
  ok (bind (ReadDir faults d) f) Q s.
Proof.
  intros H. apply ok_sys; [exact I|]. unfold outcome. rewrite nofaults. case_decide; by apply H.
Qed.

(** ** Reaping *)

Definition reap (p : path) (V : gmap path file) : gmap path file :=
  match V !! p with
  | Some f => if decide (young f) then V else delete p V
  | None => V
  end.

Lemma reap_ne (p q : path) V : p <> q -> reap p V !! q = V !! q.
Proof. intros H. unfold reap. repeat case_match; try done. by apply lookup_delete_ne. Qed.

Lemma reap_sub p V : reap p V ⊆ V.
Proof. unfold reap. repeat case_match; try done. apply delete_subseteq. Qed.

Lemma reap_self (p : path) (V V' : gmap path file) : V !! p = V' !! p -> reap p V !! p = reap p V' !! p.
Proof.
  intros E. unfold reap. rewrite E. destruct (V' !! p) as [f|] eqn:E'; [|congruence].
  case_decide; [congruence|]. by rewrite !lookup_delete_eq.
Qed.

Lemma reap_spec (p : path) V f : reap p V !! p = Some f <-> V !! p = Some f /\ young f.
Proof.
  unfold reap. destruct (V !! p) as [g|] eqn:E; [|rewrite E; naive_solver].
  case_decide; [rewrite E|rewrite lookup_delete_eq]; naive_solver.
Qed.

Lemma reapIfStale_all (p : path) s :
  ok (reapIfStale faults p now)
    (fun _ s' => index s' = index s /\ dirs s' = dirs s /\ (exists s1, files s1 = files s /\ files s' = reap p (files s1))) s.
Proof.
  unfold reapIfStale. apply ok_sys; [exact I|]. unfold outcome at 1 2. rewrite nofaults. unfold reap.
  destruct (files s !! p) as [fi|] eqn:Ef; cbn [mbind option_bind fst snd].
  - destruct (Z.leb_spec reapMinAge (time_sub now (mtime fi))) as [Hle|Hlt].
    + apply ok_sys; [exact I|]. unfold outcome. rewrite nofaults. split; [exact I|].
      cbn [tick files]. rewrite Ef. cbn. split_and!; [done..|]. exists s. split; [done|].
      rewrite Ef, decide_False by (unfold young; lia). done.
    + split; [exact I|]. split_and!; [done..|]. exists s. split; [done|]. by rewrite Ef, decide_True.
  - split; [exact I|]. split_and!; [done..|]. exists s. split; [done|]. by rewrite Ef.
Qed.

Lemma vis_reap s s' (p : path) : files s' = reap p (files s) ->
  vis s' = if decide (p.1 = "tmp") then vis s else reap p (vis s).
Proof.
  intros E. unfold reap in *. case_decide as Hp.
  - repeat case_match; try (unfold vis; by rewrite E). rewrite <- (vis_delete_tmp s p Hp). by apply vis_delete.
  - rewrite vis_lookup by done. repeat case_match; try (unfold vis; by rewrite E). by apply vis_delete.
Qed.

Lemma tmps_reap s s' (p : path) : files s' = reap p (files s) ->
  tmps s' = if decide (p.1 = "tmp") then reap p (tmps s) else tmps s.
Proof.
  intros E. case_decide as Hp.
  - assert (tmps s !! p = files s !! p) as Ep by (destruct p; cbn in Hp; subst; apply tmps_lookup).
    unfold reap in *. rewrite Ep. revert E. destruct (files s !! p) as [g|]; [destruct (decide (young g))|]; intros E;
      [unfold tmps; by rewrite E|by apply tmps_delete|unfold tmps; by rewrite E].
  - unfold reap in E. repeat case_match; try (unfold tmps; by rewrite E).
    rewrite <- (tmps_delete_vis s p Hp). by apply tmps_delete.
Qed.

Lemma reapIfStale_ok (p : path) s :
  p.1 <> "tmp" ->
  ok (reapIfStale faults p now)
    (fun _ s' => index s' = index s /\ dirs s' = dirs s /\ vis s' = reap p (vis s) /\ tmps s' = tmps s) s.
Proof.
  intros Hp. eapply safe_mono; [apply reapIfStale_all|]. intros _ s' _ (E1 & E2 & s1 & E3 & E4).
  split_and!; [done..| |].
  - rewrite (vis_reap s s' p) by congruence. by rewrite decide_False.
  - rewrite (tmps_reap s s' p) by congruence. by rewrite decide_False.
Qed.

(** The temporary files in a list: only the young ones are left. *)
Lemma reap_tmp_ok l s :
  ok (each (fun name => reapIfStale faults ("tmp", name) now) l)
    (fun _ s' => same s s' /\ dirs s' = dirs s /\
       forall n f, tmps s' !! ("tmp", n) = Some f <-> tmps s !! ("tmp", n) = Some f /\ (n ∈ l -> young f)) s.
Proof.
  revert s. induction l as [|x l IH]; intros s; [split; [exact I|]; split_and!; [done..|]; set_solver|].
  cbn [each]. apply safe_bind. eapply safe_mono; [apply reapIfStale_all|]. intros _ s1 _ (I1 & D1 & s2 & E1 & E2).
  assert (vis s1 = vis s /\ tmps s1 = reap ("tmp", x) (tmps s)) as [V1 T1].
  { rewrite (vis_reap s s1 ("tmp", x)), (tmps_reap s s1 ("tmp", x)) by congruence. done. }
  eapply safe_mono; [apply IH|]. intros a s3 HT ((V3 & I3) & D3 & T3). split_and!; [split; congruence|congruence|].
  intros n f. rewrite T3, T1. destruct (decide (n = x)) as [->|Hn].
  - rewrite reap_spec. set_solver.
  - rewrite reap_ne by congruence. set_solver.
Qed.

(** The two files of a key. *)
Lemma reap_both_ok k s :
  ok (reapIfStale faults (metaPath k) now ;; reapIfStale faults (bodyPath k) now)%go
    (fun _ s' => index s' = index s /\ dirs s' = dirs s /\ vis s' = reap (bodyPath k) (reap (metaPath k) (vis s)) /\
       tmps s' = tmps s) s.
Proof.
  apply safe_bind. eapply safe_mono; [apply reapIfStale_ok, shardDir_tmp|]. intros _ s1 _ (I1 & D1 & V1 & T1).
  eapply safe_mono; [apply reapIfStale_ok, shardDir_tmp|]. intros _ s2 _ (I2 & D2 & V2 & T2). split_and!; congruence.
Qed.

(** ** The invariant of the scan *)

Context (max : Z) (max_ok : 0 <= max < 2 ^ 62).

(** Files are where their key puts them, in directories that exist. *)
Definition tidy (s : DiskStorage) : Prop :=
  forall p f, vis s !! p = Some f -> p.1 ∈ dirs s /\ exists k, short k = false /\ (p = bodyPath k \/ p = metaPath k).

Definition intact (s : DiskStorage) (k : string) (m : Meta) (b : string) : Prop :=
  entry' (vis s) k = Some (m, b) /\ now <= CacheServe.serveableUntil m.

(** The two files of a key. *)
Definition file_of (k : string) (p : path) : Prop := p = metaPath k \/ p = bodyPath k.

(** The entries of the list charged to an empty index of the cap, one after another: the
    specification of the index. *)
Definition charge (wl : list (string * Z)) : list (string * Z) :=
  foldl (fun e kz => (spec_admit max kz.1 kz.2 e).1) [] wl.

(** [s1] is reached from [s0], the keys [todo] being still to look at. *)
Record scanned (s0 s1 : DiskStorage) (todo : string -> Prop) : Prop := {
  sc_wf : wf max (index s1);
  sc_max : lmax (index s1) = max;
  sc_dirs : dirs s1 = dirs s0;
  sc_tmps : tmps s1 = tmps s0;
  sc_sub : vis s1 ⊆ vis s0;
  sc_order : exists wl, NoDup wl.*1 /\ abs (index s1) = charge wl /\
    (forall k z, (k, z) ∈ wl <-> ~ todo k /\ exists m b, intact s0 k m b /\ z = Size m);
  sc_keys k : k ∈ (abs (index s1)).*1 -> ~ todo k /\ exists m b, intact s0 k m b;
  sc_todo k p : todo k -> file_of k p -> vis s1 !! p = vis s0 !! p;
  sc_charged k f : ~ todo k -> vis s1 !! bodyPath k = Some f ->
                   (k, Z.of_nat (String.length (content f))) ∈ abs (index s1) \/ young f;
  sc_whole k m b p : ~ todo k -> intact s0 k m b -> file_of k p ->
                     vis s1 !! p = if decide (k ∈ (abs (index s1)).*1) then vis s0 !! p else None;
  sc_rest k p : ~ todo k -> (forall m b, ~ intact s0 k m b) -> file_of k p -> vis s1 !! p = reap p (vis s0) !! p;
}.

Lemma scanned_fixed s0 s1 s2 todo : fixed s1 s2 -> scanned s0 s1 todo -> scanned s0 s2 todo.
Proof. intros ([EV EI] & ED & ET) []. by split; rewrite ?EV, ?EI, ?ED, ?ET. Qed.

Lemma intact_files s k m b : intact s k m b -> is_Some (vis s !! metaPath k) /\ is_Some (vis s !! bodyPath k).
Proof.
  intros [He _]. unfold entry, cont in He. destruct (short k); [done|].
  destruct (vis s !! metaPath k); [|done]. cbn in He. destruct (unmarshal _); [|done]. cbn in He.
  destruct (vis s !! bodyPath k); [|done]. split; by eexists.
Qed.

Lemma reap_none (p : path) V : V !! p = None -> reap p V !! p = None.
Proof. intros E. unfold reap. by rewrite E. Qed.

(** Keys that have no files need no look. *)
Lemma scanned_drop s0 s1 (todo todo' : string -> Prop) :
  (forall k, todo' k -> todo k) -> (forall k, Decision (todo k)) ->
  (forall k p, todo k -> ~ todo' k -> file_of k p -> vis s0 !! p = None) ->
  scanned s0 s1 todo -> scanned s0 s1 todo'.
Proof.
  intros Hsub Hdec Hno Hs.
  assert (forall k m b, ~ todo' k -> intact s0 k m b -> ~ todo k) as Hint.
  { intros k m b Hk Hi Ht. destruct (intact_files _ _ _ _ Hi) as [[f Hf] _]. rewrite (Hno k _ Ht Hk) in Hf; [done|by left]. }
  split; try by apply Hs.
  - destruct (sc_order _ _ _ Hs) as (wl & H1 & H2 & H3). exists wl. split_and!; [done..|]. intros k z. rewrite H3.
    split; intros (Hk & m & b & Hi & ->); (split; [|by eauto]); [naive_solver|by eapply Hint].
  - intros k Hk. destruct (sc_keys _ _ _ Hs k Hk) as [Ht Hi]. split; [naive_solver|done].
  - intros k p Hk. apply (sc_todo _ _ _ Hs k p (Hsub k Hk)).
  - intros k f Hk Hf. destruct (Hdec k) as [Ht|Ht]; [|by apply (sc_charged _ _ _ Hs)].
    rewrite (sc_todo _ _ _ Hs k _ Ht (or_intror eq_refl)), (Hno k _ Ht Hk (or_intror eq_refl)) in Hf. done.
  - intros k m b p Hk Hi. apply (sc_whole _ _ _ Hs k m b); [by eapply Hint|done].
  - intros k p Hk Hi Hp. destruct (Hdec k) as [Ht|Ht]; [|by apply (sc_rest _ _ _ Hs k)].
    by rewrite (sc_todo _ _ _ Hs k p Ht Hp), reap_none; eapply Hno.
Qed.

Lemma file_of_ne k k' p : file_of k p -> k' <> k -> p <> metaPath k' /\ p <> bodyPath k'.
Proof.
  intros [->| ->] Hk; split; first [apply metaPath_bodyPath|apply not_eq_sym, metaPath_bodyPath
      |by intros E%metaPath_inj|by intros E%bodyPath_inj].
Qed.

(** The files of a key that cannot be served are reaped. *)
Lemma scanned_reap s0 s1 s2 todo k :
  scanned s0 s1 todo -> todo k -> (forall k, Decision (todo k)) ->
  index s2 = index s1 -> dirs s2 = dirs s1 -> tmps s2 = tmps s1 -> vis s2 ⊆ vis s1 ->
  (forall q, q <> metaPath k -> q <> bodyPath k -> vis s2 !! q = vis s1 !! q) ->
  (forall p, file_of k p -> vis s2 !! p = reap p (vis s0) !! p) ->
  (forall m b, ~ intact s0 k m b) ->
  scanned s0 s2 (fun k' => todo k' /\ k' <> k).
Proof.
  intros Hs Ht Hdec EI ED ET Hsub Hne Hrp Hni.
  assert (forall k' p, k' <> k -> file_of k' p -> vis s2 !! p = vis s1 !! p) as Hk'.
  { intros k' p Hkk Hp. destruct (file_of_ne k' k p Hp (not_eq_sym Hkk)). by apply Hne. }
  assert (forall k', ~ (todo k' /\ k' <> k) -> k' = k \/ k' <> k /\ ~ todo k') as Hcase by (intros k' H; destruct (decide (k' = k)); tauto).
  split; rewrite ?EI, ?ED, ?ET; try by apply Hs.
  - etrans; [exact Hsub|apply Hs].
  - destruct (sc_order _ _ _ Hs) as (wl & H1 & H2 & H3). exists wl. split_and!; [done..|]. intros k' z. rewrite H3.
    split; intros (Hk & m & b & Hi & ->); (split; [|by eauto]); [tauto|]. apply Hcase in Hk as [->|[_ Hk]]; [by apply Hni in Hi|done].
  - intros k' Hk. destruct (sc_keys _ _ _ Hs k' Hk). tauto.
  - intros k' p [Hk Hkk] Hp. rewrite (Hk' k' p Hkk Hp). by eapply sc_todo.
  - intros k' f [->|[Hkk Hk]]%Hcase Hf.
    + right. rewrite Hrp in Hf by (by right). by apply reap_spec in Hf as [_ ?].
    + rewrite (Hk' k') in Hf by (done || by right). by apply (sc_charged _ _ _ Hs).
  - intros k' m b p [->|[Hkk Hk]]%Hcase Hi Hp; [by apply Hni in Hi|]. rewrite (Hk' k' p Hkk Hp). by apply (sc_whole _ _ _ Hs k' m b).
  - intros k' p [->|[Hkk Hk]]%Hcase Hi Hp; [by apply Hrp|]. rewrite (Hk' k' p Hkk Hp). by apply (sc_rest _ _ _ Hs k').
Qed.

Lemma spec_admit_keys key size e e' victims :
  NoDup e.*1 -> spec_admit max key size e = (e', victims) ->
  (forall k, k ∈ e'.*1 -> (k = key \/ k ∈ e.*1) /\ k ∉ victims) /\ (forall k, k ∈ victims -> k = key \/ k ∈ e.*1).
Proof.
  intros Hn. unfold spec_admit. case_match.
  - intros [= <- <-]. split; [|set_solver]. intros k (kv & -> & [Hne Hin]%list_elem_of_filter)%list_elem_of_fmap.
    split; [right; by apply list_elem_of_fmap_2|set_solver].
  - destruct (fit max (reverse ((key, size) :: without key e))) as [kept v] eqn:Ef. intros [= <- <-].
    destruct (fit_spec max (reverse ((key, size) :: without key e)) (proj1 max_ok)) as (out & E & Hv & _).
    rewrite Ef in *. cbn [fst snd] in *. subst v.
    assert (NoDup (out ++ kept).*1) as Hnd.
    { rewrite <- E, fmap_reverse. rewrite (reverse_Permutation _). cbn. apply NoDup_cons. split.
      - intros (kv & -> & [Hne _]%list_elem_of_filter)%list_elem_of_fmap. done.
      - eapply sublist_NoDup; [exact Hn|]. apply fmap_sublist, sublist_filter. }
    assert (forall k, k ∈ (out ++ kept).*1 -> k = key \/ k ∈ e.*1) as Hk.
    { intros k. rewrite <- E, fmap_reverse, elem_of_reverse. cbn. intros [->|Hin]%elem_of_cons; [by left|right].
      apply list_elem_of_fmap in Hin as (kv & -> & [_ Hin]%list_elem_of_filter). by apply list_elem_of_fmap_2. }
    rewrite fmap_app in Hnd, Hk. apply NoDup_app in Hnd as (_ & Hdis & _). split.
    + intros k. rewrite fmap_reverse, elem_of_reverse. intros Hin. split; [set_solver|]. intros Hv. by apply (Hdis k).
    + set_solver.
Qed.

Lemma drop_all_ne (keys : list string) (V : gmap path file) k :
  k ∉ keys -> drop_all keys V !! metaPath k = V !! metaPath k /\ drop_all keys V !! bodyPath k = V !! bodyPath k.
Proof.
  unfold drop_all. revert V. induction keys as [|k' keys IH]; intros V Hk; [done|]. cbn.
  apply not_elem_of_cons in Hk as [Hne Hk]. destruct (IH (drop_files k' V) Hk) as [-> ->].
  unfold drop_files. destruct (short k'); [done|].
  split; rewrite !lookup_delete_ne; try done; first [apply metaPath_bodyPath|apply not_eq_sym, metaPath_bodyPath
      |by intros E%metaPath_inj|by intros E%bodyPath_inj].
Qed.

Lemma drop_all_gone (keys : list string) (V : gmap path file) k p :
  k ∈ keys -> short k = false -> file_of k p -> drop_all keys V !! p = None.
Proof.
  intros Hk Hsh Hp. unfold drop_all. revert V. induction keys as [|k0 keys IH]; intros V; [set_solver|].
  cbn. destruct (decide (k = k0)) as [<-|Hne]; [|apply IH; set_solver].
  apply (lookup_weaken_None _ (drop_files k V)); [|apply (drop_all_sub keys)]. unfold drop_files. rewrite Hsh.
  destruct Hp as [->| ->]; [|by rewrite lookup_delete_eq]. rewrite lookup_delete_ne by apply not_eq_sym, metaPath_bodyPath.
  by rewrite lookup_delete_eq.
Qed.

Lemma tidy_body s k f : tidy s -> vis s !! bodyPath k = Some f -> short k = false.
Proof. intros Ht Hf. destruct (Ht _ _ Hf) as (_ & k' & Hk' & [E%bodyPath_inj|E]); [by subst|]. by apply eq_sym, metaPath_bodyPath in E. Qed.

Lemma intact_body s k m b : intact s k m b -> cont (vis s) (bodyPath k) = Some b /\ Size m = Z.of_nat (String.length b).
Proof.
  intros [He _]. split; [|by eapply entry_size]. unfold entry in He. destruct (short k); [done|].
  destruct (cont (vis s) (metaPath k)) as [mb|]; [|done]. cbn in He. destruct (unmarshal mb) as [m'|]; [|done]. cbn in He.
  destruct (cont (vis s) (bodyPath k)) as [b'|]; [|done]. cbn in He. case_match; congruence.
Qed.

Lemma intact_short s k m b : intact s k m b -> short k = false.
Proof. intros [He _]. unfold entry in He. by destruct (short k). Qed.

(** An entry that can be served is charged, and the cap evicts others. *)
Lemma scanned_admit s0 s1 s2 todo k m b :
  tidy s0 -> (forall k, Decision (todo k)) -> scanned s0 s1 todo -> todo k -> intact s0 k m b ->
  index s2 = (lru_admit k (Size m) (index s1)).1 -> dirs s2 = dirs s1 -> tmps s2 = tmps s1 ->
  vis s2 = drop_all (lru_admit k (Size m) (index s1)).2 (vis s1) ->
  scanned s0 s2 (fun k' => todo k' /\ k' <> k).
Proof.
  intros Hty Hdec Hs Hk Hi EI ED ET EV. destruct (intact_body _ _ _ _ Hi) as [Hb Hsz].
  pose proof (sc_wf _ _ _ Hs) as W. pose proof (sc_max _ _ _ Hs) as HM.
  pose proof (admit_ok (index s1) k (Size m)) as Ha. rewrite HM in Ha. specialize (Ha W ltac:(lia) max_ok).
  destruct (lru_admit k (Size m) (index s1)) as [l' victims]. cbn [fst snd] in *.
  destruct Ha as (W' & HM' & Ha).
  destruct (spec_admit_keys k (Size m) _ _ _ (wf_nodup _ _ W) Ha) as [Hkeys Hvic].
  pose proof (spec_admit_keeps _ _ _ _ _ _ (proj1 max_ok) Ha) as Hkeep.
  assert (k ∉ (abs (index s1)).*1) as Hnk by (intros [? _]%(sc_keys _ _ _ Hs); done).
  assert (forall k' p, k' ∉ victims -> file_of k' p -> vis s2 !! p = vis s1 !! p) as Hsame.
  { intros k' p Hv Hp. rewrite EV. destruct (drop_all_ne victims (vis s1) k' Hv) as [E1 E2]. by destruct Hp as [->| ->]. }
  assert (forall k', ~ (todo k' /\ k' <> k) -> k' = k \/ k' <> k /\ ~ todo k') as Hcase by (intros k' H; destruct (decide (k' = k)); tauto).
  split; rewrite ?EI, ?ED, ?ET; try done; try by apply Hs.
  - rewrite EV. etrans; [apply drop_all_sub|apply Hs].
  - destruct (sc_order _ _ _ Hs) as (wl & H1 & H2 & H3). exists (wl ++ [(k, Size m)]). split_and!.
    + rewrite fmap_app. apply NoDup_app. split_and!; [done| |apply NoDup_singleton].
      intros k' ([k2 z] & Ek & Hin)%list_elem_of_fmap Ek'%list_elem_of_singleton. apply H3 in Hin as [Hin _]. cbn in Ek, Ek'. congruence.
    + unfold charge in *. rewrite foldl_app, <- H2. cbn. by rewrite Ha.
    + intros k' z. rewrite elem_of_app, list_elem_of_singleton, H3. split.
      * intros [(Hn & Hx)|[= -> ->]]; [tauto|]. split; [tauto|]. by exists m, b.
      * intros ([->|[Hne Hn]]%Hcase & m' & b' & Hi' & ->); [right|left; by eauto 6].
        destruct Hi as [He _], Hi' as [He' _]. rewrite He in He'. congruence.
  - intros k' [[->|Hin] _]%Hkeys; [split; [tauto|by eauto]|]. destruct (sc_keys _ _ _ Hs k' Hin). tauto.
  - intros k' p [Hk' Hne] Hp. rewrite (Hsame k' p); [by eapply sc_todo| |done].
    intros [?|[? _]%(sc_keys _ _ _ Hs)]%Hvic; done.
  - intros k' f Hk' Hf. rewrite EV in Hf. pose proof (lookup_weaken _ _ _ _ Hf (drop_all_sub _ _)) as Hf1.
    pose proof (lookup_weaken _ _ _ _ Hf1 (sc_sub _ _ _ Hs)) as Hf0.
    pose proof (drop_all_body _ _ _ _ (tidy_body _ _ _ Hty Hf0) Hf) as Hv.
    apply Hcase in Hk' as [->|[Hne Hk']].
    + left. unfold cont in Hb. rewrite Hf0 in Hb. injection Hb as Hb.
      destruct (Hkeep (k, Z.of_nat (String.length (content f)))) as [?|?]; [|done|done].
      apply elem_of_cons. left. f_equal. by rewrite Hsz, Hb.
    + destruct (sc_charged _ _ _ Hs k' f) as [Hin|?]; [done|done| |by right].
      destruct (Hkeep (k', Z.of_nat (String.length (content f)))) as [?|?]; [|by left|done].
      apply elem_of_cons. right. by apply list_elem_of_filter.
  - intros k' m' b' p Hk' Hi' Hp. destruct (decide (k' ∈ victims)) as [Hv|Hv].
    { rewrite decide_False by (by intros [_ ?]%Hkeys). rewrite EV. eapply drop_all_gone; [done|by eapply intact_short|done]. }
    rewrite (Hsame k' p Hv Hp). apply Hcase in Hk' as [->|[Hne Hk']].
    + rewrite decide_True; [by eapply sc_todo|].
      destruct (Hkeep (k, Size m)) as [Hin|?]; [by left|by apply (list_elem_of_fmap_2 fst) in Hin|done].
    + rewrite (sc_whole _ _ _ Hs k' m' b' p Hk' Hi' Hp). apply decide_ext. split; [|by intros [[?|?] _]%Hkeys].
      intros ([k2 z] & -> & Hin)%list_elem_of_fmap. destruct (Hkeep (k2, z)) as [Hin'|?]; [|by apply (list_elem_of_fmap_2 fst) in Hin'|done].
      apply elem_of_cons. right. by apply list_elem_of_filter.
  - intros k' p Hk' Hi' Hp. apply Hcase in Hk' as [->|[Hne Hk']]; [by apply Hi' in Hi|].
    rewrite (Hsame k' p); [by apply (sc_rest _ _ _ Hs k')| |done].
    intros [?|[_ (m' & b' & Hx)]%(sc_keys _ _ _ Hs)]%Hvic; [done|by apply Hi' in Hx].
Qed.

Lemma cont_files_vis s (p : path) : p.1 <> "tmp" -> cont (files s) p = cont (vis s) p.
Proof. intros H. unfold cont. by rewrite vis_lookup. Qed.

Lemma admit_nofaults key size s :
  ok (admit_key faults key size) (fun _ s' => index s' = (lru_admit key size (index s)).1 /\ dirs s' = dirs s /\
    tmps s' = tmps s /\ vis s' = drop_all (lru_admit key size (index s)).2 (vis s)) s.
Proof.
  split; [exact I|]. set (s1 := on_index (fun l => (lru_admit key size l).1) s). cbn [bind rmw].
  change (index (on_index (fun l => (lru_admit key size l).1) s)) with (lru_admit key size (index s)).1.
  assert (forall keys s', ok (each (removeFiles faults) keys)
    (fun _ s2 => index s2 = index s' /\ dirs s2 = dirs s' /\ tmps s2 = tmps s' /\ vis s2 = drop_all keys (vis s')) s') as H;
    [|exact (H (lru_admit key size (index s)).2 s1)].
  clear s1. induction keys as [|k keys IH]; intros s'; [done|]. cbn [each]. apply safe_bind.
  eapply safe_mono with (Q := fun _ s2 => index s2 = index s' /\ dirs s2 = dirs s' /\ tmps s2 = tmps s' /\ vis s2 = drop_files k (vis s')).
  - unfold removeFiles, drop_files. destruct (short k); [done|].
    assert (forall (p : path) (f : option unit -> prog DiskStorage unit) Q s, p.1 <> "tmp" ->
      (forall r s2, index s2 = index s -> dirs s2 = dirs s -> tmps s2 = tmps s -> vis s2 = delete p (vis s) -> ok (f r) Q s2) ->
      ok (bind (Remove faults p) f) Q s) as Hrm.
    { intros p f Q s2 Hp H. apply ok_sys; [exact I|]. unfold outcome. rewrite nofaults.
      destruct (files s2 !! p) as [g|] eqn:Eg; cbn; apply H; try done; [|by apply vis_delete|].
      - rewrite <- (tmps_delete_vis s2 p Hp). by apply tmps_delete.
      - apply vis_delete. cbn. by rewrite delete_id. }
    apply Hrm; [apply shardDir_tmp|]. intros _ s2 I2 D2 T2 V2. apply Hrm; [apply shardDir_tmp|]. intros _ s3 I3 D3 T3 V3.
    split; [exact I|]. split_and!; congruence.
  - intros _ s2 _ (I2 & D2 & T2 & V2). eapply safe_mono; [apply IH|]. intros _ s3 _ (I3 & D3 & T3 & V3).
    split_and!; [congruence..|]. rewrite V3, V2. done.
Qed.

(** One sidecar. *)
Lemma scan_meta_ok s0 s1 todo bodies k :
  tidy s0 -> (forall k, Decision (todo k)) -> scanned s0 s1 todo -> todo k -> short k = false ->
  is_Some (vis s0 !! metaPath k) -> (k ∈ bodies <-> is_Some (vis s0 !! bodyPath k)) ->
  ok (scan_meta faults unmarshal now (shardDir k) bodies k) (fun _ s2 => scanned s0 s2 (fun k' => todo k' /\ k' <> k)) s1.
Proof.
  intros Hty Hdec Hs Hk Hsh [g Hg] Hbod. unfold scan_meta.
  change (shardDir k, k +:+ ".meta") with (metaPath k). change (shardDir k, k +:+ ".body") with (bodyPath k).
  pose proof (sc_todo _ _ _ Hs k _ Hk (or_introl eq_refl)) as EM. pose proof (sc_todo _ _ _ Hs k _ Hk (or_intror eq_refl)) as EB.
  assert (cont (vis s0) (metaPath k) = Some (content g)) as Hm by (unfold cont; by rewrite Hg).
  assert (forall s2, fixed s1 s2 -> (forall m b, ~ intact s0 k m b) ->
    ok (reapIfStale faults (metaPath k) now ;; reapIfStale faults (bodyPath k) now)%go
      (fun _ s2 => scanned s0 s2 (fun k' => todo k' /\ k' <> k)) s2) as Hreap.
  { intros s2 Hst Hni. eapply safe_mono; [apply reap_both_ok|]. intros _ s3 _ (I3 & D3 & V3 & T3).
    eapply (scanned_reap s0 s2); [by eapply scanned_fixed|done|done|done|done|done| | | |done]; rewrite V3.
    - etrans; apply reap_sub.
    - intros q H1 H2. by rewrite !reap_ne by done.
    - destruct Hst as ([-> _] & _). intros p [->| ->].
      + rewrite reap_ne by apply not_eq_sym, metaPath_bodyPath. by apply reap_self.
      + apply reap_self. by rewrite reap_ne by apply metaPath_bodyPath. }
  apply ok_read. intros s2 S2. rewrite cont_files_vis by apply shardDir_tmp.
  unfold cont at 1. rewrite EM, Hg. cbn [fmap option_fmap option_map].
  destruct (unmarshal (content g)) as [m|] eqn:Eu.
  2: { apply Hreap; [done|]. intros m b [He _]. unfold entry in He. rewrite Hsh, Hm in He. cbn in He. by rewrite Eu in He. }
  destruct (bool_decide_reflect (k ∈ bodies)) as [Hin|Hin]; cbn [negb].
  2: { rewrite Hbod in Hin. apply eq_None_not_Some in Hin.
    eapply safe_mono; [apply reapIfStale_ok, shardDir_tmp|]. intros _ s3 _ (I3 & D3 & V3 & T3).
    destruct S2 as ([V2 I2] & D2 & T2). eapply (scanned_reap s0 s1); [done|done|done|congruence|congruence|congruence|..]; rewrite ?V3, ?V2.
    - apply reap_sub.
    - intros q H1 H2. by apply reap_ne.
    - intros p [->| ->]; [by apply reap_self|]. rewrite reap_ne by apply metaPath_bodyPath.
      rewrite EB, Hin. symmetry. by apply reap_none.
    - intros m' b [He _]. rewrite entry_no_body in He; [done|]. unfold cont. by rewrite Hin. }
  destruct (Z.ltb_spec (CacheServe.serveableUntil m) now) as [Hexp|Hexp].
  { apply Hreap; [done|]. intros m' b [He Hle]. unfold entry in He. rewrite Hsh, Hm in He. cbn in He. rewrite Eu in He. cbn in He.
    destruct (cont (vis s0) (bodyPath k)); [|done]. cbn in He. case_match; [|done]. injection He as -> ->. lia. }
  apply Hbod in Hin as [fb Hfb].
  apply ok_stat. intros s3 S3. rewrite <- vis_lookup by apply shardDir_tmp.
  pose proof (fixed_trans _ _ _ S2 S3) as S13. destruct S2 as ([V2 I2] & D2 & T2). rewrite V2, EB, Hfb.
  destruct (Z.eqb_spec (Z.of_nat (String.length (content fb))) (Size m)) as [El|El]; cbn [negb].
  2: { apply Hreap; [done|]. intros m' b Hi. destruct (intact_body _ _ _ _ Hi) as [Hb Hsz].
    unfold cont in Hb. rewrite Hfb in Hb. injection Hb as <-. destruct Hi as [He _].
    unfold entry in He. rewrite Hsh, Hm in He. cbn in He. rewrite Eu in He. cbn in He. unfold cont in He. rewrite Hfb in He. cbn in He.
    by rewrite (proj2 (Z.eqb_neq _ _) El) in He. }
  eapply safe_mono; [apply admit_nofaults|]. intros _ s4 _ (I4 & D4 & T4 & V4).
  eapply (scanned_admit s0 s3 s4 todo k m (content fb)); [done|done|by eapply scanned_fixed|done| |done|done|done|done].
  split; [|done]. unfold entry. rewrite Hsh, Hm. cbn. rewrite Eu. cbn. unfold cont. rewrite Hfb. cbn.
  by rewrite (proj2 (Z.eqb_eq _ _) El).
Qed.

(** ** The loops *)

Lemma scanned_iff s0 s1 todo todo' : (forall k, todo k <-> todo' k) -> scanned s0 s1 todo -> scanned s0 s1 todo'.
Proof.
  intros H Hs. split; try by apply Hs.
  - destruct (sc_order _ _ _ Hs) as (wl & H1 & H2 & H3). exists wl. split_and!; [done..|]. intros k z. by rewrite H3, H.
  - intros k Hk. rewrite <- H. by apply Hs.
  - intros k p Hk. apply Hs. by apply H.
  - intros k f Hk. apply Hs. by rewrite H.
  - intros k m b p Hk. apply Hs. by rewrite H.
  - intros k p Hk. apply Hs. by rewrite H.
Qed.

Lemma each_scanned s0 (f : string -> prog DiskStorage unit) l : forall todo s,
  (forall k, Decision (todo k)) -> NoDup l ->
  (forall k todo' s1, k ∈ l -> (forall k, Decision (todo' k)) -> (forall k', todo' k' -> todo k') -> (todo k -> todo' k) ->
     scanned s0 s1 todo' -> ok (f k) (fun _ s2 => scanned s0 s2 (fun k' => todo' k' /\ k' <> k)) s1) ->
  scanned s0 s todo -> ok (each f l) (fun _ s2 => scanned s0 s2 (fun k => todo k /\ k ∉ l)) s.
Proof.
  induction l as [|k l IH]; intros todo s Hdec Hn Hf Hs.
  - split; [exact I|]. eapply scanned_iff; [|exact Hs]. intros k. set_solver.
  - cbn [each]. apply NoDup_cons in Hn as [Hk Hn]. apply safe_bind.
    eapply safe_mono; [apply (Hf k todo); auto; set_solver|]. intros ? s1 HT Hs1. cbn beta in Hs1.
    eapply safe_mono; [apply (IH (fun k' => todo k' /\ k' <> k) s1 _ Hn)|].
    + intros k2 todo' s2 Hk2 Hd Hsub Hin. apply Hf; [set_solver|done|intros k' H; by apply Hsub|].
      intros Ht. apply Hin. split; [done|]. by intros ->.
    + exact Hs1.
    + intros ? s2 HT2 Hs2. eapply scanned_iff; [|exact Hs2]. intros k'. set_solver.
Qed.

Lemma elem_names d n s : n ∈ names d s <-> is_Some (files s !! (d, n)).
Proof.
  unfold names, sorted. rewrite merge_sort_Permutation, list_elem_of_omap. split.
  - intros ([[d' n'] f] & Hin & E). cbn in E. destruct (String.eqb_spec d' d) as [->|]; [|done]. injection E as ->.
    apply elem_of_map_to_list in Hin. by exists f.
  - intros [f Hf]. exists ((d, n), f). split; [by apply elem_of_map_to_list|]. cbn. by rewrite String.eqb_refl.
Qed.

Lemma NoDup_omap_inj {A B} (f : A -> option B) l :
  (forall x y z, x ∈ l -> y ∈ l -> f x = Some z -> f y = Some z -> x = y) -> NoDup l -> NoDup (omap f l).
Proof.
  induction l as [|x l IH]; intros Hinj Hn; [constructor|]. apply NoDup_cons in Hn as [Hx Hn]. cbn.
  assert (NoDup (omap f l)) as Hn' by (apply IH; [|done]; intros; eapply Hinj; eauto; set_solver).
  destruct (f x) as [z|] eqn:E; [|done]. apply NoDup_cons. split; [|done].
  intros (y & Hy & Ey)%list_elem_of_omap. apply Hx. rewrite (Hinj x y z); [done|set_solver|set_solver|done|done].
Qed.

Lemma NoDup_names d s : NoDup (names d s).
Proof.
  unfold names, sorted. rewrite merge_sort_Permutation. apply NoDup_omap_inj; [|apply NoDup_map_to_list].
  intros [[d1 n1] f1] [[d2 n2] f2] n H1 H2. cbn.
  destruct (String.eqb_spec d1 d) as [->|]; [|done]. destruct (String.eqb_spec d2 d) as [->|]; [|done].
  intros [= ->] [= ->]. apply elem_of_map_to_list in H1, H2. congruence.
Qed.

Lemma elem_body_keys ents k : k ∈ body_keys ents <-> k +:+ ".body" ∈ ents.
Proof.
  unfold body_keys. rewrite list_elem_of_omap. split.
  - by intros (n & Hn & ->%CutSuffix_Some).
  - intros H. exists (k +:+ ".body"). by rewrite CutSuffix_app.
Qed.

Lemma elem_meta_keys ents k : k ∈ meta_keys ents <-> k +:+ ".meta" ∈ ents.
Proof.
  unfold meta_keys. rewrite list_elem_of_omap. split.
  - intros (n & Hn & E). destruct (CutSuffix ".body" n); [done|]. by apply CutSuffix_Some in E as ->.
  - intros H. exists (k +:+ ".meta"). split; [done|]. rewrite CutSuffix_app.
    destruct (CutSuffix ".body" (k +:+ ".meta")) as [k'|] eqn:E; [|done]. by apply CutSuffix_Some, meta_not_body in E.
Qed.

Lemma NoDup_keys ents : NoDup ents -> NoDup (body_keys ents) /\ NoDup (meta_keys ents).
Proof.
  intros Hn. split; apply NoDup_omap_inj; try done; intros x y z _ _.
  - intros ->%CutSuffix_Some ->%CutSuffix_Some. done.
  - destruct (CutSuffix ".body" x); [done|]. destruct (CutSuffix ".body" y); [done|].
    intros ->%CutSuffix_Some ->%CutSuffix_Some. done.
Qed.

(** What a shard's listing says of the keys of the shard. *)
Lemma listed s0 s1 todo sh k :
  tidy s0 -> sh <> "tmp" -> scanned s0 s1 todo -> (forall k, shardDir k = sh -> todo k) ->
  (k ∈ meta_keys (names sh s1) <-> shardDir k = sh /\ is_Some (vis s0 !! metaPath k)) /\
  (k ∈ body_keys (names sh s1) <-> shardDir k = sh /\ is_Some (vis s0 !! bodyPath k)).
Proof.
  intros Hty Hsh Hs Hall. rewrite elem_meta_keys, elem_body_keys, !elem_names, <- !vis_lookup by done.
  assert (forall n f, vis s1 !! (sh, n) = Some f -> vis s0 !! (sh, n) = Some f) as Hw
    by (intros n f Hf; by eapply lookup_weaken; [exact Hf|apply Hs]).
  assert (shardDir k = sh -> vis s1 !! (sh, k +:+ ".meta") = vis s0 !! metaPath k /\ vis s1 !! (sh, k +:+ ".body") = vis s0 !! bodyPath k) as He.
  { intros <-. split; apply (sc_todo _ _ _ Hs k _ (Hall k eq_refl)); [by left|by right]. }
  split; (split; [intros [f Hf]|intros [E Hf]; destruct (He E) as [E1 E2];
    first [exact (eq_ind_r is_Some Hf E1)|exact (eq_ind_r is_Some Hf E2)]]).
  - destruct (Hty _ _ (Hw _ _ Hf)) as (_ & k' & _ & [[= _ E%meta_not_body]|[= E1 E%append_inj_r]]); [done|subst k'].
    split; [done|]. destruct (He (eq_sym E1)) as [E3 _]. exact (ex_intro _ f (eq_trans (eq_sym E3) Hf)).
  - destruct (Hty _ _ (Hw _ _ Hf)) as (_ & k' & _ & [[= E1 E%append_inj_r]|[= _ E]]); [subst k'|by apply eq_sym, meta_not_body in E].
    split; [done|]. destruct (He (eq_sym E1)) as [_ E3]. exact (ex_intro _ f (eq_trans (eq_sym E3) Hf)).
Qed.

Lemma tidy_meta s k f : tidy s -> vis s !! metaPath k = Some f -> short k = false.
Proof. intros Ht Hf. destruct (Ht _ _ Hf) as (_ & k' & Hk' & [E|E%metaPath_inj]); [by apply metaPath_bodyPath in E|by subst]. Qed.

Lemma scan_shard_ok s0 s1 todo sh :
  tidy s0 -> (forall k, Decision (todo k)) -> sh <> "tmp" -> sh ∈ dirs s0 -> scanned s0 s1 todo -> (forall k, shardDir k = sh -> todo k) ->
  ok (scan_shard faults unmarshal now sh) (fun _ s2 => scanned s0 s2 (fun k => todo k /\ shardDir k <> sh)) s1.
Proof.
  intros Hty Hdec Hsh Hd Hs Hall. unfold scan_shard. apply ok_readdir. intros s2 S2.
  rewrite decide_True by (by rewrite (sc_dirs _ _ _ Hs)).
  destruct (NoDup_keys _ (NoDup_names sh s1)) as [HnB HnM].
  assert (forall k, _) as Hlist by exact (fun k => listed s0 s1 todo sh k Hty Hsh Hs Hall).
  set (ents := names sh s1) in *. apply safe_bind. eapply safe_mono; [apply (each_scanned s0 _ (meta_keys ents) todo s2 Hdec HnM)|].
  - intros k todo' s3 Hk Hdec' _ Ht' Hs3. apply (proj1 (Hlist k)) in Hk as [<- [g Hg]].
    apply scan_meta_ok; [done|done|done|apply Ht'; by apply Hall|by eapply tidy_meta|by eexists|].
    rewrite elem_of_list_to_set, (proj2 (Hlist k)). tauto.
  - by eapply scanned_fixed.
  - intros ? s3 HT3 Hs3. cbn beta in Hs3.
    eapply safe_mono; [apply (each_scanned s0 _ (body_keys ents) (fun k => todo k /\ k ∉ meta_keys ents) s3 _ HnB)|].
    + intros k todo' s4 Hk Hdec' Hsub Ht' Hs4. destruct (bool_decide_reflect (k ∈ meta_keys ents)) as [Hm|Hm].
      * split; [exact I|]. eapply scanned_drop; [..|exact Hs4]; [tauto|done|].
        intros k' p H1 H2. exfalso. apply H2. split; [done|]. intros ->. by apply Hsub in H1 as [_ ?].
      * apply (proj2 (Hlist k)) in Hk as [Esh [g Hg]].
        assert (forall m b, ~ intact s0 k m b) as Hni.
        { intros m b [He _]. rewrite entry_no_meta in He; [done|]. unfold cont.
          destruct (vis s0 !! metaPath k) as [gm|] eqn:Eg; [|done]. exfalso. apply Hm, (proj1 (Hlist k)). split; [done|by eexists]. }
        rewrite <- Esh. change (shardDir k, k +:+ ".body") with (bodyPath k).
        assert (todo' k) as Hk' by (apply Ht'; split; [by apply Hall|done]).
        eapply safe_mono; [apply reapIfStale_ok, shardDir_tmp|]. intros _ s5 _ (I5 & D5 & V5 & T5).
        eapply (scanned_reap s0 s4); [done|done|done|done|done|done|rewrite V5; apply reap_sub|rewrite V5..|done].
        -- intros q _ Hq. by apply reap_ne.
        -- intros p Hp. pose proof (sc_todo _ _ _ Hs4 k p Hk' Hp) as E. destruct Hp as [->| ->]; [|by apply reap_self].
           rewrite reap_ne by apply not_eq_sym, metaPath_bodyPath. rewrite E.
           assert (vis s0 !! metaPath k = None) as E0; [|by rewrite E0, reap_none].
           apply eq_None_not_Some. intros Hx. apply Hm, (proj1 (Hlist k)). by split.
    + exact Hs3.
    + intros ? s4 HT4 Hs4. cbn beta in Hs4. eapply scanned_drop; [..|exact Hs4].
      * intros k [Hk Hne]. split; [split; [done|]|]; intros Hin; apply Hlist in Hin; tauto.
      * intros k. apply _.
      * intros k p [[Hk Hm] Hb] Hn Hp. assert (shardDir k = sh) as Esh by (destruct (decide (shardDir k = sh)); tauto).
        apply eq_None_not_Some. intros Hx. destruct Hp as [->| ->]; [apply Hm, (proj1 (Hlist k))|apply Hb, (proj2 (Hlist k))]; done.
Qed.

Lemma scan_shards_ok s0 l : tidy s0 -> (forall sh, sh ∈ l -> sh ∈ dirs s0) -> NoDup l -> forall todo s1,
  (forall k, Decision (todo k)) -> scanned s0 s1 todo -> (forall k, shardDir k ∈ l -> todo k) ->
  ok (each (fun sh => if String.eqb sh "tmp" then Ret tt else scan_shard faults unmarshal now sh) l)
    (fun _ s2 => scanned s0 s2 (fun k => todo k /\ shardDir k ∉ l)) s1.
Proof.
  intros Hty. induction l as [|sh l IH]; intros Hd Hn todo s1 Hdec Hs Hall.
  - split; [exact I|]. eapply scanned_iff; [|exact Hs]. set_solver.
  - apply NoDup_cons in Hn as [Hsh Hn]. cbn [each]. apply safe_bind.
    apply safe_mono with (Q := fun _ s2 => scanned s0 s2 (fun k => todo k /\ shardDir k <> sh)).
    + destruct (String.eqb_spec sh "tmp") as [->|Hne].
      * split; [exact I|]. eapply scanned_iff; [|exact Hs]. intros k. pose proof (shardDir_tmp k). tauto.
      * apply scan_shard_ok; [done|done|done|set_solver|done|set_solver].
    + intros _ s2 _ Hs2. eapply safe_mono; [apply (IH ltac:(set_solver) Hn (fun k => todo k /\ shardDir k <> sh) s2 _ Hs2)|].
      * intros k Hk. split; [set_solver|]. by intros <-.
      * intros ? s3 HT Hs3. eapply scanned_iff; [|exact Hs3]. set_solver.
Qed.

Lemma scan_ok s :
  tidy s -> index s = newLRU max ->
  ok (scan faults unmarshal now) (fun _ s2 => exists s1, same s s1 /\
    ("tmp" ∈ dirs s -> forall n f, tmps s1 !! ("tmp", n) = Some f <-> tmps s !! ("tmp", n) = Some f /\ young f) /\
    scanned s1 s2 (fun _ => False)) s.
Proof.
  intros Hty Hi. unfold scan. apply ok_readdir. intros s1 ([V1 I1] & D1 & T1). apply safe_bind.
  eapply safe_mono; [apply reap_tmp_ok|]. intros ? s2 HT2 ([V2 I2] & D2 & T2).
  apply ok_sys; [exact I|]. unfold outcome. rewrite nofaults. cbn [fst snd].
  assert (scanned s2 (tick s2) (fun _ => True)) as Hs.
  { assert (index s2 = newLRU max) as Ei by congruence. split; cbn; rewrite ?Ei; try done.
    - by apply newLRU_wf, max_ok.
    - exists []. split_and!; [constructor|done|]. set_solver.
    - cbn. set_solver. }
  assert (tidy s2) as Hty2 by (unfold tidy; rewrite V2, V1, D2, D1; exact Hty).
  eapply safe_mono; [apply (scan_shards_ok s2 (sorted (elements (dirs s2))) Hty2) with (todo := fun _ => True)|].
  - intros sh. unfold sorted. rewrite merge_sort_Permutation, elem_of_elements. done.
  - unfold sorted. rewrite merge_sort_Permutation. apply NoDup_elements.
  - intros k. apply _.
  - exact Hs.
  - done.
  - intros ? s3 HT3 Hs3. cbn beta in Hs3. exists s2. split_and!; [split; congruence| |].
    + intros Hd n f. rewrite T2, T1, (decide_True _ _ Hd). cbn. split; intros [H1 H2]; (split; [done|]); [|done].
      apply H2, elem_names. rewrite tmps_lookup in H1. by eexists.
    + eapply scanned_drop with (todo := fun k => True /\ shardDir k ∉ sorted (elements (dirs s2))); [done|intros k; apply _| |exact Hs3].
      intros k p [_ Hk] _ Hp. destruct (vis s2 !! p) as [g|] eqn:Eg; [|done]. exfalso. apply Hk.
      unfold sorted. rewrite merge_sort_Permutation, elem_of_elements. destruct (Hty2 _ _ Eg) as [Hd _]. by destruct Hp as [->| ->].
Qed.

Lemma intact_ext s s1 k m b : same s s1 -> intact s1 k m b <-> intact s k m b.
Proof. intros [E _]. unfold intact. by rewrite E. Qed.

Lemma without_id k (e : list (string * Z)) : k ∉ e.*1 -> without k e = e.
Proof.
  unfold without. induction e as [|[k0 z] e IH]; intros Hk; [done|]. cbn in Hk. rewrite filter_cons_True by (cbn; set_solver).
  f_equal. apply IH. set_solver.
Qed.

(** A list that fits the cap is charged whole. *)
Lemma charge_fits wl :
  NoDup wl.*1 -> Forall (fun kz => 0 <= kz.2) wl -> total wl <= max -> charge wl = reverse wl.
Proof.
  induction wl as [|[k z] wl IH] using rev_ind; intros Hn Hz Ht; [done|].
  rewrite fmap_app in Hn. apply NoDup_app in Hn as (Hn & Hd & _). apply Forall_app in Hz as [Hz [Hz1 _]%Forall_cons].
  assert (total (wl ++ [(k, z)]) = total wl + z) as Et by (rewrite total_app, total_cons; unfold total; cbn; lia).
  assert (0 <= total wl) as Hp.
  { clear -Hz. induction Hz as [|[k z] wl Hz _ IH]; [done|]. rewrite total_cons. cbn in Hz. lia. }
  unfold charge in *. rewrite foldl_app, IH by (done || cbn in Hz1; lia). cbn [foldl fst snd].
  unfold spec_admit. cbn in Hz1. destruct (Z.ltb_spec max z); [lia|].
  rewrite without_id by (rewrite fmap_reverse, elem_of_reverse; intros Hk; apply (Hd k Hk); by left).
  rewrite reverse_cons, reverse_involutive, reverse_app. cbn.
  assert (fit max (wl ++ [(k, z)]) = (wl ++ [(k, z)], [])) as ->; [|by rewrite reverse_app].
  destruct (wl ++ [(k, z)]) as [|[k0 z0] l] eqn:El; [done|]. cbn [fit]. by rewrite (proj2 (Z.leb_le _ _) Ht).
Qed.

End Scan.
End DiskScan.
