(* ===== verification/DiskRuns.v ===== *)
(** * pkg/cache: runs of the disk backend

    A fill followed by a lookup, for any body; then concrete runs, among them the two
    interleavings in which the code does what its comments exclude. *)

From Stdlib Require Import Ascii.
From stdpp Require Import pretty sorting.
From S2P Require Import Prelude Concurrency Lru Memory CacheServe GoStrings Disk DiskFacts DiskCap DiskScan.

Module DiskRuns.
Import Lru LruFacts Disk DiskFacts DiskCap DiskScan.
Open Scope go_scope.

Section Fill.
Context (faults : nat -> syscall -> option nat).
Context (marshal : Meta -> option string) (unmarshal : string -> option Meta).

(** A writer, its body in pieces, and the commit. *)
Definition fill_disk (key : string) (chunks : list string) (mt : Meta) : prog DiskStorage bool :=
  w <- Writer faults key ;;
  match w with
  | None => Ret false
  | Some w => each (fun p => Write faults p w ;; Ret tt) chunks ;; r <- Commit faults marshal mt w ;; Ret r.2
  end.

Definition body_of (chunks : list string) : string := foldr String.append "" chunks.

Context (nofaults : no_faults faults).
Local Abbreviation ok p Q s := (safe (fun x => T (vis x)) p Q s).

Lemma nofaults_removes : removes_work faults.
Proof. intros n p. apply nofaults. Qed.

(** A call that acts. *)
Lemma ok_do {A B} c (act : DiskStorage -> option (DiskStorage * A)) partial (f : option A -> prog DiskStorage B) Q s s' a :
  act s = Some (s', a) -> ok (f (Some a)) Q (tick s') -> ok (bind (sys faults c act partial) f) Q s.
Proof. intros E H. apply ok_sys; [exact I|]. unfold outcome. by rewrite nofaults, E. Qed.

Lemma ok_temp {B} prefix (f : path -> prog DiskStorage B) Q s :
  (forall p s', p.1 = "tmp" -> files s' = files s -> index s' = index s -> dirs s' = dirs s -> ok (f p) Q s') ->
  ok (bind (tempPath prefix) f) Q s.
Proof. intros H. split; [exact I|]. by apply H. Qed.

Lemma each_removeFiles_returns keys s : ok (each (removeFiles faults) keys) (fun _ _ => True) s.
Proof. eapply safe_mono; [by apply (each_removeFiles_ok faults T (fun _ _ _ => I))|done]. Qed.

Lemma Commit_succeeds mt mb w g s :
  wdone w = false -> files s !! wtmp w = Some g -> "tmp" ∈ dirs s -> marshal mt = Some mb ->
  ok (Commit faults marshal mt w) (fun wr _ => wr.2 = true) s.
Proof.
  intros Hd Hg Htmp Hm. unfold Commit. rewrite Hd. cbn [wtmp wkey].
  eapply ok_do; [reflexivity|]. eapply ok_do; [reflexivity|]. eapply ok_do; [reflexivity|].
  eapply ok_do. { cbn. rewrite Hg. cbn. rewrite decide_True by set_solver. reflexivity. }
  apply safe_bind. apply safe_mono with (Q := fun r _ => r = true); [|intros r s' _ ->; by split].
  unfold commit_meta. rewrite Hm. apply ok_temp. intros tmp s1 Ht F1 I1 D1. cbn in D1. apply safe_bind.
  apply safe_mono with (Q := fun r s2 => r = true /\ dirs s2 = dirs s1).
  - unfold atomicWriteRename.
    eapply ok_do. { cbn. rewrite decide_True by (rewrite Ht, D1; set_solver). reflexivity. }
    eapply ok_do; [reflexivity|]. eapply ok_do; [reflexivity|]. eapply ok_do; [reflexivity|].
    eapply ok_do. { cbn. rewrite lookup_alter_eq, lookup_insert_eq. cbn. rewrite decide_True by (rewrite D1; set_solver). reflexivity. }
    by split.
  - intros ? s2 _ [-> D2]. cbn [negb]. apply safe_bind.
    apply safe_mono with (Q := fun r s3 => r = true).
    + unfold fsyncDir. eapply ok_do. { unfold in_dir. rewrite decide_True by (rewrite D2, D1; set_solver). reflexivity. }
      eapply ok_do; [reflexivity|]. eapply ok_do; [reflexivity|]. by split.
    + intros ? s3 _ ->. cbn [negb]. apply safe_bind. split; [exact I|].
      eapply safe_mono; [apply each_removeFiles_returns|]. intros _ s4 _ _. by split.
Qed.

Lemma Get_nofaults k s : (run (Get faults unmarshal k) s).2 = Some (entry unmarshal (files s) k).
Proof.
  assert (ok (Get faults unmarshal k) (fun r _ => r = entry unmarshal (files s) k) s) as H;
    [|by destruct (safe_returns _ _ _ _ H) as (s' & r & -> & _ & ->)].
  unfold Get, entry. destruct (short k); [done|]. apply (ok_read faults nofaults). intros s1 S1.
  destruct (cont (files s) (metaPath k)) as [mb|]; [|done]. cbn [mbind option_bind].
  destruct (unmarshal mb) as [m|]; [|done]. cbn [mbind option_bind].
  apply (ok_read faults nofaults). intros s2 S2.
  rewrite !cont_files_vis, (proj1 (proj1 S1)) by apply shardDir_tmp.
  destruct (cont (vis s) (bodyPath k)) as [b|]; [|done]. cbn. by destruct (_ =? Size m).
Qed.

Lemma spec_admit_self max key size e e' victims :
  0 <= max -> size <= max -> NoDup e.*1 -> spec_admit max key size e = (e', victims) -> key ∉ victims.
Proof.
  intros Hm Hs Hn. unfold spec_admit. destruct (Z.ltb_spec max size) as [|_]; [lia|].
  destruct (fit max (reverse ((key, size) :: without key e))) as [kept v] eqn:Ef. intros [= _ <-].
  destruct (fit_spec max (reverse ((key, size) :: without key e)) Hm) as (out & E & Hv & _ & Hmin).
  rewrite Ef in *. cbn [fst snd] in *. subst v. rewrite reverse_cons in E.
  destruct (decide (kept = [])) as [->|Hk].
  - exfalso. rewrite app_nil_r in E. specialize (Hmin _ _ (eq_sym E)). rewrite total_cons in Hmin. unfold total in Hmin. cbn in Hmin. lia.
  - destruct (exists_last Hk) as (kept' & x & ->). rewrite app_assoc in E. apply app_inj_tail in E as [E _].
    intros (kv & Ek & Hin)%list_elem_of_fmap.
    assert (kv ∈ reverse (without key e)) as Hin' by (rewrite E; set_solver).
    apply elem_of_reverse, list_elem_of_filter in Hin' as [Hne _]. congruence.
Qed.

(** Nothing a reader sees changes. *)
Definition still (s s' : DiskStorage) : Prop := same s s' /\ dirs s' = dirs s.

Lemma still_trans s1 s2 s3 : still s1 s2 -> still s2 s3 -> still s1 s3.
Proof. intros [E1 E2] [E3 E4]. split; [by eapply same_trans|congruence]. Qed.

Lemma writes_ok w chunks : wdone w = false -> (wtmp w).1 = "tmp" -> forall s b,
  cont (files s) (wtmp w) = Some b ->
  ok (each (fun p => Write faults p w ;; Ret tt) chunks)
    (fun _ s' => cont (files s') (wtmp w) = Some (b +:+ body_of chunks) /\ still s s') s.
Proof.
  intros Hd Ht. induction chunks as [|p chunks IH]; intros s b Hb.
  - split; [exact I|]. split; [|done]. cbn. rewrite Hb. f_equal. clear. induction b as [|c b IH]; [done|]. by rewrite append_cons, <- IH.
  - cbn [each]. apply safe_bind.
    replace (Write faults p w) with (WriteTo faults (wtmp w) p) by (unfold Write; by rewrite Hd).
    eapply ok_do; [reflexivity|]. split; [exact I|].
    eapply safe_mono; [apply (IH _ (b +:+ p))|].
    + unfold cont in *. cbn. rewrite lookup_alter_eq. destruct (files s !! wtmp w); [|done]. cbn in *. by injection Hb as ->.
    + intros _ s' _ [Hc Hs]. split.
      * rewrite Hc. f_equal. cbn. clear. induction b as [|c b IH]; [done|]. by rewrite !append_cons, IH.
      * eapply still_trans; [|exact Hs]. split; [|done]. split; [|done]. apply vis_ext. intros q Hq.
        apply lookup_alter_ne. congruence.
Qed.

(** A body written in pieces and committed is what a lookup of its key returns,
    with the metadata it was committed with, whenever no call fails and it fits the
    cap. *)
Theorem disk_fill_roundtrip max key chunks mt mb s :
  "tmp" ∈ dirs s -> short key = false -> 0 <= max < 2 ^ 62 -> wf max (index s) -> lmax (index s) = max ->
  marshal mt = Some mb -> unmarshal mb = Some mt ->
  Size mt = Z.of_nat (String.length (body_of chunks)) -> Size mt <= max ->
  exists s', run (fill_disk key chunks mt) s = (s', Some true) /\
             (run (Get faults unmarshal key) s').2 = Some (Some (mt, body_of chunks)).
Proof.
  intros Htmp Hk Hm W HM Em Eu Hsz Hle.
  assert (ok (fill_disk key chunks mt) (fun r s' => r = true /\ entry unmarshal (files s') key = Some (mt, body_of chunks)) s) as Hok.
  { unfold fill_disk, Writer. rewrite Hk. apply safe_bind. apply ok_temp. intros tmp s1 Ht F1 I1 D1.
    eapply ok_do. { cbn. rewrite decide_True by (rewrite Ht, D1; done). reflexivity. }
    split; [exact I|]. set (w := mkWriter key tmp false). apply safe_bind.
    eapply safe_mono; [apply (writes_ok w chunks eq_refl Ht _ "")|].
    { unfold cont. cbn. by rewrite lookup_insert_eq. }
    intros _ s2 _ [Hc [[V2 I2] D2]]. change ("" +:+ body_of chunks) with (body_of chunks) in Hc.
    cbn in I2, D2. rewrite D1 in D2. rewrite I1 in I2. rewrite <- I2 in W, HM. rewrite <- D2 in Htmp.
    apply safe_bind. destruct (files s2 !! wtmp w) as [g|] eqn:Eg; [|unfold cont in Hc; by rewrite Eg in Hc].
    eapply safe_mono; [apply safe_and; [by apply (Commit_succeeds mt mb w g s2)
      |by apply (Commit_ok faults marshal unmarshal T (fun _ _ _ => I) mt w s2)]|].
    intros [w' r] s3 _ [Hr [_ Hp]]. cbn in Hr. subst r. split; [exact I|]. split; [done|].
    destruct (committed_post faults marshal unmarshal mt w _ s2 s3 true nofaults_removes Hk Hc Hp) as (mb' & Em' & Hent).
    rewrite Em in Em'. injection Em' as <-. rewrite Hent, decide_False, decide_True; [|done|].
    - rewrite Eu. cbn. by rewrite <- Hsz, Z.eqb_refl.
    - subst max. pose proof (admit_ok (index s2) key (Size mt) W ltac:(lia) Hm) as Ha.
      destruct (lru_admit _ _ _) as [l' victims]. destruct Ha as (_ & _ & Ha).
      eapply spec_admit_self; [apply Hm|exact Hle|by eapply wf_nodup|exact Ha]. }
  destruct (safe_returns _ _ _ _ Hok) as (s' & r & Hr & _ & -> & He). exists s'. split; [done|]. by rewrite Get_nofaults, He.
Qed.
End Fill.

(** ** Concrete runs *)

(** A codec for metadata that has a status and a size, and is fresh for as many seconds
    as the status says. *)
Definition demo_meta (status size : Z) : Meta := mkMeta ∅ "" "" "" [] [] 0 (status * Second) 0 0 size status.
Definition demo_marshal (m : Meta) : option string := Some (pretty (Status m) +:+ " " +:+ pretty (Size m)).
Definition demo_unmarshal (s : string) : option Meta :=
  let '(a, b) := Cut " "%char s in
  status ← ParseInt a; size ← ParseInt b; Some (demo_meta status size).

Definition all_well (n : nat) (c : syscall) : option nat := None.
Definition no_dir_sync (n : nat) (c : syscall) : option nat := match c with SSyncDir _ => Some 0%nat | _ => None end.

Definition empty_disk (max wall : Z) : DiskStorage := mk ∅ {["tmp"]} (newLRU max) 0 wall 0.
Definition demo_fill (status : Z) (b : string) : prog DiskStorage bool :=
  fill_disk all_well demo_marshal "ab1" [b] (demo_meta status (Z.of_nat (String.length b))).
(** A disk with one entry. *)
Definition demo_disk (wall : Z) : DiskStorage := (run (demo_fill 200 "hello") (empty_disk 100 wall)).1.

Definition demo_writer (s : DiskStorage) : diskWriter :=
  match (run (Writer all_well "ab1") s).2 with Some (Some w) => w | _ => mkWriter "" ("", "") true end.
(** The entry is being replaced by one of the same length. *)
Definition demo_open : DiskStorage := (run (Write all_well "WORLD" (demo_writer (demo_disk 0))) (run (Writer all_well "ab1") (demo_disk 0)).1).1.
Definition demo_w : diskWriter := demo_writer (demo_disk 0).

(** Between the two renames a lookup pairs the old metadata with the new body. *)
Lemma disk_commit_crash_witness :
  let s' := after 4 (Commit all_well demo_marshal (demo_meta 201 5) demo_w) demo_open in
  (run (Get all_well demo_unmarshal "ab1") s').2 = Some (Some (demo_meta 200 5, "WORLD")) /\
  (entry demo_unmarshal (files demo_open) "ab1" = Some (demo_meta 200 5, "WORLD") \/
   "ab1" = wkey demo_w /\ "WORLD" = "WORLD" /\ Size (demo_meta 200 5) = Z.of_nat (String.length "WORLD") /\
     exists mb, demo_unmarshal mb = Some (demo_meta 200 5) /\
       (demo_marshal (demo_meta 201 5) = Some mb \/ cont (files demo_open) (metaPath "ab1") = Some mb)).
Proof.
  split; [vm_compute; reflexivity|].
  apply (disk_commit_crash all_well demo_marshal demo_unmarshal 4 (demo_meta 201 5) demo_w "WORLD" demo_open);
    vm_compute; reflexivity.
Defined.

(** The directory cannot be made durable: the commit fails and the key reads as a miss. *)
Lemma disk_commit_result_witness :
  let r := run (Commit no_dir_sync demo_marshal (demo_meta 201 5) demo_w) demo_open in
  entry demo_unmarshal (files r.1) "ab1" = None /\
  commit_post demo_marshal demo_unmarshal (demo_meta 201 5) (wkey demo_w) "WORLD" demo_open r.1 false.
Proof.
  split; [vm_compute; reflexivity|].
  apply (disk_commit_result no_dir_sync demo_marshal demo_unmarshal (demo_meta 201 5) demo_w "WORLD" demo_open _
    (mkWriter (wkey demo_w) (wtmp demo_w) true) false); [by intros n p|vm_compute; reflexivity..].
Defined.

Lemma disk_fill_roundtrip_witness :
  exists s', run (fill_disk all_well demo_marshal "ab1" ["hel"; "lo"] (demo_meta 200 5)) (empty_disk 100 0) = (s', Some true) /\
    (run (Get all_well demo_unmarshal "ab1") s').2 = Some (Some (demo_meta 200 5, "hello")).
Proof.
  apply (disk_fill_roundtrip all_well demo_marshal demo_unmarshal (fun _ _ => eq_refl) 100 "ab1" ["hel"; "lo"] (demo_meta 200 5) "200 5");
    [set_solver|reflexivity|lia|by apply newLRU_wf|reflexivity|vm_compute; reflexivity..|].
  cbn. lia.
Defined.

(** One fill as steps of the storage. *)
Definition opened (key : string) (s : DiskStorage) : DiskStorage * diskWriter :=
  match run (Writer all_well key) s with
  | (s', Some (Some w)) => (s', w)
  | _ => (s, mkWriter "" ("", "") true)
  end.
Definition fill_state (key b : string) (s : DiskStorage) : DiskStorage :=
  let '(s1, w) := opened key s in
  (run (Commit all_well demo_marshal (demo_meta 200 (Z.of_nat (String.length b))) w) (run (Write all_well b w) s1).1).1.
Definition fill_writer (key : string) (s : DiskStorage) : diskWriter :=
  mkWriter (wkey (opened key s).2) (wtmp (opened key s).2) true.

Lemma fill_steps key b s ws :
  run (Writer all_well key) s = ((opened key s).1, Some (Some (opened key s).2)) ->
  cont (files (run (Write all_well b (opened key s).2) (opened key s).1).1) (wtmp (opened key s).2) = Some b ->
  run (Commit all_well demo_marshal (demo_meta 200 (Z.of_nat (String.length b))) (opened key s).2)
    (run (Write all_well b (opened key s).2) (opened key s).1).1 = (fill_state key b s, Some (fill_writer key s, true)) ->
  rtc (dstep all_well demo_marshal demo_unmarshal) (s, ws) (fill_state key b s, ws ++ [fill_writer key s]).
Proof.
  intros Hw Hc Hr.
  assert ((ws ++ [(opened key s).2]) !! length ws = Some (opened key s).2) as Hl by (by rewrite lookup_app_r, Nat.sub_diag by lia).
  eapply rtc_l; [eapply step_writer; exact Hw|]. cbn [option_list].
  eapply rtc_l; [eapply step_write; exact Hl|].
  eapply rtc_l; [eapply step_commit; [exact Hl| |exact Hr]|].
  - intros b' _ Hb'. rewrite Hc in Hb'. by injection Hb' as <-.
  - by rewrite insert_app_r_alt, Nat.sub_diag by lia.
Qed.

(** A cap of eight bytes: the second entry evicts the first. *)
Lemma disk_within_cap_witness :
  let s1 := fill_state "ab1" "hello" (empty_disk 8 0) in
  let s2 := fill_state "cd2" "world!" s1 in
  body_bytes (vis s1) = 5 /\ body_bytes (vis s2) = 6 /\ exists ws, capped 8 (s2, ws) /\ body_bytes (vis s2) <= 8.
Proof.
  split; [vm_compute; reflexivity|]. split; [vm_compute; reflexivity|].
  exists ([fill_writer "ab1" (empty_disk 8 0)] ++ [fill_writer "cd2" (fill_state "ab1" "hello" (empty_disk 8 0))]).
  refine (disk_within_cap all_well demo_marshal demo_unmarshal (fun _ _ => eq_refl) 8 (empty_disk 8 0, [])
    (fill_state "cd2" "world!" (fill_state "ab1" "hello" (empty_disk 8 0)), _) _ _ _); [lia| |].
  - split; [by apply newLRU_wf|reflexivity| |constructor]. intros p f kz Hp. done.
  - etrans; [apply (fill_steps "ab1" "hello" (empty_disk 8 0) []); vm_compute; reflexivity|].
    apply fill_steps; vm_compute; reflexivity.
Defined.

(** ** The scan *)

(** What a process left: an old whole entry, an old body without metadata, a recent one,
    and two temporary files, one of them recent. *)
Definition left_behind : DiskStorage :=
  mk (<[bodyPath "ab1" := mkFile "hello" 0]> (<[metaPath "ab1" := mkFile "200 5" 0]>
      (<[bodyPath "ab2" := mkFile "orphan" 0]> (<[("tmp", "1") := mkFile "he" 0]> (<[("tmp", "2") := mkFile "he" (80 * Second)]>
      {[bodyPath "cd3" := mkFile "renamed" (80 * Second)]})))))
     {["tmp"; "ab"; "cd"]} (newLRU 100) 0 (90 * Second) 0.

Lemma left_behind_tidy : tidy left_behind.
Proof.
  intros p f [Hp Ht]%map_lookup_filter_Some. cbn in Hp, Ht.
  repeat (apply lookup_insert_Some in Hp as [[<- _]|[_ Hp]];
    [first [by destruct Ht|split; [cbn; set_solver|eexists; split; [|by eauto]; done]]|]).
  apply lookup_singleton_Some in Hp as [<- _]. split; [cbn; set_solver|]. exists "cd3". by auto.
Qed.

Definition after_scan : DiskStorage := (run (scan all_well demo_unmarshal (90 * Second)) left_behind).1.


(** ** Interleavings *)

Definition reader : prog DiskStorage (option (Meta * string)) := Get all_well demo_unmarshal "ab1".
Definition committer (mt : Meta) (w : diskWriter) : prog DiskStorage (option (Meta * string)) :=
  Commit all_well demo_marshal mt w ;; Ret None.

(** A reader that runs between the two renames of a commit gets the old metadata with
    the new body: the length check of [Get] only excludes bodies of another length. *)
Theorem disk_mixed_read :
  exists sched, snd (exec sched (demo_open, [committer (demo_meta 201 5) demo_w; reader])) !! 1%nat =
    Some (Ret (Some (demo_meta 200 5, "WORLD"))).
Proof. exists (replicate 4 0 ++ replicate 3 1)%nat. vm_compute. reflexivity. Qed.

(** The entry on disk is expired, and a new one is being committed. *)
Definition expired_disk : DiskStorage := set_wall (201 * Second) (demo_disk 0).
Definition refill : prog DiskStorage unit := demo_fill 201 "again" ;; Ret tt.

(** The scan stats a file and removes it in two calls: a commit in between loses the
    sidecar it has just put in place, although its file is new. *)
Theorem disk_scan_race :
  exists sched, let c := exec sched (expired_disk, [scan all_well demo_unmarshal (201 * Second); refill]) in
    snd c = [Ret tt; Ret tt] /\ entry demo_unmarshal (files (fst c)) "ab1" = None /\
    entry demo_unmarshal (files (run refill expired_disk).1) "ab1" = Some (demo_meta 201 5, "again").
Proof. exists (replicate 5 0 ++ replicate 40 1 ++ replicate 40 0)%nat. vm_compute. repeat split; reflexivity. Qed.
End DiskRuns.
