(* ===== verification/GoIO.v ===== *)
(** * Readers

    The parts of Go's [io] the middlewares use on request bodies.  A body is a stream:
    the bytes that can still be read and how it ends, with the end of file or with an
    error, which then stays. *)

From S2P Require Import Prelude GoStrings.

Record reader := mkReader { data : string; fail : option string }.

Definition reader_eof (s : string) : reader := mkReader s None.

Definition strtake (n : nat) (s : string) : string := String.substring 0 n s.
Definition strdrop (n : nat) (s : string) : string := String.substring n (String.length s) s.

(** [io.ReadAll(io.LimitReader(r, n))]: the bytes, the error, and what is left of [r].
    The limit is reached without looking for the end. *)
Definition ReadAllLimit (n : Z) (r : reader) : string * option string * reader :=
  if n <=? 0 then ("", None, r)
  else if n <=? Z.of_nat (String.length (data r)) then
    (strtake (Z.to_nat n) (data r), None, mkReader (strdrop (Z.to_nat n) (data r)) (fail r))
  else (data r, fail r, mkReader "" (fail r)).

(** [io.CopyN(dst, r, n)]: the error is [Some None] for [io.EOF]. *)
Definition CopyN (n : Z) (r : reader) : string * option (option string) * reader :=
  let '(b, err, rest) := ReadAllLimit n r in
  let written := Z.of_nat (String.length b) in
  (b, if written =? n then None
      else match err with
           | Some e => Some (Some e)
           | None => if written <? n then Some None else None
           end, rest).

(** [io.ReadAll(r)]. *)
Definition ReadAll (r : reader) : string * option string := (data r, fail r).

(** [io.MultiReader(bytes.NewReader(buf), r)]. *)
Definition MultiReader (buf : string) (r : reader) : reader := mkReader (buf +:+ data r) (fail r).

Lemma substring_all s m : (String.length s <= m)%nat -> String.substring 0 m s = s.
Proof.
  revert m. induction s as [|c s IH]; intros m Hm; [by destruct m|].
  destruct m as [|m]; [cbn in Hm; lia|]. cbn in *. by rewrite IH by lia.
Qed.

Lemma strtake_drop n s : strtake n s +:+ strdrop n s = s.
Proof.
  unfold strtake, strdrop. enough (forall m, (String.length s <= m)%nat -> String.substring 0 n s +:+ String.substring n m s = s) as H by (by apply H).
  revert n. induction s as [|c s IH]; intros n m Hm; [by destruct n, m|]. destruct n as [|n]; cbn [String.substring].
  - exact (substring_all (String c s) m Hm).
  - change (String c (String.substring 0 n s +:+ String.substring n m s) = String c s). rewrite IH; [done|]. cbn in Hm. lia.
Qed.

Lemma strtake_length n s : String.length (strtake n s) = (n `min` String.length s)%nat.
Proof. unfold strtake. revert n. induction s as [|c s IH]; intros [|n]; cbn; try done. by rewrite IH. Qed.

(** What was read put back in front of the rest is the stream itself. *)
Lemma ReadAllLimit_restore n r :
  let '(b, _, rest) := ReadAllLimit n r in MultiReader b rest = r.
Proof.
  destruct r as [d f]. unfold ReadAllLimit, MultiReader. cbn [data fail]. destruct (n <=? 0); [done|].
  destruct (n <=? _); cbn; [by rewrite strtake_drop|by rewrite append_nil_r].
Qed.

Lemma ReadAllLimit_bound n r :
  let '(b, _, _) := ReadAllLimit n r in Z.of_nat (String.length b) <= Z.max 0 n.
Proof.
  unfold ReadAllLimit. destruct (Z.leb_spec n 0); [cbn; lia|]. destruct (Z.leb_spec n (Z.of_nat (String.length (data r)))); [|lia].
  rewrite strtake_length. lia.
Qed.
