(* ===== verification/WafEngine.v ===== *)
(** * pkg/waf: what rules see and call

    [src/pkg/waf/engine.go] (the functions offered to rules, with the caches of compiled
    patterns and networks) and [request.go] (the map a rule reads).  CEL itself, the
    regular expressions and the Unicode case tables are parameters.  The caches are
    [sync.Map]s: a lookup and a store are an atomic action each. *)

From Stdlib Require Import Ascii.
From S2P Require Import Prelude Concurrency GoStrings GoNet Headers.

Module WafEngine.
Import NetIP.
Open Scope go_scope.

(** ** Values of CEL *)

Inductive celError :=
  | NotString (fn arg : string)
  | NotList (fn : string)
  | ElementNotString (fn : string)
  | BadPattern (fn : string).

Inductive val :=
  | VString (s : string)
  | VInt (n : Z)
  | VBool (b : bool)
  | VList (l : list val)
  | VMap (m : gmap string string)
  | VErr (e : celError)
  | VOther.

Definition requestVar : string := "request".

Definition asString (v : val) : option string := match v with VString s => Some s | _ => None end.

Fixpoint strings_of (l : list val) : option (list string) :=
  match l with
  | [] => Some []
  | el :: l => s ← asString el; rest ← strings_of l; Some (s :: rest)
  end.

Definition listFromRefVal (fn : string) (v : val) : celError + list string :=
  match v with
  | VList l => match strings_of l with Some l => inr l | None => inl (ElementNotString fn) end
  | _ => inl (NotList fn)
  end.

(** [strings.Contains]. *)
Fixpoint Contains_str (s sub : string) : bool :=
  HasPrefix sub s || match s with EmptyString => false | String _ s => Contains_str s sub end.

Fixpoint any_of (test : string -> bool) (l : list string) : bool :=
  match l with
  | [] => false
  | x :: l => if negb (String.eqb x "") && test x then true else any_of test l
  end.

Definition celContainsAny (sv lv : val) : val :=
  match asString sv with
  | None => VErr (NotString "containsAny" "input")
  | Some s =>
      match listFromRefVal "containsAny" lv with
      | inl e => VErr e
      | inr list => VBool (any_of (Contains_str s) list)
      end
  end.

Definition celHasPrefixAny (sv lv : val) : val :=
  match asString sv with
  | None => VErr (NotString "hasPrefixAny" "input")
  | Some s =>
      match listFromRefVal "hasPrefixAny" lv with
      | inl e => VErr e
      | inr list => VBool (any_of (fun p => HasPrefix p s) list)
      end
  end.

(** [url.QueryUnescape]. *)
Fixpoint QueryUnescape (s : string) : option string :=
  match s with
  | EmptyString => Some ""
  | String "%" (String a (String b s)) =>
      x ← hex_digit a; y ← hex_digit b; rest ← QueryUnescape s;
      Some (String (ascii_of_N (Z.to_N (16 * x + y))) rest)
  | String "%" _ => None
  | String "+" s => String " " <$> QueryUnescape s
  | String c s => String c <$> QueryUnescape s
  end.

Definition celURLDecode (v : val) : val :=
  match asString v with
  | None => VErr (NotString "urlDecode" "input")
  | Some s => VString (default "" (QueryUnescape s))
  end.

Section Engine.
Context {Regexp : Type} (regexpCompile : string -> option Regexp) (MatchString : Regexp -> string -> bool).
Context (unicodeLower unicodeUpper : string -> string).

Definition celLower (v : val) : val :=
  match asString v with None => VErr (NotString "lower" "input") | Some s => VString (unicodeLower s) end.
Definition celUpper (v : val) : val :=
  match asString v with None => VErr (NotString "upper" "input") | Some s => VString (unicodeUpper s) end.

(** ** The caches *)

(** An entry is what compiling gave, a failure included. *)
Record caches := mkCaches { regexCache : gmap string (option Regexp); cidrCache : gmap string (option IPNet) }.

Definition store_regex (pattern : string) (r : option Regexp) (c : caches) : caches :=
  mkCaches (<[pattern := r]> (regexCache c)) (cidrCache c).
Definition store_cidr (cidr : string) (n : option IPNet) (c : caches) : caches :=
  mkCaches (regexCache c) (<[cidr := n]> (cidrCache c)).

Definition compileRegex (pattern : string) : prog caches (option Regexp) :=
  v <- load (fun c => regexCache c !! pattern) ;;
  match v with
  | Some r => Ret r
  | None =>
      match regexpCompile pattern with
      | None => store (store_regex pattern None) ;; Ret None
      | Some re => store (store_regex pattern (Some re)) ;; Ret (Some re)
      end
  end.

Definition parseCIDR (cidr : string) : prog caches (option IPNet) :=
  v <- load (fun c => cidrCache c !! cidr) ;;
  match v with
  | Some r => Ret r
  | None =>
      match ParseCIDR cidr with
      | None => store (store_cidr cidr None) ;; Ret None
      | Some n => store (store_cidr cidr (Some n)) ;; Ret (Some n)
      end
  end.

Definition celIpInCidr (ipv cidrv : val) : prog caches val :=
  match asString ipv with
  | None => Ret (VErr (NotString "ipInCidr" "ip"))
  | Some ip =>
      match asString cidrv with
      | None => Ret (VErr (NotString "ipInCidr" "cidr"))
      | Some cidr =>
          n <- parseCIDR cidr ;;
          match n with
          | None => Ret (VErr (BadPattern "ipInCidr"))
          | Some n =>
              match ParseIP ip with
              | None => Ret (VBool false)
              | Some addr => Ret (VBool (Contains n addr))
              end
          end
      end
  end.

Definition celRegexMatch (sv pv : val) : prog caches val :=
  match asString sv with
  | None => Ret (VErr (NotString "regexMatch" "input"))
  | Some s =>
      match asString pv with
      | None => Ret (VErr (NotString "regexMatch" "pattern"))
      | Some pattern =>
          re <- compileRegex pattern ;;
          match re with
          | None => Ret (VErr (BadPattern "regexMatch"))
          | Some re => Ret (VBool (MatchString re s))
          end
      end
  end.

(** The functions of the environment, as rules call them. *)
Inductive call :=
  | CIpInCidr (ip cidr : val) | CRegexMatch (s pattern : val) | CContainsAny (s list : val)
  | CHasPrefixAny (s list : val) | CLower (s : val) | CUpper (s : val) | CURLDecode (s : val).

Definition newCELEnv (c : call) : prog caches val :=
  match c with
  | CIpInCidr a b => celIpInCidr a b
  | CRegexMatch a b => celRegexMatch a b
  | CContainsAny a b => Ret (celContainsAny a b)
  | CHasPrefixAny a b => Ret (celHasPrefixAny a b)
  | CLower a => Ret (celLower a)
  | CUpper a => Ret (celUpper a)
  | CURLDecode a => Ret (celURLDecode a)
  end.
End Engine.

(** ** The request map *)

(** A request as net/http presents it: [Cookies] is what [r.Cookies()] parses, in
    order, and [Query] what [r.URL.Query()] parses. *)
Record Request := mkRequest {
  Method : string;
  Host : string;
  Path : string;
  RawQuery : string;
  RequestURI : string;
  Proto : string;
  TLS : bool;
  RemoteAddr : string;
  ContentLength : Z;
  Header : header;
  Cookies : list (string * string);
  Query : gmap string (list string);
}.

Definition clientIP (r : Request) : string :=
  let v := HGet (Header r) "X-Real-Ip" in
  if negb (String.eqb v "") then v
  else
    let v := HGet (Header r) "X-Forwarded-For" in
    if negb (String.eqb v "") then
      match IndexByte ","%char (chars v) with
      | Some (S i) => TrimSpace (text (take (S i) (chars v)))
      | _ => v
      end
    else
      match SplitHostPort (RemoteAddr r) with
      | None => RemoteAddr r
      | Some (host, _) => host
      end.

Section RequestMap.
(** The order in which [range] visits a map. *)
Context (ranged : gmap string (list string) -> list (string * list string)).

Definition header_map (h : header) : gmap string string :=
  foldl (fun m kv => match kv.2 with [] => m | v :: _ => <[ToLower kv.1 := v]> m end) ∅ (ranged h).
Definition cookie_map (cs : list (string * string)) : gmap string string := foldl (fun m c => <[c.1 := c.2]> m) ∅ cs.
Definition arg_map (q : gmap string (list string)) : gmap string string :=
  foldl (fun m kv => match kv.2 with [] => m | v :: _ => <[kv.1 := v]> m end) ∅ (ranged q).

Definition scheme (r : Request) : string :=
  let v := HGet (Header r) "X-Forwarded-Proto" in
  if negb (String.eqb v "") then v else if TLS r then "https" else "http".

Definition buildRequestMap (r : Request) (body country : string) (asn : Z) : gmap string val :=
  list_to_map [
    ("method", VString (Method r)); ("host", VString (Host r)); ("path", VString (Path r));
    ("query", VString (RawQuery r)); ("uri", VString (RequestURI r)); ("proto", VString (Proto r));
    ("scheme", VString (scheme r)); ("remote_ip", VString (clientIP r)); ("country", VString country);
    ("asn", VInt asn); ("content_length", VInt (ContentLength r));
    ("headers", VMap (header_map (Header r))); ("cookies", VMap (cookie_map (Cookies r)));
    ("args", VMap (arg_map (Query r)));
    ("user_agent", VString (HGet (Header r) "User-Agent")); ("referer", VString (HGet (Header r) "Referer"));
    ("body", VString body)].
End RequestMap.
End WafEngine.

Module WafEngineFacts.
Import NetIP WafEngine.

(** ** Cached calls *)

Section Engine.
Context {Regexp : Type} (regexpCompile : string -> option Regexp) (MatchString : Regexp -> string -> bool).
Context (unicodeLower unicodeUpper : string -> string).

(** The functions without the caches. *)
Definition pure_call (c : call) : val :=
  match c with
  | CIpInCidr ipv cidrv =>
      match asString ipv, asString cidrv with
      | None, _ => VErr (NotString "ipInCidr" "ip")
      | _, None => VErr (NotString "ipInCidr" "cidr")
      | Some ip, Some cidr =>
          match ParseCIDR cidr with
          | None => VErr (BadPattern "ipInCidr")
          | Some n => VBool (match ParseIP ip with Some addr => Contains n addr | None => false end)
          end
      end
  | CRegexMatch sv pv =>
      match asString sv, asString pv with
      | None, _ => VErr (NotString "regexMatch" "input")
      | _, None => VErr (NotString "regexMatch" "pattern")
      | Some s, Some pattern =>
          match regexpCompile pattern with
          | None => VErr (BadPattern "regexMatch")
          | Some re => VBool (MatchString re s)
          end
      end
  | CContainsAny a b => celContainsAny a b
  | CHasPrefixAny a b => celHasPrefixAny a b
  | CLower a => celLower unicodeLower a
  | CUpper a => celUpper unicodeUpper a
  | CURLDecode a => celURLDecode a
  end.

Local Abbreviation env' := (newCELEnv regexpCompile MatchString unicodeLower unicodeUpper).

(** Entries are what compiling the key gives. *)
Definition caches_right (c : caches (Regexp := Regexp)) : Prop :=
  (forall p r, regexCache c !! p = Some r -> r = regexpCompile p) /\
  (forall p n, cidrCache c !! p = Some n -> n = ParseCIDR p).

Definition alone (c c' : caches (Regexp := Regexp)) : Prop := False.
Definition anything (j : nat) (c c' : caches (Regexp := Regexp)) : Prop := True.

#[local] Instance cache_rg : RelyGuarantee alone anything anything caches_right.
Proof. by split. Qed.

Local Abbreviation rgc := (rg anything anything caches_right).

Lemma compileRegex_rg {B} j p (f : option Regexp -> prog _ B) Q c :
  (forall c', rgc j (f (regexpCompile p)) Q c') -> rgc j (bind (compileRegex regexpCompile p) f) Q c.
Proof.
  intros Hf c1 _ H1. split; [done|]. cbn. destruct (regexCache c1 !! p) as [r|] eqn:E; cbn.
  - rewrite (proj1 H1 _ _ E). apply Hf.
  - destruct (regexpCompile p) as [re|] eqn:Ep; cbn; intros c2 _ [H2 H3]; (split; [|apply Hf]);
      (split; [done|]); (split; [|done]); cbn; intros p' r [[<- <-]|[_ ?]]%lookup_insert_Some; by auto.
Qed.

Lemma parseCIDR_rg {B} j p (f : option IPNet -> prog _ B) Q c :
  (forall c', rgc j (f (ParseCIDR p)) Q c') -> rgc j (bind (parseCIDR (Regexp := Regexp) p) f) Q c.
Proof.
  intros Hf c1 _ H1. split; [done|]. cbn. destruct (cidrCache c1 !! p) as [r|] eqn:E; cbn.
  - rewrite (proj2 H1 _ _ E). apply Hf.
  - destruct (ParseCIDR p) as [n|] eqn:Ep; cbn; intros c2 _ [H2 H3]; (split; [|apply Hf]);
      (split; [done|]); (split; [done|]); cbn; intros p' r [[<- <-]|[_ ?]]%lookup_insert_Some; by auto.
Qed.

Lemma call_rg j cl c : rgc j (env' cl) (fun v _ => v = pure_call cl) c.
Proof.
  destruct cl as [ipv cidrv|sv pv| | | | |]; try (by intros c' _ _); cbn [newCELEnv pure_call].
  - unfold celIpInCidr. destruct (asString ipv) as [ip|]; [|by intros c' _ _].
    destruct (asString cidrv) as [cidr|]; [|by intros c' _ _]. apply parseCIDR_rg. intros c'.
    destruct (ParseCIDR cidr) as [n|]; [|by intros c2 _ _]. destruct (ParseIP ip); by intros c2 _ _.
  - unfold celRegexMatch. destruct (asString sv) as [s|]; [|by intros c' _ _].
    destruct (asString pv) as [p|]; [|by intros c' _ _]. apply compileRegex_rg. intros c'.
    destruct (regexpCompile p) as [re|]; by intros c2 _ _.
Qed.

Lemma call_run cl c : caches_right c -> (run (env' cl) c).2 = Some (pure_call cl).
Proof.
  intros [H1 H2]. destruct cl as [ipv cidrv|sv pv| | | | |]; try done; cbn [newCELEnv pure_call].
  - unfold celIpInCidr, parseCIDR. destruct (asString ipv) as [ip|]; [|done]. destruct (asString cidrv) as [cidr|]; [|done].
    cbn. destruct (cidrCache c !! cidr) as [r|] eqn:E; cbn; [rewrite (H2 _ _ E)|]; destruct (ParseCIDR cidr); try done; cbn;
      by destruct (ParseIP ip).
  - unfold celRegexMatch, compileRegex. destruct (asString sv) as [s|]; [|done]. destruct (asString pv) as [p|]; [|done].
    cbn. destruct (regexCache c !! p) as [r|] eqn:E; cbn; [rewrite (H1 _ _ E)|]; by destruct (regexpCompile p).
Qed.

(** However the calls of concurrently evaluated rules interleave at the shared
    caches, every call returns what it would without them, compilation errors
    included, and so does every later call. *)
Theorem waf_calls_uncached calls c c' ps :
  caches_right c -> rtc (pstep alone) (c, env' <$> calls) (c', ps) ->
  (forall j cl v, calls !! j = Some cl -> ps !! j = Some (Ret v) -> v = pure_call cl) /\
  forall cl, (run (env' cl) c').2 = Some (pure_call cl).
Proof.
  intros Hc Hr.
  destruct (pool_sound alone anything anything caches_right
    (fun j v _ => forall cl, calls !! j = Some cl -> v = pure_call cl) c (env' <$> calls) c' ps) as [H1 H2]; [done| |done|].
  - intros j p Hj. apply list_lookup_fmap_Some in Hj as (cl & -> & Hcl).
    eapply (rg_mono anything anything caches_right); [|apply call_rg]. intros v c2 _ -> cl' Hcl'. congruence.
  - split; [by eauto|]. intros cl. by apply call_run.
Qed.

(** ** Lists of patterns *)

Lemma Contains_str_spec s sub : Contains_str s sub = true <-> exists a b, s = a +:+ sub +:+ b.
Proof.
  assert (forall p s, HasPrefix p s = true <-> exists b, s = p +:+ b) as Hp.
  { induction p as [|c p IH]; intros s0; cbn.
    - split; [by exists s0|done].
    - destruct s0 as [|d s0]; cbn.
      + split; [done|]. by intros [b ?].
      + rewrite andb_true_iff, IH, Ascii.eqb_eq. split.
        * intros [-> [b ->]]. by exists b.
        * intros [b [= -> ->]]. split; [done|by exists b]. }
  induction s as [|c s IH]; cbn [Contains_str]; rewrite orb_true_iff, Hp.
  - split; [intros [[b E]|?]; [by exists "", b|done]|]. intros (a & b & E). left. destruct a; [by exists b|done].
  - rewrite IH. split.
    + intros [[b E]|(a & b & ->)]; [by exists "", b|]. by exists (String c a), b.
    + intros ([|d a] & b & E); [left; by exists b|]. right. injection E as _ E. by exists a, b.
Qed.

Lemma any_of_spec test l : any_of test l = true <-> exists x, x ∈ l /\ x <> "" /\ test x = true.
Proof.
  induction l as [|x l IH]; cbn; [split; [done|]; intros (x & H & _); set_solver|].
  destruct (String.eqb_spec x "") as [->|Hx]; cbn.
  - rewrite IH. split; intros (y & Hy & Hn & Ht); exists y; set_solver.
  - destruct (test x) eqn:E.
    + split; [|done]. intros _. exists x. set_solver.
    + rewrite IH. split; intros (y & Hy & Hn & Ht); exists y; [set_solver|].
      apply elem_of_cons in Hy as [->|Hy]; [congruence|done].
Qed.
End Engine.

(** ** The request map *)

Section View.
Context (ranged : gmap string (list string) -> list (string * list string)).
Context (ranged_all : forall m, ranged m ≡ₚ map_to_list m).

Definition put_first (g : string -> string) (m : gmap string string) (kv : string * list string) : gmap string string :=
  match kv.2 with [] => m | v :: _ => <[g kv.1 := v]> m end.

Lemma put_first_found g l m k v vs :
  (k, v :: vs) ∈ l -> (forall k' vs', (k', vs') ∈ l -> g k' = g k -> k' = k /\ vs' = v :: vs) ->
  foldl (put_first g) m l !! g k = Some v.
Proof.
  induction l as [|[k' vs'] l IH] using rev_ind; intros Hin Hu; [set_solver|].
  rewrite foldl_app. cbn. unfold put_first at 1. cbn. destruct (decide (g k' = g k)) as [E|Hne].
  - destruct (Hu k' vs') as [-> ->]; [set_solver|done|]. apply lookup_insert_eq.
  - assert ((k, v :: vs) ∈ l) as Hin'.
    { apply elem_of_app in Hin as [?|[= -> ->]%list_elem_of_singleton]; done. }
    destruct vs'; rewrite ?lookup_insert_ne by done; (apply IH; [done|intros; apply Hu; [set_solver|done]]).
Qed.

Lemma put_first_none g l m j :
  (forall k vs, (k, vs) ∈ l -> g k = j -> vs = []) -> foldl (put_first g) m l !! j = m !! j.
Proof.
  induction l as [|[k vs] l IH] using rev_ind; intros Hn; [done|]. rewrite foldl_app. cbn.
  unfold put_first at 1. cbn. destruct vs as [|v vs]; [apply IH; set_solver|].
  rewrite lookup_insert_ne; [apply IH; set_solver|]. intros E. by specialize (Hn k (v :: vs) ltac:(set_solver) E).
Qed.

Lemma put_first_all g h k :
  (forall k', is_Some (h !! k') -> g k' = g k -> k' = k) ->
  foldl (put_first g) ∅ (ranged h) !! g k = head (default [] (h !! k)).
Proof.
  intros Hinj. assert (forall k' vs, (k', vs) ∈ ranged h <-> h !! k' = Some vs) as Hr.
  { intros k' vs. rewrite (ranged_all h). apply elem_of_map_to_list. }
  destruct (h !! k) as [[|v vs]|] eqn:E; cbn.
  - apply put_first_none. intros k' vs' Hin%Hr Eg. rewrite (Hinj k') in Hin by eauto. congruence.
  - apply (put_first_found g _ _ k v vs); [by apply Hr|]. intros k' vs' Hin%Hr Eg.
    assert (k' = k) as -> by (apply Hinj; eauto). split; congruence.
  - apply put_first_none. intros k' vs' Hin%Hr Eg. rewrite (Hinj k') in Hin by eauto. congruence.
Qed.

Definition last_cookie (cs : list (string * string)) (name : string) : option string :=
  snd <$> last (filter (fun c => c.1 = name) cs).
(** [http.Request.Cookie]: the first of the name. *)
Definition first_cookie (cs : list (string * string)) (name : string) : option string :=
  snd <$> head (filter (fun c => c.1 = name) cs).

Lemma cookie_map_last cs name : cookie_map cs !! name = last_cookie cs name.
Proof.
  unfold cookie_map, last_cookie. induction cs as [|[n v] cs IH] using rev_ind; [done|].
  rewrite foldl_app, filter_app, last_app. cbn. destruct (decide (n = name)) as [->|Hne].
  - by rewrite lookup_insert_eq.
  - rewrite lookup_insert_ne by done. by rewrite IH.
Qed.

(** A rule that reads [request] sees, for every header the first value under its
    lower-case name when no two names differ only in case, for every query parameter its
    first value, for every cookie name the last cookie, and the client's address as the
    proxy layer left it; every documented field is there. *)
Theorem waf_request_view r body country asn :
  let m := buildRequestMap ranged r body country asn in
  (forall f, f ∈ ["method"; "host"; "path"; "query"; "uri"; "proto"; "scheme"; "remote_ip"; "country"; "asn";
                  "content_length"; "headers"; "cookies"; "args"; "user_agent"; "referer"; "body"] <-> is_Some (m !! f)) /\
  m !! "remote_ip" = Some (VString (clientIP r)) /\ m !! "body" = Some (VString body) /\
  exists hs cs ars, m !! "headers" = Some (VMap hs) /\ m !! "cookies" = Some (VMap cs) /\ m !! "args" = Some (VMap ars) /\
    (forall k, (forall k', is_Some (Header r !! k') -> ToLower k' = ToLower k -> k' = k) ->
       hs !! ToLower k = head (default [] (Header r !! k))) /\
    (forall k, ars !! k = head (default [] (Query r !! k))) /\
    (forall name, cs !! name = last_cookie (Cookies r) name).
Proof.
  intros m. split_and!.
  - intros f. unfold m, buildRequestMap. split.
    + intros H. repeat (apply elem_of_cons in H as [->|H]; [vm_compute; by eexists|]). by apply elem_of_nil in H.
    + intros [v Hv%elem_of_list_to_map_2]. by repeat (apply elem_of_cons in Hv as [[= -> _]|Hv]; [set_solver|]); apply elem_of_nil in Hv.
  - reflexivity.
  - reflexivity.
  - exists (header_map ranged (Header r)), (cookie_map (Cookies r)), (arg_map ranged (Query r)).
    split_and!; [reflexivity..| | |].
    + intros k Hk. apply (put_first_all ToLower). exact Hk.
    + intros k. by apply (put_first_all (fun k => k)).
    + apply cookie_map_last.
Qed.

(** The comment on cookies says the last one is what [http.Request.Cookie] returns; it
    returns the first, so a rule and a handler can see different values. *)
Theorem waf_cookie_differs :
  cookie_map [("session", "evil"); ("session", "harmless")] !! "session" = Some "harmless" /\
  first_cookie [("session", "evil"); ("session", "harmless")] "session" = Some "evil".
Proof. by vm_compute. Qed.
End View.

(** ** Examples *)

(** Two rules that match the same pattern at once, the second between the first's lookup
    and its store. *)
Definition demo_compile (p : string) : option string := if String.eqb p "(" then None else Some p.
Definition demo_match (re s : string) : bool := String.eqb re s.
Definition demo_calls : list call := [CRegexMatch (VString "a") (VString "a"); CRegexMatch (VString "b") (VString "a")].
Definition demo_env : call -> prog (caches (Regexp := string)) val := newCELEnv demo_compile demo_match ToLower ToLower.
Definition no_caches : caches (Regexp := string) := mkCaches ∅ ∅.

Lemma waf_calls_uncached_witness :
  let c := exec [0; 1; 1; 0]%nat (no_caches, demo_env <$> demo_calls) in
  snd c = [Ret (VBool true); Ret (VBool false)] /\
  (forall j cl v, demo_calls !! j = Some cl -> snd c !! j = Some (Ret v) -> v = pure_call demo_compile demo_match ToLower ToLower cl) /\
  forall cl, (run (demo_env cl) (fst c)).2 = Some (pure_call demo_compile demo_match ToLower ToLower cl).
Proof.
  split; [vm_compute; reflexivity|].
  apply (waf_calls_uncached demo_compile demo_match ToLower ToLower demo_calls no_caches _
    (snd (exec [0; 1; 1; 0]%nat (no_caches, demo_env <$> demo_calls)))).
  - split; intros p r H; cbn in H; by rewrite lookup_empty in H.
  - match goal with |- rtc _ _ (?a, ?b) => change (rtc (pstep alone) (no_caches, demo_env <$> demo_calls)
      (exec [0; 1; 1; 0]%nat (no_caches, demo_env <$> demo_calls))) end.
    apply exec_rtc.
Defined.

Definition demo_request : Request :=
  mkRequest "GET" "h" "/p" "a=1" "/p?a=1" "HTTP/1.1" false "10.0.0.1:99" 0
    {["X-Real-Ip" := ["1.2.3.4"]]} [("c", "1"); ("c", "2")] {["a" := ["1"; "2"]]}.

Lemma waf_request_view_witness :
  let m := buildRequestMap map_to_list demo_request "" "TH" 1 in
  m !! "remote_ip" = Some (VString "1.2.3.4") /\
  exists hs cs ars, m !! "headers" = Some (VMap hs) /\ m !! "cookies" = Some (VMap cs) /\ m !! "args" = Some (VMap ars) /\
    hs !! "x-real-ip" = Some "1.2.3.4" /\ ars !! "a" = Some "1" /\ cs !! "c" = Some "2".
Proof.
  destruct (waf_request_view map_to_list (fun m => reflexivity _) demo_request "" "TH" 1)
    as (_ & H1 & _ & hs & cs & ars & H2 & H3 & H4 & H5 & H6 & H7).
  split; [exact H1|]. exists hs, cs, ars. split_and!; [done..| | |].
  - change "x-real-ip" with (ToLower "X-Real-Ip"). rewrite H5; [reflexivity|].
    intros k' [v Hv] _. cbn in Hv. by apply lookup_singleton_Some in Hv as [<- _].
  - rewrite H6. reflexivity.
  - rewrite H7. reflexivity.
Defined.
End WafEngineFacts.
