(* ===== verification/Waf.v ===== *)
(** * pkg/waf: the web application firewall

    [src/pkg/waf/waf.go], [rule.go], [action.go], [observe.go] and [predicate.go].  CEL is
    a parameter: building an environment, compiling, planning and evaluating, which may
    also panic and depends on the time left.  What the hooks are told is a trace. *)

From S2P Require Import Prelude GoStrings GoIO Middleware WafEngine.

Module Waf.
Import WafEngine.

(** The zero value of [Action] is [ActionLog]; a value outside the constants is kept. *)
Inductive Action := ActionLog | ActionAllow | ActionBlock | ActionOther (n : Z).

Definition Action_String (a : Action) : string :=
  match a with
  | ActionLog => "log"
  | ActionAllow => "allow"
  | ActionBlock => "block"
  | ActionOther _ => "unknown"
  end.

Inductive Outcome := OutcomePass | OutcomeAllow | OutcomeBlock | OutcomeError.

Definition Outcome_String (o : Outcome) : string :=
  match o with
  | OutcomePass => "pass"
  | OutcomeAllow => "allow"
  | OutcomeBlock => "block"
  | OutcomeError => "error"
  end.

Inductive FailMode := FailOpen | FailClosed.

Record Rule := mkRule {
  ID : string;
  Description : string;
  Expression : string;
  RuleAction : Action;
  Status : Z;
  Message : string;
  Priority : Z;
}.

Definition defaultEvalTimeout : Z := 5 * Millisecond.
Definition defaultCostLimit : Z := 1000000.
Definition defaultBlockStatus : Z := 403.
Definition defaultBlockMessage : string := "Forbidden".

Inductive setError :=
  | EnvError
  | MissingID (i : nat)
  | DuplicateID (i : nat) (id : string)
  | EmptyExpression (id : string)
  | CompileError (id : string)
  | NotBool (id : string)
  | ProgramError (id : string).

(** What evaluating a program gives. *)
Inductive evalResult := EvPanic | EvError | EvNil | EvValue (v : val).

(** What the hooks are told. *)
Inductive event :=
  | LogError (id : string)
  | OnMatch (id : string) (a : Action) (status : Z) (expression clientIP : string)
  | LogMatch (id : string) (a : Action) (status : Z) (clientIP : string)
  | Observe (o : Outcome).

Section Waf.
(** CEL: environments, checked expressions, planned programs; a world that evaluation
    changes, the clock among it. *)
Context {Env Ast Program W : Type}.
Context (NewEnv : bool -> option Env) (Compile : Env -> string -> option Ast) (OutputBool : Ast -> bool).
Context (Plan : Env -> Ast -> Z -> option Program).
Context (ContextEval : Program -> Z -> gmap string val -> W -> W * evalResult).
Context (ranged : gmap string (list string) -> list (string * list string)).

Record compiledRule := mkCompiled {
  cid : string;
  cdescription : string;
  cexpression : string;
  caction : Action;
  cstatus : Z;
  cmessage : string;
  cpriority : Z;
  prg : Program;
}.

Record WAF := mkWAF {
  hasLogger : bool;
  hasOnMatch : bool;
  hasObserve : bool;
  EvalTimeout : Z;
  CostLimit : Z;
  failMode : FailMode;
  DisableMacros : bool;
  InspectBody : Z;
  Country : option (Request -> string);
  ASN : option (Request -> Z);
  rules : list compiledRule;
}.

Definition with_rules (rs : list compiledRule) (w : WAF) : WAF :=
  mkWAF (hasLogger w) (hasOnMatch w) (hasObserve w) (EvalTimeout w) (CostLimit w) (failMode w) (DisableMacros w)
    (InspectBody w) (Country w) (ASN w) rs.

Definition New : WAF := mkWAF false false false 0 0 FailOpen false 0 None None [].

(** ** Loading rules *)

Definition cost_limit (w : WAF) : Z := if CostLimit w =? 0 then defaultCostLimit else CostLimit w.

(** The checks on one rule after its identifier. *)
Definition compile_rule (env : Env) (costLimit : Z) (r : Rule) : setError + compiledRule :=
  if String.eqb (Expression r) "" then inl (EmptyExpression (ID r))
  else
    match Compile env (Expression r) with
    | None => inl (CompileError (ID r))
    | Some ast =>
        if negb (OutputBool ast) then inl (NotBool (ID r))
        else
          match Plan env ast costLimit with
          | None => inl (ProgramError (ID r))
          | Some prg =>
              inr (mkCompiled (ID r) (Description r) (Expression r) (RuleAction r)
                     (if Status r =? 0 then defaultBlockStatus else Status r)
                     (if String.eqb (Message r) "" then defaultBlockMessage else Message r) (Priority r) prg)
          end
    end.

Fixpoint compile_loop (env : Env) (costLimit : Z) (i : nat) (rs : list Rule) (seen : gset string)
    (compiled : list compiledRule) (errs : list setError) : list compiledRule * list setError :=
  match rs with
  | [] => (compiled, errs)
  | r :: rs =>
      if String.eqb (ID r) "" then compile_loop env costLimit (S i) rs seen compiled (errs ++ [MissingID i])
      else if decide (ID r ∈ seen) then compile_loop env costLimit (S i) rs seen compiled (errs ++ [DuplicateID i (ID r)])
      else
        match compile_rule env costLimit r with
        | inl e => compile_loop env costLimit (S i) rs ({[ID r]} ∪ seen) compiled (errs ++ [e])
        | inr c => compile_loop env costLimit (S i) rs ({[ID r]} ∪ seen) (compiled ++ [c]) errs
        end
  end.

(** [sort.SliceStable] by priority. *)
Fixpoint insert_stable (c : compiledRule) (l : list compiledRule) : list compiledRule :=
  match l with
  | [] => [c]
  | d :: l' => if cpriority d <? cpriority c then d :: insert_stable c l' else c :: l
  end.
Definition SliceStable (l : list compiledRule) : list compiledRule := foldr insert_stable [] l.

Definition SetRules (rs : list Rule) (w : WAF) : WAF * list setError :=
  match NewEnv (DisableMacros w) with
  | None => (w, [EnvError])
  | Some env =>
      let '(compiled, errs) := compile_loop env (cost_limit w) 0 rs ∅ [] [] in
      match errs with
      | _ :: _ => (w, errs)
      | [] => (with_rules (SliceStable compiled) w, [])
      end
  end.

Definition Rules (w : WAF) : list string := cid <$> rules w.

(** ** Evaluation *)

(** The result, or [None] for an error; a panic is recovered into one. *)
Definition evalProgram (p : Program) (timeout : Z) (input : gmap string val) (x : W) : W * option bool :=
  let '(x, out) := ContextEval p timeout input x in
  (x, match out with
      | EvPanic => None
      | EvError => None
      | EvNil => Some false
      | EvValue (VBool b) => Some b
      | EvValue _ => None
      end).

Inductive decision :=
  | Forward (o : Outcome)
  | Reject (o : Outcome) (message : string) (status : Z).

Definition observe (w : WAF) (o : Outcome) : list event := if hasObserve w then [Observe o] else [].

Fixpoint rule_loop (w : WAF) (ip : string) (timeout : Z) (input : gmap string val) (rs : list compiledRule) (x : W)
    (trace : list event) : W * list event * decision :=
  match rs with
  | [] => (x, trace ++ observe w OutcomePass, Forward OutcomePass)
  | rule :: rs =>
      let '(x, matched) := evalProgram (prg rule) timeout input x in
      match matched with
      | None =>
          let trace := trace ++ (if hasLogger w then [LogError (cid rule)] else []) in
          match failMode w with
          | FailClosed => (x, trace ++ observe w OutcomeError, Reject OutcomeError "WAF Error" 500)
          | FailOpen => rule_loop w ip timeout input rs x trace
          end
      | Some false => rule_loop w ip timeout input rs x trace
      | Some true =>
          let trace := trace
            ++ (if hasOnMatch w then [OnMatch (cid rule) (caction rule) (cstatus rule) (cexpression rule) ip] else [])
            ++ (if hasLogger w then [LogMatch (cid rule) (caction rule) (cstatus rule) ip] else []) in
          match caction rule with
          | ActionAllow => (x, trace ++ observe w OutcomeAllow, Forward OutcomeAllow)
          | ActionBlock => (x, trace ++ observe w OutcomeBlock, Reject OutcomeBlock (cmessage rule) (cstatus rule))
          | ActionLog | ActionOther _ => rule_loop w ip timeout input rs x trace
          end
      end
  end.

(** Reading at most [InspectBody] bytes, and the body put back: what was read, then
    the rest. *)
Definition inspect (w : WAF) (b : option reader) : string * option reader :=
  match b with
  | Some r =>
      if 0 <? InspectBody w then
        let '(buf, _, rest) := ReadAllLimit (InspectBody w) r in
        (buf, Some (MultiReader buf rest))
      else ("", Some r)
  | None => ("", None)
  end.

Definition eval_timeout (w : WAF) : Z := if EvalTimeout w <=? 0 then defaultEvalTimeout else EvalTimeout w.

Definition ServeHandler (w : WAF) (h : Request -> option reader -> act) (r : Request) (b : option reader) (x : W)
    : W * list event * act :=
  match rules w with
  | [] => (x, [], h r b)
  | rs =>
      let '(bodyStr, b) := inspect w b in
      let country := match Country w with Some f => f r | None => "" end in
      let asn := match ASN w with Some f => f r | None => 0 end in
      let input := buildRequestMap ranged r bodyStr country asn in
      let '(x, trace, d) := rule_loop w (clientIP r) (eval_timeout w) input rs x [] in
      (x, trace, match d with Forward _ => h r b | Reject _ message status => http_Error message status end)
  end.

(** ** Predicates *)

Record Predicate := mkPredicate { pprg : Program; pexpression : string; pevalTimeout : Z }.

Inductive PredicateOption :=
  | WithPredicateCostLimit (n : Z)
  | WithPredicateEvalTimeout (d : Z)
  | WithPredicateDisableMacros.

Record predicateConfig := mkConfig { costLimit : Z; evalTimeout : Z; disableMacros : bool }.

Definition apply_option (c : predicateConfig) (o : PredicateOption) : predicateConfig :=
  match o with
  | WithPredicateCostLimit n => mkConfig n (evalTimeout c) (disableMacros c)
  | WithPredicateEvalTimeout d => mkConfig (costLimit c) d (disableMacros c)
  | WithPredicateDisableMacros => mkConfig (costLimit c) (evalTimeout c) true
  end.

Definition predicate_config (opts : list PredicateOption) : predicateConfig :=
  let cfg := foldl apply_option (mkConfig defaultCostLimit defaultEvalTimeout false) opts in
  mkConfig (if costLimit cfg =? 0 then defaultCostLimit else costLimit cfg)
    (if evalTimeout cfg <=? 0 then defaultEvalTimeout else evalTimeout cfg) (disableMacros cfg).

Definition NewPredicate (expr : string) (opts : list PredicateOption) : option Predicate :=
  if String.eqb expr "" then None
  else
    let cfg := predicate_config opts in
    env ← NewEnv (disableMacros cfg);
    ast ← Compile env expr;
    if negb (OutputBool ast) then None
    else
      prg ← Plan env ast (costLimit cfg);
      Some (mkPredicate prg expr (evalTimeout cfg)).

Definition NewInput (r : Request) (body country : string) (asn : Z) : gmap string val :=
  buildRequestMap ranged r body country asn.

Definition Eval (p : Predicate) (input : gmap string val) (x : W) : W * option bool :=
  evalProgram (pprg p) (pevalTimeout p) input x.
End Waf.
#[global] Arguments compiledRule : clear implicits.
#[global] Arguments WAF : clear implicits.
#[global] Arguments Predicate : clear implicits.
End Waf.
