(* ===== verification/WafFacts.v ===== *)
(** * pkg/waf: what the firewall guarantees *)

From stdpp Require Import sorting.
From S2P Require Import Prelude GoStrings GoIO Middleware WafEngine Waf.

Module WafFacts.
Import WafEngine Waf.

Section Facts.
Context {Env Ast Program W : Type}.
Context (NewEnv : bool -> option Env) (Compile : Env -> string -> option Ast) (OutputBool : Ast -> bool).
Context (Plan : Env -> Ast -> Z -> option Program).
Context (ContextEval : Program -> Z -> gmap string val -> W -> W * evalResult).
Context (ranged : gmap string (list string) -> list (string * list string)).

Local Abbreviation rule := (compiledRule Program).
Local Abbreviation compile_rule' := (compile_rule Compile OutputBool Plan).
Local Abbreviation SetRules' := (SetRules NewEnv Compile OutputBool Plan).
Local Abbreviation eval' := (evalProgram ContextEval).

(** ** Sorting *)

Lemma insert_stable_perm (c : rule) l : insert_stable c l ≡ₚ c :: l.
Proof. induction l as [|d l IH]; cbn; [done|]. destruct (_ <? _); [|done]. rewrite IH. constructor. Qed.

Lemma SliceStable_perm (l : list rule) : SliceStable l ≡ₚ l.
Proof. induction l as [|c l IH]; cbn; [done|]. by rewrite insert_stable_perm, IH. Qed.

Definition by_priority (c d : rule) : Prop := cpriority c <= cpriority d.

Lemma insert_stable_sorted (c : rule) l :
  StronglySorted by_priority l -> StronglySorted by_priority (insert_stable c l).
Proof.
  induction 1 as [|d l Hs IH Hd]; cbn; [by repeat constructor|].
  destruct (Z.ltb_spec (cpriority d) (cpriority c)) as [Hlt|Hge].
  - constructor; [done|]. rewrite insert_stable_perm. constructor; [unfold by_priority; lia|done].
  - constructor; [by constructor|]. constructor; [done|]. eapply Forall_impl; [exact Hd|]. unfold by_priority. intros x Hx. cbn in *. lia.
Qed.

Lemma SliceStable_sorted (l : list rule) : StronglySorted by_priority (SliceStable l).
Proof. induction l as [|c l IH]; cbn; [constructor|]. by apply insert_stable_sorted. Qed.

(** A stable sort and a filter commute. *)
Lemma filter_insert_stable (P : rule -> Prop) `{!forall c, Decision (P c)} (c : rule) l :
  StronglySorted by_priority l ->
  filter P (insert_stable c l) = if decide (P c) then insert_stable c (filter P l) else filter P l.
Proof.
  induction 1 as [|d l Hs IH Hd]; cbn [insert_stable].
  - destruct (decide (P c)); [by rewrite filter_cons_True|by rewrite filter_cons_False].
  - destruct (Z.ltb_spec (cpriority d) (cpriority c)) as [Hlt|Hge].
    + destruct (decide (P d)) as [Pd|Pd]; [rewrite !(filter_cons_True P d) by done|rewrite !(filter_cons_False P d) by done; exact IH].
      rewrite IH. destruct (decide (P c)); [|done]. cbn. by rewrite (proj2 (Z.ltb_lt _ _)).
    + destruct (decide (P c)) as [Pc|Pc]; [rewrite filter_cons_True by done|by rewrite filter_cons_False].
      assert (forall l', Forall (by_priority d) l' -> c :: filter P l' = insert_stable c (filter P l')) as Hins.
      { intros l' Hl'. destruct (filter P l') as [|x m] eqn:Ef; [done|]. cbn.
        assert (x ∈ l') as Hx by (assert (x ∈ filter P l') as Hxf by (rewrite Ef; set_solver); by apply list_elem_of_filter in Hxf as [_ ?]).
        rewrite Forall_forall in Hl'. specialize (Hl' x Hx). unfold by_priority in Hl'.
        by rewrite (proj2 (Z.ltb_ge _ _)) by lia. }
      apply (Hins (d :: l)). constructor; [unfold by_priority; lia|done].
Qed.

Lemma filter_SliceStable (P : rule -> Prop) `{!forall c, Decision (P c)} (l : list rule) :
  filter P (SliceStable l) = SliceStable (filter P l).
Proof.
  induction l as [|c l IH]; [done|]. cbn [SliceStable foldr]. rewrite filter_insert_stable by apply SliceStable_sorted.
  fold (SliceStable l). rewrite IH. destruct (decide (P c)); [by rewrite filter_cons_True|by rewrite filter_cons_False].
Qed.

Lemma SliceStable_equal (l : list rule) p : Forall (fun c => cpriority c = p) l -> SliceStable l = l.
Proof.
  induction 1 as [|c l Hc Hl IH]; [done|]. cbn [SliceStable foldr]. fold (SliceStable l). rewrite IH.
  destruct Hl as [|d l Hd _]; [done|]. cbn. by rewrite (proj2 (Z.ltb_ge _ _)) by lia.
Qed.

(** The head of the sorted list has the least priority, and comes first among those. *)
Lemma SliceStable_head (l : list rule) c :
  head (SliceStable l) = Some c ->
  exists l1 l2, l = l1 ++ c :: l2 /\ Forall (fun d => cpriority c < cpriority d) l1 /\ Forall (fun d => cpriority c <= cpriority d) l2.
Proof.
  revert c. induction l as [|x l IH]; intros c; [done|]. cbn [SliceStable foldr]. fold (SliceStable l).
  destruct (SliceStable l) as [|y m] eqn:E; cbn.
  - intros [= <-]. assert (l = []) as -> by (apply Permutation_nil; rewrite <- E; apply SliceStable_perm).
    exists [], []. done.
  - destruct (IH y eq_refl) as (l1 & l2 & -> & H1 & H2). destruct (Z.ltb_spec (cpriority y) (cpriority x)) as [Hlt|Hge]; cbn.
    + intros [= <-]. exists (x :: l1), l2. split; [done|]. split; [by constructor|done].
    + intros [= <-]. exists [], (l1 ++ y :: l2). split; [done|]. split; [constructor|].
      apply Forall_app. split; [|constructor; [done|]]; eapply Forall_impl; try done; cbn; intros; lia.
Qed.

(** ** Loading rules *)

Lemma compile_loop_errs env cl rs : forall i seen compiled errs compiled' errs',
  compile_loop Compile OutputBool Plan env cl i rs seen compiled errs = (compiled', errs') ->
  exists more, errs' = errs ++ more /\
    (more = [] <-> Forall (fun r => ID r <> "" /\ (ID r ∉ seen) /\ exists c, compile_rule' env cl r = inr c) rs /\ NoDup (ID <$> rs)) /\
    (more = [] -> exists cs, compiled' = compiled ++ cs /\ Forall2 (fun r c => compile_rule' env cl r = inr c) rs cs).
Proof.
  induction rs as [|r rs IH]; intros i seen compiled errs compiled' errs'; cbn [compile_loop].
  { intros [= <- <-]. exists []. split; [by rewrite app_nil_r|]. split; [split; [by repeat constructor|done]|].
    intros _. exists []. by rewrite app_nil_r. }
  destruct (String.eqb_spec (ID r) "") as [E0|E0].
  { intros (more & -> & _)%IH. exists (MissingID i :: more). split; [by rewrite <- app_assoc|].
    split; [|done]. split; [done|]. intros [(? & _)%Forall_cons _]. tauto. }
  destruct (decide (ID r ∈ seen)) as [Hs|Hs].
  { intros (more & -> & _)%IH. exists (DuplicateID i (ID r) :: more). split; [by rewrite <- app_assoc|].
    split; [|done]. split; [done|]. intros [((_ & ? & _) & _)%Forall_cons _]. tauto. }
  destruct (compile_rule' env cl r) as [e|c] eqn:Ec.
  { intros (more & -> & _)%IH. exists (e :: more). split; [by rewrite <- app_assoc|].
    split; [|done]. split; [done|]. intros [((_ & _ & c & ?) & _)%Forall_cons _]. congruence. }
  intros (more & -> & Hiff & Hcs)%IH. exists more. split; [done|]. split.
  - rewrite Hiff. rewrite fmap_cons, NoDup_cons, Forall_cons. setoid_rewrite not_elem_of_union.
    setoid_rewrite not_elem_of_singleton. split.
    + intros [Hall Hn]. split; [split; [eauto|]|split; [|done]].
      * eapply Forall_impl; [exact Hall|]. cbn. tauto.
      * intros (r' & E & Hin)%list_elem_of_fmap. rewrite Forall_forall in Hall. destruct (Hall r' Hin) as (_ & [? _] & _). congruence.
    + intros [[_ Hall] [Hni Hn]]. split; [|done]. rewrite Forall_forall in Hall |- *. intros r' Hin.
      destruct (Hall r' Hin) as (? & ? & ?). split_and!; try done. intros E. apply Hni. rewrite <- E. by apply list_elem_of_fmap_2.
  - intros Hm. destruct (Hcs Hm) as (cs & -> & HF). exists (c :: cs). split; [by rewrite <- app_assoc|by constructor].
Qed.

(** What [SetRules] requires of a rule set. *)
Definition loadable (env : Env) (w : WAF Program) (rs : list Rule) : Prop :=
  Forall (fun r => ID r <> "" /\ exists c, compile_rule' env (cost_limit w) r = inr c) rs /\ NoDup (ID <$> rs).

Lemma SetRules_spec rs w w' errs :
  SetRules' rs w = (w', errs) ->
  (errs <> [] -> w' = w) /\
  (errs = [] <-> exists env, NewEnv (DisableMacros w) = Some env /\ loadable env w rs) /\
  (errs = [] -> exists env cs, NewEnv (DisableMacros w) = Some env /\
     Forall2 (fun r c => compile_rule' env (cost_limit w) r = inr c) rs cs /\ w' = with_rules (SliceStable cs) w).
Proof.
  unfold SetRules. destruct (NewEnv (DisableMacros w)) as [env|] eqn:En.
  2: { intros [= <- <-]. split_and!; [done| |done]. split; [done|]. by intros (env & ? & _). }
  destruct (compile_loop _ _ _ env (cost_limit w) 0 rs ∅ [] []) as [compiled errs0] eqn:El.
  destruct (compile_loop_errs _ _ _ _ _ _ _ _ _ El) as (more & -> & Hiff & Hcs). cbn [app] in *.
  assert (more = [] <-> loadable env w rs) as Hl.
  { rewrite Hiff. unfold loadable. split; intros [HF Hn]; (split; [|done]); eapply Forall_impl; try exact HF; cbn; set_solver. }
  destruct more as [|e more]; intros [= <- <-].
  - split_and!; [done| |].
    + split; [|done]. intros _. exists env. split; [done|by apply Hl].
    + intros _. destruct (Hcs eq_refl) as (cs & -> & HF). by exists env, cs.
  - split_and!; [done| |done]. split; [done|]. intros (env' & [= <-] & H%Hl). done.
Qed.

(** C25: Replacing the rules is all or nothing: they are replaced exactly when every
    rule has an identifier of its own and compiles to a boolean program, and then they
    are evaluated in ascending priority, rules of equal priority in the order given;
    otherwise the errors are returned and the rules in force stay. *)
Theorem waf_setrules_atomic rs w w' errs :
  SetRules' rs w = (w', errs) ->
  (errs <> [] -> w' = w) /\
  (errs = [] <-> exists env, NewEnv (DisableMacros w) = Some env /\ loadable env w rs) /\
  (errs = [] -> exists env cs, NewEnv (DisableMacros w) = Some env /\
     Forall2 (fun r c => compile_rule' env (cost_limit w) r = inr c) rs cs /\
     rules w' ≡ₚ cs /\ StronglySorted by_priority (rules w') /\
     forall p, filter (fun c => cpriority c = p) (rules w') = filter (fun c => cpriority c = p) cs).
Proof.
  intros (H1 & H2 & H3)%SetRules_spec. split_and!; [done|done|]. intros He.
  destruct (H3 He) as (env & cs & En & HF & ->). exists env, cs. cbn [rules with_rules].
  split_and!; [done|done|apply SliceStable_perm|apply SliceStable_sorted|].
  intros p. rewrite filter_SliceStable. apply (SliceStable_equal _ p). apply Forall_forall.
  intros c [Hc _]%list_elem_of_filter. done.
Qed.

(** ** Decisions *)

(** Every rule evaluated in order, with its result. *)
Fixpoint eval_all (timeout : Z) (input : gmap string val) (rs : list rule) (x : W) : list (rule * option bool) :=
  match rs with
  | [] => []
  | c :: rs => let '(x, res) := eval' (prg c) timeout input x in (c, res) :: eval_all timeout input rs x
  end.

(** What a result decides. *)
Definition verdict (w : WAF Program) (cr : rule * option bool) : option decision :=
  match cr.2, caction cr.1, failMode w with
  | None, _, FailClosed => Some (Reject OutcomeError "WAF Error" 500)
  | Some true, ActionAllow, _ => Some (Forward OutcomeAllow)
  | Some true, ActionBlock, _ => Some (Reject OutcomeBlock (cmessage cr.1) (cstatus cr.1))
  | _, _, _ => None
  end.

Definition reference (w : WAF Program) (results : list (rule * option bool)) : decision :=
  default (Forward OutcomePass) (head (omap (verdict w) results)).

Definition outcome_of (d : decision) : Outcome := match d with Forward o => o | Reject o _ _ => o end.

Definition is_observe (e : event) : bool := match e with Observe _ => true | _ => false end.
Definition observed (tr : list event) : list event := filter (fun e => is_observe e = true) tr.
Definition match_ids (tr : list event) : list string := omap (fun e => match e with OnMatch id _ _ _ _ => Some id | _ => None end) tr.

(** The results up to the first that decides, that one included. *)
Fixpoint upto_decision (w : WAF Program) (results : list (rule * option bool)) : list (rule * option bool) :=
  match results with
  | [] => []
  | cr :: results => cr :: match verdict w cr with Some _ => [] | None => upto_decision w results end
  end.
Definition matched_ids (results : list (rule * option bool)) : list string :=
  omap (fun cr => match cr.2 with Some true => Some (cid cr.1) | _ => None end) results.

Local Abbreviation rule_loop' := (rule_loop ContextEval).

Lemma observed_observe (w : WAF Program) o : observed (observe w o) = observe w o.
Proof. unfold observe. by destruct (hasObserve w). Qed.
Lemma match_ids_observe (w : WAF Program) o : match_ids (observe w o) = [].
Proof. unfold observe. by destruct (hasObserve w). Qed.
Lemma observed_app a b : observed (a ++ b) = observed a ++ observed b.
Proof. apply filter_app. Qed.
Lemma match_ids_app a b : match_ids (a ++ b) = match_ids a ++ match_ids b.
Proof. apply omap_app. Qed.

Lemma rule_loop_spec w ip timeout input rs : forall x tr,
  let '(x', tr', d) := rule_loop' w ip timeout input rs x tr in
  let results := eval_all timeout input rs x in
  d = reference w results /\
  observed tr' = observed tr ++ observe w (outcome_of d) /\
  (hasOnMatch w = true -> match_ids tr' = match_ids tr ++ matched_ids (upto_decision w results)).
Proof.
  induction rs as [|c rs IH]; intros x tr; cbn [rule_loop eval_all].
  { split; [done|]. rewrite observed_app, match_ids_app, observed_observe, match_ids_observe. done. }
  destruct (eval' (prg c) timeout input x) as [x1 res].
  set (logs := if hasLogger w then [LogError (cid c)] else []).
  set (told := (if hasOnMatch w then [OnMatch (cid c) (caction c) (cstatus c) (cexpression c) ip] else []) ++
               (if hasLogger w then [LogMatch (cid c) (caction c) (cstatus c) ip] else [])).
  assert (observed logs = [] /\ match_ids logs = []) as [HL1 HL2] by (unfold logs; by destruct (hasLogger w)).
  assert (observed told = [] /\ (hasOnMatch w = true -> match_ids told = [cid c])) as [HT1 HT2]
    by (unfold told; by destruct (hasLogger w), (hasOnMatch w)).
  unfold reference. cbn [omap list_omap upto_decision matched_ids].
  assert (forall tr1, verdict w (c, res) = None -> observed tr1 = [] ->
    (hasOnMatch w = true -> match_ids tr1 = matched_ids [(c, res)]) ->
    let '(x', tr', d) := rule_loop' w ip timeout input rs x1 (tr ++ tr1) in
    d = default (Forward OutcomePass) (head (match verdict w (c, res) with
          | Some y => y :: omap (verdict w) (eval_all timeout input rs x1)
          | None => omap (verdict w) (eval_all timeout input rs x1) end)) /\
    observed tr' = observed tr ++ observe w (outcome_of d) /\
    (hasOnMatch w = true -> match_ids tr' = match_ids tr ++ matched_ids ((c, res) :: match verdict w (c, res) with
       | Some _ => [] | None => upto_decision w (eval_all timeout input rs x1) end))) as Hgo.
  { intros tr1 Hv Ho Hm. rewrite Hv. pose proof (IH x1 (tr ++ tr1)) as H.
    destruct (rule_loop' w ip timeout input rs x1 (tr ++ tr1)) as [[x' tr'] d]. destruct H as (Hd & H2 & H3).
    split; [exact Hd|]. rewrite observed_app, Ho, app_nil_r in H2. split; [done|]. intros Hon.
    rewrite (H3 Hon), match_ids_app, (Hm Hon), <- app_assoc. f_equal. unfold matched_ids. cbn. by destruct res as [[]|]. }
  destruct res as [[]|].
  - destruct (caction c) as [| | |n] eqn:Ea; unfold told in *; cbn [verdict fst snd] in *; rewrite ?Ea in *; cbn in Hgo |- *.
    1: destruct (failMode w); apply Hgo; done.
    3: destruct (failMode w); apply Hgo; done.
    all: split; [done|]; rewrite !observed_app, !match_ids_app, observed_observe, match_ids_observe.
    all: rewrite <- observed_app, HT1, !app_nil_r; split; [done|]; intros Hon; rewrite <- match_ids_app, (HT2 Hon); done.
  - specialize (Hgo []). rewrite app_nil_r in Hgo. apply Hgo; [|done|done]. unfold verdict. cbn. by destruct (caction c).
  - destruct (failMode w) eqn:Ef.
    + apply Hgo; [|done|done]. unfold verdict. cbn. by rewrite Ef; destruct (caction c).
    + unfold verdict. cbn. rewrite Ef. destruct (caction c); cbn;
        (split; [done|]); rewrite !observed_app, !match_ids_app, observed_observe, match_ids_observe, HL1, HL2, !app_nil_r; done.
Qed.

(** The body that goes on is the body that came. *)
Lemma inspect_body (w : WAF Program) b : (inspect w b).2 = b.
Proof.
  unfold inspect. destruct b as [r|]; [|done]. destruct (0 <? InspectBody w); [|done].
  pose proof (ReadAllLimit_restore (InspectBody w) r) as H. destruct (ReadAllLimit (InspectBody w) r) as [[buf e] rest]. cbn. by rewrite H.
Qed.

Definition perform (h : Request -> option reader -> act) (r : Request) (b : option reader) (d : decision) : act :=
  match d with Forward _ => h r b | Reject _ message status => http_Error message status end.

Definition input_of (w : WAF Program) (r : Request) (b : option reader) : gmap string val :=
  buildRequestMap ranged r (inspect w b).1
    (match Country w with Some f => f r | None => "" end) (match ASN w with Some f => f r | None => 0 end).

Lemma ServeHandler_spec w h r b x : rules w <> [] ->
  let '(x', tr, a) := ServeHandler ContextEval ranged w h r b x in
  let results := eval_all (eval_timeout w) (input_of w r b) (rules w) x in
  let d := reference w results in
  a = perform h r b d /\ observed tr = observe w (outcome_of d) /\
  (hasOnMatch w = true -> match_ids tr = matched_ids (upto_decision w results)).
Proof.
  intros Hne. unfold ServeHandler, input_of. destruct (rules w) as [|c rs] eqn:Er; [done|]. rewrite <- Er.
  pose proof (inspect_body w b) as Hb. destruct (inspect w b) as [bodyStr b']. cbn in Hb. subst b'. cbn [fst].
  set (input := buildRequestMap _ _ _ _ _). pose proof (rule_loop_spec w (clientIP r) (eval_timeout w) input (rules w) x []) as H.
  destruct (rule_loop' w (clientIP r) (eval_timeout w) input (rules w) x []) as [[x' tr] d]. destruct H as (-> & H2 & H3). done.
Qed.

(** C24: The early exits of the rule loop decide as evaluating every rule and taking
    the first that decides would: a match of an allow or block rule, or an error when
    failing closed. The handler that is forwarded to gets the request with its whole
    body; the observer is called once, with the outcome, and the match hook once for
    every rule that matched up to the decision. *)
Theorem waf_first_decision w h r b x :
  rules w <> [] ->
  let '(x', tr, a) := ServeHandler ContextEval ranged w h r b x in
  let results := eval_all (eval_timeout w) (input_of w r b) (rules w) x in
  let d := reference w results in
  a = perform h r b d /\ observed tr = observe w (outcome_of d) /\
  (hasOnMatch w = true -> match_ids tr = matched_ids (upto_decision w results)).
Proof. apply ServeHandler_spec. Qed.

(** ** Priorities *)

(** The result of a program when it depends on the request only. *)
Context (out : Program -> gmap string val -> option bool).
Definition steady : Prop := forall p t input x, (eval' p t input x).2 = out p input.

Lemma eval_all_steady timeout input rs x :
  steady -> eval_all timeout input rs x = (fun c => (c, out (prg c) input)) <$> rs.
Proof.
  intros Hs. revert x. induction rs as [|c rs IH]; intros x; [done|]. cbn.
  pose proof (Hs (prg c) timeout input x) as H. destruct (eval' (prg c) timeout input x) as [x1 res]. cbn in H.
  by rewrite H, IH.
Qed.

Definition decides (w : WAF Program) (input : gmap string val) (c : rule) : option decision := verdict w (c, out (prg c) input).

Lemma head_omap {A B} (f : A -> option B) (P : A -> Prop) `{!forall x, Decision (P x)} l :
  (forall x, P x <-> is_Some (f x)) -> head (omap f l) = head (filter P l) ≫= f.
Proof.
  intros HP. induction l as [|x l IH]; [done|]. cbn [omap list_omap]. destruct (f x) as [y|] eqn:E.
  - rewrite filter_cons_True by (apply HP; eauto). cbn. by rewrite E.
  - rewrite filter_cons_False; [exact IH|]. rewrite HP, E. by intros [? ?].
Qed.

Lemma filter_split {A} (P : A -> Prop) `{!forall x, Decision (P x)} l l1 c l2 :
  filter P l = l1 ++ c :: l2 -> exists k1 k2, l = k1 ++ c :: k2 /\ filter P k1 = l1 /\ filter P k2 = l2.
Proof.
  revert l1. induction l as [|x l IH]; intros l1; [by destruct l1|]. destruct (decide (P x)) as [Px|Px].
  - rewrite filter_cons_True by done. destruct l1 as [|y l1].
    + intros [= -> E]. by exists [], l.
    + intros [= -> E]. destruct (IH l1 E) as (k1 & k2 & -> & <- & <-). exists (y :: k1), k2.
      split; [done|]. by rewrite filter_cons_True.
  - rewrite filter_cons_False by done. intros E. destruct (IH l1 E) as (k1 & k2 & -> & <- & <-). exists (x :: k1), k2.
    split; [done|]. by rewrite filter_cons_False.
Qed.

(** With rules that [SetRules] accepted and whose results depend on the request
    only, the request is decided by the deciding rule of least priority, the first
    declared among equals, and it is forwarded when no rule decides. *)
Theorem waf_priority rs w w' env cs h r b x :
  steady -> rs <> [] -> SetRules' rs w = (w', []) ->
  NewEnv (DisableMacros w) = Some env -> Forall2 (fun r c => compile_rule' env (cost_limit w) r = inr c) rs cs ->
  let input := input_of w' r b in
  let a := (ServeHandler ContextEval ranged w' h r b x).2 in
  (forall c, c ∈ cs -> decides w input c = None) /\ a = h r b \/
  exists cs1 c cs2 d, cs = cs1 ++ c :: cs2 /\ decides w input c = Some d /\ a = perform h r b d /\
    (forall c', c' ∈ cs1 -> is_Some (decides w input c') -> cpriority c < cpriority c') /\
    (forall c', c' ∈ cs2 -> is_Some (decides w input c') -> cpriority c <= cpriority c').
Proof.
  intros Hst Hne Hset En HF input a.
  destruct (SetRules_spec _ _ _ _ Hset) as (_ & _ & H3). destruct (H3 eq_refl) as (env' & cs' & En' & HF' & ->).
  assert (cs' = cs) as ->.
  { rewrite En in En'. injection En' as <-. clear -HF HF'. revert cs HF. induction HF' as [|r0 c0 rs0 cs0 H0 _ IH]; intros cs HF.
    - by inversion HF.
    - inversion HF as [|? c1 ? cs1 H1 HF1]; subst. f_equal; [congruence|]. by apply IH. }
  assert (SliceStable cs <> []) as Hne'.
  { intros E. pose proof (SliceStable_perm cs) as Hp. rewrite E in Hp. apply Permutation_nil_l in Hp. subst cs.
    inversion HF. by subst. }
  pose proof (ServeHandler_spec (with_rules (SliceStable cs) w) h r b x Hne') as Hsv. subst a.
  destruct (ServeHandler _ _ _ _ _ _ _) as [[x' tr] a]. cbn [snd]. destruct Hsv as (-> & _ & _).
  rewrite eval_all_steady by done. cbn [rules with_rules]. unfold reference. fold input.
  assert (forall X l, omap (verdict (with_rules X w)) ((fun c => (c, out (prg c) input)) <$> l) = omap (decides w input) l) as ->.
  { intros X. induction l as [|c l IH]; [done|]. rewrite fmap_cons. cbn [omap list_omap].
    change (verdict (with_rules X w) (c, out (prg c) input)) with (decides w input c).
    destruct (decides w input c); [f_equal|]; exact IH. }
  rewrite (head_omap (decides w input) (fun c => is_Some (decides w input c))) by done.
  rewrite filter_SliceStable.
  destruct (head (SliceStable (filter (fun c => is_Some (decides w input c)) cs))) as [c|] eqn:Eh.
  - right. destruct (SliceStable_head _ _ Eh) as (l1 & l2 & E & H1 & H2).
    assert (is_Some (decides w input c)) as [d Hd].
    { assert (c ∈ filter (fun c => is_Some (decides w input c)) cs) as Hin by (rewrite E; set_solver).
      by apply list_elem_of_filter in Hin as [? _]. }
    destruct (filter_split _ _ _ _ _ E) as (k1 & k2 & -> & <- & <-). cbn [mbind option_bind]. rewrite Hd.
    exists k1, c, k2, d.
    rewrite !Forall_forall in H1, H2. split_and!; [done..| |]; intros c' Hc' Hs; [apply H1|apply H2]; by apply list_elem_of_filter.
  - left. split; [|done]. intros c Hc. destruct (decides w input c) as [d|] eqn:Ed; [|done]. exfalso.
    assert (c ∈ SliceStable (filter (fun c => is_Some (decides w input c)) cs)) as Hin.
    { rewrite SliceStable_perm. apply list_elem_of_filter. split; [by rewrite Ed|done]. }
    apply head_None in Eh. rewrite Eh in Hin. set_solver.
Qed.

(** ** Predicates *)

(** A predicate is accepted exactly when a rule with the same expression is, and is
    bounded and evaluated as that rule is. *)
Theorem waf_predicate_as_rule expr opts r w :
  let cfg := predicate_config opts in
  ID r <> "" -> Expression r = expr -> DisableMacros w = disableMacros cfg -> cost_limit w = costLimit cfg ->
  (is_Some (NewPredicate NewEnv Compile OutputBool Plan expr opts) <-> (SetRules' [r] w).2 = []) /\
  forall p, NewPredicate NewEnv Compile OutputBool Plan expr opts = Some p ->
    exists c, rules (SetRules' [r] w).1 = [c] /\ cexpression c = pexpression p /\
      forall input x, Eval ContextEval p input x = eval' (prg c) (evalTimeout cfg) input x.
Proof.
  intros cfg Hid <- Hm Hc. unfold NewPredicate, SetRules. fold cfg. rewrite Hm, Hc.
  destruct (NewEnv (disableMacros cfg)) as [env|]; cbn [mbind option_bind].
  2: { destruct (String.eqb (Expression r) ""); (split; [split; [by intros [? ?]|done]|done]). }
  cbn [compile_loop]. rewrite (proj2 (String.eqb_neq _ _) Hid). rewrite decide_False by set_solver. unfold compile_rule.
  destruct (String.eqb (Expression r) ""); [split; [split; [by intros [? ?]|done]|done]|].
  destruct (Compile env (Expression r)) as [ast|]; cbn [mbind option_bind]; [|split; [split; [by intros [? ?]|done]|done]].
  destruct (OutputBool ast); cbn [negb]; [|split; [split; [by intros [? ?]|done]|done]].
  destruct (Plan env ast (costLimit cfg)) as [prg0|]; cbn [mbind option_bind]; [|split; [split; [by intros [? ?]|done]|done]].
  split; [split; [done|by eexists]|]. intros p [= <-]. eexists. split; [reflexivity|]. done.
Qed.
End Facts.

(** ** Examples *)

(** Expressions that say what they evaluate to. *)
Definition demo_eval (p : string) (t : Z) (input : gmap string val) (x : unit) : unit * evalResult :=
  (x, if String.eqb p "true" then EvValue (VBool true) else if String.eqb p "error" then EvError
      else if String.eqb p "panic" then EvPanic else EvValue (VBool false)).
Definition demo_out (p : string) (input : gmap string val) : option bool :=
  if String.eqb p "true" then Some true else if String.eqb p "error" then None else if String.eqb p "panic" then None else Some false.

Definition demo_set : list Rule -> WAF string -> WAF string * list setError :=
  SetRules (fun _ => Some tt) (fun _ e => Some e) (fun e => negb (String.eqb e "1 + 1")) (fun _ e _ => Some e).
Definition demo_rule (id expr : string) (a : Action) (prio : Z) : Rule := mkRule id "" expr a 0 "" prio.
Definition demo_compiled (id expr : string) (a : Action) (prio : Z) : compiledRule string :=
  mkCompiled id "" expr a 403 "Forbidden" prio expr.
Definition demo_waf : WAF string := mkWAF false true true 0 0 FailOpen false 4 None None [].
Definition demo_rules : list Rule :=
  [demo_rule "block" "true" ActionBlock 10; demo_rule "broken" "panic" ActionBlock 1; demo_rule "note" "true" ActionLog 5;
   demo_rule "never" "false" ActionAllow 2].
Definition demo_loaded : WAF string := (demo_set demo_rules demo_waf).1.
Definition demo_serve (w : WAF string) :=
  ServeHandler demo_eval map_to_list w (fun _ b => Write (default "" (data <$> b)) Done) WafEngineFacts.demo_request
    (Some (mkReader "a long body" None)) tt.

Lemma waf_setrules_atomic_witness :
  Rules demo_loaded = ["broken"; "never"; "note"; "block"] /\
  (demo_set [demo_rule "a" "true" ActionLog 0; demo_rule "a" "true" ActionLog 0; demo_rule "" "true" ActionLog 0;
             demo_rule "b" "1 + 1" ActionLog 0] demo_loaded) = (demo_loaded, [DuplicateID 1 "a"; MissingID 2; NotBool "b"]) /\
  ([DuplicateID 1 "a"; MissingID 2; NotBool "b"] <> [] -> demo_loaded = demo_loaded).
Proof.
  split; [vm_compute; reflexivity|]. split; [vm_compute; reflexivity|].
  apply (waf_setrules_atomic (fun _ => Some tt) (fun _ e => Some e) (fun e => negb (String.eqb e "1 + 1")) (fun _ e _ => Some e)
    [demo_rule "a" "true" ActionLog 0; demo_rule "a" "true" ActionLog 0; demo_rule "" "true" ActionLog 0;
     demo_rule "b" "1 + 1" ActionLog 0]).
  vm_compute. reflexivity.
Defined.

(** The broken rule is skipped, the logging rule matches, the block rule decides. *)
Lemma waf_first_decision_witness :
  (demo_serve demo_loaded).2 = http_Error "Forbidden" 403 /\
  observed (demo_serve demo_loaded).1.2 = [Observe OutcomeBlock] /\
  match_ids (demo_serve demo_loaded).1.2 = ["note"; "block"].
Proof.
  pose proof (waf_first_decision demo_eval map_to_list demo_loaded (fun _ b => Write (default "" (data <$> b)) Done)
    WafEngineFacts.demo_request (Some (mkReader "a long body" None)) tt ltac:(vm_compute; discriminate)) as H.
  unfold demo_serve. destruct (ServeHandler _ _ _ _ _ _ _) as [[x' tr] a]. destruct H as (-> & H2 & H3).
  split; [vm_compute; reflexivity|]. cbn [fst snd]. rewrite H2, (H3 eq_refl). split; vm_compute; reflexivity.
Defined.

Lemma waf_priority_witness :
  (demo_serve demo_loaded).2 = http_Error "Forbidden" 403 /\
  let cs := [demo_compiled "block" "true" ActionBlock 10; demo_compiled "broken" "panic" ActionBlock 1;
             demo_compiled "note" "true" ActionLog 5; demo_compiled "never" "false" ActionAllow 2] in
  exists cs1 c cs2, cs = cs1 ++ c :: cs2 /\ is_Some (decides demo_out demo_waf (input_of map_to_list demo_loaded
    WafEngineFacts.demo_request (Some (mkReader "a long body" None))) c) /\ cpriority c = 10.
Proof.
  split; [vm_compute; reflexivity|]. intros cs.
  destruct (waf_priority (fun _ => Some tt) (fun _ e => Some e) (fun e => negb (String.eqb e "1 + 1")) (fun _ e _ => Some e)
    demo_eval map_to_list demo_out demo_rules demo_waf demo_loaded tt cs
    (fun _ b => Write (default "" (data <$> b)) Done) WafEngineFacts.demo_request (Some (mkReader "a long body" None)) tt)
    as [[H _]|(cs1 & c & cs2 & d & E & Hd & _ & H1 & H2)].
  - intros p t input x. unfold evalProgram, demo_eval, demo_out.
    by destruct (String.eqb p "true"), (String.eqb p "error"), (String.eqb p "panic").
  - done.
  - vm_compute. reflexivity.
  - done.
  - repeat constructor.
  - exfalso. by specialize (H (demo_compiled "block" "true" ActionBlock 10) ltac:(set_solver)).
  - exists cs1, c, cs2. split; [done|]. split; [by eexists|].
    assert (c ∈ cs) as Hc by (rewrite E; set_solver). unfold cs in Hc.
    repeat (apply elem_of_cons in Hc as [->|Hc]; [first [done|by vm_compute in Hd]|]). by apply elem_of_nil in Hc.
Defined.

Lemma waf_predicate_as_rule_witness :
  is_Some (NewPredicate (fun _ => Some tt) (fun _ e => Some e) (fun e => negb (String.eqb e "1 + 1")) (fun _ e _ => Some e) "true" [])
  <-> (demo_set [demo_rule "a" "true" ActionLog 0] demo_waf).2 = [].
Proof.
  apply (waf_predicate_as_rule (fun _ => Some tt) (fun _ e => Some e) (fun e => negb (String.eqb e "1 + 1")) (fun _ e _ => Some e)
    demo_eval "true" [] (demo_rule "a" "true" ActionLog 0) demo_waf); done.
Defined.
End WafFacts.
