(* ===== verification/Mirror.v ===== *)
(** * Request mirroring

    [src/pkg/mirror/mirror.go] and [info.go].  A matched and sampled request is copied
    and handed, through a bounded queue, to a fixed pool of workers which drive the
    mirror's own chain; the primary request goes on in any case.

    A request goroutine and a worker are each a phase, the point the code has reached;
    [rstep] and [wstep] are their next actions on what they share (the channel, the
    counters, the live contexts, what [Observe] was told).  The destination chain is a
    parameter: what it does with its response writer may depend on a [world] that is
    chosen anew for every request.  [Observe] is taken to return. *)

From S2P Require Import Prelude GoFloat GoStrings GoNet GoIO Middleware CacheKeys Headers.

Module Mirror.
Section Mirror.
Context {world : Type}.

(** [http.NoBody] or a stream; a nil [Body] is [None]. *)
Inductive body := NoBody | Stream (r : reader).

(** [GetBody] is nil, or gives a fresh copy of the body or an error ([Some None]). *)
Record Request := mkRequest {
  base : Middleware.Request;
  Close : bool;
  TransferEncoding : list string;
  ContentLength : Z;
  Body : option body;
  GetBody : option (option body);
}.

Definition with_body (b : option body) (r : Request) : Request :=
  mkRequest (base r) (Close r) (TransferEncoding r) (ContentLength r) b (GetBody r).

Definition hopByHop : list string :=
  ["Connection"; "Proxy-Connection"; "Keep-Alive"; "Te"; "Trailer"; "Transfer-Encoding"; "Upgrade";
   "Proxy-Authenticate"; "Proxy-Authorization"].

Inductive Outcome :=
  | OutcomeDispatched | OutcomeCompleted | OutcomeDroppedFull | OutcomeDroppedOversize | OutcomePanicked.

#[global] Instance Outcome_eq_dec : EqDecision Outcome.
Proof. solve_decision. Defined.

Record MirrorInfo := mkInfo { outcome : Outcome; Status : Z; Duration : Z }.
Definition info (o : Outcome) : MirrorInfo := mkInfo o 0 0.

Definition Handler := world -> Request -> act.

(** The configuration; the destination chain is [ms]. *)
Record Mirror := mk {
  ms : list (Handler -> Handler);
  Match : option (Request -> bool);
  Observe : bool;
  MarkHeader : string;
  MarkValue : string;
  SampleRate : spec_float;
  Timeout : Z;
  MaxBodyBytes : Z;
  Workers : Z;
  QueueSize : Z;
  DisableBody : bool;
  DisableMark : bool;
}.

Definition New : Mirror := mk [] None false "" "" (float64 0) 0 0 0 0 false false.

Definition Use (m : Mirror) (x : option (Handler -> Handler)) : Mirror :=
  mk (match x with Some f => ms m ++ [f] | None => ms m end) (Match m) (Observe m) (MarkHeader m) (MarkValue m)
     (SampleRate m) (Timeout m) (MaxBodyBytes m) (Workers m) (QueueSize m) (DisableBody m) (DisableMark m).

(** The defaults of [init]; they are set once and then frozen. *)
Definition defaults (m : Mirror) : Mirror :=
  let rate := if f_le (SampleRate m) (float64 0) then float64 1 else SampleRate m in
  mk (ms m) (Match m) (Observe m)
     (if String.eqb (MarkHeader m) "" then "X-Mirror" else MarkHeader m)
     (if String.eqb (MarkValue m) "" then "1" else MarkValue m)
     (if f_lt (float64 1) rate then float64 1 else rate)
     (if Timeout m <=? 0 then 10 * Second else Timeout m)
     (if MaxBodyBytes m <=? 0 then 2 ^ 20 else MaxBodyBytes m)
     (if Workers m <=? 0 then 8 else Workers m)
     (if QueueSize m <=? 0 then 256 else QueueSize m)
     (DisableBody m) (DisableMark m).

(** [m.ms.ServeHandler(http.NotFoundHandler())]. *)
Definition handler (m : Mirror) : Handler :=
  foldr (fun f h => f h) (fun _ _ => http_Error "404 page not found" 404) (ms m).

(** ** Copying the body *)

Definition read_body (b : body) : reader := match b with NoBody => reader_eof "" | Stream r => r end.

Definition restoreBody (read : string) (rest : reader) : body := Stream (MultiReader read rest).

(** The bytes for the mirror ([None] is nil), whether it goes on, and the request with
    its body rewired. *)
Definition captureBody (m : Mirror) (r : Request) : option string * bool * Request :=
  match Body r with
  | None | Some NoBody => (None, true, r)
  | Some (Stream src) =>
      if DisableBody m then (None, true, r)
      else match GetBody r with
           | Some g =>
               match g with
               | Some rc =>
                   let '(b, err, _) := ReadAllLimit (i64 (MaxBodyBytes m + 1)) (read_body rc) in
                   match err with
                   | None => if Z.of_nat (String.length b) <=? MaxBodyBytes m then (Some b, true, r) else (None, false, r)
                   | Some _ => (None, false, r)
                   end
               | None => (None, false, r)
               end
           | None =>
               let limit := MaxBodyBytes m in
               let '(read, err, rest) := CopyN (i64 (limit + 1)) src in
               match err with
               | Some (Some _) => (None, false, with_body (Some (restoreBody read rest)) r)
               | _ =>
                   if limit <? Z.of_nat (String.length read)
                   then (None, false, with_body (Some (restoreBody read rest)) r)
                   else (if String.eqb read "" then None else Some read, true,
                         with_body (Some (Stream (reader_eof read))) r)
               end
           end
  end.

(** ** The mirrored request *)

Definition sanitize (m : Mirror) (h : header) : header :=
  let h := filter (fun kv => CanonicalHeaderKey kv.1 ∉ hopByHop) h in
  let h := delete "Expect" h in
  if DisableMark m then h else HSet h (CanonicalHeaderKey (MarkHeader m)) (MarkValue m).

Definition clone (m : Mirror) (r : Request) (b : option string) : Request :=
  let q := base r in
  let q := Middleware.mkRequest (Middleware.Method q) (Middleware.Host q) (Middleware.Path q) "" ""
             (Middleware.TLS q) (sanitize m (Middleware.Header q)) in
  match b with
  | Some s => mkRequest q false [] (Z.of_nat (String.length s)) (Some (Stream (reader_eof s)))
                (Some (Some (Stream (reader_eof s))))
  | None => mkRequest q false [] 0 (Some NoBody) (Some (Some NoBody))
  end.

(** A job: its request and the context its [cancel] releases. *)
Record mirrorJob := mkJob { req : Request; ctx : nat }.

(** ** The shared state *)

Record shared := mkShared {
  now : Z;
  next_ctx : nat;
  live : gmap nat Z;  (* contexts not yet released, with their deadlines *)
  jobs : list mirrorJob;
  dispatched : Z;
  dropFull : Z;
  dropOversize : Z;
  completed : Z;
  panicked : Z;
  observed : list MirrorInfo;
}.

Definition start : shared := mkShared 0 0 ∅ [] 0 0 0 0 0 [].

Definition with_jobs (js : list mirrorJob) (s : shared) : shared :=
  mkShared (now s) (next_ctx s) (live s) js (dispatched s) (dropFull s) (dropOversize s) (completed s) (panicked s) (observed s).
Definition with_now (t : Z) (s : shared) : shared :=
  mkShared t (next_ctx s) (live s) (jobs s) (dispatched s) (dropFull s) (dropOversize s) (completed s) (panicked s) (observed s).

(** [context.WithTimeout] and the [cancel] it returns. *)
Definition with_timeout (d : Z) (s : shared) : shared :=
  mkShared (now s) (S (next_ctx s)) (<[next_ctx s := now s + d]> (live s)) (jobs s) (dispatched s) (dropFull s)
    (dropOversize s) (completed s) (panicked s) (observed s).
Definition cancel (id : nat) (s : shared) : shared :=
  mkShared (now s) (next_ctx s) (delete id (live s)) (jobs s) (dispatched s) (dropFull s)
    (dropOversize s) (completed s) (panicked s) (observed s).

(** The counters, one atomic [Add(1)] each. *)
Definition add (o : Outcome) (s : shared) : shared :=
  let inc o' n := if bool_decide (o = o') then u64 (n + 1) else n in
  mkShared (now s) (next_ctx s) (live s) (jobs s)
    (inc OutcomeDispatched (dispatched s)) (inc OutcomeDroppedFull (dropFull s))
    (inc OutcomeDroppedOversize (dropOversize s)) (inc OutcomeCompleted (completed s))
    (inc OutcomePanicked (panicked s)) (observed s).

Definition Stats (s : shared) : Z * Z * Z * Z * Z :=
  (dispatched s, dropFull s, dropOversize s, completed s, panicked s).

Definition emit (m : Mirror) (i : MirrorInfo) (s : shared) : shared :=
  if Observe m then
    mkShared (now s) (next_ctx s) (live s) (jobs s) (dispatched s) (dropFull s) (dropOversize s) (completed s)
      (panicked s) (observed s ++ [i])
  else s.

(** ** A request goroutine

    Every phase before [RNext] holds the request as the primary will see it. *)
Inductive rphase :=
  | RStart (r : Request) (draw : spec_float)
  | ROversize (r : Request)
  | RDispatch (r : Request) (b : option string)
  | RSend (r : Request) (j : mirrorJob)
  | RSent (r : Request)
  | RFull (r : Request) (id : nat)
  | RFullAdd (r : Request)
  | REmit (r : Request) (o : Outcome)
  | RNext (r : Request).

Definition rstep (m : Mirror) (p : rphase) (s : shared) : option (rphase * shared) :=
  match p with
  | RStart r draw =>
      if match Match m with Some f => negb (f r) | None => false end then Some (RNext r, s)
      else if f_lt (SampleRate m) (float64 1) && f_le (SampleRate m) draw then Some (RNext r, s)
      else let '(b, ok, r') := captureBody m r in
           Some (if ok then RDispatch r' b else ROversize r', s)
  | ROversize r => Some (REmit r OutcomeDroppedOversize, add OutcomeDroppedOversize s)
  | RDispatch r b =>
      Some (RSend r (mkJob (clone m r b) (next_ctx s)), with_timeout (Timeout m) s)
  | RSend r j =>
      if Z.of_nat (length (jobs s)) <? QueueSize m then Some (RSent r, with_jobs (jobs s ++ [j]) s)
      else Some (RFull r (ctx j), s)
  | RSent r => Some (REmit r OutcomeDispatched, add OutcomeDispatched s)
  | RFull r id => Some (RFullAdd r, cancel id s)
  | RFullAdd r => Some (REmit r OutcomeDroppedFull, add OutcomeDroppedFull s)
  | REmit r o => Some (RNext r, emit m (info o) s)
  | RNext _ => None
  end.

(** ** A worker *)

(** [discardResponseWriter]: the status is the last one written, 0 when none was. *)
Record discardResponseWriter := mkDW { h : header; status : Z }.

Fixpoint discard (a : act) (d : discardResponseWriter) : discardResponseWriter * bool :=
  match a with
  | Done => (d, true)
  | Panic => (d, false)
  | ReadHeader k => discard (k (h d)) d
  | UpdateHeader f k => discard k (mkDW (f (h d)) (status d))
  | WriteHeader code k => discard k (mkDW (h d) code)
  | Write _ k | Flush k => discard k d
  end.

Inductive wphase :=
  | WIdle
  | WServe (j : mirrorJob) (t0 : Z)
  | WCount (j : mirrorJob) (t0 : Z) (ok : bool) (status : Z)
  | WEmit (j : mirrorJob) (t0 : Z) (ok : bool) (status : Z)
  | WCancel (j : mirrorJob).

Definition result (ok : bool) : Outcome := if ok then OutcomeCompleted else OutcomePanicked.

Definition wstep (m : Mirror) (w : world) (p : wphase) (s : shared) : option (wphase * shared) :=
  match p with
  | WIdle => match jobs s with [] => None | j :: js => Some (WServe j (now s), with_jobs js s) end
  | WServe j t0 =>
      let '(dw, ok) := discard (handler m w (req j)) (mkDW ∅ 0) in Some (WCount j t0 ok (status dw), s)
  | WCount j t0 ok st => Some (WEmit j t0 ok st, add (result ok) s)
  | WEmit j t0 ok st =>
      Some (WCancel j, emit m (if ok then mkInfo OutcomeCompleted st (time_sub (now s) t0) else info OutcomePanicked) s)
  | WCancel j => Some (WIdle, cancel (ctx j) s)
  end.

(** ** The whole: request goroutines, the pool, and what they share *)

Record state := mkState { sh : shared; requests : list rphase; pool : list wphase }.

Definition init (m : Mirror) : state := mkState start [] (replicate (Z.to_nat (Workers m)) WIdle).

Inductive wmove (m : Mirror) : state -> state -> Prop :=
  | move_worker w i p p' s s' rs ps :
      ps !! i = Some p -> wstep m w p s = Some (p', s') ->
      wmove m (mkState s rs ps) (mkState s' rs (<[i := p']> ps)).

Inductive step (m : Mirror) : state -> state -> Prop :=
  | step_arrive s rs ps r draw : step m (mkState s rs ps) (mkState s (rs ++ [RStart r draw]) ps)
  | step_tick s rs ps t : now s <= t -> step m (mkState s rs ps) (mkState (with_now t s) rs ps)
  | step_request i p p' s s' rs ps :
      rs !! i = Some p -> rstep m p s = Some (p', s') ->
      step m (mkState s rs ps) (mkState s' (<[i := p']> rs) ps)
  | step_worker st st' : wmove m st st' -> step m st st'.

End Mirror.
End Mirror.
