(* ===== verification/MirrorFacts.v ===== *)
(** * Mirroring never touches the primary

    The theorems on [Mirror]: the primary request, the mirrored one, what the pool and
    the queue keep, and that the pool drains. *)

From S2P Require Import Prelude GoFloat GoStrings GoNet GoIO Middleware CacheKeys Headers Mirror.

Module MirrorFacts.
Import Mirror.
Section Facts.
Context {world : Type}.
Implicit Types m : @Mirror world.

(** ** The primary *)

Lemma read_whole src n b err rest :
  CopyN n src = (b, err, rest) -> Z.of_nat (String.length b) < n -> (forall e, err <> Some (Some e)) -> src = reader_eof b.
Proof.
  unfold CopyN, ReadAllLimit, reader_eof. destruct src as [d f]. cbn [data fail]. destruct (Z.leb_spec n 0); [intros; simplify_eq; cbn in *; lia|].
  destruct (Z.leb_spec n (Z.of_nat (String.length d))); intros ? Hlen He; simplify_eq; [rewrite strtake_length in Hlen; lia|].
  revert He. destruct (Z.eqb_spec (Z.of_nat (String.length b)) n); [lia|]. destruct f as [e|]; [|done]. intros He. by destruct (He e).
Qed.

Lemma captureBody_primary m r b ok r' :
  0 <= MaxBodyBytes m < max_i64 -> captureBody m r = (b, ok, r') -> r' = r.
Proof.
  intros Hm. unfold captureBody, max_i64 in *. destruct r as [q cl te len [[|src]|] g]; cbn; try congruence.
  destruct (DisableBody m); [congruence|]. destruct g as [[rc|]|].
  - destruct (ReadAllLimit _ _) as [[? []] ?]; [|case_match]; congruence.
  - congruence.
  - rewrite i64_small by lia. pose proof (ReadAllLimit_restore (MaxBodyBytes m + 1) src) as Hr.
    destruct (CopyN _ src) as [[read err] rest] eqn:HC.
    assert (MultiReader read rest = src) as Hsrc.
    { unfold CopyN in HC. destruct (ReadAllLimit _ src) as [[??]?]. by simplify_eq. }
    unfold with_body, restoreBody. cbn. rewrite Hsrc.
    destruct err as [[e|]|]; [congruence| |]; (destruct (Z.ltb_spec (MaxBodyBytes m) (Z.of_nat (String.length read)));
      [congruence|]); (rewrite (read_whole _ _ _ _ _ HC) by (done || lia)); congruence.
Qed.

(** The request a goroutine holds, and how many actions separate it from [next]. *)
Definition held (p : rphase) : Request :=
  match p with
  | RStart r _ | ROversize r | RDispatch r _ | RSend r _ | RSent r | RFull r _ | RFullAdd r | REmit r _ | RNext r => r
  end.
Definition rank (p : rphase) : nat :=
  match p with
  | RStart _ _ => 6 | RDispatch _ _ => 5 | RSend _ _ => 4 | RFull _ _ => 3 | RSent _ | RFullAdd _ | ROversize _ => 2
  | REmit _ _ => 1 | RNext _ => 0
  end.

Lemma rstep_held m p s p' s' :
  0 <= MaxBodyBytes m < max_i64 -> rstep m p s = Some (p', s') -> held p' = held p.
Proof.
  intros Hm. destruct p; cbn; try (intros; by simplify_eq).
  - destruct (captureBody m r) as [[b ok] r'] eqn:E. apply captureBody_primary in E as ->; [|done].
    repeat case_match; intros; simplify_eq; done.
  - case_match; intros; by simplify_eq.
Qed.

Lemma rstep_moves m p s : (exists r, p = RNext r) \/ exists p' s', rstep m p s = Some (p', s') /\ (rank p' < rank p)%nat.
Proof.
  destruct p; cbn; try (right; do 2 eexists; split; [done|cbn; lia]); try (left; by eauto).
  - right. destruct (captureBody m r) as [[b ok] r']. repeat case_match; simplify_eq; do 2 eexists; (split; [done|cbn; lia]).
  - right. case_match; do 2 eexists; (split; [done|cbn; lia]).
Qed.

Lemma step_held m st st' i p :
  0 <= MaxBodyBytes m < max_i64 -> step m st st' -> requests st !! i = Some p ->
  exists p', requests st' !! i = Some p' /\ held p' = held p.
Proof.
  intros Hm Hs Hi. destruct Hs as [s rs ps r draw|s rs ps t Ht|j q q' s s' rs ps Hj Hq|st st' [w j q q' s s' rs ps Hj Hq]]; cbn in *.
  - exists p. split; [by apply lookup_app_l_Some|done].
  - eauto.
  - destruct (decide (i = j)) as [->|Hne].
    + simplify_eq. exists q'. rewrite list_lookup_insert_eq by eauto using lookup_lt_Some. split; [done|]. by eapply rstep_held.
    + rewrite list_lookup_insert_ne by done. eauto.
  - eauto.
Qed.

(** ** The mirrored request *)

Lemma sanitize_lookup m hd k :
  sanitize m hd !! k =
  if negb (DisableMark m) && bool_decide (k = CanonicalHeaderKey (MarkHeader m)) then Some [MarkValue m]
  else if bool_decide (k = "Expect" \/ CanonicalHeaderKey k ∈ hopByHop) then None else hd !! k.
Proof.
  assert (forall hd : gmap string (list string), delete "Expect" (filter (fun kv => CanonicalHeaderKey kv.1 ∉ hopByHop) hd) !! k =
    if bool_decide (k = "Expect" \/ CanonicalHeaderKey k ∈ hopByHop) then None else hd !! k) as H.
  { intros g. destruct (decide (k = "Expect")) as [->|He].
    - rewrite lookup_delete_eq, bool_decide_true by auto. done.
    - rewrite lookup_delete_ne, map_lookup_filter by done. case_bool_decide as Hk.
      + destruct Hk as [?|Hk]; [done|]. destruct (g !! k) as [v|]; cbn; [|done]. by rewrite option_guard_False by tauto.
      + destruct (g !! k) as [v|]; cbn; [|done]. rewrite option_guard_True; [done|]. tauto. }
  unfold sanitize. destruct (DisableMark m); cbn [negb andb]; [apply H|].
  destruct (decide (k = CanonicalHeaderKey (MarkHeader m))) as [Hk|Hk].
  - rewrite bool_decide_true by done. rewrite Hk. apply HeadersFacts.HSet_eq.
  - rewrite bool_decide_false by done. rewrite HeadersFacts.HSet_ne by congruence. apply H.
Qed.

(** ** Contexts *)

Definition rctx (p : rphase) : list nat :=
  match p with RSend _ j => [ctx j] | RFull _ id => [id] | _ => [] end.
Definition wctx (p : wphase) : list nat :=
  match p with WIdle => [] | WServe j _ | WCount j _ _ _ | WEmit j _ _ _ | WCancel j => [ctx j] end.

(** Who will release a context: a queued job, a request goroutine that has just made or
    been refused one, a busy worker. *)
Definition owners (st : state) : list nat :=
  (ctx <$> jobs (sh st)) ++ (requests st ≫= rctx) ++ (pool st ≫= wctx).

Definition owned (st : state) : Prop :=
  NoDup (owners st) /\ dom (live (sh st)) = list_to_set (owners st) /\ Forall (fun id => id < next_ctx (sh st))%nat (owners st).

Lemma owned_same st st' :
  owners st' ≡ₚ owners st -> live (sh st') = live (sh st) -> next_ctx (sh st') = next_ctx (sh st) -> owned st -> owned st'.
Proof.
  intros Hp Hl Hn (H1 & H2 & H3). unfold owned. rewrite Hl, Hn. split_and!; [by rewrite Hp| |by rewrite Hp].
  rewrite H2. apply leibniz_equiv. by rewrite Hp.
Qed.

Lemma owned_new st st' d :
  owners st' ≡ₚ next_ctx (sh st) :: owners st -> live (sh st') = <[next_ctx (sh st) := d]> (live (sh st)) ->
  next_ctx (sh st') = S (next_ctx (sh st)) -> owned st -> owned st'.
Proof.
  intros Hp Hl Hn (H1 & H2 & H3). rewrite Forall_forall in H3. unfold owned. rewrite Hl, Hn. split_and!.
  - rewrite Hp. constructor; [|done]. intros Hin. specialize (H3 _ Hin). lia.
  - rewrite dom_insert_L, H2. apply leibniz_equiv. rewrite Hp. done.
  - rewrite Hp. constructor; [lia|]. rewrite Forall_forall. intros id Hid. specialize (H3 _ Hid). lia.
Qed.

Lemma owned_cancel st st' id :
  id :: owners st' ≡ₚ owners st -> live (sh st') = delete id (live (sh st)) ->
  next_ctx (sh st') = next_ctx (sh st) -> owned st -> owned st'.
Proof.
  intros Hp Hl Hn (H1 & H2 & H3). rewrite <- Hp in H1, H3. apply NoDup_cons in H1 as [Hni H1].
  apply Forall_cons in H3 as [_ H3]. unfold owned. rewrite Hl, Hn. split_and!; [done| |done].
  rewrite dom_delete_L, H2. apply leibniz_equiv. rewrite <- Hp. cbn. set_solver.
Qed.

Lemma owned_request m p s p' s' i rs ps :
  rs !! i = Some p -> rstep m p s = Some (p', s') -> owned (mkState s rs ps) -> owned (mkState s' (<[i := p']> rs) ps).
Proof.
  intros Hi Hs. pose proof (mbind_insert_perm rctx rs i p p' Hi) as HP.
  assert (rctx p = [] -> rctx p' = [] -> jobs s' = jobs s -> live s' = live s -> next_ctx s' = next_ctx s ->
          owned (mkState s rs ps) -> owned (mkState s' (<[i := p']> rs) ps)) as Hsame.
  { intros H1 H2 H3 H4 H5. apply owned_same; [|done..]. unfold owners. cbn. rewrite H3. rewrite H1, H2 in HP. cbn in HP. by rewrite HP. }
  destruct p as [r draw|r|r b|r j|r|r id|r|r o|r]; cbn in Hs.
  - destruct (captureBody m r) as [[b ok] r']. repeat case_match; simplify_eq; by apply Hsame.
  - simplify_eq. by apply Hsame.
  - simplify_eq. eapply owned_new; [|done..]. unfold owners. cbn in *. rewrite HP. solve_Permutation.
  - case_match; simplify_eq; (apply owned_same; [|done..]); unfold owners; cbn in *.
    + rewrite <- HP, fmap_app. cbn. solve_Permutation.
    + apply Permutation_cons_inv in HP. by rewrite HP.
  - simplify_eq. by apply Hsame.
  - simplify_eq. eapply (owned_cancel _ _ id); [|done..]. unfold owners. cbn in *. rewrite <- HP. solve_Permutation.
  - simplify_eq. by apply Hsame.
  - simplify_eq. unfold emit in *. case_match; by apply Hsame.
  - done.
Qed.

Lemma owned_worker m w p s p' s' i rs ps :
  ps !! i = Some p -> wstep m w p s = Some (p', s') -> owned (mkState s rs ps) -> owned (mkState s' rs (<[i := p']> ps)).
Proof.
  intros Hi Hs. pose proof (mbind_insert_perm wctx ps i p p' Hi) as HP.
  destruct p as [|j t0|j t0 ok st|j t0 ok st|j]; cbn in Hs.
  - destruct (jobs s) as [|j js] eqn:Hj; simplify_eq. apply owned_same; try done. unfold owners. cbn in *. rewrite Hj, HP. cbn. solve_Permutation.
  - destruct (discard _ _) as [dw ok]. simplify_eq. apply owned_same; try done. unfold owners. cbn in *. apply Permutation_cons_inv in HP. by rewrite HP.
  - simplify_eq. apply owned_same; try done. unfold owners. cbn in *. apply Permutation_cons_inv in HP. by rewrite HP.
  - simplify_eq. apply Permutation_cons_inv in HP. unfold emit. destruct (Observe m); (apply owned_same; [|done..]); unfold owners; cbn in *; by rewrite HP.
  - simplify_eq. eapply (owned_cancel _ _ (ctx j)); [|done..]. unfold owners. cbn in *. rewrite <- HP. solve_Permutation.
Qed.

Lemma owned_step m st st' : step m st st' -> owned st -> owned st'.
Proof.
  intros [s rs ps r draw|s rs ps t Ht|j q q' s s' rs ps Hj Hq|st1 st2 [w j q q' s s' rs ps Hj Hq]].
  - apply owned_same; try done. unfold owners. cbn. rewrite bind_app. cbn. by rewrite app_nil_r.
  - by apply owned_same.
  - by eapply owned_request.
  - by eapply owned_worker.
Qed.

(** ** Sizes and counts *)

Definition sized m (st : state) : Prop :=
  Z.of_nat (length (jobs (sh st))) <= QueueSize m /\ length (pool st) = Z.to_nat (Workers m).

Lemma sized_step m st st' : step m st st' -> sized m st -> sized m st'.
Proof.
  unfold sized. intros [s rs ps r draw|s rs ps t Ht|j p q' s s' rs ps Hj Hq|st1 st2 [w j p q' s s' rs ps Hj Hq]] [Hs1 Hs2];
    cbn in *; rewrite ?length_insert; (split; [|done]); try done.
  - destruct p; cbn in Hq; unfold emit in *; try destruct (captureBody _ _) as [[??]?]; repeat case_match; simplify_eq; cbn; try done.
    rewrite length_app. cbn. bool_prop. lia.
  - destruct p; cbn in Hq; unfold emit in *; repeat case_match; simplify_eq; cbn in *; try done; lia.
Qed.

Definition counter (o : Outcome) (s : shared) : Z :=
  match o with
  | OutcomeDispatched => dispatched s
  | OutcomeCompleted => completed s
  | OutcomeDroppedFull => dropFull s
  | OutcomeDroppedOversize => dropOversize s
  | OutcomePanicked => panicked s
  end.

Lemma counter_add o o' s : counter o (add o' s) = if bool_decide (o' = o) then u64 (counter o s + 1) else counter o s.
Proof. by destruct o, o'. Qed.

Definition is_sent (p : rphase) : nat := match p with RSent _ => 1 | _ => 0 end.
Definition telling (o : Outcome) (p : rphase) : nat := match p with REmit _ o' => if decide (o = o') then 1 else 0 | _ => 0 end.
Definition is_serving (p : wphase) : nat := match p with WServe _ _ | WCount _ _ _ _ => 1 | _ => 0 end.
Definition wtelling (o : Outcome) (p : wphase) : nat :=
  match p with WEmit _ _ ok _ => if decide (o = result ok) then 1 else 0 | _ => 0 end.

(** How often [Observe] was told [o], or is about to be. *)
Definition told (o : Outcome) (st : state) : nat :=
  (length (filter (fun i => outcome i = o) (observed (sh st))) + sum_list_with (telling o) (requests st)
   + sum_list_with (wtelling o) (pool st))%nat.

(** [n o] is the number of times [o] happened: the counters hold it at 64 bits; a job
    that was sent is queued, in a worker's hands, or counted as completed or panicked;
    and [Observe] was told each once. *)
Record counts m (st : state) (n : Outcome -> nat) : Prop := {
  counts_counter o : counter o (sh st) = u64 (Z.of_nat (n o));
  counts_jobs : (n OutcomeDispatched + sum_list_with is_sent (requests st) =
                 n OutcomeCompleted + n OutcomePanicked + length (jobs (sh st)) + sum_list_with is_serving (pool st))%nat;
  counts_told : Observe m = true -> forall o, n o = told o st;
}.

Definition inc (o : Outcome) (n : Outcome -> nat) : Outcome -> nat := fun o' => if decide (o = o') then S (n o') else n o'.

Lemma counter_inc o o' s n : counter o s = u64 (Z.of_nat (n o)) -> counter o (add o' s) = u64 (Z.of_nat (inc o' n o)).
Proof.
  intros H. rewrite counter_add, H. unfold inc. case_bool_decide; [rewrite decide_True by done|by rewrite decide_False by done].
  unfold u64, wrap_u. rewrite Zplus_mod_idemp_l. f_equal. lia.
Qed.

Lemma told_emit m i s rs ps o : Observe m = true ->
  told o (mkState (emit m i s) rs ps) = (told o (mkState s rs ps) + if decide (o = outcome i) then 1 else 0)%nat.
Proof.
  intros Hm. unfold told, emit. rewrite Hm. cbn. rewrite filter_app, length_app, filter_cons.
  destruct (decide (o = outcome i)); [rewrite decide_True by done|rewrite decide_False by done]; cbn; lia.
Qed.

Lemma emit_counter m i s o : counter o (emit m i s) = counter o s.
Proof. unfold emit. by destruct (Observe m), o. Qed.
Lemma emit_jobs m i s : jobs (emit m i s) = jobs s.
Proof. unfold emit. by destruct (Observe m). Qed.

(** The arithmetic of one action, once the sums over the goroutines are known. *)
Ltac balance :=
  unfold told, inc in *; cbn [sh requests pool jobs observed add with_jobs with_timeout cancel is_sent is_serving telling wtelling result outcome info] in *;
  rewrite ?length_app in *; cbn [length] in *;
  repeat match goal with |- context [decide ?P] => destruct (decide P); try congruence
                      | _ : context [decide ?P] |- _ => destruct (decide P); try congruence end; lia.

Lemma counts_request m p s p' s' i rs ps n :
  rs !! i = Some p -> rstep m p s = Some (p', s') -> counts m (mkState s rs ps) n ->
  exists n', counts m (mkState s' (<[i := p']> rs) ps) n'.
Proof.
  intros Hi Hs [H1 H2 H3]. pose proof (sum_list_with_insert is_sent rs i p p' Hi) as E1.
  pose proof (fun o => sum_list_with_insert (telling o) rs i p p' Hi) as E2.
  destruct p as [r draw|r|r b|r j|r|r id|r|r o|r]; cbn in Hs.
  - exists n. destruct (captureBody m r) as [[b ok] r'].
    repeat case_match; simplify_eq; (split; [done|balance|intros Hm o; specialize (H3 Hm o); specialize (E2 o); balance]).
  - simplify_eq. exists (inc OutcomeDroppedOversize n). split; [intros o; by apply counter_inc|balance|].
    intros Hm o; specialize (H3 Hm o); specialize (E2 o); balance.
  - simplify_eq. exists n. split; [intros o; by rewrite <- H1; destruct o|balance|intros Hm o; specialize (H3 Hm o); specialize (E2 o); balance].
  - exists n. case_match; simplify_eq; (split; [intros o; by rewrite <- H1; destruct o|balance|intros Hm o; specialize (H3 Hm o); specialize (E2 o); balance]).
  - simplify_eq. exists (inc OutcomeDispatched n). split; [intros o; by apply counter_inc|balance|].
    intros Hm o; specialize (H3 Hm o); specialize (E2 o); balance.
  - simplify_eq. exists n. split; [intros o; by rewrite <- H1; destruct o|balance|intros Hm o; specialize (H3 Hm o); specialize (E2 o); balance].
  - simplify_eq. exists (inc OutcomeDroppedFull n). split; [intros o; by apply counter_inc|balance|].
    intros Hm o; specialize (H3 Hm o); specialize (E2 o); balance.
  - simplify_eq. exists n. split; [intros o'; cbn; rewrite emit_counter; apply H1|cbn [sh]; rewrite emit_jobs; balance|].
    intros Hm o'. specialize (H3 Hm o'). specialize (E2 o'). rewrite told_emit by done. cbn [outcome info]. balance.
  - done.
Qed.

Lemma counts_worker m w p s p' s' i rs ps n :
  ps !! i = Some p -> wstep m w p s = Some (p', s') -> counts m (mkState s rs ps) n ->
  exists n', counts m (mkState s' rs (<[i := p']> ps)) n'.
Proof.
  intros Hi Hs [H1 H2 H3]. pose proof (sum_list_with_insert is_serving ps i p p' Hi) as E1.
  pose proof (fun o => sum_list_with_insert (wtelling o) ps i p p' Hi) as E2.
  destruct p as [|j t0|j t0 ok st|j t0 ok st|j]; cbn in Hs.
  - destruct (jobs s) as [|j js] eqn:Hj; simplify_eq. exists n.
    split; [intros o; by rewrite <- H1; destruct o| |intros Hm o; specialize (H3 Hm o); specialize (E2 o); balance].
    cbn [sh] in H2. rewrite Hj in H2. balance.
  - destruct (discard _ _) as [dw ok]. simplify_eq. exists n.
    split; [done|balance|intros Hm o; specialize (H3 Hm o); specialize (E2 o); balance].
  - simplify_eq. exists (inc (result ok) n). split; [intros o; by apply counter_inc|destruct ok; cbn [result] in *; balance|].
    intros Hm o; specialize (H3 Hm o); specialize (E2 o); balance.
  - simplify_eq. exists n. split; [intros o'; cbn; rewrite emit_counter; apply H1|cbn [sh]; rewrite emit_jobs; balance|].
    intros Hm o'. specialize (H3 Hm o'). specialize (E2 o'). rewrite told_emit by done. destruct ok; cbn [outcome info result] in *; balance.
  - simplify_eq. exists n. split; [intros o; by rewrite <- H1; destruct o|balance|intros Hm o; specialize (H3 Hm o); specialize (E2 o); balance].
Qed.

Lemma counts_step m st st' n : step m st st' -> counts m st n -> exists n', counts m st' n'.
Proof.
  intros [s rs ps r draw|s rs ps t Ht|j q q' s s' rs ps Hj Hq|st1 st2 [w j q q' s s' rs ps Hj Hq]].
  - intros [H1 H2 H3]. exists n. split; [done| |].
    + cbn [sh requests pool] in *. rewrite sum_list_with_app. cbn. lia.
    + intros Hm o. rewrite (H3 Hm). unfold told. cbn [sh requests pool]. rewrite sum_list_with_app. cbn. lia.
  - intros [H1 H2 H3]. exists n. split; [intros o; by rewrite <- H1; destruct o|done|done].
  - by eapply counts_request.
  - by eapply counts_worker.
Qed.

Lemma mirror_reachable m st : 0 <= QueueSize m -> rtc (step m) (init m) st -> owned st /\ sized m st /\ exists n, counts m st n.
Proof.
  intros Hq Hr. remember (init m) as st0 eqn:E0.
  assert (owned st0 /\ sized m st0 /\ exists n, counts m st0 n) as H0.
  { subst st0. assert (forall {B} (f : wphase -> list B) k, f WIdle = [] -> replicate k WIdle ≫= f = []) as Hb.
    { intros B f k Hf. induction k as [|k IH]; [done|]. cbn. by rewrite Hf, IH. }
    assert (forall (f : wphase -> nat) k, f WIdle = 0%nat -> sum_list_with f (replicate k WIdle) = 0%nat) as Hs.
    { intros f k Hf. induction k as [|k IH]; [done|]. cbn. by rewrite Hf, IH. }
    unfold owned, sized, owners, init. cbn. rewrite Hb by done. rewrite length_replicate. split_and!; [apply NoDup_nil_2|done|done|done|done|].
    exists (fun _ => 0%nat). split; [by intros []|cbn; by rewrite Hs|]. intros Hm o. unfold told. cbn. by rewrite Hs. }
  clear E0. induction Hr as [st|st0 st1 st2 Hs _ IH]; [done|]. destruct H0 as (Ho & Hz & n & Hn). apply IH.
  split_and!; [by eapply owned_step|by eapply sized_step|by eapply counts_step].
Qed.

(** ** Draining *)

Definition wrank (p : wphase) : nat :=
  match p with WIdle => 0 | WServe _ _ => 4 | WCount _ _ _ _ => 3 | WEmit _ _ _ _ => 2 | WCancel _ => 1 end.
Definition work (st : state) : nat := (5 * length (jobs (sh st)) + sum_list_with wrank (pool st))%nat.

Lemma wmove_work m st st' : wmove m st st' -> (work st' < work st)%nat /\ requests st' = requests st.
Proof.
  intros [w i p p' s s' rs ps Hi Hs]. split; [|done]. unfold work. cbn [sh pool].
  pose proof (sum_list_with_insert wrank ps i p p' Hi) as E.
  destruct p as [|j t0|j t0 ok x|j t0 ok x|j]; cbn in Hs.
  - destruct (jobs s) as [|j js] eqn:Hj; simplify_eq. cbn in *. lia.
  - destruct (discard _ _) as [dw ok]. simplify_eq. cbn in *. lia.
  - simplify_eq. cbn in *. lia.
  - simplify_eq. rewrite emit_jobs. cbn in *. lia.
  - simplify_eq. cbn in *. lia.
Qed.

Lemma wmove_enabled m (w : world) st :
  (0 < length (pool st))%nat -> (forall st', ~ wmove m st st') -> jobs (sh st) = [] /\ Forall (eq WIdle) (pool st).
Proof.
  destruct st as [s rs ps]. cbn. intros Hl Hn.
  assert (forall i p, ps !! i = Some p -> wstep m w p s = None) as H.
  { intros i p Hi. destruct (wstep m w p s) as [[p' s']|] eqn:E; [|done]. destruct (Hn (mkState s' rs (<[i := p']> ps))). by econstructor. }
  assert (forall i p, ps !! i = Some p -> p = WIdle) as Hidle.
  { intros i p Hi. specialize (H i p Hi). destruct p; cbn in H; try done. by destruct (discard _ _). }
  split; [|apply Forall_lookup; intros i p Hi; symmetry; eauto].
  destruct ps as [|p ps]; [cbn in Hl; lia|]. assert (p = WIdle) as -> by by apply (Hidle 0%nat).
  specialize (H 0%nat WIdle eq_refl). cbn in H. by destruct (jobs s).
Qed.

Lemma idle_sum (f : wphase -> nat) ps : f WIdle = 0%nat -> Forall (eq WIdle) ps -> sum_list_with f ps = 0%nat.
Proof. intros Hf. induction 1 as [|p ps <- _ IH]; [done|]. cbn. by rewrite Hf, IH. Qed.
Lemma idle_bind ps : Forall (eq WIdle) ps -> ps ≫= wctx = [].
Proof. induction 1 as [|p ps <- _ IH]; [done|]. exact IH. Qed.

Definition at_next (p : rphase) : Prop := exists r, p = RNext r.

Lemma next_bind rs : Forall at_next rs -> rs ≫= rctx = [] /\ sum_list_with is_sent rs = 0%nat.
Proof. induction 1 as [|p rs [r ->] _ IH]; [done|]. exact IH. Qed.

Lemma nsteps_work m k st st' : nsteps (wmove m) k st st' -> (k + work st' <= work st)%nat /\ requests st' = requests st.
Proof.
  induction 1 as [st|k st1 st2 st3 Hs _ [IH1 IH2]]; [done|]. destruct (wmove_work _ _ _ Hs) as [H1 H2].
  split; [lia|congruence].
Qed.

(** ** The theorems *)

(** C26: With a body cap below the largest 64-bit integer, whatever the other
    requests, the workers, the clock and the mirror's destination do, a request that
    enters the mirror is at any later moment either handed to the next handler or able
    to act on its own (it waits for nobody), and it is at most six of its own actions
    away from the next handler; the request the next handler gets is the one that
    arrived, its body reading the same bytes to the same end or error. *)
Theorem mirror_primary_unaffected m st st' i r draw :
  0 <= MaxBodyBytes m < max_i64 -> rtc (step m) st st' -> requests st !! i = Some (RStart r draw) ->
  exists p, requests st' !! i = Some p /\ held p = r /\ (rank p <= 6)%nat /\
    (p = RNext r \/ exists p' s', rstep m p (sh st') = Some (p', s') /\ (rank p' < rank p)%nat).
Proof.
  intros Hm Hr Hi. assert (exists p, requests st' !! i = Some p /\ held p = r) as (p & Hp & Hh).
  { enough (forall p, requests st !! i = Some p -> exists p', requests st' !! i = Some p' /\ held p' = held p) as H
      by (apply (H _ Hi)).
    clear Hi. induction Hr as [st|st0 st1 st2 Hs _ IH]; [eauto|]. intros p Hp.
    destruct (step_held _ _ _ _ _ Hm Hs Hp) as (p1 & Hp1 & <-). by apply IH. }
  exists p. split_and!; [done..|destruct p; cbn; lia|]. destruct (rstep_moves m p (sh st')) as [[r' ->]|?]; [left; by subst|by right].
Qed.

(** The request the destination chain gets: the method, host and path are those
    of the request; [RequestURI], the peer's address, [Close] and the transfer
    encoding are gone; the mark is set; the hop-by-hop headers and [Expect] are gone
    and every other header is as it came; the body is the captured one, which, for a
    body without [GetBody] that was captured, is the whole body of the request, no
    larger than the cap. *)
Theorem mirror_request_faithful m r src b r' :
  0 <= MaxBodyBytes m < max_i64 -> Body r = Some (Stream src) -> GetBody r = None -> DisableBody m = false ->
  captureBody m r = (b, true, r') ->
  let c := clone m r' b in
  (forall k, Middleware.Header (base c) !! k =
     if negb (DisableMark m) && bool_decide (k = CanonicalHeaderKey (MarkHeader m)) then Some [MarkValue m]
     else if bool_decide (k = "Expect" \/ CanonicalHeaderKey k ∈ hopByHop) then None
     else Middleware.Header (base r) !! k) /\
  Middleware.Method (base c) = Middleware.Method (base r) /\ Middleware.Host (base c) = Middleware.Host (base r) /\
  Middleware.Path (base c) = Middleware.Path (base r) /\
  Middleware.RequestURI (base c) = "" /\ Middleware.RemoteAddr (base c) = "" /\ Close c = false /\ TransferEncoding c = [] /\
  fail src = None /\ Z.of_nat (String.length (data src)) <= MaxBodyBytes m /\
  ContentLength c = Z.of_nat (String.length (data src)) /\
  read_body <$> Body c = Some src /\ GetBody c = Some (Body c).
Proof.
  intros Hm HB HG HD HC. assert (r' = r) as -> by by eapply captureBody_primary.
  assert (src = reader_eof (default "" b) /\ Z.of_nat (String.length (default "" b)) <= MaxBodyBytes m) as [-> Hb].
  { revert HC. unfold captureBody, max_i64 in *. rewrite HB, HG, HD, i64_small by lia.
    destruct (CopyN _ src) as [[read err] rest] eqn:E. pose proof (read_whole src _ _ _ _ E) as Hw.
    assert (default "" (if String.eqb read "" then None else Some read) = read) as Hd.
    { destruct (String.eqb_spec read ""); cbn; congruence. }
    destruct err as [[e|]|]; [congruence| |]; (destruct (Z.ltb_spec (MaxBodyBytes m) (Z.of_nat (String.length read))); [congruence|]);
      intros; simplify_eq; rewrite Hd; (split; [apply Hw; (done || lia)|lia]). }
  cbn [data fail reader_eof]. split; [intros k; destruct b; apply sanitize_lookup|]. by destruct b.
Qed.

(** C27: What the mirror keeps, in every state a run can reach: the queue never holds
    more than [QueueSize] jobs and the pool keeps its [Workers] goroutines, whatever
    panics; the contexts not yet released are exactly those a queued job, a busy
    worker or a request goroutine between making one and sending it or being refused
    will release, each once, so none leaks; and with [n] the true number of times each
    outcome happened, the counters hold [n] at 64 bits, every job sent is queued,
    being served, or counted once as completed or panicked, and [Observe] was told
    each outcome once. *)
Theorem mirror_invariant m st :
  0 <= QueueSize m -> rtc (step m) (init m) st ->
  (Z.of_nat (length (jobs (sh st))) <= QueueSize m /\ length (pool st) = Z.to_nat (Workers m)) /\
  (NoDup (owners st) /\ dom (live (sh st)) = list_to_set (owners st)) /\
  exists n : Outcome -> nat,
    Stats (sh st) = (u64 (Z.of_nat (n OutcomeDispatched)), u64 (Z.of_nat (n OutcomeDroppedFull)),
      u64 (Z.of_nat (n OutcomeDroppedOversize)), u64 (Z.of_nat (n OutcomeCompleted)), u64 (Z.of_nat (n OutcomePanicked))) /\
    (n OutcomeDispatched + sum_list_with is_sent (requests st) =
     n OutcomeCompleted + n OutcomePanicked + length (jobs (sh st)) + sum_list_with is_serving (pool st))%nat /\
    (Observe m = true -> forall o, n o = told o st).
Proof.
  intros Hq Hr. destruct (mirror_reachable m st Hq Hr) as ((H1 & H2 & _) & H3 & n & [H4 H5 H6]). split_and!; [apply H3..|done|done|].
  exists n. split_and!; [|done..]. unfold Stats. by rewrite <- !H4.
Qed.

(** The pool drains. Once the requests have gone on to the next handler, the
    workers make at most [work] moves however they are scheduled, and when none can
    move the queue is empty, every worker waits, no context is live, and the jobs
    dispatched are those completed and those that panicked, counted at 64 bits. *)
Theorem mirror_drains m (w : world) st k st' :
  0 <= QueueSize m -> 0 < Workers m -> rtc (step m) (init m) st -> Forall at_next (requests st) ->
  nsteps (wmove m) k st st' ->
  (k <= work st)%nat /\
  ((forall st'', ~ wmove m st' st'') ->
   jobs (sh st') = [] /\ Forall (eq WIdle) (pool st') /\ live (sh st') = ∅ /\
   dispatched (sh st') = u64 (completed (sh st') + panicked (sh st'))).
Proof.
  intros Hq Hw Hr Hnext Hk. destruct (nsteps_work _ _ _ _ Hk) as [Hwork Hreq]. split; [lia|]. intros Hstuck.
  assert (rtc (step m) (init m) st') as Hr'.
  { etrans; [exact Hr|]. apply rtc_nsteps_2 in Hk. revert Hk. apply rtc_subrel. intros ??. apply step_worker. }
  destruct (mirror_reachable m st' Hq Hr') as ((H1 & H2 & _) & [_ H3] & n & [H4 H5 _]).
  destruct (wmove_enabled m w st') as [Hj Hi]; [lia|done|]. rewrite <- Hreq in Hnext. destruct (next_bind _ Hnext) as [N1 N2].
  split_and!; [done|done| |].
  - apply dom_empty_inv_L. rewrite H2. unfold owners. by rewrite Hj, N1, (idle_bind _ Hi).
  - rewrite Hj, N2, (idle_sum is_serving _ eq_refl Hi) in H5. cbn in H5.
    pose proof (H4 OutcomeDispatched) as D1. pose proof (H4 OutcomeCompleted) as D2. pose proof (H4 OutcomePanicked) as D3. cbn in D1, D2, D3.
    rewrite D1, D2, D3. unfold u64, wrap_u. rewrite <- Zplus_mod. f_equal. lia.
Qed.

End Facts.

(** ** Runs *)

(** One worker, one place in the queue; the destination answers 503 or panics. *)
Definition canary : @Handler bool -> @Handler bool := fun _ w _ => if w then WriteHeader 503 Done else WriteHeader 100 Panic.
Definition demo : @Mirror bool :=
  defaults (Use (mk [] None true "" "" (float64 0) 0 4 1 1 false false) (Some canary)).
Definition demo_base : Middleware.Request :=
  Middleware.mkRequest "POST" "a" "/x" "/x" "10.0.0.1:9" false {["Te" := ["trailers"]; "Cookie" := ["c"]]}.
Definition post (s : string) : Request := mkRequest demo_base true ["chunked"] (-1) (Some (Stream (reader_eof s))) None.

(** A schedule: an arrival, an action of a request goroutine, a move of a worker. *)
Inductive event := Arrive (r : Request) (draw : spec_float) | Req (i : nat) | Wrk (i : nat) (w : bool).

Fixpoint play (m : @Mirror bool) (es : list event) (st : state) : option state :=
  match es with
  | [] => Some st
  | Arrive r d :: es => play m es (mkState (sh st) (requests st ++ [RStart r d]) (pool st))
  | Req i :: es =>
      p ← requests st !! i; ps ← rstep m p (sh st);
      play m es (mkState ps.2 (<[i := ps.1]> (requests st)) (pool st))
  | Wrk i w :: es =>
      p ← pool st !! i; ps ← wstep m w p (sh st);
      play m es (mkState ps.2 (requests st) (<[i := ps.1]> (pool st)))
  end.

Lemma play_step m es st st' : play m es st = Some st' -> rtc (step m) st st'.
Proof.
  revert st. induction es as [|e es IH]; intros [s rs ps] H; cbn in *; simplify_eq; [done|].
  destruct e as [r d|i|i w].
  - eapply rtc_l; [apply step_arrive|by apply IH].
  - destruct (rs !! i) as [p|] eqn:Hi; cbn in H; [|done]. destruct (rstep m p s) as [[p' s']|] eqn:Hp; cbn in H; [|done].
    eapply rtc_l; [by eapply step_request|by apply IH].
  - destruct (ps !! i) as [p|] eqn:Hi; cbn in H; [|done]. destruct (wstep m w p s) as [[p' s']|] eqn:Hp; cbn in H; [|done].
    eapply rtc_l; [eapply step_worker; by econstructor|by apply IH].
Qed.

(** Three posts arrive: the first is queued and taken, the second queued, the third
    refused; a fourth is too large. *)
Definition four : list event :=
  [Arrive (post "ab") (float64 0); Arrive (post "") (float64 0); Arrive (post "cd") (float64 0); Arrive (post "efghi") (float64 0)]
  ++ replicate 5 (Req 0) ++ [Wrk 0 false] ++ replicate 5 (Req 1) ++ replicate 6 (Req 2) ++ replicate 3 (Req 3).
Definition served : list event := replicate 4 (Wrk 0 false) ++ replicate 5 (Wrk 0 true).
Definition st_four : state := default (init demo) (play demo four (init demo)).
Definition st_served : state := default (init demo) (play demo served st_four).

Lemma st_four_reached : rtc (step demo) (init demo) st_four.
Proof. apply (play_step _ four). vm_compute. reflexivity. Qed.

Example mirror_four :
  Stats (sh st_four) = (2, 1, 1, 0, 0) /\ length (jobs (sh st_four)) = 1%nat /\
  Stats (sh st_served) = (2, 1, 1, 1, 1) /\ live (sh st_served) = ∅ /\
  requests st_served = RNext <$> [post "ab"; post ""; post "cd"; post "efghi"].
Proof. vm_compute. done. Qed.

Lemma mirror_primary_unaffected_witness :
  exists p, requests st_four !! 3%nat = Some p /\ held p = post "efghi" /\ (rank p <= 6)%nat /\
    (p = RNext (post "efghi") \/ exists p' s', rstep demo p (sh st_four) = Some (p', s') /\ (rank p' < rank p)%nat).
Proof.
  apply (mirror_primary_unaffected demo (default (init demo) (play demo (take 4 four) (init demo))) st_four 3 (post "efghi") (float64 0)).
  - vm_compute. split; congruence.
  - apply (play_step _ (drop 4 four)). vm_compute. reflexivity.
  - vm_compute. reflexivity.
Defined.

Lemma mirror_request_faithful_witness :
  captureBody demo (post "ab") = (Some "ab", true, post "ab") /\
  ContentLength (clone demo (post "ab") (Some "ab")) = 2.
Proof.
  assert (captureBody demo (post "ab") = (Some "ab", true, post "ab")) as H by (vm_compute; reflexivity). split; [exact H|].
  refine (proj1 (proj2 (proj2 (proj2 (proj2 (proj2 (proj2 (proj2 (proj2 (proj2 (proj2
    (mirror_request_faithful demo (post "ab") (reader_eof "ab") (Some "ab") (post "ab") _ eq_refl eq_refl _ H)))))))))))).
  - vm_compute. split; congruence.
  - vm_compute. reflexivity.
Defined.

Lemma mirror_invariant_witness :
  (Z.of_nat (length (jobs (sh st_four))) <= QueueSize demo /\ length (pool st_four) = 1%nat) /\
  NoDup (owners st_four) /\ dom (live (sh st_four)) = list_to_set (owners st_four).
Proof.
  destruct (mirror_invariant demo st_four) as (H1 & H2 & _); [vm_compute; congruence|exact st_four_reached|].
  split; [exact H1|exact H2].
Defined.

Definition worker_event (e : event) : Prop := match e with Wrk _ _ => True | _ => False end.

Lemma play_moves m es st st' : Forall worker_event es -> play m es st = Some st' -> nsteps (wmove m) (length es) st st'.
Proof.
  intros He. revert st. induction He as [|e es He _ IH]; intros [s rs ps] H; cbn in *; simplify_eq; [constructor|].
  destruct e as [| |i w]; [done..|].
  destruct (ps !! i) as [p|] eqn:Hi; cbn in H; [|done]. destruct (wstep m w p s) as [[p' s']|] eqn:Hp; cbn in H; [|done].
  eapply nsteps_l; [by econstructor|by apply IH].
Qed.

Lemma mirror_drains_witness :
  (9 <= work st_four)%nat /\
  jobs (sh st_served) = [] /\ Forall (eq WIdle) (pool st_served) /\ live (sh st_served) = ∅ /\
  dispatched (sh st_served) = u64 (completed (sh st_served) + panicked (sh st_served)).
Proof.
  destruct (mirror_drains demo true st_four 9 st_served) as [H1 H2].
  - vm_compute. congruence.
  - vm_compute. reflexivity.
  - exact st_four_reached.
  - vm_compute. repeat constructor; eexists; reflexivity.
  - apply (play_moves _ served); [repeat constructor|vm_compute; reflexivity].
  - split; [exact H1|]. apply H2. intros st Hs. apply wmove_work in Hs as [Hs _]. revert Hs. vm_compute. lia.
Defined.

(** With [MaxBodyBytes] the largest [int64] the limit wraps to a negative number, nothing
    is copied, and the primary's body is replaced by an empty one. *)
Example mirror_max_body_bytes :
  let m := mk [] None false "" "" (float64 0) 0 max_i64 0 0 false false in
  captureBody (defaults m : @Mirror bool) (post "ab") = (None, true, with_body (Some (Stream (reader_eof ""))) (post "ab")).
Proof. vm_compute. reflexivity. Qed.

(** A destination that writes a body without a status is a 200 to its client and a 0 to
    [Observe]; an informational status is reported as the response's. *)
Example mirror_status_zero :
  (discard (Write "ok" Done) (mkDW ∅ 0)).1.(status) = 0 /\
  (fst <$> sent (respond (Write "ok" Done))) = Some 200.
Proof. vm_compute. done. Qed.

End MirrorFacts.
