(* ===== verification/Jwks.v ===== *)
(** * The remote key set

    [src/pkg/authn/jwks.go].  Verifications share one cached key set and at most one
    fetch of it; a fetch runs on a goroutine of its own, and the callers that need its
    result wait for it or for their own context.

    A goroutine is a phase, the point the code has reached; its next action is one
    critical section, one wait, or the HTTP exchange.  The key-set type of go-jose, its
    JSON decoding and its lookup by kid, the parsing of the URL, and the replies of the
    server are parameters. *)

From S2P Require Import Prelude GoStrings GoIO.

Module Jwks.
Section Jwks.
Context {K : Type} (Key : K -> string -> nat) (len_Keys : K -> nat) (Decode : reader -> K + string) (url_ok : string -> bool).

Record JWKS := mk { URL : string; RefreshInterval : Z; MinRefreshInterval : Z; MaxResponseBytes : Z }.

Definition defaultJWKSRefreshInterval : Z := 15 * Minute.
Definition defaultJWKSMinRefreshInterval : Z := Minute.
Definition defaultJWKSMaxResponseBytes : Z := 2 ^ 20.

Definition refreshInterval (j : JWKS) : Z := if 0 <? RefreshInterval j then RefreshInterval j else defaultJWKSRefreshInterval.
Definition minRefreshInterval (j : JWKS) : Z := if 0 <? MinRefreshInterval j then MinRefreshInterval j else defaultJWKSMinRefreshInterval.
Definition maxResponseBytes (j : JWKS) : Z := if 0 <? MaxResponseBytes j then MaxResponseBytes j else defaultJWKSMaxResponseBytes.

Definition containsKID (s : K) (kid : string) : bool := (0 <? Key s kid)%nat.

(** What [client().Do] comes back with. *)
Inductive reply := DoError (e : string) | Reply (StatusCode : Z) (body : reader).

Definition fetch (j : JWKS) (resp : reply) : K + string :=
  if negb (url_ok (URL j)) then inr "invalid URL"
  else match resp with
       | DoError e => inr e
       | Reply code body =>
           if negb (code =? 200) then inr "authn: jwks fetch: unexpected status"
           else let '(b, err, _) := ReadAllLimit (maxResponseBytes j) body in
                match Decode (mkReader b err) with
                | inr e => inr ("authn: jwks decode: " +:+ e)
                | inl s => if (len_Keys s =? 0)%nat then inr "authn: jwks: empty key set" else inl s
                end
       end.

(** The fetch goroutine of [startFetch]; its [fetchCall] has the same index. *)
Inductive fphase := FFetch | FStore (res : K + string) | FClose (res : K + string) | FDone.

Inductive keyError := ErrContext | ErrNoKeys (cause : string).

(** A call of [VerificationKey]; the phases after the first hold the set it saw. *)
Inductive vphase :=
  | VStart (kid : string)
  | VStale (set : K)
  | VBlock (set : option K)
  | VWait (set : option K) (c : nat)
  | VDone (res : K + keyError).

(** [calls !! c] is [Some None] while [done] of the fetch [c] is open. *)
Record state := mkState {
  now : Z;
  set : option K;
  fetchedAt : Z;
  inflight : option nat;
  calls : list (option (K + string));
  fetchers : list fphase;
  callers : list vphase;
}.

Definition start : state := mkState 0 None zero_time None [] [] [].

Definition with_callers (vs : list vphase) (st : state) : state :=
  mkState (now st) (set st) (fetchedAt st) (inflight st) (calls st) (fetchers st) vs.

Definition startFetch (st : state) : nat * state :=
  match inflight st with
  | Some c => (c, st)
  | None =>
      let c := length (fetchers st) in
      (c, mkState (now st) (set st) (fetchedAt st) (Some c) (calls st ++ [None]) (fetchers st ++ [FFetch]) (callers st))
  end.

(** The first critical section of [VerificationKey] and its switch. *)
Definition lookup_set (j : JWKS) (kid : string) (st : state) : vphase :=
  match set st with
  | None => VBlock None
  | Some s =>
      let age := time_sub (now st) (fetchedAt st) in
      let fresh := age <? refreshInterval j in
      let known := String.eqb kid "" || containsKID s kid in
      if fresh && known then VDone (inl s)
      else if known && negb fresh then VStale s
      else if negb known && (age <? minRefreshInterval j) then VDone (inl s)
      else VBlock (Some s)
  end.

Definition on_done (set : option K) (res : K + string) : K + keyError :=
  match res with
  | inl s => inl s
  | inr e => match set with Some s => inl s | None => inr (ErrNoKeys e) end
  end.
Definition on_cancel (set : option K) : K + keyError :=
  match set with Some s => inl s | None => inr ErrContext end.

(** The next action of a call; a wait that is not over is [None]. *)
Definition vstep (j : JWKS) (p : vphase) (st : state) : option (vphase * state) :=
  match p with
  | VStart kid => Some (lookup_set j kid st, st)
  | VStale s => Some (VDone (inl s), (startFetch st).2)
  | VBlock set => Some (VWait set (startFetch st).1, (startFetch st).2)
  | VWait set c => match calls st !! c with Some (Some res) => Some (VDone (on_done set res), st) | _ => None end
  | VDone _ => None
  end.

(** The next action of the fetch [c]. *)
Definition fstep (j : JWKS) (resp : reply) (c : nat) (p : fphase) (st : state) : option state :=
  let upd p' st := mkState (now st) (set st) (fetchedAt st) (inflight st) (calls st) (<[c := p']> (fetchers st)) (callers st) in
  match p with
  | FFetch => Some (upd (FStore (fetch j resp)) st)
  | FStore res =>
      let st := match res with
                | inl s => mkState (now st) (Some s) (now st) (inflight st) (calls st) (fetchers st) (callers st)
                | inr _ => st
                end in
      Some (upd (FClose res) (mkState (now st) (set st) (fetchedAt st) None (calls st) (fetchers st) (callers st)))
  | FClose res =>
      Some (upd FDone (mkState (now st) (set st) (fetchedAt st) (inflight st) (<[c := Some res]> (calls st)) (fetchers st) (callers st)))
  | FDone => None
  end.

(** What the goroutines do of their own accord. *)
Inductive move (j : JWKS) : state -> state -> Prop :=
  | move_call i p p' st st' :
      callers st !! i = Some p -> vstep j p st = Some (p', st') ->
      move j st (with_callers (<[i := p']> (callers st)) st')
  | move_fetch c p resp st st' :
      fetchers st !! c = Some p -> fstep j resp c p st = Some st' -> move j st st'.

(** And what happens to them: a call comes in, a caller's context ends, time passes. *)
Inductive step (j : JWKS) : state -> state -> Prop :=
  | step_move st st' : move j st st' -> step j st st'
  | step_arrive kid st : step j st (with_callers (callers st ++ [VStart kid]) st)
  | step_cancel i set c st :
      callers st !! i = Some (VWait set c) ->
      step j st (with_callers (<[i := VDone (on_cancel set)]> (callers st)) st)
  | step_tick t st : now st <= t ->
      step j st (mkState t (set st) (fetchedAt st) (inflight st) (calls st) (fetchers st) (callers st)).

End Jwks.
End Jwks.
