(* ===== verification/JwksFacts.v ===== *)
(** * The key set is fetched once at a time and never lost

    The theorems on [Jwks]. *)

From S2P Require Import Prelude GoStrings GoIO Jwks.

Module JwksFacts.
Import Jwks.
Section Facts.
Context {K : Type} (Key : K -> string -> nat) (len_Keys : K -> nat) (Decode : reader -> K + string) (url_ok : string -> bool).
Context (j : JWKS).

Local Abbreviation fetch := (fetch len_Keys Decode url_ok j).
Local Abbreviation move := (move Key len_Keys Decode url_ok j).
Local Abbreviation step := (step Key len_Keys Decode url_ok j).
Local Abbreviation vstep := (vstep Key j).
Local Abbreviation fstep := (fstep len_Keys Decode url_ok j).
Implicit Types st : @state K.

(** A key set some reply of the server decoded to. *)
Definition fetched (s : K) : Prop := exists resp, fetch resp = inl s.

Definition good_opt (o : option K) : Prop := match o with Some s => fetched s | None => True end.
Definition good_res {E} (r : K + E) : Prop := match r with inl s => fetched s | inr _ => True end.
Definition good_f (p : fphase) : Prop := match p with FStore r | FClose r => good_res r | _ => True end.
Definition good_v (p : vphase) : Prop :=
  match p with
  | VStart _ => True
  | VStale s => fetched s
  | VBlock o | VWait o _ => good_opt o
  | VDone r => good_res r
  end.
Definition good_call (c : option (K + string)) : Prop := match c with Some r => good_res r | None => True end.

Definition active (p : @fphase K) : bool := match p with FFetch | FStore _ => true | _ => false end.
Definition finished (p : @fphase K) : bool := match p with FDone => true | _ => false end.

Record inv st : Prop := {
  inv_len : length (calls st) = length (fetchers st);
  inv_active c p : fetchers st !! c = Some p -> active p = bool_decide (inflight st = Some c);
  inv_inflight c : inflight st = Some c -> (c < length (fetchers st))%nat;
  inv_done c p r : fetchers st !! c = Some p -> calls st !! c = Some r -> finished p = bool_decide (is_Some r);
  inv_wait i o c : callers st !! i = Some (VWait o c) -> (c < length (fetchers st))%nat;
  inv_set : good_opt (set st);
  inv_fs : Forall good_f (fetchers st);
  inv_vs : Forall good_v (callers st);
  inv_calls : Forall good_call (calls st);
}.

Ltac proj := cbn [fst snd now set fetchedAt inflight calls fetchers callers length] in *.

Lemma startFetch_spec st :
  inv st ->
  inv (startFetch st).2 /\ callers (startFetch st).2 = callers st /\ set (startFetch st).2 = set st /\
  ((startFetch st).1 < length (fetchers (startFetch st).2))%nat /\
  (length (fetchers st) <= length (fetchers (startFetch st).2))%nat.
Proof.
  intros [I1 I2 I3 I4 I5 I6 I7 I8 I9]. unfold startFetch. destruct (inflight st) as [c|] eqn:E; proj.
  - split_and!; [|done|done|by apply I3|done]. by split; rewrite ?E.
  - rewrite length_app. proj. split_and!; [|done|done|lia|lia]. split; proj.
    + rewrite !length_app. cbn. lia.
    + intros c p Hc. apply lookup_app_Some in Hc as [Hc|[Hl Hc]].
      * rewrite (I2 c p Hc). apply lookup_lt_Some in Hc. rewrite !bool_decide_false; [done|intros [=]; lia|done].
      * apply list_lookup_singleton_Some in Hc as [? <-]. cbn [active]. rewrite bool_decide_true; [done|]. f_equal. lia.
    + intros c [= <-]. rewrite length_app. proj. lia.
    + intros c p r Hp Hr. apply lookup_app_Some in Hp as [Hp|[Hl Hp]].
      * rewrite lookup_app_l in Hr by (apply lookup_lt_Some in Hp; lia). by eapply I4.
      * apply list_lookup_singleton_Some in Hp as [? <-]. rewrite lookup_app_r in Hr by lia.
        apply list_lookup_singleton_Some in Hr as [? <-]. cbn [finished]. rewrite bool_decide_false; [done|]. by intros [??].
    + intros i o c Hi. apply I5 in Hi. rewrite length_app. cbn. lia.
    + done.
    + apply Forall_app. split; [done|]. by repeat constructor.
    + done.
    + apply Forall_app. split; [done|]. by repeat constructor.
Qed.

Lemma inv_callers st vs :
  inv st -> Forall good_v vs -> (forall i o c, vs !! i = Some (VWait o c) -> (c < length (fetchers st))%nat) -> inv (with_callers vs st).
Proof. intros [I1 I2 I3 I4 I5 I6 I7 I8 I9] H1 H2. by split. Qed.

Lemma inv_caller st i p' :
  inv st -> good_v p' -> (forall o c, p' = VWait o c -> (c < length (fetchers st))%nat) ->
  inv (with_callers (<[i := p']> (callers st)) st).
Proof.
  intros Hi Hp Hc. apply inv_callers; [done|by apply Forall_insert; [apply inv_vs|]|].
  intros k o c Hk. apply list_lookup_insert_Some in Hk as [(-> & -> & _)|[_ Hk]]; [by eapply Hc|by eapply inv_wait].
Qed.

Lemma lookup_set_good kid st : good_opt (set st) -> good_v (lookup_set Key j kid st).
Proof. unfold lookup_set. destruct (set st) as [s|] eqn:E; [|done]. intros Hs. repeat case_match; done. Qed.

Lemma lookup_set_wait kid st o c : lookup_set Key j kid st <> VWait o c.
Proof. unfold lookup_set. repeat case_match; done. Qed.

Lemma inv_vstep i p p' st st' :
  inv st -> callers st !! i = Some p -> vstep p st = Some (p', st') -> inv (with_callers (<[i := p']> (callers st)) st').
Proof.
  intros Hinv Hi Hs. pose proof (startFetch_spec st Hinv) as (S1 & S2 & S3 & S4 & S5).
  pose proof (proj1 (Forall_lookup _ _) (inv_vs st Hinv) i p Hi) as Hg.
  destruct p as [kid|s|o|o c|r]; cbn in Hs; simplify_eq.
  - apply inv_caller; [done|apply lookup_set_good; by apply inv_set|]. intros o c Hc. by apply lookup_set_wait in Hc.
  - rewrite <- S2. by apply inv_caller.
  - rewrite <- S2. apply inv_caller; [done|done|]. intros o' c [= <- <-]. done.
  - destruct (calls st !! c) as [[r|]|] eqn:Hc; simplify_eq. apply inv_caller; [done| |done].
    pose proof (proj1 (Forall_lookup _ _) (inv_calls st' Hinv) c _ Hc) as Hr. destruct r as [s|e]; [done|]. by destruct o.
Qed.

Lemma inv_fstep resp c p st st' :
  inv st -> fetchers st !! c = Some p -> fstep resp c p st = Some st' -> inv st'.
Proof.
  intros Hinv Hc Hs. pose proof (proj1 (Forall_lookup _ _) (inv_fs st Hinv) c p Hc) as Hg. destruct Hinv as [I1 I2 I3 I4 I5 I6 I7 I8 I9].
  pose proof (lookup_lt_Some _ _ _ Hc) as Hlt.
  assert (forall l p', fetchers st !! c = Some p -> <[c := p']> (fetchers st) !! l = (if decide (l = c) then Some p' else fetchers st !! l)) as Hins.
  { intros l p' _. destruct (decide (l = c)) as [->|Hne]; [by rewrite list_lookup_insert_eq|by rewrite list_lookup_insert_ne]. }
  destruct p as [|r|r|]; cbn in Hs; simplify_eq.
  - split; proj; rewrite ?length_insert; try done.
    + intros l q. rewrite Hins by done. case_decide as Hl; [intros [= <-]; subst; by apply (I2 _ _ Hc)|apply I2].
    + intros l q x. rewrite Hins by done. case_decide as Hl; [intros [= <-] Hx; subst; by apply (I4 _ _ _ Hc)|apply I4].
    + apply Forall_insert; [done|]. cbn. destruct (fetch resp) eqn:E; [by exists resp|done].
  - assert (inflight st = Some c) as Hfl by by apply (bool_decide_eq_true_1 _), eq_sym, (I2 _ _ Hc).
    assert (good_opt (set (match r with inl s => mkState (now st) (Some s) (now st) (inflight st) (calls st) (fetchers st) (callers st) | inr _ => st end)))
      as Hset by by destruct r.
    split; try (destruct r; cbn; rewrite ?length_insert; done).
    + intros l q Hl. assert (<[c := FClose r]> (fetchers st) !! l = Some q) as Hl' by by destruct r.
      assert (active q = false) as ->; [|destruct r; by rewrite bool_decide_false].
      rewrite Hins in Hl' by done. case_decide; simplify_eq; [done|]. rewrite (I2 _ _ Hl'), bool_decide_false; [done|congruence].
    + intros l q x Hl Hx. assert (<[c := FClose r]> (fetchers st) !! l = Some q) as Hl' by by destruct r.
      assert (calls st !! l = Some x) as Hx' by by destruct r.
      rewrite Hins in Hl' by done. case_decide; simplify_eq; [by apply (I4 _ _ _ Hc)|by apply I4 with l].
    + assert (Forall good_f (<[c := FClose r]> (fetchers st))) by (by apply Forall_insert). by destruct r.
  - split; proj; rewrite ?length_insert; try done.
    + intros l q. rewrite Hins by done. case_decide as Hl; [intros [= <-]; subst; by apply (I2 _ _ Hc)|apply I2].
    + intros l q x. rewrite Hins by done. case_decide as Hl.
      * intros [= <-]. subst. rewrite list_lookup_insert_eq by lia. intros [= <-]. by rewrite bool_decide_true.
      * rewrite list_lookup_insert_ne by done. apply I4.
    + by apply Forall_insert.
    + by apply Forall_insert.
Qed.

Lemma jwks_inv_step st st' : step st st' -> inv st -> inv st'.
Proof.
  intros Hs Hinv. destruct Hs as [st st' [i p p' st0 st1 Hi Hs|c p resp st0 st1 Hc Hs]|kid st|i o c st Hi|t st Ht].
  - by eapply inv_vstep.
  - by eapply inv_fstep.
  - apply inv_callers; [done|apply Forall_app; split; [by apply inv_vs|by repeat constructor]|].
    intros i o c Hi. apply lookup_app_Some in Hi as [Hi|[_ Hi]]; [by eapply inv_wait|]. by apply list_lookup_singleton_Some in Hi as [? ?].
  - apply inv_caller; [done| |done]. pose proof (proj1 (Forall_lookup _ _) (inv_vs st Hinv) i _ Hi) as Hg. by destruct o.
  - destruct Hinv. by split.
Qed.

Lemma jwks_reachable st : rtc step start st -> inv st.
Proof.
  intros Hr. remember start as st0 eqn:E. assert (inv st0) as H0.
  { subst st0. split; cbn; try done; try constructor; intros; by rewrite ?lookup_nil in *. }
  clear E. induction Hr as [|st0 st1 st2 Hs _ IH]; [done|]. by eauto using jwks_inv_step.
Qed.

(** ** Keys once fetched stay *)

(** A call that saw a key set, or will see one. *)
Definition keyed st (p : @vphase K) : Prop :=
  match p with
  | VStart _ => is_Some (set st)
  | VStale _ => True
  | VBlock o | VWait o _ => is_Some o
  | VDone r => exists s, r = inl s
  end.

Lemma step_set st st' : step st st' -> is_Some (set st) -> is_Some (set st').
Proof.
  intros Hs Hset. destruct Hs as [st st' [i p p' st0 st1 Hi Hs|c p resp st0 st1 Hc Hs]|kid st|i o c st Hi|t st Ht]; try done.
  - cbn. destruct p as [kid|s|o|o c|r]; cbn in Hs; simplify_eq; try done; [| |by repeat case_match; simplify_eq];
      unfold startFetch; destruct (inflight st0); done.
  - destruct p as [|r|r|]; cbn in Hs; simplify_eq; try done. by destruct r.
Qed.

Lemma lookup_set_keyed kid st : is_Some (set st) -> keyed st (lookup_set Key j kid st).
Proof. unfold lookup_set. intros [s ->]. repeat case_match; cbn; eauto. Qed.

Lemma keyed_mono st st' p : (is_Some (set st) -> is_Some (set st')) -> keyed st p -> keyed st' p.
Proof. intros H. destruct p; cbn; auto. Qed.

Lemma keyed_vstep p p' st st' : keyed st p -> vstep p st = Some (p', st') -> keyed st p'.
Proof.
  intros Hk Hs. destruct p as [kid|s|o|o c|r]; cbn in Hs; simplify_eq; cbn; eauto using lookup_set_keyed.
  destruct (calls st !! c) as [[r|]|]; simplify_eq. destruct Hk as [s ->]. destruct r; cbn; eauto.
Qed.

Lemma keyed_step i st st' :
  step st st' -> (exists p, callers st !! i = Some p /\ keyed st p) -> exists p, callers st' !! i = Some p /\ keyed st' p.
Proof.
  intros Hstep (p & Hp & Hk).
  assert (exists q, callers st' !! i = Some q /\ keyed st q) as (q & Hq & Hkq);
    [|exists q; split; [done|]; eapply keyed_mono; [by eapply step_set|done]].
  destruct Hstep as [st st' [k q q' st0 st1 Hi Hs|c q resp st0 st1 Hc Hs]|kid st|k o c st Hi|t st Ht]; cbn in *; try by eauto.
  - destruct (decide (i = k)) as [->|Hne].
    + simplify_eq. exists q'. rewrite list_lookup_insert_eq by eauto using lookup_lt_Some. split; [done|]. by eapply keyed_vstep.
    + rewrite list_lookup_insert_ne by done. eauto.
  - assert (callers st1 = callers st0) as ->; [|eauto]. destruct q as [|r|r|]; cbn in Hs; simplify_eq; try done. by destruct r.
  - exists p. split; [by apply lookup_app_l_Some|done].
  - destruct (decide (i = k)) as [->|Hne].
    + simplify_eq. exists (VDone (on_cancel o)). rewrite list_lookup_insert_eq by eauto using lookup_lt_Some. split; [done|].
      destruct Hk as [s ->]. cbn. eauto.
    + rewrite list_lookup_insert_ne by done. eauto.
Qed.

Lemma keyed_steps i st st' :
  rtc step st st' -> (exists p, callers st !! i = Some p /\ keyed st p) -> exists p, callers st' !! i = Some p /\ keyed st' p.
Proof. induction 1 as [|st0 st1 st2 Hs _ IH]; [done|]. intros Hk. apply IH. by eapply keyed_step. Qed.

(** ** Nobody waits for ever *)

Definition vrank (p : @vphase K) : nat :=
  match p with VStart _ => 6 | VStale _ | VBlock _ => 5 | VWait _ _ => 1 | VDone _ => 0 end.
Definition frank (p : @fphase K) : nat := match p with FFetch => 3 | FStore _ => 2 | FClose _ => 1 | FDone => 0 end.
Definition work st : nat := (sum_list_with vrank (callers st) + sum_list_with frank (fetchers st))%nat.

Lemma startFetch_work st :
  (sum_list_with frank (fetchers (startFetch st).2) <= sum_list_with frank (fetchers st) + 3)%nat.
Proof. unfold startFetch. destruct (inflight st); cbn; [lia|]. rewrite sum_list_with_app. cbn. lia. Qed.

Lemma lookup_set_rank kid st : (vrank (lookup_set Key j kid st) < 6)%nat.
Proof. unfold lookup_set. repeat case_match; cbn; lia. Qed.

Lemma move_work st st' : move st st' -> (work st' < work st)%nat.
Proof.
  intros [i p p' st0 st1 Hi Hs|c p resp st0 st1 Hc Hs]; unfold work.
  - cbn [callers fetchers with_callers]. pose proof (sum_list_with_insert vrank _ i p p' Hi) as E. pose proof (startFetch_work st0).
    destruct p as [kid|s|o|o c|r]; cbn [vstep Jwks.vstep] in Hs; simplify_eq; cbn [vrank] in *; try lia.
    + pose proof (lookup_set_rank kid st1). lia.
    + repeat case_match; simplify_eq. cbn [vrank] in *. lia.
  - destruct p as [|r|r|]; cbn in Hs; simplify_eq; cbn [callers fetchers];
      (pose proof (fun q => sum_list_with_insert frank _ c _ q Hc) as E; cbn [frank] in E).
    + specialize (E (FStore (fetch resp))). cbn [frank] in E. lia.
    + specialize (E (FClose r)). cbn [frank] in E. destruct r; cbn [callers fetchers]; lia.
    + specialize (E FDone). cbn [frank] in E. lia.
Qed.

Lemma nsteps_move_work k st st' : nsteps move k st st' -> (k + work st' <= work st)%nat.
Proof. induction 1 as [|k st0 st1 st2 Hs _ IH]; [lia|]. apply move_work in Hs. lia. Qed.

Lemma stuck_done (resp : reply) st : inv st -> (forall st', ~ move st st') ->
  Forall (fun p => exists r, p = VDone r) (callers st) /\ inflight st = None.
Proof.
  intros Hinv Hst. assert (forall c p, fetchers st !! c = Some p -> p = FDone) as Hf.
  { intros c p Hc. destruct p as [|r|r|]; [..|done]; exfalso; eapply Hst, (move_fetch _ _ _ _ _ c _ resp); done. }
  split.
  - apply Forall_lookup. intros i p Hi. destruct p as [kid|s|o|o c|r]; [..|by eauto]; exfalso;
      try (eapply Hst, move_call; done).
    pose proof (inv_wait st Hinv i o c Hi) as Hc. destruct (lookup_lt_is_Some_2 _ _ Hc) as [p Hp].
    assert (c < length (calls st))%nat as Hc' by (rewrite (inv_len st Hinv); done). destruct (lookup_lt_is_Some_2 _ _ Hc') as [x Hx].
    pose proof (inv_done st Hinv c p x Hp Hx) as Hd. rewrite (Hf c p Hp) in Hd. symmetry in Hd. apply bool_decide_eq_true_1 in Hd as [r ->].
    eapply Hst, move_call; [done|]. cbn. by rewrite Hx.
  - destruct (inflight st) as [c|] eqn:E; [|done]. pose proof (inv_inflight st Hinv c E) as Hc. destruct (lookup_lt_is_Some_2 _ _ Hc) as [p Hp].
    pose proof (inv_active st Hinv c p Hp) as Ha. rewrite (Hf c p Hp), bool_decide_true in Ha; done.
Qed.

(** ** The theorems *)

(** C23: In every state the goroutines can reach, at most one fetch is between its
    start and the moment its result is stored, namely the one [inflight] names; a call
    that waits waits for a fetch that exists, and that fetch has published its result
    exactly when it is done; and every key set that is cached or returned by a call
    was decoded, with at least one key, from a reply of the server. *)
Theorem jwks_single_flight st :
  rtc step start st ->
  (forall c p, fetchers st !! c = Some p -> active p = bool_decide (inflight st = Some c)) /\
  (forall i o c, callers st !! i = Some (VWait o c) -> exists p x, fetchers st !! c = Some p /\ calls st !! c = Some x /\
     finished p = bool_decide (is_Some x)) /\
  (forall s, set st = Some s \/ (exists i, callers st !! i = Some (VDone (inl s))) -> fetched s /\ (0 < len_Keys s)%nat).
Proof.
  intros Hr. pose proof (jwks_reachable st Hr) as Hinv. split_and!; [by apply inv_active|..].
  - intros i o c Hi. pose proof (inv_wait st Hinv i o c Hi) as Hc. destruct (lookup_lt_is_Some_2 _ _ Hc) as [p Hp].
    assert (c < length (calls st))%nat as Hc' by (rewrite (inv_len st Hinv); done). destruct (lookup_lt_is_Some_2 _ _ Hc') as [x Hx].
    exists p, x. split_and!; [done..|]. by eapply inv_done.
  - intros s Hs. assert (fetched s) as Hf.
    { destruct Hs as [Hs|[i Hi]]; [pose proof (inv_set st Hinv) as H; by rewrite Hs in H|].
      exact (proj1 (Forall_lookup _ _) (inv_vs st Hinv) i _ Hi). }
    split; [done|]. destruct Hf as [resp Hf]. unfold Jwks.fetch in Hf. repeat case_match; simplify_eq.
    match goal with H : (_ =? _)%nat = false |- _ => apply Nat.eqb_neq in H end. lia.
Qed.

(** C22: Fail-static. Once any key set has been fetched, every later call of
    [VerificationKey] that returns, returns a key set and no error: whatever the
    fetches it starts or joins come back with, and whether or not its own context
    ends. *)
Theorem jwks_fail_static st st' i kid r :
  rtc step start st -> is_Some (set st) -> callers st !! i = Some (VStart kid) ->
  rtc step st st' -> callers st' !! i = Some (VDone r) ->
  exists s, r = inl s /\ fetched s.
Proof.
  intros Hr Hset Hi Hr' Hi'. destruct (keyed_steps i st st' Hr') as (p & Hp & Hk); [exists (VStart kid); done|].
  simplify_eq. destruct Hk as [s ->]. exists s. split; [done|].
  assert (inv st') as Hinv by (apply jwks_reachable; by etrans).
  exact (proj1 (Forall_lookup _ _) (inv_vs st' Hinv) i _ Hi').
Qed.

(** No call waits for ever: from any reachable state the goroutines can make only
    [work] more moves, however they are scheduled and whatever the server answers, and
    when none can move every call has returned and no fetch is in flight. *)
Theorem jwks_calls_return (resp : reply) st k st' :
  rtc step start st -> nsteps move k st st' ->
  (k <= work st)%nat /\
  ((forall st'', ~ move st' st'') -> Forall (fun p => exists r, p = VDone r) (callers st') /\ inflight st' = None).
Proof.
  intros Hr Hk. split; [apply nsteps_move_work in Hk; lia|]. intros Hst. apply (stuck_done resp); [|done].
  apply jwks_reachable. etrans; [exact Hr|]. apply rtc_nsteps_2 in Hk. revert Hk. apply rtc_subrel. intros ??. apply step_move.
Qed.

End Facts.

(** ** Runs *)

(** Key sets are lists of kids; a body decodes to the set of its one kid. *)
Definition kids := list string.
Definition d_Key (s : kids) (kid : string) : nat := length (filter (eq kid) s).
Definition d_Decode (r : reader) : kids + string :=
  match fail r with Some e => inr e | None => inl (if String.eqb (data r) "" then [] else [data r]) end.
Definition d_url (u : string) : bool := true.
Definition demo : JWKS := mk "https://idp/keys" 0 0 0.

Local Abbreviation dstep := (step d_Key length d_Decode d_url demo).
Local Abbreviation dmove := (move d_Key length d_Decode d_url demo).

Inductive event := Arrive (kid : string) | Call (i : nat) | Fetch (c : nat) (resp : reply) | Cancel (i : nat) | Tick (t : Z).

Definition play1 (e : event) (st : @state kids) : option state :=
  match e with
  | Arrive kid => Some (with_callers (callers st ++ [VStart kid]) st)
  | Call i => p ← callers st !! i; q ← vstep d_Key demo p st; Some (with_callers (<[i := q.1]> (callers st)) q.2)
  | Fetch c resp => p ← fetchers st !! c; fstep length d_Decode d_url demo resp c p st
  | Cancel i => p ← callers st !! i;
      match p with VWait o _ => Some (with_callers (<[i := VDone (on_cancel o)]> (callers st)) st) | _ => None end
  | Tick t => if now st <=? t then Some (mkState t (set st) (fetchedAt st) (inflight st) (calls st) (fetchers st) (callers st)) else None
  end.
Fixpoint play (es : list event) (st : state) : option state :=
  match es with [] => Some st | e :: es => st ← play1 e st; play es st end.

Definition goroutine (e : event) : Prop := match e with Call _ | Fetch _ _ => True | _ => False end.

Lemma play1_move e st st' : goroutine e -> play1 e st = Some st' -> dmove st st'.
Proof.
  intros He H. destruct e as [kid|i|c resp|i|t]; try done; cbn in H.
  - destruct (callers st !! i) as [p|] eqn:Hi; cbn in H; [|done].
    destruct (vstep d_Key demo p st) as [[q st1]|] eqn:Hq; cbn in H; simplify_eq. by eapply move_call.
  - destruct (fetchers st !! c) as [p|] eqn:Hc; cbn in H; [|done]. by eapply move_fetch.
Qed.

Lemma play1_step e st st' : play1 e st = Some st' -> dstep st st'.
Proof.
  intros H. destruct e as [kid|i|c resp|i|t]; try (apply step_move; by refine (play1_move _ _ _ _ H)); cbn in H.
  - simplify_eq. apply step_arrive.
  - destruct (callers st !! i) as [p|] eqn:Hi; cbn in H; [|done]. destruct p; simplify_eq. by eapply step_cancel.
  - destruct (Z.leb_spec (now st) t); simplify_eq. by apply step_tick.
Qed.

Lemma play_steps es st st' : play es st = Some st' -> rtc dstep st st'.
Proof.
  revert st. induction es as [|e es IH]; intros st H; cbn in H; simplify_eq; [done|].
  destruct (play1 e st) as [st1|] eqn:E; cbn in H; [|done]. eapply rtc_l; [by eapply play1_step|by apply IH].
Qed.

Lemma play_goroutines es st st' : Forall goroutine es -> play es st = Some st' -> nsteps dmove (length es) st st'.
Proof.
  intros He. revert st. induction He as [|e es He _ IH]; intros st H; cbn in H; simplify_eq; [constructor|].
  destruct (play1 e st) as [st1|] eqn:E; cbn in H; [|done]. eapply nsteps_l; [by eapply play1_move|by apply IH].
Qed.

(** Two calls share the first fetch; a third, past the refresh interval, is served the
    stale set while a second fetch fails; a fourth gives up on an unknown kid. *)
Definition ok (s : string) : reply := Reply 200 (reader_eof s).
Definition first : list event :=
  [Arrive "a"; Arrive "a"; Call 0; Call 1; Call 0; Call 1; Fetch 0 (ok "a"); Fetch 0 (ok ""); Fetch 0 (ok ""); Call 0; Call 1].
Definition later : list event :=
  [Tick Hour; Arrive "a"; Arrive "b"; Call 2; Call 2; Call 3; Call 3].
Definition last : list event := [Fetch 1 (Reply 500 (reader_eof "")); Fetch 1 (ok ""); Fetch 1 (ok ""); Call 3].

Definition st_first : state := default start (play first start).
Definition st_later : state := default start (play later st_first).
Definition st_last : state := default start (play last st_later).

Example jwks_run :
  callers st_last = [VDone (inl ["a"]); VDone (inl ["a"]); VDone (inl ["a"]); VDone (inl ["a"])] /\
  fetchers st_last = [FDone; FDone] /\ set st_last = Some ["a"] /\ fetchedAt st_last = 0 /\ inflight st_later = Some 1%nat.
Proof. vm_compute. done. Qed.

Lemma st_first_reached : rtc dstep start st_first.
Proof. apply (play_steps first). vm_compute. reflexivity. Qed.
Lemma st_later_reached : rtc dstep start st_later.
Proof. etrans; [exact st_first_reached|]. apply (play_steps later). vm_compute. reflexivity. Qed.

Lemma jwks_single_flight_witness :
  (forall c p, fetchers st_later !! c = Some p -> active p = bool_decide (inflight st_later = Some c)) /\
  (exists resp, fetch length d_Decode d_url demo resp = inl ["a"]) /\ (0 < length ["a"])%nat.
Proof.
  destruct (jwks_single_flight d_Key length d_Decode d_url demo st_later st_later_reached) as (H1 & _ & H3).
  split; [exact H1|]. apply H3. left. vm_compute. reflexivity.
Defined.

Lemma jwks_fail_static_witness : exists s, (inl ["a"] : kids + keyError) = inl s /\ fetched length d_Decode d_url demo s.
Proof.
  apply (jwks_fail_static d_Key length d_Decode d_url demo (default start (play (take 3 later) st_first)) st_last 3 "b").
  - etrans; [exact st_first_reached|]. apply (play_steps (take 3 later)). vm_compute. reflexivity.
  - vm_compute. eexists. reflexivity.
  - vm_compute. reflexivity.
  - apply (play_steps (drop 3 later ++ last)). vm_compute. reflexivity.
  - vm_compute. reflexivity.
Defined.

Lemma jwks_calls_return_witness :
  (4 <= work st_later)%nat /\ Forall (fun p => exists r, p = VDone r) (callers st_last) /\ inflight st_last = None.
Proof.
  destruct (jwks_calls_return d_Key length d_Decode d_url demo (ok "") st_later 4 st_last st_later_reached) as [H1 H2].
  - apply (play_goroutines last); [repeat constructor|vm_compute; reflexivity].
  - split; [exact H1|]. apply H2. intros st Hs. apply move_work in Hs. revert Hs. vm_compute. lia.
Defined.

(** The interval between fetches is measured from the last one that succeeded, and each
    caller measures it before it asks for the fetch: with the server failing, every call
    with an unknown kid starts a fetch of its own at the same instant; and two calls that
    looked before either fetched start two fetches at the same instant although the
    first succeeded. *)
Definition failing : list event := [Tick Hour; Arrive "x"; Call 2; Call 2; Fetch 1 (DoError "no route"); Fetch 1 (ok ""); Fetch 1 (ok "");
  Arrive "x"; Call 3; Call 3].
Definition racing : list event := [Tick Hour; Arrive "x"; Arrive "x"; Call 2; Call 3; Call 2; Fetch 1 (ok "a"); Fetch 1 (ok ""); Call 3].

Example jwks_refetches_at_once :
  ((fun st => (inflight st, length (fetchers st), now st)) <$> play failing st_first) = Some (Some 2%nat, 3%nat, Hour) /\
  ((fun st => (inflight st, length (fetchers st), fetchedAt st, now st)) <$> play racing st_first) = Some (Some 2%nat, 3%nat, Hour, Hour).
Proof. vm_compute. done. Qed.

End JwksFacts.
