(* ===== verification/Authn.v ===== *)
(** * Authentication

    [src/pkg/authn]: the generic authenticator, basic, forwarded and bearer-token
    authentication.  An [Authenticate] may rewrite the request it is given, so it returns
    it; the claims a token carries travel in the request's context.

    Parameters: the claims, tokens, keys and checks of go-jose, the key source, and the
    HTTP exchange with an authentication server. *)

From Stdlib Require Import Ascii.
From S2P Require Import Prelude GoStrings GoNet GoIO Middleware CacheKeys Headers.

(** ** The standard library: base64, [subtle], [url.PathEscape], [BasicAuth] *)

Definition code (c : ascii) : Z := Z.of_nat (nat_of_ascii c).
Definition byte (z : Z) : ascii := ascii_of_nat (Z.to_nat z).

Definition between (a b : ascii) (z : Z) : bool := (code a <=? z) && (z <=? code b).

(** The standard alphabet. *)
Definition b64_value (c : ascii) : option Z :=
  let z := code c in
  if between "A" "Z" z then Some (z - 65)
  else if between "a" "z" z then Some (z - 97 + 26)
  else if between "0" "9" z then Some (z - 48 + 52)
  else if Ascii.eqb c "+" then Some 62
  else if Ascii.eqb c "/" then Some 63
  else None.

Definition b64_char (n : Z) : ascii :=
  if n <? 26 then byte (n + 65)
  else if n <? 52 then byte (n - 26 + 97)
  else if n <? 62 then byte (n - 52 + 48)
  else if n =? 62 then "+"%char else "/"%char.

(** The bytes of a quantum of four characters. *)
Definition quantum (a b c d : Z) : list ascii :=
  let v := a * 2 ^ 18 + b * 2 ^ 12 + c * 2 ^ 6 + d in
  [byte (v / 2 ^ 16); byte (v / 2 ^ 8 mod 2 ^ 8); byte (v mod 2 ^ 8)].

Definition padc : ascii := "=".

Fixpoint b64_decode (s : list ascii) : option (list ascii) :=
  match s with
  | [] => Some []
  | a :: b :: c :: d :: s =>
      va ← b64_value a; vb ← b64_value b;
      if Ascii.eqb c padc then
        if Ascii.eqb d padc then match s with [] => Some (take 1 (quantum va vb 0 0)) | _ => None end else None
      else
        vc ← b64_value c;
        if Ascii.eqb d padc then match s with [] => Some (take 2 (quantum va vb vc 0)) | _ => None end
        else vd ← b64_value d; rest ← b64_decode s; Some (quantum va vb vc vd ++ rest)
  | _ => None
  end.

Definition newline (c : ascii) : bool := Ascii.eqb c "010" || Ascii.eqb c "013".

(** [base64.StdEncoding.DecodeString]: line ends are skipped. *)
Definition DecodeString (s : string) : option string :=
  text <$> b64_decode (filter (fun c => newline c = false) (chars s)).

(** [base64.StdEncoding.EncodeToString], for the clients. *)
Fixpoint b64_encode (s : list ascii) : list ascii :=
  match s with
  | [] => []
  | [a] => let v := code a * 2 ^ 16 in [b64_char (v / 2 ^ 18); b64_char (v / 2 ^ 12 mod 2 ^ 6); padc; padc]
  | [a; b] =>
      let v := code a * 2 ^ 16 + code b * 2 ^ 8 in
      [b64_char (v / 2 ^ 18); b64_char (v / 2 ^ 12 mod 2 ^ 6); b64_char (v / 2 ^ 6 mod 2 ^ 6); padc]
  | a :: b :: c :: s =>
      let v := code a * 2 ^ 16 + code b * 2 ^ 8 + code c in
      b64_char (v / 2 ^ 18) :: b64_char (v / 2 ^ 12 mod 2 ^ 6) :: b64_char (v / 2 ^ 6 mod 2 ^ 6) :: b64_char (v mod 2 ^ 6) ::
      b64_encode s
  end.
Definition EncodeToString (s : string) : string := text (b64_encode (chars s)).

(** [subtle.ConstantTimeCompare]. *)
Definition ConstantTimeCompare (x y : string) : Z :=
  if negb (String.length x =? String.length y)%nat then 0
  else let v := foldl (fun v p => Z.lor v (Z.lxor (code p.1) (code p.2))) 0 (zip (chars x) (chars y)) in
       if v =? 0 then 1 else 0.

(** [strings.Cut(s, sep)]; [None] when the separator is absent. *)
Fixpoint cut (sep : ascii) (s : list ascii) : option (list ascii * list ascii) :=
  match s with
  | [] => None
  | c :: s => if Ascii.eqb c sep then Some ([], s) else p ← cut sep s; Some (c :: p.1, p.2)
  end.

(** A scheme in front of credentials, matched without case. *)
Definition after_scheme (prefix v : string) : option string :=
  let n := String.length prefix in
  if (String.length v <? n)%nat || negb (EqualFold (strtake n v) prefix) then None else Some (strdrop n v).

(** [r.BasicAuth()]. *)
Definition BasicAuth (h : header) : option (string * string) :=
  rest ← after_scheme "Basic " (HGet h "Authorization");
  s ← DecodeString rest;
  p ← cut ":" (chars s);
  Some (text p.1, text p.2).

(** [url.PathEscape]. *)
Definition path_char (c : ascii) : bool :=
  let z := code c in
  between "a" "z" z || between "A" "Z" z || between "0" "9" z
  || existsb (Ascii.eqb c) ["-"; "_"; "."; "~"; "$"; "&"; "+"; "="; ":"; "@"]%char.
Definition hex_digit (n : Z) : ascii := if n <? 10 then byte (n + 48) else byte (n - 10 + 65).
Definition escape_char (c : ascii) : list ascii :=
  if path_char c then [c] else ["%"%char; hex_digit (code c / 16); hex_digit (code c mod 16)].
Definition PathEscape (s : string) : string := text (mbind escape_char (chars s)).

Module Authn.
Section Authn.
Context {C : Type}.

Record Request := mkRequest { base : Middleware.Request; claims : option C }.
Definition Handler := Request -> act.

Definition headers (r : Request) : header := Middleware.Header (base r).
Definition with_headers (h : header) (r : Request) : Request := mkRequest (Middleware.with_header h (base r)) (claims r).

(** The response of an authentication server. *)
Record response := mkResponse { StatusCode : Z; RespHeader : header; RespBody : reader }.

Inductive error :=
  | ErrMissingAuthorization
  | ErrInvalidCredentials
  | ErrInvalidToken
  | ErrOther (msg : string)
  | ForwardServerError (resp : option response) (origin : option string) (status : Z) (IsTransportError : bool).

(** ** The authenticator *)

Record Authenticator := mkAuth {
  Type_ : string;
  Authenticate : option (Request -> option error * Request);
  Forbidden : option (Request -> error -> act);
}.

Definition Unauthorized : act := http_Error "Unauthorized" 401.

(** [Set] and [SetShared] write the same value. *)
Definition ServeHandler (m : Authenticator) (h : Handler) : Handler :=
  match Authenticate m with
  | None => h
  | Some auth =>
      let forbidden := match Forbidden m with Some f => f | None => fun _ _ => Unauthorized end in
      fun r =>
        match auth r with
        | (Some err, r) =>
            if negb (String.eqb (Type_ m) "")
            then UpdateHeader (fun wh => HSet wh "Www-Authenticate" (Type_ m)) (forbidden r err)
            else forbidden r err
        | (None, r) => h r
        end
  end.

Definition challenge (scheme realm : string) : string :=
  if String.eqb realm "" then scheme
  else scheme +:+ " realm=" +:+ String "034" (PathEscape realm +:+ String "034" "").

(** ** Basic authentication *)

Record BasicAuthenticator := mkBasic {
  Realm : string;
  CheckBasic : Request -> string -> string -> option error;
}.

Definition Basic (username password : string) : BasicAuthenticator :=
  mkBasic "" (fun _ u p =>
    let userOK := ConstantTimeCompare u username in
    let passOK := ConstantTimeCompare p password in
    if negb (Z.land userOK passOK =? 1) then Some ErrInvalidCredentials else None).

Definition BasicServe (m : BasicAuthenticator) : Handler -> Handler :=
  ServeHandler (mkAuth (challenge "Basic" (Realm m)) (Some (fun r =>
    let up := BasicAuth (headers r) in
    let r := with_headers (delete "Authorization" (headers r)) r in
    match up with
    | None => (Some ErrMissingAuthorization, r)
    | Some (u, p) => (CheckBasic m r u p, r)
    end)) None).

(** ** Forwarded authentication *)

Record ForwardAuthenticator := mkForward {
  URL : string;  (* "" when nil *)
  AuthRequestHeaders : list string;
  AuthResponseHeaders : list string;
}.

Definition validStatusCode (code : Z) : bool := (200 <=? code) && (code <? 300).

(** For each name, what [dst] had is replaced by the values of [src]. *)
Definition copy_headers (names : list string) (src dst : header) : header :=
  foldl (fun dst k => foldl (fun dst v => HAdd dst k v) (delete k dst) (Values src k)) dst names.

Section Forward.
(** [http.NewRequestWithContext] on the URL, and the client. *)
Context (url_ok : string -> bool) (Do : string -> header -> response + string).

Definition auth_headers (names : list string) (r : Request) : header :=
  let h := headers r in
  let out := match names with [] => delete "Content-Length" h | _ => copy_headers names h ∅ end in
  let out := HSet out "X-Forwarded-Method" (Middleware.Method (base r)) in
  let out := HSet out "X-Forwarded-Host" (Middleware.Host (base r)) in
  let out := HSet out "X-Forwarded-Uri" (Middleware.RequestURI (base r)) in
  let out := HSet out "X-Forwarded-Proto" (HGet h "X-Forwarded-Proto") in
  HSet out "X-Forwarded-For" (HGet h "X-Forwarded-For").

Definition ForwardForbidden (_ : Request) (err : error) : act :=
  match err with
  | ForwardServerError _ _ status true => http_Error "Auth Server Unavailable" status
  | ForwardServerError (Some resp) _ _ false =>
      UpdateHeader (fun wh => RespHeader resp ∪ wh)
        (WriteHeader (StatusCode resp)
           (if String.eqb (data (RespBody resp)) "" then Done else Write (data (RespBody resp)) Done))
  | ForwardServerError None _ _ false => Panic
  | _ => http_Error "Internal Server Error" 500
  end.

Definition ForwardServe (m : ForwardAuthenticator) : Handler -> Handler :=
  let reqh := CanonicalHeaderKey <$> AuthRequestHeaders m in
  let resph := CanonicalHeaderKey <$> AuthResponseHeaders m in
  ServeHandler (mkAuth "" (Some (fun r =>
    if String.eqb (URL m) "" then (Some (ErrOther "missing url"), r)
    else if negb (url_ok (URL m)) then (Some (ErrOther "invalid url"), r)
    else match Do (URL m) (auth_headers reqh r) with
         | inr e => (Some (ForwardServerError None (Some e) 503 true), r)
         | inl resp =>
             if negb (validStatusCode (StatusCode resp))
             then (Some (ForwardServerError (Some resp) None (StatusCode resp) false), r)
             else (None, with_headers (copy_headers resph (RespHeader resp) (headers r)) r)
         end)) (Some ForwardForbidden)).
End Forward.

(** ** Bearer tokens *)

Definition toJOSEAlgorithms (algs : list string) : list string := algs.

Record Expected := mkExpected { Time : Z; Issuer_ : string; AnyAudience : list string }.

Section JWT.
Context {Token K Registered : Type}.
Context (ParseSigned : string -> list string -> option Token) (KeyID : Token -> option string)
        (Claims : Token -> K -> option (Registered * C)) (Validate : Registered -> Expected -> Z -> bool)
        (DefaultLeeway : Z).

Record JWTAuthenticator := mkJWT {
  StaticKey : K;
  KeySource : option (string -> option K);
  Algorithms : list string;
  Issuer : string;
  Audience : string;
  Leeway : Z;
  JRealm : string;
}.

Definition bearerToken (h : header) : option string :=
  rest ← after_scheme "bearer " (HGet h "Authorization");
  let token := TrimSpace rest in
  if String.eqb token "" then None else Some token.

Definition expected (m : JWTAuthenticator) (now : Z) : Expected :=
  mkExpected now (Issuer m) (if String.eqb (Audience m) "" then [] else [Audience m]).

Definition verification_key (m : JWTAuthenticator) (tok : Token) : option K :=
  match KeySource m with
  | None => Some (StaticKey m)
  | Some src => src (default "" (KeyID tok))
  end.

Definition JWTAuthenticate (m : JWTAuthenticator) (now : Z) (r : Request) : option error * Request :=
  let algs := toJOSEAlgorithms (Algorithms m) in
  match bearerToken (headers r) with
  | None => (Some ErrMissingAuthorization, r)
  | Some raw =>
      match algs with
      | [] => (Some ErrInvalidToken, r)
      | _ =>
          match ParseSigned raw algs with
          | None => (Some ErrInvalidToken, r)
          | Some tok =>
              match verification_key m tok with
              | None => (Some ErrInvalidToken, r)
              | Some key =>
                  match Claims tok key with
                  | None => (Some ErrInvalidToken, r)
                  | Some (reg, all) =>
                      if Validate reg (expected m now) (if Leeway m =? 0 then DefaultLeeway else Leeway m)
                      then (None, mkRequest (base r) (Some all))
                      else (Some ErrInvalidToken, r)
                  end
              end
          end
      end
  end.

Definition JWTServe (m : JWTAuthenticator) (now : Z) : Handler -> Handler :=
  ServeHandler (mkAuth (challenge "Bearer" (JRealm m)) (Some (JWTAuthenticate m now)) None).

Definition JWTClaimsFromContext (r : Request) : option C := claims r.

End JWT.
End Authn.
End Authn.
