(* ===== verification/AuthnFacts.v ===== *)
(** * What authentication lets through

    The theorems on [Authn]. *)

From Stdlib Require Import Ascii.
From S2P Require Import Prelude GoStrings GoNet GoIO Middleware CacheKeys Headers Jwks JwksFacts Authn.

(** ** Base64 *)

Lemma code_range c : 0 <= code c < 256.
Proof. unfold code. pose proof (nat_ascii_bounded c). lia. Qed.
Lemma byte_code c : byte (code c) = c.
Proof. unfold byte, code. rewrite Nat2Z.id. apply ascii_nat_embedding. Qed.
Lemma code_inj a b : code a = code b -> a = b.
Proof. intros H. rewrite <- (byte_code a), <- (byte_code b). by f_equal. Qed.

Lemma b64_char_ok n : 0 <= n < 64 ->
  b64_value (b64_char n) = Some n /\ Ascii.eqb (b64_char n) padc = false /\ newline (b64_char n) = false.
Proof.
  intros Hn. assert (forallb (fun n => bool_decide (b64_value (b64_char n) = Some n /\ Ascii.eqb (b64_char n) padc = false /\ newline (b64_char n) = false))
    (seqZ 0 64) = true) as H by (vm_compute; reflexivity).
  rewrite forallb_forall in H. apply (bool_decide_eq_true_1 _), H. apply list_elem_of_In, elem_of_seqZ. lia.
Qed.

(** The three bytes of [v], and its four sextets put together again. *)
Lemma quantum_split a b c :
  let v := code a * 2 ^ 16 + code b * 2 ^ 8 + code c in
  quantum (v / 2 ^ 18) (v / 2 ^ 12 mod 2 ^ 6) (v / 2 ^ 6 mod 2 ^ 6) (v mod 2 ^ 6) = [a; b; c].
Proof.
  intros v. pose proof (code_range a). pose proof (code_range b). pose proof (code_range c). unfold quantum.
  assert (v / 2 ^ 18 * 2 ^ 18 + v / 2 ^ 12 mod 2 ^ 6 * 2 ^ 12 + v / 2 ^ 6 mod 2 ^ 6 * 2 ^ 6 + v mod 2 ^ 6 = v) as ->
    by (subst v; Z.div_mod_to_equations; lia).
  assert (v / 2 ^ 16 = code a) as -> by (subst v; Z.div_mod_to_equations; lia).
  assert (v / 2 ^ 8 mod 2 ^ 8 = code b) as -> by (subst v; Z.div_mod_to_equations; lia).
  assert (v mod 2 ^ 8 = code c) as -> by (subst v; Z.div_mod_to_equations; lia).
  by rewrite !byte_code.
Qed.

Lemma sextets v : 0 <= v < 2 ^ 24 ->
  0 <= v / 2 ^ 18 < 64 /\ 0 <= v / 2 ^ 12 mod 2 ^ 6 < 64 /\ 0 <= v / 2 ^ 6 mod 2 ^ 6 < 64 /\ 0 <= v mod 2 ^ 6 < 64.
Proof. intros H. split_and!; Z.div_mod_to_equations; lia. Qed.

(** A list by threes. *)
Lemma list_ind3 {A} (P : list A -> Prop) :
  P [] -> (forall a, P [a]) -> (forall a b, P [a; b]) -> (forall a b c l, P l -> P (a :: b :: c :: l)) -> forall l, P l.
Proof.
  intros H0 H1 H2 H3. enough (forall l, P l /\ (forall a, P (a :: l)) /\ (forall a b, P (a :: b :: l))) as H by (intros l; apply H).
  induction l as [|c l (I1 & I2 & I3)]; split_and!; auto.
Qed.

Lemma b64_decode_encode s : b64_decode (b64_encode s) = Some s.
Proof.
  induction s as [|a|a b|a b c s IH] using list_ind3; [done|..]; pose proof (code_range a) as Ha.
  - cbn [b64_encode]. destruct (sextets (code a * 2 ^ 16) ltac:(lia)) as (S1 & S2 & S3 & S4).
    pose proof (quantum_split a "000" "000") as Hq. cbv zeta in Hq. change (code "000") with 0 in Hq. rewrite !Z.mul_0_l, !Z.add_0_r in Hq.
    assert (code a * 2 ^ 16 / 2 ^ 6 mod 2 ^ 6 = 0) as E1 by (Z.div_mod_to_equations; lia).
    assert (code a * 2 ^ 16 mod 2 ^ 6 = 0) as E2 by (Z.div_mod_to_equations; lia). rewrite E1, E2 in Hq.
    remember (code a * 2 ^ 16) as v. destruct (b64_char_ok _ S1) as (V1 & _). destruct (b64_char_ok _ S2) as (V2 & _).
    cbn [b64_decode]. rewrite V1, V2. cbn [mbind option_bind]. change (Ascii.eqb padc padc) with true. cbv iota. by rewrite Hq.
  - cbn [b64_encode]. pose proof (code_range b) as Hb. destruct (sextets (code a * 2 ^ 16 + code b * 2 ^ 8) ltac:(lia)) as (S1 & S2 & S3 & S4).
    pose proof (quantum_split a b "000") as Hq. cbv zeta in Hq. change (code "000") with 0 in Hq. rewrite !Z.add_0_r in Hq.
    assert ((code a * 2 ^ 16 + code b * 2 ^ 8) mod 2 ^ 6 = 0) as E2 by (Z.div_mod_to_equations; lia). rewrite E2 in Hq.
    remember (code a * 2 ^ 16 + code b * 2 ^ 8) as v. destruct (b64_char_ok _ S1) as (V1 & _). destruct (b64_char_ok _ S2) as (V2 & _).
    destruct (b64_char_ok _ S3) as (V3 & P3 & _).
    cbn [b64_decode]. rewrite V1, V2. cbn [mbind option_bind]. rewrite P3, V3. cbn [mbind option_bind].
    change (Ascii.eqb padc padc) with true. cbv iota. by rewrite Hq.
  - cbn [b64_encode]. pose proof (code_range b) as Hb. pose proof (code_range c) as Hc. pose proof (quantum_split a b c) as Hq. cbv zeta in Hq.
    destruct (sextets (code a * 2 ^ 16 + code b * 2 ^ 8 + code c) ltac:(lia)) as (S1 & S2 & S3 & S4).
    remember (code a * 2 ^ 16 + code b * 2 ^ 8 + code c) as v.
    destruct (b64_char_ok _ S1) as (V1 & _). destruct (b64_char_ok _ S2) as (V2 & _).
    destruct (b64_char_ok _ S3) as (V3 & P3 & _). destruct (b64_char_ok _ S4) as (V4 & P4 & _).
    cbn [b64_decode]. rewrite V1, V2. cbn [mbind option_bind]. rewrite P3, V3. cbn [mbind option_bind].
    rewrite P4, V4. cbn [mbind option_bind]. rewrite IH, Hq. done.
Qed.

Lemma b64_encode_lines s : Forall (fun c => newline c = false) (b64_encode s).
Proof.
  induction s as [|a|a b|a b c s IH] using list_ind3; [constructor|..]; cbn [b64_encode]; cbv zeta;
    pose proof (code_range a) as Ha; try pose proof (code_range b); try pose proof (code_range c);
    repeat (apply Forall_cons; split); try done; apply b64_char_ok; Z.div_mod_to_equations; lia.
Qed.

Lemma DecodeString_encode s : DecodeString (EncodeToString s) = Some s.
Proof.
  unfold DecodeString, EncodeToString. rewrite chars_text.
  assert (forall l, Forall (fun c => newline c = false) l -> filter (fun c => newline c = false) l = l) as Hf.
  { induction 1 as [|c l Hc _ IH]; [done|]. by rewrite filter_cons_True, IH. }
  rewrite Hf by apply b64_encode_lines. rewrite b64_decode_encode. cbn. by rewrite text_chars.
Qed.

(** ** Comparisons *)

Lemma lor_fold_zero l v : 0 <= v ->
  foldl (fun v (p : ascii * ascii) => Z.lor v (Z.lxor (code p.1) (code p.2))) v l = 0 <-> v = 0 /\ Forall (fun p => p.1 = p.2) l.
Proof.
  revert v. induction l as [|[a b] l IH]; intros v Hv; cbn [foldl]; [split; [intros; split; [done|constructor]|tauto]|].
  assert (0 <= Z.lxor (code a) (code b)) by (apply Z.lxor_nonneg; pose proof (code_range a); pose proof (code_range b); lia).
  cbn [fst snd]. rewrite IH by (apply Z.lor_nonneg; done). rewrite Forall_cons, Z.lor_eq_0_iff, Z.lxor_eq_0_iff. cbn.
  split; [intros [[-> H1] H2]; auto using code_inj|intros (-> & -> & ?); auto].
Qed.

Lemma zip_same {A} (x y : list A) : length x = length y -> Forall (fun p => p.1 = p.2) (zip x y) <-> x = y.
Proof.
  revert y. induction x as [|a x IH]; intros [|b y] H; cbn in *; try done.
  rewrite Forall_cons. cbn. rewrite IH by lia. split; [intros [-> ->]; done|intros [= -> ->]; done].
Qed.

Lemma ConstantTimeCompare_spec x y : ConstantTimeCompare x y = if bool_decide (x = y) then 1 else 0.
Proof.
  unfold ConstantTimeCompare. destruct (Nat.eqb_spec (String.length x) (String.length y)) as [Hl|Hl]; cbn [negb].
  - rewrite <- !chars_length in Hl.
    destruct (Z.eqb_spec (foldl (fun v p => Z.lor v (Z.lxor (code p.1) (code p.2))) 0 (zip (chars x) (chars y))) 0) as [H|H].
    + apply lor_fold_zero in H as [_ H]; [|lia]. apply zip_same in H; [|done]. by rewrite bool_decide_true by by apply chars_inj.
    + rewrite bool_decide_false; [done|]. intros ->. apply H, lor_fold_zero; [lia|]. split; [done|]. by apply zip_same.
  - rewrite bool_decide_false; [done|]. by intros ->.
Qed.

Lemma cut_app sep a b : sep ∉ a -> cut sep (a ++ sep :: b) = Some (a, b).
Proof.
  induction a as [|c a IH]; intros Ha; cbn.
  - by rewrite Ascii.eqb_refl.
  - apply not_elem_of_cons in Ha as [Hc Ha]. destruct (Ascii.eqb_spec c sep); [congruence|]. by rewrite IH.
Qed.

Lemma after_scheme_app p p' v : String.length p' = String.length p -> EqualFold p' p = true -> after_scheme p (p' +:+ v) = Some v.
Proof.
  intros Hl He. unfold after_scheme. assert (strtake (String.length p) (p' +:+ v) = p' /\ strdrop (String.length p) (p' +:+ v) = v) as [-> ->].
  { rewrite <- Hl. clear Hl He. unfold strtake, strdrop.
    enough (forall m, (String.length v <= m)%nat -> String.substring 0 (String.length p') (p' +:+ v) = p' /\ String.substring (String.length p') m (p' +:+ v) = v) as H
      by (apply H; rewrite append_length; lia).
    intros m Hm. induction p' as [|c p' [I1 I2]]; [split; [by destruct v|by apply substring_all]|].
    change (String c p' +:+ v) with (String c (p' +:+ v)). cbn [String.length String.substring]. by rewrite I1, I2. }
  rewrite He, orb_false_r. destruct (Nat.ltb_spec (String.length (p' +:+ v)) (String.length p)) as [H|H]; [|done].
  rewrite append_length in H. lia.
Qed.

Lemma BasicAuth_encode hd scheme u p :
  String.length scheme = 6%nat -> EqualFold scheme "Basic " = true -> ":"%char ∉ chars u ->
  HGet hd "Authorization" = scheme +:+ EncodeToString (u +:+ String ":" p) -> BasicAuth hd = Some (u, p).
Proof.
  intros Hl He Hu Hh. unfold BasicAuth. rewrite Hh, after_scheme_app by done. cbn [mbind option_bind].
  rewrite DecodeString_encode. cbn [mbind option_bind]. rewrite chars_app.
  change (chars (String ":" p)) with (":"%char :: chars p). rewrite cut_app by done. cbn. by rewrite !text_chars.
Qed.

(** ** Challenges *)

Lemma escape_safe c : Forall (fun d => path_char d = true \/ d = "%"%char) (escape_char c).
Proof.
  assert (forallb (fun d => path_char d || Ascii.eqb d "%") (escape_char c) = true) as H
    by (destruct c as [[] [] [] [] [] [] [] []]; vm_compute; reflexivity).
  rewrite forallb_forall in H. apply Forall_forall. intros d Hd. apply list_elem_of_In, H, orb_true_iff in Hd as [Hd|Hd]; [by left|].
  right. by apply Ascii.eqb_eq.
Qed.

Lemma PathEscape_safe s : Forall (fun d => path_char d = true \/ d = "%"%char) (chars (PathEscape s)).
Proof.
  unfold PathEscape. rewrite chars_text. induction (chars s) as [|c l IH]; [constructor|]. cbn.
  apply Forall_app. split; [apply escape_safe|exact IH].
Qed.

Module AuthnFacts.
Import Authn.

(** ** Copied headers *)

Lemma HAdd_eq h k v : HAdd h k v !! k = Some (Values h k ++ [v]).
Proof. exact (lookup_insert_eq h k _). Qed.

Lemma HDel_eq (h : header) k : delete k h !! k = None.
Proof. exact (lookup_delete_eq h k). Qed.
Lemma HDel_ne (h : header) k k' : k <> k' -> delete k h !! k' = h !! k'.
Proof. exact (lookup_delete_ne h k k'). Qed.

Lemma add_all_lookup vs (dst : header) k k' :
  foldl (fun dst v => HAdd dst k v) dst vs !! k' =
  if decide (k' = k) then (if decide (vs = []) then dst !! k else Some (Values dst k ++ vs)) else dst !! k'.
Proof.
  revert dst. induction vs as [|v vs IH]; intros dst; cbn [foldl].
  - destruct (decide (k' = k)) as [->|]; [|done]. by rewrite decide_True.
  - rewrite IH. assert (Values (HAdd dst k v) k = Values dst k ++ [v]) as E.
    { unfold Values at 1. by rewrite HAdd_eq. }
    destruct (decide (k' = k)) as [->|Hne].
    + rewrite (decide_False (P := v :: vs = [])) by done. destruct (decide (vs = [])) as [->|].
      * apply HAdd_eq.
      * rewrite E, <- app_assoc. done.
    + by rewrite HeadersFacts.HAdd_ne by congruence.
Qed.

Definition values_opt (h : header) (k : string) : option (list string) :=
  if decide (Values h k = []) then None else Some (Values h k).

(** What was under a listed name is gone; the values of the source are there instead. *)
Lemma copy_headers_lookup names (src dst : header) k :
  copy_headers names src dst !! k = if decide (k ∈ names) then values_opt src k else dst !! k.
Proof.
  unfold copy_headers. revert dst. induction names as [|n names IH]; intros dst; cbn [foldl].
  - by rewrite decide_False by apply not_elem_of_nil.
  - rewrite IH. destruct (decide (k ∈ names)) as [Hk|Hk]; [by rewrite decide_True by by right|].
    rewrite add_all_lookup. destruct (decide (k = n)) as [->|Hne].
    + rewrite (decide_True (P := n ∈ n :: names)) by left. unfold values_opt.
      assert (Values (delete n dst) n = []) as -> by (unfold Values; by rewrite HDel_eq). by rewrite HDel_eq.
    + rewrite HDel_ne by congruence. rewrite decide_False; [done|]. rewrite elem_of_cons. tauto.
Qed.

Section Facts.
Context {C : Type}.
Implicit Types (r : @Request C) (h : @Handler C).

Definition rejected (scheme realm : string) : act :=
  UpdateHeader (fun wh => HSet wh "Www-Authenticate" (challenge scheme realm)) Unauthorized.

Lemma challenge_nonempty scheme realm : scheme <> "" -> String.eqb (challenge scheme realm) "" = false.
Proof. intros Hs. unfold challenge. destruct scheme; [done|]. by destruct (String.eqb realm ""). Qed.

(** C35: Basic authentication. A request goes to the next handler exactly when its
    [Authorization] header carries the configured user name and password, and it goes
    without that header; any other request gets a 401 with a challenge. What a client
    sends for the user [u] (which holds no colon) and password [p], the scheme in any
    case and the pair in base64, is read back as exactly that pair. *)
Theorem basic_credentials (U P : string) h r :
  BasicServe (Basic U P) h r =
    (if bool_decide (BasicAuth (headers r) = Some (U, P))
     then h (with_headers (delete "Authorization" (headers r)) r) else rejected "Basic" "") /\
  (forall scheme u p, String.length scheme = 6%nat -> EqualFold scheme "Basic " = true -> ":"%char ∉ chars u ->
     HGet (headers r) "Authorization" = scheme +:+ EncodeToString (u +:+ String ":" p) ->
     BasicAuth (headers r) = Some (u, p)).
Proof.
  split; [|intros; by eapply BasicAuth_encode].
  unfold BasicServe, ServeHandler. cbn [Authenticate Type_ Forbidden Realm Basic]. rewrite challenge_nonempty by done.
  destruct (BasicAuth (headers r)) as [[u p]|]; [|by rewrite bool_decide_false].
  cbn [CheckBasic Basic]. rewrite !ConstantTimeCompare_spec.
  destruct (decide (u = U)) as [->|Hu]; [rewrite (bool_decide_true (U = U)) by done|rewrite (bool_decide_false (u = U)) by done].
  - destruct (decide (p = P)) as [->|Hp].
    + by rewrite !bool_decide_true.
    + rewrite (bool_decide_false (p = P)) by done. rewrite bool_decide_false by congruence. done.
  - rewrite (bool_decide_false (Some (u, p) = _)) by congruence. by case_bool_decide.
Qed.

(** Forwarded authentication. A request goes to the next handler exactly when the
    authentication server was asked and answered with a 2xx. It is then unchanged but
    for the response headers the configuration lists: under such a name it has the
    server's values and none of the client's, even when the server sent none. If the
    server cannot be reached the answer is a 503, and if it answers otherwise its
    status, headers and body are the answer; the next handler is not called. *)
Theorem forward_guard url_ok Do m h r :
  URL m <> "" -> url_ok (URL m) = true ->
  match Do (URL m) (auth_headers (CanonicalHeaderKey <$> AuthRequestHeaders m) r) with
  | inr _ => ForwardServe url_ok Do m h r = http_Error "Auth Server Unavailable" 503
  | inl resp =>
      if (200 <=? StatusCode resp) && (StatusCode resp <? 300) then
        exists r', ForwardServe url_ok Do m h r = h r' /\ claims r' = claims r /\
          Middleware.with_header ∅ (base r') = Middleware.with_header ∅ (base r) /\
          forall k, headers r' !! k = if decide (k ∈ CanonicalHeaderKey <$> AuthResponseHeaders m)
                                      then values_opt (RespHeader resp) k else headers r !! k
      else
        let w := respond (ForwardServe url_ok Do m h r) in
        100 <= StatusCode resp -> informational (StatusCode resp) = false ->
        sent w = Some (StatusCode resp, RespHeader resp) /\ body w = data (RespBody resp)
  end.
Proof.
  intros Hu Hok. unfold ForwardServe, ServeHandler. cbn [Authenticate Type_ Forbidden].
  rewrite (proj2 (String.eqb_neq (URL m) "") Hu), Hok. cbn [negb].
  destruct (Do _ _) as [resp|e]; [|done]. change ((200 <=? StatusCode resp) && (StatusCode resp <? 300)) with (validStatusCode (StatusCode resp)). destruct (validStatusCode (StatusCode resp)) eqn:Hv; cbn [negb].
  - eexists. split_and!; [done|done|done|]. intros k. apply copy_headers_lookup.
  - cbv zeta. intros _ Hi. cbn [String.eqb negb ForwardForbidden]. unfold respond. cbn [exec new_rw hdr sent early body].
    rewrite (right_id_L ∅ (∪)).
    assert (forall hd, rw_WriteHeader (StatusCode resp) (mkRW hd None [] "") = mkRW hd (Some (StatusCode resp, hd)) [] "") as Ew
      by (intros hd; unfold rw_WriteHeader; cbn [sent]; by rewrite Hi).
    rewrite Ew. destruct (String.eqb_spec (data (RespBody resp)) "") as [E|E]; cbn [exec fst rw_WriteHeader sent hdr early body].
    + by rewrite E.
    + done.
Qed.

(** ** Tokens *)

Section JWT.
Context {Token K Registered : Type}.
Context (ParseSigned : string -> list string -> option Token) (KeyID : Token -> option string)
        (Claims : Token -> K -> option (Registered * C)) (Validate : Registered -> Expected -> Z -> bool)
        (DefaultLeeway : Z).

(** What go-jose documents, of the algorithm, the signer and the registered claims of a
    token: parsing refuses an algorithm that is not listed, claims are given out only
    after the signature was verified with the key, and validation compares the issuer
    and the audiences when something is expected of them and the time with the token's
    own bounds, each by the leeway wider. *)
Class Jose (alg : Token -> string) (signed_by : Token -> K -> Prop) (iss : Registered -> string)
    (aud : Registered -> list string) (exp nbf iat : Registered -> option Z) : Prop := {
  parse_pins raw algs tok : ParseSigned raw algs = Some tok -> alg tok ∈ algs;
  claims_verify tok k x : Claims tok k = Some x -> signed_by tok k;
  validate_checks reg e leeway : Validate reg e leeway = true <->
    (Issuer_ e = "" \/ iss reg = Issuer_ e) /\
    (AnyAudience e = [] \/ exists a, a ∈ AnyAudience e /\ a ∈ aud reg) /\
    (forall t, exp reg = Some t -> Time e - leeway <= t) /\
    (forall t, nbf reg = Some t -> t <= Time e + leeway) /\
    (forall t, iat reg = Some t -> t <= Time e + leeway);
}.

(** What a key source promises: the keys it gives out are trusted. *)
Class TrustedKeys (trusted : K -> Prop) (src : string -> option K) : Prop := {
  key_trusted kid k : src kid = Some k -> trusted k;
}.

(** The request carries [raw] as its bearer token. *)
Definition carries (h : header) (raw : string) : Prop :=
  exists scheme rest, HGet h "Authorization" = scheme +:+ rest /\ String.length scheme = 7%nat /\
    EqualFold scheme "bearer " = true /\ raw = TrimSpace rest /\ raw <> "".

Lemma bearerToken_spec hd raw : bearerToken hd = Some raw <-> carries hd raw.
Proof.
  unfold bearerToken, carries. split.
  - destruct (after_scheme "bearer " (HGet hd "Authorization")) as [rest|] eqn:E; [|done].
    change (Some rest ≫= ?f) with (f rest). cbv beta zeta.
    destruct (String.eqb_spec (TrimSpace rest) ""); [done|]. intros [= <-]. unfold after_scheme in E.
    set (v := HGet hd "Authorization") in *. change (String.length "bearer ") with 7%nat in E.
    destruct (Nat.ltb_spec (String.length v) 7) as [|Hl]; [done|]. destruct (EqualFold (strtake 7 v) "bearer ") eqn:Ef; [|done].
    injection E as <-. exists (strtake 7 v), (strdrop 7 v). split_and!; [by rewrite strtake_drop| |done..].
    rewrite strtake_length. lia.
  - intros (scheme & rest & -> & Hl & Hf & -> & Hne). rewrite (after_scheme_app "bearer " scheme rest Hl Hf). cbn.
    by destruct (String.eqb_spec (TrimSpace rest) "").
Qed.

Section Tokens.
Context (alg : Token -> string) (signed_by : Token -> K -> Prop) (iss : Registered -> string)
  (aud : Registered -> list string) (exp nbf iat : Registered -> option Z) (trusted : K -> Prop).

(** The key a token must be verified with: the configured one, or, where a key source is
    configured, the one it gives for the token's key identifier and no other. *)
Definition right_key (m : JWTAuthenticator (K := K)) (tok : Token) (key : K) : Prop :=
  match KeySource m with
  | None => key = StaticKey m
  | Some src => src (default "" (KeyID tok)) = Some key /\ trusted key
  end.

(** The registered claims a token must have. *)
Definition right_claims (m : JWTAuthenticator (K := K)) (now : Z) (reg : Registered) : Prop :=
  let leeway := if decide (Leeway m = 0) then DefaultLeeway else Leeway m in
  (Issuer m <> "" -> iss reg = Issuer m) /\ (Audience m <> "" -> Audience m ∈ aud reg) /\
  (forall t, exp reg = Some t -> now - leeway <= t) /\
  (forall t, nbf reg = Some t -> t <= now + leeway) /\ (forall t, iat reg = Some t -> t <= now + leeway).

(** What a request must carry to be let through, with the claims [all] in its token. *)
Definition entitled (m : JWTAuthenticator (K := K)) (now : Z) (h : header) (all : C) : Prop :=
  exists raw tok key reg, carries h raw /\ ParseSigned raw (Algorithms m) = Some tok /\ alg tok ∈ Algorithms m /\
    right_key m tok key /\ signed_by tok key /\ Claims tok key = Some (reg, all) /\ right_claims m now reg.

Context (HJ : Jose alg signed_by iss aud exp nbf iat).

Lemma validate_spec m now reg :
  Validate reg (expected m now) (if Leeway m =? 0 then DefaultLeeway else Leeway m) = true <-> right_claims m now reg.
Proof.
  rewrite validate_checks. unfold right_claims, expected. cbn [Issuer_ AnyAudience Time].
  rewrite (decide_ext _ _ _ _ (iff_sym (Z.eqb_eq (Leeway m) 0))).
  assert ((if decide ((Leeway m =? 0) = true) then DefaultLeeway else Leeway m) = (if Leeway m =? 0 then DefaultLeeway else Leeway m)) as ->
    by (by destruct (Leeway m =? 0)).
  assert ((Issuer m = "" \/ iss reg = Issuer m) <-> (Issuer m <> "" -> iss reg = Issuer m)) as ->
    by (destruct (decide (Issuer m = "")); naive_solver).
  assert (((if String.eqb (Audience m) "" then [] else [Audience m]) = [] \/
    exists a, a ∈ (if String.eqb (Audience m) "" then [] else [Audience m]) /\ a ∈ aud reg) <->
    (Audience m <> "" -> Audience m ∈ aud reg)) as ->; [|done].
  destruct (String.eqb_spec (Audience m) ""); [naive_solver|]. split; [|intros H; right; exists (Audience m); set_solver].
  intros [?|(x & ->%list_elem_of_singleton & Hx)]; done.
Qed.

Lemma key_spec m tok key :
  (forall src, KeySource m = Some src -> TrustedKeys trusted src) ->
  verification_key KeyID m tok = Some key <-> right_key m tok key.
Proof.
  intros HT. unfold verification_key, right_key. destruct (KeySource m) as [src|].
  - destruct (HT src eq_refl) as [Hk]. naive_solver.
  - naive_solver.
Qed.

(** C21: Bearer tokens. A request is let through exactly when its [Authorization]
    header is the scheme [Bearer], in any case, and a token that parses under the
    pinned algorithms and is signed with one of them; the key that verifies it is the
    static one or, when a key source is configured, the one that source gives for the
    token's key identifier, with no fallback when it has none; its issuer is the
    configured one and its audiences contain the configured one, where they are set;
    and it is neither expired, nor not yet valid, nor issued in the future, by the
    leeway (the library's default when none is set). The next handler then gets the
    request itself with exactly that token's claims, and any other request gets a 401
    with a challenge. With no algorithm pinned every request is refused. *)
Theorem jwt_guard m now h r :
  (forall src, KeySource m = Some src -> TrustedKeys trusted src) ->
  let serve := JWTServe ParseSigned KeyID Claims Validate DefaultLeeway m now h r in
  (serve = rejected "Bearer" (JRealm m) /\ (forall all, ~ entitled m now (headers r) all)) \/
  (exists all, entitled m now (headers r) all /\ serve = h (mkRequest (base r) (Some all))).
Proof.
  intros HT serve. subst serve. unfold JWTServe, ServeHandler, entitled. cbn [Authenticate Type_ Forbidden].
  rewrite challenge_nonempty by done. unfold JWTAuthenticate, toJOSEAlgorithms.
  setoid_rewrite <- bearerToken_spec. setoid_rewrite <- (fun tok key => key_spec m tok key HT). setoid_rewrite <- validate_spec.
  destruct (bearerToken (headers r)) as [raw|]; [|left; split; [done|naive_solver]].
  destruct (Algorithms m) as [|a algs].
  { left. split; [done|]. intros all (? & tok & ? & ? & _ & _ & Hp & _). by apply elem_of_nil in Hp. }
  destruct (ParseSigned raw (a :: algs)) as [tok|] eqn:Hp; [|left; split; [done|naive_solver]].
  destruct (verification_key KeyID m tok) as [key|] eqn:Hk; [|left; split; [done|naive_solver]].
  destruct (Claims tok key) as [[reg all]|] eqn:Hc; [|left; split; [done|naive_solver]].
  destruct (Validate _ _ _) eqn:Hv; [|left; split; [done|]; intros ? (? & ? & ? & ? & ? & ? & _ & ? & _ & ? & ?); congruence].
  right. exists all. split; [|done]. exists raw, tok, key, reg.
  split_and!; try done; [by eapply parse_pins|by eapply claims_verify].
Qed.
End Tokens.

End JWT.
End Facts.

(** The remote key set is a key source: what its calls return was fetched. *)
Lemma jwks_trusted {K} Key len_Keys Decode url_ok j (src : string -> option K) :
  (forall kid k, src kid = Some k -> exists st i, rtc (Jwks.step Key len_Keys Decode url_ok j) Jwks.start st /\
     Jwks.callers st !! i = Some (Jwks.VDone (inl k))) ->
  TrustedKeys (JwksFacts.fetched len_Keys Decode url_ok j) src.
Proof.
  intros H. split. intros kid k Hk. destruct (H kid k Hk) as (st & i & Hr & Hi).
  exact (proj1 (Forall_lookup _ _) (JwksFacts.inv_vs _ _ _ _ st (JwksFacts.jwks_reachable _ _ _ _ _ st Hr)) i _ Hi).
Qed.

(** ** Runs *)

Definition request (hd : header) : @Request string := mkRequest (Middleware.mkRequest "GET" "a" "/x" "/x" "" false hd) None.
Definition admin : @Request string := request {["Authorization" := ["bAsIc " +:+ EncodeToString "admin:s:3"]; "Accept" := ["*/*"]]}.
Definition ok_handler : @Handler string := fun r => WriteHeader 200 (Write (default "" (JWTClaimsFromContext r)) Done).

Example basic_run :
  HGet (headers admin) "Authorization" = "bAsIc YWRtaW46czoz" /\
  fst <$> sent (respond (BasicServe (Basic "admin" "s:3") ok_handler admin)) = Some 200 /\
  fst <$> sent (respond (BasicServe (Basic "admin" "s:4") ok_handler admin)) = Some 401.
Proof. vm_compute. done. Qed.

Lemma basic_credentials_witness : BasicAuth (headers admin) = Some ("admin", "s:3").
Proof.
  apply (proj2 (basic_credentials "admin" "s:3" ok_handler admin) "bAsIc " "admin" "s:3").
  - reflexivity.
  - reflexivity.
  - vm_compute. intros H. repeat (apply elem_of_cons in H as [H|H]; [discriminate|]). by apply elem_of_nil in H.
  - vm_compute. reflexivity.
Defined.

(** The server says who the user is; what the client claims to be is dropped. *)
Definition who (user : list string) : string -> header -> response + string :=
  fun _ h => if String.eqb (HGet h "X-Forwarded-Uri") "/x" then inl (mkResponse 204 {["X-User" := user]} (reader_eof "")) else inr "refused".
Definition fwd : ForwardAuthenticator := mkForward "http://auth" [] ["x-user"].
Definition liar : @Request string := request {["X-User" := ["root"]]}.

Lemma forward_guard_witness :
  exists r', ForwardServe (fun _ => true) (who ["bob"]) fwd ok_handler liar = ok_handler r' /\ headers r' !! "X-User" = Some ["bob"].
Proof.
  destruct (forward_guard (fun _ => true) (who ["bob"]) fwd ok_handler liar) as (r' & H1 & _ & _ & H2); [discriminate|reflexivity|].
  exists r'. split; [exact H1|]. rewrite H2. vm_compute. reflexivity.
Defined.

(** Tokens [alg.kid.issuer.audience.user], all of which expire at minute ten; a key set
    signs for the kids it holds. *)
Record d_token := mkTok { t_alg : string; t_kid : string; t_iss : string; t_aud : string; t_user : string }.

Definition d_parse (raw : string) (algs : list string) : option d_token :=
  match Split "." raw with
  | [a; k; i; d; u] => if bool_decide (a ∈ algs) then Some (mkTok a k i d u) else None
  | _ => None
  end.
Definition d_signed (t : d_token) (ks : JwksFacts.kids) : Prop := t_kid t ∈ ks.
Definition d_claims (t : d_token) (ks : JwksFacts.kids) : option (d_token * string) :=
  if bool_decide (t_kid t ∈ ks) then Some (t, t_user t) else None.
Definition d_validate (t : d_token) (e : Expected) (leeway : Z) : bool :=
  (String.eqb (Issuer_ e) "" || String.eqb (t_iss t) (Issuer_ e)) &&
  (bool_decide (AnyAudience e = []) || bool_decide (t_aud t ∈ AnyAudience e)) && (Time e - leeway <=? 10 * Minute).
Definition d_source (kid : string) : option JwksFacts.kids :=
  match Jwks.callers JwksFacts.st_later !! 2%nat with Some (Jwks.VDone (inl k)) => Some k | _ => None end.
Definition d_jwt : @JWTAuthenticator JwksFacts.kids := mkJWT [] (Some d_source) ["RS256"] "idp" "api" 0 "".
Definition bearer (t : string) : @Request string := request {["Authorization" := ["Bearer  " +:+ t]]}.

Lemma d_jose : Jose d_parse d_claims d_validate t_alg d_signed t_iss (fun t => [t_aud t])
  (fun _ => Some (10 * Minute)) (fun _ => None) (fun _ => None).
Proof.
  split.
  - intros raw algs tok. unfold d_parse. repeat (case_match; try done). intros; simplify_eq. by eapply bool_decide_eq_true_1.
  - intros tok k x. unfold d_claims. case_bool_decide; done.
  - intros t e leeway. unfold d_validate. rewrite !andb_true_iff, !orb_true_iff, !bool_decide_eq_true, !String.eqb_eq, Z.leb_le.
    split; [intros [[H1 H2] H3]|intros (H1 & H2 & H3 & _)].
    + split_and!; [done| |by intros ? [= <-]|done|done]. destruct H2; [by left|right; exists (t_aud t); set_solver].
    + split_and!; [done| |by apply H3]. destruct H2 as [|(a & Ha & ->%list_elem_of_singleton)]; auto.
Qed.

Lemma d_trusted src : KeySource d_jwt = Some src -> TrustedKeys (JwksFacts.fetched length JwksFacts.d_Decode JwksFacts.d_url JwksFacts.demo) src.
Proof.
  intros [= <-]. apply (jwks_trusted JwksFacts.d_Key). intros kid k Hk. exists JwksFacts.st_later, 2%nat.
  split; [exact JwksFacts.st_later_reached|]. revert Hk. vm_compute. congruence.
Qed.

Definition d_serve (now : Z) (t : string) : act :=
  JWTServe d_parse (fun t => Some (t_kid t)) d_claims d_validate Minute d_jwt now ok_handler (bearer t).

(** The right token is let through with its claims; one of another issuer is refused. *)
Lemma jwt_guard_witness :
  d_serve 0 "RS256.a.idp.api.bob" = ok_handler (mkRequest (base (bearer "RS256.a.idp.api.bob")) (Some "bob")) /\
  forall all, ~ entitled d_parse (fun t => Some (t_kid t)) d_claims Minute t_alg d_signed t_iss (fun t => [t_aud t])
    (fun _ => Some (10 * Minute)) (fun _ => None) (fun _ => None)
    (JwksFacts.fetched length JwksFacts.d_Decode JwksFacts.d_url JwksFacts.demo) d_jwt 0
    (headers (bearer "RS256.a.other.api.bob")) all.
Proof.
  pose proof (fun t => jwt_guard d_parse (fun t => Some (t_kid t)) d_claims d_validate Minute _ _ _ _ _ _ _ _
    d_jose d_jwt 0 ok_handler (bearer t) d_trusted) as H. split; [vm_compute; reflexivity|].
  destruct (H "RS256.a.other.api.bob") as [[_ H1]|(all & _ & Hs)]; [exact H1|].
  exfalso. vm_compute in Hs. discriminate Hs.
Defined.

(** Another algorithm, a key the source does not hold, another audience, or a minute
    and more past the expiry: refused. *)
Example jwt_refusals :
  Forall (fun p => d_serve p.1 p.2 = rejected "Bearer" "")
    [(0, "none.a.idp.api.bob"); (0, "RS256.zz.idp.api.bob"); (0, "RS256.a.idp.other.bob");
     (11 * Minute + 1, "RS256.a.idp.api.bob"); (0, "RS256")] /\
  d_serve (11 * Minute) "RS256.a.idp.api.bob" <> rejected "Bearer" "".
Proof. split; [repeat constructor; vm_compute; reflexivity|vm_compute; discriminate]. Qed.

End AuthnFacts.
