(* ===== verification/Timeout.v ===== *)
(** * Timeouts

    [src/pkg/timeout].  The write-header timeout runs the handler on one goroutine and a
    timer on another; both may write the response, and a mutex in the handler's wrapped
    writer decides.  A state holds net/http's writer, the wrapper's fields, what is left
    of the handler and where the timer goroutine is; a step is one critical section (or
    one unlocked call) of either.  The deadline of [requestdeadline.go] only derives a
    context. *)

From Stdlib Require Import Ascii.
From S2P Require Import Prelude GoStrings GoNet Middleware.

Module Timeout.

Record Timeout := mk { TimeoutHandler : option act; Timeout_ : Z }.

Definition New (timeout : Z) : Timeout := mk None timeout.

Definition timeout_handler (m : Timeout) : act :=
  default (http_Error "Gateway Timeout" 504) (TimeoutHandler m).

(** [Armed] until the timer goroutine has left its [select]. *)
Inductive timer := Armed | Ended.

Record state := mkState {
  w : rw;               (* the writer of the server *)
  header_ : header;     (* timeoutRW.header *)
  wroteHeader : bool;
  timeout : bool;
  rest : act;           (* what the handler still does *)
  returned : bool;
  ok : bool;            (* it did not panic *)
  tm : timer;
  late : bool;          (* the timer goroutine wrote after the handler had returned *)
}.

(** The server's writer has the headers set by outer middlewares. *)
Definition init (hd : header) (a : act) : state := mkState (mkRW hd None [] "") ∅ false false a false true Armed false.

(** [timeoutRW.WriteHeader]. *)
Definition t_WriteHeader (code : Z) (s : state) : state :=
  if wroteHeader s then s
  else
    let w' := if timeout s then w s
              else rw_WriteHeader code (mkRW (header_ s ∪ hdr (w s)) (sent (w s)) (early (w s)) (body (w s))) in
    mkState w' (header_ s) true (timeout s) (rest s) (returned s) (ok s) (tm s) (late s).

(** The last section of [timeoutRW.Write]. *)
Definition t_Write (data : string) (s : state) : state :=
  if timeout s then s
  else let w1 := rw_WriteHeader 200 (w s) in
       mkState (mkRW (hdr w1) (sent w1) (early w1) (body w1 +:+ data)) (header_ s) (wroteHeader s) (timeout s) (rest s)
         (returned s) (ok s) (tm s) (late s).

Definition with_rest (a : act) (s : state) : state :=
  mkState (w s) (header_ s) (wroteHeader s) (timeout s) a (returned s) (ok s) (tm s) (late s).
Definition with_w (x : rw) (s : state) : state :=
  mkState x (header_ s) (wroteHeader s) (timeout s) (rest s) (returned s) (ok s) (tm s) (late s).
Definition with_header_ (h : header) (s : state) : state :=
  mkState (w s) h (wroteHeader s) (timeout s) (rest s) (returned s) (ok s) (tm s) (late s).

(** The handler's goroutine.  A [Write] whose header is not written first writes it, in a
    section of its own.  When the handler returns the server sends a response that was
    not started. *)
Definition hstep (s : state) : option state :=
  if returned s then None
  else Some match rest s with
  | Done => mkState (rw_WriteHeader 200 (w s)) (header_ s) (wroteHeader s) (timeout s) Done true true (tm s) (late s)
  | Panic => mkState (w s) (header_ s) (wroteHeader s) (timeout s) Done true false (tm s) (late s)
  | ReadHeader k => with_rest (k (header_ s)) s
  | UpdateHeader f k => with_rest k (with_header_ (f (header_ s)) s)
  | WriteHeader code k => with_rest k (t_WriteHeader code s)
  | Write data k => if negb (wroteHeader s) then t_WriteHeader 200 s else with_rest k (t_Write data s)
  | Flush k => with_rest k (with_w (rw_WriteHeader 200 (w s)) s)
  end.

(** The timer goroutine when [time.After] delivers. *)
Definition fire (m : Timeout) (s : state) : state :=
  if wroteHeader s then mkState (w s) (header_ s) true (timeout s) (rest s) (returned s) (ok s) Ended (late s)
  else mkState (exec (timeout_handler m) (w s)).1 (header_ s) false true (rest s) (returned s) (ok s) Ended (returned s).

(** It leaves by [done] when the header is written, and by its context when the handler
    has returned or the client has gone, which may happen at any moment. *)
Inductive step (m : Timeout) : state -> state -> Prop :=
  | step_handler s s' : hstep s = Some s' -> step m s s'
  | step_fire s : tm s = Armed -> step m s (fire m s)
  | step_leave s : tm s = Armed ->
      step m s (mkState (w s) (header_ s) (wroteHeader s) (timeout s) (rest s) (returned s) (ok s) Ended (late s)).

(** [ServeHandler]: without a timeout the handler is called as it is. *)
Inductive serves (m : Timeout) (hd : header) (a : act) : rw -> Prop :=
  | serves_plain : Timeout_ m <= 0 -> serves m hd a (rw_WriteHeader 200 (exec a (mkRW hd None [] "")).1)
  | serves_timed s : 0 < Timeout_ m -> rtc (step m) (init hd a) s -> returned s = true -> ok s = true -> serves m hd a (w s).

End Timeout.

Module RequestDeadline.

(** The deadline of a context, if it has one; the handler is called with it. *)
Definition ServeHandler {A} (Timeout : Z) (h : option Z -> A) (now : Z) (deadline : option Z) : A :=
  if Timeout <=? 0 then h deadline
  else h (Some match deadline with Some d => Z.min d (now + Timeout) | None => now + Timeout end).

End RequestDeadline.

Module TimeoutFacts.
Import Timeout.

(** A handler that neither flushes nor sends an informational status. *)
Inductive steady : act -> Prop :=
  | steady_done : steady Done
  | steady_panic : steady Panic
  | steady_read k : (forall h, steady (k h)) -> steady (ReadHeader k)
  | steady_update f k : steady k -> steady (UpdateHeader f k)
  | steady_header code k : informational code = false -> steady k -> steady (WriteHeader code k)
  | steady_write d k : steady k -> steady (Write d k).

Lemma rw_200_idem x : rw_WriteHeader 200 (rw_WriteHeader 200 x) = rw_WriteHeader 200 x.
Proof. unfold rw_WriteHeader. destruct (sent x) as [y|] eqn:E; [by rewrite E|]. done. Qed.

Section Run.
Context (m : Timeout) (hd : header) (a : act).

Definition base : rw := mkRW hd None [] "".

(** [g] is net/http's writer as the handler alone would have left it. *)
Record inv (s : state) (g : rw) : Prop := {
  inv_run : exec a new_rw = if returned s then (g, ok s) else exec (rest s) g;
  inv_steady : steady (rest s);
  inv_hdr : returned s = false -> hdr g = header_ s;
  inv_phase :
    if timeout s then
      tm s = Ended /\ (late s = false ->
        w s = (if returned s && ok s then rw_WriteHeader 200 (exec (timeout_handler m) base).1 else (exec (timeout_handler m) base).1))
    else late s = false /\
      (if wroteHeader s
       then exists c h, sent g = Some (c, h) /\ sent (w s) = Some (c, h ∪ hd) /\ body (w s) = body g
       else sent g = None /\ body g = "" /\ w s = (if returned s && ok s then rw_WriteHeader 200 base else base));
}.

Lemma inv_init : steady a -> inv (init hd a) new_rw.
Proof. intros Ha. by split. Qed.

(** The header section keeps the invariant, with the reference writer's own. *)
Lemma inv_t_WriteHeader s g code :
  returned s = false -> informational code = false -> inv s g ->
  let g' := rw_WriteHeader code g in
  hdr g' = header_ s /\
  if timeout s then w (t_WriteHeader code s) = w s
  else exists c h, sent g' = Some (c, h) /\ sent (w (t_WriteHeader code s)) = Some (c, h ∪ hd) /\ body (w (t_WriteHeader code s)) = body g'.
Proof.
  intros Hr Hi [H1 H2 H3 H4] g'. specialize (H3 Hr). split; [unfold g', rw_WriteHeader; by repeat case_match|].
  unfold t_WriteHeader. destruct (timeout s) eqn:Ht; [by destruct (wroteHeader s)|]. destruct H4 as [_ H4]. destruct (wroteHeader s) eqn:Hw.
  - destruct H4 as (c & h & E1 & E2 & E3). exists c, h. unfold g', rw_WriteHeader. rewrite E1. done.
  - destruct H4 as (E1 & E2 & E3). rewrite Hr in E3. cbn in E3. exists code, (header_ s). unfold g', rw_WriteHeader.
    rewrite E1, E3. cbn [w base hdr sent early body]. rewrite Hi. cbn. rewrite ?E2, ?H3. done.
Qed.

Lemma t_WriteHeader_fields code s :
  let s' := t_WriteHeader code s in
  header_ s' = header_ s /\ wroteHeader s' = true /\ timeout s' = timeout s /\ rest s' = rest s /\ returned s' = returned s /\
  ok s' = ok s /\ tm s' = tm s /\ late s' = late s.
Proof. unfold t_WriteHeader. destruct (wroteHeader s) eqn:E; cbn; by split_and!. Qed.

Lemma inv_header s g code k :
  returned s = false -> informational code = false -> inv s g -> steady k -> exec a new_rw = exec k (rw_WriteHeader code g) ->
  inv (with_rest k (t_WriteHeader code s)) (rw_WriteHeader code g).
Proof.
  intros Hr Hi Hinv Hk Hrun. destruct (inv_t_WriteHeader s g code Hr Hi Hinv) as [E1 E2]. destruct Hinv as [H1 H2 H3 H4].
  destruct (t_WriteHeader_fields code s) as (F1 & F2 & F3 & F4 & F5 & F6 & F7 & F8).
  split; cbn [rest returned with_rest header_ timeout wroteHeader late tm ok w]; rewrite ?F1, ?F2, ?F3, ?F5, ?F6, ?F7, ?F8, ?Hr in *; try done.
  destruct (timeout s); [|split; [apply H4|exact E2]]. rewrite E2. exact H4.
Qed.

Lemma inv_hstep s s' g : inv s g -> hstep s = Some s' -> exists g', inv s' g'.
Proof.
  intros Hinv Hs. unfold hstep in Hs. destruct (returned s) eqn:Hr; [done|]. pose proof Hinv as [H1 H2 H3 H4]. rewrite Hr in H1. specialize (H3 Hr).
  remember (rest s) as p eqn:Hp. destruct H2 as [| |k Hk|f k Hk|code k Hc Hk|d k Hk]; simplify_eq.
  - exists g. split; cbn; [done|constructor|done|]. rewrite Hr in H4. destruct (timeout s).
    + destruct H4 as [H4 H5]. split; [done|]. intros Hl. by rewrite (H5 Hl).
    + destruct H4 as [H4 H5]. split; [done|]. destruct (wroteHeader s); [|destruct H5 as (E1 & E2 & E3); by rewrite E3].
      destruct H5 as (c & h & E1 & E2 & E3). exists c, h. unfold rw_WriteHeader. by rewrite E2.
  - exists g. split; cbn; [done|constructor|done|]. by rewrite Hr in H4.
  - exists g. split; cbn; [rewrite Hr, H1; cbn; by rewrite H3|apply Hk|done|done].
  - exists (mkRW (f (hdr g)) (sent g) (early g) (body g)). split; cbn; [by rewrite Hr, H1|done|by rewrite H3|done].
  - exists (rw_WriteHeader code g). by apply inv_header.
  - destruct (wroteHeader s) eqn:Hw; cbn.
    + exists (let x := rw_WriteHeader 200 g in mkRW (hdr x) (sent x) (early x) (body x +:+ d)).
      assert (hdr (rw_WriteHeader 200 g) = header_ s) as Hh by (unfold rw_WriteHeader; by repeat case_match).
      unfold t_Write. destruct (timeout s) eqn:Ht; (split; cbn; rewrite ?Hr, ?Ht, ?Hw in *; try done).
      destruct H4 as [H4 (c & h & E1 & E2 & E3)]. split; [done|]. exists c, h. unfold rw_WriteHeader. rewrite E1, E2. cbn. by rewrite E3.
    + exists (rw_WriteHeader 200 g). pose proof (inv_header s g 200 (Write d k) Hr eq_refl Hinv) as Hih.
      destruct (t_WriteHeader_fields 200 s) as (F1 & F2 & F3 & F4 & F5 & F6 & F7 & F8).
      assert (with_rest (Write d k) (t_WriteHeader 200 s) = t_WriteHeader 200 s) as E.
      { rewrite <- Hp in F4. destruct (t_WriteHeader 200 s). unfold with_rest. cbn in *. congruence. }
      rewrite E in Hih. apply Hih; [by constructor|]. rewrite H1. cbn. by rewrite rw_200_idem.
Qed.

Lemma timeout_inv_step s s' g : step m s s' -> inv s g -> exists g', inv s' g'.
Proof.
  intros [s0 s1 Hs|s0 Ht|s0 Ht] Hinv; [by eapply inv_hstep|..]; exists g; pose proof Hinv as [H1 H2 H3 H4].
  - unfold fire. destruct (wroteHeader s0) eqn:Hw; [split; cbn; try done|].
    + destruct (timeout s0); [by destruct H4 as [? ?]|]. rewrite ?Hw in H4. exact H4.
    + destruct (timeout s0) eqn:Hto; [destruct H4; congruence|]. destruct H4 as (H4 & E1 & E2 & E3). split; cbn; try done.
      split; [done|]. intros Hl. rewrite Hl in E3. cbn in E3. by rewrite Hl, E3.
  - split; cbn; try done. destruct (timeout s0); [|done]. by destruct H4 as [? ?].
Qed.

Lemma timeout_reachable s : steady a -> rtc (step m) (init hd a) s -> exists g, inv s g.
Proof.
  intros Ha Hr. assert (exists g, inv (init hd a) g) as H0 by (eexists; by apply inv_init). revert H0.
  induction Hr as [|s0 s1 s2 Hs _ IH]; [done|]. intros [g Hg]. apply IH. by eapply timeout_inv_step.
Qed.

End Run.

(** C28: All or nothing, for a handler that neither flushes nor sends an informational
    (1xx) status. However such a handler and the timer interleave, when the handler
    has returned without a panic (and the timer goroutine did not write after that)
    the client's response is either exactly the timeout handler's, or exactly the
    handler's own: its status, its headers over those set by outer middlewares, its
    whole body. The timeout answers only if the handler had not written its header; a
    handler that writes nothing leaves an empty 200 with the outer headers alone. The
    restriction is needed: a flush before the first write, or a 1xx status, lets the
    two responses mix or loses the final status. *)
Theorem timeout_all_or_nothing m hd a s :
  steady a -> rtc (step m) (init hd a) s -> returned s = true -> ok s = true -> late s = false ->
  if timeout s
  then w s = rw_WriteHeader 200 (exec (timeout_handler m) (base hd)).1
  else match sent (exec a new_rw).1 with
       | Some (c, h) => sent (w s) = Some (c, h ∪ hd) /\ body (w s) = body (exec a new_rw).1
       | None => w s = mkRW hd (Some (200, hd)) [] ""
       end.
Proof.
  intros Ha Hr Hret Hok Hl. destruct (timeout_reachable m hd a s Ha Hr) as (g & [H1 H2 H3 H4]). rewrite Hret, Hok in *.
  destruct (timeout s); [by apply H4|]. destruct H4 as [_ H4]. rewrite H1. cbn [fst]. destruct (wroteHeader s).
  - destruct H4 as (c & h & -> & E2 & E3). done.
  - destruct H4 as (-> & _ & ->). done.
Qed.

(** ** Runs *)

Inductive event := Hnd | Fire | Leave.
Definition play1 (m : Timeout) (e : event) (s : state) : option state :=
  match e, tm s with
  | Hnd, _ => hstep s
  | Fire, Armed => Some (fire m s)
  | Leave, Armed => Some (mkState (w s) (header_ s) (wroteHeader s) (timeout s) (rest s) (returned s) (ok s) Ended (late s))
  | _, Ended => None
  end.
Fixpoint play (m : Timeout) (es : list event) (s : state) : option state :=
  match es with [] => Some s | e :: es => s ← play1 m e s; play m es s end.

Lemma timeout_play m es s s' : play m es s = Some s' -> rtc (step m) s s'.
Proof.
  revert s. induction es as [|e es IH]; intros s H; cbn in H; simplify_eq; [done|].
  destruct (play1 m e s) as [s1|] eqn:E; cbn in H; [|done]. eapply rtc_l; [|by apply IH].
  destruct e; cbn in E; [by apply step_handler|..]; destruct (tm s) eqn:Ht; simplify_eq; [by apply step_fire|by apply step_leave].
Qed.

Definition hello : act := UpdateHeader <["X" := ["1"]]> (WriteHeader 201 (Write "hel" (Write "lo" Done))).
Definition m5 : Timeout := New (5 * Second).
Definition outer : header := {["X" := ["0"]; "Y" := ["y"]]}.
Definition after (a : act) (es : list event) : state := default (init outer a) (play m5 es (init outer a)).

Example timeout_runs :
  (fun s => (fst <$> sent (w s), body (w s))) (after hello [Hnd; Hnd; Fire; Hnd; Hnd; Hnd]) = (Some 201, "hello") /\
  (fun s => (fst <$> sent (w s))) (after hello [Hnd; Fire; Hnd; Hnd; Hnd; Hnd]) = Some 504.
Proof. vm_compute. done. Qed.

Lemma timeout_all_or_nothing_witness :
  sent (w (after hello [Hnd; Hnd; Fire; Hnd; Hnd; Hnd])) = Some (201, <["X" := ["1"]]> ∅ ∪ outer) /\
  w (after hello [Hnd; Fire; Hnd; Hnd; Hnd; Hnd]) = rw_WriteHeader 200 (exec (timeout_handler m5) (base outer)).1.
Proof.
  assert (steady hello) as Hst by (repeat constructor). split.
  - refine (proj1 (timeout_all_or_nothing m5 outer hello (after hello [Hnd; Hnd; Fire; Hnd; Hnd; Hnd]) Hst _ _ _ _));
      [|vm_compute; reflexivity..]. apply (timeout_play _ [Hnd; Hnd; Fire; Hnd; Hnd; Hnd]). vm_compute. reflexivity.
  - refine (timeout_all_or_nothing m5 outer hello (after hello [Hnd; Fire; Hnd; Hnd; Hnd; Hnd]) Hst _ _ _ _);
      [|vm_compute; reflexivity..]. apply (timeout_play _ [Hnd; Fire; Hnd; Hnd; Hnd; Hnd]). vm_compute. reflexivity.
Defined.

(** Headers set by a handler that writes nothing never reach the client. *)
Example timeout_headers_lost :
  let a := UpdateHeader <["X" := ["1"]]> Done in
  sent (w (after a [Hnd; Hnd])) = Some (200, outer) /\ (sent (respond a)) = Some (200, {["X" := ["1"]]}).
Proof. vm_compute. done. Qed.

(** A flush before the first write sends an empty 200 without the handler's headers, and
    the timer, which still sees no header, then adds its message to the body. *)
Example timeout_flush_mixes :
  let a := UpdateHeader <["X" := ["1"]]> (Flush (Write "data" Done)) in
  (fun s => (sent (w s), body (w s))) (after a [Hnd; Hnd; Fire; Hnd; Hnd; Hnd]) =
    (Some (200, outer), "Gateway Timeout" +:+ String "010"%char "").
Proof. vm_compute. done. Qed.

(** An informational status is taken for the final one. *)
Example timeout_early_hints :
  let a := WriteHeader 103 (WriteHeader 404 (Write "no" Done)) in
  (fst <$> sent (w (after a [Hnd; Hnd; Hnd; Hnd]))) = Some 200 /\ (fst <$> sent (respond a)) = Some 404.
Proof. vm_compute. done. Qed.

(** The timer can win its [select] after the handler returned without writing: it then
    writes to a response that is over. *)
Example timeout_late_write :
  (fun s => (late s, fst <$> sent (w s), body (w s))) (after Done [Hnd; Fire]) =
    (true, Some 200, "Gateway Timeout" +:+ String "010"%char "").
Proof. vm_compute. done. Qed.

End TimeoutFacts.
