(* ===== verification/BodyLimit.v ===== *)
(** * Request bodies: limiting and buffering

    [src/pkg/body].  A handler here also reads the request body, so it is a tree of reads
    and of calls on the response writer.  A body delivers its bytes in pieces of any
    size, then its end, the end of file or an error, for ever. *)

From Stdlib Require Import Ascii.
From S2P Require Import Prelude GoStrings GoNet GoIO Middleware.

(** [final] is [None] for the end of file. *)
Record source := mkSource { chunks : list string; final : option string }.

(** What a [Read] reports: nil, [io.EOF], or an error. *)
Inductive rerr := Nil | EOF | Err (e : string).
Definition end_of (s : source) : rerr := match final s with None => EOF | Some e => Err e end.

(** [body.Read(p)] with [len(p) = n]. *)
Definition Read (n : Z) (s : source) : string * rerr * source :=
  match chunks s with
  | [] => ("", end_of s, s)
  | c :: cs =>
      if Z.of_nat (String.length c) <=? n then (c, Nil, mkSource cs (final s))
      else (strtake (Z.to_nat n) c, Nil, mkSource (strdrop (Z.to_nat n) c :: cs) (final s))
  end.

Definition content (s : source) : string := foldr (fun c t => c +:+ t) "" (chunks s).
Definition size (s : source) : Z := Z.of_nat (String.length (content s)).

Inductive hact :=
  | HDone
  | HRead (n : Z) (k : string -> rerr -> hact)
  | HUpdate (f : header -> header) (k : hact)
  | HWriteHeader (code : Z) (k : hact)
  | HWrite (data : string) (k : hact).

(** Without a limiter: the response, and the bytes the handler was given. *)
Fixpoint direct (a : hact) (s : source) (w : rw) (got : string) : rw * string :=
  match a with
  | HDone => (w, got)
  | HRead n k => let '(d, err, s) := Read n s in direct (k d err) s w (got +:+ d)
  | HUpdate f k => direct k s (mkRW (f (hdr w)) (sent w) (early w) (body w)) got
  | HWriteHeader code k => direct k s (rw_WriteHeader code w) got
  | HWrite d k => let w := rw_WriteHeader 200 w in direct k s (mkRW (hdr w) (sent w) (early w) (body w +:+ d)) got
  end.

Module BodyLimit.

Record RequestLimiter := mk { Size : Z; LimitedHandler : option act }.
Definition LimitRequest (n : Z) : RequestLimiter := mk n None.

Definition limited_handler (m : RequestLimiter) : act :=
  default (http_Error "Request Entity Too Large" 413) (LimitedHandler m).

(** How a request went: the response, the bytes the handler was given, how often the
    limited handler ran (each time it also cancels the handler's context). *)
Record result := mkResult { resp : rw; given : string; refusals : nat }.

(** The handler with the counting reader in place of its body; [k] bytes are left. *)
Fixpoint counted (lh : act) (a : hact) (k : Z) (s : source) (r : result) : result :=
  let w := resp r in
  match a with
  | HDone => r
  | HRead n kont =>
      if k <=? 0 then counted lh (kont "" EOF) k s (mkResult (exec lh w).1 (given r) (S (refusals r)))
      else let '(d, err, s) := Read (if k <? n then k else n) s in
           counted lh (kont d err) (k - Z.of_nat (String.length d)) s (mkResult w (given r +:+ d) (refusals r))
  | HUpdate f kont => counted lh kont k s (mkResult (mkRW (f (hdr w)) (sent w) (early w) (body w)) (given r) (refusals r))
  | HWriteHeader code kont => counted lh kont k s (mkResult (rw_WriteHeader code w) (given r) (refusals r))
  | HWrite d kont =>
      let w := rw_WriteHeader 200 w in
      counted lh kont k s (mkResult (mkRW (hdr w) (sent w) (early w) (body w +:+ d)) (given r) (refusals r))
  end.

Definition ServeHandler (m : RequestLimiter) (h : hact) (ContentLength : Z) (s : source) (w : rw) : result :=
  let plain := let '(w', got) := direct h s w "" in mkResult w' got 0 in
  if Size m <? 0 then plain
  else if 0 <=? ContentLength then
    if Size m <? ContentLength then mkResult (exec (limited_handler m) w).1 "" 1 else plain
  else counted (limited_handler m) h (Size m) s (mkResult w "" 0).

End BodyLimit.

Module BodyBuffer.

(** [pool.Size()]. *)
Definition bufferSize : Z := 16 * 1024.

(** The request as the bufferer sees it. *)
Record Request := mkRequest { ContentLength : Z; TransferEncoding : list string; Body : source }.

Definition of_bytes (b : string) : source := mkSource (if String.eqb b "" then [] else [b]) None.

(** [io.ReadAtLeast(body, buf, min)] with [n] bytes read so far. *)
Fixpoint ReadAtLeast (min : Z) (cs : list string) (e : rerr) (got : string) : string * rerr :=
  let n := Z.of_nat (String.length got) in
  if min <=? n then (got, Nil)
  else match cs with
       | [] => (got, match e with EOF => if 0 <? n then Err "unexpected EOF" else EOF | _ => e end)
       | c :: cs =>
           if Z.of_nat (String.length c) <=? bufferSize - n then ReadAtLeast min cs e (got +:+ c)
           else (got +:+ strtake (Z.to_nat (bufferSize - n)) c, Nil)
       end.

(** What the file system and the client do meanwhile: whether the temporary file can be
    made and written, and whether the client has gone when the body is in. *)
Record env := mkEnv { CreateTemp : bool; write_ok : bool; canceled : bool }.

(** The request the next handler is called with; [None] when it is not called. *)
Definition ServeHandler (v : env) (r : Request) : option Request :=
  if ContentLength r =? 0 then Some r
  else if (0 <? ContentLength r) && (ContentLength r <=? bufferSize) then
    let '(b, err) := ReadAtLeast (ContentLength r) (chunks (Body r)) (end_of (Body r)) "" in
    match err with
    | Err _ => None
    | _ => if canceled v then None else Some (mkRequest (ContentLength r) (TransferEncoding r) (of_bytes b))
    end
  else if negb (CreateTemp v) then Some r
  else match end_of (Body r) with
       | Err _ => None
       | _ => if negb (write_ok v) || canceled v then None
              else Some (mkRequest (size (Body r)) [] (of_bytes (content (Body r))))
       end.

End BodyBuffer.

Module BodyFacts.
Import BodyLimit.

(** A read gives the next bytes and leaves the others. *)
Lemma Read_content n s d err s' : Read n s = (d, err, s') -> content s = d +:+ content s' /\ final s' = final s.
Proof.
  unfold Read, content. destruct s as [[|c cs] f]; cbn [chunks final]; [intros; by simplify_eq|].
  case_match; intros; simplify_eq; cbn; [done|]. split; [|done]. by rewrite <- append_assoc, strtake_drop.
Qed.

Lemma Read_length n s d err s' : 0 <= n -> Read n s = (d, err, s') -> Z.of_nat (String.length d) <= n.
Proof.
  unfold Read. intros Hn. destruct (chunks s) as [|c cs]; [intros; simplify_eq; cbn; lia|].
  destruct (Z.leb_spec (Z.of_nat (String.length c)) n); intros; simplify_eq; [lia|]. rewrite strtake_length. lia.
Qed.

Lemma size_split d s s' : content s = d +:+ content s' -> size s = Z.of_nat (String.length d) + size s'.
Proof. intros H. unfold size. rewrite H, append_length. lia. Qed.
Lemma size_nonneg s : 0 <= size s.
Proof. unfold size. lia. Qed.

(** A buffer cut to [k] bytes makes no difference to a body shorter than that. *)
Lemma Read_cut k n s : size s < k -> Read (if k <? n then k else n) s = Read n s.
Proof.
  intros Hs. destruct (Z.ltb_spec k n) as [Hn|]; [|done]. unfold Read, size, content in *. destruct (chunks s) as [|c cs]; [done|].
  cbn in Hs. rewrite append_length in Hs. rewrite !(proj2 (Z.leb_le _ _)) by lia. done.
Qed.

Section Limit.
Context (lh : act).

(** Every read asks for a buffer of some length. *)
Inductive reads_ok : hact -> Prop :=
  | ok_done : reads_ok HDone
  | ok_read n k : 0 <= n -> (forall d e, reads_ok (k d e)) -> reads_ok (HRead n k)
  | ok_update f k : reads_ok k -> reads_ok (HUpdate f k)
  | ok_header c k : reads_ok k -> reads_ok (HWriteHeader c k)
  | ok_write d k : reads_ok k -> reads_ok (HWrite d k).

(** Below the limit the counting reader is not there. *)
Lemma counted_transparent a k s r :
  size s < k -> counted lh a k s r = let '(w, got) := direct a s (resp r) (given r) in mkResult w got (refusals r).
Proof.
  revert k s r. induction a as [|n kont IH|f kont IH|c kont IH|d kont IH]; intros k s r Hs; cbn [counted direct].
  - by destruct r.
  - pose proof (size_nonneg s). destruct (Z.leb_spec k 0); [lia|]. rewrite Read_cut by done.
    destruct (Read n s) as [[d err] s'] eqn:E. apply Read_content in E as [E _]. apply size_split in E. rewrite IH by lia. done.
  - by rewrite IH.
  - by rewrite IH.
  - by rewrite IH.
Qed.

(** The bytes given are a prefix of the body, at most [k] of them, and the limited handler
    runs only when [k] of them have been given. *)
Lemma counted_bounded a k s r :
  reads_ok a -> 0 <= k ->
  exists d s', given (counted lh a k s r) = given r +:+ d /\ content s = d +:+ s' /\ Z.of_nat (String.length d) <= k /\
    (refusals (counted lh a k s r) <> refusals r -> Z.of_nat (String.length d) = k).
Proof.
  intros Ha. revert k s r. induction Ha as [|n kont Hn _ IH|f kont _ IH|c kont _ IH|d kont _ IH]; intros k s r Hk; cbn [counted].
  - exists "", (content s). rewrite append_nil_r. cbn. split_and!; [done|done|lia|done].
  - destruct (Z.leb_spec k 0) as [H0|H0].
    + assert (k = 0) as -> by lia. edestruct (IH "" EOF 0 s) as (d & s' & H1 & H2 & H3 & _); [lia|].
      exists d, s'. split_and!; [exact H1|done|done|]. intros _. lia.
    + destruct (Read _ s) as [[d err] s1] eqn:E. pose proof (Read_content _ _ _ _ _ E) as [Hc _].
      assert (Z.of_nat (String.length d) <= k) as Hd.
      { apply Read_length in E; destruct (Z.ltb_spec k n); lia. }
      edestruct (IH d err (k - Z.of_nat (String.length d)) s1) as (d' & s' & H1 & H2 & H3 & H4); [lia|].
      exists (d +:+ d'), s'. rewrite H1, Hc, H2. cbn [given]. rewrite !append_assoc, append_length. split_and!; [done|done|lia|].
      intros Hr. specialize (H4 Hr). lia.
  - apply (IH k s (mkResult _ _ _) Hk).
  - apply (IH k s (mkResult _ _ _) Hk).
  - apply (IH k s (mkResult _ _ _) Hk).
Qed.

End Limit.

(** The body limit, for a limit that is not negative and a handler that does
    anything. With a known length, the handler runs untouched if the length is within
    the limit and not at all otherwise. With an unknown length, the handler is given a
    prefix of the body of at most [Size] bytes; a body shorter than [Size] is handled
    as if there were no limiter; and the limited handler runs only if [Size] bytes
    were given. *)
Theorem body_limit m h cl s w :
  0 <= Size m -> reads_ok h ->
  let r := ServeHandler m h cl s w in
  let plain := let '(w', got) := direct h s w "" in mkResult w' got 0 in
  (0 <= cl -> r = if Size m <? cl then mkResult (exec (limited_handler m) w).1 "" 1 else plain) /\
  (cl < 0 ->
    (exists rest, content s = given r +:+ rest) /\ Z.of_nat (String.length (given r)) <= Size m /\
    (refusals r <> 0%nat -> Z.of_nat (String.length (given r)) = Size m) /\
    (size s < Size m -> r = plain)).
Proof.
  intros Hm Hh r plain. subst r plain. unfold ServeHandler. destruct (Z.ltb_spec (Size m) 0); [lia|]. destruct (Z.leb_spec 0 cl); [split; [done|lia]|].
  split; [lia|]. intros _. destruct (counted_bounded (limited_handler m) h (Size m) s (mkResult w "" 0) Hh Hm) as (d & s' & H1 & H2 & H3 & H4).
  cbn [given refusals] in *. rewrite H1. split_and!; [by exists s'|done|done|]. intros Hs. by rewrite counted_transparent.
Qed.

Import BodyBuffer.

Lemma ReadAtLeast_spec min cs e got b err :
  ReadAtLeast min cs e got = (b, err) -> Z.of_nat (String.length (got +:+ foldr (fun c t => c +:+ t) "" cs)) <= min -> 0 < min <= bufferSize ->
  let all := got +:+ foldr (fun c t => c +:+ t) "" cs in
  if Z.of_nat (String.length all) =? min then err = Nil /\ b = all
  else b = all /\ err = match e with EOF => if 0 <? Z.of_nat (String.length all) then Err "unexpected EOF" else EOF | _ => e end.
Proof.
  revert got. induction cs as [|c cs IH]; intros got H Hl Hm; cbn in *.
  - rewrite append_nil_r in *. destruct (Z.leb_spec min (Z.of_nat (String.length got))); simplify_eq.
    + destruct (Z.eqb_spec (Z.of_nat (String.length b)) min); [done|lia].
    + destruct (Z.eqb_spec (Z.of_nat (String.length b)) min); [lia|done].
  - rewrite !append_length in Hl. destruct (Z.leb_spec min (Z.of_nat (String.length got))) as [Hg|Hg]; simplify_eq.
    + assert (String.length c = 0%nat /\ String.length (foldr (fun c t => c +:+ t) "" cs) = 0%nat) as [E1 E2] by lia.
      destruct c; [|done]. destruct (foldr _ _ cs); [|done]. change ("" +:+ "") with "". rewrite append_nil_r.
      destruct (Z.eqb_spec (Z.of_nat (String.length b)) min); [done|lia].
    + destruct (Z.leb_spec (Z.of_nat (String.length c)) (bufferSize - Z.of_nat (String.length got))); [|lia].
      rewrite <- append_assoc. apply IH; [done| |done]. rewrite !append_length. lia.
Qed.

Lemma content_of_bytes b : content (of_bytes b) = b /\ final (of_bytes b) = None.
Proof. unfold of_bytes, content. destruct (String.eqb_spec b ""); cbn; [by subst|]. split; [apply append_nil_r|done]. Qed.

(** Buffering. Unless its length is given as zero or no temporary file can be
    made, the next handler is called only once the whole body is in: the body it gets
    is the whole content, then the end of file, and never an error; and a body that
    breaks off is never passed on, save the one case of a body announced but wholly
    missing. A body without a length, or larger than the buffer, is passed on with its
    true length and no transfer encoding. A complete body is passed on unless the
    client has gone. *)
Theorem buffer_request v r :
  let c := content (Body r) in
  (0 < ContentLength r -> size (Body r) <= ContentLength r) ->
  ContentLength r <> 0 -> CreateTemp v = true ->
  (forall r', ServeHandler v r = Some r' ->
     content (Body r') = c /\ final (Body r') = None /\ canceled v = false /\
     (0 < ContentLength r <= bufferSize -> ContentLength r' = ContentLength r /\ (size (Body r) = ContentLength r \/ c = "")) /\
     (~ 0 < ContentLength r <= bufferSize -> ContentLength r' = size (Body r) /\ TransferEncoding r' = [] /\ final (Body r) = None)) /\
  (final (Body r) = None -> write_ok v = true -> canceled v = false ->
   (0 < ContentLength r -> size (Body r) = ContentLength r) -> exists r', ServeHandler v r = Some r').
Proof.
  intros c Hsz H0 Ht. subst c. unfold ServeHandler. destruct (Z.eqb_spec (ContentLength r) 0); [lia|].
  destruct ((0 <? ContentLength r) && (ContentLength r <=? bufferSize)) eqn:Hc.
  - assert (0 < ContentLength r <= bufferSize) as Hr by (bool_prop; lia).
    destruct (ReadAtLeast _ _ _ _) as [b err] eqn:E. apply ReadAtLeast_spec in E; [|apply Hsz; lia|done].
    change ("" +:+ foldr (fun c t => c +:+ t) "" (chunks (Body r))) with (content (Body r)) in E. fold (size (Body r)) in E.
    destruct (Z.eqb_spec (size (Body r)) (ContentLength r)) as [Hs|Hs].
    + destruct E as [-> ->]. split.
      * intros r' H. destruct (canceled v); simplify_eq. cbn [Body ContentLength TransferEncoding]. destruct (content_of_bytes (content (Body r))) as [-> ->].
        split_and!; try done; intros; (split; [done|by left]) || lia.
      * intros _ _ -> _. eauto.
    + destruct E as [-> ->]. split; [|intros; lia].
      intros r' H. unfold end_of in H. destruct (final (Body r)); [done|]. destruct (Z.ltb_spec 0 (size (Body r))); [done|].
      destruct (canceled v); simplify_eq. cbn [Body ContentLength TransferEncoding]. destruct (content_of_bytes (content (Body r))) as [-> ->].
      split_and!; try done. intros _. split; [done|].
      right. unfold size in *. destruct (content (Body r)); [done|cbn in *; lia].
  - rewrite Ht. cbn [negb]. assert (~ 0 < ContentLength r <= bufferSize) as Hr by (bool_prop; lia). split.
    + intros r' H. unfold end_of in H. destruct (final (Body r)); [done|]. destruct (write_ok v), (canceled v); cbn [negb orb] in H; simplify_eq. cbn [Body ContentLength TransferEncoding].
      destruct (content_of_bytes (content (Body r))) as [-> ->]. split_and!; try done.
    + intros Hf -> -> _. unfold end_of. rewrite Hf. cbn. eauto.
Qed.

(** ** Runs *)

(** Read to the end, in buffers of eight bytes, then answer with what was read. *)
Fixpoint echo (fuel : nat) (acc : string) : hact :=
  match fuel with
  | O => HWrite acc HDone
  | S fuel => HRead 8 (fun d e => match e with Nil => echo fuel (acc +:+ d) | _ => HWrite (acc +:+ d) HDone end)
  end.

Lemma echo_reads fuel acc : reads_ok (echo fuel acc).
Proof. revert acc. induction fuel as [|fuel IH]; intros acc; cbn; [by repeat constructor|]. constructor; [lia|]. intros d []; [apply IH|by repeat constructor..]. Qed.

Definition five : source := mkSource ["he"; "llo"] None.
Definition lim (n : Z) : RequestLimiter := LimitRequest n.

Example body_limit_run :
  (fun r => (given r, refusals r, body (resp r))) (BodyLimit.ServeHandler (lim 6) (echo 9 "") (-1) five new_rw) = ("hello", 0%nat, "hello") /\
  (fun r => (given r, refusals r, fst <$> sent (resp r))) (BodyLimit.ServeHandler (lim 4) (echo 9 "") (-1) five new_rw) = ("hell", 1%nat, Some 413).
Proof. vm_compute. done. Qed.

Lemma body_limit_witness :
  BodyLimit.ServeHandler (lim 6) (echo 9 "") (-1) five new_rw =
  (let '(w', got) := direct (echo 9 "") five new_rw "" in mkResult w' got 0).
Proof.
  apply (proj2 (body_limit (lim 6) (echo 9 "") (-1) five new_rw ltac:(cbn; lia) (echo_reads 9 "")) ltac:(lia)). vm_compute. reflexivity.
Defined.

(** A body of exactly [Size] bytes passes with a length and is refused without one: the
    read that would find the end of file is the one that refuses. *)
Example body_limit_boundary :
  fst <$> sent (resp (BodyLimit.ServeHandler (lim 5) (echo 9 "") 5 five new_rw)) = Some 200 /\
  fst <$> sent (resp (BodyLimit.ServeHandler (lim 5) (echo 9 "") (-1) five new_rw)) = Some 413.
Proof. vm_compute. done. Qed.

(** Every read past the limit runs the limited handler again, and the handler, which saw a
    plain end of file, adds its own answer. *)
Example body_limit_twice :
  let h := HRead 8 (fun _ _ => HRead 8 (fun _ _ => HRead 8 (fun _ _ => HWrite "done" HDone))) in
  (fun r => (refusals r, body (resp r))) (BodyLimit.ServeHandler (lim 2) h (-1) five new_rw) =
  (2%nat, let msg := "Request Entity Too Large" +:+ String "010"%char "" in msg +:+ msg +:+ "done").
Proof. vm_compute. done. Qed.

Definition chunked (s : source) : Request := mkRequest (-1) ["chunked"] s.
Definition fine : env := mkEnv true true false.

Lemma buffer_request_witness :
  exists r', BodyBuffer.ServeHandler fine (chunked five) = Some r' /\ content (Body r') = "hello" /\ ContentLength r' = 5.
Proof.
  destruct (buffer_request fine (chunked five)) as [H1 H2]; [cbn; lia|cbn; lia|reflexivity|].
  destruct (H2 eq_refl eq_refl eq_refl ltac:(cbn; lia)) as [r' Hr]. exists r'. split; [exact Hr|].
  destruct (H1 r' Hr) as (E1 & _ & _ & _ & E2). split; [exact E1|]. apply E2. vm_compute. intros [??]; congruence.
Defined.

(** A body announced with five bytes of which none came is passed on as an empty one. *)
Example buffer_missing_body :
  BodyBuffer.ServeHandler fine (mkRequest 5 [] (mkSource [] None)) = Some (mkRequest 5 [] (mkSource [] None)) /\
  BodyBuffer.ServeHandler fine (mkRequest 5 [] (mkSource ["he"] None)) = None.
Proof. vm_compute. done. Qed.

End BodyFacts.
