(* ===== verification/Redis.v ===== *)
(** * pkg/ratelimit: the Redis-backed fixed window

    [src/pkg/ratelimit/redis.go].  The counters live in Redis, behind the injected
    [RedisRunner]: a class of stores on which the script has the effect Redis documents
    for INCR and PEXPIRE.  Any number of proxy instances, each with its own clock, share
    one store; it is also a [Strategy] like the others. *)

From Stdlib Require Import Ascii.
From stdpp Require Import pretty.
From S2P Require Import Prelude Http RateLimit GoStrings GoNet.

Module Redis.

Definition fixedWindowScript : string :=
  "local n = redis.call('INCR', KEYS[1])" +:+ String "010"%char
  ("if n == 1 then redis.call('PEXPIRE', KEYS[1], ARGV[1]) end" +:+ String "010"%char "return n").

Definition defaultRedisPrefix : string := "parapet:rl:".

(** The interface: run a script, get its integer reply or an error. *)
Class RedisRunner (R : Type) := EvalScript : R -> string -> list string -> list Z -> R * (Z + string).

(** The configuration as the code resolves it on first use; [Runner] may be nil. *)
Record RedisFixedWindowStrategy := mk {
  HasRunner : bool;
  Max : Z;
  Size : Z;
  Prefix : string;
  Timeout : Z;
  FailOpen : bool;
}.

Definition RedisFixedWindow (rate unit : Z) : RedisFixedWindowStrategy := mk true rate unit "" 0 true.
Definition RedisFixedWindowPerSecond (rate : Z) : RedisFixedWindowStrategy := RedisFixedWindow rate Second.
Definition RedisFixedWindowPerMinute (rate : Z) : RedisFixedWindowStrategy := RedisFixedWindow rate Minute.
Definition RedisFixedWindowPerHour (rate : Z) : RedisFixedWindowStrategy := RedisFixedWindow rate Hour.

Definition size (b : RedisFixedWindowStrategy) : Z := if Size b <=? 0 then Second else Size b.
Definition timeout (b : RedisFixedWindowStrategy) : Z := if Timeout b <=? 0 then 100 * Millisecond else Timeout b.
Definition prefix (b : RedisFixedWindowStrategy) : string := if String.eqb (Prefix b) "" then defaultRedisPrefix else Prefix b.

Definition epoch (b : RedisFixedWindowStrategy) (now : Z) : Z := Z.quot now (size b).
Definition rkey (b : RedisFixedWindowStrategy) (now : Z) (key : string) : string :=
  prefix b +:+ key +:+ ":" +:+ pretty (epoch b now).
Definition ttlMs (b : RedisFixedWindowStrategy) : Z := i64 (Z.quot (size b) Millisecond + 1000).

Definition Take {R} `{!RedisRunner R} (b : RedisFixedWindowStrategy) (now : Z) (key : string) (r : R) : R * bool :=
  if negb (HasRunner b) then (r, FailOpen b)
  else match EvalScript r fixedWindowScript [rkey b now key] [ttlMs b] with
       | (r, inr _) => (r, FailOpen b)
       | (r, inl n) => (r, n <=? Max b)
       end.

Definition Put {R} (_ : string) (r : R) : R := r.

Definition After (b : RedisFixedWindowStrategy) (now : Z) (_ : string) : Z :=
  time_sub (i64 (i64 (epoch b now + 1) * size b)) now.

(** One instance and the store, as a strategy. *)
#[export] Instance redis_strategy {R} `{!RedisRunner R} : Strategy (RedisFixedWindowStrategy * R) :=
  {| RateLimit.Take := fun now key s => let '(r, ok) := Take s.1 now key s.2 in ((s.1, r), Some ok);
     RateLimit.Put := fun key s => (s.1, Put key s.2);
     RateLimit.After := fun now key s => Some (After s.1 now key) |}.

(** What Redis documents of the script: [count] is the counter of a key (0 when there is
    none).  A reply is the incremented counter; a call that fails, by a timeout say, may
    or may not have taken place; no other key is touched. *)
Class RedisLaws (R : Type) `{!RedisRunner R} (count : R -> string -> Z) : Prop := {
  eval_reply r k ttl r' n : EvalScript r fixedWindowScript [k] [ttl] = (r', inl n) ->
    n = count r k + 1 /\ forall k', count r' k' = if decide (k' = k) then n else count r k';
  eval_error r k ttl r' e : EvalScript r fixedWindowScript [k] [ttl] = (r', inr e) ->
    forall k', count r' k' = count r k' \/ k' = k /\ count r' k' = count r k' + 1;
  count_nonneg r k : 0 <= count r k;
}.

End Redis.

Module RedisFacts.
Import Redis.

(** ** The keys of different windows differ *)

Lemma pretty_N_go_safe x s : ":"%char ∉ chars s -> ":"%char ∉ chars (pretty_N_go x s).
Proof.
  revert s. induction (N.lt_wf_0 x) as [x _ IH]. intros s Hs. destruct (decide (0 < x)%N) as [Hx|Hx].
  - rewrite pretty_N_go_step by done. apply IH; [apply N.div_lt; lia|].
    assert (":"%char <> pretty_N_char (x `mod` 10)) as Hc by (unfold pretty_N_char; by repeat case_match).
    change (chars (String ?c s)) with (c :: chars s). apply not_elem_of_cons. done.
  - assert (x = 0%N) as -> by lia. by rewrite pretty_N_go_0.
Qed.

Lemma pretty_N_safe (p : N) : ":"%char ∉ chars (pretty p).
Proof.
  unfold pretty, pretty_N. case_decide; [apply (not_elem_of_cons (chars "")); split; [done|apply not_elem_of_nil]|].
  apply pretty_N_go_safe. apply not_elem_of_nil.
Qed.

Lemma pretty_safe (z : Z) : ":"%char ∉ chars (pretty z).
Proof.
  unfold pretty, pretty_Z. destruct z; [apply (not_elem_of_cons (chars "")); split; [done|apply not_elem_of_nil]|apply pretty_N_safe|].
  change (chars ("-" +:+ ?s)) with ("-"%char :: chars s). apply not_elem_of_cons. split; [done|]. apply pretty_N_safe.
Qed.

Lemma last_sep_inj (c : ascii) a a' d d' : c ∉ d -> c ∉ d' -> a ++ c :: d = a' ++ c :: d' -> a = a' /\ d = d'.
Proof.
  intros Hd Hd'. revert a'. induction a as [|x a IH]; intros [|y a'] H; cbn in H.
  - injection H as ->. done.
  - injection H as <- ->. destruct Hd. apply elem_of_app. right. left.
  - injection H as -> <-. destruct Hd'. apply elem_of_app. right. left.
  - injection H as -> H. destruct (IH a' H) as [-> ->]. done.
Qed.

Lemma rkey_chars b now key : chars (rkey b now key) = (chars (prefix b) ++ chars key) ++ ":"%char :: chars (pretty (epoch b now)).
Proof. unfold rkey. rewrite !chars_app, <- app_assoc. done. Qed.

Lemma rkey_inj b b' now now' key key' :
  prefix b = prefix b' -> rkey b now key = rkey b' now' key' -> key = key' /\ epoch b now = epoch b' now'.
Proof.
  intros Hp H. apply (f_equal chars) in H. rewrite !rkey_chars, Hp in H.
  apply last_sep_inj in H as [H1 H2]; [|apply pretty_safe..]. apply app_inv_head in H1. apply chars_inj in H1, H2.
  split; [done|]. by apply (inj pretty) in H2.
Qed.

(** ** A fleet *)

Section Fleet.
Context {R : Type} `{!RedisRunner R} (count : R -> string -> Z) `{!RedisLaws R count}.
Context (evict : R -> string -> R).

(** A request at some instance, by its clock, or the eviction of a key. *)
Inductive event := ETake (b : RedisFixedWindowStrategy) (now : Z) (key : string) | EEvict (k : string).

(** Whether the round trip of a request failed. *)
Definition trip_failed (b : RedisFixedWindowStrategy) (now : Z) (key : string) (r : R) : bool :=
  negb (HasRunner b) || match (EvalScript r fixedWindowScript [rkey b now key] [ttlMs b]).2 with inl _ => false | inr _ => true end.

(** The decisions on the key [k]: those of requests that got a reply, and those of the
    others. *)
Fixpoint decided (k : string) (es : list event) (r : R) : list bool * list bool :=
  match es with
  | [] => ([], [])
  | EEvict k' :: es => decided k es (evict r k')
  | ETake b now key :: es =>
      let '(r', ok) := Take b now key r in
      let '(replied, others) := decided k es r' in
      if decide (rkey b now key = k) then
        if trip_failed b now key r then (replied, ok :: others) else (ok :: replied, others)
      else (replied, others)
  end.

Definition admitted (l : list bool) : Z := Z.of_nat (length (filter (fun b : bool => b = true) l)).

Lemma redis_admitted_cons b l : admitted (b :: l) = Z.b2z b + admitted l.
Proof. unfold admitted. rewrite filter_cons. destruct b; [rewrite decide_True by done|rewrite decide_False by done]; cbn [length Z.b2z]; lia. Qed.

Lemma take_replied b now key r r' ok :
  Take b now key r = (r', ok) -> trip_failed b now key r = false ->
  ok = (count r (rkey b now key) + 1 <=? Max b) /\
  forall k, count r' k = if decide (k = rkey b now key) then count r k + 1 else count r k.
Proof.
  unfold Take, trip_failed. destruct (HasRunner b); cbn; [|done]. destruct (EvalScript _ _ _ _) as [r1 [n|e]] eqn:E; cbn; [|done].
  intros. simplify_eq. destruct (eval_reply _ _ _ _ _ E) as [-> H]. split; [done|]. intros k. rewrite H. case_decide; [by subst|done].
Qed.

Lemma take_failed b now key r r' ok :
  Take b now key r = (r', ok) -> trip_failed b now key r = true ->
  ok = FailOpen b /\ forall k, count r k <= count r' k <= count r k + 1 /\ (k <> rkey b now key -> count r' k = count r k).
Proof.
  unfold Take, trip_failed. destruct (HasRunner b); cbn; [|intros; simplify_eq; split; [done|]; intros; split; [lia|done]].
  destruct (EvalScript _ _ _ _) as [r1 [n|e]] eqn:E; cbn; [done|].
  intros. simplify_eq. split; [done|]. intros k. destruct (eval_error _ _ _ _ _ E k) as [H|[H1 H2]]; [split; [lia|done]|].
  split; [lia|]. intros Hne. done.
Qed.

Definition on_key (k : string) (e : event) : Prop := match e with ETake b now key => rkey b now key = k | EEvict _ => False end.
Definition keeps (k : string) (e : event) : Prop := match e with EEvict k' => k' <> k | ETake _ _ _ => True end.
Definition capped (M : Z) (k : string) (e : event) : Prop :=
  match e with ETake b now key => rkey b now key = k -> Max b = M | EEvict _ => True end.

(** Evicting one key leaves the others. *)
Class EvictLaw : Prop := evict_other r k k' : k' <> k -> count (evict r k) k' = count r k'.
Context {HE : EvictLaw}.

Lemma decided_bound k M es r :
  Forall (keeps k) es -> Forall (capped M k) es -> admitted (decided k es r).1 <= Z.max 0 (M - count r k).
Proof.
  intros Hk Hc. revert r. induction es as [|e es IH]; intros r; [change (0 <= Z.max 0 (M - count r k)); lia|].
  apply Forall_cons in Hk as [Hk Hks]. apply Forall_cons in Hc as [Hc Hcs]. specialize (IH Hks Hcs). destruct e as [b now key|k'].
  - cbn [decided]. destruct (Take b now key r) as [r' ok] eqn:ET. specialize (IH r'). destruct (decided k es r') as [l o].
    cbn [fst] in IH. destruct (trip_failed b now key r) eqn:EF.
    + destruct (take_failed _ _ _ _ _ _ ET EF) as [_ H]. destruct (H k) as [H1 _]. case_decide; cbv iota; cbn [fst]; lia.
    + destruct (take_replied _ _ _ _ _ _ ET EF) as [-> H]. specialize (H k).
      destruct (decide (rkey b now key = k)) as [Hd|Hd]; cbv iota; cbn [fst].
      * rewrite decide_True in H by done. rewrite redis_admitted_cons, Hd, (Hc Hd). destruct (Z.leb_spec (count r k + 1) M); cbn [Z.b2z]; lia.
      * rewrite decide_False in H by congruence. lia.
  - cbn [decided]. specialize (IH (evict r k')). rewrite evict_other in IH by (cbn in Hk; congruence). exact IH.
Qed.

Lemma decided_exact k M es r :
  Forall (keeps k) es -> Forall (capped M k) es -> (decided k es r).2 = [] ->
  admitted (decided k es r).1 = Z.min (Z.of_nat (length (decided k es r).1)) (Z.max 0 (M - count r k)).
Proof.
  intros Hk Hc. revert r. induction es as [|e es IH]; intros r; [intros _; change (0 = Z.min 0 (Z.max 0 (M - count r k))); lia|].
  apply Forall_cons in Hk as [Hk Hks]. apply Forall_cons in Hc as [Hc Hcs]. specialize (IH Hks Hcs). destruct e as [b now key|k'].
  - cbn [decided]. destruct (Take b now key r) as [r' ok] eqn:ET. specialize (IH r'). destruct (decided k es r') as [l o].
    cbn [fst snd] in IH. destruct (trip_failed b now key r) eqn:EF.
    + destruct (take_failed _ _ _ _ _ _ ET EF) as [_ H]. destruct (H k) as [_ H1].
      destruct (decide (rkey b now key = k)) as [Hd|Hd]; cbv iota; cbn [fst snd]; [done|]. rewrite H1 in IH by congruence. exact IH.
    + destruct (take_replied _ _ _ _ _ _ ET EF) as [-> H]. specialize (H k).
      destruct (decide (rkey b now key = k)) as [Hd|Hd]; cbv iota; cbn [fst snd].
      * intros Ho. specialize (IH Ho). rewrite decide_True in H by done. rewrite redis_admitted_cons, Hd, (Hc Hd), IH, H. cbn [length].
        destruct (Z.leb_spec (count r k + 1) M); cbn [Z.b2z]; lia.
      * rewrite decide_False in H by congruence. rewrite H in IH. exact IH.
  - cbn [decided]. specialize (IH (evict r k')). rewrite evict_other in IH by (cbn in Hk; congruence). exact IH.
Qed.

Lemma decided_closed k es r :
  Forall (fun e => match e with ETake b _ _ => FailOpen b = false | EEvict _ => True end) es -> admitted (decided k es r).2 = 0.
Proof.
  intros Hf. revert r. induction Hf as [|e es He _ IH]; intros r; [done|]. destruct e as [b now key|k']; cbn [decided]; [|apply IH].
  destruct (Take b now key r) as [r' ok] eqn:ET. specialize (IH r'). destruct (decided k es r') as [l o]. cbn [snd] in IH.
  destruct (decide _); [|done]. destruct (trip_failed b now key r) eqn:EF; cbv iota; cbn [snd]; [|done].
  destruct (take_failed _ _ _ _ _ _ ET EF) as [-> _]. rewrite redis_admitted_cons, He. cbn [Z.b2z]. lia.
Qed.

(** A fleet: every instance has the limit, the window and the prefix of [b]. *)
Definition fleet_of (b : RedisFixedWindowStrategy) (e : event) : Prop :=
  match e with ETake b' _ _ => Max b' = Max b /\ size b' = size b /\ prefix b' = prefix b | EEvict _ => True end.

(** C31: One limit for the whole fleet. Take the requests of a key in a window, at any
    instances, in any order and under any clocks, with the store's key of that window
    fresh and not evicted meanwhile. Of those that got a reply at most [Max] are
    admitted, and exactly the first [Max] when none failed; instances that fail closed
    admit nothing beside them. Requests share a store key exactly when they have the
    same key and, by their instances' clocks, the same window. *)
Theorem redis_global_limit b now key es r :
  let k := rkey b now key in
  count r k = 0 -> Forall (keeps k) es -> Forall (fleet_of b) es ->
  let '(replied, others) := decided k es r in
  admitted replied <= Z.max 0 (Max b) /\
  (others = [] -> admitted replied = Z.min (Z.of_nat (length replied)) (Z.max 0 (Max b))) /\
  (Forall (fun e => match e with ETake b' _ _ => FailOpen b' = false | EEvict _ => True end) es -> admitted others = 0) /\
  (forall b' now' key', ETake b' now' key' ∈ es ->
     (rkey b' now' key' = k <-> key' = key /\ Z.quot now' (size b) = Z.quot now (size b))).
Proof.
  intros k H0 Hk Hf. assert (Forall (capped (Max b) k) es) as Hc.
  { eapply Forall_impl; [exact Hf|]. intros [b' now' key'|k'] He; cbn in *; [intros _; apply He|done]. }
  pose proof (decided_bound k (Max b) es r Hk Hc) as H1. pose proof (decided_exact k (Max b) es r Hk Hc) as H2.
  pose proof (decided_closed k es r) as H3. destruct (decided k es r) as [l o]. cbn [fst snd] in *. rewrite H0, Z.sub_0_r in H1, H2.
  split_and!; [done|done|done|]. intros b' now' key' He. rewrite Forall_forall in Hf. destruct (Hf _ He) as (_ & Hs & Hp). split.
  - intros E. apply rkey_inj in E as [-> E]; [|done]. unfold epoch in E. rewrite Hs in E. done.
  - intros [-> E]. unfold k, rkey, epoch. by rewrite Hp, Hs, E.
Qed.

End Fleet.

(** The time [After] reports is positive, at most a window, and ends exactly when the
    requests of the key move to the next store key. *)
Lemma redis_after_exact b now key :
  0 <= now -> now + size b < 2 ^ 63 ->
  0 < After b now key <= size b /\ epoch b (now + After b now key) = epoch b now + 1 /\
  (forall t, now <= t < now + After b now key -> epoch b t = epoch b now).
Proof.
  intros Hn Hm. assert (0 < size b) as Hs by (unfold size; destruct (Z.leb_spec (Size b) 0); [done|lia]).
  unfold After, epoch. rewrite Z.quot_div_nonneg by lia.
  pose proof (Z.div_mod now (size b) ltac:(lia)) as Hd. pose proof (Z.mod_pos_bound now (size b) Hs) as Hb.
  assert (0 <= now / size b) by (apply Z.div_pos; lia). assert (now / size b <= now) by (apply Z.div_le_upper_bound; nia).
  rewrite (i64_small (now / size b + 1)) by lia. rewrite (i64_small ((now / size b + 1) * size b)) by nia.
  rewrite time_sub_small by (unfold max_i64; nia). split_and!; [nia|nia| |].
  - rewrite Z.quot_div_nonneg by nia. replace (now + ((now / size b + 1) * size b - now)) with ((now / size b + 1) * size b) by lia.
    apply Z.div_mul. lia.
  - intros t Ht. rewrite Z.quot_div_nonneg by lia. symmetry. apply Z.div_unique_pos with (t - now / size b * size b); nia.
Qed.

(** ** A store, and a run of two instances *)

Local Abbreviation store := (gmap string Z).
Definition d_count (r : store) (k : string) : Z := Z.max 0 (default 0 (r !! k)).
#[local] Instance d_runner : RedisRunner store := fun r script keys _ =>
  match keys with
  | [k] => (<[k := d_count r k + 1]> r, inl (d_count r k + 1))
  | _ => (r, inr "wrong number of keys")
  end.

#[local] Instance d_laws : RedisLaws store d_count.
Proof.
  split.
  - intros r k ttl r' n [= <- <-]. split; [done|]. intros k'. unfold d_count. case_decide as Hk.
    + subst k'. rewrite lookup_insert_eq. cbn. lia.
    + by rewrite lookup_insert_ne by congruence.
  - intros r k ttl r' e H. cbn in H. discriminate.
  - intros r k. unfold d_count. lia.
Qed.

#[local] Instance d_evict : EvictLaw d_count (fun r k => delete k r).
Proof. intros r k k' Hk. unfold d_count. by rewrite lookup_delete_ne by congruence. Qed.

Definition east : RedisFixedWindowStrategy := RedisFixedWindowPerSecond 2.
Definition west : RedisFixedWindowStrategy := mk true 2 0 "" 0 false.
Definition burst : list event :=
  [ETake east 5 "ip"; ETake west 999 "ip"; ETake east 8 "ip2"; EEvict "x"; ETake west 7 "ip"; ETake east Second "ip"].

Lemma redis_global_limit_witness :
  let '(replied, others) := decided (fun (r : store) k => delete k r) (rkey east 0 "ip") burst ∅ in
  replied = [true; true; false] /\ admitted replied <= 2.
Proof.
  pose proof (redis_global_limit d_count (fun (r : store) k => delete k r) east 0 "ip" burst ∅) as H. cbv zeta in H.
  specialize (H eq_refl). destruct (decided _ _ burst ∅) as [l o] eqn:E. destruct H as (H1 & _).
  - repeat constructor; vm_compute; discriminate.
  - repeat constructor.
  - split; [|exact H1]. vm_compute in E. congruence.
Defined.

End RedisFacts.
