(* ===== verification/Compress.v ===== *)
(** * Response compression

    [src/pkg/compress/compress.go].  The wrapped writer decides at the first header write
    whether to encode, and from then on passes the body through an encoder.  As for the
    other wrappers, it is a function on the handler's tree of calls.

    Parameters: the encoder (an interface of the code, here a class with the law that the
    bytes it writes decode to the bytes written to it) and [mime.ParseMediaType].
    net/http's refusal of a body on a 204, a 304 or a HEAD request is not modelled. *)

From Stdlib Require Import Ascii.
From S2P Require Import Prelude GoStrings GoNet Middleware Headers Timeout.

(** [Compressor]: [Reset] points it at a new writer; the other operations return the bytes
    they write there. *)
Class Compressor (E : Type) := {
  Reset : E -> E;
  CWrite : string -> E -> E * string;
  CFlush : E -> E * string;
  CClose : E -> string;
}.

Fixpoint Contains (s sub : string) : bool :=
  HasPrefix sub s || match s with String _ s => Contains s sub | EmptyString => false end.

Module Compress.
Section Compress.
Context {E : Type} `{!Compressor E} (pooled : E) (ParseMediaType : string -> option string).

Record Compress := mk {
  Encoding : string;
  Vary : bool;
  Types : string;
  MinLength : Z;
}.

Definition defaultCompressVary : bool := true.
Definition defaultCompressMinLength : Z := 860.
Definition defaultCompressTypes : string :=
  "application/xml+rss application/atom+xml application/javascript application/x-javascript application/json application/rss+xml application/vnd.ms-fontobject application/x-font-ttf application/x-web-app-manifest+json application/xhtml+xml application/xml font/opentype image/svg+xml image/x-icon text/css text/html text/javascript text/plain text/x-component".

(** The constructors: they differ in the encoding, and in the encoder they plug in. *)
Definition with_encoding (e : string) : Compress := mk e defaultCompressVary defaultCompressTypes defaultCompressMinLength.
Definition GzipWithLevel : Compress := with_encoding "gzip".
Definition Deflate : Compress := with_encoding "deflate".
Definition ZstdWithLevel : Compress := with_encoding "zstd".
Definition BrWithOption : Compress := with_encoding "br".

(** The set of types: the words of [Types]. *)
Definition mapTypes (m : Compress) : list string :=
  filter (fun t => t <> "") (TrimSpace <$> Split " " (Types m)).

Record compressWriter := mkCW { encoder : option E; wroteHeader : bool }.

(** Whether [init] sets the encoder up, from the headers about to be sent. *)
Definition encodes (m : Compress) (h : header) : bool :=
  negb (HExists h "Content-Encoding") &&
  negb ((0 <? MinLength m) && negb (String.eqb (HGet h "Content-Length") "") &&
        (let l := default 0 (ParseInt (HGet h "Content-Length")) in (0 <? l) && (l <? MinLength m))) &&
  (bool_decide ("*" ∈ mapTypes m) ||
   bool_decide (default "application/octet-stream" (ParseMediaType (HGet h "Content-Type")) ∈ mapTypes m)).

Definition encoded_header (m : Compress) (h : header) : header :=
  HSet (delete "Content-Length" h) "Content-Encoding" (Encoding m).

(** [WriteHeader], with [init]. *)
Definition cw_WriteHeader (m : Compress) (code : Z) (cw : compressWriter) (k : compressWriter -> act) : act :=
  if wroteHeader cw then k cw
  else ReadHeader (fun h =>
    if encodes m h
    then UpdateHeader (encoded_header m) (WriteHeader code (k (mkCW (Some (Reset pooled)) true)))
    else WriteHeader code (k (mkCW (encoder cw) true))).

Definition emit (out : string) (k : act) : act := if String.eqb out "" then k else Write out k.

(** [defer cw.Close()]. *)
Definition cw_Close (cw : compressWriter) (k : act) : act :=
  match encoder cw with None => k | Some e => emit (CClose e) k end.

Fixpoint comp (m : Compress) (a : act) (cw : compressWriter) : act :=
  match a with
  | Done => cw_Close cw Done
  | Panic => cw_Close cw Panic
  | ReadHeader k => ReadHeader (fun h => comp m (k h) cw)
  | UpdateHeader f k => UpdateHeader f (comp m k cw)
  | WriteHeader code k => cw_WriteHeader m code cw (fun cw => comp m k cw)
  | Write d k =>
      cw_WriteHeader m 200 cw (fun cw =>
        match encoder cw with
        | Some e => let '(e, out) := CWrite d e in emit out (comp m k (mkCW (Some e) (wroteHeader cw)))
        | None => Write d (comp m k cw)
        end)
  | Flush k =>
      match encoder cw with
      | Some e => let '(e, out) := CFlush e in emit out (Flush (comp m k (mkCW (Some e) (wroteHeader cw))))
      | None => Flush (comp m k cw)
      end
  end.

Definition ServeHandler (m : Compress) : Middleware := fun h r =>
  if negb (Contains (HGet (Header r) "Accept-Encoding") (Encoding m)) then h r
  else if HExists (Header r) "Sec-Websocket-Key" then h r
  else ReadHeader (fun hh =>
    if HExists hh "Content-Encoding" then h r
    else UpdateHeader (fun hh => if Vary m then AddIfNotExists hh "Vary" "Accept-Encoding" else hh)
           (comp m (h r) (mkCW None false))).

End Compress.
End Compress.

Module CompressFacts.
Import Compress.

(** ** Encoders *)

Inductive op := OWrite (d : string) | OFlush.

Section Law.
Context {E : Type} `{!Compressor E}.

Definition feed1 (o : op) (e : E) : E * string := match o with OWrite d => CWrite d e | OFlush => CFlush e end.
Fixpoint feed (os : list op) (e : E) : E * string :=
  match os with
  | [] => (e, "")
  | o :: os => let '(e, x) := feed1 o e in let '(e, y) := feed os e in (e, x +:+ y)
  end.
Definition input (os : list op) : string := foldr (fun o t => match o with OWrite d => d +:+ t | OFlush => t end) "" os.

(** What an encoder promises: after [Reset], whatever is written and flushed, the bytes it
    wrote, with those of [Close], decode to the bytes written to it. *)
Class CompressorLaw (decode : string -> option string) : Prop :=
  decodes e os : decode ((feed os (Reset e)).2 +:+ CClose (feed os (Reset e)).1) = Some (input os).

Lemma feed_snoc os o e :
  feed (os ++ [o]) e = ((feed1 o (feed os e).1).1, (feed os e).2 +:+ (feed1 o (feed os e).1).2).
Proof.
  revert e. induction os as [|o' os IH]; intros e; cbn.
  - destruct (feed1 o e) as [e' x]. cbn. by rewrite append_nil_r.
  - destruct (feed1 o' e) as [e' x]. rewrite IH. destruct (feed os e') as [e'' y]. cbn. by rewrite append_assoc.
Qed.

Lemma input_snoc os o : input (os ++ [o]) = input os +:+ input [o].
Proof.
  unfold input. rewrite foldr_app. induction os as [|[d|] os IH]; cbn; [done| |done].
  rewrite append_assoc. f_equal. exact IH.
Qed.
End Law.

(** A handler that sends no informational status, flushes only after its header, and does
    not look at the headers again once they are sent. *)
Inductive settled : bool -> act -> Prop :=
  | settled_done b : settled b Done
  | settled_panic b : settled b Panic
  | settled_read k : (forall h, settled false (k h)) -> settled false (ReadHeader k)
  | settled_update b f k : settled b k -> settled b (UpdateHeader f k)
  | settled_header b code k : informational code = false -> settled true k -> settled b (WriteHeader code k)
  | settled_write b d k : settled true k -> settled b (Write d k)
  | settled_flush k : settled true k -> settled true (Flush k).

Section Facts.
Context {E : Type} `{!Compressor E} (pooled : E) (ParseMediaType : string -> option string) (m : Compress).
Context (decode : string -> option string) {HL : CompressorLaw decode}.

Local Abbreviation comp := (comp pooled ParseMediaType m).

Lemma exec_emit out k w : (exists x, sent w = Some x) ->
  exec (emit out k) w = exec k (mkRW (hdr w) (sent w) (early w) (body w +:+ out)).
Proof.
  intros [x Hx]. unfold emit. destruct (String.eqb_spec out "") as [->|]; [rewrite append_nil_r; by destruct w|].
  cbn [exec]. by rewrite (HeadersFacts.rw_WriteHeader_sent 200 w x Hx).
Qed.

(** Both writers once the header is out and the encoder set: [os] went through it. *)
Lemma comp_encoding a w w' e os x y :
  settled true a -> sent w = Some x -> sent w' = Some y ->
  body w = input os -> body w' = (feed os (Reset e)).2 ->
  let p := exec a w in let q := exec (comp a (mkCW (Some (feed os (Reset e)).1) true)) w' in
  sent p.1 = Some x /\ sent q.1 = Some y /\ decode (body q.1) = Some (body p.1) /\ p.2 = q.2.
Proof.
  intros Ha. remember true as b eqn:Hb. revert w w' os.
  induction Ha as [b|b|k _ _|b f k _ IH|b code k Hc _ IH|b d k _ IH|k _ IH]; intros w w' os Hx Hy Hw Hw'; try done; subst;
    cbn [Compress.comp exec]; cbv zeta.
  - unfold cw_Close. cbn [encoder]. rewrite exec_emit by eauto. cbn. rewrite Hw, Hw'. split_and!; try done; apply decodes.
  - unfold cw_Close. cbn [encoder]. rewrite exec_emit by eauto. cbn. rewrite Hw, Hw'. split_and!; try done; apply decodes.
  - by apply IH.
  - unfold cw_WriteHeader. cbn [wroteHeader]. rewrite (HeadersFacts.rw_WriteHeader_sent code w x Hx). by apply IH.
  - unfold cw_WriteHeader. cbn [wroteHeader encoder]. rewrite (HeadersFacts.rw_WriteHeader_sent 200 w x Hx).
    pose proof (feed_snoc os (OWrite d) (Reset e)) as Hf. cbn [feed1] in Hf.
    destruct (CWrite d (feed os (Reset e)).1) as [e' out]. cbn [fst snd] in Hf. rewrite exec_emit by eauto.
    replace e' with (feed (os ++ [OWrite d]) (Reset e)).1 by (by rewrite Hf). apply IH; try done.
    + cbn [body]. rewrite Hw, input_snoc. cbn. by rewrite append_nil_r.
    + cbn [body]. by rewrite Hw', Hf.
  - pose proof (feed_snoc os OFlush (Reset e)) as Hf. cbn [feed1 encoder] in *.
    destruct (CFlush (feed os (Reset e)).1) as [e' out]. cbn [fst snd] in Hf. rewrite exec_emit by eauto. cbn [exec].
    rewrite (HeadersFacts.rw_WriteHeader_sent 200 w x Hx), (HeadersFacts.rw_WriteHeader_sent 200 (mkRW _ _ _ _) y Hy).
    cbn [wroteHeader]. replace e' with (feed (os ++ [OFlush]) (Reset e)).1 by (by rewrite Hf). apply IH; try done.
    + by rewrite Hw, input_snoc, append_nil_r.
    + cbn [body]. by rewrite Hw', Hf.
Qed.

(** Both writers once the header is out and there is no encoder. *)
Lemma comp_plain a w : settled true a -> is_Some (sent w) -> exec (comp a (mkCW None true)) w = exec a w.
Proof.
  intros Ha. remember true as b eqn:Hb. revert w. induction Ha as [b|b|k _ _|b f k _ IH|b code k Hc _ IH|b d k _ IH|k _ IH]; intros w [x Hx]; try done; subst;
    cbn [Compress.comp exec]; cbv zeta.
  - apply IH; [done|]. eauto.
  - unfold cw_WriteHeader. cbn [wroteHeader]. rewrite (HeadersFacts.rw_WriteHeader_sent code w x Hx). eauto.
  - unfold cw_WriteHeader. cbn [wroteHeader encoder exec]. apply IH; [done|]. cbn. rewrite (HeadersFacts.rw_WriteHeader_sent 200 w x Hx). eauto.
  - cbn [encoder exec]. apply IH; [done|]. rewrite (HeadersFacts.rw_WriteHeader_sent 200 w x Hx). eauto.
Qed.

(** How the two responses compare, given the plain one. *)
Definition compares (p q : rw * bool) : Prop :=
  p.2 = q.2 /\
  match sent p.1 with
  | None => q.1 = p.1
  | Some (c, h) =>
      if encodes ParseMediaType m h
      then sent q.1 = Some (c, encoded_header m h) /\ decode (body q.1) = Some (body p.1)
      else q.1 = p.1
  end.

Lemma exec_sent a w x : sent w = Some x -> sent (exec a w).1 = Some x.
Proof.
  revert w. induction a as [| |k IH|f k IH|code k IH|d k IH|k IH]; intros w Hx; cbn [exec]; try done; try apply IH; try done;
    by rewrite (HeadersFacts.rw_WriteHeader_sent _ w x Hx).
Qed.

Lemma comp_header code a w K :
  informational code = false -> settled true a -> sent w = None -> body w = "" -> (forall e, K (mkCW e true) = comp a (mkCW e true)) ->
  compares (exec a (rw_WriteHeader code w)) (exec (cw_WriteHeader pooled ParseMediaType m code (mkCW None false) K) w).
Proof.
  intros Hc Ha Hs Hb HK. unfold cw_WriteHeader. cbn [wroteHeader exec encoder]. rewrite (HeadersFacts.rw_WriteHeader_new code w Hs Hc), !HK.
  destruct (encodes ParseMediaType m (hdr w)) eqn:He; cbn [exec].
  - destruct (comp_encoding a (mkRW (hdr w) (Some (code, hdr w)) (early w) (body w))
      (rw_WriteHeader code (mkRW (encoded_header m (hdr w)) (sent w) (early w) (body w))) pooled [] (code, hdr w) (code, encoded_header m (hdr w)))
      as (H1 & H2 & H3 & H4); try done.
    + unfold rw_WriteHeader. cbn [sent]. by rewrite Hs, Hc.
    + unfold rw_WriteHeader. cbn [sent]. by rewrite Hs, Hc.
    + split; [done|]. rewrite H1, He. done.
  - rewrite (HeadersFacts.rw_WriteHeader_new code w Hs Hc), comp_plain by eauto. split; [done|].
    rewrite (exec_sent a _ (code, hdr w)) by done.
    by rewrite He.
Qed.

Lemma comp_open a w : settled false a -> sent w = None -> body w = "" -> compares (exec a w) (exec (comp a (mkCW None false)) w).
Proof.
  intros Ha. remember false as b eqn:Eb. revert w. induction Ha as [b|b|k _ IH|b f k _ IH|b code k Hc Hk _|b d k Hk _|k _ _]; intros w Hs Hb; try done; subst.
  - split; [done|]. cbn. by rewrite Hs.
  - split; [done|]. cbn. by rewrite Hs.
  - by apply IH.
  - by apply IH.
  - by apply comp_header.
  - replace (exec (Write d k) w) with (exec (Write d k) (rw_WriteHeader 200 w)) by (cbn; by rewrite TimeoutFacts.rw_200_idem).
    apply (comp_header 200 (Write d k)); try done. by constructor.
Qed.

(** C30: Compression is transparent. For a handler that behaves (no informational
    status, no flush before its header), the client gets the handler's status, and
    either its response unchanged or, when the headers and the configuration allow it,
    a body that decodes to exactly the handler's under the headers with the encoding
    set and the length removed; [Vary] is added in both cases. A request that does not
    offer the encoding, or a websocket's, or a response already encoded, is left
    alone. *)
Theorem compress_transparent (h : Handler) r w :
  settled false (h r) -> sent w = None -> body w = "" ->
  let serve := ServeHandler pooled ParseMediaType m h r in
  let vary hd := if Vary m then AddIfNotExists hd "Vary" "Accept-Encoding" else hd in
  if Contains (HGet (Header r) "Accept-Encoding") (Encoding m) && negb (HExists (Header r) "Sec-Websocket-Key")
     && negb (HExists (hdr w) "Content-Encoding")
  then compares (exec (h r) (HeadersFacts.start_with vary w)) (exec serve w)
  else exec serve w = exec (h r) w.
Proof.
  intros Ha Hs Hb serve vary. subst serve. unfold ServeHandler.
  destruct (Contains _ _); cbn [andb negb]; [|done]. destruct (HExists (Header r) _); cbn [andb negb]; [done|]. cbn [exec].
  destruct (HExists (hdr w) _); cbn [negb]; [done|]. by apply comp_open.
Qed.

End Facts.

(** ** Runs *)

(** An encoder that holds what it is given until a flush, and ends with a dot. *)
Record tally := mkTally { seen : string }.
#[local] Instance tally_compressor : Compressor tally := {
  Reset _ := mkTally "";
  CWrite d e := (mkTally (seen e +:+ d), "");
  CFlush e := (mkTally "", seen e);
  CClose e := seen e +:+ ".";
}.
Definition undot (s : string) : option string :=
  match rev (chars s) with "."%char :: l => Some (text (rev l)) | _ => None end.

Lemma tally_feed os e : seen e +:+ input os = (feed os e).2 +:+ seen (feed os e).1.
Proof.
  revert e. induction os as [|[d|] os IH]; intros e; cbn; [by rewrite append_nil_r|..].
  - specialize (IH (mkTally (seen e +:+ d))). cbn in IH. destruct (feed os _) as [e' y]. cbn in *.
    transitivity ((seen e +:+ d) +:+ input os); [by rewrite append_assoc|exact IH].
  - specialize (IH (mkTally "")). cbn in IH. destruct (feed os _) as [e' y]. cbn in *.
    rewrite append_assoc. f_equal. exact IH.
Qed.

#[local] Instance tally_law : CompressorLaw undot.
Proof.
  intros e os. cbn [CClose tally_compressor]. rewrite <- append_assoc, <- tally_feed. cbn [Reset tally_compressor seen].
  change ("" +:+ input os) with (input os). unfold undot.
  rewrite chars_app, rev_app_distr. cbn. by rewrite rev_involutive, text_chars.
Qed.

Definition tally_mw : Compress := mk "tally" true "text/plain application/json" 4.
Definition asks (enc : string) : Request := mkRequest "GET" "a" "/" "/" "" false {["Accept-Encoding" := [enc]]}.
Definition typed (len : string) (k : act) : act := UpdateHeader (fun h => <["Content-Type" := ["text/plain"]]> (<["Content-Length" := [len]]> h)) k.
Definition serve (h : act) : act := ServeHandler (mkTally "x") Some tally_mw (fun _ => h) (asks "gzip, tally").

Example compress_runs :
  (fun w => (sent w, body w)) (respond (serve (typed "5" (Write "hel" (Flush (Write "lo" Done)))))) =
    (Some (200, {["Content-Type" := ["text/plain"]; "Content-Encoding" := ["tally"]; "Vary" := ["Accept-Encoding"]]}), "hello.") /\
  body (respond (serve (typed "3" (Write "hel" Done)))) = "hel".
Proof. vm_compute. done. Qed.

Lemma compress_transparent_witness :
  let h := typed "5" (Write "hel" (Flush (Write "lo" Done))) in
  undot (body (exec (serve h) new_rw).1) = Some "hello".
Proof.
  intros h. pose proof (compress_transparent (mkTally "x") Some tally_mw undot (fun _ => h) (asks "gzip, tally") new_rw) as H.
  destruct H as [_ H]; [repeat constructor|reflexivity|reflexivity|]. exact (proj2 H).
Defined.

(** A client that refuses the encoding with a zero weight gets it. *)
Example compress_ignores_weight :
  body (respond (ServeHandler (mkTally "x") Some tally_mw (fun _ => typed "5" (Write "hello" Done)) (asks "tally;q=0"))) = "hello.".
Proof. vm_compute. done. Qed.

(** A flush before the first write sends the headers without [Content-Encoding], and the
    body is encoded all the same. *)
Example compress_flush_first :
  (fun w => ((fun x => x.2 !! "Content-Encoding") <$> sent w, body w)) (respond (serve (typed "5" (Flush (Write "hello" Done))))) =
    (Some None, "hello.").
Proof. vm_compute. done. Qed.

(** A final status after an informational one is dropped. *)
Example compress_early_hints :
  fst <$> sent (respond (serve (WriteHeader 103 (WriteHeader 404 (Write "no" Done))))) = Some 200.
Proof. vm_compute. done. Qed.

(** The constructors compress text of unknown length or of at least 860 bytes, not
    images, nor a body its Content-Length says is shorter. *)
Example compress_defaults :
  let enc := encodes (fun t => Some t) ZstdWithLevel in
  let h (t n : string) : header := <["Content-Type" := [t]]> (<["Content-Length" := [n]]> ∅) in
  (enc {["Content-Type" := ["text/html"]]}, enc (h "text/css" "860"), enc (h "text/css" "859"), enc (h "image/png" "9000")) = (true, true, false, false).
Proof. vm_compute. done. Qed.

End CompressFacts.
