(* ===== verification/Server.v ===== *)
(** * The server's life, and the health endpoint

    The shutdown of [src/server.go], and [src/pkg/healthz/healthz.go]; the rest of the
    server is in [Serving].  Callbacks are
    registered from request goroutines while [Shutdown] may run: each call of
    [RegisterOnShutdown] and [Shutdown] is a phase, and its next action is its critical
    section or the launch of one goroutine.  net/http's server is a parameter: when
    [Serve] returns and with which error is up to it. *)

From S2P Require Import Prelude GoStrings GoNet Middleware.

Module Server.

(** ** Shutdown *)

(** A call in progress.  [SLaunch] still has callbacks to start; [SHTTP] has begun the
    drain of net/http's server. *)
Inductive phase :=
  | RStart (f : nat)
  | RRunNow (f : nat)
  | RDone
  | SStart
  | SLaunch (fns : list nat)
  | SSleep
  | SHTTP
  | SDone.

Record state := mkState {
  onShutdown : list nat;
  shuttingDown : bool;
  calls : list phase;
  launched : list nat;    (* the goroutines [go f()] started, in order *)
  registered : list nat;  (* every callback whose registration took effect *)
}.

Definition start : state := mkState [] false [] [] [].

(** The next action of a call, with the rest of the state. *)
Definition sstep (p : phase) (st : state) : option (phase * state) :=
  match p with
  | RStart f =>
      if shuttingDown st
      then Some (RRunNow f, mkState (onShutdown st) true (calls st) (launched st) (registered st ++ [f]))
      else Some (RDone, mkState (onShutdown st ++ [f]) false (calls st) (launched st) (registered st ++ [f]))
  | RRunNow f => Some (RDone, mkState (onShutdown st) (shuttingDown st) (calls st) (launched st ++ [f]) (registered st))
  | SStart =>
      let first := negb (shuttingDown st) in
      Some (if first then SLaunch (onShutdown st) else SHTTP,
            mkState [] true (calls st) (launched st) (registered st))
  | SLaunch [] => Some (SSleep, st)
  | SLaunch (f :: fns) => Some (SLaunch fns, mkState (onShutdown st) (shuttingDown st) (calls st) (launched st ++ [f]) (registered st))
  | SSleep => Some (SHTTP, st)
  | SHTTP => Some (SDone, st)
  | RDone | SDone => None
  end.

Definition with_calls (cs : list phase) (st : state) : state :=
  mkState (onShutdown st) (shuttingDown st) cs (launched st) (registered st).

Inductive step : state -> state -> Prop :=
  | step_call p st : p = SStart \/ (exists f, p = RStart f) -> step st (with_calls (calls st ++ [p]) st)
  | step_move i p p' st st' :
      calls st !! i = Some p -> sstep p st = Some (p', st') -> step st (with_calls (<[i := p']> (calls st)) st').

(** ** [ListenAndServe] with a grace period *)

Inductive serving := Serving | ServeReturned (closed : bool) (err : string).
Inductive listen := LSelect | LReturned (err : string) | LShutdown.

Inductive lstep : serving * listen -> serving * listen -> Prop :=
  | l_serve closed err l : lstep (Serving, l) (ServeReturned closed err, l)
  | l_error err : lstep (ServeReturned false err, LSelect) (ServeReturned false err, LReturned err)
  | l_sigterm s : lstep (s, LSelect) (s, LShutdown).

End Server.

Module Healthz.

Record Healthz := mk { Path_ : string; Host_ : bool; ready : Z; healthy : Z; shutdown : Z }.

Definition New : Healthz := mk "/healthz" false 1 1 0.
Definition SetReady (v : bool) (m : Healthz) : Healthz := mk (Path_ m) (Host_ m) (if v then 1 else 0) (healthy m) (shutdown m).
Definition Set_ (v : bool) (m : Healthz) : Healthz := mk (Path_ m) (Host_ m) (ready m) (if v then 1 else 0) (shutdown m).

(** The callback registered with the server on the first request. *)
Definition on_shutdown (m : Healthz) : Healthz := mk (Path_ m) (Host_ m) (ready m) (healthy m) 1.

Definition request_host (r : Request) : string :=
  if String.eqb (split_host (Host r)) "" then Host r else split_host (Host r).

(** [ready_query] is [r.URL.Query().Get("ready")]. *)
Definition ServeHandler (m : Healthz) (ready_query : Request -> string) : Middleware := fun h r =>
  if negb (Host_ m) && match NetIP.ParseIP (request_host r) with None => true | Some _ => false end then h r
  else if negb (String.eqb (Path r) (Path_ m)) then h r
  else
    let ok := if negb (String.eqb (ready_query r) "") then (shutdown m =? 0) && (0 <? ready m) else 0 <? healthy m in
    if negb ok then WriteHeader 503 (Write "Service Unavailable" Done) else WriteHeader 200 (Write "OK" Done).

End Healthz.

Module ServerFacts.
Import Server.

(** ** Registered callbacks run exactly once *)

Definition holds (p : phase) : list nat := match p with RRunNow f => [f] | SLaunch fns => fns | _ => [] end.

Record inv (st : state) : Prop := {
  inv_all : registered st ≡ₚ onShutdown st ++ (calls st ≫= holds) ++ launched st;
  inv_queue : shuttingDown st = true -> onShutdown st = [];
  inv_early : shuttingDown st = false -> launched st = [] /\ calls st ≫= holds = [];
}.

Lemma server_inv_step st st' : step st st' -> inv st -> inv st'.
Proof.
  intros Hs [H1 H2 H3]. destruct Hs as [p st Hp|i p p' st st' Hi Hs].
  - assert (holds p = []) as Hh by (destruct Hp as [->|[f ->]]; done).
    split; cbn; rewrite ?bind_app; cbn; rewrite ?Hh, ?app_nil_r; auto.
  - pose proof (mbind_insert_perm holds (calls st) i p p' Hi) as HP.
    destruct p as [f|f| | |[|f fns]| | |]; cbn in Hs; try done.
    + destruct (shuttingDown st) eqn:Es; simplify_eq; cbn in *; (split; cbn).
      * rewrite H1, (H2 eq_refl), HP. solve_Permutation.
      * by intros _; apply H2.
      * done.
      * rewrite H1, HP. solve_Permutation.
      * done.
      * intros _. destruct (H3 eq_refl) as [E1 E2]. split; [done|]. rewrite E2 in HP. apply Permutation_nil_r in HP. done.
    + simplify_eq; cbn in *. split; cbn; [rewrite H1, <- HP; solve_Permutation|done|].
      intros Hf. destruct (H3 Hf) as [_ E2]. rewrite E2 in HP. symmetry in HP; by apply Permutation_nil_cons in HP.
    + simplify_eq; cbn in *. split; cbn; [|done|done]. destruct (shuttingDown st) eqn:Es; cbn in *.
      * rewrite H1, (H2 eq_refl), HP. done.
      * rewrite H1, HP. solve_Permutation.
    + simplify_eq; cbn in *. split; cbn; [by rewrite H1, HP|done|].
      intros Hf. destruct (H3 Hf) as [E1 E2]. split; [done|]. rewrite E2 in HP. by apply Permutation_nil_r in HP.
    + simplify_eq; cbn in *. split; cbn; [rewrite H1|done|].
      * assert (f :: (<[i := SLaunch fns]> (calls st) ≫= holds) ≡ₚ calls st ≫= holds) as <-; [|solve_Permutation].
        apply (Permutation_app_inv_l fns). rewrite <- HP. solve_Permutation.
      * intros Hf. destruct (H3 Hf) as [_ E2]. rewrite E2, app_nil_r in HP. apply Permutation_length in HP. cbn [length] in HP. rewrite length_app in HP. lia.
    + simplify_eq; cbn in *. split; cbn; [by rewrite H1, HP|done|].
      intros Hf. destruct (H3 Hf) as [E1 E2]. split; [done|]. rewrite E2 in HP. by apply Permutation_nil_r in HP.
    + simplify_eq; cbn in *. split; cbn; [by rewrite H1, HP|done|].
      intros Hf. destruct (H3 Hf) as [E1 E2]. split; [done|]. rewrite E2 in HP. by apply Permutation_nil_r in HP.
Qed.

Lemma server_reachable st : rtc step start st -> inv st.
Proof.
  intros Hr. assert (inv start) as H0 by (by split). revert H0. induction Hr as [|st0 st1 st2 Hs _ IH]; [done|].
  intros H0. apply IH. by eapply server_inv_step.
Qed.

(** A call that holds no callback it has yet to start. *)
Definition settled_call (p : phase) : Prop := holds p = [].

Lemma settled_bind cs : Forall settled_call cs -> cs ≫= holds = [].
Proof. induction 1 as [|p cs Hp _ IH]; [done|]. cbn. rewrite Hp. exact IH. Qed.

Lemma all_launched st : inv st -> shuttingDown st = true -> Forall settled_call (calls st) -> launched st ≡ₚ registered st.
Proof. intros [H1 H2 _] Hs Hc. by rewrite H1, (H2 Hs), (settled_bind _ Hc). Qed.

(** C29: Shutdown callbacks run exactly once. However registrations and shutdowns
    interleave, no callback is started before a shutdown begins; none is started more
    often than it was registered; once one has begun and the calls in progress have
    started what they hold, the callbacks started are exactly those registered, the
    ones registered after the shutdown began included; and no call ever waits for
    another. *)
Theorem server_shutdown_once st :
  rtc step start st ->
  (shuttingDown st = false -> launched st = []) /\ launched st ⊆+ registered st /\
  (shuttingDown st = true -> Forall settled_call (calls st) -> launched st ≡ₚ registered st) /\
  (forall i p, calls st !! i = Some p -> p = RDone \/ p = SDone \/ exists p' st', sstep p st = Some (p', st')).
Proof.
  intros Hr. pose proof (server_reachable st Hr) as Hinv. split_and!.
  - apply Hinv.
  - rewrite (inv_all st Hinv). rewrite (assoc (++)). by apply submseteq_inserts_l.
  - by apply all_launched.
  - intros i p _. destruct p as [f|f| | |[|f fns]| | |]; cbn; eauto. destruct (shuttingDown st); eauto.
Qed.

Import Healthz.

(** What the callbacks of the goroutines that ran left of the endpoint's state. *)
Definition after_callbacks (c : nat) (st : Server.state) (m : Healthz) : Healthz :=
  if decide (c ∈ launched st) then on_shutdown m else m.

(** Whether a request is a probe: by its host and path. *)
Definition is_probe (m : Healthz) (r : Request) : Prop :=
  Path r = Path_ m /\
  (Host_ m = true \/ is_Some (NetIP.ParseIP (request_host r))).

Lemma probe_answer m q h r : is_probe m r ->
  Healthz.ServeHandler m q h r =
  if (if negb (String.eqb (q r) "") then (shutdown m =? 0) && (0 <? ready m) else 0 <? healthy m)
  then WriteHeader 200 (Write "OK" Done) else WriteHeader 503 (Write "Service Unavailable" Done).
Proof.
  intros [Hp Hh]. unfold Healthz.ServeHandler.
  assert (negb (Host_ m) && match NetIP.ParseIP (request_host r) with None => true | Some _ => false end = false) as ->.
  { destruct Hh as [->|[ip ->]]; [done|]. by rewrite andb_false_r. }
  rewrite Hp, String.eqb_refl. cbn [negb].
  destruct (negb (String.eqb (q r) "")); [by destruct ((shutdown m =? 0) && (0 <? ready m))|by destruct (0 <? healthy m)].
Qed.

(** The health endpoint and the server. Once the endpoint's callback is
    registered (its first request does that) and a shutdown has begun and started its
    callbacks, every readiness probe gets a 503, so that traffic is sent elsewhere
    while the server drains, and liveness probes answer as before; a request that is
    not a probe goes to the next handler. *)
Theorem healthz_unready_on_shutdown st c m q h r :
  rtc step start st -> c ∈ registered st -> shuttingDown st = true -> Forall settled_call (calls st) ->
  let m' := after_callbacks c st m in
  (is_probe m r -> q r <> "" -> Healthz.ServeHandler m' q h r = WriteHeader 503 (Write "Service Unavailable" Done)) /\
  (is_probe m r -> q r = "" -> Healthz.ServeHandler m' q h r = Healthz.ServeHandler m q h r) /\
  (Path r <> Path_ m -> Healthz.ServeHandler m' q h r = h r).
Proof.
  intros Hr Hc Hs Hcs. pose proof (all_launched st (server_reachable st Hr) Hs Hcs) as HP.
  assert (c ∈ launched st) as Hl by by rewrite HP. unfold after_callbacks. rewrite decide_True by done. cbv zeta. split_and!.
  - intros Hp Hq. rewrite probe_answer by done. rewrite (proj2 (String.eqb_neq _ _) Hq). done.
  - intros Hp Hq. rewrite !probe_answer by done. by rewrite Hq.
  - intros Hp. unfold Healthz.ServeHandler. cbn [Path_ Host_ on_shutdown]. rewrite (proj2 (String.eqb_neq _ _) Hp). cbn [negb]. by case_match.
Qed.

(** ** Runs *)

Inductive event := Call (p : phase) | Move (i : nat).
Definition play1 (e : event) (st : state) : option state :=
  match e with
  | Call p => match p with SStart | RStart _ => Some (with_calls (calls st ++ [p]) st) | _ => None end
  | Move i => p ← calls st !! i; q ← sstep p st; Some (with_calls (<[i := q.1]> (calls st)) q.2)
  end.
Fixpoint play (es : list event) (st : state) : option state :=
  match es with [] => Some st | e :: es => st ← play1 e st; play es st end.

Lemma server_play es st st' : play es st = Some st' -> rtc step st st'.
Proof.
  revert st. induction es as [|e es IH]; intros st H; cbn in H; simplify_eq; [done|].
  destruct (play1 e st) as [st1|] eqn:E; cbn in H; [|done]. eapply rtc_l; [|by apply IH]. destruct e as [p|i]; cbn in E.
  - destruct p; simplify_eq; apply step_call; eauto.
  - destruct (calls st !! i) as [p|] eqn:Hi; cbn in E; [|done]. destruct (sstep p st) as [[p' st2]|] eqn:Hs; cbn in E; simplify_eq. by eapply step_move.
Qed.

(** Callback 7 is registered, a shutdown begins, callback 8 comes too late to be queued. *)
Definition race : list event :=
  [Call (RStart 7); Call (RStart 8); Call SStart; Move 0; Move 2; Move 1; Move 1; Move 2; Move 2].
Definition st_race : state := default start (play race start).

Lemma st_race_reached : rtc step start st_race.
Proof. apply (server_play race). vm_compute. reflexivity. Qed.

Lemma server_shutdown_once_witness : launched st_race = [8; 7]%nat /\ launched st_race ≡ₚ registered st_race.
Proof.
  split; [vm_compute; reflexivity|].
  apply (server_shutdown_once st_race st_race_reached); [vm_compute; reflexivity|vm_compute; repeat constructor].
Defined.

Lemma healthz_unready_on_shutdown_witness :
  let r := mkRequest "GET" "10.0.0.7:8080" "/healthz" "/healthz?ready=1" "" false ∅ in
  Healthz.ServeHandler (after_callbacks 8 st_race New) (fun _ => "1") (fun _ => Done) r =
  WriteHeader 503 (Write "Service Unavailable" Done).
Proof.
  intros r. apply (healthz_unready_on_shutdown st_race 8 New (fun _ => "1") (fun _ => Done) r st_race_reached);
    [vm_compute; right; left|vm_compute; reflexivity|vm_compute; repeat constructor| |discriminate].
  split; [reflexivity|right; vm_compute; eexists; reflexivity].
Defined.

(** With a grace period, [ListenAndServe] waits for an error other than "closed" or for
    SIGTERM: after a [Shutdown] called by the program it goes on waiting. *)
Lemma listen_waits_after_shutdown err x :
  lstep (ServeReturned true err, LSelect) x -> x = (ServeReturned true err, LShutdown).
Proof. intros H. by inversion H. Qed.

End ServerFacts.
