(* ===== verification/Logger.v ===== *)
(** * The request log

    [src/pkg/logger].  The middleware keeps a record of fields for the request, which
    other middlewares may add to or disable, counts what the handler writes through a
    wrapped writer, and emits the record when the handler has returned or panicked.  The
    JSON encoding is left to the reader of the record; the texts of times and durations
    are parameters.

    A handler's use of its record ([Set], [Disable]) is part of its request's context and
    so of the tree: [LSet] and [LDisable] come before the calls that follow them. *)

From Stdlib Require Import Ascii SpecFloat.
From S2P Require Import Prelude GoStrings GoNet Middleware Headers.

Module Logger.

(** The values of a record: strings, the integer types, floats, times ([None] is the zero
    time) and anything else. *)
Inductive value :=
  | VString (s : string)
  | VInt (n : Z)
  | VFloat (f : spec_float)
  | VTime (t : option Z)
  | VOther (id : nat).

Definition isEmpty (v : value) : bool :=
  match v with
  | VString s => String.eqb s ""
  | VInt n => n =? 0
  | VFloat f => SFeqb f (S754_zero false)
  | VTime t => bool_decide (t = None)
  | VOther _ => false
  end.

Record record := mkRecord { data : gmap string value; disable : bool }.
Definition newRecord : record := mkRecord ∅ false.
Definition Set_ (name : string) (v : value) (d : record) : record := mkRecord (<[name := v]> (data d)) (disable d).
Definition Get (name : string) (d : record) : option value := data d !! name.
Definition omitEmpty (d : record) : record := mkRecord (filter (fun kv => isEmpty kv.2 = false) (data d)) (disable d).

(** [logger.Set], [logger.Get] and [Disable] through the context: without a record they
    do nothing. *)
Definition ctx_Set (name : string) (v : value) (d : option record) : option record := Set_ name v <$> d.
Definition ctx_Get (name : string) (d : option record) : option value := d ≫= Get name.
Definition ctx_Disable (d : option record) : option record := (fun d => mkRecord (data d) true) <$> d.

(** A handler that also works on its record. *)
Inductive lact :=
  | LDone
  | LPanic
  | LSet (name : string) (v : value) (k : lact)
  | LDisable (k : lact)
  | LUpdate (f : header -> header) (k : lact)
  | LWriteHeader (code : Z) (k : lact)
  | LWrite (d : string) (k : lact)
  | LFlush (k : lact).

(** The same handler without a logger. *)
Fixpoint plain (a : lact) : act :=
  match a with
  | LDone => Done
  | LPanic => Panic
  | LSet _ _ k | LDisable k => plain k
  | LUpdate f k => UpdateHeader f (plain k)
  | LWriteHeader code k => WriteHeader code (plain k)
  | LWrite d k => Write d (plain k)
  | LFlush k => Flush (plain k)
  end.

(** The wrapped writer. *)
Record responseWriter := mkW { length_ : Z; statusCode : Z; wroteHeader : bool; wroteHeaderAt : option Z }.

(** The handler through the wrapped writer: the server's writer, the wrapper, the record,
    whether it returned.  [clock] is the time of each action. *)
Fixpoint serve (clock : nat -> Z) (i : nat) (a : lact) (w : rw) (nw : responseWriter) (d : record)
    : rw * responseWriter * record * bool :=
  let header code w nw :=
    if wroteHeader nw then (w, nw) else (rw_WriteHeader code w, mkW (length_ nw) code true (Some (clock i))) in
  match a with
  | LDone => (w, nw, d, true)
  | LPanic => (w, nw, d, false)
  | LSet name v k => serve clock (S i) k w nw (Set_ name v d)
  | LDisable k => serve clock (S i) k w nw (mkRecord (data d) true)
  | LUpdate f k => serve clock (S i) k (mkRW (f (hdr w)) (sent w) (early w) (body w)) nw d
  | LWriteHeader code k => let '(w, nw) := header code w nw in serve clock (S i) k w nw d
  | LWrite x k =>
      let '(w, nw) := header 200 w nw in
      let w := rw_WriteHeader 200 w in
      serve clock (S i) k (mkRW (hdr w) (sent w) (early w) (body w +:+ x))
        (mkW (i64 (length_ nw + Z.of_nat (String.length x))) (statusCode nw) (wroteHeader nw) (wroteHeaderAt nw)) d
  | LFlush k => serve clock (S i) k (rw_WriteHeader 200 w) nw d
  end.

(** The fields set before the handler runs. *)
Definition first_fields (r : Request) (timestamp : string) (ContentLength : Z) (referer userAgent : string) (d : record) : record :=
  let proto := HGet (Header r) "X-Forwarded-Proto" in
  let d := Set_ "timestamp" (VString timestamp) d in
  let d := Set_ "host" (VString (Host r)) d in
  let d := Set_ "requestMethod" (VString (Method r)) d in
  let d := Set_ "requestUrl" (VString (proto +:+ "://" +:+ Host r +:+ RequestURI r)) d in
  let d := Set_ "requestBodySize" (VInt ContentLength) d in
  let d := Set_ "referer" (VString referer) d in
  let d := Set_ "userAgent" (VString userAgent) d in
  let d := Set_ "remoteIp" (VString (split_host (RemoteAddr r))) d in
  let d := Set_ "realIp" (VString (HGet (Header r) "X-Real-Ip")) d in
  Set_ "forwardedFor" (VString (HGet (Header r) "X-Forwarded-For")) d.

(** The deferred part: what is emitted, if anything. *)
Definition emitted (duration_String : Z -> string) (OmitEmpty canceled : bool) (start now : Z) (nw : responseWriter) (d : record) : option record :=
  if disable d then None
  else
    let status := if (statusCode nw =? 0) && canceled then 499 else statusCode nw in
    let d := Set_ "duration" (VInt (time_sub now start)) d in
    let d := Set_ "durationHuman" (VString (duration_String (time_sub now start))) d in
    let d := Set_ "status" (VInt status) d in
    let d := Set_ "responseBodySize" (VInt (length_ nw)) d in
    let d := match wroteHeaderAt nw with
             | Some t => Set_ "durationHeaderHuman" (VString (duration_String (time_sub now t))) (Set_ "durationHeader" (VInt (time_sub now t)) d)
             | None => d
             end in
    Some (if OmitEmpty then omitEmpty d else d).

End Logger.

Module LoggerFacts.
Import Logger.

(** A handler that sends no informational status and flushes only after its header. *)
Fixpoint proper (wrote : bool) (a : lact) : Prop :=
  match a with
  | LDone | LPanic => True
  | LSet _ _ k | LDisable k | LUpdate _ k => proper wrote k
  | LWriteHeader code k => informational code = false /\ proper true k
  | LWrite _ k => proper true k
  | LFlush k => wrote = true /\ proper true k
  end.

(** What ties the wrapper to the server's writer. *)
Definition tied (w : rw) (nw : responseWriter) : Prop :=
  wroteHeader nw = bool_decide (is_Some (sent w)) /\
  statusCode nw = match sent w with Some (c, _) => c | None => 0 end /\
  length_ nw = i64 (Z.of_nat (String.length (body w))).

Lemma serve_tied clock a i w nw d :
  proper (wroteHeader nw) a -> tied w nw ->
  let '(w', nw', _, ok) := serve clock i a w nw d in (w', ok) = exec (plain a) w /\ tied w' nw'.
Proof.
  revert i w nw d. induction a as [| |name v k IH|k IH|f k IH|code k IH|x k IH|k IH]; intros i w nw d Hp Ht; cbn [serve plain exec proper] in *.
  - done.
  - done.
  - by apply IH.
  - by apply IH.
  - apply IH; [done|]. exact Ht.
  - destruct Hp as [Hi Hp]. destruct Ht as (T1 & T2 & T3). destruct (wroteHeader nw) eqn:Hw.
    + symmetry in T1. apply bool_decide_eq_true_1 in T1 as [y Hy]. rewrite (HeadersFacts.rw_WriteHeader_sent code w y Hy).
      apply IH; [by rewrite Hw|]. split_and!; [rewrite Hw, bool_decide_true; [done|by rewrite Hy]|done|done].
    + symmetry in T1. apply bool_decide_eq_false_1, eq_None_not_Some in T1. apply IH; [done|].
      rewrite (HeadersFacts.rw_WriteHeader_new code w T1 Hi). split_and!; [done|done|done].
  - destruct Ht as (T1 & T2 & T3). destruct (wroteHeader nw) eqn:Hw.
    + symmetry in T1. apply bool_decide_eq_true_1 in T1 as [y Hy]. rewrite (HeadersFacts.rw_WriteHeader_sent 200 w y Hy).
      apply IH; [by cbn; rewrite Hw|]. split_and!; cbn [wroteHeader statusCode length_ sent body].
      * rewrite Hw, bool_decide_true; [done|by rewrite Hy].
      * done.
      * rewrite T3, i64_add_l, append_length. f_equal. lia.
    + symmetry in T1. apply bool_decide_eq_false_1, eq_None_not_Some in T1.
      rewrite (HeadersFacts.rw_WriteHeader_new 200 w T1 eq_refl). apply IH; [done|].
      split_and!; cbn [wroteHeader statusCode length_ sent body]; [done|done|].
      rewrite T3, i64_add_l, append_length. f_equal. lia.
  - destruct Hp as [Hw Hp]. destruct Ht as (T1 & T2 & T3). rewrite Hw in T1. symmetry in T1. pose proof T1 as T1'.
    apply bool_decide_eq_true_1 in T1 as [y Hy]. rewrite (HeadersFacts.rw_WriteHeader_sent 200 w y Hy).
    apply IH; [by rewrite Hw|]. split_and!; [by rewrite Hw, T1'|done|done].
Qed.

(** The log is transparent and accurate.  For a handler that sends no informational
    status and flushes only after its header, the response is the one it would make
    without the logger; and the record emitted, unless the handler disabled it, has the
    status that was sent and the number of bytes of the body (a request that ended
    without a status is logged as 499 if its client had gone, and as 0 otherwise). *)
Theorem logger_accurate ds clock a d omit canceled now t0 :
  proper false a ->
  let '(w, nw, d', ok) := serve clock 0 a new_rw (mkW 0 0 false None) d in
  (w, ok) = exec (plain a) new_rw /\
  (disable d' = true -> emitted ds omit canceled t0 now nw d' = None) /\
  (disable d' = false -> exists e, emitted ds omit canceled t0 now nw d' = Some e /\
     let status := match sent w with Some (c, _) => c | None => if canceled then 499 else 0 end in
     (forall c h, sent w = Some (c, h) -> c <> 0) ->
     default (VInt 0) (Get "status" e) = VInt status /\
     default (VInt 0) (Get "responseBodySize" e) = VInt (i64 (Z.of_nat (String.length (body w))))).
Proof.
  intros Hp. pose proof (serve_tied clock a 0 new_rw (mkW 0 0 false None) d Hp) as H.
  destruct (serve clock 0 a new_rw (mkW 0 0 false None) d) as [[[w nw] d'] ok]. destruct H as [Hw (T1 & T2 & T3)]; [by split_and!|].
  split; [done|]. unfold emitted. split; [by intros ->|]. intros ->. eexists. split; [done|]. cbv zeta. intros Hc.
  set (s := if (statusCode nw =? 0) && canceled then 499 else statusCode nw).
  assert (s = match sent w with Some (c, _) => c | None => if canceled then 499 else 0 end) as Hs.
  { subst s. rewrite T2. destruct (sent w) as [[c h]|]; [|by destruct canceled]. destruct (Z.eqb_spec c 0); [by destruct (Hc c h eq_refl)|done]. }
  rewrite <- Hs, <- T3. set (d1 := Set_ "responseBodySize" _ _).
  set (d2 := match wroteHeaderAt nw with Some t => _ | None => d1 end).
  assert (data d2 !! "status" = Some (VInt s) /\ data d2 !! "responseBodySize" = Some (VInt (length_ nw))) as [E1 E2].
  { subst d2 d1. destruct (wroteHeaderAt nw); cbn [Set_ data]; by simplify_map_eq. }
  unfold Get. destruct omit; [|by rewrite E1, E2]. cbn [omitEmpty data]. split.
  - rewrite map_lookup_filter, E1. cbn. case_guard as Hg; [done|]. cbn in Hg. apply not_false_is_true, Z.eqb_eq in Hg. by rewrite Hg.
  - rewrite map_lookup_filter, E2. cbn. case_guard as Hg; [done|]. cbn in Hg. apply not_false_is_true, Z.eqb_eq in Hg. by rewrite Hg.
Qed.

(** ** Runs *)

Definition answer : lact := LSet "user" (VString "bob") (LWriteHeader 201 (LWrite "hel" (LFlush (LWrite "lo" LDone)))).

Lemma logger_accurate_witness :
  let '(w, nw, d', _) := serve (fun i => Z.of_nat i) 0 answer new_rw (mkW 0 0 false None) newRecord in
  exists e, emitted (fun _ => "1s") true false 0 9 nw d' = Some e /\ default (VInt 0) (Get "status" e) = VInt 201 /\
    default (VInt 0) (Get "responseBodySize" e) = VInt 5.
Proof.
  pose proof (logger_accurate (fun _ => "1s") (fun i => Z.of_nat i) answer newRecord true false 9 0) as H.
  destruct (serve _ _ _ _ _ _) as [[[w nw] d'] ok] eqn:E. destruct H as (_ & _ & H); [repeat split; reflexivity|].
  vm_compute in E. injection E as <- <- <- <-. destruct (H eq_refl) as (e & He & H'). exists e. split; [exact He|].
  apply H'. intros c h [= <- _]. discriminate.
Defined.

(** A response the handler never starts is a 200 to the client; its status is logged as
    0, and dropped from the record when empty fields are omitted. *)
Example logger_implicit_status :
  (fun s => (fst <$> sent (rw_WriteHeader 200 s.1.1.1), (fun e => Get "status" e) <$> emitted (fun _ => "1s") true false 0 9 s.1.1.2 s.1.2))
    (serve (fun i => Z.of_nat i) 0 LDone new_rw (mkW 0 0 false None) newRecord) = (Some 200, Some None).
Proof. vm_compute. done. Qed.

(** A final status after an informational one is dropped, for the client and the log. *)
Example logger_early_hints :
  let a := LWriteHeader 103 (LWriteHeader 404 (LWrite "no" LDone)) in
  (fun s => (fst <$> sent s.1.1.1, statusCode s.1.1.2)) (serve (fun i => Z.of_nat i) 0 a new_rw (mkW 0 0 false None) newRecord) = (Some 200, 103) /\
  fst <$> sent (respond (plain a)) = Some 404.
Proof. vm_compute. done. Qed.

End LoggerFacts.
