(* ===== verification/FileServer.v ===== *)
(** * The file server

    [src/pkg/fileserver/fileserver.go].  Files come from net/http's file server over a file
    system that refuses what resolves outside its root and, unless asked, directories;
    a 404 of the file server is replaced by the next handler.

    Parameters: opening a name under the root ([http.Dir.Open]), resolving a path to its
    real one ([filepath.Abs] and [filepath.EvalSymlinks], here as the list of its
    elements), [Stat], and the tree of net/http's file server.  [filepath.Rel] is
    written out for absolute clean paths. *)

From Stdlib Require Import Ascii.
From S2P Require Import Prelude GoStrings GoNet Middleware UpstreamHandler CacheKeys Headers Timeout.

Module FileServer.

(** ** The file system *)

(** The elements of both paths after those they share. *)
Fixpoint strip (base targ : list string) : list string * list string :=
  match base, targ with
  | b :: base', t :: targ' => if String.eqb b t then strip base' targ' else (base, targ)
  | _, _ => (base, targ)
  end.

(** [filepath.Rel]. *)
Definition Rel (base targ : list string) : string :=
  let '(b, t) := strip base targ in
  match b, t with
  | [], [] => "."
  | _, _ => Join "/" (replicate (length b) ".." ++ t)
  end.

Section FileSystem.
Context (dir_open Abs : string -> option string) (EvalSymlinks : string -> option (list string)) (is_dir : string -> option bool).

Definition resolveReal (p : string) : option (list string) := abs ← Abs p; EvalSymlinks abs.

Record fileSystem := mkFS { root : string; listDir : bool }.

(** [true] is a nil error. *)
Definition checkInsideRoot (fs : fileSystem) (target : string) : bool :=
  match resolveReal (root fs), resolveReal target with
  | Some realRoot, Some realTarget =>
      let rel := Rel realRoot realTarget in
      negb (String.eqb rel ".." || HasPrefix "../" rel)
  | _, _ => false
  end.

(** The name of the file opened. *)
Definition Open (fs : fileSystem) (name : string) : option string :=
  f ← dir_open name;
  if negb (checkInsideRoot fs f) then None
  else if listDir fs then Some f
  else d ← is_dir f; if (d : bool) then None else Some f.

End FileSystem.

(** ** The response writer *)

Record responseWriter := mkW { header_ : header; wroteHeader : bool; noop : bool }.

(** [for k, v := range w.header { for _, vv := range v { h.Add(k, vv) } }]. *)
Definition add_headers (own h : header) : header :=
  map_fold (fun k vs h => foldl (fun h v => HAdd h (CanonicalHeaderKey k) v) h vs) h own.

(** One tree after another. *)
Fixpoint seq (a k : act) : act :=
  match a with
  | Done => k
  | Panic => Panic
  | ReadHeader f => ReadHeader (fun h => seq (f h) k)
  | UpdateHeader f a => UpdateHeader f (seq a k)
  | WriteHeader c a => WriteHeader c (seq a k)
  | Write d a => Write d (seq a k)
  | Flush a => Flush (seq a k)
  end.

Definition w_WriteHeader (next : act) (code : Z) (w : responseWriter) (k : responseWriter -> act) : act :=
  if wroteHeader w then k w
  else if code =? 404 then seq next (k (mkW (header_ w) true true))
  else UpdateHeader (add_headers (header_ w)) (WriteHeader code (k (mkW (header_ w) true (noop w)))).

(** The wrapper has no [Flush]: a type assertion for it fails. *)
Fixpoint wrap (next : act) (a : act) (w : responseWriter) : act :=
  match a with
  | Done => Done
  | Panic => Panic
  | ReadHeader k => wrap next (k (header_ w)) w
  | UpdateHeader f k => wrap next k (mkW (f (header_ w)) (wroteHeader w) (noop w))
  | WriteHeader code k => w_WriteHeader next code w (fun w => wrap next k w)
  | Write d k => w_WriteHeader next 200 w (fun w => if noop w then wrap next k w else Write d (wrap next k w))
  | Flush k => wrap next k w
  end.

(** [fs] is net/http's file server over the file system. *)
Definition ServeHandler (fs : Handler) : Middleware := fun h r => wrap (h r) (fs r) (mkW ∅ false false).

End FileServer.

Module FileServerFacts.
Import FileServer.

(** ** Inside the root *)

(** An element of a real path. *)
Definition element (x : string) : Prop := x <> ".." /\ "/"%char ∉ chars x.

Lemma strip_prefix base targ : (strip base targ).1 = [] <-> base `prefix_of` targ.
Proof.
  revert targ. induction base as [|b base IH]; intros targ; cbn.
  - split; [intros _; apply prefix_nil|done].
  - destruct targ as [|t targ]; [split; [done|by intros H%prefix_nil_inv]|]. destruct (String.eqb_spec b t) as [->|Hne].
    + rewrite IH. split; [by apply prefix_cons|by apply prefix_cons_inv_2].
    + split; [done|]. intros H. by apply prefix_cons_inv_1 in H.
Qed.

Lemma strip_tail base targ : (strip base targ).2 `suffix_of` targ.
Proof.
  revert targ. induction base as [|b base IH]; intros targ; cbn; [done|]. destruct targ as [|t targ]; [done|].
  destruct (String.eqb b t); [by apply suffix_cons_r|done].
Qed.

Lemma join_up l : exists rest, Join "/" (".." :: l) = ".." /\ rest = "" \/ Join "/" (".." :: l) = "../" +:+ rest.
Proof. destruct l as [|x l]; [exists ""; by left|]. exists (Join "/" (x :: l)). by right. Qed.

Lemma HasPrefix_slash x s : "/"%char ∉ chars x -> HasPrefix "../" (x +:+ "/" +:+ s) = true -> x = "..".
Proof.
  intros Hx H. apply HasPrefix_app in H as [t H].
  assert ("/"%char ∉ chars "..") as Hd by (rewrite list_elem_of_In; intros [|[|[]]]; done).
  by destruct (CacheKeysFacts.cut_inj "/" x ".." s t Hx Hd H).
Qed.

Lemma HasPrefix_short x : "/"%char ∉ chars x -> HasPrefix "../" x = false.
Proof.
  intros Hx. destruct (HasPrefix "../" x) eqn:H; [|done]. apply HasPrefix_app in H as [t ->]. destruct Hx.
  change (chars ("../" +:+ t)) with ("."%char :: "."%char :: "/"%char :: chars t). right. right. left.
Qed.

(** The relative path climbs exactly when the target is not under the root. *)
Lemma Rel_inside base targ : Forall element targ ->
  String.eqb (Rel base targ) ".." || HasPrefix "../" (Rel base targ) = negb (bool_decide (base `prefix_of` targ)).
Proof.
  intros Ht. unfold Rel. pose proof (strip_prefix base targ) as Hp. pose proof (strip_tail base targ) as Hs.
  destruct (strip base targ) as [b t]. cbn [fst snd] in *. destruct b as [|b0 b].
  - rewrite bool_decide_true by tauto. assert (Forall element t) as Het.
    { destruct Hs as [u ->]. by apply Forall_app in Ht as [_ Ht]. }
    destruct Het as [|x t [Hx1 Hx2] _]; [done|]. cbn [length replicate app].
    destruct t as [|y t].
    + cbn [Join]. rewrite HasPrefix_short by done. by rewrite (proj2 (String.eqb_neq x "..") Hx1).
    + change (Join "/" (x :: y :: t)) with (x +:+ "/" +:+ Join "/" (y :: t)). cbn [negb]. apply orb_false_iff. split.
      * apply String.eqb_neq. intros E. apply (f_equal chars) in E. rewrite chars_app in E.
        assert ("/"%char ∈ chars "..") as Hin by (rewrite <- E; apply elem_of_app; right; left).
        apply list_elem_of_In in Hin as [|[|[]]]; done.
      * destruct (HasPrefix _ _) eqn:H; [|done]. by apply HasPrefix_slash in H.
  - rewrite bool_decide_false; [|intros H; by apply Hp in H]. cbn [length replicate app negb].
    destruct (join_up (replicate (length b) ".." ++ t)) as [rest [[-> _]| ->]]; [done|].
    rewrite orb_true_iff. right. reflexivity.
Qed.

(** C36: The file server stays inside its root. A file is opened only if the path it
    really resolves to, symbolic links followed, is the real root or below it, and
    unless listing is on it is not a directory; and every file for which this holds is
    opened. *)
Theorem fileserver_confined dir_open Abs EvalSymlinks is_dir fs name f :
  (forall p l, EvalSymlinks p = Some l -> Forall element l) ->
  dir_open name = Some f ->
  Open dir_open Abs EvalSymlinks is_dir fs name = Some f <->
  (exists realRoot realFile, resolveReal Abs EvalSymlinks (root fs) = Some realRoot /\
     resolveReal Abs EvalSymlinks f = Some realFile /\ realRoot `prefix_of` realFile) /\
  (listDir fs = true \/ is_dir f = Some false).
Proof.
  intros Hel Hf. unfold Open. rewrite Hf. cbn [mbind option_bind]. unfold checkInsideRoot.
  assert (forall p l, resolveReal Abs EvalSymlinks p = Some l -> Forall element l) as Hel'
    by (intros p l (abs & _ & H)%bind_Some; by eapply Hel).
  destruct (resolveReal Abs EvalSymlinks (root fs)) as [R|] eqn:HR; [|split; [done|intros [(? & ? & ? & _) _]; done]].
  destruct (resolveReal Abs EvalSymlinks f) as [T|] eqn:HT; [|split; [done|intros [(? & ? & _ & ? & _) _]; done]].
  rewrite Rel_inside by by eapply Hel'. rewrite negb_involutive. destruct (decide (R `prefix_of` T)) as [Hp|Hp].
  - rewrite bool_decide_true by done. cbn [negb]. destruct (listDir fs).
    + split; [intros _|done]. split; [by exists R, T|by left].
    + destruct (is_dir f) as [[]|]; cbn; split; try done.
      * by intros [_ [|]].
      * intros _. split; [by exists R, T|by right].
      * by intros [_ [|]].
  - rewrite bool_decide_false by done. cbn [negb]. split; [done|]. intros [(R' & T' & [= <-] & [= <-] & ?) _]. done.
Qed.

(** ** Falling through *)

Lemma exec_seq a k w : exec (seq a k) w = let '(w, ok) := exec a w in if ok then exec k w else (w, false).
Proof. revert w. induction a as [| |f IH|f a IH|c a IH|d a IH|a IH]; intros w; cbn; done. Qed.

(** Behind a 404 nothing of the file server's reaches the client. *)
Lemma wrap_noop next a w own g : TimeoutFacts.steady a -> hdr g = own ->
  exec (wrap next a (mkW own true true)) w = (w, (exec a g).2).
Proof.
  intros Ha. revert own g. induction Ha as [| |k _ IH|f k _ IH|code k _ _ IH|d k _ IH]; intros own g Hg; cbn [wrap exec]; try done.
  - rewrite Hg. by apply IH.
  - apply IH. cbn. by rewrite Hg.
  - apply IH. unfold rw_WriteHeader. by repeat case_match.
  - apply IH. unfold rw_WriteHeader. cbn. by repeat case_match.
Qed.

(** Once its header is out the rest of the file server's body follows. *)
Lemma wrap_open next a w own g x y : TimeoutFacts.steady a -> hdr g = own -> sent g = Some x -> sent w = Some y ->
  let q := exec (wrap next a (mkW own true false)) w in
  sent q.1 = Some y /\ sent (exec a g).1 = Some x /\ q.2 = (exec a g).2 /\
  exists t, body q.1 = body w +:+ t /\ body (exec a g).1 = body g +:+ t.
Proof.
  intros Ha. revert own g w. induction Ha as [| |k _ IH|f k _ IH|code k _ _ IH|d k _ IH]; intros own g w Hg Hx Hy; cbn [wrap exec].
  - split_and!; try done. exists "". by rewrite !append_nil_r.
  - split_and!; try done. exists "". by rewrite !append_nil_r.
  - rewrite Hg. by apply IH.
  - apply (IH (f own) (mkRW (f (hdr g)) (sent g) (early g) (body g)) w); try done. cbn. by rewrite Hg.
  - unfold w_WriteHeader. cbn [wroteHeader]. rewrite (HeadersFacts.rw_WriteHeader_sent code g x Hx). by apply IH.
  - unfold w_WriteHeader. cbn [wroteHeader noop exec]. rewrite (HeadersFacts.rw_WriteHeader_sent 200 g x Hx), (HeadersFacts.rw_WriteHeader_sent 200 w y Hy).
    destruct (IH own (mkRW (hdr g) (sent g) (early g) (body g +:+ d)) (mkRW (hdr w) (sent w) (early w) (body w +:+ d)) Hg Hx Hy)
      as (H1 & H2 & H3 & t & H4 & H5). split_and!; try done. exists (d +:+ t). cbn [body] in *. by rewrite H4, H5, !append_assoc.
Qed.

(** How the wrapped response compares with the file server's own, [p]. *)
Definition falls (next : act) (w : rw) (p q : rw * bool) : Prop :=
  match sent p.1 with
  | None => q = (w, p.2)
  | Some (c, h) =>
      if c =? 404 then q = (let '(w', ok) := exec next w in (w', ok && p.2))
      else sent q.1 = Some (c, add_headers h (hdr w)) /\ body q.1 = body w +:+ body p.1 /\ q.2 = p.2
  end.

Lemma wrap_header next a code w g K :
  TimeoutFacts.steady a -> informational code = false -> sent g = None -> body g = "" -> sent w = None ->
  (forall own n, K (mkW own true n) = wrap next a (mkW own true n)) ->
  falls next w (exec a (rw_WriteHeader code g)) (exec (w_WriteHeader next code (mkW (hdr g) false false) K) w).
Proof.
  intros Ha Hi Hg Hb Hw HK. unfold w_WriteHeader. cbn [wroteHeader header_ noop]. rewrite !HK, (HeadersFacts.rw_WriteHeader_new code g Hg Hi).
  destruct (wrap_open next a (mkRW (add_headers (hdr g) (hdr w)) (Some (code, add_headers (hdr g) (hdr w))) (early w) (body w)) (hdr g)
    (mkRW (hdr g) (Some (code, hdr g)) (early g) (body g)) (code, hdr g) (code, add_headers (hdr g) (hdr w)) Ha eq_refl eq_refl eq_refl)
    as (H1 & H2 & H3 & t & H4 & H5).
  unfold falls. rewrite H2. destruct (Z.eqb_spec code 404) as [->|Hc].
  - rewrite exec_seq. destruct (exec next w) as [w' ok]. destruct ok; [|done].
    rewrite (wrap_noop next a w' (hdr g) (mkRW (hdr g) (Some (404, hdr g)) (early g) (body g)) Ha eq_refl). done.
  - cbn [exec]. rewrite (HeadersFacts.rw_WriteHeader_new code (mkRW _ _ _ _) Hw Hi). cbn [hdr early body] in *.
    rewrite H1, H4, H5. split_and!; [done|by rewrite Hb|exact H3].
Qed.

Lemma wrap_falls next a w g :
  TimeoutFacts.steady a -> sent g = None -> body g = "" -> sent w = None ->
  falls next w (exec a g) (exec (wrap next a (mkW (hdr g) false false)) w).
Proof.
  intros Ha. revert g. induction Ha as [| |k _ IH|f k _ IH|code k Hi Hk _|d k Hk _]; intros g Hg Hb Hw; cbn [wrap].
  - unfold falls. cbn. by rewrite Hg.
  - unfold falls. cbn. by rewrite Hg.
  - by apply IH.
  - by apply (IH (mkRW (f (hdr g)) (sent g) (early g) (body g))).
  - by apply wrap_header.
  - replace (exec (Write d k) g) with (exec (Write d k) (rw_WriteHeader 200 g)) by (cbn; by rewrite TimeoutFacts.rw_200_idem).
    apply (wrap_header next (Write d k)); try done. by constructor.
Qed.

(** The file server falls through.  If net/http's file server answers 404 the client
    gets exactly the next handler's response and nothing of the 404; if it answers
    otherwise the client gets its status and body, its headers added to those set by
    outer middlewares, and the next handler is not called. *)
Theorem fileserver_falls_through (fs h : Handler) r w :
  TimeoutFacts.steady (fs r) -> sent w = None -> falls (h r) w (exec (fs r) new_rw) (exec (ServeHandler fs h r) w).
Proof. intros Ha Hw. by apply wrap_falls. Qed.

(** ** Runs *)

Definition request : Request := mkRequest "GET" "a" "/x" "/x" "" false ∅.
Definition missing : Handler := NotFoundHandler.
Definition found : Handler := fun _ => UpdateHeader <["Content-Type" := ["text/css"]]> (WriteHeader 200 (Write "a{}" Done)).
Definition spa : Handler := fun _ => Write "index" Done.

Lemma fileserver_falls_through_witness :
  body (exec (ServeHandler missing spa request) new_rw).1 = "index" /\ body (exec (ServeHandler found spa request) new_rw).1 = "a{}".
Proof.
  split.
  - assert (exec (ServeHandler missing spa request) new_rw = (let '(w', ok) := exec (spa request) new_rw in (w', ok && true))) as H
      by exact (fileserver_falls_through missing spa request new_rw ltac:(repeat constructor) eq_refl).
    rewrite H. reflexivity.
  - apply (fileserver_falls_through found spa request new_rw ltac:(repeat constructor) eq_refl).
Defined.

(** A link inside the root that leads out of it. *)
Definition d_open (name : string) : option string := Some ("/srv" +:+ name).
Definition d_real (p : string) : option (list string) :=
  if String.eqb p "/srv" then Some ["srv"]
  else if String.eqb p "/srv/link" then Some ["etc"; "passwd"] else if String.eqb p "/srv/..a" then Some ["srv"; "..a"] else None.

Lemma fileserver_confined_witness :
  Open d_open Some d_real (fun _ => Some false) (mkFS "/srv" false) "/link" = None /\
  Open d_open Some d_real (fun _ => Some false) (mkFS "/srv" false) "/..a" = Some "/srv/..a".
Proof.
  split; [vm_compute; reflexivity|].
  apply (fileserver_confined d_open Some d_real (fun _ => Some false) (mkFS "/srv" false) "/..a" "/srv/..a").
  - intros p l. unfold d_real. repeat case_match; intros; simplify_eq; repeat constructor; try discriminate;
      rewrite list_elem_of_In; intros H'; repeat (destruct H' as [H'|H']; [discriminate|]); done.
  - reflexivity.
  - split; [|by right]. exists ["srv"], ["srv"; "..a"]. split_and!; [reflexivity|reflexivity|by exists ["..a"]].
Defined.

End FileServerFacts.
