(* ===== verification/Transport.v ===== *)
(** * Upstream transports

    [src/pkg/upstream/transport.go].  Each transport builds, on its first round trip, one
    or more of net/http's transports from its fields and their defaults, and then picks
    one by the request and rewrites the request's URL for it.  What is built is a record;
    the exchange itself is net/http's. *)

From Stdlib Require Import Ascii.
From S2P Require Import Prelude GoStrings GoNet Headers.

Module Transport.

Definition defaultDialTimeout : Z := 5 * Second.
Definition defaultMaxIdleConns : Z := 32.
Definition defaultIdleConnTimeout : Z := 10 * Minute.
Definition defaultResponseHeaderTimeout : Z := Minute.
Definition defaultTLSHandshakeTimeout : Z := 5 * Second.

(** How a connection is opened: by the caller's function, by a [net.Dialer] over TCP, or
    by one over a Unix socket. *)
Inductive dialer :=
  | Custom (id : nat)
  | TCP (Timeout KeepAlive : Z)
  | Unix (Timeout KeepAlive : Z).

Inductive tlsConfig := NoTLS | InsecureSkipVerify | UserTLS (id : nat).

(** [http.Transport], the fields in use. *)
Record httpTransport := mkHTTP {
  ProxyFromEnvironment : bool;
  DialContext_ : dialer;
  TLS_ : tlsConfig;
  KeepAlivesOff : bool;
  MaxConnsPerHost : Z;
  MaxIdleConns_ : Z;
  MaxIdleConnsPerHost : Z;
  IdleConnTimeout_ : Z;
  TLSHandshakeTimeout : Z;
  ExpectContinue : Z;
  CompressionOff : bool;
  ResponseHeaderTimeout_ : Z;
}.

Inductive transport := HTTP1 (t : httpTransport) | H2C (dial : dialer) (CompressionOff : bool).

Record Request := mkRequest { Scheme : string; UHost : string; RHeader : header }.
Definition with_scheme (s : string) (r : Request) : Request := mkRequest s (UHost r) (RHeader r).

Definition or_default (v d : Z) : Z := if v =? 0 then d else v.

(** The fields shared by the types below. *)
Record config := mkConfig {
  DialTimeout : Z;
  TCPKeepAlive : Z;
  DisableKeepAlives : bool;
  MaxConn : Z;
  MaxIdleConns : Z;
  IdleConnTimeout : Z;
  ExpectContinueTimeout : Z;
  ResponseHeaderTimeout : Z;
  DisableCompression : bool;
  TLSClientConfig : tlsConfig;
  DialContext : option nat;
}.

Definition dial (c : config) : dialer :=
  match DialContext c with
  | Some id => Custom id
  | None => TCP (or_default (DialTimeout c) defaultDialTimeout) (TCPKeepAlive c)
  end.

Definition tls (c : config) : tlsConfig := match TLSClientConfig c with NoTLS => InsecureSkipVerify | t => t end.

Definition HTTPTransport_init (c : config) : httpTransport :=
  mkHTTP true (dial c) NoTLS (DisableKeepAlives c) (MaxConn c) 0 (or_default (MaxIdleConns c) defaultMaxIdleConns)
    (or_default (IdleConnTimeout c) defaultIdleConnTimeout) 0 (ExpectContinueTimeout c) true
    (or_default (ResponseHeaderTimeout c) defaultResponseHeaderTimeout).

Definition HTTPTransport_RoundTrip (c : config) (r : Request) : transport * Request :=
  (HTTP1 (HTTPTransport_init c), with_scheme "http" r).

Definition HTTPSTransport_init (c : config) : httpTransport :=
  mkHTTP true (dial c) (tls c) (DisableKeepAlives c) (MaxConn c) 0 (or_default (MaxIdleConns c) defaultMaxIdleConns)
    (or_default (IdleConnTimeout c) defaultIdleConnTimeout) defaultTLSHandshakeTimeout (ExpectContinueTimeout c) true
    (or_default (ResponseHeaderTimeout c) defaultResponseHeaderTimeout).

Definition HTTPSTransport_RoundTrip (c : config) (r : Request) : transport * Request :=
  (HTTP1 (HTTPSTransport_init c), with_scheme "https" r).

(** [H2CTransport]: either transport may be the caller's. *)
Record H2CTransport := mkH2C { HTTP2Transport : option (bool); HTTPTransport : option httpTransport; h2c_dial : option nat }.

Definition H2CTransport_dial (t : H2CTransport) : dialer :=
  match h2c_dial t with Some id => Custom id | None => TCP defaultDialTimeout defaultIdleConnTimeout end.

Definition H2CTransport_h1 (t : H2CTransport) : httpTransport :=
  match HTTPTransport t with
  | Some h => h
  | None => mkHTTP true (H2CTransport_dial t) NoTLS false 0 defaultMaxIdleConns defaultMaxIdleConns
              defaultIdleConnTimeout 0 0 true defaultResponseHeaderTimeout
  end.

Definition H2CTransport_RoundTrip (t : H2CTransport) (r : Request) : transport * Request :=
  let r := with_scheme "http" r in
  (if HExists (RHeader r) "Upgrade" then HTTP1 (H2CTransport_h1 t)
   else H2C (H2CTransport_dial t) (default true (HTTP2Transport t)), r).

Definition UnixTransport_init (c : config) : httpTransport :=
  mkHTTP false (Unix 0 0) NoTLS (DisableKeepAlives c) 0 0 (or_default (MaxIdleConns c) defaultMaxIdleConns)
    (or_default (IdleConnTimeout c) defaultIdleConnTimeout) 0 (ExpectContinueTimeout c) true
    (or_default (ResponseHeaderTimeout c) defaultResponseHeaderTimeout).

Definition UnixTransport_RoundTrip (c : config) (r : Request) : transport * Request :=
  (HTTP1 (UnixTransport_init c), mkRequest "http" ("/" +:+ UHost r) (RHeader r)).

(** [Transport]: one of three by the scheme. *)
Definition httpTr (c : config) : httpTransport :=
  mkHTTP true (dial c) (tls c) (DisableKeepAlives c) (MaxConn c) 0 (or_default (MaxIdleConns c) defaultMaxIdleConns)
    (or_default (IdleConnTimeout c) defaultIdleConnTimeout) 0 (ExpectContinueTimeout c) (DisableCompression c)
    (or_default (ResponseHeaderTimeout c) defaultResponseHeaderTimeout).
Definition unixTr (c : config) : httpTransport :=
  mkHTTP false (Unix (or_default (DialTimeout c) defaultDialTimeout) (TCPKeepAlive c)) NoTLS (DisableKeepAlives c) 0 0
    (or_default (MaxIdleConns c) defaultMaxIdleConns) (or_default (IdleConnTimeout c) defaultIdleConnTimeout) 0
    (ExpectContinueTimeout c) (DisableCompression c) (or_default (ResponseHeaderTimeout c) defaultResponseHeaderTimeout).

Definition Transport_RoundTrip (c : config) (r : Request) : transport * Request :=
  if String.eqb (Scheme r) "h2c" then
    (if HExists (RHeader r) "Upgrade" then HTTP1 (httpTr c) else H2C (dial c) (DisableCompression c), with_scheme "http" r)
  else if String.eqb (Scheme r) "unix" then (HTTP1 (unixTr c), with_scheme "http" r)
  else (HTTP1 (httpTr c), r).

(** ** Addresses *)

(** The network and address dialed for net/http's [addr]. *)
Definition dialed (d : dialer) (addr : string) : string * string :=
  match d with Unix _ _ => ("unix", TrimSuffix addr ":80") | _ => ("tcp", addr) end.

End Transport.

Module TransportFacts.
Import Transport.

(** A transport that cannot wait for ever for an idle connection, response headers, or a
    TCP connection it dials itself, and that bounds the idle connections it keeps. *)
Definition bounded_http (t : httpTransport) : Prop :=
  0 < IdleConnTimeout_ t /\ 0 < ResponseHeaderTimeout_ t /\ 0 < MaxIdleConnsPerHost t /\
  match DialContext_ t with TCP timeout _ => 0 < timeout | _ => True end.

Definition nonneg (c : config) : Prop :=
  0 <= DialTimeout c /\ 0 <= IdleConnTimeout c /\ 0 <= ResponseHeaderTimeout c /\ 0 <= MaxIdleConns c.

Lemma or_default_pos v d : 0 <= v -> 0 < d -> 0 < or_default v d.
Proof. intros Hv Hd. unfold or_default. destruct (Z.eqb_spec v 0); lia. Qed.

Lemma dial_bounded c : nonneg c -> match dial c with TCP timeout _ => 0 < timeout | _ => True end.
Proof. intros (H & _). unfold dial. destruct (DialContext c); [done|]. by apply or_default_pos. Qed.

(** Every transport the package builds is well formed: whatever fields are left at
    zero, the idle timeout, the wait for response headers, the idle pool and the dialing
    of a TCP connection are bounded (the last unless the caller dials). *)
Theorem transport_bounded c t :
  nonneg c -> t ∈ [HTTPTransport_init c; HTTPSTransport_init c; UnixTransport_init c; httpTr c; unixTr c] -> bounded_http t.
Proof.
  intros Hn Ht. pose proof (dial_bounded c Hn) as Hd. destruct Hn as (H1 & H2 & H3 & H4).
  repeat (apply elem_of_cons in Ht as [->|Ht]); [..|by apply elem_of_nil in Ht]; split_and!; try done; by apply or_default_pos.
Qed.

(** The dynamic transport picks by the scheme.  A request for "h2c" goes over
    cleartext HTTP/2, unless it asks for an upgrade, which only HTTP/1 can carry; one for
    "unix" goes over the socket; any other goes over HTTP/1 or TLS as it is.  The scheme
    sent on is one net/http knows, the host and headers are untouched, and no request
    that asks for an upgrade goes over HTTP/2, here and in [H2CTransport]. *)
Theorem transport_picks c t2 r :
  let '(t, r') := Transport_RoundTrip c r in
  UHost r' = UHost r /\ RHeader r' = RHeader r /\
  Scheme r' = (if bool_decide (Scheme r ∈ ["h2c"; "unix"]) then "http" else Scheme r) /\
  t = (if bool_decide (Scheme r = "h2c") && negb (HExists (RHeader r) "Upgrade") then H2C (dial c) (DisableCompression c)
       else if bool_decide (Scheme r = "unix") then HTTP1 (unixTr c) else HTTP1 (httpTr c)) /\
  (HExists (RHeader r) "Upgrade" = true -> exists h h', t = HTTP1 h /\ (H2CTransport_RoundTrip t2 r).1 = HTTP1 h').
Proof.
  unfold Transport_RoundTrip, H2CTransport_RoundTrip. cbn [with_scheme RHeader fst].
  destruct (String.eqb_spec (Scheme r) "h2c") as [E|E].
  - rewrite E. destruct (HExists (RHeader r) "Upgrade"); cbn; split_and!; try done; eauto.
  - destruct (String.eqb_spec (Scheme r) "unix") as [E'|E'].
    + rewrite E'. cbn. split_and!; try done. intros ->. eauto.
    + rewrite (bool_decide_false (Scheme r ∈ _)) by (rewrite !elem_of_cons, elem_of_nil; tauto).
      rewrite !bool_decide_false by done. cbn. split_and!; try done. intros ->. eauto.
Qed.

(** The socket is the host's path: the port net/http adds for "http" is taken off. *)
Lemma unix_dials_path timeout ka path : dialed (Unix timeout ka) (path +:+ ":80") = ("unix", path).
Proof. unfold dialed. by rewrite TrimSuffix_app. Qed.

(** A round trip rewrites the request it is given, and a retry sends that request again:
    a second attempt at a "unix" or "h2c" target goes over TCP and HTTP/1, whatever host
    the balancer sets for it. *)
Lemma transport_retry_loses_scheme c r host :
  Scheme r = "unix" \/ Scheme r = "h2c" ->
  let r' := (Transport_RoundTrip c r).2 in
  (Transport_RoundTrip c (mkRequest (Scheme r') host (RHeader r'))).1 = HTTP1 (httpTr c).
Proof. unfold Transport_RoundTrip. intros [-> | ->]; reflexivity. Qed.

(** The dynamic transport sets no limit on TLS handshakes (zero is none), where
    [HTTPSTransport] does. *)
Lemma transport_tls_unbounded c :
  TLSHandshakeTimeout (httpTr c) = 0 /\ TLSHandshakeTimeout (HTTPSTransport_init c) = 5 * Second.
Proof. done. Qed.

Definition zero : config := mkConfig 0 0 false 0 0 0 0 0 false NoTLS None.

Lemma transport_bounded_witness : bounded_http (unixTr zero).
Proof. apply (transport_bounded zero); [vm_compute; repeat split; congruence|]. do 4 right. left. Defined.

End TransportFacts.
