(* ===== verification/Router.v ===== *)
(** * The router

    [src/pkg/router/router.go] and [src/pkg/location/regexp.go].  The router registers its
    middlewares with net/http's [ServeMux], which is written out here for patterns that
    are plain paths, requests other than CONNECT and paths without escapes: an exact
    pattern, or the longest pattern ending in a slash that begins the path; a path that is
    not clean, or lacks the slash of a registered subtree, is redirected.  [http.Redirect]
    and the compiled regular expression are parameters. *)

From Stdlib Require Import Ascii.
From S2P Require Import Prelude GoStrings GoNet UpstreamHandler Middleware.

Module Router.

(** The router is its map of patterns. *)
Definition New : gmap string Middleware := ∅.

(** The map is made on first use: a nil map and an empty one read alike. *)
Definition Handle (pattern : string) (h : Middleware) (m : gmap string Middleware) : gmap string Middleware :=
  let m := <[pattern := h]> m in
  if HasSuffix "/" pattern then m else <[pattern +:+ "/" := h]> m.

(** ** net/http's ServeMux *)

Definition cleanPath (p : string) : string :=
  if String.eqb p "" then "/" else Upstream.cleanRequestPath (if HasPrefix "/" p then p else "/" +:+ p).

(** The handler of the longest subtree pattern; [q] is what was passed of the path. *)
Fixpoint longest (mux : gmap string Handler) (q rest : string) : option Handler :=
  match rest with
  | EmptyString => None
  | String c rest =>
      let q := q +:+ String c "" in
      match longest mux q rest with
      | Some h => Some h
      | None => if Ascii.eqb c "/" then mux !! q else None
      end
  end.

Definition mux_match (mux : gmap string Handler) (p : string) : option Handler :=
  match mux !! p with Some h => Some h | None => longest mux "" p end.

Section Serve.
Context (Redirect : Request -> string -> Z -> act).

Definition mux_serve (mux : gmap string Handler) : Handler := fun r =>
  let p := cleanPath (Path r) in
  if bool_decide (mux !! p = None) && negb (HasSuffix "/" p) && bool_decide (is_Some (mux !! (p +:+ "/")))
  then Redirect r (p +:+ "/") 301
  else if negb (String.eqb p (Path r)) then Redirect r p 301
  else match mux_match mux p with Some h => h r | None => NotFoundHandler r end.

Definition ServeHandler (m : gmap string Middleware) : Middleware := fun h =>
  let mux := (fun x : Middleware => x h) <$> m in
  mux_serve (match m !! "/" with Some _ => mux | None => <["/" := h]> mux end).

End Serve.

(** [location.RegExp]: [compile] is [regexp.MustCompile], [None] its panic. *)
Definition RegExp (compile : string -> option (string -> bool)) (pattern : string) : option Block.Block :=
  if String.eqb pattern "" then Some (Block.New None)
  else (fun re => Block.New (Some (fun r : Request => Some (re (Path r))))) <$> compile pattern.

End Router.

Module RouterFacts.
Import Router.

Lemma app_inj_len a b t u : a +:+ t = b +:+ u -> String.length a = String.length b -> a = b.
Proof.
  revert b. induction a as [|c a IH]; intros [|d b] E Hl; [done..|]. rewrite !append_cons in E. injection E as -> E. injection Hl as Hl.
  f_equal. by apply IH.
Qed.

(** ** The longest subtree *)

Lemma HasSuffix_cons c d x s : HasSuffix c (String d (String x s)) = HasSuffix c (String x s).
Proof. exact (HasSuffix_app c (String d "") (String x s) ltac:(done)). Qed.

Lemma longest_None mux q rest : longest mux q rest = None ->
  forall pre suf, rest = pre +:+ suf -> HasSuffix slash pre = true -> mux !! (q +:+ pre) = None.
Proof.
  revert q. induction rest as [|c rest IH]; intros q H [|d pre] suf Er Hs; [done..|]. cbn [longest] in H.
  destruct (longest mux (q +:+ String c "") rest) as [h'|] eqn:E; [done|]. rewrite append_cons in Er. injection Er as <- Er.
  destruct pre as [|x pre].
  - change (Ascii.eqb slash c = true) in Hs. apply Ascii.eqb_eq in Hs as <-. exact H.
  - rewrite HasSuffix_cons in Hs. specialize (IH _ E _ suf Er Hs). by rewrite append_assoc in IH.
Qed.

Lemma longest_Some mux q rest h : longest mux q rest = Some h ->
  exists pre suf, rest = pre +:+ suf /\ HasSuffix slash pre = true /\ mux !! (q +:+ pre) = Some h /\
    forall pre' suf', rest = pre' +:+ suf' -> HasSuffix slash pre' = true -> is_Some (mux !! (q +:+ pre')) ->
      (String.length pre' <= String.length pre)%nat.
Proof.
  revert q. induction rest as [|c rest IH]; intros q H; [done|]. cbn [longest] in H.
  destruct (longest mux (q +:+ String c "") rest) as [h'|] eqn:E.
  - injection H as ->. destruct (IH _ E) as (pre & suf & E1 & E2 & E3 & Emax). exists (String c pre), suf. split_and!.
    + by rewrite E1.
    + destruct pre as [|x pre]; [done|]. by rewrite HasSuffix_cons.
    + by rewrite append_assoc in E3.
    + intros [|d pre'] suf' Er Hs Hm; [done|]. rewrite append_cons in Er. injection Er as <- Er.
      destruct pre' as [|x pre']; [cbn; lia|]. cbn [String.length]. apply le_n_S. rewrite HasSuffix_cons in Hs.
      apply (Emax (String x pre') suf' Er Hs). by rewrite append_assoc.
  - destruct (Ascii.eqb_spec c "/") as [->|]; [|done]. exists "/", rest. split_and!; [done|done|done|].
    intros [|d [|x pre']] suf' Er Hs Hm; cbn; [lia..|]. rewrite append_cons in Er. injection Er as <- Er. rewrite HasSuffix_cons in Hs.
    pose proof (longest_None _ _ _ E _ suf' Er Hs) as Hn. rewrite append_assoc in Hn.
    destruct Hm as [y Hy]. discriminate (eq_trans (eq_sym Hy) Hn).
Qed.

(** ** Registration *)

(** A pattern of the router: the root, or a path that does not end in a slash. *)
Definition plain (pat : string) : Prop := pat = "/" \/ HasPrefix "/" pat = true /\ HasSuffix slash pat = false.

(** The subtree pattern registered for it. *)
Definition subtree (pat : string) : string := if String.eqb pat "/" then "/" else pat +:+ "/".

(** The paths of a pattern: its own and those below it. *)
Definition covers (pat p : string) : Prop := p = pat \/ exists t, p = subtree pat +:+ t.

Definition build (regs : list (string * Middleware)) : gmap string Middleware := foldl (fun m r => Handle r.1 r.2 m) New regs.

Lemma HasSuffix_slash a : HasSuffix slash (a +:+ "/") = true.
Proof. by rewrite HasSuffix_app. Qed.

Lemma app_slash_inj a b : a +:+ "/" = b +:+ "/" -> a = b.
Proof.
  intros E. apply (app_inj_len a b "/" "/" E). apply (f_equal String.length) in E. rewrite !append_length in E. cbn in E. lia.
Qed.

Lemma plain_subtree pat : plain pat -> HasSuffix slash (subtree pat) = true.
Proof. intros _. unfold subtree. destruct (String.eqb_spec pat "/"); [done|]. apply HasSuffix_slash. Qed.

Lemma Handle_lookup pat h m k : plain pat ->
  Handle pat h m !! k = if bool_decide (k = pat \/ k = subtree pat) then Some h else m !! k.
Proof.
  intros Hp. unfold Handle, subtree. change (HasSuffix "/" pat) with (HasSuffix slash pat). destruct Hp as [->|[_ Hs]].
  - cbn. case_bool_decide as E; [destruct E as [->| ->]; by rewrite lookup_insert_eq|]. rewrite lookup_insert_ne; naive_solver.
  - rewrite Hs. assert (pat <> "/") as Hne by (intros ->; done). apply String.eqb_neq in Hne as ->. case_bool_decide as E.
    + destruct (decide (k = pat +:+ "/")) as [->|]; [by rewrite lookup_insert_eq|].
      destruct E as [->|]; [|done]. by rewrite lookup_insert_ne, lookup_insert_eq by done.
    + rewrite !lookup_insert_ne; naive_solver.
Qed.

(** Distinct patterns have distinct keys. *)
Lemma keys_distinct pat pat' k : plain pat -> plain pat' ->
  (k = pat \/ k = subtree pat) -> (k = pat' \/ k = subtree pat') -> pat = pat'.
Proof.
  assert (forall a b, plain a -> plain b -> a = subtree b -> a = b) as H.
  { intros a b Ha Hb E. pose proof (plain_subtree b Hb) as Hs. rewrite <- E in Hs.
    destruct Ha as [->|[_ Ha]]; [|congruence]. unfold subtree in E. destruct (String.eqb_spec b "/"); [done|].
    destruct b as [|c b]; [by destruct Hb as [|[? _]]|]. by destruct b. }
  intros Hp Hp' [->|E] [E'|E']; [done|by apply H|symmetry; apply H; congruence|].
  rewrite E in E'. unfold subtree in E'. destruct (String.eqb_spec pat "/") as [->|], (String.eqb_spec pat' "/") as [->|]; [done| | |by apply app_slash_inj].
  - destruct pat' as [|? [|]]; [by destruct Hp' as [|[? _]]|done..].
  - destruct pat as [|? [|]]; [by destruct Hp as [|[? _]]|done..].
Qed.

Lemma build_lookup regs k mw : Forall plain regs.*1 -> NoDup regs.*1 ->
  build regs !! k = Some mw <-> exists pat, (pat, mw) ∈ regs /\ (k = pat \/ k = subtree pat).
Proof.
  unfold build. induction regs as [|[pat h] regs IH] using rev_ind; intros Hp Hd; [set_solver|].
  rewrite fmap_app in Hp, Hd. apply Forall_app in Hp as [Hp [Hq _]%Forall_cons]. apply NoDup_app in Hd as (Hd & Hx & _). cbn in Hq, Hx.
  rewrite foldl_app. cbn [foldl fst snd]. rewrite Handle_lookup by done. case_bool_decide as E.
  - split; [intros [= <-]; exists pat; set_solver|]. intros (pat' & Hin & Ek). apply elem_of_app in Hin as [Hin|Hin]; [|set_solver].
    assert (pat' ∈ regs.*1) as Hin' by by apply (list_elem_of_fmap_2 fst _ _ Hin).
    assert (pat' = pat) as -> by (eapply keys_distinct; [by eapply Forall_forall|done|done|done]). destruct (Hx pat Hin'). set_solver.
  - rewrite IH by done. split; intros (pat' & Hin & Ek); exists pat'; (split; [|done]); [set_solver|].
    apply elem_of_app in Hin as [Hin|Hin]; [done|]. apply list_elem_of_singleton in Hin as [= -> ->]. done.
Qed.

(** ** Routing *)

Section Routes.
Context (Redirect : Request -> string -> Z -> act) (regs : list (string * Middleware)) (h : Handler).
Hypothesis plain_regs : Forall plain regs.*1.
Hypothesis nodup_regs : NoDup regs.*1.

Definition mux : gmap string Handler :=
  let mux := (fun x : Middleware => x h) <$> build regs in
  match build regs !! "/" with Some _ => mux | None => <["/" := h]> mux end.

Lemma mux_lookup k f : mux !! k = Some f ->
  (exists pat mw, (pat, mw) ∈ regs /\ (k = pat \/ k = subtree pat) /\ f = mw h) \/ (k = "/" /\ f = h /\ "/" ∉ regs.*1).
Proof.
  unfold mux. destruct (build regs !! "/") as [mw|] eqn:E.
  - rewrite lookup_fmap. intros (mw' & (pat & Hin & Hk)%build_lookup & ->)%fmap_Some; eauto 8.
  - destruct (decide (k = "/")) as [->|Hk].
    + rewrite lookup_insert_eq. intros [= <-]. right. split_and!; [done|done|]. intros ([pat mw] & Ep & Hin)%list_elem_of_fmap. cbn in Ep. subst.
      assert (build regs !! "/" = Some mw) as E'; [|congruence]. apply build_lookup; [done..|]. exists "/". auto.
    + rewrite lookup_insert_ne, lookup_fmap by done. intros (mw' & (pat & Hin & Hk')%build_lookup & ->)%fmap_Some; eauto 8.
Qed.

Lemma fmap_build k mw : build regs !! k = Some mw -> ((fun x : Middleware => x h) <$> build regs) !! k = Some (mw h).
Proof. intros E. rewrite lookup_fmap. exact (f_equal (fmap (fun x : Middleware => x h)) E). Qed.

Lemma mux_registered pat mw k : (pat, mw) ∈ regs -> k = pat \/ k = subtree pat -> mux !! k = Some (mw h).
Proof.
  intros Hin Hk. assert (build regs !! k = Some mw) as E by (apply build_lookup; [done..|]; by exists pat).
  unfold mux. destruct (build regs !! "/") as [x|] eqn:E0; [by apply fmap_build|].
  rewrite lookup_insert_ne; [by apply fmap_build|]. intros <-. discriminate (eq_trans (eq_sym E) E0).
Qed.

Lemma mux_root : is_Some (mux !! "/").
Proof.
  unfold mux. destruct (build regs !! "/") as [x|] eqn:E; [exists (x h); by apply fmap_build|]. by rewrite lookup_insert_eq.
Qed.

Lemma reg_plain pat mw : (pat, mw) ∈ regs -> plain pat.
Proof. intros Hin. rewrite Forall_forall in plain_regs. apply plain_regs. by apply (list_elem_of_fmap_2 fst _ _ Hin). Qed.

Lemma plain_cons pat : plain pat -> exists t, pat = String slash t.
Proof. intros [->|[H _]]; [by exists ""|by apply UpstreamFacts.rooted_cons]. Qed.

Lemma subtree_mono a b : plain a -> plain b ->
  (String.length a <= String.length b)%nat <-> (String.length (subtree a) <= String.length (subtree b))%nat.
Proof.
  intros Ha Hb. destruct (plain_cons a Ha) as [ta Ea], (plain_cons b Hb) as [tb Eb]. unfold subtree.
  destruct (String.eqb_spec a "/") as [->|Na], (String.eqb_spec b "/") as [->|Nb]; rewrite ?append_length; subst; cbn; [lia..| |lia].
  destruct ta; [done|]. cbn. lia.
Qed.

(** The pattern of a path: none longer covers it. *)
Definition best (pat p : string) : Prop :=
  covers pat p /\ forall pat' mw', (pat', mw') ∈ regs -> covers pat' p -> (String.length pat' <= String.length pat)%nat.

(** A key that can match: the path itself, or a subtree it is in. *)
Definition matching (k p : string) : Prop := k = p \/ HasSuffix slash k = true /\ exists t, p = k +:+ t.

Lemma reg_covers pat mw k p : (pat, mw) ∈ regs -> k = pat \/ k = subtree pat -> matching k p -> covers pat p.
Proof.
  intros Hin [->| ->] [<-|[Hs [t ->]]]; [by left| |right; exists ""; by rewrite append_nil_r|right; by exists t].
  destruct (reg_plain _ _ Hin) as [->|[_ Hn]]; [right; by exists t|congruence].
Qed.

Lemma length_subtree pat : plain pat -> (1 <= String.length pat <= String.length (subtree pat))%nat.
Proof.
  intros Hp. destruct (plain_cons _ Hp) as [t ->]. unfold subtree. destruct (String.eqb_spec (String slash t) "/") as [E|_].
  - injection E as ->. cbn. lia.
  - rewrite append_length. cbn. lia.
Qed.

(** No key that matches is longer than the best pattern's subtree. *)
Lemma key_bound pat mw k f p : (pat, mw) ∈ regs -> best pat p -> mux !! k = Some f -> matching k p ->
  (String.length k <= String.length (subtree pat))%nat.
Proof.
  intros Hin [_ Hmax] Hk Hm. pose proof (length_subtree pat (reg_plain _ _ Hin)) as Hl.
  apply mux_lookup in Hk as [(pat' & mw' & Hin' & Hk & _)|(-> & _)]; [|cbn; lia].
  pose proof (Hmax _ _ Hin' (reg_covers _ _ _ _ Hin' Hk Hm)) as Hle.
  destruct Hk as [->| ->]; [lia|]. by apply (subtree_mono pat' pat (reg_plain _ _ Hin') (reg_plain _ _ Hin)).
Qed.

Lemma match_best pat mw p : (pat, mw) ∈ regs -> best pat p -> mux_match mux p = Some (mw h).
Proof.
  intros Hin Hb. pose proof Hb as [[->|[t Ht]] _]; unfold mux_match.
  { by rewrite (mux_registered pat mw pat Hin (or_introl eq_refl)). }
  pose proof (mux_registered pat mw _ Hin (or_intror eq_refl)) as Hreg.
  assert (forall k f u, mux !! k = Some f -> matching k p -> p = k +:+ u -> (String.length (subtree pat) <= String.length k)%nat -> f = mw h) as G.
  { intros k f u Hk Hm Hu Hl. pose proof (key_bound _ _ _ _ _ Hin Hb Hk Hm) as Hle.
    assert (k = subtree pat) as -> by (apply (app_inj_len _ _ u t); [congruence|lia]). congruence. }
  assert (HasSuffix slash (subtree pat) = true) as Hs by by apply plain_subtree, (reg_plain _ mw).
  destruct (mux !! p) as [f|] eqn:Ef.
  - f_equal. apply (G p f ""); [done|by left|by rewrite append_nil_r|]. rewrite Ht, append_length. lia.
  - destruct (longest mux "" p) as [f|] eqn:El.
    + apply longest_Some in El as (pre & suf & E1 & E2 & E3 & Emax). f_equal. apply (G pre f suf); [done|right; eauto|done|].
      apply (Emax _ t Ht Hs). by exists (mw h).
    + discriminate (eq_trans (eq_sym Hreg) (longest_None _ _ _ El _ t Ht Hs)).
Qed.

Lemma match_none p : HasPrefix "/" p = true -> (forall pat mw, (pat, mw) ∈ regs -> ~ covers pat p) -> mux_match mux p = Some h.
Proof.
  intros Hp Hno. assert (forall k f, mux !! k = Some f -> matching k p -> f = h) as G.
  { intros k f Hk Hm. apply mux_lookup in Hk as [(pat & mw & Hin & Hk & _)|(_ & -> & _)]; [|done].
    by destruct (Hno _ _ Hin (reg_covers _ _ _ _ Hin Hk Hm)). }
  unfold mux_match. destruct (mux !! p) as [f|] eqn:Ef; [f_equal; apply (G p f Ef); by left|].
  destruct (longest mux "" p) as [f|] eqn:El.
  - apply longest_Some in El as (pre & suf & E1 & E2 & E3 & _). f_equal. apply (G pre f E3). right. eauto.
  - destruct (UpstreamFacts.rooted_cons p Hp) as [t ->]. destruct mux_root as [f Hf].
    discriminate (eq_trans (eq_sym Hf) (longest_None _ _ _ El "/" t eq_refl eq_refl)).
Qed.

(** Nothing is redirected for the want of a slash. *)
Lemma no_redirect p : HasPrefix "/" p = true -> mux !! p = None -> mux !! (p +:+ "/") = None.
Proof.
  intros Hp Hn. destruct (mux !! (p +:+ "/")) as [f|] eqn:E; [|done].
  apply mux_lookup in E as [(pat & mw & Hin & Hk & _)|(E & _)].
  - assert (p = pat) as ->; [|by rewrite (mux_registered pat mw pat Hin (or_introl eq_refl)) in Hn].
    pose proof (HasSuffix_slash p) as Hs. destruct Hk as [Hk|Hk].
    + destruct (reg_plain _ _ Hin) as [->|[_ Hf]]; [|by rewrite Hk, Hf in Hs]. destruct p as [|? []]; done.
    + unfold subtree in Hk. destruct (String.eqb_spec pat "/"); [by destruct p as [|? []]|]. by apply app_slash_inj.
  - by destruct p as [|? []].
Qed.
End Routes.

(** A request goes to its longest pattern. With distinct patterns, each the
    root or a path without a final slash, a request for a clean path is served by the
    middleware of the longest pattern that is the path or an ancestor of it, whatever the
    order of registration, and by the next handler if there is none. *)
Theorem router_routes Redirect regs h r :
  Forall plain regs.*1 -> NoDup regs.*1 -> HasPrefix "/" (Path r) = true -> cleanPath (Path r) = Path r ->
  (forall pat mw, (pat, mw) ∈ regs -> best regs pat (Path r) -> ServeHandler Redirect (build regs) h r = mw h r) /\
  ((forall pat mw, (pat, mw) ∈ regs -> ~ covers pat (Path r)) -> ServeHandler Redirect (build regs) h r = h r).
Proof.
  intros Hp Hd Hr Hc. assert (forall f : Handler, mux_match (mux regs h) (Path r) = Some f -> ServeHandler Redirect (build regs) h r = f r) as G.
  { intros f Hf. change (mux_serve Redirect (mux regs h) r = f r). unfold mux_serve. rewrite Hc, String.eqb_refl, Hf. cbn [negb].
    case_bool_decide as E; [|done]. rewrite (no_redirect regs h Hp Hd _ Hr E), (bool_decide_false (is_Some None)) by by intros [].
    by rewrite andb_false_r. }
  split; [intros pat mw Hin Hb|intros Hno]; apply G; [by eapply match_best|by apply match_none].
Qed.

(** ** Runs *)

Definition names (s : string) : Middleware := fun _ _ => Write s Done.
Definition demo : list (string * Middleware) := [("/a", names "a"); ("/a/b", names "b")].
Definition at_path (p : string) : Request := mkRequest "GET" "x" p p "" false ∅.
Definition redirected : Request -> string -> Z -> act := fun _ p c => WriteHeader c (Write p Done).

Lemma router_routes_witness :
  ServeHandler redirected (build demo) NotFoundHandler (at_path "/a/b/c") = Write "b" Done /\
  ServeHandler redirected (build demo) NotFoundHandler (at_path "/ab") = NotFoundHandler (at_path "/ab").
Proof.
  assert (Forall plain demo.*1) as Hp by (repeat constructor; right; split; reflexivity).
  assert (NoDup demo.*1) as Hd by (apply (bool_decide_unpack _); vm_compute; exact I).
  assert (forall pat mw, (pat, mw) ∈ demo -> pat = "/a" \/ pat = "/a/b") as Hin by (unfold demo; set_solver).
  split.
  - apply (proj1 (router_routes redirected demo NotFoundHandler (at_path "/a/b/c") Hp Hd eq_refl eq_refl) "/a/b" (names "b")).
    + right. left.
    + split; [right; by exists "c"|]. intros pat mw [->| ->]%Hin _; cbn; lia.
  - apply (proj2 (router_routes redirected demo NotFoundHandler (at_path "/ab") Hp Hd eq_refl eq_refl)).
    intros pat mw [->| ->]%Hin [E|[t E]]; discriminate.
Defined.

(** A subtree registered with its slash: its root is redirected; and registering the
    path afterwards replaces it. *)
Example router_slash :
  let m := Handle "/a/" (names "old") New in
  ServeHandler redirected m NotFoundHandler (at_path "/a") = redirected (at_path "/a") "/a/" 301 /\
  ServeHandler redirected m NotFoundHandler (at_path "/a/x") = Write "old" Done /\
  ServeHandler redirected (Handle "/a" (names "new") m) NotFoundHandler (at_path "/a/x") = Write "new" Done.
Proof. vm_compute. done. Qed.

End RouterFacts.
