(* ===== verification/Google.v ===== *)
(** * Google Cloud: the storage backend and the load balancer's address

    [src/pkg/gcs/gcs.go] and [src/pkg/gcp/headers.go].  The storage client is a
    parameter: opening an object gives its attributes and the chunks that are copied to
    the response, or an error. *)

From Stdlib Require Import Ascii.
From S2P Require Import Prelude GoStrings GoNet UpstreamHandler Middleware Headers.

Module GCS.

Record GCS := mk {
  HasClient : bool;  (* a client was given, or one of the two default ones was made *)
  Bucket : string;
  BasePath : string;
  MainPage : string;
  NotFoundPage : string;
  Fallback : option Handler;
}.

(** What a reader gives: its attributes and what is copied from it. *)
Record object := mkObject { ContentType : string; CacheControl : string; chunks : list string }.

(** [path.Join] of two elements. *)
Definition path_Join (a b : string) : string :=
  if String.eqb a "" then (if String.eqb b "" then "" else Clean b) else Clean (a +:+ "/" +:+ b).

Definition normalized_base (m : GCS) : string := TrimSuffix (Redirect.TrimPrefix (BasePath m) "/") "/".

Definition object_name (m : GCS) (p : string) : string := Redirect.TrimPrefix (path_Join (normalized_base m) p) "/".

Section Serve.
Context (open : string -> option object).

Definition copy (o : object) : act :=
  UpdateHeader (fun h =>
      let h := if String.eqb (ContentType o) "" then h else HSet h "Content-Type" (ContentType o) in
      if String.eqb (CacheControl o) "" then h else HSet h "Cache-Control" (CacheControl o))
    (foldr Write Done (chunks o)).

(** [serve], with what it does when the object cannot be opened. *)
Definition serve_or (m : GCS) (p : string) (miss : act) : act :=
  match open (object_name m p) with Some o => copy o | None => miss end.

Definition serve (m : GCS) (fallback : Handler) (r : Request) (p : string) : act :=
  let page := TrimSpace (NotFoundPage m) in
  serve_or m p (if String.eqb page "" then fallback r else serve_or m page (fallback r)).

Definition ServeHandler (m : GCS) : Middleware := fun _ =>
  let fallback := default NotFoundHandler (Fallback m) in
  if String.eqb (Bucket m) "" || negb (HasClient m) then fallback
  else fun r =>
    let main := TrimSpace (MainPage m) in
    serve m fallback r (if String.eqb (Path r) "/" && negb (String.eqb main "") then main else Path r).

End Serve.
End GCS.

Module GCP.

(** [HLBImmediateIP]'s interceptor. *)
Definition hlb_headers (proxy : Z) (h : header) : header :=
  let proxy := if proxy <? 0 then 0 else proxy in
  let xff := HGet h "X-Forwarded-For" in
  if (String.length xff =? 0)%nat then h
  else
    let xs := Split ","%char xff in
    if Z.of_nat (length xs) <? 2 + proxy then h
    else HSet h "X-Real-Ip" (TrimSpace (default "" (xs !! Z.to_nat (Z.of_nat (length xs) - 2 - proxy)))).

Definition HLBImmediateIP (proxy : Z) : Middleware := Headers.RequestInterceptor (Some (hlb_headers proxy)).

End GCP.

Module GoogleFacts.
Import GCS GCP.

(** ** The object asked for *)

Definition kept (seg : string) : Prop := seg <> "" /\ seg <> ".".
#[local] Instance kept_dec seg : Decision (kept seg).
Proof. unfold kept. apply _. Defined.

(** Without "..", resolution only drops empty and "." segments. *)
Lemma resolve_plain r segs : ".." ∉ segs -> resolve r segs = filter kept segs.
Proof.
  intros H. unfold resolve. assert (forall out, foldl (resolve1 r) out segs = reverse (filter kept segs) ++ out) as G.
  { induction segs as [|s segs IH]; intros out; [done|]. apply not_elem_of_cons in H as [Hs H]. cbn [foldl].
    rewrite IH by done. unfold resolve1. destruct (String.eqb_spec s "") as [->|H1]; [done|].
    destruct (String.eqb_spec s ".") as [->|H2]; [done|]. cbn [orb]. destruct (String.eqb_spec s ".."); [congruence|].
    rewrite filter_cons_True by done. by rewrite reverse_cons, <- app_assoc. }
  rewrite G, app_nil_r. apply reverse_involutive.
Qed.

Lemma Join_no_slash segs : Forall normal segs -> Forall (no_sep slash) segs -> segs <> [] ->
  exists c s, Join "/" segs = String c s /\ c <> slash.
Proof.
  intros Hn Hs Hne. destruct segs as [|x segs]; [done|]. apply Forall_cons in Hn as [[Hx _] _]. apply Forall_cons in Hs as [Hs _].
  destruct x as [|c x]; [done|]. exists c. exists (match segs with [] => x | _ => x +:+ "/" +:+ Join "/" segs end).
  split; [by destruct segs|]. intros ->. apply Hs. left.
Qed.

Lemma TrimPrefix_slash s : Redirect.TrimPrefix (String slash s) "/" = s.
Proof. exact (text_chars s). Qed.

Lemma TrimPrefix_other c s : c <> slash -> Redirect.TrimPrefix (String c s) "/" = String c s.
Proof.
  intros Hc. unfold Redirect.TrimPrefix. assert (HasPrefix "/" (String c s) = false) as ->; [|done].
  cbn -[Ascii.eqb]. rewrite (proj2 (Ascii.eqb_neq "/" c)); [done|]. intros <-. by apply Hc.
Qed.

(** A cleaned path without its leading slash. *)
Lemma Clean_name p : ".." ∉ Split slash p -> UpstreamFacts.segments p <> [] ->
  Redirect.TrimPrefix (Clean p) "/" = Join "/" (UpstreamFacts.segments p).
Proof.
  intros Hp Hne. destruct (UpstreamFacts.segments_ok p) as [Hn Hs]. destruct (Join_no_slash _ Hn Hs Hne) as (c & s & Ej & Hc).
  unfold Clean. destruct (String.eqb_spec p "") as [->|_]; [done|]. cbv zeta.
  assert (resolve (HasPrefix "/" p) (Split "/" p) = UpstreamFacts.segments p) as ->.
  { unfold UpstreamFacts.segments. by rewrite !resolve_plain. }
  rewrite Ej. destruct (HasPrefix "/" p); [exact (TrimPrefix_slash (String c s))|]. cbn [String.eqb]. by apply TrimPrefix_other.
Qed.

(** A path without ".." reads under the base path. The object asked for is the
    base path's segments followed by the request's, so requests stay inside the
    configured part of the bucket as long as neither has a ".." segment. *)
Theorem gcs_confined m p :
  ".." ∉ Split slash (normalized_base m) -> ".." ∉ Split slash p ->
  UpstreamFacts.segments (normalized_base m) ++ UpstreamFacts.segments p <> [] ->
  object_name m p = Join "/" (UpstreamFacts.segments (normalized_base m) ++ UpstreamFacts.segments p).
Proof.
  unfold object_name, path_Join. set (b := normalized_base m). intros Hb Hp Hne. destruct (String.eqb_spec b "") as [->|_].
  - destruct (String.eqb_spec p "") as [->|_]; [done|]. by apply Clean_name.
  - assert (Split slash (b +:+ "/" +:+ p) = Split slash b ++ Split slash p) as Es by exact (Split_app slash b p).
    assert (UpstreamFacts.segments (b +:+ "/" +:+ p) = UpstreamFacts.segments b ++ UpstreamFacts.segments p) as Eg.
    { unfold UpstreamFacts.segments. rewrite Es, !resolve_plain by (rewrite ?elem_of_app; tauto). by rewrite filter_app. }
    rewrite <- Eg. apply Clean_name; [rewrite Es, elem_of_app; tauto|by rewrite Eg].
Qed.

Definition demo : GCS := mk true "assets" "/public/" "" "" None.

Lemma gcs_confined_witness : object_name demo "/css/./a.css" = "public/css/a.css".
Proof.
  apply (gcs_confined demo "/css/./a.css"); [apply (bool_decide_unpack _); vm_compute; exact I..|vm_compute; discriminate].
Defined.

(** With ".." it does not: the object is outside the base path. *)
Example gcs_escapes : object_name demo "/../private/key.pem" = "private/key.pem".
Proof. vm_compute. done. Qed.

Example gcs_not_found_page :
  let m := mk true "assets" "public" "index.html" " 404.html " None in
  let open n := if String.eqb n "public/404.html" then Some (mkObject "text/html" "" ["lost"]) else None in
  body (respond (ServeHandler open m NotFoundHandler (mkRequest "GET" "a" "/x" "/x" "" false ∅))) = "lost".
Proof. vm_compute. done. Qed.

(** ** The load balancer's address *)

(** The client cannot choose its address. The load balancer appends the
    client's address and its own to X-Forwarded-For, and each of [proxy] proxies behind
    it one more: whatever the request already carried, the address taken is the one the
    load balancer appended. *)
Theorem hlb_ip_unspoofable proxy (forged client : string) (appended : list string) h :
  0 <= proxy -> Z.of_nat (length appended) = 1 + proxy -> no_sep "," client -> Forall (no_sep ",") appended ->
  HGet h "X-Forwarded-For" = forged +:+ "," +:+ Join "," (client :: appended) \/
  HGet h "X-Forwarded-For" = Join "," (client :: appended) ->
  HGet (hlb_headers proxy h) "X-Real-Ip" = TrimSpace client.
Proof.
  intros Hp Hl Hc Ha H. set (tl := Join "," (client :: appended)) in H.
  assert (Split "," tl = client :: appended) as Et.
  { unfold tl. clear H tl Hl. revert client Hc. induction Ha as [|x l Hx _ IH]; intros client Hc; [by apply Split_one|].
    change (Join "," (client :: x :: l)) with (client +:+ String ","%char (Join "," (x :: l))).
    by rewrite Split_app, Split_one, IH by done. }
  assert (exists pre, Split "," (HGet h "X-Forwarded-For") = pre ++ client :: appended) as [pre Es].
  { destruct H as [->| ->]; [exists (Split "," forged)|by exists []]. rewrite <- Et. exact (Split_app "," forged tl). }
  assert (HGet h "X-Forwarded-For" <> "") as Hne.
  { intros E. rewrite E in Es. apply (f_equal length) in Es. rewrite length_app in Es. cbn in Es. destruct appended; cbn in *; lia. }
  unfold hlb_headers. rewrite (proj2 (Z.ltb_ge proxy 0)) by lia. cbv zeta. rewrite Es, length_app. cbn [length].
  destruct (Nat.eqb_spec (String.length (HGet h "X-Forwarded-For")) 0) as [E|_]; [by destruct (HGet h "X-Forwarded-For")|].
  rewrite (proj2 (Z.ltb_ge _ _)) by lia.
  replace (Z.to_nat _) with (length pre) by lia. rewrite list_lookup_middle by done.
  unfold HGet at 1, Values, HSet. exact (f_equal (fun v => default "" (head (default [] v))) (lookup_insert_eq h "X-Real-Ip" [TrimSpace client])).
Qed.

Lemma hlb_ip_unspoofable_witness :
  HGet (hlb_headers 0 {["X-Forwarded-For" := ["1.1.1.1, 203.0.113.9,35.0.0.1"]]}) "X-Real-Ip" = "203.0.113.9".
Proof.
  apply (hlb_ip_unspoofable 0 "1.1.1.1" " 203.0.113.9" ["35.0.0.1"]); [lia|reflexivity| | |left; reflexivity].
  - apply (bool_decide_unpack _). vm_compute. exact I.
  - constructor; [|constructor]. apply (bool_decide_unpack _). vm_compute. exact I.
Defined.

End GoogleFacts.
