(* ===== verification/H2Push.v ===== *)
(** * HTTP/2 push

    [src/pkg/h2push].  Over HTTP/2 the writer is also a pusher: what is pushed is kept
    beside net/http's writer.  The parser of Link headers is third-party code, a
    parameter. *)

From S2P Require Import Prelude GoStrings Middleware Headers Timeout.

Module H2Push.

(** The parser: its links, and what is read off them. *)
Record linkheader := mkLinks {
  Link : Type;
  ParseMultiple : list string -> list Link;
  URL : Link -> string;
  HasParam : Link -> string -> bool;
  Param : Link -> string -> string;
}.

Section Preload.
Context (PM : linkheader).

(** [preloadPusherRW]: the header map handed to the handler is its own. *)
Record preloadPusherRW := mkP { header_ : header; wroteHeader : bool }.

(** The links pushed by [WriteHeader]. *)
Definition preloads (h : header) : list string :=
  URL PM <$> filter (fun l => HasParam PM l "nopush" = false /\ Param PM l "rel" = "preload") (ParseMultiple PM (Values h "Link")).

Definition p_WriteHeader (code : Z) (w : rw) (nw : preloadPusherRW) (pushed : list string) : rw * preloadPusherRW * list string :=
  if wroteHeader nw then (w, nw, pushed)
  else (rw_WriteHeader code w, mkP (header_ nw) true, pushed ++ preloads (header_ nw)).

(** The handler through the wrapped writer. *)
Fixpoint push_exec (a : act) (w : rw) (nw : preloadPusherRW) (pushed : list string) : rw * list string * bool :=
  match a with
  | Done => (w, pushed, true)
  | Panic => (w, pushed, false)
  | ReadHeader k => push_exec (k (header_ nw)) w nw pushed
  | UpdateHeader f k => push_exec k w (mkP (f (header_ nw)) (wroteHeader nw)) pushed
  | WriteHeader code k => let '(w, nw, pushed) := p_WriteHeader code w nw pushed in push_exec k w nw pushed
  | Write d k =>
      let '(w, nw, pushed) := p_WriteHeader 200 w nw pushed in
      let w := rw_WriteHeader 200 w in push_exec k (mkRW (hdr w) (sent w) (early w) (body w +:+ d)) nw pushed
  | Flush k => push_exec k (rw_WriteHeader 200 w) nw pushed
  end.

(** [PreloadPusher.ServeHandler]; [pusher]: the writer is an [http.Pusher]. *)
Definition Preload_ServeHandler (pusher : bool) (h : Handler) (r : Request) (w : rw) (pushed : list string) : rw * list string * bool :=
  if pusher then push_exec (h r) w (mkP ∅ false) pushed
  else let '(w, ok) := exec (h r) w in (w, pushed, ok).

End Preload.

(** [LinkPusher.ServeHandler]. *)
Definition Push_ServeHandler (Link : string) (pusher : bool) (h : Handler) (r : Request) (w : rw) (pushed : list string)
    : rw * list string * bool :=
  let pushed := if negb (String.eqb Link "") && pusher then pushed ++ [Link] else pushed in
  let '(w, ok) := exec (h r) w in (w, pushed, ok).

End H2Push.

Module H2PushFacts.
Import H2Push.

(** Once the header is written nothing is pushed, and the headers sent stay. *)
Lemma push_exec_open PM a g w nw pushed :
  TimeoutFacts.steady a -> wroteHeader nw = true -> is_Some (sent w) -> is_Some (sent g) -> hdr g = header_ nw ->
  exists t, push_exec PM a w nw pushed = (mkRW (hdr w) (sent w) (early w) (body w +:+ t), pushed, (exec a g).2) /\
    body (exec a g).1 = body g +:+ t /\ sent (exec a g).1 = sent g.
Proof.
  intros Ha Hn [x Hx] [z Hz].
  revert g w nw Hn Hx z Hz. induction Ha as [| |k _ IH|f k _ IH|code k Hi _ IH|d k _ IH]; intros g w nw Hn Hx z Hz He; cbn [push_exec exec].
  - exists "". by rewrite !append_nil_r; destruct w.
  - exists "". by rewrite !append_nil_r; destruct w.
  - rewrite <- He. by eapply IH.
  - destruct (IH (mkRW (f (hdr g)) (sent g) (early g) (body g)) w (mkP (f (header_ nw)) (wroteHeader nw)) Hn Hx z Hz) as (t & E1 & E2 & E3); [by cbn; rewrite He|].
    exists t. done.
  - unfold p_WriteHeader. rewrite Hn, (HeadersFacts.rw_WriteHeader_sent _ _ _ Hz). by eapply IH.
  - unfold p_WriteHeader. rewrite Hn, !(HeadersFacts.rw_WriteHeader_sent _ _ _ Hz), !(HeadersFacts.rw_WriteHeader_sent _ _ _ Hx).
    destruct (IH (mkRW (hdr g) (sent g) (early g) (body g +:+ d)) (mkRW (hdr w) (sent w) (early w) (body w +:+ d)) nw Hn Hx z Hz He) as (t & E1 & E2 & E3).
    exists (d +:+ t). rewrite E1, E2. cbn. by rewrite !append_assoc.
Qed.

(** What the client gets over HTTP/2, against the handler's own response [p]. *)
Definition pushed_response (PM : linkheader) (w : rw) (pushed : list string) (p : rw * bool) (q : rw * list string * bool) : Prop :=
  match sent p.1 with
  | None => q = (w, pushed, p.2)
  | Some (c, h) => q = (mkRW (hdr w) (Some (c, hdr w)) (early w) (body w +:+ body p.1), pushed ++ preloads PM h, p.2)
  end.

Lemma push_exec_header PM a code g w nw pushed :
  TimeoutFacts.steady a -> informational code = false -> wroteHeader nw = false -> sent w = None -> sent g = None -> body g = "" -> hdr g = header_ nw ->
  pushed_response PM w pushed (exec a (rw_WriteHeader code g))
    (let '(w, nw, pushed) := p_WriteHeader PM code w nw pushed in push_exec PM a w nw pushed).
Proof.
  intros Ha Hi Hn Hw Hg Hb He. unfold p_WriteHeader. rewrite Hn, (HeadersFacts.rw_WriteHeader_new _ _ Hg Hi), (HeadersFacts.rw_WriteHeader_new _ _ Hw Hi).
  edestruct (push_exec_open PM a (mkRW (hdr g) (Some (code, hdr g)) (early g) (body g)) (mkRW (hdr w) (Some (code, hdr w)) (early w) (body w))
    (mkP (header_ nw) true) (pushed ++ preloads PM (header_ nw))) as (t & E1 & E2 & E3); [done|done|by eexists|by eexists|done|].
  unfold pushed_response. rewrite E3, E1, E2. cbn [sent hdr early body]. by rewrite Hb, He.
Qed.

Lemma push_exec_spec PM a g w nw pushed :
  TimeoutFacts.steady a -> wroteHeader nw = false -> sent w = None -> sent g = None -> body g = "" -> hdr g = header_ nw ->
  pushed_response PM w pushed (exec a g) (push_exec PM a w nw pushed).
Proof.
  intros Ha. revert g nw. induction Ha as [| |k _ IH|f k _ IH|code k Hi Hk _|d k Hk _]; intros g nw Hn Hw Hg Hb He; cbn [push_exec].
  - unfold pushed_response. cbn. by rewrite Hg.
  - unfold pushed_response. cbn. by rewrite Hg.
  - cbn [exec]. rewrite <- He. by apply IH.
  - cbn [exec]. apply IH; try done. cbn. by rewrite He.
  - by apply push_exec_header.
  - pose proof (push_exec_header PM (Write d k) 200 g w nw pushed (TimeoutFacts.steady_write d k Hk) eq_refl Hn Hw Hg Hb He) as H.
    replace (exec (Write d k) g) with (exec (Write d k) (rw_WriteHeader 200 g)) by (cbn; by rewrite TimeoutFacts.rw_200_idem).
    unfold p_WriteHeader in *. rewrite Hn in *. exact H.
Qed.

(** Preload links are pushed, and nothing else. For a handler that sends no
    informational status and does not flush, the status and body are the handler's, and
    the links pushed, all before the status, are those of its Link headers at that moment
    with rel=preload and without nopush, in order.  But the headers the client gets are
    those set by outer middlewares: none of the handler's own is ever sent. *)
Theorem preload_pushes PM (h : Handler) r w pushed :
  TimeoutFacts.steady (h r) -> sent w = None ->
  pushed_response PM w pushed (exec (h r) new_rw) (Preload_ServeHandler PM true h r w pushed).
Proof. intros Ha Hw. by apply push_exec_spec. Qed.

(** ** Runs *)

Definition parse : linkheader := mkLinks (string * list (string * string))
  (fun vs => (fun v => if String.eqb v "</a.css>; rel=preload" then ("/a.css", [("rel", "preload")])
                       else ("/b.js", [("rel", "preload"); ("nopush", "")])) <$> vs)
  fst (fun l key => existsb (fun p => String.eqb p.1 key) l.2)
  (fun l key => default "" (snd <$> List.find (fun p => String.eqb p.1 key) l.2)).
Definition page : Handler := fun _ =>
  UpdateHeader (fun h => <["Content-Type" := ["text/html"]]> (<["Link" := ["</a.css>; rel=preload"; "</b.js>; rel=preload; nopush"]]> h))
    (WriteHeader 200 (Write "<html>" Done)).
Definition request : Request := mkRequest "GET" "a" "/" "/" "" false ∅.

Lemma preload_pushes_witness :
  (Preload_ServeHandler parse true page request new_rw []).1.2 = ["/a.css"] /\
  body (Preload_ServeHandler parse true page request new_rw []).1.1 = "<html>".
Proof.
  assert (Preload_ServeHandler parse true page request new_rw [] = (mkRW ∅ (Some (200, ∅)) [] "<html>", ["/a.css"], true)) as ->
    by exact (preload_pushes parse page request new_rw [] ltac:(repeat constructor) eq_refl).
  split; reflexivity.
Defined.

(** The page above without the middleware, and with it over HTTP/2. *)
Example preload_drops_headers :
  (fun w : rw => (fun s => HGet s.2 "Content-Type") <$> sent w) (exec (page request) new_rw).1 = Some "text/html" /\
  (fun w : rw => (fun s => HGet s.2 "Content-Type") <$> sent w) (Preload_ServeHandler parse true page request new_rw []).1.1 = Some "".
Proof. vm_compute. done. Qed.

End H2PushFacts.
