(* ===== verification/Prom.v ===== *)
(** * Metrics

    [src/pkg/prom].  The Prometheus client is third-party code: a metric is named by its
    family and label values, and what the package does to it is the list of calls it
    makes on the client.  Looking a metric up fails for label values the client refuses
    ([accepts]), and the call is then skipped.

    The observers are the functions the other packages are given as hooks; the
    connection gauge is a step relation, because net/http reports the states of different
    connections from different goroutines. *)

From Stdlib Require Import Ascii.
From S2P Require Import Prelude GoStrings Http UpstreamState LeastConn RateLimit Middleware Headers CacheServe UpstreamHandler Mirror MirrorFacts Waf Timeout.

Module Prom.

(** A call on the client; durations are nanoseconds, as the hooks are given them. *)
Inductive op :=
  | Inc (family : string) (labels : list string)
  | Add (family : string) (n : Z)
  | ObserveD (family : string) (labels : list string) (d : Z)
  | SetG (family : string) (labels : list string) (v : Z).

#[global] Instance op_eq_dec : EqDecision op.
Proof. solve_decision. Defined.

(** ** The observers *)

Section Observers.
Context (accepts : list string -> bool) (Itoa : Z -> string).

(** [if c, err := vec.GetMetricWith(labels); err == nil { ... }]. *)
Definition with_labels (labels : list string) (o : op) : list op := if accepts labels then [o] else [].

Definition ratelimit_observe (e : RateLimit.Event) : list op :=
  let l := [RateLimit.ev_name e; RateLimit.Result_String (RateLimit.ev_result e)] in with_labels l (Inc "ratelimit_total" l).
Definition ratelimit_observeRedisError : list op := [Inc "ratelimit_redis_errors_total" []].

Definition upstream_observe (info : Upstream.RoundTripInfo) (duration : Z) : list op :=
  let host := Upstream.info_host info in
  let status := match Upstream.Err info with Some _ => "error" | None => Itoa (Upstream.Status info) end in
  with_labels [host; status] (Inc "upstream_requests" [host; status]) ++
  with_labels [host] (ObserveD "upstream_request_duration_seconds" [host] duration) ++
  match Upstream.Err info with
  | Some e => if errors_is e ErrUnavailable then with_labels [host] (Inc "upstream_fast_rejects_total" [host]) else []
  | None => []
  end.

(** [State]'s iota. *)
Definition state_value (s : State) : Z :=
  match s with StateClosed => 0 | StateOpen => 1 | StateHalfOpen => 2 end.

Definition state_labels (c : StateChange) : list string :=
  [sc_host c; State_String (sc_from c); State_String (sc_to c); Reason_String (sc_reason c)].

Definition state_observe (c : StateChange) : list op :=
  with_labels [sc_host c] (SetG "upstream_breaker_state" [sc_host c] (state_value (sc_to c))) ++
  with_labels (state_labels c) (Inc "upstream_state_transitions_total" (state_labels c)) ++
  if bool_decide (sc_cause c = CauseNone) then []
  else let l := [sc_host c; ProbeCause_String (sc_cause c)] in with_labels l (Inc "upstream_probe_down_total" l).

Definition waf_observe (o : Waf.Outcome) (d : Z) : list op :=
  let l := [Waf.Outcome_String o] in with_labels l (ObserveD "waf_eval_duration_seconds" l d).

Definition cache_observe (host : string) (i : CacheServe.ResultInfo) : list op :=
  let l := [host; CacheServe.Result_string (CacheServe.info_result i)] in
  with_labels l (Inc "cache_total" l) ++
  if 0 <? CacheServe.FillDuration i then with_labels [host] (ObserveD "cache_fill_duration_seconds" [host] (CacheServe.FillDuration i)) else [].

Definition outcomeLabel (o : Mirror.Outcome) : string :=
  match o with
  | Mirror.OutcomeDispatched => "dispatched"
  | Mirror.OutcomeCompleted => "completed"
  | Mirror.OutcomeDroppedFull => "dropped_full"
  | Mirror.OutcomeDroppedOversize => "dropped_oversize"
  | Mirror.OutcomePanicked => "panicked"
  end.

Definition mirror_observe (i : Mirror.MirrorInfo) : list op :=
  let l := [outcomeLabel (Mirror.outcome i)] in
  with_labels l (Inc "mirror_total" l) ++
  if bool_decide (Mirror.outcome i = Mirror.OutcomeCompleted)
  then [ObserveD "mirror_request_duration_seconds" [] (Mirror.Duration i)] else [].

Definition shed_observe (r : LeastConn.ShedReason) : list op :=
  let l := [LeastConn.ShedReason_String r] in with_labels l (Inc "upstream_shed_total" l).

(** ** Requests *)

Record requestTrackRW := mkTrack { wroteHeader : bool; status : Z }.

(** The handler through the tracking writer. *)
Fixpoint track (a : act) (w : rw) (nw : requestTrackRW) : rw * requestTrackRW * bool :=
  let header code := if wroteHeader nw then (w, nw) else (rw_WriteHeader code w, mkTrack true code) in
  match a with
  | Done => (w, nw, true)
  | Panic => (w, nw, false)
  | ReadHeader k => track (k (hdr w)) w nw
  | UpdateHeader f k => track k (mkRW (f (hdr w)) (sent w) (early w) (body w)) nw
  | WriteHeader code k => let '(w, nw) := header code in track k w nw
  | Write d k =>
      let '(w, nw) := header 200 in
      let w := rw_WriteHeader 200 w in track k (mkRW (hdr w) (sent w) (early w) (body w +:+ d)) nw
  | Flush k => track k (rw_WriteHeader 200 w) nw
  end.

(** The deferred function runs whether the handler returns or panics. *)
Definition requests_ServeHandler (h : Handler) (r : Request) (w : rw) : rw * list op * bool :=
  let '(w, nw, ok) := track (h r) w (mkTrack false 0) in
  let l := [Host r; Itoa (status nw); Method r] in (w, with_labels l (Inc "requests" l), ok).

End Observers.

(** ** Bytes *)

(** [connNetTrack]: the results of the reads and writes of a connection, in order. *)
Inductive netcall := NRead (n : Z) | NWrite (n : Z).

Definition net_call (c : netcall) : list op :=
  match c with
  | NRead n => if 0 <? n then [Add "network_request_bytes" n] else []
  | NWrite n => if 0 <? n then [Add "network_response_bytes" n] else []
  end.

(** ** Occupancy at scrape time *)

Record TargetLoad := mkLoad { THost : string; TActive : Z; TCap : Z }.

Fixpoint collect_pool (ts : list TargetLoad) (seen : gset string) : list op * gset string :=
  match ts with
  | [] => ([], seen)
  | t :: ts =>
      if bool_decide (THost t ∈ seen) then collect_pool ts seen
      else
        let '(ops, seen) := collect_pool ts ({[THost t]} ∪ seen) in
        (SetG "upstream_inflight" [THost t] (TActive t) ::
         (if 0 <? TCap t then [SetG "upstream_inflight_capacity" [THost t] (TCap t)] else []) ++ ops, seen)
  end.

(** Each pool's loads are read when its turn comes. *)
Fixpoint collect (lbs : list (list TargetLoad)) (seen : gset string) : list op :=
  match lbs with
  | [] => []
  | ts :: lbs => let '(ops, seen) := collect_pool ts seen in ops ++ collect lbs seen
  end.
Definition Collect (lbs : list (list TargetLoad)) : list op := collect lbs ∅.

(** ** Connections *)

Inductive ConnState := StateNew | StateActive | StateIdle | StateHijacked | StateClosed_.

#[global] Instance ConnState_eq_dec : EqDecision ConnState.
Proof. solve_decision. Defined.

Definition gauged (s : ConnState) : bool := match s with StateNew | StateActive | StateIdle => true | _ => false end.

(** A call of [connState] on a connection: before the increment, before the load of the
    previous state, before its decrement, before the new state is stored or deleted. *)
Inductive phase :=
  | Resting
  | PInc (s : ConnState)
  | PLoad (s : ConnState)
  | PDec (s prev : ConnState)
  | PStore (s : ConnState).

(** A connection's entry in [storage] and its call in progress: the key of the map is the
    connection, and net/http reports the states of one connection one after the other. *)
Record conn := mkConn { stored : option ConnState; calling : phase }.

Record state := mkState { gauge : ConnState -> Z; conns : list conn }.

Definition bump (s : ConnState) (d : Z) (g : ConnState -> Z) : ConnState -> Z :=
  fun x => if bool_decide (x = s) then g x + d else g x.

(** The next action of a call. *)
Definition cstep (g : ConnState -> Z) (c : conn) : option ((ConnState -> Z) * conn) :=
  match calling c with
  | Resting => None
  | PInc s => Some (if gauged s then bump s 1 g else g, mkConn (stored c) (PLoad s))
  | PLoad s => Some (g, mkConn (stored c) (match stored c with Some prev => PDec s prev | None => PStore s end))
  | PDec s prev => Some (bump prev (-1) g, mkConn (stored c) (PStore s))
  | PStore s => Some (g, mkConn (if gauged s then Some s else None) Resting)
  end.

Inductive step : state -> state -> Prop :=
  | step_accept g cs : step (mkState g cs) (mkState g (cs ++ [mkConn None Resting]))
  | step_report g cs i c s : cs !! i = Some c -> calling c = Resting ->
      step (mkState g cs) (mkState g (<[i := mkConn (stored c) (PInc s)]> cs))
  | step_call g cs i c g' c' : cs !! i = Some c -> cstep g c = Some (g', c') ->
      step (mkState g cs) (mkState g' (<[i := c']> cs)).

Definition init : state := mkState (fun _ => 0) [].

End Prom.

Module PromFacts.
Import Prom.

(** ** Counting *)

(** How often a counter was incremented. *)
Definition incs (family : string) (labels : list string) (ops : list op) : nat :=
  length (filter (eq (Inc family labels)) ops).

Lemma incs_app f l a b : incs f l (a ++ b) = (incs f l a + incs f l b)%nat.
Proof. unfold incs. by rewrite filter_app, length_app. Qed.

Lemma incs_inc accepts f l l' :
  incs f l (with_labels accepts l' (Inc f l')) = if bool_decide (l' = l) then (if accepts l then 1%nat else 0%nat) else 0%nat.
Proof.
  unfold with_labels. case_bool_decide as E.
  - subst. destruct (accepts l); [|done]. unfold incs. by rewrite filter_cons_True.
  - destruct (accepts l'); [|done]. unfold incs. rewrite filter_cons_False by (intros [=]; congruence). done.
Qed.

(** Operations of no interest. *)
Lemma incs_none f l ops : Forall (fun o => o <> Inc f l) ops -> incs f l ops = 0%nat.
Proof.
  intros H. unfold incs. induction H as [|o ops Ho _ IH]; [done|]. by rewrite filter_cons_False by congruence.
Qed.

Lemma with_labels_all accepts l o (P : op -> Prop) : P o -> Forall P (with_labels accepts l o).
Proof. intros H. unfold with_labels. destruct (accepts l); by repeat constructor. Qed.

(** An observer that increments a counter once for each event of a kind counts them. *)
Lemma incs_bind {A} (obs : A -> list op) f l (P : A -> Prop) `{!forall x, Decision (P x)} (b : bool) :
  (forall x, incs f l (obs x) = if bool_decide (P x) then (if b then 1%nat else 0%nat) else 0%nat) ->
  forall xs, incs f l (xs ≫= obs) = if b then length (filter P xs) else 0%nat.
Proof.
  intros Hobs xs. induction xs as [|x xs IH]; [by destruct b|]. rewrite bind_cons, incs_app, Hobs, IH.
  case_bool_decide; [rewrite filter_cons_True by done|rewrite filter_cons_False by done]; by destruct b.
Qed.

(** The value a gauge was last set to. *)
Definition gauge_of (family : string) (labels : list string) (ops : list op) : option Z :=
  last (omap (fun o => match o with SetG f l v => if bool_decide (f = family /\ l = labels) then Some v else None | _ => None end) ops).

Lemma gauge_of_app f l a b : gauge_of f l (a ++ b) = match gauge_of f l b with Some v => Some v | None => gauge_of f l a end.
Proof. unfold gauge_of. by rewrite omap_app, last_app. Qed.

Lemma state_gauge accepts c h :
  gauge_of "upstream_breaker_state" [h] (state_observe accepts c) =
  if bool_decide (sc_host c = h) && accepts [h] then Some (state_value (sc_to c)) else None.
Proof.
  unfold state_observe. rewrite !gauge_of_app.
  assert (forall l f l', gauge_of "upstream_breaker_state" [h] (with_labels accepts l (Inc f l')) = None) as Hn.
  { intros. unfold with_labels. by destruct (accepts l). }
  case_bool_decide as Hc; cbv zeta; rewrite ?Hn; cbn [gauge_of omap list_omap last];
    unfold with_labels, gauge_of; (destruct (decide (sc_host c = h)) as [->|Hh]; [rewrite (bool_decide_true (h = h)) by done|rewrite (bool_decide_false (_ = h)) by done]);
    destruct (accepts _); cbn; rewrite ?bool_decide_true by done; try done; rewrite bool_decide_false; naive_solver.
Qed.

(** The state metrics. However the changes of the targets are
    interleaved, the transition counter of each label set is exactly the number of
    changes with those labels, the probe counter exactly the number of probe failures of
    that host and cause, and a host's gauge is the state of its last change. *)
Theorem prom_state_metrics accepts cs :
  let ops := cs ≫= state_observe accepts in
  (forall l, incs "upstream_state_transitions_total" l ops = if accepts l then length (filter (fun c => state_labels c = l) cs) else 0%nat) /\
  (forall h cause, cause <> CauseNone ->
     incs "upstream_probe_down_total" [h; ProbeCause_String cause] ops =
     if accepts [h; ProbeCause_String cause] then length (filter (fun c => sc_host c = h /\ sc_cause c = cause) cs) else 0%nat) /\
  (forall h, accepts [h] = true ->
     gauge_of "upstream_breaker_state" [h] ops = state_value ∘ sc_to <$> last (filter (fun c => sc_host c = h) cs)).
Proof.
  cbv zeta. split_and!.
  - intros l. apply incs_bind. intros c. unfold state_observe. rewrite !incs_app, incs_inc.
    rewrite (incs_none _ _ (with_labels _ _ (SetG _ _ _))) by by apply with_labels_all.
    rewrite (incs_none _ _ (if bool_decide _ then _ else _)); [destruct (bool_decide _); lia|].
    case_bool_decide; [constructor|]. by apply with_labels_all.
  - intros h cause Hc. apply incs_bind. intros c. unfold state_observe. rewrite !incs_app.
    rewrite (incs_none _ _ (with_labels _ _ (SetG _ _ _))) by by apply with_labels_all.
    rewrite (incs_none _ _ (with_labels _ _ (Inc "upstream_state_transitions_total" _))) by by apply with_labels_all.
    assert (forall a b, ProbeCause_String a = ProbeCause_String b -> a = b) as Hinj by by intros [] [].
    case_bool_decide as E; [rewrite bool_decide_false by naive_solver; done|]. cbv zeta. rewrite incs_inc. cbn [Nat.add].
    erewrite bool_decide_ext; [reflexivity|]. split; [intros [=]; naive_solver|naive_solver].
  - intros h Hh. induction cs as [|c cs IH] using rev_ind; [done|].
    rewrite bind_app, gauge_of_app. cbn [mbind list_bind]. rewrite app_nil_r, state_gauge, Hh, andb_true_r, filter_app, last_app.
    case_bool_decide as E; [by rewrite filter_cons_True|]. rewrite filter_cons_False by done. exact IH.
Qed.

(** ** Mirroring *)

(** Outcomes whose hook has not run yet. *)
Definition pending (o : Mirror.Outcome) (st : Mirror.state) : nat :=
  (sum_list_with (MirrorFacts.telling o) (Mirror.requests st) + sum_list_with (MirrorFacts.wtelling o) (Mirror.pool st))%nat.

(** The mirror's metric agrees with the mirror. In every state a run of the
    mirror can reach, the counter of each outcome in [Stats] is the number of increments
    of its series, and of hooks about to run, at 64 bits. *)
Theorem prom_mirror_total {world} accepts (m : @Mirror.Mirror world) st :
  0 <= Mirror.QueueSize m -> Mirror.Observe m = true -> (forall o, accepts [outcomeLabel o] = true) ->
  rtc (Mirror.step m) (Mirror.init m) st ->
  forall o, MirrorFacts.counter o (Mirror.sh st) =
    u64 (Z.of_nat (incs "mirror_total" [outcomeLabel o] (Mirror.observed (Mirror.sh st) ≫= mirror_observe accepts) + pending o st)).
Proof.
  intros Hq Hm Ha Hr o. destruct (MirrorFacts.mirror_reachable m st Hq Hr) as (_ & _ & n & [H1 _ H2]).
  rewrite H1, H2 by done. do 2 f_equal. unfold MirrorFacts.told, pending. rewrite <- Nat.add_assoc. f_equal.
  rewrite (incs_bind (mirror_observe accepts) _ _ (fun i => Mirror.outcome i = o) true); [done|].
  intros i. unfold mirror_observe. rewrite incs_app, incs_inc, Ha.
  assert (forall a b, outcomeLabel a = outcomeLabel b -> a = b) as Hinj by by intros [] [].
  rewrite (incs_none _ _ (if bool_decide _ then _ else _)) by (case_bool_decide; repeat constructor; done).
  rewrite Nat.add_0_r. erewrite bool_decide_ext; [reflexivity|]. split; [intros [=]; by apply Hinj|congruence].
Qed.

(** ** Requests *)

Lemma track_spec a w nw :
  TimeoutFacts.steady a ->
  wroteHeader nw = bool_decide (is_Some (sent w)) -> status nw = match sent w with Some (c, _) => c | None => 0 end ->
  let '(w', nw', ok) := track a w nw in
  (w', ok) = exec a w /\ status nw' = match sent w' with Some (c, _) => c | None => 0 end.
Proof.
  intros Ha. revert w nw. induction Ha as [| |k _ IH|f k _ IH|code k Hi _ IH|d k _ IH]; intros w nw H1 H2; cbn [track exec].
  - done.
  - done.
  - by apply IH.
  - by apply IH.
  - rewrite H1. case_bool_decide as Hs.
    + destruct Hs as [x Hx]. rewrite (HeadersFacts.rw_WriteHeader_sent _ _ _ Hx). apply IH; [by rewrite H1, Hx|done].
    + rewrite (HeadersFacts.rw_WriteHeader_new _ _ (proj2 (eq_None_not_Some _) Hs) Hi). by apply IH.
  - rewrite H1. case_bool_decide as Hs.
    + destruct Hs as [x Hx]. rewrite (HeadersFacts.rw_WriteHeader_sent _ _ _ Hx). apply IH; [by rewrite H1, Hx|done].
    + rewrite (HeadersFacts.rw_WriteHeader_new 200 w (proj2 (eq_None_not_Some _) Hs) eq_refl). by apply IH.
Qed.

(** Every request is counted once, panics included, under its host, its
    method and the status it was answered with (0 if the handler never started a
    response), and its response is the one it has without the counter, for a handler
    that sends no informational status and does not flush. *)
Theorem prom_requests accepts Itoa (h : Handler) r w :
  TimeoutFacts.steady (h r) -> sent w = None ->
  let '(w', ops, ok) := requests_ServeHandler accepts Itoa h r w in
  (w', ok) = exec (h r) w /\
  ops = (let l := [Host r; Itoa (match sent w' with Some (c, _) => c | None => 0 end); Method r] in
         if accepts l then [Inc "requests" l] else []).
Proof.
  intros Ha Hw. unfold requests_ServeHandler. pose proof (track_spec (h r) w (mkTrack false 0) Ha) as H.
  destruct (track (h r) w (mkTrack false 0)) as [[w' nw'] ok]. rewrite Hw in H. destruct H as [H1 H2]; [done|done|].
  split; [done|]. by rewrite <- H2.
Qed.

(** ** Bytes *)

Definition added (family : string) (ops : list op) : Z :=
  foldr (fun o n => match o with Add f k => if bool_decide (f = family) then k + n else n | _ => n end) 0 ops.

(** The byte counters are the bytes read and written: a call that moved none adds none. *)
Lemma network_bytes cs :
  Forall (fun c => match c with NRead n | NWrite n => 0 <= n end) cs ->
  added "network_request_bytes" (cs ≫= net_call) = foldr (fun c n => match c with NRead k => k + n | _ => n end) 0 cs /\
  added "network_response_bytes" (cs ≫= net_call) = foldr (fun c n => match c with NWrite k => k + n | _ => n end) 0 cs.
Proof.
  unfold added. induction 1 as [|c cs Hc _ [IH1 IH2]]; [done|]. rewrite bind_cons, !foldr_app, IH1, IH2.
  destruct c as [n|n]; cbn [net_call]; destruct (Z.ltb_spec 0 n); cbn [foldr]; repeat case_bool_decide; try done; split; lia.
Qed.

(** ** Occupancy *)

(** The first load of each host not in [seen]. *)
Fixpoint firsts (ts : list TargetLoad) (seen : gset string) : list TargetLoad :=
  match ts with
  | [] => []
  | t :: ts => if bool_decide (THost t ∈ seen) then firsts ts seen else t :: firsts ts ({[THost t]} ∪ seen)
  end.

Definition emits (t : TargetLoad) : list op :=
  SetG "upstream_inflight" [THost t] (TActive t) ::
  (if 0 <? TCap t then [SetG "upstream_inflight_capacity" [THost t] (TCap t)] else []).

Lemma collect_pool_firsts ts rest seen :
  let '(ops, seen') := collect_pool ts seen in
  ops = firsts ts seen ≫= emits /\ firsts (ts ++ rest) seen = firsts ts seen ++ firsts rest seen'.
Proof.
  revert seen. induction ts as [|t ts IH]; intros seen; [done|]. cbn [collect_pool firsts app]. case_bool_decide; [apply IH|].
  specialize (IH ({[THost t]} ∪ seen)). destruct (collect_pool ts _) as [ops seen']. destruct IH as [-> E]. split; [done|]. by rewrite E.
Qed.

Lemma collect_firsts lbs seen : collect lbs seen = firsts (concat lbs) seen ≫= emits.
Proof.
  revert seen. induction lbs as [|ts lbs IH]; intros seen; [done|]. cbn [collect concat].
  pose proof (collect_pool_firsts ts (concat lbs) seen) as H. destruct (collect_pool ts seen) as [ops seen'].
  destruct H as [-> ->]. by rewrite bind_app, IH.
Qed.

Lemma firsts_nodup ts seen : NoDup (THost <$> firsts ts seen) /\ Forall (fun t => THost t ∉ seen) (firsts ts seen).
Proof.
  revert seen. induction ts as [|t ts IH]; intros seen; [split; constructor|]. cbn [firsts]. case_bool_decide as E; [apply IH|].
  destruct (IH ({[THost t]} ∪ seen)) as [H1 H2]. rewrite fmap_cons, NoDup_cons. split_and!; [|done|].
  - intros (x & Ex & Hx)%list_elem_of_fmap. rewrite Forall_forall in H2. specialize (H2 x Hx). set_solver.
  - constructor; [done|]. eapply Forall_impl; [exact H2|]. set_solver.
Qed.

Lemma firsts_complete ts seen t : t ∈ ts -> THost t ∉ seen -> exists t', t' ∈ firsts ts seen /\ THost t' = THost t.
Proof.
  revert seen. induction ts as [|x ts IH]; intros seen Ht Hs; [by apply elem_of_nil in Ht|]. cbn [firsts].
  apply elem_of_cons in Ht as [<-|Ht].
  - rewrite bool_decide_false by done. exists t. split; [left|done].
  - case_bool_decide as E; [by apply IH|]. destruct (decide (THost x = THost t)) as [Ex|Ex]; [exists x; split; [left|done]|].
    destruct (IH ({[THost x]} ∪ seen) Ht) as (t' & H1 & H2); [set_solver|]. exists t'. split; [by right|done].
Qed.

(** A scrape is valid and complete. Whatever pools were registered, and
    however often, each host is reported once, so no series is emitted twice; every host
    of every pool is reported; and its capacity is reported exactly when it has one. *)
Theorem prom_inflight_scrape lbs :
  exists ts, Collect lbs = ts ≫= emits /\ NoDup (THost <$> ts) /\ ts ⊆ concat lbs /\
    (forall t, t ∈ concat lbs -> THost t ∈ THost <$> ts).
Proof.
  exists (firsts (concat lbs) ∅). split_and!; [apply collect_firsts|apply firsts_nodup| |].
  - generalize (∅ : gset string). induction (concat lbs) as [|t ts IH]; intros seen; [done|]. cbn [firsts].
    case_bool_decide; [specialize (IH seen)|specialize (IH ({[THost t]} ∪ seen))]; set_solver.
  - intros t Ht. destruct (firsts_complete (concat lbs) ∅ t Ht) as (t' & H1 & <-); [set_solver|]. by apply list_elem_of_fmap_2.
Qed.

(** ** Connections *)

(** What a connection adds to the gauge of [s]. *)
Definition contrib (s : ConnState) (c : conn) : nat :=
  ((if bool_decide (stored c = Some s) then match calling c with PStore _ => 0 | _ => 1 end else 0) +
   match calling c with PLoad t | PDec t _ | PStore t => if gauged t && bool_decide (t = s) then 1 else 0 | _ => 0 end)%nat.

Definition conn_ok (c : conn) : Prop :=
  (forall t, stored c = Some t -> gauged t = true) /\
  match calling c with PDec _ prev => stored c = Some prev | _ => True end.

Definition inv (st : state) : Prop :=
  Forall conn_ok (conns st) /\ forall s, gauge st s = Z.of_nat (sum_list_with (contrib s) (conns st)).

Lemma cstep_ok g c g' c' : conn_ok c -> cstep g c = Some (g', c') ->
  conn_ok c' /\ forall s, g' s + Z.of_nat (contrib s c) = g s + Z.of_nat (contrib s c').
Proof.
  destruct c as [st p]. unfold conn_ok, cstep. cbn [stored calling]. intros [Hs Hp] H.
  destruct p as [|t|t|t prev|t]; simplify_eq; cbn [stored calling].
  - split; [done|]. intros s. unfold contrib, bump. cbn [stored calling].
    destruct (gauged t); cbn [andb]; [|lia]. rewrite (bool_decide_ext (s = t) (t = s)) by naive_solver. case_bool_decide; lia.
  - by destruct st as [prev|]; split.
  - subst. split; [done|]. intros s. unfold contrib, bump. cbn [stored calling].
    rewrite (bool_decide_ext (s = prev) (Some prev = Some s)) by naive_solver. case_bool_decide; lia.
  - split; [split; [|done]; destruct (gauged t) eqn:E; congruence|]. intros s. unfold contrib. cbn [stored calling].
    destruct (gauged t); cbn [andb]; [rewrite (bool_decide_ext (Some t = Some s) (t = s)) by naive_solver|rewrite (bool_decide_false (None = _)) by done];
      destruct (bool_decide (st = Some s)); lia.
Qed.

Lemma step_inv st st' : inv st -> step st st' -> inv st'.
Proof.
  intros [H1 H2] Hs. destruct Hs as [g cs|g cs i c s Hi Hc|g cs i c g' c' Hi Hc]; cbn [conns gauge] in *.
  - split; cbn; [apply Forall_app; split; [done|by repeat constructor]|]. intros s. rewrite sum_list_with_app, H2. cbn [sum_list_with]. change (contrib s (mkConn None Resting)) with 0%nat. lia.
  - pose proof (Forall_lookup_1 _ _ _ _ H1 Hi) as [Hg _]. split; cbn; [by apply Forall_insert|].
    intros t. rewrite H2. pose proof (sum_list_with_insert (contrib t) cs i c (mkConn (stored c) (PInc s)) Hi) as E.
    unfold contrib at 2 4 in E. cbn [stored calling] in E. rewrite Hc in E. lia.
  - destruct (cstep_ok g c g' c' (Forall_lookup_1 _ _ _ _ H1 Hi) Hc) as [Hok Hg]. split; cbn; [by apply Forall_insert|].
    intros s. pose proof (sum_list_with_insert (contrib s) cs i c c' Hi) as E. specialize (Hg s). rewrite H2 in Hg. lia.
Qed.

(** The connection gauge is exact. However the state changes of the
    connections interleave, no gauge is ever negative, and whenever no change is being
    reported each gauge is the number of connections in that state: hijacked and closed
    connections leave nothing behind. *)
Theorem prom_connections_exact st :
  rtc step init st ->
  (forall s, 0 <= gauge st s) /\
  (Forall (fun c => calling c = Resting) (conns st) ->
   forall s, gauge st s = Z.of_nat (length (filter (fun c => stored c = Some s) (conns st)))).
Proof.
  intros Hr. assert (inv st) as [H1 H2].
  { assert (inv init) as H0 by (split; [constructor|done]). revert H0. induction Hr as [|x y z Hs _ IH]; [done|]. intros Hx. eauto using step_inv. }
  split; [intros s; rewrite H2; lia|]. intros Hq s. rewrite H2. f_equal. clear H1 H2 Hr.
  induction Hq as [|c cs Hc _ IH]; [done|]. cbn [sum_list_with]. unfold contrib at 1. rewrite Hc, IH.
  case_bool_decide; [rewrite filter_cons_True by done|rewrite filter_cons_False by done]; done.
Qed.

(** ** Runs *)

Definition all_labels (_ : list string) : bool := true.
Definition itoa (n : Z) : string := if n =? 0 then "0" else if n =? 200 then "200" else if n =? 103 then "103" else "?".

(** One connection becomes active while another is accepted and closed. *)
Definition two_conns : state :=
  mkState (bump StateNew (-1) (bump StateActive 1 (bump StateNew 1 (fun _ => 0)))) [mkConn (Some StateActive) Resting; mkConn None Resting].

Lemma two_conns_reached : rtc step init two_conns.
Proof.
  eapply rtc_l; [apply step_accept|]. eapply rtc_l; [apply step_accept|].
  eapply rtc_l; [by apply (step_report _ _ 0 (mkConn None Resting) StateNew)|].
  do 3 (eapply rtc_l; [by eapply (step_call _ _ 0)|]).
  eapply rtc_l; [by apply (step_report _ _ 0 (mkConn (Some StateNew) Resting) StateActive)|].
  eapply rtc_l; [by apply (step_report _ _ 1 (mkConn None Resting) StateClosed_)|].
  eapply rtc_l; [by eapply (step_call _ _ 0)|].
  do 3 (eapply rtc_l; [by eapply (step_call _ _ 1)|]).
  do 3 (eapply rtc_l; [by eapply (step_call _ _ 0)|]).
  apply rtc_refl.
Qed.

Lemma prom_connections_exact_witness : gauge two_conns StateActive = 1 /\ gauge two_conns StateNew = 0.
Proof.
  destruct (prom_connections_exact two_conns two_conns_reached) as [_ H].
  split; rewrite H by (repeat constructor); vm_compute; reflexivity.
Defined.

Lemma prom_mirror_total_witness :
  MirrorFacts.counter Mirror.OutcomeDroppedFull (Mirror.sh MirrorFacts.st_four) =
  u64 (Z.of_nat (incs "mirror_total" ["dropped_full"] (Mirror.observed (Mirror.sh MirrorFacts.st_four) ≫= mirror_observe all_labels) +
    pending Mirror.OutcomeDroppedFull MirrorFacts.st_four)).
Proof.
  apply (prom_mirror_total all_labels MirrorFacts.demo MirrorFacts.st_four); [vm_compute; congruence|reflexivity|done|exact MirrorFacts.st_four_reached].
Defined.

Definition request : Request := mkRequest "GET" "a" "/x" "/x" "" false ∅.

Lemma prom_requests_witness :
  (requests_ServeHandler all_labels itoa (fun _ => Write "ok" Done) request new_rw).1.2 = [Inc "requests" ["a"; "200"; "GET"]].
Proof.
  pose proof (prom_requests all_labels itoa (fun _ => Write "ok" Done) request new_rw ltac:(repeat constructor) eq_refl) as H.
  destruct (requests_ServeHandler _ _ _ _ _) as [[w ops] ok]. destruct H as [[= -> ->] ->]. vm_compute. reflexivity.
Defined.

(** A response the handler never starts is a 200 to the client and counted as 0; a final
    status after an informational one is dropped, for the client and the counter. *)
Example requests_implicit_status :
  (requests_ServeHandler all_labels itoa (fun _ => Done) request new_rw).1.2 = [Inc "requests" ["a"; "0"; "GET"]].
Proof. vm_compute. done. Qed.

Example requests_early_hints :
  let '(w, ops, _) := requests_ServeHandler all_labels itoa (fun _ => WriteHeader 103 (WriteHeader 404 (Write "no" Done))) request new_rw in
  fst <$> sent w = Some 200 /\ ops = [Inc "requests" ["a"; "103"; "GET"]].
Proof. vm_compute. done. Qed.

Example scrape : Collect [[mkLoad "a" 2 5; mkLoad "b" 1 0]; [mkLoad "a" 7 9]] =
  [SetG "upstream_inflight" ["a"] 2; SetG "upstream_inflight_capacity" ["a"] 5; SetG "upstream_inflight" ["b"] 1].
Proof. vm_compute. done. Qed.

End PromFacts.
