(* ===== verification/Serving.v ===== *)
(** * The server: configuration, listeners, presets and certificates

    [src/server.go], [listener.go], [new.go] and [cert.go], less the shutdown of
    [Server].  What is handed to net/http is a record of the fields the code sets; the
    sockets, the TLS handshake and the signing of a certificate are net/http's and
    crypto's.  Hooks and configurations that are only passed on (loggers, TLS and
    connection-state hooks, contexts) are named by numbers. *)

From Stdlib Require Import Ascii.
From S2P Require Import Prelude GoStrings GoNet Proxy Middleware.

Module Serving.

(** ** The proxy around the chain *)

(** The request's header map as net/http reads it: a slice of its own for every key. *)
Definition load (h : header) : gmap string nat * Proxy.store :=
  map_fold (fun k v ms => let '(p, s) := Proxy.alloc v ms.2 in (<[k := p]> ms.1, s)) (∅, Proxy.init_store) h.

Definition read (s : Proxy.store) (m : gmap string nat) : header := (fun p => default [] (Proxy.slices s !! p)) <$> m.

(** The request [proxy.ServeHTTP] hands on, and the proxy as a middleware.  The globals it
    may share are as at start-up: no middleware writes a header slice in place (see
    [Proxy]). *)
Definition rewritten (m : Proxy.proxy) (r : Request) : Request :=
  let '(hd, s) := load (Header r) in
  let '(r', s) := Proxy.ServeHTTP m (Proxy.mkRequest (RemoteAddr r) (TLS r) hd) s in
  with_header (read s (Proxy.Header r')) r.

Definition proxied (m : Proxy.proxy) : Middleware := fun h r => h (rewritten m r).

(** ** The server *)

(** The fields of [http.Server] the code sets; [s_H2C]: Protocols is HTTP/1 and
    cleartext HTTP/2. *)
Record http_Server := mkHTTP {
  s_Handler : option Handler;
  s_Addr : string;
  s_ConnState : option nat;
  s_ReadTimeout : Z;
  s_ReadHeaderTimeout : Z;
  s_WriteTimeout : Z;
  s_IdleTimeout : Z;
  s_MaxHeaderBytes : Z;
  s_ErrorLog : option nat;
  s_TLSConfig : option nat;
  s_BaseContext : bool;
  s_H2C : bool;
}.

Section Server.
Context {Conn : Type}.

Record Server := mk {
  s : http_Server;
  ms : list Middleware;
  modifyConn : list (Conn -> Conn);
  Addr : string;
  Handler_ : Handler;
  ReadTimeout : Z;
  ReadHeaderTimeout : Z;
  WriteTimeout : Z;
  IdleTimeout : Z;
  MaxHeaderBytes : Z;
  TCPKeepAlivePeriod : Z;
  GraceTimeout : Z;
  WaitBeforeShutdown : Z;
  ErrorLog : option nat;
  TrustProxy : option (Proxy.Request -> bool);
  H2C : bool;
  ReusePort : bool;
  ConnState : option nat;
  TLSConfig : option nat;
  BaseContext : option nat;
  ShareProtoSlice : bool;
}.

Definition with_s (x : http_Server) (v : Server) : Server :=
  mk x (ms v) (modifyConn v) (Addr v) (Handler_ v) (ReadTimeout v) (ReadHeaderTimeout v) (WriteTimeout v) (IdleTimeout v)
    (MaxHeaderBytes v) (TCPKeepAlivePeriod v) (GraceTimeout v) (WaitBeforeShutdown v) (ErrorLog v) (TrustProxy v) (H2C v)
    (ReusePort v) (ConnState v) (TLSConfig v) (BaseContext v) (ShareProtoSlice v).
Definition with_ms (l : list Middleware) (v : Server) : Server :=
  mk (s v) l (modifyConn v) (Addr v) (Handler_ v) (ReadTimeout v) (ReadHeaderTimeout v) (WriteTimeout v) (IdleTimeout v)
    (MaxHeaderBytes v) (TCPKeepAlivePeriod v) (GraceTimeout v) (WaitBeforeShutdown v) (ErrorLog v) (TrustProxy v) (H2C v)
    (ReusePort v) (ConnState v) (TLSConfig v) (BaseContext v) (ShareProtoSlice v).

(** [None] is the panic "can not use after serve". *)
Definition Use (v : Server) (m : option Middleware) : option Server :=
  match s_Handler (s v) with Some _ => None | None => Some (with_ms (Middlewares.Use (ms v) m) v) end.
Definition UseFunc (v : Server) (m : Handler -> Handler) : option Server := Use v (Some (Middlewares.MiddlewareFunc m)).

Definition the_proxy (v : Server) : Proxy.proxy := Proxy.mk (TrustProxy v) false (ShareProtoSlice v).

(** Inside [once.Do]: the handler is set there and nowhere else. *)
Definition configHandler (v : Server) : Server :=
  match s_Handler (s v) with
  | Some _ => v
  | None =>
      let x := s v in
      let h := proxied (the_proxy v) (Middlewares.ServeHandler (ms v) (Handler_ v)) in
      with_s (mkHTTP (Some h) (s_Addr x) (s_ConnState x) (s_ReadTimeout x) (s_ReadHeaderTimeout x) (s_WriteTimeout x)
        (s_IdleTimeout x) (s_MaxHeaderBytes x) (s_ErrorLog x) (s_TLSConfig x) true (if H2C v then true else s_H2C x)) v
  end.

Definition ServeHTTP (v : Server) (r : Request) : Server * act :=
  let v := configHandler v in (v, default (fun _ => Panic) (s_Handler (s v)) r).

Definition configServer (v : Server) : Server :=
  let v := configHandler v in
  with_s (mkHTTP (s_Handler (s v)) (Addr v) (ConnState v) (ReadTimeout v) (ReadHeaderTimeout v) (WriteTimeout v)
    (IdleTimeout v) (MaxHeaderBytes v) (ErrorLog v) (TLSConfig v) (s_BaseContext (s v)) (s_H2C (s v))) v.

Definition isTLS (v : Server) : bool := match TLSConfig v with Some _ => true | None => false end.

Definition ModifyConnection (v : Server) (f : Conn -> Conn) : Server :=
  mk (s v) (ms v) (modifyConn v ++ [f]) (Addr v) (Handler_ v) (ReadTimeout v) (ReadHeaderTimeout v) (WriteTimeout v) (IdleTimeout v)
    (MaxHeaderBytes v) (TCPKeepAlivePeriod v) (GraceTimeout v) (WaitBeforeShutdown v) (ErrorLog v) (TrustProxy v) (H2C v)
    (ReusePort v) (ConnState v) (TLSConfig v) (BaseContext v) (ShareProtoSlice v).

(** ** Listeners *)

(** A socket: a plain one, with the keep-alive of its [ListenConfig], or a reusable one
    in a [tcpListener]; and the connection modifiers around it. *)
Inductive socket := Listen (addr : string) (KeepAlive : Z) | Reusable (addr : string) (KeepAlivePeriod : Z).
Record listener := mkLn { socket_ : socket; ModifyConn : list (Conn -> Conn) }.

(** [tcpListener.Accept]: the period set on an accepted connection, if any. *)
Definition tcp_keepalive (KeepAlivePeriod : Z) : option Z := if 0 <? KeepAlivePeriod then Some KeepAlivePeriod else None.

(** [modifyConnListener.Accept]. *)
Definition Accept (ln : listener) (accepted : Conn + string) : Conn + string :=
  match accepted with inl c => inl (foldl (fun c f => f c) c (ModifyConn ln)) | inr e => inr e end.

(** What net/http is called with: [Serve] or [ServeTLS] of the configured server. *)
Definition Serve (v : Server) (ln : listener) : Server * listener * bool :=
  let v := configServer v in (v, ln, isTLS v).

Definition listen_addr (addr : string) (isTLS : bool) : string :=
  if String.eqb addr "" then (if isTLS then ":443" else ":http") else addr.

(** [open] is the opening of a socket, with its error; a listener without modifiers is
    the socket itself. *)
Definition listenAndServe (open : socket -> option string) (v : Server) : Server * listener * bool + string :=
  let addr := listen_addr (Addr v) (isTLS v) in
  let sock := if ReusePort v then Reusable addr (TCPKeepAlivePeriod v) else Listen addr (TCPKeepAlivePeriod v) in
  match open sock with Some err => inr err | None => inl (Serve v (mkLn sock (modifyConn v))) end.

(** ** Presets *)

Definition zero_http : http_Server := mkHTTP None "" None 0 0 0 0 0 None None false false.

Definition New : Server :=
  mk zero_http [] [] "" NotFoundHandler 0 0 0 (620 * Second) 0 (3 * Minute) (30 * Second) (10 * Second) None
    (Some Proxy.Trusted) false false None None None false.
Definition NewFrontend : Server :=
  mk zero_http [] [] "" NotFoundHandler (1 * Minute) (10 * Second) (1 * Minute) (75 * Second) 0 (60 * Second) (30 * Second) (10 * Second) None
    None false false None None None false.
Definition NewBackend : Server :=
  mk zero_http [] [] "" NotFoundHandler 0 0 0 (620 * Second) 0 (3 * Minute) (30 * Second) (10 * Second) None
    (Some Proxy.Trusted) true false None None None false.

End Server.
Arguments Server : clear implicits.
Arguments listener : clear implicits.

(** ** Self-signed certificates *)

Record SelfSign := mkSelf { CommonName : string; Hosts : list string; NotBefore : option Z; NotAfter : option Z }.

(** The template signed; a zero time is [None], and [ten_years] is [AddDate(10, 0, 0)].
    The usages are constants: key encipherment and digital signature, server
    authentication. *)
Record template := mkT {
  SerialNumber : Z;
  Subject : string;
  T_NotBefore : Z;
  T_NotAfter : Z;
  IPAddresses : list (list Z);
  DNSNames : list string;
}.

Definition add_host (t : template) (h : string) : template :=
  match NetIP.ParseIP h with
  | Some ip => mkT (SerialNumber t) (Subject t) (T_NotBefore t) (T_NotAfter t) (IPAddresses t ++ [ip]) (DNSNames t)
  | None => mkT (SerialNumber t) (Subject t) (T_NotBefore t) (T_NotAfter t) (IPAddresses t) (DNSNames t ++ [h])
  end.

Definition certificate_template (ten_years : Z -> Z) (now1 now2 : Z) (sn : Z) (opt : SelfSign) : template :=
  foldl add_host (mkT sn (CommonName opt) (default now1 (NotBefore opt)) (default (ten_years now2) (NotAfter opt)) [] []) (Hosts opt).

Record Certificate (Key : Type) := mkCert { Certificate_ : list (list Z); PrivateKey : Key }.
Arguments mkCert {Key} _ _.
Arguments Certificate_ {Key} _.
Arguments PrivateKey {Key} _.

(** The key, the serial number and the signature are crypto's, each with its error;
    the clock is read for a bound that is not given. *)
Definition GenerateSelfSignCertificate {Key} (GenerateKey : Key + string) (serial : Z + string)
    (CreateCertificate : template -> Key -> list Z + string) (ten_years : Z -> Z) (now1 now2 : Z) (opt : SelfSign)
    : Certificate Key + string :=
  match GenerateKey with
  | inr err => inr err
  | inl pri =>
      match serial with
      | inr err => inr err
      | inl sn =>
          match CreateCertificate (certificate_template ten_years now1 now2 sn opt) pri with
          | inr err => inr err
          | inl certBytes => inl (mkCert [certBytes] pri)
          end
      end
  end.

End Serving.

Module ServingFacts.
Import Serving.

(** ** Reading back *)

Record loaded (h : header) (ms : gmap string nat * Proxy.store) : Prop := {
  loaded_store : ProxyFacts.store_ok ms.2;
  loaded_addr k p : ms.1 !! k = Some p -> is_Some (Proxy.slices ms.2 !! p);
  loaded_read : read ms.2 ms.1 = h;
}.

(** A map read after the store grew. *)
Lemma read_preserved s s' m :
  ProxyFacts.store_ok s -> (forall k p, m !! k = Some p -> is_Some (Proxy.slices s !! p)) -> ProxyFacts.preserved s s' ->
  read s' m = read s m.
Proof.
  intros [Hs _] Hm (_ & _ & Hp). apply map_eq. intros k. unfold read. rewrite !lookup_fmap.
  destruct (m !! k) as [p|] eqn:E; [|done]. cbn. destruct (Hm _ _ E) as [v Hv]. by rewrite Hp by eauto.
Qed.

Lemma read_insert s m k p : read s (<[k := p]> m) = <[k := default [] (Proxy.slices s !! p)]> (read s m).
Proof. unfold read. exact (fmap_insert (fun q => default [] (Proxy.slices s !! q)) m k p). Qed.

Lemma load_ok h : loaded h (load h).
Proof.
  unfold load. apply (map_fold_weak_ind (fun ms h => loaded h ms)).
  - split; [|done|done]. split; [|done]. intros p v. destruct p as [|[|p]]; [cbn; lia..|].
    unfold Proxy.init_store, Proxy.xfpHTTP, Proxy.xfpHTTPS. cbn. by rewrite lookup_insert_ne, lookup_singleton_ne.
  - intros k v h' [m st] Hk [H1 H2 H3]. pose proof (ProxyFacts.alloc_preserved v st H1) as HP. cbn [fst snd] in *.
    pose proof (ProxyFacts.alloc_lookup v st) as HL. destruct (Proxy.alloc v st) as [p s'] eqn:E. cbn [fst snd] in *. split; cbn [fst snd].
    + apply HP.
    + intros k' p'. destruct (decide (k = k')) as [->|]; [rewrite lookup_insert_eq; intros [= <-]; by eexists|].
      rewrite lookup_insert_ne by done. intros Hp'. destruct (H2 _ _ Hp') as [u Hu]. exists u. destruct HP as (_ & _ & HP).
      rewrite HP; [done|]. destruct H1 as [H1 _]. eauto.
    + rewrite read_insert, HL. cbn. f_equal. rewrite <- H3. by eapply read_preserved.
Qed.

(** ** What the chain sees *)

(** The request an untrusted peer's becomes. *)
Definition own_headers (r : Request) : header :=
  <[Proxy.headerXForwardedProto := [if TLS r then "https" else "http"]]>
    (<[Proxy.headerXRealIP := [split_host (RemoteAddr r)]]> (<[Proxy.headerXForwardedFor := [split_host (RemoteAddr r)]]> (Header r))).

Definition peer (r : Request) : Proxy.Request := Proxy.mkRequest (RemoteAddr r) (TLS r) (load (Header r)).1.

Definition untrusted (m : Proxy.proxy) (r : Request) : Prop :=
  match Proxy.Trust m with None => True | Some f => f (peer r) = false end.

Lemma put_read key v r s :
  ProxyFacts.store_ok s -> ProxyFacts.req_ok s r ->
  let x := Proxy.put key v r s in
  ProxyFacts.store_ok x.2 /\ ProxyFacts.req_ok x.2 x.1 /\ Proxy.TLS x.1 = Proxy.TLS r /\
  read x.2 (Proxy.Header x.1) = <[key := v]> (read s (Proxy.Header r)).
Proof.
  intros Hs Hr. destruct (ProxyFacts.put_spec key v r s Hs Hr) as (HP & HR & _ & HT & _).
  split; [apply HP|]. split; [done|]. split; [done|]. unfold Proxy.put in *. pose proof (ProxyFacts.alloc_lookup v s) as HL.
  destruct (Proxy.alloc v s) as [p s']. cbn [fst snd] in *. cbn [Proxy.Header Proxy.set_header]. rewrite read_insert, HL. cbn.
  f_equal. by eapply read_preserved.
Qed.

Lemma distrust_read m r s :
  ProxyFacts.store_ok s -> ProxyFacts.req_ok s r ->
  let x := Proxy.distrust m r s in
  read x.2 (Proxy.Header x.1) =
  <[Proxy.headerXForwardedProto := [if Proxy.TLS r then "https" else "http"]]>
    (<[Proxy.headerXRealIP := [split_host (Proxy.RemoteAddr r)]]>
      (<[Proxy.headerXForwardedFor := [split_host (Proxy.RemoteAddr r)]]> (read s (Proxy.Header r)))).
Proof.
  intros Hs Hr. unfold Proxy.distrust, Proxy.parseHost.
  destruct (put_read Proxy.headerXForwardedFor [split_host (Proxy.RemoteAddr r)] r s Hs Hr) as (S1 & R1 & T1 & E1).
  destruct (Proxy.put Proxy.headerXForwardedFor _ r s) as [r1 s1]. cbn [fst snd] in *.
  destruct (put_read Proxy.headerXRealIP [split_host (Proxy.RemoteAddr r)] r1 s1 S1 R1) as (S2 & R2 & T2 & E2).
  destruct (Proxy.put Proxy.headerXRealIP _ r1 s1) as [r2 s2]. cbn [fst snd] in *. rewrite <- E1, <- E2.
  destruct (ProxyFacts.proto_spec m r2 s2 S2 R2) as (P3 & R3 & V3 & _).
  unfold Proxy.values in V3. destruct (Proxy.protoValue m (Proxy.TLS r2) s2) as [p s3]. cbn [fst snd] in *. cbn [Proxy.Header Proxy.set_header] in *.
  rewrite lookup_insert_eq in V3. cbn in V3. rewrite read_insert. f_equal; [by rewrite V3, T2, T1|]. by eapply read_preserved.
Qed.

Lemma rewritten_untrusted m r : untrusted m r -> rewritten m r = with_header (own_headers r) r.
Proof.
  intros Hu. unfold rewritten, untrusted, peer, own_headers in *. destruct (load_ok (Header r)) as [H1 H2 H3]. destruct (load (Header r)) as [hd s].
  cbn [fst snd] in *. assert (Proxy.ServeHTTP m (Proxy.mkRequest (RemoteAddr r) (TLS r) hd) s = Proxy.distrust m (Proxy.mkRequest (RemoteAddr r) (TLS r) hd) s) as ->.
  { unfold Proxy.ServeHTTP. destruct (Proxy.Trust m); [by rewrite Hu|done]. }
  pose proof (distrust_read m (Proxy.mkRequest (RemoteAddr r) (TLS r) hd) s H1 H2) as E.
  destruct (Proxy.distrust _ _ _) as [r' s']. cbn [fst snd Proxy.RemoteAddr Proxy.TLS Proxy.Header] in E. by rewrite E, H3.
Qed.

(** ** One configuration for a server's life *)

(** The first request fixes the server.  It is answered by the
    middlewares in the order they were added, around the server's handler, and sees an
    untrusted peer's own address and scheme under the forwarded headers; from then on no
    middleware can be added, and every request is answered by that same chain, as it is
    when net/http serves the listener. *)
Theorem server_serves {Conn} (v : Server Conn) r ln :
  s_Handler (s v) = None -> untrusted (the_proxy v) r ->
  let x := ServeHTTP v r in
  x.2 = Middlewares.ServeHandler (ms v) (Handler_ v) (with_header (own_headers r) r) /\
  (forall m, Use x.1 m = None) /\ (forall r', ServeHTTP x.1 r' = (x.1, (ServeHTTP v r').2)) /\
  s_Handler (s (Serve v ln).1.1) = s_Handler (s x.1).
Proof.
  intros H0 Hu. unfold ServeHTTP, Serve, configServer, configHandler, Use. rewrite H0. cbn [s with_s s_Handler fst snd default].
  split; [apply (f_equal (Middlewares.ServeHandler (ms v) (Handler_ v))); by apply rewritten_untrusted|]. by split_and!.
Qed.

(** The presets: a frontend bounds every phase of a connection and trusts no peer. *)
Lemma frontend_bounded :
  let v := @NewFrontend unit in
  0 < ReadHeaderTimeout v /\ 0 < ReadTimeout v /\ 0 < WriteTimeout v /\ 0 < IdleTimeout v /\ 0 < GraceTimeout v /\
  forall r, untrusted (the_proxy v) r.
Proof. by split_and!. Qed.

(** Certificates: every host is named once, addresses as addresses and the rest as names,
    in order. *)
Lemma template_hosts ten now1 now2 sn opt :
  let t := certificate_template ten now1 now2 sn opt in
  IPAddresses t = omap NetIP.ParseIP (Hosts opt) /\ DNSNames t = filter (fun h => NetIP.ParseIP h = None) (Hosts opt) /\
  T_NotBefore t = default now1 (NotBefore opt) /\ T_NotAfter t = default (ten now2) (NotAfter opt).
Proof.
  unfold certificate_template. set (t0 := mkT _ _ _ _ _ _).
  enough (forall t, let x := foldl add_host t (Hosts opt) in
    IPAddresses x = IPAddresses t ++ omap NetIP.ParseIP (Hosts opt) /\
    DNSNames x = DNSNames t ++ filter (fun h => NetIP.ParseIP h = None) (Hosts opt) /\
    T_NotBefore x = T_NotBefore t /\ T_NotAfter x = T_NotAfter t) as H by exact (H t0).
  induction (Hosts opt) as [|h hs IH]; intros t; cbn [foldl omap list_omap]; [by rewrite !app_nil_r|].
  destruct (IH (add_host t h)) as (H1 & H2 & H3 & H4). unfold add_host in *.
  destruct (NetIP.ParseIP h) as [ip|] eqn:E; cbn in H1, H2, H3, H4.
  - rewrite filter_cons_False by congruence. rewrite H1, <- app_assoc. done.
  - rewrite filter_cons_True by done. rewrite H2, <- app_assoc. done.
Qed.

Definition echo : Handler := fun r => Write (HGet (Header r) "X-Real-Ip") Done.
Definition spoofed : Request := mkRequest "GET" "a" "/" "/" "203.0.113.9:40000" false {["X-Real-Ip" := ["127.0.0.1"]]}.
Definition frontend : Server unit :=
  mk zero_http [] [] "" echo (1 * Minute) (10 * Second) (1 * Minute) (75 * Second) 0 (60 * Second) (30 * Second) (10 * Second) None
    None false false None None None false.

Lemma server_serves_witness : (ServeHTTP frontend spoofed).2 = Write "203.0.113.9" Done.
Proof. rewrite (proj1 (server_serves frontend spoofed (mkLn (Listen "" 0) []) eq_refl I)). vm_compute. reflexivity. Defined.

End ServingFacts.
