(* ===== verification/Pipeline.v ===== *)
(** * A limiter in a server: one bucket per peer

    The default limiter of [src/pkg/ratelimit/ratelimit.go] ([New], keyed by [ClientIP])
    with the fixed-window strategy, in the chain of a server that does not trust its
    peers.  Composes [Proxy], [Serving], [RateLimit] and [FixedWindow]. *)

From Stdlib Require Import Ascii.
From S2P Require Import Prelude GoStrings GoNet Http RateLimit FixedWindow Proxy Middleware Serving.

Module ClientKey.

(** [string(ip)] is the address's bytes. *)
Definition ip_key (ipStr : string) : string :=
  match NetIP.ParseIP ipStr with None => ipStr | Some ip => str_of ip end.

Definition ClientIP (r : Http.Request) : string := ip_key (HGet (req_header r) "X-Real-Ip").

Definition New : RateLimit.RateLimiter := RateLimit.mkRL (Some ClientIP) None false "" false false.

End ClientKey.

Module Pipeline.
Import ClientKey.

(** The part of a request the limiter reads. *)
Definition seen_request (r : Middleware.Request) : Http.Request := Http.mkRequest (Method r) (Host r) (Header r).

(** A request at the server: when the limiter decides, when a refusal is timed, and the
    handler behind the limiter. *)
Record arrival := mkArrival {
  now : Z;
  after : Z;
  req : Middleware.Request;
  caps : RateLimit.caps;
  app : RateLimit.handler;
}.

(** What one client is sent, and how the handler ended. *)
Definition answer : Type := list RateLimit.sent * RateLimit.ending.

Section Limiter.
Context {St : Type} `{!Strategy St}.

Definition fresh (st : St) : RateLimit.world St := RateLimit.mkWorld st [] [] [].

Definition answer_of (x : RateLimit.world St * RateLimit.ending) : answer := (RateLimit.wire x.1, x.2).

(** The requests one after the other, each with a connection of its own. *)
Fixpoint serve_all (px : Proxy.proxy) (m : RateLimit.RateLimiter) (l : list arrival) (st : St) : list answer :=
  match l with
  | [] => []
  | a :: l =>
      let x := RateLimit.serve m (caps a) (now a) (after a) (seen_request (Serving.rewritten px (req a))) (app a) (fresh st) in
      answer_of x :: serve_all px m l (RateLimit.strat x.1)
  end.

(** The answer of the handler alone. *)
Definition alone (a : arrival) (st : St) : answer := answer_of (RateLimit.run_bare (caps a) (app a) (fresh st)).

End Limiter.
End Pipeline.

Module PipelineFacts.
Import ClientKey Pipeline.
#[local] Existing Instance FixedWindow.fixed_window.

(** ** Keys *)

Definition is_bytes := NetFacts.is_bytes.

Lemma hex_digit_range c d : NetIP.hex_digit c = Some d -> 0 <= d < 16.
Proof. unfold NetIP.hex_digit. repeat case_match; intros [= <-] || intros H; bool_prop; lia || done. Qed.

Lemma hex_run_bound s : forall acc off acc' off' rest,
  NetIP.hex_run acc off s = (acc', off', rest) -> 0 <= acc ->
  (off <= off')%nat /\ 0 <= acc' < (acc + 1) * 16 ^ (Z.of_nat off' - Z.of_nat off).
Proof.
  induction s as [|c s IH]; intros acc off acc' off' rest H Ha; cbn in H.
  - injection H as <- <- <-. rewrite Z.sub_diag, Z.pow_0_r. lia.
  - destruct (NetIP.hex_digit c) as [d|] eqn:E; [|injection H as <- <- <-; rewrite Z.sub_diag, Z.pow_0_r; lia].
    apply hex_digit_range in E. apply IH in H as [H1 H2]; [|lia]. split; [lia|].
    replace (Z.of_nat off' - Z.of_nat off) with (Z.succ (Z.of_nat off' - Z.of_nat (S off))) by lia.
    rewrite Z.pow_succ_r by lia. assert (0 < 16 ^ (Z.of_nat off' - Z.of_nat (S off))) by (apply Z.pow_pos_nonneg; lia). nia.
Qed.

Lemma groups_bytes fuel : forall s ip ell ip' ell' rest,
  NetIP.groups fuel s ip ell = Some (ip', ell', rest) -> is_bytes ip -> is_bytes ip'.
Proof.
  induction fuel as [|fuel IH]; intros s ip ell ip' ell' rest H Hip; cbn -[Nat.ltb Nat.eqb Nat.add length app Z.div Z.modulo NetIP.hex_run NetIP.parseIPv4] in H; [by injection H as <- <- <-|].
  destruct (NetIP.hex_run 0 0 s) as [[acc off] rest'] eqn:E. apply hex_run_bound in E as [_ E]; [|lia].
  destruct ((off =? 0)%nat || (4 <? off)%nat) eqn:Eo; [done|]. apply orb_false_iff in Eo as [_ Eo%Nat.ltb_ge].
  assert (acc < 16 ^ 4) as Hacc by (eapply Z.lt_le_trans; [apply E|]; rewrite Z.add_0_l, Z.mul_1_l; apply Z.pow_le_mono_r; lia).
  assert (is_bytes (ip ++ [acc / 256; acc mod 256])) as Hn.
  { apply Forall_app_2; [done|]. repeat constructor; Z.div_mod_to_equations; lia. }
  repeat case_match; simplify_eq; eauto.
  all: apply bind_Some in H as (q & Hq & [= <- <- <-]); apply Forall_app_2; [done|]; by apply ProxyFacts.parseIPv4_ok in Hq as [_ Hq].
Qed.

Lemma ParseIP_bytes x ip : NetIP.ParseIP x = Some ip -> is_bytes ip.
Proof.
  unfold NetIP.ParseIP. destruct (NetIP.has "%" x); [done|]. destruct (NetIP.family x) as [c|]; [|done]. intros H.
  assert ((NetIP.v4mapped <$> NetIP.parseIPv4 x) = Some ip \/ NetIP.parseIPv6 x = Some ip) as [Hp|Hp] by (repeat case_match; auto; done).
  - apply fmap_Some in Hp as (a & Ha & ->). apply ProxyFacts.parseIPv4_ok in Ha as [_ Ha]. do 12 (apply Forall_cons; split; [lia|]). exact Ha.
  - unfold NetIP.parseIPv6 in Hp. destruct (match x with EmptyString => _ | String _ _ => _ end) as [[[ip0 ell] rest]|] eqn:E; [|done].
    assert (is_bytes ip0) as H0
      by (clear Hp H; repeat case_match; (eapply groups_bytes; [exact E|constructor]) || (simplify_eq; constructor)).
    destruct rest; [|done]. destruct (length ip0 <? 16)%nat; [|by destruct ell; simplify_eq].
    apply bind_Some in Hp as (e & _ & [= <-]). apply Forall_app_2; [by apply Forall_take|]. apply Forall_app_2; [|by apply Forall_drop].
    apply Forall_replicate. lia.
Qed.

Lemma str_of_inj a b : is_bytes a -> is_bytes b -> str_of a = str_of b -> a = b.
Proof.
  intros Ha Hb H. apply (f_equal String.list_ascii_of_string) in H. unfold str_of in H.
  rewrite !String.list_ascii_of_string_of_list_ascii in H. revert b Hb H.
  induction Ha as [|x a Hx _ IH]; intros b Hb H; destruct Hb as [|y b Hy Hb]; try done. cbn in H. injection H as H1 H2.
  apply (f_equal N_of_ascii) in H1. rewrite !N_ascii_embedding in H1 by lia. f_equal; [lia|]. by apply IH.
Qed.

(** Spellings of an address share a key, and addresses have keys of their own. *)
Lemma ip_key_same x y : is_Some (NetIP.ParseIP x) -> is_Some (NetIP.ParseIP y) ->
  ip_key x = ip_key y <-> NetIP.ParseIP x = NetIP.ParseIP y.
Proof.
  intros [a Ha] [b Hb]. unfold ip_key. rewrite Ha, Hb. split; [|by intros [= ->]].
  intros H. f_equal. eauto using str_of_inj, ParseIP_bytes.
Qed.

(** ** One request *)

Definition peer_ip (r : Middleware.Request) : option (list Z) := NetIP.ParseIP (split_host (RemoteAddr r)).
Definition peer_key (r : Middleware.Request) : string := ip_key (split_host (RemoteAddr r)).

Lemma key_untrusted px r : ServingFacts.untrusted px r -> ClientIP (seen_request (Serving.rewritten px r)) = peer_key r.
Proof.
  intros Hu. rewrite ServingFacts.rewritten_untrusted by done. unfold ClientIP, peer_key. f_equal. unfold HGet, Values.
  cbn [req_header seen_request Header with_header]. unfold ServingFacts.own_headers, Proxy.headerXForwardedProto, Proxy.headerXRealIP.
  assert (forall (h : gmap string (list string)) x y, <["X-Forwarded-Proto" := x]> (<["X-Real-Ip" := y]> h) !! "X-Real-Ip" = Some y) as ->; [|done].
  intros h x y. by rewrite lookup_insert_ne, lookup_insert_eq.
Qed.

(** What a handler sends does not depend on the strategy. *)
Lemma run_bare_wire {St St'} cp h (w : RateLimit.world St) (w' : RateLimit.world St') :
  RateLimit.wire w = RateLimit.wire w' -> answer_of (RateLimit.run_bare cp h w) = answer_of (RateLimit.run_bare cp h w').
Proof.
  revert w w'. induction h as [| |c k IH]; intros w w' H; [by unfold answer_of; cbn; rewrite H..|]. cbn.
  assert (RateLimit.wire (RateLimit.bare_call cp c w).1 = RateLimit.wire (RateLimit.bare_call cp c w').1 /\
          (RateLimit.bare_call cp c w).2 = (RateLimit.bare_call cp c w').2) as [H1 H2].
  { destruct c, cp as [[] [] []]; cbn; rewrite ?H; done. }
  destruct (RateLimit.bare_call cp c w), (RateLimit.bare_call cp c w'). cbn in *. subst. by apply IH.
Qed.

Section Serve.
Context {St : Type} `{!Strategy St}.

(** A limiter that releases at the end: the strategy decides whether the handler runs. *)
Lemma serve_decided cp t after r h (st st' : St) ok :
  Take t (ClientIP r) st = (st', Some ok) ->
  let x := RateLimit.serve New cp t after r h (fresh st) in
  if ok then answer_of x = answer_of (RateLimit.run_bare cp h (fresh tt)) /\ RateLimit.strat x.1 = Put (ClientIP r) st'
  else RateLimit.strat x.1 = st' /\
    (forall d, After after (ClientIP r) st' = Some d -> answer_of x = (RateLimit.defaultExceededHandler r d, RateLimit.Returned)).
Proof.
  intros E. unfold RateLimit.serve, RateLimit.take. change (default RateLimit.defaultKey (RateLimit.Key New) r) with (ClientIP r). change (RateLimit.strat (fresh st)) with st. rewrite E. destruct ok; cbn.
  - set (w := RateLimit.mkWorld st' _ _ _). pose proof (run_bare_wire cp h w (fresh tt) eq_refl) as H.
    destruct (RateLimitFacts.run_bare_strategy cp h w) as (H1 & _ & _). destruct (RateLimit.run_bare cp h w) as [w1 e].
    cbn in *. rewrite <- H, H1. done.
  - unfold RateLimit.exceed. cbn. split; [by case_match|]. by intros d ->.
Qed.

End Serve.

(** ** The quota of a peer *)

(** Earlier requests of the same address in the same window. *)
Definition earlier (size : Z) (a : arrival) (past : list arrival) : list arrival :=
  filter (fun b => Z.quot (now b) size = Z.quot (now a) size /\ peer_ip (req b) = peer_ip (req a)) past.

Definition arrives (a : arrival) : Z * string := (now a, peer_key (req a)).

Definition clock_ok (l : list arrival) (t : Z) : Prop := FixedWindowFacts.clock_from t (arrives <$> l).

(** A peer as net/http reports it: an address with a port. *)
Definition addressed (a : arrival) : Prop := is_Some (peer_ip (req a)).

Lemma requests_earlier size a past : addressed a -> Forall addressed past ->
  FixedWindowFacts.requests size (now a) (peer_key (req a)) (arrives <$> past) = Z.of_nat (length (earlier size a past)).
Proof.
  intros Ha. induction 1 as [|b past Hb _ IH]; [done|]. cbn [fmap list_fmap]. rewrite FixedWindowFacts.requests_cons, IH.
  unfold FixedWindowFacts.same, earlier. cbn [arrives fst snd]. rewrite filter_cons.
  pose proof (ip_key_same _ _ Hb Ha) as HK. fold (peer_key (req b)) (peer_key (req a)) (peer_ip (req b)) (peer_ip (req a)) in HK.
  case_decide as E; cbn [length].
  - destruct E as [-> E]. rewrite Z.eqb_refl, bool_decide_true by by apply HK. cbn. lia.
  - destruct (Z.eqb_spec (Z.quot (now b) size) (Z.quot (now a) size)); cbn; [|lia]. rewrite bool_decide_false; [cbn; lia|].
    intros HE%HK. by apply E.
Qed.

Lemma earlier_reverse size a past : length (earlier size a (reverse past)) = length (earlier size a past).
Proof. unfold earlier. by rewrite (Permutation_length (filter_Permutation _ _ _ (reverse_Permutation past))). Qed.

Definition quota_answer (mx size : Z) (a : arrival) (past : list arrival) (x : answer) : Prop :=
  if decide (Z.of_nat (length (earlier size a past)) < mx) then x = alone a tt
  else exists r d, x = (RateLimit.defaultExceededHandler r d, RateLimit.Returned).

Lemma serve_all_quota px mx size : 0 < size -> mx <= max_i64 -> forall l past t b,
  Forall (fun a => ServingFacts.untrusted px (req a)) l -> Forall addressed l -> Forall addressed past ->
  clock_ok l t -> FixedWindowFacts.state_after mx size t (arrives <$> past) b ->
  forall i a, l !! i = Some a ->
  exists x, serve_all px New l b !! i = Some x /\ quota_answer mx size a (reverse (take i l) ++ past) x.
Proof.
  intros Hs Hm. induction l as [|a0 l IH]; intros past t b Hu Ha Hp Hc Hb i a Hi; [done|].
  apply Forall_cons in Hu as [Hu0 Hu]. apply Forall_cons in Ha as [Ha0 Ha]. destruct Hc as [Ht Hc].
  destruct (FixedWindowFacts.take_step mx size t (now a0) (peer_key (req a0)) _ b Hs Hm Ht Hb) as (b' & E & Hb').
  rewrite requests_earlier in E by done. rewrite <- (key_untrusted px (req a0) Hu0) in E.
  pose proof (serve_decided (caps a0) (now a0) (after a0) _ (app a0) b b' _ E) as HS. cbn [serve_all].
  destruct (RateLimit.serve _ _ _ _ _ _ _) as [w e] eqn:Ew. cbn [fst] in HS |- *.
  assert (RateLimit.strat w = b') as Est by (by case_match; destruct HS). rewrite Est. destruct i as [|i].
  - injection Hi as <-. eexists. split; [done|]. unfold quota_answer. cbn [take reverse app].
    change (reverse [] ++ past) with past. case_decide as Hd.
    + rewrite (proj2 (Z.ltb_lt _ _) Hd) in HS. apply HS.
    + rewrite (proj2 (Z.ltb_ge _ _)) in HS by lia. destruct HS as [_ HS].
      assert (is_Some (FixedWindow.After (after a0) (ClientIP (seen_request (Serving.rewritten px (req a0)))) b')) as [d Hd'].
      { destruct Hb' as [(? & _)|(s & [-> _ _])]; [done|]. unfold FixedWindow.After, FixedWindow.window. cbn [FixedWindow.Size].
        rewrite (proj2 (Z.eqb_neq _ _)) by lia. cbn. eauto. }
      eexists _, d. by apply HS.
  - destruct (IH (a0 :: past) (now a0) b' Hu Ha (Forall_cons_2 _ _ _ Ha0 Hp) Hc Hb' i a Hi) as (x & Hx & HQ).
    exists x. split; [done|]. cbn [take]. by rewrite reverse_cons, <- app_assoc.
Qed.

(** C7: Behind a server that does not trust its peers, the default limiter gives each
    peer address a quota of its own. Whatever headers the requests carry, however
    their handlers behave and however an address is spelled, a request is handled
    exactly as it would be without the limiter when fewer than Max requests of its
    address came before it in its window, and is answered 429 otherwise. *)
Theorem peers_limited px mx size l :
  0 < size -> mx <= max_i64 -> clock_ok l size ->
  Forall (fun a => ServingFacts.untrusted px (req a)) l -> Forall addressed l ->
  forall i a, l !! i = Some a ->
  exists x, serve_all px New l (FixedWindow.FixedWindow mx size) !! i = Some x /\
  quota_answer mx size a (take i l) x.
Proof.
  intros Hs Hm Hc Hu Ha i a Hi.
  destruct (serve_all_quota px mx size Hs Hm l [] size (FixedWindow.FixedWindow mx size) Hu Ha) with i a as (x & Hx & HQ); [constructor|done|by left|done|].
  exists x. split; [done|]. unfold quota_answer in *. by rewrite app_nil_r, earlier_reverse in HQ.
Qed.

(** One request per second: the second from an address is refused, though it claims
    another one and comes from a spelling of the first as a mapped address. *)
Definition ok_app : RateLimit.handler := RateLimit.Do (RateLimit.Write "ok") (fun _ => RateLimit.Return).
Definition demo (t : Z) (remote claimed : string) : arrival :=
  mkArrival t t (mkRequest "GET" "a" "/" "/" remote false {["X-Real-Ip" := [claimed]]}) (RateLimit.mkCaps false false false) ok_app.
Definition demo_arrivals : list arrival :=
  [demo (5 * Second) "203.0.113.9:1" "1.1.1.1"; demo (5 * Second) "[::ffff:203.0.113.9]:2" "2.2.2.2"; demo (5 * Second) "203.0.113.8:3" "1.1.1.1"].

Lemma peers_limited_witness :
  exists x, serve_all (Proxy.mk None false false) New demo_arrivals (FixedWindow.FixedWindowPerSecond 1) !! 1%nat = Some x /\
  exists r d, x = (RateLimit.defaultExceededHandler r d, RateLimit.Returned).
Proof.
  destruct (peers_limited (Proxy.mk None false false) 1 Second demo_arrivals) with 1%nat (demo (5 * Second) "[::ffff:203.0.113.9]:2" "2.2.2.2") as (x & Hx & HQ).
  - reflexivity.
  - vm_compute. discriminate.
  - repeat split; vm_compute; discriminate.
  - repeat constructor.
  - repeat constructor; eexists; vm_compute; reflexivity.
  - reflexivity.
  - exists x. split; [exact Hx|]. exact HQ.
Defined.

End PipelineFacts.
