(* ===== verification/PromRegistry.v ===== *)
(** * The metrics registry

    Registration in [src/pkg/prom]: the metric families each file declares, the
    [sync.Once] that guards their registration, and the functions that hand out the
    observers of [Prom].  The registry is the Prometheus client's; of it the code relies
    on [MustRegister] registering its collectors one after the other and panicking on a
    name that is taken.  Functions of several files may be called from several goroutines,
    so registration is a step relation. *)

From S2P Require Import Prelude GoStrings Http UpstreamState LeastConn RateLimit Middleware CacheServe UpstreamHandler Mirror Waf Prom Serving.

Module PromRegistry.
Import Prom.

(** ** Families *)

(** Histogram boundaries in nanoseconds; [None] is the client's [DefBuckets]. *)
Inductive kind := Counter | Gauge | Histogram (Buckets : option (list Z)).

Record family := mkFamily { Name : string; kind_ : kind; labels : list string }.

Definition wafEvalBuckets : list Z :=
  [25000; 50000; 100000; 250000; 500000; 1000000; 2500000; 5000000; 10000000; 25000000].

Definition networks : list family := [mkFamily "network_request_bytes" Counter []; mkFamily "network_response_bytes" Counter []].
Definition connections : list family := [mkFamily "connections" Gauge ["state"]].
Definition requests : list family := [mkFamily "requests" Counter ["host"; "status"; "method"]].
Definition upstreamMetrics : list family :=
  [mkFamily "upstream_requests" Counter ["host"; "status"];
   mkFamily "upstream_request_duration_seconds" (Histogram None) ["host"];
   mkFamily "upstream_fast_rejects_total" Counter ["host"]].
Definition upstreamStateMetrics : list family :=
  [mkFamily "upstream_breaker_state" Gauge ["host"];
   mkFamily "upstream_state_transitions_total" Counter ["host"; "from"; "to"; "reason"];
   mkFamily "upstream_probe_down_total" Counter ["host"; "cause"]].
(** The two descriptions the scrape-time collector sends to [Describe]. *)
Definition inflightMetrics : list family :=
  [mkFamily "upstream_inflight" Gauge ["host"]; mkFamily "upstream_inflight_capacity" Gauge ["host"]].
Definition upstreamShedMetrics : list family := [mkFamily "upstream_shed_total" Counter ["reason"]].
Definition rateLimitMetrics : list family :=
  [mkFamily "ratelimit_total" Counter ["name"; "result"]; mkFamily "ratelimit_redis_errors_total" Counter []].
Definition wafMetrics : list family := [mkFamily "waf_eval_duration_seconds" (Histogram (Some wafEvalBuckets)) ["outcome"]].
Definition cacheMetrics : list family :=
  [mkFamily "cache_total" Counter ["host"; "result"]; mkFamily "cache_fill_duration_seconds" (Histogram None) ["host"]].
Definition mirrorMetrics : list family :=
  [mkFamily "mirror_total" Counter ["outcome"]; mkFamily "mirror_request_duration_seconds" (Histogram None) []].

(** The package's globals, each with a [once] of its own. *)
Inductive global :=
  | _networks | _connections | _requests | _upstream | _upstreamState | _upstreamInflight | _upstreamShed
  | _rateLimit | _waf | _cache | _mirror.

#[global] Instance global_eq_dec : EqDecision global.
Proof. solve_decision. Defined.

Definition globals : list global :=
  [_networks; _connections; _requests; _upstream; _upstreamState; _upstreamInflight; _upstreamShed; _rateLimit; _waf; _cache; _mirror].

Definition families (g : global) : list family :=
  match g with
  | _networks => networks
  | _connections => connections
  | _requests => requests
  | _upstream => upstreamMetrics
  | _upstreamState => upstreamStateMetrics
  | _upstreamInflight => inflightMetrics
  | _upstreamShed => upstreamShedMetrics
  | _rateLimit => rateLimitMetrics
  | _waf => wafMetrics
  | _cache => cacheMetrics
  | _mirror => mirrorMetrics
  end.

(** The client joins namespace and name with an underscore unless one is empty; the
    scrape-time collector joins them itself. *)
Definition fq (Namespace : string) (g : global) (f : family) : string :=
  if bool_decide (g = _upstreamInflight) then Namespace +:+ "_" +:+ Name f
  else if String.eqb Namespace "" then Name f else Namespace +:+ "_" +:+ Name f.

(** ** Registration *)

(** A [once] with the function it runs: the names it has yet to register. *)
Inductive once := Fresh | Doing (todo : list string) | Did.

(** A call of a function that begins with [init()]: waiting for the [once], or past it. *)
Inductive call := Waiting (g : global) | Returned (g : global).

Record registry := mkReg {
  reg : list string;
  onces : global -> once;
  calls : list call;
  panicked : bool;
}.

Definition set_once (g : global) (o : once) (r : registry) : registry :=
  mkReg (reg r) (fun g' => if bool_decide (g' = g) then o else onces r g') (calls r) (panicked r).
Definition set_call (i : nat) (c : call) (r : registry) : registry :=
  mkReg (reg r) (onces r) (<[i := c]> (calls r)) (panicked r).

Section Registration.
Context (Namespace : string).

(** [MustRegister] of one collector. *)
Definition MustRegister (name : string) (r : registry) : registry :=
  if bool_decide (name ∈ reg r) then mkReg (reg r) (onces r) (calls r) true
  else mkReg (reg r ++ [name]) (onces r) (calls r) (panicked r).

Definition names (g : global) : list string := fq Namespace g <$> families g.

(** [p.once.Do(...)] for a caller: [None] while another one is in the function. *)
Definition init (g : global) (r : registry) : option registry :=
  match onces r g with
  | Fresh => Some (set_once g (Doing (names g)) r)
  | Doing [] => Some (set_once g Did r)
  | Doing (n :: l) => Some (MustRegister n (set_once g (Doing l) r))
  | Did => None
  end.

Inductive step : registry -> registry -> Prop :=
  | step_call g r : step r (mkReg (reg r) (onces r) (calls r ++ [Waiting g]) (panicked r))
  | step_init i g r r' : calls r !! i = Some (Waiting g) -> init g r = Some r' -> step r r'
  | step_return i g r : calls r !! i = Some (Waiting g) -> onces r g = Did -> step r (set_call i (Returned g) r).

(** After the package's [init]: the names of the Go and process collectors. *)
Definition start (base : list string) : registry := mkReg base (fun _ => Fresh) [] false.

End Registration.

(** ** The functions *)

(** Every one of them is [init()] of its global, then: *)
Definition UpstreamInflight (lbs : list (list TargetLoad)) (lb : list TargetLoad) : list (list TargetLoad) := lbs ++ [lb].

Definition Networks {Conn} (connNetTrack : Conn -> Conn) (s : Serving.Server Conn) : Serving.Server Conn :=
  Serving.ModifyConnection s connNetTrack.

(** [connState] is the number the gauge's hook is known by. *)
Definition Connections {Conn} (connState : nat) (v : Serving.Server Conn) : Serving.Server Conn :=
  Serving.mk (Serving.s v) (Serving.ms v) (Serving.modifyConn v) (Serving.Addr v) (Serving.Handler_ v) (Serving.ReadTimeout v)
    (Serving.ReadHeaderTimeout v) (Serving.WriteTimeout v) (Serving.IdleTimeout v) (Serving.MaxHeaderBytes v) (Serving.TCPKeepAlivePeriod v)
    (Serving.GraceTimeout v) (Serving.WaitBeforeShutdown v) (Serving.ErrorLog v) (Serving.TrustProxy v) (Serving.H2C v) (Serving.ReusePort v)
    (Some connState) (Serving.TLSConfig v) (Serving.BaseContext v) (Serving.ShareProtoSlice v).

(** What the connection gauge's [init] creates. *)
Definition connection_gauges : list Prom.ConnState := [StateNew; StateActive; StateIdle].

End PromRegistry.

Module PromRegistryFacts.
Import Prom PromRegistry.

(** ** Calls and families agree *)

(** A call names a family of the global, of its kind, with a value for each label. *)
Definition family_call (k : kind -> bool) (n : string) (l : nat) (f : family) : bool :=
  bool_decide (Name f = n) && k (kind_ f) && (length (labels f) =? l)%nat.

Definition conforms (g : global) (o : op) : bool :=
  match o with
  | Inc n l => existsb (family_call (fun k => match k with Counter => true | _ => false end) n (length l)) (families g)
  | Add n _ => existsb (family_call (fun k => match k with Counter => true | _ => false end) n 0) (families g)
  | ObserveD n l _ => existsb (family_call (fun k => match k with Histogram _ => true | _ => false end) n (length l)) (families g)
  | SetG n l _ => existsb (family_call (fun k => match k with Gauge => true | _ => false end) n (length l)) (families g)
  end.

Definition all_conform (g : global) (ops : list op) : Prop := Forall (fun o => conforms g o = true) ops.

Lemma with_labels_conforms accepts l o g : conforms g o = true -> all_conform g (with_labels accepts l o).
Proof. apply (PromFacts.with_labels_all accepts l o (fun o => conforms g o = true)). Qed.

Ltac conforming := repeat first
  [ done | apply Forall_app_2 | apply with_labels_conforms; vm_compute; reflexivity
  | apply Forall_cons; split; [vm_compute; reflexivity|] | apply Forall_nil; done | case_match | constructor ].

Lemma collect_conforms lbs : all_conform _upstreamInflight (Collect lbs).
Proof.
  unfold Collect. rewrite PromFacts.collect_firsts. generalize (PromFacts.firsts (concat lbs) ∅). intros ts.
  induction ts as [|t ts IH]; [constructor|]. rewrite bind_cons. apply Forall_app_2; [|done].
  unfold PromFacts.emits. conforming.
Qed.

(** Every call the observers make is on a family their global registered, of its
    kind, with one value for each of its labels: the client refuses no call for its shape,
    so no metric is silently skipped. *)
Theorem prom_calls_typed accepts Itoa :
  (forall e, all_conform _rateLimit (ratelimit_observe accepts e)) /\
  all_conform _rateLimit ratelimit_observeRedisError /\
  (forall i d, all_conform _upstream (upstream_observe accepts Itoa i d)) /\
  (forall c, all_conform _upstreamState (state_observe accepts c)) /\
  (forall o d, all_conform _waf (waf_observe accepts o d)) /\
  (forall h i, all_conform _cache (cache_observe accepts h i)) /\
  (forall i, all_conform _mirror (mirror_observe accepts i)) /\
  (forall r, all_conform _upstreamShed (shed_observe accepts r)) /\
  (forall h r w, all_conform _requests (requests_ServeHandler accepts Itoa h r w).1.2) /\
  (forall c, all_conform _networks (net_call c)) /\
  (forall lbs, all_conform _upstreamInflight (Collect lbs)).
Proof.
  split_and!; intros.
  11: apply collect_conforms.
  all: unfold ratelimit_observe, ratelimit_observeRedisError, upstream_observe, state_observe, waf_observe, cache_observe, mirror_observe, shed_observe, net_call.
  9: { unfold requests_ServeHandler. destruct (track _ _ _) as [[w' nw] ok]. conforming. }
  all: conforming.
Qed.

(** ** Names *)

Definition declared : list (global * family) := globals ≫= fun g => (g,.) <$> families g.

Lemma declared_elem g f : f ∈ families g -> (g, f) ∈ declared.
Proof.
  intros Hf. apply list_elem_of_bind. exists g. split; [by apply list_elem_of_fmap_2|]. destruct g; vm_compute; set_solver.
Qed.

Lemma NoDup_fmap_elem {A B} (f : A -> B) l x y : NoDup (f <$> l) -> x ∈ l -> y ∈ l -> f x = f y -> x = y.
Proof.
  intros HN Hx Hy H. apply list_elem_of_lookup in Hx as [i Hi], Hy as [j Hj].
  assert (i = j) as ->; [|congruence]. eapply NoDup_lookup; [exact HN|..]; rewrite list_lookup_fmap; [by rewrite Hi|by rewrite Hj, H].
Qed.

Lemma app_inj_l (a x y : string) : a +:+ x = a +:+ y -> x = y.
Proof. induction a as [|c a IH]; [done|]. intros H. apply IH. by injection H. Qed.

(** No two families have one name, whatever the namespace. *)
Lemma fq_inj ns g f g' f' : f ∈ families g -> f' ∈ families g' -> fq ns g f = fq ns g' f' -> (g, f) = (g', f').
Proof.
  intros Hf Hf' H. apply declared_elem in Hf, Hf'. destruct (String.eqb_spec ns "") as [->|Hns].
  - apply (NoDup_fmap_elem (fun x => fq "" x.1 x.2) declared); [|done..]. refine (bool_decide_unpack _ _). vm_compute. exact I.
  - apply (NoDup_fmap_elem (fun x => Name x.2) declared); [refine (bool_decide_unpack _ _); vm_compute; exact I|done..|].
    unfold fq in H. rewrite (proj2 (String.eqb_neq _ _) Hns) in H.
    assert (forall b : bool, (if b then ns +:+ "_" +:+ Name f else ns +:+ "_" +:+ Name f) = ns +:+ "_" +:+ Name f) as E by by intros [].
    assert (forall b : bool, (if b then ns +:+ "_" +:+ Name f' else ns +:+ "_" +:+ Name f') = ns +:+ "_" +:+ Name f') as E' by by intros [].
    rewrite E, E' in H. apply app_inj_l in H. by apply (app_inj_l "_") in H.
Qed.

Lemma names_nodup ns g : NoDup (names ns g).
Proof.
  apply NoDup_fmap_2_strong; [intros f f' Hf Hf' H; by injection (fq_inj ns g f g f' Hf Hf' H)|].
  apply (NoDup_fmap_1 Name). destruct g; refine (bool_decide_unpack _ _); vm_compute; exact I.
Qed.

Lemma names_disjoint ns g g' n : n ∈ names ns g -> n ∈ names ns g' -> g = g'.
Proof.
  intros (f & -> & Hf)%list_elem_of_fmap (f' & H & Hf')%list_elem_of_fmap. by injection (fq_inj ns g f g' f' Hf Hf' H).
Qed.

(** ** Registration never panics *)

Section Registry.
Context (Namespace : string) (base : list string).
(** The Go and process collectors' names are their own. *)
Context (base_nodup : NoDup base) (base_free : forall g n, n ∈ names Namespace g -> n ∉ base).

Abbreviation step := (step Namespace).
Abbreviation names := (names Namespace).

(** What a global has registered so far. *)
Definition sofar (o : once) (ns l : list string) : Prop :=
  match o with Fresh => l = [] | Doing todo => ns = l ++ todo | Did => l = ns end.

Record inv (r : registry) : Prop := {
  inv_calm : panicked r = false;
  inv_nodup : NoDup (reg r);
  inv_reg : exists reg_of : global -> list string, (forall g, sofar (onces r g) (names g) (reg_of g)) /\
    forall n, n ∈ reg r <-> n ∈ base \/ exists g, n ∈ reg_of g;
  inv_done g : Returned g ∈ calls r -> onces r g = Did;
}.

Lemma sofar_names o ns l n : sofar o ns l -> n ∈ l -> n ∈ ns.
Proof. destruct o; cbn; intros ->; [by intros ?%elem_of_nil|set_solver|done]. Qed.

Lemma init_inv g r r' : inv r -> init Namespace g r = Some r' -> inv r' /\ calls r' = calls r.
Proof.
  intros [H1 H2 (ro & Ho & Hr) H4] Hi. unfold init in Hi. pose proof (Ho g) as Hg.
  assert (forall o, onces r g <> Did -> forall g', Returned g' ∈ calls r -> (if bool_decide (g' = g) then o else onces r g') = Did) as Hd.
  { intros o Hn g' Hg'%H4. rewrite bool_decide_false by congruence. done. }
  destruct (onces r g) as [|[|n l]|] eqn:E; simplify_eq.
  - split; [|done]. split; cbn; [done|done| |by apply Hd]. exists ro. split; [|done]. intros g'. case_bool_decide; [subst; cbn; by rewrite Hg|done].
  - split; [|done]. split; cbn; [done|done| |by apply Hd]. exists ro. split; [|done]. intros g'. case_bool_decide; [subst; cbn in *; by rewrite Hg, app_nil_r|done].
  - cbn in Hg. assert (n ∉ reg r) as Hn.
    { intros [Hb|(g' & Hg')]%Hr; [apply (base_free g n); [rewrite Hg; set_solver|done]|].
      pose proof (sofar_names _ _ _ _ (Ho g') Hg') as Hng. assert (g' = g) as -> by (eapply names_disjoint; [done|rewrite Hg; set_solver]).
      pose proof (names_nodup Namespace g) as HN. rewrite Hg in HN. apply NoDup_app in HN as (_ & HN & _). apply (HN n Hg'). left. }
    unfold MustRegister. cbn. rewrite bool_decide_false by done. split; [|done]. split; cbn; [done| | |by apply Hd].
    + apply NoDup_app. split_and!; [done|set_solver|apply NoDup_singleton].
    + exists (fun g' => if bool_decide (g' = g) then ro g ++ [n] else ro g'). split.
      * intros g'. case_bool_decide; [subst; cbn; by rewrite <- app_assoc|done].
      * intros m. rewrite elem_of_app, Hr, list_elem_of_singleton. split.
        -- intros [[?|(g' & ?)]| ->]; [by left|right; exists g'; case_bool_decide; subst; set_solver|].
           right. exists g. rewrite bool_decide_true by done. set_solver.
        -- intros [?|(g' & Hg')]; [by left; left|]. case_bool_decide; subst; [|left; right; eauto].
           apply elem_of_app in Hg' as [?|?%list_elem_of_singleton]; [left; right; eauto|by right].
Qed.

Lemma registry_step_inv r r' : inv r -> step r r' -> inv r'.
Proof.
  intros Hr Hs. destruct Hs as [g r|i g r r' Hi Hs|i g r Hi Hs].
  - destruct Hr as [H1 H2 H3 H4]. split; cbn; [done..|]. intros g' [?|?%list_elem_of_singleton]%elem_of_app; [by apply H4|done].
  - by eapply init_inv.
  - destruct Hr as [H1 H2 H3 H4]. split; cbn; [done..|]. intros g' (j & Hj)%list_elem_of_lookup. destruct (decide (j = i)) as [->|].
    + rewrite list_lookup_insert_eq in Hj by by eapply lookup_lt_Some. congruence.
    + rewrite list_lookup_insert_ne in Hj by done. apply H4. by eapply list_elem_of_lookup_2.
Qed.

Lemma reachable_inv r : rtc step (start base) r -> inv r.
Proof.
  assert (inv (start base)) as H0.
  { split; cbn; [done|done| |by intros g ?%elem_of_nil]. exists (fun _ => []). split; [done|]. intros n. split; [by left|].
    by intros [?|(g & ?%elem_of_nil)]. }
  intros Hr. revert H0. induction Hr as [|x y z Hs _ IH]; [done|]. eauto using registry_step_inv.
Qed.

(** A waiting call can always be brought to its end. *)
Lemma call_returns r i g : inv r -> calls r !! i = Some (Waiting g) ->
  exists r', rtc step r r' /\ calls r' !! i = Some (Returned g).
Proof.
  assert (forall r, inv r -> calls r !! i = Some (Waiting g) -> onces r g = Did -> exists r', rtc step r r' /\ calls r' !! i = Some (Returned g)) as Hdid.
  { intros r0 _ Hi E. eexists. split; [apply rtc_once; by eapply step_return|]. apply list_lookup_insert_eq. by eapply lookup_lt_Some. }
  assert (forall l r, inv r -> calls r !! i = Some (Waiting g) -> onces r g = Doing l -> exists r', rtc step r r' /\ calls r' !! i = Some (Returned g)) as Hdo.
  { induction l as [|n l IH]; intros r0 Hr Hi E; (destruct (init Namespace g r0) as [r1|] eqn:Er; [|unfold init in Er; by rewrite E in Er]);
      destruct (init_inv g r0 r1 Hr Er) as [H1 Hc]; [pose proof (Hdid r1 H1) as HX|pose proof (IH r1 H1) as HX]; rewrite Hc in HX;
      (destruct HX as (r2 & Hr2 & Hi2); [done| |exists r2; split; [eapply rtc_l; [by eapply step_init|done]|done]]);
      unfold init in Er; rewrite E in Er; injection Er as <-; unfold MustRegister; cbn; by repeat (case_bool_decide; cbn). }
  intros Hr Hi. destruct (onces r g) as [|l|] eqn:E; [|by eapply Hdo|by apply Hdid].
  assert (init Namespace g r = Some (set_once g (Doing (names g)) r)) as Er by (unfold init; by rewrite E).
  destruct (init_inv g r _ Hr Er) as [H1 _]. destruct (Hdo (names g) _ H1) as (r2 & Hr2 & Hi2); [done|cbn; by rewrite bool_decide_true|].
  exists r2. split; [|done]. eapply rtc_l; [by eapply step_init|done].
Qed.

(** Registration.  However the functions of the package are called, repeatedly and from
    several goroutines, no name is registered twice and no registration panics; a call
    that returned has all its families registered; and every call can return. *)
Theorem prom_registers_once r :
  rtc step (start base) r ->
  panicked r = false /\ NoDup (reg r) /\
  (forall g, Returned g ∈ calls r -> names g ⊆ reg r) /\
  (forall i g, calls r !! i = Some (Waiting g) -> exists r', rtc step r r' /\ calls r' !! i = Some (Returned g)).
Proof.
  intros Hr. pose proof (reachable_inv r Hr) as Hinv. split_and!; [apply Hinv|apply Hinv| |intros i g; by apply call_returns].
  intros g Hg n Hn. destruct Hinv as [_ _ (ro & Ho & Hro) Hd]. specialize (Ho g). rewrite (Hd g Hg) in Ho. cbn in Ho.
  apply Hro. right. exists g. by rewrite Ho.
Qed.

End Registry.

(** ** A run *)

Inductive event := ECall (g : global) | EInit (i : nat) | EReturn (i : nat).
Definition play1 (ns : string) (e : event) (r : registry) : option registry :=
  match e with
  | ECall g => Some (mkReg (reg r) (onces r) (calls r ++ [Waiting g]) (panicked r))
  | EInit i => match calls r !! i with Some (Waiting g) => init ns g r | _ => None end
  | EReturn i => match calls r !! i with
                 | Some (Waiting g) => match onces r g with Did => Some (set_call i (Returned g) r) | _ => None end
                 | _ => None
                 end
  end.
Fixpoint play (ns : string) (es : list event) (r : registry) : option registry :=
  match es with [] => Some r | e :: es => r ← play1 ns e r; play ns es r end.

Lemma play_sound ns es r r' : play ns es r = Some r' -> rtc (step ns) r r'.
Proof.
  revert r. induction es as [|e es IH]; intros r H; cbn in H; simplify_eq; [done|].
  apply bind_Some in H as (r1 & E & H). eapply rtc_l; [|by apply IH]. destruct e as [g|i|i]; cbn in E; simplify_eq; [constructor| |].
  - destruct (calls r !! i) as [[g|]|] eqn:Ei; simplify_eq. by eapply step_init.
  - destruct (calls r !! i) as [[g|]|] eqn:Ei; simplify_eq. destruct (onces r g) eqn:Eo; simplify_eq. by eapply step_return.
Qed.

(** Two goroutines ask for the shed counter; the second returns first. *)
Definition two_calls : registry :=
  default (start []) (play "parapet" [ECall _upstreamShed; ECall _upstreamShed; EInit 0; EInit 0; EInit 1; EReturn 1] (start ["go_goroutines"])).

Lemma prom_registers_once_witness : names "parapet" _upstreamShed ⊆ reg two_calls.
Proof.
  apply (prom_registers_once "parapet" ["go_goroutines"]) with (r := two_calls).
  - apply NoDup_singleton.
  - intros g n Hn ->%list_elem_of_singleton. revert Hn. destruct g; vm_compute; intros H; repeat (apply elem_of_cons in H as [H|H]; [discriminate|]); by apply elem_of_nil in H.
  - apply (play_sound "parapet" [ECall _upstreamShed; ECall _upstreamShed; EInit 0; EInit 0; EInit 1; EReturn 1]). reflexivity.
  - vm_compute. right. left.
Defined.

End PromRegistryFacts.
