(* ===== verification/LoadMetrics.v ===== *)
(** * The bulkhead and its metrics

    The least-connection balancer of [LeastConn] serving while it is scraped: the hook
    and the snapshot of [src/pkg/upstream/leastconn_observe.go], and the collector and
    counter of [src/pkg/prom/upstream_inflight.go] ([Prom]) fed by them. *)

From S2P Require Import Prelude Http Concurrency RoundRobin LeastConn Prom.

Local Open Scope go_scope.

Module LoadMetrics.
Import Prom LeastConn.

(** [shed]: what the hook is given, if there is one. *)
Definition shed (OnShed : bool) (reason : ShedReason) : list ShedReason := if OnShed then [reason] else [].

(** The hooks of a round trip: a shed has one, before [ErrUnavailable] is returned. *)
Definition hooks (OnShed : bool) (r : outcome + ShedReason) : list ShedReason :=
  match r with inr reason => shed OnShed reason | inl _ => [] end.

Definition load_of (tg : Target) (x : Z * Z) : TargetLoad := mkLoad (Host tg) x.1 x.2.

(** The goroutines: requests, and scrapes of the balancer. *)
Inductive event := Served (r : outcome + ShedReason) | Scraped (loads : list TargetLoad).

Definition scrape (targets : list Target) : prog shared event :=
  l <- Inflight 0 (init targets) ;; Ret (Scraped (zip_with load_of targets l)).

Definition serving (targets : list Target) (reqs : list (nat * outcome * nat)) (scrapes : nat) : list (prog shared event) :=
  imap (fun j r => x <- request r.1.1 (init targets) j r.1.2 r.2 ;; Ret (Served x)) reqs ++ replicate scrapes (scrape targets).

(** What the finished requests of a pool told the hook. *)
Definition sheds (OnShed : bool) (qs : list (prog shared event)) : list ShedReason :=
  qs ≫= fun q => match q with Ret (Served r) => hooks OnShed r | _ => [] end.

End LoadMetrics.

Module LoadMetricsFacts.
Import Prom LeastConn LoadMetrics.

(** ** A snapshot *)

Definition within (c : lcPeer) (x : Z * Z) : Prop := x.2 = cap c /\ (cap c <> 0 -> 0 <= x.1 <= cap c).

Section Snapshot.
Context (ps : list lcPeer) (Hcaps : forall c, c ∈ ps -> 0 <= cap c < 2 ^ 63).

Lemma inv_within p c s : LeastConnFacts.Inv ps s -> ps !! p = Some c -> within c (active_of p s, cap c).
Proof.
  intros (_ & Hp & _) Hc. split; [done|]. intros Hz. destruct (Hp p c Hc) as [Ha Ht]. cbn. unfold active_of. rewrite Ha. cbn.
  specialize (Ht Hz). specialize (Hcaps c ltac:(by eapply list_elem_of_lookup_2)).
  pose proof (count_eq_nonneg p (held s)). unfold LeastConnFacts.taken in *. rewrite i64_small by lia. lia.
Qed.

Lemma rg_Inflight j qs : forall p s,
  (forall i c, qs !! i = Some c -> ps !! (p + i)%nat = Some c) ->
  rg LeastConnFacts.R LeastConnFacts.G (LeastConnFacts.Inv ps) j (Inflight p qs) (fun l _ => Forall2 within qs l) s.
Proof.
  pose proof (LeastConnFacts.gate_rg ps) as RG.
  induction qs as [|c qs IH]; intros p s Hq; cbn [Inflight]; [intros s' _ _; constructor|].
  intros s1 HR HI. split; [split; [by intros i Hi|done]|]. cbn [bind load].
  assert (within c (active_of p s1, cap c)) as Hw by (apply inv_within; [done|]; specialize (Hq 0%nat c eq_refl); by rewrite Nat.add_0_r in Hq).
  change (id s1) with s1. apply (rg_bind LeastConnFacts.gate_step LeastConnFacts.R LeastConnFacts.G (LeastConnFacts.Inv ps)).
  eapply rg_mono; [|apply (IH (S p))].
  - intros l s2 _ Hl s3 _ _. by constructor.
  - intros i d Hi. specialize (Hq (S i) d Hi). by rewrite Nat.add_succ_r in Hq.
Qed.

End Snapshot.

(** A finished scrape: each target with its cap, and a count within it. *)
Definition scrape_ok (targets : list Target) (loads : list TargetLoad) : Prop :=
  Forall2 (fun tg l => THost l = Host tg /\ TCap l = Z.max 0 (MaxConcurrent tg) /\ (0 < TCap l -> 0 <= TActive l <= TCap l)) targets loads.

Lemma within_scrape targets l : Forall2 within (init targets) l -> scrape_ok targets (zip_with load_of targets l).
Proof.
  revert l. induction targets as [|tg targets IH]; intros l H; [apply Forall2_nil_inv_l in H as ->; constructor|].
  apply Forall2_cons_inv_l in H as (x & l' & [H1 H2] & Hl & ->). constructor; [|by apply IH].
  cbn in *. rewrite H1. split; [done|]. destruct (Z.ltb_spec 0 (MaxConcurrent tg)); split; lia.
Qed.

Definition post (targets : list Target) (j : nat) (e : event) (s : shared) : Prop :=
  match e with Served _ => LeastConnFacts.gone j s | Scraped l => scrape_ok targets l end.

Lemma serving_ok targets g reqs n :
  (forall tg, tg ∈ targets -> MaxConcurrent tg < 2 ^ 63) -> LeastConnFacts.closing reqs ->
  forall j p, serving targets reqs n !! j = Some p ->
  rg LeastConnFacts.R LeastConnFacts.G (LeastConnFacts.Inv (init targets)) j p (post targets j) (zero (init targets) g).
Proof.
  intros Hm Hcl j p Hp. pose proof (LeastConnFacts.init_caps targets Hm) as Hcaps. pose proof (LeastConnFacts.gate_rg (init targets)) as RG.
  unfold serving in Hp. apply lookup_app_Some in Hp as [Hp|[_ Hp]].
  - rewrite list_lookup_imap in Hp. destruct (reqs !! j) as [[[f o] k]|] eqn:E; [|done]. cbn in Hp. simplify_eq.
    apply (rg_bind LeastConnFacts.gate_step LeastConnFacts.R LeastConnFacts.G (LeastConnFacts.Inv (init targets))).
    eapply rg_mono; [|apply (LeastConnFacts.rg_request (init targets) Hcaps j f o k); [by split|]].
    + intros r s _ Hg. by eapply (LeastConnFacts.lc_rg_return (init targets) _ _ _ (LeastConnFacts.gone j)); [apply LeastConnFacts.stable_gone|..].
    + apply (Hcl f). by eapply list_elem_of_lookup_2.
  - apply lookup_replicate in Hp as [-> _].
    apply (rg_bind LeastConnFacts.gate_step LeastConnFacts.R LeastConnFacts.G (LeastConnFacts.Inv (init targets))).
    eapply rg_mono; [|by apply (rg_Inflight (init targets) Hcaps)]. intros l s _ Hl s' _ _. by apply within_scrape.
Qed.

(** ** What is scraped and counted *)

(** Scraping a balancer that is serving.  Under every interleaving of requests, gate
    flips and scrapes, each scrape reports every target with its own cap and a number of
    requests in flight between none and the cap: the saturation of a bounded target is
    never above one. *)
Theorem scrape_within_cap targets g reqs n s qs j loads :
  (forall tg, tg ∈ targets -> MaxConcurrent tg < 2 ^ 63) -> LeastConnFacts.closing reqs ->
  rtc (pstep LeastConnFacts.gate_step) (zero (init targets) g, serving targets reqs n) (s, qs) ->
  qs !! j = Some (Ret (Scraped loads)) -> scrape_ok targets loads.
Proof.
  intros Hm Hcl Hr Hj. pose proof (LeastConnFacts.gate_rg (init targets)) as RG.
  pose proof (LeastConnFacts.lc_Inv_zero (init targets) (LeastConnFacts.init_caps targets Hm) g) as HI.
  destruct (pool_sound LeastConnFacts.gate_step _ _ _ (post targets) _ _ _ _ HI (serving_ok targets g reqs n Hm Hcl) Hr) as [_ H].
  exact (H j _ Hj).
Qed.

#[local] Instance ShedReason_eq_dec : EqDecision ShedReason.
Proof. solve_decision. Defined.

(** The finished requests shed for a reason. *)
Definition shed_for (reason : ShedReason) (q : prog shared event) : bool :=
  match q with Ret (Served (inr r)) => bool_decide (r = reason) | _ => false end.

(** The shed counter is the sheds: whatever the pool did, the series of a reason was
    incremented once for each finished request that was shed for it. *)
Theorem shed_counter_exact qs reason :
  PromFacts.incs "upstream_shed_total" [ShedReason_String reason] (sheds true qs ≫= shed_observe (fun _ => true)) =
  length (filter (fun q => shed_for reason q = true) qs).
Proof.
  assert (forall l, PromFacts.incs "upstream_shed_total" [ShedReason_String reason] (l ≫= shed_observe (fun _ => true)) = length (filter (fun r => r = reason) l)) as Hc.
  { intros l. apply (PromFacts.incs_bind _ _ _ (fun r => r = reason) true). intros r. unfold shed_observe. rewrite PromFacts.incs_inc.
    assert ([ShedReason_String r] = [ShedReason_String reason] <-> r = reason) as E by (destruct r, reason; split; (done || (intros; discriminate))).
    by rewrite (bool_decide_ext _ _ E). }
  rewrite Hc. induction qs as [|q qs IH]; [done|]. unfold sheds in *. rewrite bind_cons, filter_app, length_app, IH, (filter_cons _ q qs).
  destruct q as [[[o|r]|l]|u k|]; cbn [hooks shed shed_for]; rewrite ?decide_False by done; try done.
  rewrite filter_cons, filter_nil. destruct (decide (r = reason)) as [->|Hne].
  - by rewrite decide_True by by apply bool_decide_eq_true_2.
  - rewrite decide_False; [done|]. by intros ?%bool_decide_eq_true_1.
Qed.

(** ** A run: a scrape while a request holds a slot *)

Definition demo_start := (zero (init LeastConnFacts.demo_targets) None, serving LeastConnFacts.demo_targets [(5, LeastConnFacts.demo_ok, 1)]%nat 1).
Definition demo_end := exec (replicate 6 0 ++ replicate 4 1)%nat demo_start.

Lemma scrape_within_cap_witness :
  exists loads, demo_end.2 !! 1%nat = Some (Ret (Scraped loads)) /\ TActive <$> loads = [1; 0] /\ scrape_ok LeastConnFacts.demo_targets loads.
Proof.
  eexists. split; [vm_compute; reflexivity|]. split; [vm_compute; reflexivity|].
  apply (scrape_within_cap LeastConnFacts.demo_targets None [(5, LeastConnFacts.demo_ok, 1)]%nat 1 demo_end.1 demo_end.2 1).
  - apply LeastConnFacts.demo_caps.
  - intros f o n [[= -> -> ->]|H%elem_of_nil]%elem_of_cons; [cbn; lia|done].
  - rewrite <- surjective_pairing. apply (exec_rtc LeastConnFacts.gate_step).
  - vm_compute. reflexivity.
Defined.

End LoadMetricsFacts.
