(* ===== verification/GatedPool.v ===== *)
(** * Health checks at work: the gate in a balancer, the prober in a server

    The parts of [src/pkg/upstream/healthcheck.go] that join components: the interface
    [activeHealthGate] through which a balancer is given the gate, [RoundTrip], which
    starts the prober, registers its [Close] with the server of the request and hands the
    request to the balancer, and [Start].  Composes [HealthCheck] with [RoundRobin] and
    [Server]. *)

From S2P Require Import Prelude Http Concurrency UpstreamState RoundRobin LeastConn Ejecting HealthCheck Server.

(** ** The interface *)

Class activeHealthGate (B : Type) := {
  setHealthGate : list bool -> B -> B;
  health_gate : B -> Gate;
  gate_installed g b : health_gate (setHealthGate g b) = Some g;
}.

#[export] Instance rr_gate : activeHealthGate RoundRobin.t :=
  {| setHealthGate := RoundRobin.setHealthGate; health_gate := RoundRobin.gate; gate_installed _ _ := eq_refl |}.
#[export] Instance lc_gate : activeHealthGate LeastConn.shared :=
  {| setHealthGate := LeastConn.setHealthGate; health_gate := LeastConn.gate; gate_installed _ _ := eq_refl |}.
#[export] Instance ej_gate : activeHealthGate Ejecting.t :=
  {| setHealthGate := Ejecting.setHealthGate; health_gate := Ejecting.gate; gate_installed _ _ := eq_refl |}.

Module GatedPool.
Import HealthCheck.

(** ** Requests *)

(** [init] hands the balancer the slice the probers write: what the balancer reads is
    the gate as it is now. *)
Definition install {B} `{!activeHealthGate B} (l : lifecycle) (b : B) : B := setHealthGate (gate l) b.

(** The request's own part of [RoundTrip], in front of a round-robin balancer. *)
Definition forward (l : lifecycle) (targets : list Target) (b : RoundRobin.t) (r : Request) : RoundRobin.t * outcome :=
  match targets with
  | [] => (b, Returned None (Some ErrUnavailable))
  | _ :: _ => RoundRobin.RoundTrip (install l b) r
  end.

(** The gate the probes of each target have made: one history a target, newest first. *)
Definition probed_gate (a : ActiveHealthCheck) (targets : list Target) (hs : list (list probing)) : list bool :=
  zip_with (fun tg ps => up (HealthCheckFacts.probe_all (init_config a) ps (init_target (init_config a) (Host tg))).1) targets hs.

(** ** Lifetime *)

(** The prober and the server its requests come from.  [closer] is the callback
    [func() { _ = a.Close() }]. *)
Record pool := mkPool {
  life : lifecycle;
  srv : Server.state;
  explicit : bool;
  lazyOnce : bool;
}.

Definition closer : nat := 0.

(** [Start]'s critical section; the [start] it goes on to call is a step of [life], and so
    is the end of the context it is given. *)
Definition Start (p : pool) : pool := mkPool (life p) (srv p) true (lazyOnce p).

(** The first request: [lazyOnce], with the server found in its context. *)
Definition first_request (p : pool) : pool :=
  if explicit p then mkPool (life p) (srv p) true true
  else mkPool (life p) (Server.with_calls (Server.calls (srv p) ++ [Server.RStart closer]) (srv p)) false true.

Section Lifetime.
Context (a : ActiveHealthCheck) (n : nat).

Inductive step : pool -> pool -> Prop :=
  | p_Start p : step p (Start p)
  | p_request p : lazyOnce p = false -> step p (first_request p)
  | p_server p s' : Server.step (srv p) s' -> step p (mkPool (life p) s' (explicit p) (lazyOnce p))
  | p_prober p l' : HealthCheck.step a n (life p) l' -> step p (mkPool l' (srv p) (explicit p) (lazyOnce p))
  (* the goroutine of the callback *)
  | p_closer p : closer ∈ Server.launched (srv p) ->
      step p (mkPool (do_close (life p)) (srv p) (explicit p) (lazyOnce p)).

Definition start : pool := mkPool HealthCheck.fresh Server.start false false.

End Lifetime.
End GatedPool.

Module GatedPoolFacts.
Import HealthCheck GatedPool.

(** ** Routing *)

(** The debounced verdict of a target's probes. *)
Definition is_up (a : ActiveHealthCheck) (ps : list probing) : bool :=
  let a := init_config a in
  HealthCheckFacts.debounced (HealthyThld a) (UnhealthyThld a) (negb (StartUnhealthy a)) (omap (HealthCheckFacts.verdict a) ps).*1.

Lemma probed_up a h ps : Z.of_nat (length ps) <= max_i64 ->
  up (HealthCheckFacts.probe_all (init_config a) ps (init_target (init_config a) h)).1 = is_up a ps.
Proof.
  intros Hl. pose proof (HealthCheckFacts.omap_length (HealthCheckFacts.verdict (init_config a)) ps).
  unfold init_target. rewrite HealthCheckFacts.probe_all_verdicts, HealthCheckFacts.observe_all_ok by lia. done.
Qed.

Lemma probed_gate_lookup a targets hs j :
  length hs = length targets -> Forall (fun ps => Z.of_nat (length ps) <= max_i64) hs ->
  probed_gate a targets hs !! j = is_up a <$> hs !! j.
Proof.
  intros Hl Hh. unfold probed_gate. rewrite lookup_zip_with. destruct (hs !! j) as [ps|] eqn:E; cbn.
  - destruct (lookup_lt_is_Some_2 targets j) as [tg ->]; [rewrite <- Hl; by eapply lookup_lt_Some|]. cbn.
    rewrite probed_up; [done|]. by eapply (Forall_lookup_1 _ _ _ _ Hh).
  - by destruct (targets !! j).
Qed.

(** ** Requests follow the probes *)

(** Routing by probes.  Whatever the probes of the targets have been, a request of a
    round-robin pool whose cursor does not wrap goes to a target of the pool: one whose
    debounced verdict is up if there is one, and the next in rotation if all are down. *)
Theorem gated_routing a l targets hs b r :
  gate l = probed_gate a targets hs -> length hs = length targets ->
  Forall (fun ps => Z.of_nat (length ps) <= max_i64) hs ->
  targets <> [] -> RoundRobin.Targets b = targets ->
  0 <= RoundRobin.i b < 2 ^ 32 -> RoundRobinFacts.no_wrap (RoundRobin.i b) (Z.of_nat (length targets)) ->
  exists j tg ps, targets !! j = Some tg /\ hs !! j = Some ps /\
    (forward l targets b r).2 = RoundRobinFacts.sent r tg /\
    (if existsb (is_up a) hs then is_up a ps = true else j = Z.to_nat (RoundRobin.i b mod Z.of_nat (length targets))).
Proof.
  intros Hg Hl Hh Hne Hb Hi Hw. destruct targets as [|tg0 tgs]; [done|]. unfold forward, install, RoundRobin.RoundTrip. cbn [setHealthGate rr_gate]. unfold RoundRobin.setHealthGate.
  cbn [RoundRobin.Targets RoundRobin.i RoundRobin.gate]. rewrite Hb. set (ts := tg0 :: tgs) in *. set (n := Z.of_nat (length ts)) in *.
  assert (0 < n) as Hn by (unfold n, ts; cbn; lia). rewrite (proj2 (Z.eqb_neq _ _)) by lia. rewrite RoundRobinFacts.cursor_back by done.
  set (g := Some (gate l)). pose proof (RoundRobinFacts.select_range g (RoundRobin.i b) n Hn) as Hr.
  set (j := RoundRobin.select g (RoundRobin.i b) n) in *. destruct (lookup_lt_is_Some_2 ts (Z.to_nat j)) as [tg Htg]; [lia|].
  destruct (lookup_lt_is_Some_2 hs (Z.to_nat j)) as [ps Hps]; [lia|]. exists (Z.to_nat j), tg, ps. rewrite Htg. split; [done|]. split; [done|]. split; [done|].
  assert (forall k ps, 0 <= k < n -> hs !! Z.to_nat k = Some ps -> RoundRobin.up g k = is_up a ps) as Hup.
  { intros k ps' Hk Hps'. assert (gate l !! Z.to_nat k = Some (is_up a ps')) as Hk' by (rewrite Hg, probed_gate_lookup, Hps' by done; done).
    unfold g, RoundRobin.up. rewrite Hk'. apply lookup_lt_Some in Hk'. by rewrite (proj2 (Z.leb_gt _ _)) by lia. }
  destruct (existsb (is_up a) hs) eqn:Ex.
  - apply existsb_exists in Ex as (ps' & Hin & Hup'). apply list_elem_of_In, list_elem_of_lookup in Hin as [k Hk]. pose proof (lookup_lt_Some _ _ _ Hk).
    rewrite <- (Hup j ps Hr Hps). apply (RoundRobinFacts.select_up g _ _ (Z.of_nat k)); [done|lia|done|lia|].
    rewrite (Hup (Z.of_nat k) ps'); [done|lia|by rewrite Nat2Z.id].
  - unfold j, RoundRobin.select. pose proof (scan_ring_spec (RoundRobin.up g) (RoundRobin.i b) n Hn ltac:(lia) Hw) as Hs.
    destruct (scan _ _) as [idx|]; [|done]. destruct Hs as (k & Hk & -> & Hu & _). exfalso.
    pose proof (Z.mod_pos_bound (RoundRobin.i b + k) n Hn) as Hm. destruct (lookup_lt_is_Some_2 hs (Z.to_nat ((RoundRobin.i b + k) mod n))) as [ps' Hps']; [lia|].
    rewrite (Hup _ ps' Hm Hps') in Hu. enough (existsb (is_up a) hs = true) by congruence. apply existsb_exists. exists ps'. split; [|done].
    apply list_elem_of_In. by eapply list_elem_of_lookup_2.
Qed.

(** ** The prober's end *)

Section Lifetime.
Context (a : ActiveHealthCheck) (n : nat).
Abbreviation reachable := (rtc (step a n) start).

(** Registering the closer: its call is at the door, or took effect. *)
Definition asked (s : Server.state) : Prop := Server.RStart closer ∈ Server.calls s \/ closer ∈ Server.registered s.

Lemma asked_step s s' : Server.step s s' -> asked s -> asked s'.
Proof.
  intros Hs Ha. destruct Hs as [p s Hp|i p p' s s' Hi Hs].
  - destruct Ha as [Ha|Ha]; [left; cbn; set_solver|by right].
  - assert (closer ∈ Server.registered s -> closer ∈ Server.registered s') as Hreg.
    { destruct p as [f|f| | |[|f fns]| | |]; cbn in Hs; simplify_eq; cbn; try done. destruct (Server.shuttingDown s); simplify_eq; cbn; set_solver. }
    destruct Ha as [Ha|Ha]; [|right; by apply Hreg]. apply list_elem_of_lookup in Ha as [j Hj]. destruct (decide (j = i)) as [->|Hne].
    + right. assert (p = Server.RStart closer) as -> by congruence. cbn in Hs. destruct (Server.shuttingDown s); simplify_eq; cbn; set_solver.
    + left. cbn. apply list_elem_of_lookup. exists j. rewrite list_lookup_insert_ne by done. done.
Qed.

Record inv (p : pool) : Prop := {
  pi_life : rtc (HealthCheck.step a n) HealthCheck.fresh (life p);
  pi_srv : rtc Server.step Server.start (srv p);
  pi_lazy : lazyOnce p = true -> explicit p = false -> asked (srv p);
}.

Lemma pool_step_inv p p' : inv p -> step a n p p' -> inv p'.
Proof.
  intros [H1 H2 H3] Hs. destruct Hs as [p|p Hl|p s' Hs|p l' Hs|p Hc]; [by split| | | |].
  - unfold first_request. destruct (explicit p) eqn:E; [by split|]. split; cbn; [done| |intros _ _; left; set_solver].
    eapply rtc_r; [exact H2|]. apply Server.step_call. right. by eexists.
  - split; cbn; [done|by eapply rtc_r|]. intros Hl He. by eapply asked_step; [exact Hs|apply H3].
  - split; cbn; [by eapply rtc_r|done|done].
  - split; cbn; [|done|done]. eapply rtc_r; [exact H1|]. apply HealthCheck.step_close.
Qed.

Lemma pool_reachable p : reachable p -> inv p.
Proof.
  assert (inv start) as H0 by (split; [apply rtc_refl|apply rtc_refl|done]). intros Hr. revert H0.
  induction Hr as [|x y z Hs _ IH]; [done|]. eauto using pool_step_inv.
Qed.

Lemma lift_life p l' : rtc (HealthCheck.step a n) (life p) l' ->
  rtc (step a n) p (mkPool l' (srv p) (explicit p) (lazyOnce p)).
Proof.
  intros Hr. remember (life p) as l eqn:E. revert p E. induction Hr as [l|l l1 l2 Hs _ IH]; intros p ->; [by destruct p|].
  eapply rtc_l; [by apply p_prober|]. by apply (IH (mkPool l1 (srv p) (explicit p) (lazyOnce p))).
Qed.

(** C34: The prober ends with the server. When a pool that was not started explicitly
    has served a request of a server, and a shutdown of that server has begun and its
    callbacks are started, however requests, probes, registrations and shutdowns were
    interleaved, the goroutine that closes the prober is among those started; and from
    there the prober can be drained: [Close] returns, with no probe goroutine left. *)
Theorem prober_stops_with_server p :
  reachable p -> lazyOnce p = true -> explicit p = false ->
  Server.shuttingDown (srv p) = true -> Forall (fun c => c = Server.RDone \/ c = Server.SHTTP \/ c = Server.SDone) (Server.calls (srv p)) ->
  closer ∈ Server.launched (srv p) /\
  exists p', rtc (step a n) p p' /\ returned (life p') = true /\ pending (life p') = [] /\ running (life p') = [].
Proof.
  intros Hr Hl He Hs Hc. destruct (pool_reachable p Hr) as [H1 H2 H3].
  assert (Forall ServerFacts.settled_call (Server.calls (srv p))) as Hset by (eapply Forall_impl; [exact Hc|]; intros ? [-> | [-> | ->]]; done).
  assert (closer ∈ Server.registered (srv p)) as Hreg.
  { destruct (H3 Hl He) as [Hin|]; [|done]. rewrite Forall_forall in Hc. by destruct (Hc _ Hin) as [?|[?|?]]. }
  assert (closer ∈ Server.launched (srv p)) as Hla by by rewrite (ServerFacts.all_launched _ (ServerFacts.server_reachable _ H2) Hs Hset).
  split; [done|]. set (p1 := mkPool (do_close (life p)) (srv p) (explicit p) (lazyOnce p)).
  assert (step a n p p1) as Hp1 by by apply p_closer.
  pose proof (HealthCheckFacts.reachable_linv a n (life p) H1) as HL.
  assert (exists l', rtc (HealthCheck.step a n) (do_close (life p)) l' /\ pending l' = [] /\ running l' = [] /\ closed l' = true) as (l' & Hl' & E1 & E2 & E3).
  { destruct (published (life p)) eqn:Ep.
    - destruct (HealthCheckFacts.drain a n (do_close (life p))) as (l' & Hd & Ha & Hb & Hcl & _); [cbn; rewrite Ep; apply orb_true_r|]. exists l'. by rewrite Hcl.
    - destruct (HealthCheckFacts.li_idle n _ HL Ep). exists (do_close (life p)). split; [apply rtc_refl|done]. }
  eexists. split; [eapply rtc_l; [exact Hp1|]; apply (lift_life p1); eapply rtc_r; [exact Hl'|]; by apply HealthCheck.step_wait|]. done.
Qed.

End Lifetime.

(** ** Runs *)

(** Target a has failed three probes, b none: the next request goes to b. *)
Definition demo_hs : list (list probing) := [replicate 3 (HealthCheckFacts.probed 503); [HealthCheckFacts.probed 200]].
Definition demo_targets : list Target := [RoundRobinFacts.demo_target "a"; RoundRobinFacts.demo_target "b"].
Definition demo_life : lifecycle :=
  mkLife Started false true false [] [0; 1]%nat (probed_gate HealthCheckFacts.demo_hc demo_targets demo_hs) false.

Lemma gated_routing_witness :
  exists j tg ps, demo_targets !! j = Some tg /\ demo_hs !! j = Some ps /\
    (forward demo_life demo_targets (RoundRobin.New demo_targets) RoundRobinFacts.demo_req).2 = RoundRobinFacts.sent RoundRobinFacts.demo_req tg /\
    is_up HealthCheckFacts.demo_hc ps = true.
Proof.
  refine (gated_routing HealthCheckFacts.demo_hc demo_life demo_targets demo_hs (RoundRobin.New demo_targets) RoundRobinFacts.demo_req _ _ _ _ _ _ _).
  - reflexivity.
  - reflexivity.
  - repeat constructor; vm_compute; discriminate.
  - discriminate.
  - reflexivity.
  - vm_compute. split; congruence.
  - left. vm_compute. discriminate.
Defined.

(** A request registers the closer, the server shuts down. *)
Definition demo_server : Server.state :=
  default Server.start (ServerFacts.play [ServerFacts.Call (Server.RStart closer); ServerFacts.Move 0; ServerFacts.Call Server.SStart;
    ServerFacts.Move 1; ServerFacts.Move 1; ServerFacts.Move 1; ServerFacts.Move 1] Server.start).

Lemma lift_server a n p s' : rtc Server.step (srv p) s' -> rtc (step a n) p (mkPool (life p) s' (explicit p) (lazyOnce p)).
Proof.
  intros Hr. remember (srv p) as s eqn:E. revert p E. induction Hr as [s|s s1 s2 Hs _ IH]; intros p ->; [by destruct p|].
  eapply rtc_l; [by apply p_server|]. by apply (IH (mkPool (life p) s1 (explicit p) (lazyOnce p))).
Qed.

Definition demo_pool : pool := mkPool HealthCheck.fresh demo_server false true.

Lemma demo_pool_reached : rtc (step HealthCheckFacts.demo_hc 2) start demo_pool.
Proof.
  eapply rtc_l; [by apply (p_request HealthCheckFacts.demo_hc 2 start)|]. apply (lift_server _ _ (first_request start)).
  apply (ServerFacts.server_play [ServerFacts.Move 0; ServerFacts.Call Server.SStart; ServerFacts.Move 1; ServerFacts.Move 1; ServerFacts.Move 1; ServerFacts.Move 1]).
  vm_compute. reflexivity.
Qed.

Lemma prober_stops_with_server_witness : closer ∈ Server.launched (srv demo_pool).
Proof.
  apply (prober_stops_with_server HealthCheckFacts.demo_hc 2 demo_pool demo_pool_reached eq_refl eq_refl eq_refl).
  vm_compute. repeat (apply Forall_cons; split; [auto|]). apply Forall_nil; exact I.
Defined.

End GatedPoolFacts.
