(* ===== verification/CloneMeta.v ===== *)
(** * What a caller of the cache holds: copies and aliases

    [Memory] and [Purge] treat metadata and purge records as values.  In Go they are maps
    and slices on a shared heap, and the code copies them where they cross an interface:
    [cloneMeta] of [src/pkg/cache/memory.go], and [clonePrefixMap] of
    [src/pkg/cache/purge/purge.go].  Here they are addresses, and the theorem is that the
    copies make the values of the other files right: whatever a holder of a copy does, what
    is stored does not change. *)

From S2P Require Import Prelude Memory.

Module Alias.

(** ** The heap *)

(** A slice's address; [None] is nil.  A map has slices as its values. *)
Abbreviation slice := (option nat).

Section Heap.
Context {E : Type}.

Record heap := mkHeap { slices : gmap nat (list E); maps : gmap nat (gmap string slice); next : nat }.

Definition read_slice (h : heap) (s : slice) : list E := match s with None => [] | Some p => default [] (slices h !! p) end.
Definition entries (h : heap) (m : option nat) : gmap string slice := match m with None => ∅ | Some p => default ∅ (maps h !! p) end.
Definition read_map (h : heap) (m : option nat) : gmap string (list E) := read_slice h <$> entries h m.

(** [append([]E(nil), vs...)]: nil if there is nothing to append. *)
Definition append_nil (vs : list E) (h : heap) : slice * heap :=
  match vs with
  | [] => (None, h)
  | _ :: _ => (Some (next h), mkHeap (<[next h := vs]> (slices h)) (maps h) (S (next h)))
  end.

(** The loop [for k, vs := range m { out[k] = append([]E(nil), vs...) }]. *)
Definition clone_entries (m : gmap string slice) (h : heap) : gmap string slice * heap :=
  map_fold (fun k s acc => let '(s', h) := append_nil (read_slice acc.2 s) acc.2 in (<[k := s']> acc.1, h)) (∅, h) m.

(** [clonePrefixMap], and the header part of [cloneMeta]: a new map, also of a nil one. *)
Definition clone_map (m : option nat) (h : heap) : option nat * heap :=
  let '(out, h) := clone_entries (entries h m) h in
  (Some (next h), mkHeap (slices h) (<[next h := out]> (maps h)) (S (next h))).

(** ** What a holder can do *)

(** Writing an element in place, setting and deleting a key, and allocating. *)
Inductive write := WElem (p i : nat) (x : E) | WPut (p : nat) (k : string) (s : slice) | WDelete (p : nat) (k : string) | WSlice (l : list E) | WMap.

Definition apply (w : write) (h : heap) : heap :=
  match w with
  | WElem p i x => mkHeap (alter (fun l => <[i := x]> l) p (slices h)) (maps h) (next h)
  | WPut p k s => mkHeap (slices h) (alter (fun m => <[k := s]> m) p (maps h)) (next h)
  | WDelete p k => mkHeap (slices h) (alter (fun m => delete k m) p (maps h)) (next h)
  | WSlice l => mkHeap (<[next h := l]> (slices h)) (maps h) (S (next h))
  | WMap => mkHeap (slices h) (<[next h := ∅]> (maps h)) (S (next h))
  end.

(** A holder of the addresses [A] writes at them, and gains the ones it allocates. *)
Definition at_ (w : write) : option nat := match w with WElem p _ _ | WPut p _ _ | WDelete p _ => Some p | _ => None end.

Inductive mutates : gset nat * heap -> gset nat * heap -> Prop :=
  | mutates_write A h w p : at_ w = Some p -> p ∈ A -> mutates (A, h) (A, apply w h)
  | mutates_alloc A h w : at_ w = None -> mutates (A, h) ({[next h]} ∪ A, apply w h).

End Heap.
Arguments heap : clear implicits.

(** ** Metadata *)

(** A [Meta] as it is in memory; the other fields are as in [Memory.Meta]. *)
Record MetaRef := mkRef { rHeader : option nat; rVary : slice; rTags : slice; rest : Meta }.

Definition view (h : heap string) (m : MetaRef) : Meta :=
  mkMeta (read_map h (rHeader m)) (PrimaryHex (rest m)) (Host (rest m)) (URI (rest m)) (read_slice h (rVary m)) (read_slice h (rTags m))
    (Created (rest m)) (FreshUntil (rest m)) (StaleWhileRevalidate (rest m)) (StaleIfError (rest m)) (Size (rest m)) (Status (rest m)).

Definition cloneMeta (m : MetaRef) (h : heap string) : MetaRef * heap string :=
  let '(hd, h) := match rHeader m with None => (None, h) | Some p => clone_map (Some p) h end in
  let '(vary, h) := match rVary m with None => (None, h) | Some p => append_nil (read_slice h (Some p)) h end in
  let '(tags, h) := match rTags m with None => (None, h) | Some p => append_nil (read_slice h (Some p)) h end in
  (mkRef hd vary tags (rest m), h).

End Alias.

Module AliasFacts.
Import Alias.

Section Heap.
Context {E : Type}.
Implicit Types h : heap E.

(** ** Footprints *)

Definition slice_foot (s : slice) : gset nat := match s with None => ∅ | Some p => {[p]} end.
Definition entries_foot (m : gmap string slice) : gset nat := map_fold (fun _ s A => slice_foot s ∪ A) ∅ m.
Definition map_foot h (m : option nat) : gset nat := match m with None => ∅ | Some p => {[p]} ∪ entries_foot (entries h m) end.

Lemma entries_foot_elem m p : p ∈ entries_foot m <-> exists k, m !! k = Some (Some p).
Proof.
  unfold entries_foot. apply (map_fold_weak_ind (fun A m => p ∈ A <-> exists k, m !! k = Some (Some p))).
  - split; [set_solver|]. intros (k & Hk). by rewrite lookup_empty in Hk.
  - intros k s m' A Hk IH. rewrite elem_of_union, IH. split.
    + intros [Hs|(k' & Hk')]; [destruct s as [q|]; cbn in Hs; [|set_solver]; apply elem_of_singleton in Hs as ->; exists k; apply lookup_insert_eq|].
      exists k'. rewrite lookup_insert_ne; [done|]. intros ->. by rewrite Hk in Hk'.
    + intros (k' & Hk'). apply lookup_insert_Some in Hk' as [[_ ->]|[_ Hk']]; [left; cbn; set_solver|right; eauto].
Qed.

(** Two heaps that agree on a footprint. *)
Definition agree (A : gset nat) h h' : Prop :=
  (forall p, p ∈ A -> slices h' !! p = slices h !! p) /\ forall p, p ∈ A -> maps h' !! p = maps h !! p.

Lemma agree_slice A h h' s : agree A h h' -> slice_foot s ⊆ A -> read_slice h' s = read_slice h s.
Proof. intros [H _] Hs. destruct s as [p|]; [|done]. cbn. rewrite H; [done|]. apply Hs. cbn. set_solver. Qed.

Lemma agree_entries A h h' m : agree A h h' -> map_foot h m ⊆ A -> entries h' m = entries h m.
Proof. intros [_ H] Hm. destruct m as [p|]; [|done]. cbn in *. rewrite H; [done|]. set_solver. Qed.

Lemma agree_map A h h' m : agree A h h' -> map_foot h m ⊆ A -> read_map h' m = read_map h m.
Proof.
  intros HA Hm. unfold read_map. rewrite (agree_entries A h h' m HA Hm). apply map_eq. intros k. rewrite !lookup_fmap.
  destruct (entries h m !! k) as [s|] eqn:Ek; [|done]. cbn. f_equal. apply (agree_slice A); [done|].
  destruct s as [q|]; cbn; [|set_solver]. destruct m as [p|]; [|cbn in Ek; by rewrite lookup_empty in Ek]. cbn in Hm.
  assert (q ∈ entries_foot (entries h (Some p))) by (apply entries_foot_elem; eauto). set_solver.
Qed.

(** ** Writes outside a footprint *)

Lemma mutates_agree F A h A' h' :
  rtc mutates (A, h) (A', h') -> A ## F -> (forall p, p ∈ F -> (p < next h)%nat) -> agree F h h' /\ A' ## F.
Proof.
  intros Hr. remember (A, h) as x eqn:Ex. remember (A', h') as y eqn:Ey. revert A h Ex.
  induction Hr as [x|x y z Hs _ IH]; intros A h -> Hd Hn; [simplify_eq; by split; [split|]|].
  inversion Hs as [? ? w p Hw Hp|? ? w Hw]; subst.
  - destruct (IH eq_refl A (apply w h) eq_refl Hd) as [[H1 H2] H3]; [destruct w; cbn in *; done|]. split; [|done].
    assert (forall q, q ∈ F -> q <> p) as Hne by set_solver. destruct w; cbn in Hw; simplify_eq; cbn in H1, H2; (split; intros q Hq);
      rewrite ?H1, ?H2 by done; rewrite ?lookup_alter_ne by (intros ->; by eapply Hne); done.
  - destruct (IH eq_refl ({[next h]} ∪ A) (apply w h) eq_refl) as [[H1 H2] H3].
    + apply disjoint_union_l. split; [|done]. apply disjoint_singleton_l. intros Hin%Hn. lia.
    + intros p Hp%Hn. destruct w; cbn in *; (done || lia).
    + split; [|done]. split; intros q Hq; rewrite ?H1, ?H2 by done; pose proof (Hn q Hq); destruct w; cbn; try done; by rewrite lookup_insert_ne by lia.
Qed.

(** ** Copies *)

(** A copy made on [h]: the old heap is as it was, and what is new is at new addresses. *)
Definition extends h h' : Prop :=
  (next h <= next h')%nat /\ (forall p, (p < next h)%nat -> slices h' !! p = slices h !! p) /\ forall p, (p < next h)%nat -> maps h' !! p = maps h !! p.

#[export] Instance extends_trans : Transitive extends.
Proof. intros h1 h2 h3 (A1 & A2 & A3) (B1 & B2 & B3). split; [lia|]. split; intros p Hp; [rewrite B2, A2 by lia|rewrite B3, A3 by lia]; done. Qed.

Lemma extends_agree F h h' : extends h h' -> (forall p, p ∈ F -> (p < next h)%nat) -> agree F h h'.
Proof. intros (_ & H1 & H2) HF. split; intros p Hp%HF; auto. Qed.

Definition fresh_in h h' (A : gset nat) : Prop := forall p, p ∈ A -> (next h <= p < next h')%nat.

Lemma append_nil_spec vs h :
  let x := append_nil vs h in extends h x.2 /\ read_slice x.2 x.1 = vs /\ fresh_in h x.2 (slice_foot x.1).
Proof.
  destruct vs as [|v vs]; cbn; [split; [by split; [lia|]|]; split; [done|]; intros p; cbn; set_solver|].
  split; [split; [cbn; lia|]; split; [|done]; intros p Hp; cbn; by rewrite lookup_insert_ne by lia|].
  split; [by rewrite lookup_insert_eq|]. intros p. cbn. intros ->%elem_of_singleton. lia.
Qed.

Lemma clone_entries_spec m h : (forall p, p ∈ entries_foot m -> (p < next h)%nat) ->
  let x := clone_entries m h in
  extends h x.2 /\ read_slice x.2 <$> x.1 = read_slice h <$> m /\ fresh_in h x.2 (entries_foot x.1).
Proof.
  unfold clone_entries. apply (map_fold_weak_ind (fun x m => (forall p, p ∈ entries_foot m -> (p < next h)%nat) ->
    extends h x.2 /\ read_slice x.2 <$> x.1 = read_slice h <$> m /\ fresh_in h x.2 (entries_foot x.1))).
  - intros _. cbn [fst snd]. split; [by split; [lia|]|]. split; [done|]. intros p (k & Hk)%entries_foot_elem. by rewrite lookup_empty in Hk.
  - intros k s m' [out h1] Hk IH Hm. destruct IH as (X1 & X2 & X3).
    { intros p (k' & Hk')%entries_foot_elem. apply Hm, entries_foot_elem. exists k'. rewrite lookup_insert_ne; [done|]. intros ->. by rewrite Hk in Hk'. }
    cbn [fst snd] in *. assert (read_slice h1 s = read_slice h s) as Es.
    { apply (agree_slice (slice_foot s)); [|done]. apply (extends_agree _ _ _ X1). intros p Hp. apply Hm, entries_foot_elem.
      exists k. destruct s; cbn in Hp; [|set_solver]. apply elem_of_singleton in Hp as ->. apply lookup_insert_eq. }
    destruct (append_nil_spec (read_slice h1 s) h1) as (Y1 & Y2 & Y3). destruct (append_nil (read_slice h1 s) h1) as [s' h2]. cbn [fst snd] in *.
    destruct X1 as (N1 & X1 & X1'). pose proof Y1 as (N2 & _ & _). split; [by etransitivity; [split; [exact N1|done]|]|]. cbn [fst snd]. split.
    + rewrite !fmap_insert. rewrite Y2, Es. f_equal. rewrite <- X2. apply map_eq. intros k'. rewrite !lookup_fmap.
      destruct (out !! k') as [q|] eqn:Eq; [|done]. cbn. f_equal. apply (agree_slice (slice_foot q)); [|done].
      apply (extends_agree _ _ _ Y1). intros p Hp. destruct q; cbn in Hp; [|set_solver]. apply elem_of_singleton in Hp as ->.
      assert (n ∈ entries_foot out) as Hin by (apply entries_foot_elem; eauto). specialize (X3 _ Hin). lia.
    + intros p (k' & Hk')%entries_foot_elem. apply lookup_insert_Some in Hk' as [[_ ->]|[_ Hk']].
      * specialize (Y3 p). cbn in Y3. specialize (Y3 ltac:(set_solver)). lia.
      * assert (p ∈ entries_foot out) as Hin by (apply entries_foot_elem; eauto). specialize (X3 _ Hin). lia.
Qed.

Lemma clone_map_spec m h : (forall p, p ∈ map_foot h m -> (p < next h)%nat) ->
  let x := clone_map m h in extends h x.2 /\ read_map x.2 x.1 = read_map h m /\ fresh_in h x.2 (map_foot x.2 x.1).
Proof.
  intros Hm. unfold clone_map. destruct (clone_entries_spec (entries h m) h) as (X1 & X2 & X3).
  { intros p Hp. destruct m as [q|]; [apply Hm; cbn in *; set_solver|]. apply entries_foot_elem in Hp as (k & Hk). cbn in Hk. by rewrite lookup_empty in Hk. }
  destruct (clone_entries (entries h m) h) as [out h1]. cbn [fst snd] in *. destruct X1 as (N1 & X1 & X1'). split; [|split].
  - split; [cbn; lia|]. split; [done|]. intros p Hp. cbn. rewrite lookup_insert_ne by lia. auto.
  - unfold read_map. rewrite <- X2. cbn. rewrite lookup_insert_eq. done.
  - intros p. cbn. rewrite lookup_insert_eq. cbn. intros [->%elem_of_singleton|Hp%X3]%elem_of_union; lia.
Qed.

End Heap.

(** ** Metadata *)

Definition foot (h : heap string) (m : MetaRef) : gset nat := map_foot h (rHeader m) ∪ slice_foot (rVary m) ∪ slice_foot (rTags m).

Lemma agree_view A h h' m : agree A h h' -> foot h m ⊆ A -> view h' m = view h m.
Proof.
  intros HA Hf. unfold view. unfold foot in Hf. f_equal; [apply (agree_map A)|apply (agree_slice A)|apply (agree_slice A)]; (done || set_solver).
Qed.

Lemma clone_slice_spec (s : option nat) (h : heap string) :
  let x := match s with None => (None, h) | Some p => append_nil (read_slice h (Some p)) h end in
  extends h x.2 /\ read_slice x.2 x.1 = read_slice h s /\ fresh_in h x.2 (slice_foot x.1).
Proof. destruct s as [p|]; [apply append_nil_spec|]. split; [by split; [cbn; lia|]|]. split; [done|]. intros p. cbn. set_solver. Qed.

Lemma clone_header_spec (m : option nat) (h : heap string) : (forall p, p ∈ map_foot h m -> (p < next h)%nat) ->
  let x := match m with None => (None, h) | Some p => clone_map (Some p) h end in
  extends h x.2 /\ read_map x.2 x.1 = read_map h m /\ fresh_in h x.2 (map_foot x.2 x.1).
Proof. intros Hm. destruct m as [p|]; [by apply clone_map_spec|]. split; [by split; [cbn; lia|]|]. split; [done|]. intros p. cbn. set_solver. Qed.

Lemma cloneMeta_spec m h : (forall p, p ∈ foot h m -> (p < next h)%nat) ->
  let x := cloneMeta m h in extends h x.2 /\ view x.2 x.1 = view h m /\ fresh_in h x.2 (foot x.2 x.1).
Proof.
  intros Hf. unfold foot in Hf. unfold cloneMeta.
  destruct (clone_header_spec (rHeader m) h) as (X1 & X2 & X3); [intros p Hp; apply Hf; set_solver|].
  destruct (match rHeader m with None => _ | Some _ => _ end) as [hd h1]. cbn [fst snd] in *.
  destruct (clone_slice_spec (rVary m) h1) as (Y1 & Y2 & Y3). destruct (match rVary m with None => _ | Some _ => _ end) as [vary h2]. cbn [fst snd] in *.
  destruct (clone_slice_spec (rTags m) h2) as (Z1 & Z2 & Z3). destruct (match rTags m with None => _ | Some _ => _ end) as [tags h3]. cbn [fst snd] in *.
  assert (extends h h2) as H02 by by etransitivity. assert (extends h1 h3) as H13 by by etransitivity.
  assert (extends h h3) as H03 by by etransitivity. split; [done|].
  assert (forall g, extends h g -> read_slice g (rVary m) = read_slice h (rVary m) /\ read_slice g (rTags m) = read_slice h (rTags m)) as Hold.
  { intros g Hg. split; (apply (agree_slice (foot h m)); [apply (extends_agree _ _ _ Hg); exact Hf|unfold foot; set_solver]). }
  assert (agree (map_foot h1 hd) h1 h3) as A1 by (apply (extends_agree _ _ _ H13); intros p Hp%X3; lia).
  assert (agree (slice_foot vary) h2 h3) as A2 by (apply (extends_agree _ _ _ Z1); intros p Hp%Y3; lia).
  split.
  - unfold view. cbn [rHeader rVary rTags rest]. rewrite (agree_map _ h1 h3 hd A1) by done. rewrite (agree_slice _ h2 h3 vary A2) by done.
    rewrite X2, Y2, Z2. destruct (Hold h1 X1) as [-> _]. destruct (Hold h2 H02) as [_ ->]. done.
  - unfold foot, map_foot. cbn [rHeader rVary rTags]. destruct X1 as (N1 & _), Y1 as (N2 & _), Z1 as (N3 & _).
    assert (entries h3 hd = entries h1 hd) as Ee by by apply (agree_entries (map_foot h1 hd)).
    intros p [[Hp|Hp%Y3]%elem_of_union|Hp%Z3]%elem_of_union; [|lia|lia].
    assert (p ∈ map_foot h1 hd) as Hp' by (unfold map_foot; destruct hd; [by rewrite Ee in Hp|done]). specialize (X3 p Hp'). lia.
Qed.

(** C33: Copies are independent. [cloneMeta] of a stored entry's metadata has the same
    contents and leaves the stored one as it was; and whatever the holder of the copy
    then writes through it, in place, to maps and slices, or allocates, the stored
    metadata reads as before; and so does the copy, whatever happens to the stored
    one. *)
Theorem clone_isolated m h :
  (forall p, p ∈ foot h m -> (p < next h)%nat) ->
  let '(m', h1) := cloneMeta m h in
  view h1 m' = view h m /\ view h1 m = view h m /\
  (forall A h2, rtc mutates (foot h1 m', h1) (A, h2) -> view h2 m = view h m) /\
  (forall A h2, rtc mutates (foot h1 m, h1) (A, h2) -> view h2 m' = view h m).
Proof.
  intros Hf. destruct (cloneMeta_spec m h Hf) as (H1 & H2 & H3). destruct (cloneMeta m h) as [m' h1]. cbn [fst snd] in *.
  pose proof (extends_agree (foot h m) h h1 H1 Hf) as HA. pose proof (agree_view _ h h1 m HA ltac:(done)) as Hv.
  assert (foot h1 m = foot h m) as Ef.
  { unfold foot, map_foot. rewrite (agree_entries (foot h m) h h1 (rHeader m) HA) by (unfold foot; set_solver). done. }
  assert (foot h1 m' ## foot h m) as Hd by (intros p Hp%H3 Hq%Hf; lia). destruct H1 as (N1 & _).
  split; [done|]. split; [done|]. split.
  - intros A h2 Hr. rewrite <- Hv. eapply (agree_view (foot h m)); [|by rewrite Ef].
    eapply mutates_agree; [exact Hr|done|]. intros p Hp%Hf. lia.
  - intros A h2 Hr. rewrite <- H2. eapply (agree_view (foot h1 m')); [|done].
    eapply mutates_agree; [exact Hr|rewrite Ef; by symmetry|]. intros p Hp%H3. lia.
Qed.

(** The maps of a purge snapshot: [clonePrefixMap]. *)
Lemma clone_prefixes_isolated {E} m (h : heap E) : (forall p, p ∈ map_foot h m -> (p < next h)%nat) ->
  let '(m', h1) := clone_map m h in
  read_map h1 m' = read_map h m /\ forall A h2, rtc mutates (map_foot h1 m', h1) (A, h2) -> read_map h2 m = read_map h m.
Proof.
  intros Hf. destruct (clone_map_spec m h Hf) as (H1 & H2 & H3). destruct (clone_map m h) as [m' h1]. cbn [fst snd] in *. split; [done|].
  intros A h2 Hr. pose proof (extends_agree (map_foot h m) h h1 H1 Hf) as HA. rewrite <- (agree_map _ h h1 m HA) by done.
  destruct H1 as (N1 & _). assert (map_foot h1 m = map_foot h m) as Ef by (unfold map_foot; by rewrite (agree_entries _ h h1 m HA)).
  apply (agree_map (map_foot h m)); [|by rewrite Ef]. eapply mutates_agree; [exact Hr| |intros p Hp%Hf; lia]. intros p Hp%H3 Hq%Hf. lia.
Qed.

(** ** A run *)

Definition demo_heap : heap string := mkHeap {[0%nat := ["gzip"]; 1%nat := ["accept"]]} {[2%nat := {["Content-Encoding" := Some 0%nat]}]} 3.
Definition demo_meta : MetaRef := mkRef (Some 2%nat) (Some 1%nat) None (mkMeta ∅ "" "" "" [] [] 0 0 0 0 0 200).

Lemma demo_meta_ok p : p ∈ foot demo_heap demo_meta -> (p < next demo_heap)%nat.
Proof.
  assert (foot demo_heap demo_meta = {[0; 1; 2]}%nat) as -> by (apply (bool_decide_unpack _); vm_compute; exact I). cbn. set_solver by lia.
Qed.

(** The holder overwrites the copied header in place: the stored one is as it was. *)
Lemma clone_isolated_witness :
  let h1 := (cloneMeta demo_meta demo_heap).2 in
  view (apply (WElem 3 0 "br") h1) demo_meta = view demo_heap demo_meta /\
  read_map (apply (WElem 3 0 "br") h1) (rHeader (cloneMeta demo_meta demo_heap).1) !! "Content-Encoding" = Some ["br"].
Proof.
  split; [|vm_compute; reflexivity].
  pose proof (clone_isolated demo_meta demo_heap demo_meta_ok) as H. rewrite (surjective_pairing (cloneMeta demo_meta demo_heap)) in H.
  destruct H as (_ & _ & H & _). apply (H (foot (cloneMeta demo_meta demo_heap).2 (cloneMeta demo_meta demo_heap).1)).
  apply rtc_once. apply (mutates_write _ _ _ 3%nat); [reflexivity|]. apply (bool_decide_unpack _). vm_compute. exact I.
Defined.

End AliasFacts.
