(* ===== verification/CacheReport.v ===== *)
(** * What the cache reports

    [report] of [src/pkg/cache/cache.go] with the two hooks of the repository: [LogResult]
    of [src/pkg/cache/logresult.go], which writes to the access log's record ([Logger]), and
    the metrics of [prom.Cache] ([Prom]), alone or one after the other. *)

From S2P Require Import Prelude GoStrings CacheServe Logger Prom.

Module CacheReport.
Import CacheServe.

(** What a hook can change: the calls on the metrics client, and the request's record. *)
Record world := mkWorld { metrics : list Prom.op; record : option Logger.record }.

(** A request's host and the hook; nil is [None]. *)
Definition report (onResult : option (string -> ResultInfo -> world -> world)) (host : string) (info : ResultInfo) (w : world) : world :=
  match onResult with Some f => f host info w | None => w end.

Definition LogResult (host : string) (info : ResultInfo) (w : world) : world :=
  mkWorld (metrics w) (Logger.ctx_Set "cacheStatus" (Logger.VString (Result_string (info_result info))) (record w)).

Definition Metrics (accepts : list string -> bool) (host : string) (info : ResultInfo) (w : world) : world :=
  mkWorld (metrics w ++ Prom.cache_observe accepts host info) (record w).

(** The composition the documentation of [prom.Cache] gives. *)
Definition both (accepts : list string -> bool) (host : string) (info : ResultInfo) (w : world) : world :=
  LogResult host info (Metrics accepts host info w).

End CacheReport.

Module CacheReportFacts.
Import CacheServe CacheReport.

#[local] Instance Result_eq_dec : EqDecision Result.
Proof. solve_decision. Defined.

Lemma lookup_set_ne name v d k : name <> k -> Logger.Get k (Logger.Set_ name v d) = Logger.Get k d.
Proof. intros H. unfold Logger.Get, Logger.Set_. cbn. by rewrite lookup_insert_ne. Qed.

(** The fields set when a request ends leave the others alone. *)
Lemma emitted_keeps ds omit canceled start now nw d k v :
  k ∉ ["duration"; "durationHuman"; "status"; "responseBodySize"; "durationHeader"; "durationHeaderHuman"] ->
  Logger.disable d = false -> Logger.Get k d = Some v -> Logger.isEmpty v = false ->
  exists d', Logger.emitted ds omit canceled start now nw d = Some d' /\ Logger.Get k d' = Some v.
Proof.
  intros Hk Hd Hv He. unfold Logger.emitted. rewrite Hd. eexists. split; [reflexivity|].
  set (d1 := match Logger.wroteHeaderAt nw with Some _ => _ | None => _ end).
  assert (Logger.Get k d1 = Some v) as H1.
  { unfold d1. destruct (Logger.wroteHeaderAt nw); rewrite !lookup_set_ne by (intros <-; apply Hk; set_solver); exact Hv. }
  destruct omit; [|done]. unfold Logger.Get, Logger.omitEmpty in *. cbn. apply map_lookup_filter_Some. by split.
Qed.

Lemma incs_cache accepts h res host info :
  PromFacts.incs "cache_total" [h; Result_string res] (Prom.cache_observe accepts host info) =
  if bool_decide (host = h /\ info_result info = res) then (if accepts [h; Result_string res] then 1%nat else 0%nat) else 0%nat.
Proof.
  unfold Prom.cache_observe. rewrite PromFacts.incs_app, PromFacts.incs_inc.
  rewrite (PromFacts.incs_none _ _ (if 0 <? FillDuration info then _ else _)).
  2: { destruct (0 <? FillDuration info); [|constructor]. by apply PromFacts.with_labels_all. }
  rewrite Nat.add_0_r. erewrite bool_decide_ext; [reflexivity|].
  split; [intros [= -> E]; split; [done|]; by destruct (info_result info), res|by intros [-> ->]].
Qed.

(** What a report leaves.  With both hooks a request's report adds one to exactly one
    series, that of its host and result, and the access log's line for the request has the
    result under "cacheStatus", also when empty fields are dropped; without a logger in
    front there is only the metric. *)
Theorem cache_report_seen accepts host info w :
  (forall l, accepts l = true) ->
  let w' := report (Some (both accepts)) host info w in
  (forall h res, PromFacts.incs "cache_total" [h; Result_string res] (metrics w') =
     (PromFacts.incs "cache_total" [h; Result_string res] (metrics w) + if bool_decide (host = h /\ info_result info = res) then 1 else 0)%nat) /\
  match record w with
  | None => record w' = None
  | Some d => Logger.disable d = false -> forall ds omit canceled start now nw, exists d0 d',
      record w' = Some d0 /\ Logger.emitted ds omit canceled start now nw d0 = Some d' /\
      Logger.Get "cacheStatus" d' = Some (Logger.VString (Result_string (info_result info)))
  end.
Proof.
  intros Ha. unfold report, both, LogResult, Metrics. cbv zeta. cbn [metrics record]. split.
  - intros h res. rewrite PromFacts.incs_app, incs_cache, Ha. done.
  - destruct (record w) as [d|]; [|done]. intros Hd ds omit canceled start now nw. cbn.
    destruct (emitted_keeps ds omit canceled start now nw (Logger.Set_ "cacheStatus" (Logger.VString (Result_string (info_result info))) d)
      "cacheStatus" (Logger.VString (Result_string (info_result info)))) as (d' & H1 & H2).
    + apply (bool_decide_unpack _). vm_compute. exact I.
    + exact Hd.
    + exact (lookup_insert_eq (Logger.data d) "cacheStatus" _).
    + by destruct (info_result info).
    + eauto.
Qed.

Lemma cache_report_seen_witness :
  PromFacts.incs "cache_total" ["a"; "HIT"] (metrics (report (Some (both (fun _ => true))) "a" (mkInfo ResultHit 0) (mkWorld [] None))) = 1%nat.
Proof.
  etransitivity; [exact (proj1 (cache_report_seen (fun _ => true) "a" (mkInfo ResultHit 0) (mkWorld [] None) (fun _ => eq_refl)) "a" ResultHit)|].
  vm_compute. reflexivity.
Defined.

End CacheReportFacts.
