(* ===== verification/BufferPool.v ===== *)
(** * The buffer pool

    [src/pkg/internal/pool/pool.go], and [_bytesPool] of [src/pkg/upstream/pool.go], which
    lends its buffers to the reverse proxy.  A buffer is a slice's backing array.  Of
    [sync.Pool] the code relies on: [Get] removes and returns some value that was put, or
    calls [New]; the pool may drop what it holds at any time. *)

From S2P Require Import Prelude.

Module BufferPool.

Definition bufferSize : Z := 16 * 1024.
Definition Size : Z := bufferSize.

(** What the pool holds, the length of each buffer there is, and who uses one now. *)
Record state := mkState { free : list nat; sizes : list Z; users : list nat }.

Definition init : state := mkState [] [] [].

(** [New] of the pool. *)
Definition New (s : state) : nat * state := (length (sizes s), mkState (free s) (sizes s ++ [bufferSize]) (users s)).

(** [Get] of the [i]-th free buffer, or of a new one. *)
Definition Get (i : option nat) (s : state) : option (nat * state) :=
  match i with
  | Some i => b ← free s !! i; Some (b, mkState (delete i (free s)) (sizes s) (users s ++ [b]))
  | None => let '(b, s) := New s in Some (b, mkState (free s) (sizes s) (users s ++ [b]))
  end.

(** [Put] by the [j]-th user. *)
Definition Put (j : nat) (s : state) : option state :=
  b ← users s !! j; Some (mkState (free s ++ [b]) (sizes s) (delete j (users s))).

Inductive step : state -> state -> Prop :=
  | step_get s i b s' : Get i s = Some (b, s') -> step s s'
  | step_put s j s' : Put j s = Some s' -> step s s'
  | step_drop s i : step s (mkState (delete i (free s)) (sizes s) (users s)).

End BufferPool.

Module BufferPoolFacts.
Import BufferPool.

Record inv (s : state) : Prop := {
  inv_nodup : NoDup (free s ++ users s);
  inv_sizes : Forall (fun n => n = bufferSize) (sizes s);
  inv_known : Forall (fun b => (b < length (sizes s))%nat) (free s ++ users s);
}.

Lemma pool_step s s' : step s s' -> inv s -> inv s'.
Proof.
  intros Hs [H1 H2 H3]. destruct Hs as [s [i|] b s' Hg|s j s' Hp|s i]; cbn in *.
  - apply bind_Some in Hg as (b' & Hb & [= <- <-]). pose proof (delete_Permutation (free s) i b' Hb) as HP.
    assert (delete i (free s) ++ users s ++ [b'] ≡ₚ free s ++ users s) as HQ by (etransitivity; [|apply Permutation_app_tail; symmetry; exact HP]; solve_Permutation).
    split; cbn; [by rewrite HQ|done|by rewrite HQ].
  - simplify_eq; cbn. assert (free s ++ users s ++ [length (sizes s)] ≡ₚ length (sizes s) :: free s ++ users s) as HQ by solve_Permutation.
    split; cbn.
    + rewrite HQ. constructor; [|done]. intros Hin. rewrite Forall_forall in H3. specialize (H3 _ Hin). lia.
    + apply Forall_app_2; [done|by repeat constructor].
    + rewrite HQ, length_app. cbn. constructor; [lia|]. eapply Forall_impl; [exact H3|]. cbn. lia.
  - apply bind_Some in Hp as (b & Hb & [= <-]). pose proof (delete_Permutation (users s) j b Hb) as HP.
    assert ((free s ++ [b]) ++ delete j (users s) ≡ₚ free s ++ users s) as HQ by (etransitivity; [|apply Permutation_app_head; symmetry; exact HP]; solve_Permutation).
    split; cbn; [by rewrite HQ|done|by rewrite HQ].
  - assert (sublist (delete i (free s) ++ users s) (free s ++ users s)) as HS by (apply sublist_app; [apply sublist_delete|done]).
    split; cbn; [by eapply sublist_NoDup|done|]. apply Forall_forall. intros b Hb. rewrite Forall_forall in H3. apply H3.
    eapply elem_of_submseteq; [exact Hb|by apply sublist_submseteq].
Qed.

(** A buffer has one user.  However buffers are taken, put back and dropped, by users that
    put back only what they took, none is in use twice, none in use is in the pool, and
    every buffer a user has is of the full size. *)
Theorem pool_one_user s : rtc step init s ->
  NoDup (users s) /\ (forall b, b ∈ users s -> b ∉ free s) /\ forall b, b ∈ users s -> sizes s !! b = Some Size.
Proof.
  intros Hr. assert (inv s) as [H1 H2 H3].
  { assert (inv init) as H0 by (split; constructor). revert H0. induction Hr as [|x y z Hs _ IH]; [done|]. eauto using pool_step. }
  apply NoDup_app in H1 as (_ & Hd & Hu). split_and!; [done|intros b Hb Hf; by eapply Hd|].
  intros b Hb. rewrite Forall_forall in H3. specialize (H3 b ltac:(set_solver)). destruct (lookup_lt_is_Some_2 (sizes s) b H3) as [n Hn].
  rewrite Hn. f_equal. by apply (Forall_lookup_1 _ _ _ _ H2 Hn).
Qed.

Lemma pool_one_user_witness : sizes (mkState [0%nat] [bufferSize; bufferSize] [1%nat]) !! 1%nat = Some Size.
Proof.
  apply (pool_one_user (mkState [0%nat] [bufferSize; bufferSize] [1%nat])); [|left].
  eapply rtc_l; [by apply (step_get _ None 0%nat)|]. eapply rtc_l; [by apply (step_get _ None 1%nat)|].
  eapply rtc_l; [by apply (step_put _ 0%nat)|]. apply rtc_refl.
Defined.

End BufferPoolFacts.
