(* ===== verification/Writers.v ===== *)
(** * Stacks of response writers

    The wrapped response writers of the repository and the optional interfaces they
    implement: [Unwrap], [Push], [Flush] and [Hijack] of pkg/logger, pkg/headers,
    pkg/compress, pkg/timeout, pkg/ratelimit, pkg/prom, pkg/h2push, pkg/fileserver and
    pkg/cache.  Each of these methods asserts the interface of the writer it wraps and
    calls it, or gives [ErrNotSupported] (a flush does nothing).  A handler has the whole
    stack in its hands; it calls a method itself, or through net/http's
    [ResponseController], which unwraps writers until one implements the method. *)

From S2P Require Import Prelude GoStrings Middleware H2Push.

Module Writers.

(** The methods a type has besides those of [http.ResponseWriter].  What else a method does
    on its way is in the component's file: the compressor flushes its encoder, the cache's
    writers may hold a flush back, the limiter may release its token on a hijack. *)
Record wrapper := mkWrapper { has_Unwrap : bool; has_Push : bool; has_Flush : bool; has_Hijack : bool }.

Definition loggerRW : wrapper := mkWrapper true true true true.
Definition interceptRW : wrapper := mkWrapper true true true true.
Definition compressWriter : wrapper := mkWrapper true true true true.
Definition timeoutRW : wrapper := mkWrapper true true true true.
Definition ratelimitRW : wrapper := mkWrapper true true true true.
Definition requestTrackRW : wrapper := mkWrapper true true true true.
Definition preloadPusherRW : wrapper := mkWrapper true true true true.
Definition fileserverRW : wrapper := mkWrapper true false false false.
Definition teeWriter : wrapper := mkWrapper true false true false.
Definition staleGate : wrapper := mkWrapper true false true false.

(** net/http's own writer: over HTTP/1 it hijacks, over HTTP/2 it pushes; both flush. *)
Record conn := mkConn { Pusher : bool; Flusher : bool; Hijacker : bool }.
Definition http1 : conn := mkConn false true true.
Definition http2 : conn := mkConn true true false.

(** What a call came to: it reached the connection, or was refused on the way, or was
    dropped there (a flush has no error). *)
Inductive result := Reached | ErrNotSupported | Dropped.

Section Method.
Context (has : wrapper -> bool) (base : conn -> bool) (refused : result).

(** [w.(http.X)]: by the dynamic type of the outermost writer. *)
Definition asserts (c : conn) (ws : list wrapper) : bool :=
  match ws with [] => base c | w :: _ => has w end.

(** The method of the outermost writer, which is there. *)
Fixpoint invoke (c : conn) (ws : list wrapper) : result :=
  match ws with
  | [] => Reached
  | w :: ws => if asserts c ws then invoke c ws else refused
  end.

(** A handler that asserts and calls. *)
Definition direct (c : conn) (ws : list wrapper) : result :=
  if asserts c ws then invoke c ws else refused.

(** [http.ResponseController]: the first writer that has the method, unwrapping. *)
Fixpoint controller (c : conn) (ws : list wrapper) : result :=
  if asserts c ws then invoke c ws
  else match ws with
       | [] => ErrNotSupported
       | w :: ws => if has_Unwrap w then controller c ws else ErrNotSupported
       end.

End Method.

Definition Push := direct has_Push Pusher ErrNotSupported.
Definition Flush := direct has_Flush Flusher Dropped.
Definition Hijack := direct has_Hijack Hijacker ErrNotSupported.
Definition controller_Flush := controller has_Flush Flusher Dropped.
Definition controller_Hijack := controller has_Hijack Hijacker ErrNotSupported.

End Writers.

Module WritersFacts.
Import Writers.

Section Method.
Context (has : wrapper -> bool) (base : conn -> bool) (refused : result) (refuses : refused <> Reached).

(** A direct call reaches the connection if every writer of the stack, and the connection,
    has the method. *)
Lemma direct_reached c ws : direct has base refused c ws = Reached <-> Forall (fun w => has w = true) ws /\ base c = true.
Proof.
  unfold direct. induction ws as [|w ws IH]; cbn.
  - destruct (base c); split; [done|done|by intros ?|by intros [_ ?]].
  - rewrite Forall_cons. unfold asserts at 1. destruct (has w); [rewrite IH; naive_solver|]. split; [by intros ?|naive_solver].
Qed.

(** Through the controller, the writers in front may be without it. *)
Lemma controller_reached c ws : Forall (fun w => has_Unwrap w = true) ws ->
  controller has base refused c ws = Reached <->
  exists ws1 ws2, ws = ws1 ++ ws2 /\ Forall (fun w => has w = false) ws1 /\ Forall (fun w => has w = true) ws2 /\ base c = true.
Proof.
  induction 1 as [|w ws Hw Hws IH].
  - cbn. destruct (base c); split; [by intros _; exists [], []|done|done|by intros (? & ? & _ & _ & _ & ?)].
  - cbn [controller]. destruct (asserts has base c (w :: ws)) eqn:E; cbn in E.
    + assert (invoke has base refused c (w :: ws) = direct has base refused c (w :: ws)) as -> by (unfold direct; cbn; by rewrite E).
      rewrite direct_reached. split; [intros [HF Hb]; exists [], (w :: ws); by repeat split|].
      intros ([|x ws1] & ws2 & Eq & H1 & H2 & Hb); cbn in Eq; [by subst|]. simplify_eq. apply Forall_cons in H1 as [H1 _]. congruence.
    + rewrite Hw, IH. split.
      * intros (ws1 & ws2 & -> & H1 & H2 & Hb). exists (w :: ws1), ws2. split; [done|]. split; [by constructor|done].
      * intros ([|x ws1] & ws2 & Eq & H1 & H2 & Hb); cbn in Eq; [subst; apply Forall_cons in H2 as [H2 _]; congruence|].
        simplify_eq. apply Forall_cons in H1 as [_ H1]. by exists ws1, ws2.
Qed.

End Method.

(** The writers a request meets unless it is served from or into the cache, or by the file
    server: the cache lets upgrades and its other bypasses through unwrapped. *)
Definition transparent : list wrapper := [loggerRW; interceptRW; compressWriter; timeoutRW; ratelimitRW; requestTrackRW; preloadPusherRW].

(** Upgrades and streams pass.  Through any stack of the writers in front of an upstream,
    in any order and repetition, a hijack, a flush and a push reach the connection exactly
    when it has them, called directly or (hijack and flush) through net/http's
    controller. *)
Theorem stacks_pass c ws :
  ws ⊆ transparent ->
  (Hijack c ws = Reached <-> Hijacker c = true) /\ (controller_Hijack c ws = Reached <-> Hijacker c = true) /\
  (Flush c ws = Reached <-> Flusher c = true) /\ (controller_Flush c ws = Reached <-> Flusher c = true) /\
  (Push c ws = Reached <-> Pusher c = true).
Proof.
  intros Hs. assert (forall has : wrapper -> bool, Forall (fun w => has w = true) transparent -> Forall (fun w => has w = true) ws) as Hsub.
  { intros has Hl. apply Forall_forall. intros w Hw. rewrite Forall_forall in Hl. by apply Hl, Hs. }
  assert (forall has base refused, refused <> Reached -> Forall (fun w => has w = true) transparent ->
    (direct has base refused c ws = Reached <-> base c = true) /\ (controller has base refused c ws = Reached <-> base c = true)) as Hall.
  { intros has base refused Hr Hl. pose proof (Hsub has Hl) as HF. split.
    - rewrite direct_reached by done. naive_solver.
    - rewrite controller_reached by (done || (apply Hsub; by repeat constructor)). split; [naive_solver|]. intros Hb. by exists [], ws. }
  destruct (Hall has_Hijack Hijacker ErrNotSupported) as [H1 H2]; [done|by repeat constructor|].
  destruct (Hall has_Flush Flusher Dropped) as [H3 H4]; [done|by repeat constructor|].
  destruct (Hall has_Push Pusher ErrNotSupported) as [H5 _]; [done|by repeat constructor|]. done.
Qed.

(** ** Runs *)

(** A writer that hijacks in front of one that does not hides what the controller would
    find: the file server's writer under a logger drops flushes. *)
Example hidden_flush : Flush http1 [loggerRW; fileserverRW] = Dropped /\ controller_Flush http1 [fileserverRW; loggerRW] = Reached.
Proof. done. Qed.

(** A wrapped writer is always a pusher, so [PreloadPusher] takes HTTP/1 behind a logger
    for a connection that pushes: nothing is pushed, and the handler's headers are lost. *)
Example preload_over_http1 :
  asserts has_Push Pusher http1 [loggerRW] = true /\ Push http1 [loggerRW] = ErrNotSupported /\
  sent (H2Push.Preload_ServeHandler H2PushFacts.parse (asserts has_Push Pusher http1 [loggerRW]) H2PushFacts.page H2PushFacts.request new_rw []).1.1
    = Some (200, ∅) /\
  sent (H2Push.Preload_ServeHandler H2PushFacts.parse (asserts has_Push Pusher http1 []) H2PushFacts.page H2PushFacts.request new_rw []).1.1
    <> Some (200, ∅).
Proof. split_and!; vm_compute; congruence. Qed.

Lemma stacks_pass_witness : controller_Hijack http1 [loggerRW; compressWriter; ratelimitRW] = Reached.
Proof. apply (stacks_pass http1 [loggerRW; compressWriter; ratelimitRW]); [|reflexivity]. intros w Hw. unfold transparent. repeat (apply elem_of_cons in Hw as [->|Hw]; [set_solver|]). by apply elem_of_nil in Hw. Defined.

End WritersFacts.
